(* ===== verification/_CoqProject ===== *)
-Q . S2P
Prelude.v
Bytes.v
CapTypes.v
CapTable.v
CapTree.v
CapSafety.v
CapOrphans.v
CapAudit.v
NativeAbi.v
PortEngine.v
PortInv.v
PortTransfer.v
PortOps.v
PortSafety.v
PortQueues.v
PortEffects.v
PortWakeups.v
PortAuthority.v
PortExit.v
Elf.v
ElfPlan.v
ElfPages.v
MemoryMap.v
FrameAllocator.v
FrameSpec.v
FrameRefine.v
AddressSpace.v
ImageLoader.v
ImageSpec.v
ImageMap.v
ImagePlan.v
SpaceLife.v
BlockDev.v
Store.v
StoreCodec.v
StoreLayout.v
StoreDevice.v
StoreCrash.v
StoreChecksum.v
LinuxMem.v
Lifecycle.v
LifecycleHealth.v
LifecycleDeps.v
LifecycleWire.v
Supervisor.v
SupervisorSafety.v
