(* ===== verification/Prelude.v ===== *)
(** * Clean-Slate: authority, ports, memory, services and the persistent store

    Clean-Slate is an operating system written in Rust. Modelled here are the parts that decide
    what a process may do and what survives: the capability table, the port engine, the memory
    a process is given, the supervision of services and the persistent store. Definitions are
    translated from the source, executable, and keep its names (constants too); the theorems
    make them correct.

    ** The program and the files

    - The capability crate ([capability/src]) holds the kernel's table of capabilities: grants,
      delegation, revocation of subtrees, the authorization check, the audit log. The kernel
      wraps one table ([kernel/src/capability/mod.rs], [audit.rs]).
      [CapTypes] models handles, rights, resources, provenance, records and [authorize];
      [CapTable] the table and its slot operations; [CapTree] delegation, tree revocation and
      fork inheritance; [CapSafety] and [CapOrphans] the theorems about them; [CapAudit] the
      audit log, its text form, the kernel's audited checks and the audit reader syscall.
    - The native ABI ([native-abi/src]) fixes the encodings shared by kernel and processes.
      [NativeAbi] models the ids, envelopes and records of ports and shared buffers.
    - The port engine ([port/src]) is the state machine behind syscall 17: a registry of ports,
      connections, queued requests, event rings, and capabilities sent with requests.
      [PortEngine] models every operation, [effects.rs] and [transfer.rs] included. A [World] is
      the engine, the capability table it is lent and the effects it lists.
      [PortInv] states the invariant and its preservation by each change of state,
      [PortTransfer] what a transfer does to the table, [PortOps] each operation on every branch
      and the engine as a labelled transition system ([act_step]: quiet changes, the delivery
      of a request, a change of the table by the rest of the kernel), [PortSafety] runs of
      operations. [PortQueues], [PortEffects], [PortWakeups], [PortAuthority] and [PortExit]
      hold the theorems.
    - Programs are ELF files ([elf/src]). [Elf] models the parser and its policy, [ElfPlan] and
      [ElfPages] are about the load plan it returns.
    - Physical memory ([kernel/src/mm], [kernel/src/boot/uefi.rs]). [MemoryMap] models the
      reservation and normalization of the firmware's memory map, [FrameAllocator] the frame
      allocator in both build profiles, with its free list kept in the freed frames;
      [FrameSpec] says what it promises (a heap of frames with contents) and [FrameRefine] that
      it keeps the promise.
    - Address spaces ([kernel/src/mm/address_space.rs], [image_loader.rs]). [AddressSpace] models
      mapping, unmapping and teardown over the page tables of the x86_64 crate, which are the
      class [PageTables] with their documented behaviour as laws and [SoftTables] as an
      instance; [ImageLoader] models the loading of images and stacks, [ImageSpec], [ImageMap]
      and [ImagePlan] are about the pages it leaves, [SpaceLife] about the life of a space.
      [LinuxMem] models [brk], [mmap] and [munmap] of the Linux personality
      ([kernel/src/process/linux_mem.rs]) on top.
    - The block layer ([block/src]) states what a device promises, with an in-memory device and
      one that fails on a plan. [BlockDev] models the trait as the class [BlockDevice] and the
      two devices as its instances.
    - The object store ([store/src/lib.rs]) keeps up to seven objects on a block device; two
      superblocks alternate. [Store] models it over any [BlockDevice]; [StoreCodec] is about
      the superblock format, [StoreLayout] about the table of objects and its layout,
      [StoreDevice] about what reads and writes do to the images of a failing device,
      [StoreCrash] about power loss and [StoreChecksum] about the payload checksum.
    - Services ([service-lifecycle/src], [supervisor/src]). [Lifecycle] models the state machine
      of a service, its record and the registry; [LifecycleHealth] the health watch and the
      restart policy; [LifecycleDeps] the dependency graph and start readiness; [LifecycleWire]
      the messages. [Supervisor] models the supervisor that joins them, over the classes
      [LifecycleControl] and [DiagnosticSink] of its two traits; [SupervisorSafety] is about
      its loop.

    [Prelude] (this file) has the [result] type and its notations, machine integers as [Z] with
    their wrap-around written out, the loop combinators with their rules, searching and
    counting in lists. [Bytes] has little-endian encodings, slices and copies.

    ** How the code is modelled

    Structs are records and enums inductive types with the constructors of the source. A method
    that takes [&mut self] returns the new state; [?] is [let?] (or [let?+] where the state is
    returned on errors too). [for] loops over a range are [for_range], with an early exit
    [try_range]; a loop over a slice is a [Fixpoint] on the list. [usize] is 64 bits. Arrays of
    a const size [N] are lists of that length. In the memory files a panic is a value ([Halt] of
    [stop]); elsewhere panics ([expect], a failed index) are not modelled as values: the
    operations that could panic do so only outside the invariant that is proved for every
    reachable state, or on a constant the source chooses. Physical memory is a map from frame
    addresses to their bytes; what a raw pointer reads and writes goes through it.
    The port engine is given its policy inputs (caller, attestation of a buffer) by the kernel;
    they are arguments of the operations, and the theorems hold for all of them.

    ** What the theorems show

    - Authority. Every successful check in the table is backed by a live root grant
      ([authority_confined]), with delegations that only attenuate ([delegate_attenuates]), and
      this stays so when capabilities travel through ports ([port_authority_confined],
      [transfer_attenuates]). A revoked handle never authorizes again and a handle is never
      reused. Revoking a subtree, a holder or a resource revokes exactly what it should; the
      bounded walks reach everything ([revoke_subtree_exact], [authorize_revoke_iff]).
    - Audit. The bounded log is the tail of the history ([audit_log_is_history_tail]), paging
      loses nothing, every kernel decision is logged once, and the reader is guarded.
    - Ports. The engine's own invariant check holds in every reachable state; requests and
      events are queues; effects are never dropped; wakeups are not lost, and an operation
      blocks only while it waits for one; a capability that was not delivered dies with its
      request; the exit of a process leaves nothing of it behind.
    - Memory. What the ELF parser accepts is safe to map ([load_plan_valid]) and its page count
      is exact. The allocator hands out every usable frame once and keeps the contents of those
      it handed out ([allocator_refines], [boot_allocator_exact]). A loaded image is exactly the
      file's bytes, in frames of its own, with the permissions of the file, or the load is
      undone ([image_loaded_exactly]); a torn-down space returns every frame, whatever requests
      it served and wherever they failed ([teardown_returns_everything]); [mmap] gives fresh zeroed pages
      ([mmap_gives_fresh_zeroed_pages]).
    - Store. The superblock format round-trips and everything that decodes is well formed.
      Whatever the device does (power loss or errors at any write or flush, writes persisted
      early, any number of power cycles) the store mounts again, with the last commit or one
      attempted since ([store_crash_safe]); a commit that returned is durable, and a healthy
      device takes every commit that fits ([commit_durable]).
    - Services. Only the current instance of a service moves its state
      ([only_current_instance_speaks]); a failure is reported once, exactly when the instance
      died or fell silent ([failure_detection_exact]); the graph accepts exactly the acyclic
      dependencies and then some service can always start ([dependencies_acyclic_exact],
      [start_never_deadlocks]); the wire format round-trips, and the decoder lets a non-zero
      reserved word pass ([lifecycle_codec]). The supervisor's
      recursion ends ([supervision_terminates]) and never exceeds the restart budget
      ([restarts_within_budget]).
    - Flaws. A fork that fails on the delegation depth leaks the copies it made
      ([fork_depth_error_leaks]); flat revocation cuts subtrees off, and an orphan whose parent
      is released blocks subtree revocation in the whole table ([flat_revoke_orphans]); the
      payload checksum skips four bytes of every object, so their corruption on disk is not
      noticed ([payload_corruption_undetected]). [munmap] of a non-canonical address stops the kernel
      ([munmap_stops_kernel]); shrinking the break frees the part that is kept
      ([brk_shrink_unmaps_kept_heap]); the table of mappings only fills up until the process
      executes another image ([mmap_table_never_recovers]). The health of service 0 is never seen by its dependents
      ([snapshot_loses_service_zero]); a start that hangs is not restarted
      ([hung_start_not_restarted]).

    ** Bounds and fuel

    Tables of capabilities have at most 65536 slots where handles are encoded in 16 bits
    ([addressable]); ports have the sizes [PortCore::new] asserts. Recursions are structural,
    or follow a bound of the source: the passes of [mark_passes] are the source's
    [MAX_DELEGATION_DEPTH + 1], proved to reach every descendant; decimal printing has 20
    digits, proved enough for 64 bits; the log is followed for fewer than 2^64 - 1 events.
    The store's chunk loops run the number of rounds the source computes.
    Confinement across ports excludes forks ([no_fork]): the copy a fork makes of a capability
    that is queued in a request survives the purge of that request.
    Dependency walks are cut off at the source's depth of 32; cycles are detected exactly in
    graphs of at most 33 services, a hypothesis of the theorems. The address loops of
    [LinuxMem] have fuel computed from their bounds; more of it makes no difference. The
    recursion of [handle_lifecycle_event] has fuel that a caller chooses; [budget] is enough,
    for transports that deliver finitely many events per request ([FiniteTransport]).

    ** Not modelled

    The boot path, drivers, interrupts and the scheduler of the kernel act on hardware and
    context switches; creation of the kernel's own page tables, shared-buffer mappings, process
    domains, the rest of the Linux personality and the dispatch of system calls act on global
    cells around the parts above. The network stack, graphics and raster crates, the userspace
    services, the self tests and [xtask] are not modelled. The manifest lists each part with
    its reason. *)

From Stdlib Require Import ZArith List Lia.
From stdpp Require Import base list tactics decidable numbers strings.

Declare Scope clean_slate_scope.
Delimit Scope clean_slate_scope with cs.

(** * Results

    Rust's [Result<A, E>]; [let? x := c in k] is the [?] operator and
    [let?+ t, x := c in k] the same for operations that also return the state
    they were given by [&mut]. *)

Inductive result (E A : Type) : Type :=
| Ok (a : A)
| Err (e : E).

Arguments Ok {E A} a.
Arguments Err {E A} e.

#[export] Instance result_eq_dec {E A : Type} `{EqDecision E} `{EqDecision A} :
  EqDecision (result E A).
Proof. solve_decision. Defined.

Notation "'let?' x ':=' c 'in' k" :=
  (match c with Ok x => k | Err e => Err e end)
  (at level 10, x pattern, c at level 100, k at level 200)
  : clean_slate_scope.

Notation "'let?+' s ',' x ':=' c 'in' k" :=
  (match c with (s, Ok x) => k | (s, Err e) => (s, Err e) end)
  (at level 10, s name, x pattern, c at level 100, k at level 200)
  : clean_slate_scope.

Open Scope clean_slate_scope.

Definition ok_or {E A : Type} (o : option A) (e : E) : result E A :=
  match o with Some a => Ok a | None => Err e end.

Definition map_err {E F A : Type} (f : E → F) (r : result E A) : result F A :=
  match r with Ok a => Ok a | Err e => Err (f e) end.

(** An error to return, or a stop that no caller handles: a panic, or fuel that ran out. *)
Inductive stop (E : Type) : Type :=
  | Halt (message : string)
  | Raise (error : E).

Arguments Halt {E}.
Arguments Raise {E}.

Definition lift_err {E F : Type} (f : E → F) (e : stop E) : stop F :=
  match e with Halt m => Halt m | Raise e => Raise (f e) end.

(** [map_err] on a computation with state. *)
Definition map_raise {W E F A : Type} (f : E → F) (c : W * result (stop E) A) : W * result (stop F) A :=
  (c.1, map_err (lift_err f) c.2).

Definition result_map {E A B : Type} (f : A → B) (r : result E A) : result E B :=
  match r with Ok a => Ok (f a) | Err e => Err e end.

Definition is_ok {E A : Type} (r : result E A) : bool :=
  match r with Ok _ => true | Err _ => false end.

(** [unwrap_or] *)
Definition unwrap_or {E A : Type} (r : result E A) (d : A) : A :=
  match r with Ok a => a | Err _ => d end.

(** * Machine integers

    A [w]-bit unsigned integer is a [Z]; [in_width w z] is its range. *)

Definition in_width (w z : Z) : Prop := (0 ≤ z < 2 ^ w)%Z.

#[export] Instance in_width_dec (w z : Z) : Decision (in_width w z).
Proof. unfold in_width. apply _. Defined.

Definition max_of (w : Z) : Z := (2 ^ w - 1)%Z.

Definition u8_max : Z := max_of 8.
Definition u16_max : Z := max_of 16.
Definition u32_max : Z := max_of 32.
Definition u64_max : Z := max_of 64.

(** [as uN] truncation. *)
Definition wrap (w z : Z) : Z := (z mod 2 ^ w)%Z.

Definition checked_add (w a b : Z) : option Z :=
  if decide (a + b < 2 ^ w)%Z then Some (a + b)%Z else None.

Definition checked_sub (a b : Z) : option Z :=
  if decide (b ≤ a)%Z then Some (a - b)%Z else None.

Definition checked_mul (w a b : Z) : option Z :=
  if decide (a * b < 2 ^ w)%Z then Some (a * b)%Z else None.

Definition wrapping_add (w a b : Z) : Z := wrap w (a + b).

Definition saturating_sub (a b : Z) : Z := Z.max 0 (a - b).

Lemma wrap_small (w z : Z) : in_width w z → wrap w z = z.
Proof. intros H. unfold wrap. by apply Z.mod_small. Qed.

Lemma wrap_in_width (w z : Z) : (0 ≤ w)%Z → in_width w (wrap w z).
Proof. intros H. unfold in_width, wrap. apply Z.mod_pos_bound. by apply Z.pow_pos_nonneg. Qed.

Lemma checked_add_Some (w a b c : Z) :
  checked_add w a b = Some c ↔ c = (a + b)%Z ∧ (a + b < 2 ^ w)%Z.
Proof. unfold checked_add. case_decide; split; intros; simplify_eq; first [done | lia | by destruct_and! | destruct_and!; lia | by destruct_and!; subst]. Qed.

Lemma checked_add_None (w a b : Z) :
  checked_add w a b = None ↔ (2 ^ w ≤ a + b)%Z.
Proof. unfold checked_add. case_decide; split; intros; first [done | lia]. Qed.

Lemma checked_mul_Some (w a b c : Z) :
  checked_mul w a b = Some c ↔ c = (a * b)%Z ∧ (a * b < 2 ^ w)%Z.
Proof. unfold checked_mul. case_decide; split; intros; simplify_eq; first [done | lia | by destruct_and! | destruct_and!; lia | by destruct_and!; subst]. Qed.

Lemma checked_sub_Some (a b c : Z) :
  checked_sub a b = Some c ↔ c = (a - b)%Z ∧ (b ≤ a)%Z.
Proof. unfold checked_sub. case_decide; split; intros; simplify_eq; first [done | lia | by destruct_and! | destruct_and!; lia | by destruct_and!; subst]. Qed.

(** Split on the next checked operation of the goal; the error case is closed by [done]. *)
Ltac checked_op :=
  match goal with
  | |- context [ok_or (checked_add ?w ?a ?b) _] =>
      let E := fresh "E" in
      destruct (checked_add w a b) eqn:E; cbn [ok_or]; [apply checked_add_Some in E as [-> ?]|done]
  | |- context [ok_or (checked_mul ?w ?a ?b) _] =>
      let E := fresh "E" in
      destruct (checked_mul w a b) eqn:E; cbn [ok_or]; [apply checked_mul_Some in E as [-> ?]|done]
  | |- context [ok_or (checked_sub ?a ?b) _] =>
      let E := fresh "E" in
      destruct (checked_sub a b) eqn:E; cbn [ok_or]; [apply checked_sub_Some in E as [-> ?]|done]
  end.


(** Rounding to a power of two: [v & !(align - 1)] and [v & (align - 1)]. *)
Lemma ldiff_pow2 (v k : Z) : (0 ≤ k)%Z → Z.ldiff v (2 ^ k - 1) = (2 ^ k * (v / 2 ^ k))%Z.
Proof.
  intros Hk. replace (2 ^ k - 1)%Z with (Z.ones k) by (rewrite Z.ones_equiv; lia).
  rewrite Z.ldiff_ones_r, Z.shiftl_mul_pow2, Z.shiftr_div_pow2 by done. lia.
Qed.

Lemma land_pow2 (v k : Z) : (0 ≤ k)%Z → Z.land v (2 ^ k - 1) = (v mod 2 ^ k)%Z.
Proof.
  intros Hk. replace (2 ^ k - 1)%Z with (Z.ones k) by (rewrite Z.ones_equiv; lia).
  by apply Z.land_ones.
Qed.

(** * Slot/generation words

    Handles, connection ids and shared-buffer ids share one wire form: a 16-bit
    slot in bits 0..16, a 32-bit generation in bits 16..48, bits 48..64 zero. *)

Definition HIGH_BITS_MASK : Z := 0xffff000000000000.

Section packing.
Local Open Scope Z_scope.

Lemma lor_shiftl_add (a b n : Z) :
  0 ≤ n → 0 ≤ a < 2 ^ n → Z.lor a (Z.shiftl b n) = a + b * 2 ^ n.
Proof.
  intros Hn Ha. rewrite Z.shiftl_mul_pow2 by done.
  assert (Z.land a (b * 2 ^ n) = 0) as Hz.
  { apply Z.bits_inj'. intros i Hi. rewrite Z.land_spec, Z.bits_0.
    destruct (decide (i < n)) as [Hlt|Hge].
    - rewrite Z.mul_pow2_bits_low by lia. apply andb_false_r.
    - rewrite <- (Z.mod_small a (2 ^ n)) by lia.
      rewrite Z.mod_pow2_bits_high by lia. done. }
  rewrite Z.add_nocarry_lxor, Z.lxor_lor by done. done.
Qed.

Lemma wrap_pack_slot (s g : Z) :
  in_width 16 s → wrap 16 (Z.lor s (Z.shiftl g 16)) = s.
Proof.
  unfold in_width, wrap. intros Hs. rewrite lor_shiftl_add by lia.
  rewrite Z.mod_add by lia. by apply Z.mod_small.
Qed.

Lemma wrap_pack_generation (s g : Z) :
  in_width 16 s → in_width 32 g → wrap 32 (Z.shiftr (Z.lor s (Z.shiftl g 16)) 16) = g.
Proof.
  unfold in_width, wrap. intros Hs Hg. rewrite lor_shiftl_add by lia.
  rewrite Z.shiftr_div_pow2, Z.div_add by lia.
  rewrite (Z.div_small s) by lia. by apply Z.mod_small.
Qed.

Lemma high_bits_clear (raw : Z) :
  in_width 64 raw → Z.land raw HIGH_BITS_MASK = 0 ↔ raw < 2 ^ 48.
Proof.
  unfold in_width, HIGH_BITS_MASK. intros Hraw.
  replace 0xffff000000000000 with (Z.shiftl (Z.ones 16) 48) by reflexivity.
  assert (Z.land raw (Z.shiftl (Z.ones 16) 48) = (raw / 2 ^ 48) * 2 ^ 48) as ->.
  { rewrite <- Z.shiftl_mul_pow2, <- Z.shiftr_div_pow2 by lia.
    apply Z.bits_inj'. intros i Hi. rewrite Z.land_spec, !Z.shiftl_spec by lia.
    destruct (decide (i < 48)) as [Hlt|Hge].
    - rewrite !(Z.testbit_neg_r _ (i - 48)) by lia. apply andb_false_r.
    - rewrite Z.shiftr_spec by lia. replace (i - 48 + 48) with i by lia.
      destruct (decide (i < 64)).
      + rewrite Z.ones_spec_low by lia. apply andb_true_r.
      + rewrite <- (Z.mod_small raw (2 ^ 64)) by lia.
        rewrite Z.mod_pow2_bits_high by lia. done. }
  assert (0 ≤ raw / 2 ^ 48) by (apply Z.div_pos; lia).
  split; intros H1.
  - assert (raw / 2 ^ 48 = 0) as H2 by lia. apply Z.div_small_iff in H2; lia.
  - rewrite Z.div_small; lia.
Qed.

Lemma pack_in_width (s g : Z) :
  in_width 16 s → in_width 32 g →
  in_width 64 (Z.lor s (Z.shiftl g 16)) ∧ Z.land (Z.lor s (Z.shiftl g 16)) HIGH_BITS_MASK = 0.
Proof.
  unfold in_width. intros Hs Hg.
  assert (0 ≤ Z.lor s (Z.shiftl g 16) < 2 ^ 48) as H
    by (rewrite lor_shiftl_add by lia; lia).
  split; [lia|]. apply high_bits_clear; unfold in_width; lia.
Qed.

Lemma pack_unpack (raw : Z) :
  in_width 64 raw → Z.land raw HIGH_BITS_MASK = 0 →
  Z.lor (wrap 16 raw) (Z.shiftl (wrap 32 (Z.shiftr raw 16)) 16) = raw.
Proof.
  intros Hraw Hm. apply high_bits_clear in Hm; [|done].
  unfold in_width in *. rewrite lor_shiftl_add by (try apply wrap_in_width; lia).
  unfold wrap. rewrite Z.shiftr_div_pow2 by lia.
  rewrite (Z.mod_small (raw / 2 ^ 16)).
  - pose proof (Z.div_mod raw (2 ^ 16)). lia.
  - split; [apply Z.div_pos; lia|]. apply Z.div_lt_upper_bound; lia.
Qed.
End packing.

(** * Loops

    [for i in lo..hi { s = body(i, s) }], and the same with an early [return]
    of an error. *)

Definition for_range {St : Type} (lo hi : nat) (body : nat → St → St) (s : St) : St :=
  fold_left (λ s i, body i s) (seq lo (hi - lo)) s.

Fixpoint try_fold {E St A : Type} (body : A → St → result E St) (l : list A) (s : St)
  : result E St :=
  match l with
  | [] => Ok s
  | a :: l => let? s' := body a s in try_fold body l s'
  end.

Definition try_range {E St : Type} (lo hi : nat) (body : nat → St → result E St) (s : St)
  : result E St := try_fold body (seq lo (hi - lo)) s.

(** [for a in l { body(a, &mut s)?; }] *)
Fixpoint try_each {E St A : Type} (body : A → St → St * result E unit) (l : list A) (s : St)
  : St * result E unit :=
  match l with
  | [] => (s, Ok ())
  | a :: l => let?+ s, _ := body a s in try_each body l s
  end.

Section loops.
Context {E St : Type}.

Lemma fold_seq_ind (P : nat → St → Prop) (body : nat → St → St) (n lo : nat) (s : St) :
  P lo s →
  (∀ i s, lo ≤ i < lo + n → P i s → P (S i) (body i s)) →
  P (lo + n) (fold_left (λ s i, body i s) (seq lo n) s).
Proof.
  revert lo s. induction n as [|n IH]; intros lo s H0 Hstep; simpl.
  - by rewrite Nat.add_0_r.
  - rewrite Nat.add_succ_r, <- Nat.add_succ_l. apply IH.
    + apply Hstep; [lia|done].
    + intros i s' Hi. apply Hstep. lia.
Qed.

(** The loop rule: an invariant indexed by the loop counter. *)
Lemma for_range_ind (P : nat → St → Prop) (body : nat → St → St) (lo hi : nat) (s : St) :
  lo ≤ hi →
  P lo s →
  (∀ i s, lo ≤ i < hi → P i s → P (S i) (body i s)) →
  P hi (for_range lo hi body s).
Proof.
  intros Hle H0 Hstep. unfold for_range.
  replace hi with (lo + (hi - lo)) at 1 by lia.
  apply fold_seq_ind; [done|]. intros i s' Hi. apply Hstep. lia.
Qed.

Lemma try_seq_ind (P : nat → St → Prop) (body : nat → St → result E St) (n lo : nat) (s : St) :
  P lo s →
  (∀ i s, lo ≤ i < lo + n → P i s → ∃ s', body i s = Ok s' ∧ P (S i) s') →
  ∃ s', try_fold body (seq lo n) s = Ok s' ∧ P (lo + n) s'.
Proof.
  revert lo s. induction n as [|n IH]; intros lo s H0 Hstep; simpl.
  - exists s. by rewrite Nat.add_0_r.
  - destruct (Hstep lo s) as (s1 & -> & H1); [lia|done|].
    rewrite Nat.add_succ_r, <- Nat.add_succ_l. apply IH; [done|].
    intros i s' Hi. apply Hstep. lia.
Qed.

(** The loop rule for a fallible body that never fails under the invariant. *)
Lemma try_range_ind (P : nat → St → Prop) (body : nat → St → result E St) (lo hi : nat) (s : St) :
  lo ≤ hi →
  P lo s →
  (∀ i s, lo ≤ i < hi → P i s → ∃ s', body i s = Ok s' ∧ P (S i) s') →
  ∃ s', try_range lo hi body s = Ok s' ∧ P hi s'.
Proof.
  intros Hle H0 Hstep. unfold try_range.
  destruct (try_seq_ind P body (hi - lo) lo s) as (s' & Hs & HP).
  - done.
  - intros i s' Hi. apply Hstep. lia.
  - exists s'. split; [done|]. by replace hi with (lo + (hi - lo)) by lia.
Qed.

(** What a fallible loop that returned has kept. *)
Lemma try_range_inv (P : nat → St → Prop) (body : nat → St → result E St) (lo hi : nat) (s s' : St) :
  lo ≤ hi → P lo s →
  (∀ i s s', lo ≤ i < hi → P i s → body i s = Ok s' → P (S i) s') →
  try_range lo hi body s = Ok s' → P hi s'.
Proof.
  intros Hle H0 Hstep. unfold try_range. remember (hi - lo) as n eqn:Hn. revert lo s Hle H0 Hstep Hn.
  induction n as [|n IH]; intros lo s Hle H0 Hstep Hn; simpl.
  - intros [= <-]. by replace hi with lo by lia.
  - destruct (body lo s) as [s1|] eqn:E1; [|done]. apply IH; [lia| | |lia].
    + eapply Hstep; [|done|done]. lia.
    + intros i s2 s3 Hi. apply Hstep. lia.
Qed.

(** A loop that may stop early keeps [P] while it runs and leaves [Q] where it fails. *)
Lemma try_each_inv {A : Type} (P : nat → St → Prop) (Q : St → Prop)
    (body : A → St → St * result E unit) (l : list A) s s' r :
  P 0 s →
  (∀ i a s s' r, l !! i = Some a → P i s → body a s = (s', r) →
     match r with Ok _ => P (S i) s' | Err _ => Q s' end) →
  try_each body l s = (s', r) →
  match r with Ok _ => P (length l) s' | Err _ => Q s' end.
Proof.
  revert P s. induction l as [|a l IH]; intros P s H0 Hstep; simpl; [by intros [= <- <-]|].
  destruct (body a s) as [s1 [[]|e]] eqn:E1.
  - apply (IH (λ i, P (S i))); [by apply (Hstep 0 a s s1 (Ok ()))|].
    intros i b s2 s3 r' Hi. by apply (Hstep (S i)).
  - intros [= <- <-]. by apply (Hstep 0 a s s1 (Err e)).
Qed.

(** A loop whose rounds all succeed. *)
Lemma try_each_ok {A : Type} (P : nat → St → Prop) (body : A → St → St * result E unit) (l : list A) s :
  P 0 s →
  (∀ i a s, l !! i = Some a → P i s → ∃ s', body a s = (s', Ok ()) ∧ P (S i) s') →
  ∃ s', try_each body l s = (s', Ok ()) ∧ P (length l) s'.
Proof.
  revert P s. induction l as [|a l IH]; intros P s H0 Hstep; simpl; [by exists s|].
  destruct (Hstep 0 a s) as (s1 & -> & H1); [done..|].
  apply (IH (λ i, P (S i))); [done|]. intros i b s2 Hi. by apply (Hstep (S i)).
Qed.
End loops.

(** * Searching

    [iter().position(p)], [iter().find(p)] and [iter().min_by_key(f)] (the first of the
    least elements). *)

Fixpoint position {A : Type} (p : A → bool) (l : list A) : option nat :=
  match l with
  | [] => None
  | x :: l => if p x then Some 0 else S <$> position p l
  end.

Fixpoint find_first {A : Type} (p : A → bool) (l : list A) : option A :=
  match l with
  | [] => None
  | x :: l => if p x then Some x else find_first p l
  end.

Fixpoint min_by_key {A : Type} (f : A → Z) (l : list A) : option A :=
  match l with
  | [] => None
  | x :: l =>
      match min_by_key f l with
      | Some y => if decide (f x ≤ f y)%Z then Some x else Some y
      | None => Some x
      end
  end.

Section searching.
Context {A : Type}.
Implicit Types (p : A → bool) (l : list A) (x y : A).

Lemma position_Some p l i :
  position p l = Some i ↔
  (∃ x, l !! i = Some x ∧ p x = true) ∧ ∀ j y, j < i → l !! j = Some y → p y = false.
Proof.
  revert i. induction l as [|x l IH]; intros i; simpl; [by split; [|intros [(?&?&_) _]]|].
  destruct (p x) eqn:Hp.
  - split.
    + intros [= <-]. split; [eauto|]. intros; lia.
    + intros [(y & Hy & Hpy) H]. destruct i as [|i]; [done|].
      rewrite (H 0 x) in Hp; [done|lia|done].
  - rewrite fmap_Some. split.
    + intros (k & Hk & ->). apply IH in Hk as [(y & Hy & Hpy) H]. split; [eauto|].
      intros [|j] z Hj Hz; simpl in Hz; [congruence|]. apply (H j); [lia|done].
    + intros [(y & Hy & Hpy) H]. destruct i as [|i]; simpl in Hy; [congruence|].
      exists i. split; [|done]. apply IH. split; [eauto|]. intros j z Hj Hz.
      apply (H (S j)); [lia|done].
Qed.

Lemma position_None p l : position p l = None ↔ ∀ x, x ∈ l → p x = false.
Proof.
  induction l as [|x l IH]; simpl.
  - split; [by intros _ x Hx%elem_of_nil|done].
  - destruct (p x) eqn:Hp.
    + split; [done|]. intros H. rewrite (H x) in Hp by (by left). done.
    + rewrite fmap_None, IH. split.
      * intros H y [->|Hy]%elem_of_cons; auto.
      * intros H y Hy. apply H. by right.
Qed.

Lemma find_first_Some p l x :
  find_first p l = Some x → x ∈ l ∧ p x = true.
Proof.
  induction l as [|y l IH]; simpl; [done|]. destruct (p y) eqn:Hp.
  - intros [= <-]. split; [by left|done].
  - intros [H1 H2]%IH. split; [by right|done].
Qed.

Lemma find_first_None p l : find_first p l = None ↔ ∀ x, x ∈ l → p x = false.
Proof.
  induction l as [|y l IH]; simpl.
  - split; [by intros _ x Hx%elem_of_nil|done].
  - destruct (p y) eqn:Hp.
    + split; [done|]. intros H. rewrite (H y) in Hp by (by left). done.
    + rewrite IH. split.
      * intros H x [->|Hx]%elem_of_cons; auto.
      * intros H x Hx. apply H. by right.
Qed.

Lemma min_by_key_Some (f : A → Z) l x :
  min_by_key f l = Some x → x ∈ l ∧ ∀ y, y ∈ l → (f x ≤ f y)%Z.
Proof.
  revert x. induction l as [|z l IH]; intros x; simpl; [done|].
  destruct (min_by_key f l) as [y|] eqn:E.
  - destruct (IH y eq_refl) as [Hy Hmin]. case_decide as Hz; intros [= <-].
    + split; [by left|]. intros w [->|Hw]%elem_of_cons; [lia|]. specialize (Hmin w Hw). lia.
    + split; [by right|]. intros w [->|Hw]%elem_of_cons; [lia|auto].
  - intros [= <-]. split; [by left|]. intros w [->|Hw]%elem_of_cons; [lia|].
    destruct l as [|a l]; [by apply elem_of_nil in Hw|]. simpl in E.
    destruct (min_by_key f l); [by case_decide|done].
Qed.

Lemma min_by_key_None (f : A → Z) l : min_by_key f l = None ↔ l = [].
Proof.
  destruct l as [|x l]; simpl; [done|]. split; [|done].
  destruct (min_by_key f l); [by case_decide|done].
Qed.
End searching.

(** * Counting *)

Definition count_if {A : Type} (p : A → bool) (l : list A) : nat :=
  length (List.filter p l).

Section counting.
Context {A : Type}.
Implicit Types (p : A → bool) (l : list A) (x y : A).

Lemma count_if_cons p x l : count_if p (x :: l) = Nat.b2n (p x) + count_if p l.
Proof. unfold count_if. simpl. by destruct (p x). Qed.

Lemma count_if_app p l k : count_if p (l ++ k) = count_if p l + count_if p k.
Proof. unfold count_if. by rewrite List.filter_app, length_app. Qed.

Lemma count_if_le p l : count_if p l ≤ length l.
Proof. unfold count_if. apply List.filter_length_le. Qed.

Lemma count_if_replicate p n x : count_if p (replicate n x) = if p x then n else 0.
Proof.
  induction n as [|n IH]; simpl; [by destruct (p x)|].
  rewrite count_if_cons, IH. by destruct (p x).
Qed.

(** Overwriting one element moves the count by the difference of the two. *)
Lemma count_if_insert p l i x y :
  l !! i = Some x →
  count_if p (<[i := y]> l) + Nat.b2n (p x) = count_if p l + Nat.b2n (p y).
Proof.
  revert i. induction l as [|z l IH]; intros [|i] H; simplify_eq/=.
  - rewrite !count_if_cons. lia.
  - rewrite !count_if_cons. specialize (IH _ H). lia.
Qed.

Lemma count_if_pos p l i x : l !! i = Some x → p x = true → 1 ≤ count_if p l.
Proof.
  revert i. induction l as [|z l IH]; intros [|i] H Hp; simplify_eq/=;
    rewrite count_if_cons.
  - rewrite Hp. simpl. lia.
  - specialize (IH _ H Hp). lia.
Qed.

Lemma count_if_ext p q l : (∀ x, x ∈ l → p x = q x) → count_if p l = count_if q l.
Proof.
  induction l as [|z l IH]; intros H; [done|].
  rewrite !count_if_cons, (H z), IH; [done| |by left].
  intros x Hx. apply H. by right.
Qed.

Lemma count_if_split f g l :
  count_if (λ x, f x && g x) l + count_if (λ x, negb (f x) && g x) l = count_if g l.
Proof.
  induction l as [|x l IH]; [done|]. rewrite !count_if_cons.
  destruct (f x), (g x); simpl; lia.
Qed.

Lemma count_if_zero p l : (∀ x, x ∈ l → p x = false) → count_if p l = 0.
Proof.
  induction l as [|z l IH]; intros H; [done|].
  rewrite count_if_cons, (H z), IH; [done| |by left].
  intros x Hx. apply H. by right.
Qed.

Lemma count_if_mono p q l : (∀ x, p x = true → q x = true) → count_if p l ≤ count_if q l.
Proof.
  intros H. induction l as [|z l IH]; [done|]. rewrite !count_if_cons.
  destruct (p z) eqn:E; [rewrite (H _ E)|]; destruct (q z); simpl; lia.
Qed.

Lemma count_if_filter p q l : count_if p (List.filter q l) = count_if (λ x, q x && p x) l.
Proof.
  induction l as [|z l IH]; [done|]. rewrite count_if_cons. simpl.
  destruct (q z); simpl; [|done]. rewrite count_if_cons. lia.
Qed.

Lemma count_if_concat_zero p (ll : list (list A)) :
  (∀ l, l ∈ ll → count_if p l = 0) → count_if p (concat ll) = 0.
Proof.
  induction ll as [|l ll IH]; intros H; [done|]. simpl. rewrite count_if_app, (H l), IH; [done| |by left].
  intros l' Hl'. apply H. by right.
Qed.

(** Only one part contributes. *)
Lemma count_if_concat_one p (ll : list (list A)) i l :
  ll !! i = Some l → (∀ j l', j ≠ i → ll !! j = Some l' → count_if p l' = 0) →
  count_if p (concat ll) = count_if p l.
Proof.
  revert i. induction ll as [|l0 ll IH]; intros [|i] Hi Ho; simplify_eq/=; rewrite count_if_app.
  - rewrite count_if_concat_zero; [lia|]. intros l' [j Hj]%list_elem_of_lookup.
    by apply (Ho (S j)).
  - rewrite (Ho 0 l0) by done. apply (IH i); [done|]. intros j l' Hj Hl'. apply (Ho (S j)); [lia|done].
Qed.

Lemma count_if_concat_insert p (ll : list (list A)) i l l' :
  ll !! i = Some l →
  count_if p (concat (<[i := l']> ll)) + count_if p l = count_if p (concat ll) + count_if p l'.
Proof.
  revert i. induction ll as [|l0 ll IH]; intros [|i] Hi; simplify_eq/=; rewrite !count_if_app.
  - lia.
  - specialize (IH i Hi). lia.
Qed.

Lemma count_if_concat_le p (ll : list (list A)) b :
  (∀ l, l ∈ ll → count_if p l ≤ b) → count_if p (concat ll) ≤ b * length ll.
Proof.
  induction ll as [|l ll IH]; intros H; simpl; [unfold count_if; simpl; lia|]. rewrite count_if_app.
  assert (count_if p l ≤ b) by (apply H; by left).
  assert (count_if p (concat ll) ≤ b * length ll) by (apply IH; intros; apply H; by right). lia.
Qed.

Lemma count_if_zero_inv p l x : count_if p l = 0 → x ∈ l → p x = false.
Proof.
  intros H [i Hi]%list_elem_of_lookup. destruct (p x) eqn:E; [|done].
  pose proof (count_if_pos p l i x Hi E). lia.
Qed.
End counting.

Lemma count_if_fmap {A C : Type} (f : C → A) (p : A → bool) (l : list C) :
  count_if p (f <$> l) = count_if (λ x, p (f x)) l.
Proof. induction l as [|x l IH]; [done|]. rewrite fmap_cons, !count_if_cons. lia. Qed.

(** Writing through a reference to an element that is there. *)
Lemma alter_insert {A : Type} (f : A → A) (l : list A) i x :
  l !! i = Some x → alter f i l = <[i := f x]> l.
Proof.
  revert i. induction l as [|y l IH]; intros [|i] H; simplify_eq/=; [done|].
  f_equal. by apply IH.
Qed.

(** * Automation *)

Create HintDb cs discriminated.

(** Case analysis on the [match]es of a hypothesis (innermost scrutinee first),
    keeping the branch equations and dropping the contradicting branches. *)
Ltac destr_match_in H :=
  repeat match type of H with
  | context [match ?x with _ => _ end] =>
      lazymatch x with
      | context [match _ with _ => _ end] => fail
      | _ => let E := fresh "E" in destruct x eqn:E; simplify_eq/=
      end
  end.

Ltac destr_match :=
  repeat match goal with
  | |- context [match ?x with _ => _ end] =>
      lazymatch x with
      | context [match _ with _ => _ end] => fail
      | _ => let E := fresh "E" in destruct x eqn:E; simplify_eq/=
      end
  end.
