(* ===== verification/Bytes.v ===== *)
(** Byte strings: slices, in-place copies, and little-endian integers.

    A [[u8; N]] or [&[u8]] is a [list Z] of bytes; [x.to_le_bytes()] and
    [from_le_bytes] are [le_encode] and [le_decode]; [&x[a..b]] is [slice a b x] and
    [x[a..].copy_from_slice(bs)] is [blit a bs x]. A copy never changes the length; the
    source only copies within bounds, where [blit_lookup] gives the exact effect. *)

From Stdlib Require Import ZArith Lia.
From stdpp Require Import base list tactics decidable numbers.
From S2P Require Import Prelude.

Local Open Scope Z_scope.

Definition is_byte (b : Z) : Prop := 0 ≤ b < 256.

#[export] Instance is_byte_dec b : Decision (is_byte b).
Proof. unfold is_byte. apply _. Defined.

Fixpoint le_encode (n : nat) (z : Z) : list Z :=
  match n with
  | O => []
  | S n => z mod 256 :: le_encode n (z / 256)
  end.

Fixpoint le_decode (l : list Z) : Z :=
  match l with
  | [] => 0
  | b :: l => b + 256 * le_decode l
  end.

Definition slice {A : Type} (a b : nat) (l : list A) : list A := take (b - a) (drop a l).

Definition blit {A : Type} (a : nat) (bs l : list A) : list A :=
  take a l ++ take (length l - a) bs ++ drop (a + length bs) l.

(** [u32::from_le_bytes(x[off..off + 4])] and its siblings. *)
Definition u16_at (off : nat) (l : list Z) : Z := le_decode (slice off (off + 2) l).
Definition u32_at (off : nat) (l : list Z) : Z := le_decode (slice off (off + 4) l).
Definition u64_at (off : nat) (l : list Z) : Z := le_decode (slice off (off + 8) l).

(** * Little-endian integers *)

Lemma length_le_encode n z : length (le_encode n z) = n.
Proof. revert z. induction n as [|n IH]; intros z; [done|]. simpl. by rewrite IH. Qed.

Lemma pow256_succ n : 256 ^ Z.of_nat (S n) = 256 * 256 ^ Z.of_nat n.
Proof. rewrite Nat2Z.inj_succ, Z.pow_succ_r by lia. done. Qed.

Lemma le_decode_encode n z : 0 ≤ z < 256 ^ Z.of_nat n → le_decode (le_encode n z) = z.
Proof.
  revert z. induction n as [|n IH]; intros z Hz.
  - change (256 ^ Z.of_nat 0) with 1 in Hz. simpl. lia.
  - rewrite pow256_succ in Hz. cbn [le_encode le_decode]. rewrite IH.
    + pose proof (Z.div_mod z 256). lia.
    + split; [apply Z.div_pos; lia|apply Z.div_lt_upper_bound; lia].
Qed.

Lemma le_encode_bytes n z : Forall is_byte (le_encode n z).
Proof.
  revert z. induction n as [|n IH]; intros z; simpl; constructor; [|done].
  unfold is_byte. apply Z.mod_pos_bound. lia.
Qed.

Lemma le_decode_bound l : Forall is_byte l → 0 ≤ le_decode l < 256 ^ Z.of_nat (length l).
Proof.
  induction 1 as [|b l Hb _ IH]; [done|]. cbn [length]. rewrite pow256_succ.
  cbn [le_decode]. unfold is_byte in Hb. lia.
Qed.

Lemma le_encode_decode l : Forall is_byte l → le_encode (length l) (le_decode l) = l.
Proof.
  induction 1 as [|b l Hb _ IH]; [done|]. cbn [length le_encode le_decode].
  unfold is_byte in Hb. rewrite (Z.mul_comm 256), Z.mod_add, Z.mod_small by lia.
  rewrite Z.div_add, Z.div_small, Z.add_0_l by lia. by rewrite IH.
Qed.

(** Widths of the source's integers in bytes. *)
Lemma le_u16 z : in_width 16 z → le_decode (le_encode 2 z) = z.
Proof. intros H. by apply le_decode_encode. Qed.

Lemma le_u32 z : in_width 32 z → le_decode (le_encode 4 z) = z.
Proof. intros H. by apply le_decode_encode. Qed.

Lemma le_u64 z : in_width 64 z → le_decode (le_encode 8 z) = z.
Proof. intros H. by apply le_decode_encode. Qed.

(** * Slices and copies *)

Section slices.
Context {A : Type}.
Implicit Types (l bs : list A).

Lemma length_slice a b l : (b ≤ length l)%nat → length (slice a b l) = (b - a)%nat.
Proof. intros H. unfold slice. rewrite length_take, length_drop. lia. Qed.

Lemma length_blit a bs l : length (blit a bs l) = length l.
Proof. unfold blit. rewrite !length_app, !length_take, length_drop. lia. Qed.

Lemma slice_lookup a b l i :
  slice a b l !! i = if decide (i < b - a)%nat then l !! (a + i)%nat else None.
Proof.
  unfold slice. case_decide.
  - by rewrite lookup_take_lt, lookup_drop by done.
  - by rewrite lookup_take_ge by lia.
Qed.

Lemma blit_lookup a bs l i :
  (a + length bs ≤ length l)%nat →
  blit a bs l !! i =
    if decide (a ≤ i < a + length bs)%nat then bs !! (i - a)%nat else l !! i.
Proof.
  intros H. unfold blit. rewrite (take_ge bs) by lia.
  destruct (decide (i < a)%nat) as [Hi|Hi].
  - rewrite decide_False by lia. rewrite lookup_app_l by (rewrite length_take; lia).
    by rewrite lookup_take_lt.
  - rewrite lookup_app_r by (rewrite length_take; lia). rewrite length_take.
    replace (i - a `min` length l)%nat with (i - a)%nat by lia. case_decide.
    + by rewrite lookup_app_l by lia.
    + rewrite lookup_app_r by lia. rewrite lookup_drop. f_equal. lia.
Qed.

Lemma slice_blit_eq a b bs l :
  (a + length bs ≤ length l)%nat → b = (a + length bs)%nat → slice a b (blit a bs l) = bs.
Proof.
  intros H ->. apply list_eq. intros i. rewrite slice_lookup, blit_lookup by done.
  repeat case_decide; try lia.
  - f_equal. lia.
  - symmetry. apply lookup_ge_None. lia.
Qed.

Lemma slice_blit_ne a b c bs l :
  (c + length bs ≤ length l)%nat → (b ≤ c ∨ c + length bs ≤ a)%nat →
  slice a b (blit c bs l) = slice a b l.
Proof.
  intros H Hd. apply list_eq. intros i. rewrite !slice_lookup, blit_lookup by done.
  repeat case_decide; try done. lia.
Qed.

(** A part of a copied range. *)
Lemma slice_blit_in a b c bs l :
  (c + length bs ≤ length l)%nat → (c ≤ a)%nat → (b ≤ c + length bs)%nat →
  slice a b (blit c bs l) = slice (a - c) (b - c) bs.
Proof.
  intros H Ha Hb. apply list_eq. intros i. rewrite !slice_lookup, blit_lookup by done.
  repeat case_decide; try done; try lia. f_equal. lia.
Qed.

Lemma slice_slice a b c d l :
  (a + d ≤ b)%nat → slice c d (slice a b l) = slice (a + c) (a + d) l.
Proof.
  intros H. apply list_eq. intros i. rewrite !slice_lookup.
  repeat case_decide; try done; try lia. f_equal. lia.
Qed.

Lemma slice_full l : slice 0 (length l) l = l.
Proof. unfold slice. rewrite drop_0, Nat.sub_0_r. by apply take_ge. Qed.

Lemma slice_split a b c l :
  (a ≤ b ≤ c)%nat → slice a c l = slice a b l ++ slice b c l.
Proof.
  intros H. unfold slice.
  replace (c - a)%nat with ((b - a) + (c - b))%nat by lia.
  rewrite <- take_take_drop, drop_drop. do 3 f_equal. lia.
Qed.
End slices.

(** Equality by pieces: the slices between consecutive cut points. *)
Fixpoint same_slices {A} (a : nat) (cuts : list nat) (l l' : list A) : Prop :=
  match cuts with
  | [] => True
  | b :: cuts => slice a b l = slice a b l' ∧ same_slices b cuts l l'
  end.

(** [a ≤ cut ≤ .. ≤ cut = n] *)
Fixpoint tiles (a : nat) (cuts : list nat) (n : nat) : bool :=
  match cuts with
  | [] => bool_decide (a = n)
  | b :: cuts => bool_decide (a ≤ b)%nat && tiles b cuts n
  end.

Lemma tiles_le a cuts n : tiles a cuts n = true → (a ≤ n)%nat.
Proof.
  revert a. induction cuts as [|b cuts IH]; intros a; simpl.
  - intros ->%bool_decide_eq_true. done.
  - intros [Hab%bool_decide_eq_true Hb%IH]%andb_true_iff. lia.
Qed.

Lemma same_slices_eq {A} a cuts (l l' : list A) n :
  tiles a cuts n = true → same_slices a cuts l l' → slice a n l = slice a n l'.
Proof.
  revert a. induction cuts as [|b cuts IH]; intros a; simpl.
  - intros ->%bool_decide_eq_true _. unfold slice. by rewrite Nat.sub_diag.
  - intros [Hab%bool_decide_eq_true Ht]%andb_true_iff [H1 H2].
    pose proof (tiles_le _ _ _ Ht). rewrite (slice_split a b n l), (slice_split a b n l') by lia.
    rewrite H1. f_equal. by apply IH.
Qed.

Lemma list_eq_by_slices {A} cuts (l l' : list A) :
  tiles 0 cuts (length l) = true → length l = length l' → same_slices 0 cuts l l' → l = l'.
Proof.
  intros H1 H2 H3. rewrite <- (slice_full l), <- (slice_full l'), <- H2.
  by apply (same_slices_eq 0 cuts).
Qed.

Lemma slice_replicate {A} (x : A) a b n :
  (a ≤ b ≤ n)%nat → slice a b (replicate n x) = replicate (b - a) x.
Proof.
  intros H. unfold slice. rewrite drop_replicate, take_replicate. f_equal. lia.
Qed.

Lemma slice_bytes a b l : Forall is_byte l → Forall is_byte (slice a b l).
Proof. intros H. unfold slice. by apply Forall_take, Forall_drop. Qed.

Lemma blit_bytes a bs l : Forall is_byte bs → Forall is_byte l → Forall is_byte (blit a bs l).
Proof.
  intros H1 H2. unfold blit. rewrite !Forall_app. split_and!; auto using Forall_take, Forall_drop.
Qed.

(** A field of [n] bytes has [8 n] bits. *)
Lemma field_width n l a b : Forall is_byte l → (b - a ≤ n)%nat → in_width (8 * Z.of_nat n) (le_decode (slice a b l)).
Proof.
  intros Hl Hn. pose proof (le_decode_bound _ (slice_bytes a b l Hl)) as Hb.
  assert (length (slice a b l) ≤ n)%nat as Hs by (unfold slice; rewrite length_take; lia).
  unfold in_width. assert (256 ^ Z.of_nat (length (slice a b l)) ≤ 256 ^ Z.of_nat n).
  { apply Z.pow_le_mono_r; lia. }
  replace (2 ^ (8 * Z.of_nat n)) with (256 ^ Z.of_nat n) by (rewrite Z.pow_mul_r by lia; done). lia.
Qed.

#[export] Hint Resolve le_encode_bytes slice_bytes blit_bytes : cs.

(** Reading one field of a buffer built by copies: skip the copies that do not touch it. *)
Ltac solve_len :=
  rewrite ?length_blit, ?length_le_encode, ?length_replicate; simpl; lia.

Ltac read_field :=
  repeat first
    [ rewrite slice_blit_eq by solve_len
    | rewrite slice_blit_ne by solve_len ].

#[global] Arguments le_encode : simpl never.
#[global] Arguments le_decode : simpl never.
#[global] Arguments slice : simpl never.
#[global] Arguments blit : simpl never.
