(* ===== verification/CapTypes.v ===== *)
(** Capability data and pure checks: [capability/src/] handle.rs, holder.rs,
    state.rs, resource.rs, rights.rs, provenance.rs, record.rs, error.rs and
    authorize.rs. *)

From Stdlib Require Import ZArith Lia.
From stdpp Require Import base list tactics decidable numbers strings.
From S2P Require Import Prelude.

Local Open Scope Z_scope.

(** * Errors (error.rs) *)

Inductive CapabilityError : Type :=
| InvalidHandle | StaleHandle | Revoked_err | UnauthorizedHolder | WrongResource
| MissingRight | InvalidRights | RightsWidening | DelegationDepthExceeded
| CapacityExhausted | GenerationExhausted | NotDelegable.

#[export] Instance CapabilityError_eq_dec : EqDecision CapabilityError.
Proof. solve_decision. Defined.

Module CapabilityErrorOps.
Definition as_u8 (e : CapabilityError) : Z :=
  match e with
  | InvalidHandle => 0 | StaleHandle => 1 | Revoked_err => 2
  | UnauthorizedHolder => 3 | WrongResource => 4 | MissingRight => 5
  | InvalidRights => 6 | RightsWidening => 7 | DelegationDepthExceeded => 8
  | CapacityExhausted => 9 | GenerationExhausted => 10 | NotDelegable => 11
  end.

Definition from_u8 (raw : Z) : option CapabilityError :=
  match raw with
  | 0 => Some InvalidHandle | 1 => Some StaleHandle | 2 => Some Revoked_err
  | 3 => Some UnauthorizedHolder | 4 => Some WrongResource | 5 => Some MissingRight
  | 6 => Some InvalidRights | 7 => Some RightsWidening
  | 8 => Some DelegationDepthExceeded | 9 => Some CapacityExhausted
  | 10 => Some GenerationExhausted | 11 => Some NotDelegable
  | _ => None
  end.

Definition error_name (e : CapabilityError) : string :=
  match e with
  | InvalidHandle => "invalid-handle"
  | StaleHandle => "stale"
  | Revoked_err => "revoked"
  | UnauthorizedHolder => "wrong-holder"
  | WrongResource => "wrong-resource"
  | MissingRight => "missing-right"
  | InvalidRights => "invalid-rights"
  | RightsWidening => "rights-widening"
  | DelegationDepthExceeded => "depth-exceeded"
  | CapacityExhausted => "capacity"
  | GenerationExhausted => "generation-exhausted"
  | NotDelegable => "not-delegable"
  end.

Definition SYSCALL_EACCES : Z := u64_max - 12.
Definition SYSCALL_EINVAL : Z := u64_max - 21.
Definition SYSCALL_ENOSPC : Z := u64_max - 28.
Definition SYSCALL_ESTALE : Z := u64_max - 116.

Definition syscall_status (e : CapabilityError) : Z :=
  match e with
  | InvalidHandle | InvalidRights => SYSCALL_EINVAL
  | StaleHandle | Revoked_err => SYSCALL_ESTALE
  | UnauthorizedHolder | WrongResource | MissingRight | RightsWidening | NotDelegable =>
      SYSCALL_EACCES
  | CapacityExhausted | GenerationExhausted | DelegationDepthExceeded => SYSCALL_ENOSPC
  end.

Definition error_from_status (status : Z) : option CapabilityError :=
  if decide (status = SYSCALL_EINVAL) then Some InvalidHandle
  else if decide (status = SYSCALL_ESTALE) then Some StaleHandle
  else if decide (status = SYSCALL_EACCES) then Some UnauthorizedHolder
  else if decide (status = SYSCALL_ENOSPC) then Some CapacityExhausted
  else None.
End CapabilityErrorOps.

(** * Handles (handle.rs) *)

Definition MAX_SLOTS : nat := 64.
Definition MAX_DELEGATION_DEPTH : Z := 4.

Record CapabilityHandle : Type := MkHandle {
  h_slot : Z;          (* u16 *)
  h_generation : Z;    (* u32 *)
}.

#[export] Instance CapabilityHandle_eq_dec : EqDecision CapabilityHandle.
Proof. solve_decision. Defined.

Definition handle_in_range (h : CapabilityHandle) : Prop :=
  in_width 16 (h_slot h) ∧ in_width 32 (h_generation h).

Module Handle.
Definition INVALID : CapabilityHandle := MkHandle 0 0.

Definition encode (h : CapabilityHandle) : Z :=
  Z.lor (h_slot h) (Z.shiftl (h_generation h) 16).

Definition decode (raw : Z) : result CapabilityError CapabilityHandle :=
  if decide (Z.land raw 0xffff000000000000 ≠ 0) then Err InvalidHandle
  else
    let slot := wrap 16 raw in
    let generation := wrap 32 (Z.shiftr raw 16) in
    if decide (generation = 0) then Err InvalidHandle
    else Ok (MkHandle slot generation).
End Handle.

Module Generation.
Definition next (current : Z) : option Z :=
  if decide (current = u32_max) then None else Some (current + 1).
End Generation.

(** * Holders (holder.rs), slot states (state.rs) *)

Definition HolderId : Type := Z.
Definition KERNEL : HolderId := 0.

Inductive CapabilityState : Type := Empty | Live | Revoked | Retired.

#[export] Instance CapabilityState_eq_dec : EqDecision CapabilityState.
Proof. solve_decision. Defined.

(** * Resources (resource.rs) *)

Inductive ResourceClass : Type :=
| PersistentObject | ProcessControl | IpcEndpoint | BlockDevice | LifecycleControl
| Audit | Network | SharedBuffer | Graphics | Display | Input.

#[export] Instance ResourceClass_eq_dec : EqDecision ResourceClass.
Proof. solve_decision. Defined.

Module ResourceClassOps.
Definition as_u8 (c : ResourceClass) : Z :=
  match c with
  | PersistentObject => 1 | ProcessControl => 2 | IpcEndpoint => 3
  | BlockDevice => 4 | LifecycleControl => 5 | Audit => 6 | Network => 7
  | SharedBuffer => 8 | Graphics => 9 | Display => 10 | Input => 11
  end.

Definition from_u8 (raw : Z) : option ResourceClass :=
  match raw with
  | 1 => Some PersistentObject | 2 => Some ProcessControl | 3 => Some IpcEndpoint
  | 4 => Some BlockDevice | 5 => Some LifecycleControl | 6 => Some Audit
  | 7 => Some Network | 8 => Some SharedBuffer | 9 => Some Graphics
  | 10 => Some Display | 11 => Some Input
  | _ => None
  end.
End ResourceClassOps.

Record ResourceRef : Type := MkResource {
  class : ResourceClass;
  id : Z;                    (* u64 *)
  instance_generation : Z;   (* u64 *)
}.

#[export] Instance ResourceRef_eq_dec : EqDecision ResourceRef.
Proof. solve_decision. Defined.

Module Resource.
Definition object (id : Z) : ResourceRef := MkResource PersistentObject id 0.
Definition process (pid instance_generation : Z) : ResourceRef :=
  MkResource ProcessControl pid instance_generation.
Definition network (service_id instance_generation : Z) : ResourceRef :=
  MkResource Network service_id instance_generation.
Definition network_session (session_generation session_index : Z) : ResourceRef :=
  MkResource Network session_index session_generation.
Definition ipc_endpoint (endpoint_slot : Z) : ResourceRef :=
  MkResource IpcEndpoint endpoint_slot 0.
Definition shared_buffer (raw : Z) : ResourceRef := MkResource SharedBuffer raw 0.
Definition graphics (service_id instance_generation : Z) : ResourceRef :=
  MkResource Graphics service_id instance_generation.
Definition display (output_index : Z) : ResourceRef := MkResource Display output_index 0.
Definition input (seat : Z) : ResourceRef := MkResource Input seat 0.
End Resource.

(** * Rights (rights.rs) *)

Definition Rights : Type := Z.   (* u32 bitset *)

Module RightsOps.
Definition READ : Rights := Z.shiftl 1 0.
Definition WRITE : Rights := Z.shiftl 1 1.
Definition INSPECT : Rights := Z.shiftl 1 2.
Definition DELEGATE : Rights := Z.shiftl 1 3.
Definition REVOKE : Rights := Z.shiftl 1 4.
Definition OBSERVE : Rights := Z.shiftl 1 5.
Definition SIGNAL : Rights := Z.shiftl 1 6.
Definition TERMINATE : Rights := Z.shiftl 1 7.
Definition AUDIT_READ : Rights := Z.shiftl 1 8.
Definition NET_RESOLVE : Rights := Z.shiftl 1 9.
Definition NET_CONNECT : Rights := Z.shiftl 1 10.
Definition NET_SEND : Rights := Z.shiftl 1 11.
Definition NET_RECEIVE : Rights := Z.shiftl 1 12.
Definition NET_RAW_DEVICE : Rights := Z.shiftl 1 13.
Definition GFX_CONNECT : Rights := Z.shiftl 1 14.
Definition GFX_SHELL : Rights := Z.shiftl 1 15.
Definition GFX_OVERLAY : Rights := Z.shiftl 1 16.
Definition GFX_SERVE : Rights := Z.shiftl 1 17.
Definition DISPLAY_PRESENT : Rights := Z.shiftl 1 18.
Definition INPUT_CONSUME : Rights := Z.shiftl 1 19.

Definition union (a b : Rights) : Rights := Z.lor a b.

Definition union_list (l : list Rights) : Rights := fold_right Z.lor 0 l.

(** The disjunction of the twenty bits [1 << 0 | ... | 1 << 19]. *)
Definition ALL_KNOWN : Z :=
  union_list [READ; WRITE; INSPECT; DELEGATE; REVOKE; OBSERVE; SIGNAL; TERMINATE;
    AUDIT_READ; NET_RESOLVE; NET_CONNECT; NET_SEND; NET_RECEIVE; NET_RAW_DEVICE;
    GFX_CONNECT; GFX_SHELL; GFX_OVERLAY; GFX_SERVE; DISPLAY_PRESENT; INPUT_CONSUME].

Definition empty : Rights := 0.

(** [bits & !ALL_KNOWN] on [u32] is [Z.ldiff]. *)
Definition from_bits (bits : Z) : option Rights :=
  if decide (Z.ldiff bits ALL_KNOWN ≠ 0) then None else Some bits.

Definition contains (self required : Rights) : bool :=
  bool_decide (Z.land self required = required).

Definition is_subset_of (self allowed : Rights) : bool :=
  bool_decide (Z.land self allowed = self).

Definition intersects (self other : Rights) : bool :=
  bool_decide (Z.land self other ≠ 0).

Definition attenuate (self mask : Rights) : Rights := Z.land self mask.

Definition valid_for (c : ResourceClass) : Rights :=
  match c with
  | PersistentObject => union_list [READ; WRITE; INSPECT; DELEGATE; REVOKE]
  | ProcessControl => union_list [OBSERVE; SIGNAL; TERMINATE; DELEGATE; REVOKE]
  | IpcEndpoint => union_list [READ; WRITE; DELEGATE; REVOKE]
  | BlockDevice => union_list [READ; WRITE; INSPECT; DELEGATE; REVOKE]
  | LifecycleControl => union_list [OBSERVE; SIGNAL; TERMINATE; DELEGATE; REVOKE]
  | Audit => union_list [AUDIT_READ; DELEGATE]
  | Network => union_list [NET_RESOLVE; NET_CONNECT; NET_SEND; NET_RECEIVE;
                           NET_RAW_DEVICE; DELEGATE; REVOKE]
  | SharedBuffer => union_list [READ; WRITE; DELEGATE; REVOKE]
  | Graphics => union_list [GFX_CONNECT; GFX_SHELL; GFX_OVERLAY; GFX_SERVE; DELEGATE; REVOKE]
  | Display => union_list [DISPLAY_PRESENT; INSPECT]
  | Input => union_list [INPUT_CONSUME; INSPECT]
  end.

Definition root_only_for (c : ResourceClass) : Rights :=
  match c with
  | Graphics => union_list [GFX_SHELL; GFX_OVERLAY; GFX_SERVE]
  | SharedBuffer => union_list [WRITE; DELEGATE; REVOKE]
  | _ => empty
  end.
End RightsOps.

(** * Provenance and records (provenance.rs, record.rs) *)

Record Provenance : Type := MkProvenance {
  parent : option CapabilityHandle;
  depth : Z;            (* u8 *)
  root_holder : HolderId;
}.

#[export] Instance Provenance_eq_dec : EqDecision Provenance.
Proof. solve_decision. Defined.

Module ProvenanceOps.
Definition root (holder : HolderId) : Provenance := MkProvenance None 0 holder.

Definition child_of (parent_handle : CapabilityHandle) (parent_provenance : Provenance)
  : result CapabilityError Provenance :=
  let? new_depth := ok_or (checked_add 8 (depth parent_provenance) 1) DelegationDepthExceeded in
  if decide (MAX_DELEGATION_DEPTH < new_depth) then Err DelegationDepthExceeded
  else Ok (MkProvenance (Some parent_handle) new_depth (root_holder parent_provenance)).
End ProvenanceOps.

Record CapabilityRecord : Type := MkRecord {
  state : CapabilityState;
  holder : HolderId;
  resource : ResourceRef;
  rights : Rights;
  provenance : Provenance;
  generation : Z;       (* u32 *)
}.

#[export] Instance CapabilityRecord_eq_dec : EqDecision CapabilityRecord.
Proof. solve_decision. Defined.

Definition EMPTY_RECORD : CapabilityRecord :=
  MkRecord Empty 0 (MkResource PersistentObject 0 0) RightsOps.empty (MkProvenance None 0 0) 0.

(** Field assignments [record.f = v]. *)
Definition with_state (r : CapabilityRecord) (s : CapabilityState) : CapabilityRecord :=
  MkRecord s (holder r) (resource r) (rights r) (provenance r) (generation r).
Definition with_rights (r : CapabilityRecord) (x : Rights) : CapabilityRecord :=
  MkRecord (state r) (holder r) (resource r) x (provenance r) (generation r).
Definition with_generation (r : CapabilityRecord) (g : Z) : CapabilityRecord :=
  MkRecord (state r) (holder r) (resource r) (rights r) (provenance r) g.

(** * Authorization (authorize.rs) *)

Definition authorize (record : CapabilityRecord) (handle : CapabilityHandle)
    (h : HolderId) (res : ResourceRef) (required : Rights) : result CapabilityError unit :=
  if decide (state record = Empty) then Err InvalidHandle
  else if decide (state record = Retired) then Err StaleHandle
  else if decide (generation record ≠ h_generation handle) then Err StaleHandle
  else if decide (state record = Revoked) then Err Revoked_err
  else if decide (holder record ≠ h) then Err UnauthorizedHolder
  else if decide (resource record ≠ res) then Err WrongResource
  else if negb (RightsOps.contains (rights record) required) then Err MissingRight
  else Ok ().

Definition validate_delegation (par : CapabilityRecord) (parent_handle : CapabilityHandle)
    (source_holder : HolderId) (requested : Rights) : result CapabilityError Rights :=
  let? _ := authorize par parent_handle source_holder (resource par) RightsOps.DELEGATE in
  if negb (RightsOps.is_subset_of requested (rights par)) then Err RightsWidening
  else if negb (RightsOps.is_subset_of requested (RightsOps.valid_for (class (resource par))))
  then Err InvalidRights
  else if RightsOps.intersects requested (RightsOps.root_only_for (class (resource par)))
  then Err NotDelegable
  else Ok requested.

(** * The order on rights

    [rights_le a b]: every bit of [a] is a bit of [b]. *)

Definition rights_le (a b : Rights) : Prop := Z.land a b = a.

Infix "⊑r" := rights_le (at level 70) : clean_slate_scope.

#[export] Instance rights_le_preorder : PreOrder rights_le.
Proof.
  split; unfold rights_le.
  - intros a. apply Z.land_diag.
  - intros a b c Hab Hbc. rewrite <- Hab at 1. by rewrite <- Z.land_assoc, Hbc.
Qed.

#[export] Instance rights_le_antisymm : AntiSymm eq rights_le.
Proof. unfold rights_le. intros a b Hab Hba. by rewrite <- Hab, Z.land_comm. Qed.

Lemma rights_le_testbit (a b : Rights) :
  a ⊑r b ↔ ∀ i, 0 ≤ i → Z.testbit a i = true → Z.testbit b i = true.
Proof.
  unfold rights_le. split.
  - intros H i Hi Ha. rewrite <- H, Z.land_spec in Ha. by apply andb_true_iff in Ha as [_ Ha].
  - intros H. apply Z.bits_inj'. intros i Hi. rewrite Z.land_spec.
    destruct (Z.testbit a i) eqn:E; [|done]. by rewrite H.
Qed.

Lemma is_subset_of_true (a b : Rights) : RightsOps.is_subset_of a b = true ↔ a ⊑r b.
Proof. apply bool_decide_eq_true. Qed.

Lemma contains_true (a b : Rights) : RightsOps.contains a b = true ↔ b ⊑r a.
Proof.
  unfold RightsOps.contains, rights_le. rewrite bool_decide_eq_true.
  by rewrite (Z.land_comm a b).
Qed.

Lemma intersects_false (a b : Rights) : RightsOps.intersects a b = false ↔ Z.land a b = 0.
Proof.
  unfold RightsOps.intersects. rewrite bool_decide_eq_false.
  destruct (decide (Z.land a b = 0)); naive_solver.
Qed.

Lemma land_zero_le (a b m : Rights) : a ⊑r b → Z.land b m = 0 → Z.land a m = 0.
Proof. unfold rights_le. intros <- H. by rewrite <- Z.land_assoc, H, Z.land_0_r. Qed.

(** * Functional correctness of the pure checks *)

Lemma authorize_Ok (r : CapabilityRecord) h a res req :
  authorize r h a res req = Ok () ↔
  state r = Live ∧ generation r = h_generation h ∧ holder r = a ∧ resource r = res ∧
  req ⊑r rights r.
Proof.
  unfold authorize. rewrite <- contains_true.
  split.
  - intros H. repeat case_decide; try done.
    destruct (RightsOps.contains _ _) eqn:Hc; [|done].
    destruct (state r); naive_solver.
  - intros (Hs & Hg & Ha & Hr & Hc). rewrite Hs, Hg, Ha, Hr, Hc.
    repeat case_decide; done.
Qed.

Lemma authorize_unit (r : CapabilityRecord) h a res req (x : unit) :
  authorize r h a res req = Ok x ↔ authorize r h a res req = Ok ().
Proof. by destruct x. Qed.

Lemma validate_delegation_Ok (p : CapabilityRecord) h src req got :
  validate_delegation p h src req = Ok got ↔
  got = req ∧ state p = Live ∧ generation p = h_generation h ∧ holder p = src ∧
  RightsOps.DELEGATE ⊑r rights p ∧ req ⊑r rights p ∧
  req ⊑r RightsOps.valid_for (class (resource p)) ∧
  Z.land req (RightsOps.root_only_for (class (resource p))) = 0.
Proof.
  unfold validate_delegation.
  rewrite <- !is_subset_of_true, <- intersects_false.
  destruct (authorize p h src (resource p) RightsOps.DELEGATE) as [[]|e] eqn:Ha.
  - apply authorize_Ok in Ha as (?&?&?&_&Hd). apply is_subset_of_true in Hd.
    destruct (RightsOps.is_subset_of req (rights p)) eqn:E1; simpl;
      [|split; [done|intros; destruct_and!; congruence]].
    destruct (RightsOps.is_subset_of req (RightsOps.valid_for _)) eqn:E2; simpl;
      [|split; [done|intros; destruct_and!; congruence]].
    destruct (RightsOps.intersects _ _) eqn:E3;
      (split; [intros [= ->]; by split_and! | intros; destruct_and!; congruence]).
  - split; [done|]. intros (_&?&?&?&Hd&_). exfalso.
    assert (authorize p h src (resource p) RightsOps.DELEGATE = Ok ()) as Hk; [|congruence].
    apply authorize_Ok. by rewrite <- is_subset_of_true.
Qed.

(** The check order of [authorize] as a table: the first failing test decides. *)
Definition first_failure {E : Type} (tests : list (bool * E)) : option E :=
  snd <$> (list_find (λ t, t.1 = true) tests ≫= λ x, Some x.2).

Definition authorize_tests (r : CapabilityRecord) h a res req : list (bool * CapabilityError) :=
  [ (bool_decide (state r = Empty), InvalidHandle);
    (bool_decide (state r = Retired), StaleHandle);
    (bool_decide (generation r ≠ h_generation h), StaleHandle);
    (bool_decide (state r = Revoked), Revoked_err);
    (bool_decide (holder r ≠ a), UnauthorizedHolder);
    (bool_decide (resource r ≠ res), WrongResource);
    (negb (RightsOps.contains (rights r) req), MissingRight) ].

(** [authorize] reports the first failing test of the documented order (empty,
    retired, generation, revoked, holder, resource, rights) and succeeds exactly
    when no test fails. *)
Theorem authorize_first_failure (r : CapabilityRecord) h a res req :
  authorize r h a res req =
    match first_failure (authorize_tests r h a res req) with
    | Some e => Err e
    | None => Ok ()
    end.
Proof.
  unfold authorize, first_failure, authorize_tests.
  repeat case_decide; simpl; rewrite ?bool_decide_eq_true_2 by done;
  rewrite ?bool_decide_eq_false_2 by naive_solver; simpl; try done;
  by destruct (RightsOps.contains _ _).
Qed.

Lemma handle_decode_encode (h : CapabilityHandle) :
  handle_in_range h →
  Handle.decode (Handle.encode h) = if decide (h_generation h = 0) then Err InvalidHandle else Ok h.
Proof.
  intros [Hs Hg]. unfold Handle.decode, Handle.encode.
  change 0xffff000000000000 with HIGH_BITS_MASK.
  destruct (pack_in_width _ _ Hs Hg) as [_ Hm].
  rewrite decide_False by (rewrite Hm; naive_solver).
  rewrite wrap_pack_generation, wrap_pack_slot by done. by destruct h.
Qed.

(** A handle survives its wire encoding, and every word [decode] accepts is the
    encoding of the handle it returns: the codec is a bijection between the handles
    with a non-zero generation and the accepted 64-bit words. *)
Theorem handle_codec (h : CapabilityHandle) (raw : Z) :
  handle_in_range h → in_width 64 raw →
  (Handle.decode (Handle.encode h) =
     if decide (h_generation h = 0) then Err InvalidHandle else Ok h) ∧
  (∀ h', Handle.decode raw = Ok h' →
     Handle.encode h' = raw ∧ handle_in_range h' ∧ h_generation h' ≠ 0).
Proof.
  intros Hr Hraw. split; [by apply handle_decode_encode|].
  unfold Handle.decode, Handle.encode. change 0xffff000000000000 with HIGH_BITS_MASK.
  - intros h' H. repeat case_decide; simplify_eq/=.
    rewrite pack_unpack by done.
    split_and!; [done|split; apply wrap_in_width; lia|done].
Qed.

Lemma handle_codec_witness :
  Handle.decode (Handle.encode (MkHandle 3 7)) = Ok (MkHandle 3 7) ∧
  Handle.encode (MkHandle 3 7) = 0x70003.
Proof.
  assert (handle_in_range (MkHandle 3 7)) as Hr by (split; split; simpl; lia).
  assert (in_width 64 0x70003) as Hw by (split; simpl; lia).
  destruct (handle_codec (MkHandle 3 7) 0x70003 Hr Hw) as [H1 H2].
  split; [exact H1|]. apply (H2 (MkHandle 3 7)). reflexivity.
Defined.

Lemma authorize_audit_codes (e : CapabilityError) :
  CapabilityErrorOps.from_u8 (CapabilityErrorOps.as_u8 e) = Some e.
Proof. by destruct e. Qed.

Lemma resource_class_codes (c : ResourceClass) :
  ResourceClassOps.from_u8 (ResourceClassOps.as_u8 c) = Some c.
Proof. by destruct c. Qed.
