(* ===== verification/CapTable.v ===== *)
(** The slot table: [capability/src/table.rs].

    A [CapabilityTable<N>] is its array of [N] records and its live counter;
    operations on [&mut self] return the new table beside their result. *)

From Stdlib Require Import ZArith Lia.
From stdpp Require Import base list tactics decidable numbers strings relations.
From S2P Require Import Prelude CapTypes.

Local Open Scope Z_scope.

Record CapabilityTable : Type := MkTable {
  slots : list CapabilityRecord;
  live_count : nat;
}.

Module Table.

Definition new (N : nat) : CapabilityTable := MkTable (replicate N EMPTY_RECORD) 0.

(** [N] *)
Definition capacity (t : CapabilityTable) : nat := length (slots t).

(** [&self.slots[slot]]. The source panics out of range; every caller passes a loop
    index below [N] or a slot checked by [slot_index]. *)
Definition record_at (t : CapabilityTable) (slot : nat) : CapabilityRecord :=
  default EMPTY_RECORD (slots t !! slot).

(** [self.slots[slot] = r] *)
Definition set_slot (t : CapabilityTable) (slot : nat) (r : CapabilityRecord) : CapabilityTable :=
  MkTable (<[slot := r]> (slots t)) (live_count t).

Definition validate_rights (c : ResourceClass) (x : Rights) : result CapabilityError unit :=
  if decide (x = RightsOps.empty) then Err InvalidRights
  else if negb (RightsOps.is_subset_of x (RightsOps.valid_for c)) then Err InvalidRights
  else Ok ().

Definition slot_index (N : nat) (handle : CapabilityHandle) : result CapabilityError nat :=
  let slot := Z.to_nat (h_slot handle) in
  if decide (N ≤ slot)%nat then Err InvalidHandle else Ok slot.

Definition slot_as_u16 (slot : nat) : result CapabilityError Z :=
  if decide (Z.of_nat slot ≤ u16_max) then Ok (Z.of_nat slot) else Err CapacityExhausted.

(** The scan of [pick_empty_slot] from [slot], with [n] slots left; an exhausted
    empty slot is retired on the way. *)
Fixpoint pick_empty_from (n slot : nat) (t : CapabilityTable)
  : CapabilityTable * result CapabilityError (nat * Z) :=
  match n with
  | O => (t, Err CapacityExhausted)
  | S n =>
      let r := record_at t slot in
      if decide (state r ≠ Empty) then pick_empty_from n (S slot) t
      else
        match Generation.next (generation r) with
        | Some next => (t, Ok (slot, next))
        | None => pick_empty_from n (S slot) (set_slot t slot (with_state r Retired))
        end
  end.

Definition pick_empty_slot (t : CapabilityTable)
  : CapabilityTable * result CapabilityError (nat * Z) :=
  pick_empty_from (capacity t) 0 t.

Definition bump_live (t : CapabilityTable) : CapabilityTable :=
  MkTable (slots t) (S (live_count t)).

Definition grant (t : CapabilityTable) (h : HolderId) (res : ResourceRef) (x : Rights)
    (prov : Provenance) : CapabilityTable * result CapabilityError CapabilityHandle :=
  match validate_rights (class res) x with
  | Err e => (t, Err e)
  | Ok _ =>
      let?+ t, (slot, gen) := pick_empty_slot t in
      let t := bump_live (set_slot t slot (MkRecord Live h res x prov gen)) in
      (t, let? s := slot_as_u16 slot in Ok (MkHandle s gen))
  end.

Definition install (t : CapabilityTable) (r : CapabilityRecord)
  : CapabilityTable * result CapabilityError CapabilityHandle :=
  match validate_rights (class (resource r)) (rights r) with
  | Err e => (t, Err e)
  | Ok _ =>
      let?+ t, (slot, gen) := pick_empty_slot t in
      let installed := MkRecord Live (holder r) (resource r) (rights r) (provenance r) gen in
      let t := bump_live (set_slot t slot installed) in
      (t, let? s := slot_as_u16 slot in Ok (MkHandle s gen))
  end.

Definition record (t : CapabilityTable) (handle : CapabilityHandle)
  : result CapabilityError CapabilityRecord :=
  let? slot := slot_index (capacity t) handle in
  let r := record_at t slot in
  if decide (state r = Empty) then
    Err (if decide (generation r = 0) then InvalidHandle else StaleHandle)
  else if decide (state r = Retired) then Err StaleHandle
  else if decide (generation r ≠ h_generation handle) then Err StaleHandle
  else Ok r.

Definition authorize (t : CapabilityTable) (h : HolderId) (handle : CapabilityHandle)
    (res : ResourceRef) (required : Rights) : result CapabilityError CapabilityRecord :=
  let? r := record t handle in
  let? _ := CapTypes.authorize r handle h res required in
  Ok r.

Definition authorize_class (t : CapabilityTable) (h : HolderId) (handle : CapabilityHandle)
    (c : ResourceClass) (required : Rights) : result CapabilityError CapabilityRecord :=
  let? r := record t handle in
  if decide (class (resource r) ≠ c) then Err WrongResource
  else
    let? _ := CapTypes.authorize r handle h (resource r) required in
    Ok r.

Definition handle_at (t : CapabilityTable) (slot : nat) : option CapabilityHandle :=
  if decide (capacity t ≤ slot)%nat then None
  else
    let r := record_at t slot in
    if decide (state r = Empty) then None
    else Some (MkHandle (unwrap_or (slot_as_u16 slot) 0) (generation r)).

Definition revoke_slot (t : CapabilityTable) (slot : nat) : CapabilityTable * bool :=
  if decide (capacity t ≤ slot)%nat then (t, false)
  else
    let r := record_at t slot in
    match state r with
    | Live =>
        let r := with_rights (with_state r Revoked) RightsOps.empty in
        (MkTable (<[slot := r]> (slots t)) (live_count t - 1)%nat, true)
    | Revoked | Retired | Empty => (t, false)
    end.

Definition release_slot (t : CapabilityTable) (slot : nat) : CapabilityTable * bool :=
  if decide (capacity t ≤ slot)%nat then (t, false)
  else
    let r := record_at t slot in
    if decide (state r ≠ Revoked) then (t, false)
    else
      let gen := generation r in
      let r :=
        match Generation.next gen with
        | Some next => with_generation EMPTY_RECORD next
        | None => with_state (with_generation EMPTY_RECORD gen) Retired
        end in
      (set_slot t slot r, true).

Definition revoke (t : CapabilityTable) (handle : CapabilityHandle)
  : CapabilityTable * result CapabilityError bool :=
  match slot_index (capacity t) handle with
  | Err e => (t, Err e)
  | Ok slot =>
      let r := record_at t slot in
      if decide (state r = Empty ∧ generation r = 0) then (t, Ok false)
      else if decide (generation r ≠ h_generation handle ∨ state r = Empty)
      then (t, Err StaleHandle)
      else let '(t, b) := revoke_slot t slot in (t, Ok b)
  end.

(** The loop shared by [revoke_holder], [revoke_resource] and [revoke_resource_id]: the
    guard of the source is [state == Live && matches && self.revoke_slot(slot)]. *)
Definition revoke_where (matches : CapabilityRecord → bool) (t : CapabilityTable)
  : CapabilityTable * nat :=
  for_range 0 (capacity t) (λ slot '(t, count),
    if bool_decide (state (record_at t slot) = Live) && matches (record_at t slot) then
      match revoke_slot t slot with
      | (t, true) => (fst (release_slot t slot), S count)
      | (t, false) => (t, count)
      end
    else (t, count)) (t, 0%nat).

Definition revoke_holder (t : CapabilityTable) (h : HolderId) : CapabilityTable * nat :=
  revoke_where (λ r, bool_decide (holder r = h)) t.

Definition revoke_resource (t : CapabilityTable) (res : ResourceRef) : CapabilityTable * nat :=
  revoke_where (λ r, bool_decide (resource r = res)) t.

Definition revoke_resource_id (t : CapabilityTable) (c : ResourceClass) (i : Z)
  : CapabilityTable * nat :=
  revoke_where (λ r, bool_decide (class (resource r) = c) && bool_decide (id (resource r) = i)) t.

Definition state_at (t : CapabilityTable) (slot : nat) : CapabilityState :=
  if decide (capacity t ≤ slot)%nat then Empty else state (record_at t slot).

End Table.

Import Table.

(** * Reading back updates *)

Lemma capacity_set_slot t i r : capacity (set_slot t i r) = capacity t.
Proof. unfold capacity, set_slot. simpl. apply length_insert. Qed.

Lemma record_at_set_slot t i j r :
  record_at (set_slot t i r) j =
    if decide (i = j ∧ (i < capacity t)%nat) then r else record_at t j.
Proof.
  unfold record_at, set_slot, capacity. simpl. case_decide as Hd.
  - destruct Hd as [-> Hlt]. by rewrite list_lookup_insert_eq.
  - destruct (decide (i = j)) as [->|Hne].
    + rewrite list_insert_ge by lia. done.
    + by rewrite list_lookup_insert_ne.
Qed.

Lemma record_at_set_slot_eq t i r : (i < capacity t)%nat → record_at (set_slot t i r) i = r.
Proof. intros H. rewrite record_at_set_slot. by rewrite decide_True. Qed.

Lemma record_at_set_slot_ne t i j r : i ≠ j → record_at (set_slot t i r) j = record_at t j.
Proof. intros H. rewrite record_at_set_slot. rewrite decide_False; naive_solver. Qed.

Lemma record_at_lookup t i : (i < capacity t)%nat → slots t !! i = Some (record_at t i).
Proof.
  unfold capacity, record_at. intros H.
  destruct (lookup_lt_is_Some_2 _ _ H) as [r ->]. done.
Qed.

Lemma record_at_ge t i : (capacity t ≤ i)%nat → record_at t i = EMPTY_RECORD.
Proof. unfold capacity, record_at. intros H. by rewrite lookup_ge_None_2. Qed.

Lemma record_at_bump t i : record_at (bump_live t) i = record_at t i.
Proof. done. Qed.

Lemma record_at_nonempty t i : state (record_at t i) ≠ Empty → (i < capacity t)%nat.
Proof.
  intros H. destruct (decide (i < capacity t)%nat); [done|].
  rewrite record_at_ge in H by lia. done.
Qed.

Lemma table_ext t t' :
  capacity t = capacity t' → (∀ i, record_at t i = record_at t' i) →
  live_count t = live_count t' → t = t'.
Proof.
  destruct t as [l n], t' as [l' n']. unfold capacity. simpl. intros Hlen Hrec ->. f_equal.
  apply list_eq. intros i. destruct (decide (i < length l)%nat) as [H|H].
  - specialize (Hrec i). change l with (slots (MkTable l n')).
    change l' with (slots (MkTable l' n')).
    rewrite !record_at_lookup by (unfold capacity; simpl; lia). by rewrite Hrec.
  - rewrite !lookup_ge_None_2 by lia. done.
Qed.


(** * The slot life cycle

    The abstract machine behind the table: a slot is issued (empty to live, next
    generation), revoked in place, released (empty again with the next generation, or
    retired when the generation is exhausted). Every operation below is a sequence of
    such transitions. *)

Definition released (r : CapabilityRecord) : CapabilityRecord :=
  match Generation.next (generation r) with
  | Some next => with_generation EMPTY_RECORD next
  | None => with_state (with_generation EMPTY_RECORD (generation r)) Retired
  end.

Definition revoked_in_place (r : CapabilityRecord) : CapabilityRecord :=
  with_rights (with_state r Revoked) RightsOps.empty.

Inductive slot_step (t : CapabilityTable) : CapabilityTable → Prop :=
| step_issue slot r :
    (slot < capacity t)%nat →
    state (record_at t slot) = Empty →
    Generation.next (generation (record_at t slot)) = Some (generation r) →
    state r = Live →
    validate_rights (class (resource r)) (rights r) = Ok () →
    slot_step t (bump_live (set_slot t slot r))
| step_retire slot :
    (slot < capacity t)%nat →
    state (record_at t slot) = Empty →
    generation (record_at t slot) = u32_max →
    slot_step t (set_slot t slot (with_state (record_at t slot) Retired))
| step_revoke slot :
    (slot < capacity t)%nat →
    state (record_at t slot) = Live →
    slot_step t (MkTable (<[slot := revoked_in_place (record_at t slot)]> (slots t))
                   (live_count t - 1))
| step_release slot :
    (slot < capacity t)%nat →
    state (record_at t slot) = Revoked →
    slot_step t (set_slot t slot (released (record_at t slot))).

Abbreviation slot_steps := (rtc slot_step).

#[export] Hint Constructors slot_step : cs.
#[export] Hint Resolve rtc_refl rtc_once : cs.

Lemma generation_next_None g : Generation.next g = None ↔ g = u32_max.
Proof. unfold Generation.next. case_decide; naive_solver. Qed.

Lemma generation_next_Some g g' : Generation.next g = Some g' ↔ g ≠ u32_max ∧ g' = g + 1.
Proof. unfold Generation.next. case_decide; split; naive_solver. Qed.

Lemma slot_step_capacity t t' : slot_step t t' → capacity t' = capacity t.
Proof.
  destruct 1; unfold bump_live, capacity; simpl; by rewrite ?length_insert.
Qed.

Lemma slot_steps_capacity t t' : slot_steps t t' → capacity t' = capacity t.
Proof. induction 1 as [|? ? ? H _ IH]; [done|]. by rewrite IH, (slot_step_capacity _ _ H). Qed.

(** Induction over the transitions of a run, from an invariant of one transition. *)
Lemma slot_steps_inv (P : CapabilityTable → Prop) t t' :
  (∀ a b, slot_step a b → P a → P b) → slot_steps t t' → P t → P t'.
Proof. intros Hs. induction 1; eauto. Qed.

(** * Operations as runs of the life cycle *)

(** A slot [install] can use, and the retirement of an exhausted empty slot. *)
Definition installable (r : CapabilityRecord) : Prop :=
  state r = Empty ∧ generation r ≠ u32_max.

Definition same_or_retired (r r' : CapabilityRecord) : Prop :=
  r' = r ∨ (state r = Empty ∧ generation r = u32_max ∧ r' = with_state r Retired).

Lemma pick_empty_from_spec n slot t t' res :
  (slot + n = capacity t)%nat →
  pick_empty_from n slot t = (t', res) →
  slot_steps t t' ∧ live_count t' = live_count t ∧
  (∀ j, (j < slot)%nat → record_at t' j = record_at t j) ∧
  (∀ j, same_or_retired (record_at t j) (record_at t' j)) ∧
  match res with
  | Ok (i, g) => (slot ≤ i < capacity t)%nat ∧ record_at t' i = record_at t i ∧
      state (record_at t i) = Empty ∧ Generation.next (generation (record_at t i)) = Some g ∧
      (∀ j, (slot ≤ j < i)%nat → ¬ installable (record_at t j))
  | Err e => e = CapacityExhausted ∧
      (∀ j, (slot ≤ j < capacity t)%nat → ¬ installable (record_at t j))
  end.
Proof.
  revert slot t. induction n as [|n IH]; intros slot t Hn; cbn [pick_empty_from].
  - intros [= <- <-]. split_and!; auto with cs; [by left|]. intros; lia.
  - assert (∀ m, ¬ installable (record_at t slot) →
      (∀ j, (S slot ≤ j < m)%nat → ¬ installable (record_at t j)) →
      ∀ j, (slot ≤ j < m)%nat → ¬ installable (record_at t j)) as Hext.
    { intros m H0 H1 j Hj. destruct (decide (j = slot)) as [->|]; [done|]. apply H1. lia. }
    case_decide as Hs.
    + intros H. destruct (IH (S slot) t ltac:(lia) H) as (H1 & H2 & H3 & H4 & H5).
      assert (¬ installable (record_at t slot)) by (intros [? _]; congruence).
      split_and!; auto. destruct res as [[i g]|e].
      * destruct H5 as (?&?&?&?&?). split_and!; eauto; lia.
      * destruct H5 as [-> H5]. eauto.
    + destruct (Generation.next _) as [g|] eqn:Hg.
      * intros [= <- <-]. split_and!; auto with cs; try lia; first [by left | intros; lia].
      * apply generation_next_None in Hg. intros H.
        destruct (IH (S slot) (set_slot t slot (with_state (record_at t slot) Retired)))
          as (H1 & H2 & H3 & H4 & H5); [rewrite capacity_set_slot; lia|done|].
        rewrite capacity_set_slot in H5.
        assert (slot < capacity t)%nat as Hlt by lia.
        assert (¬ installable (record_at t slot)) by by intros [_ ?].
        assert (∀ m, (∀ j, (S slot ≤ j < m)%nat → ¬ installable
            (record_at (set_slot t slot (with_state (record_at t slot) Retired)) j)) →
            (∀ j, (S slot ≤ j < m)%nat → ¬ installable (record_at t j))) as Htr.
        { intros m Hm j Hj. specialize (Hm j Hj).
          by rewrite record_at_set_slot_ne in Hm by lia. }
        split_and!.
        -- eapply rtc_l; [by apply step_retire|done].
        -- done.
        -- intros j Hj. rewrite H3 by lia. apply record_at_set_slot_ne. lia.
        -- intros j. destruct (decide (j = slot)) as [->|Hne].
           ++ rewrite H3, record_at_set_slot_eq by lia. by right.
           ++ specialize (H4 j). by rewrite record_at_set_slot_ne in H4 by done.
        -- destruct res as [[i g]|e].
           ++ destruct H5 as (Hi & H5 & H6 & H7 & H8).
              rewrite record_at_set_slot_ne in H5, H6, H7 by lia.
              split_and!; eauto; lia.
           ++ destruct H5 as [-> H5]. eauto.
Qed.

Lemma pick_empty_slot_spec t t' res :
  pick_empty_slot t = (t', res) →
  slot_steps t t' ∧ live_count t' = live_count t ∧
  (∀ j, same_or_retired (record_at t j) (record_at t' j)) ∧
  match res with
  | Ok (i, g) => (i < capacity t)%nat ∧ record_at t' i = record_at t i ∧
      state (record_at t i) = Empty ∧ Generation.next (generation (record_at t i)) = Some g ∧
      (∀ j, (j < i)%nat → ¬ installable (record_at t j))
  | Err e => e = CapacityExhausted ∧
      (∀ j, (j < capacity t)%nat → ¬ installable (record_at t j))
  end.
Proof.
  intros H. destruct (pick_empty_from_spec _ _ _ _ _ (Nat.add_0_l _) H)
    as (H1 & H2 & _ & H3 & H4).
  split_and!; auto. destruct res as [[i g]|e].
  - destruct H4 as (?&?&?&?&H4). split_and!; auto; [lia|]. intros j Hj. apply H4. lia.
  - destruct H4 as [-> H4]. split; [done|]. intros j Hj. apply H4. lia.
Qed.

Lemma revoke_slot_steps t slot : slot_steps t (fst (revoke_slot t slot)).
Proof.
  unfold revoke_slot. case_decide; [auto with cs|].
  destruct (state _) eqn:E; simpl; auto with cs.
  apply rtc_once, step_revoke; [lia|done].
Qed.

Lemma release_slot_steps t slot : slot_steps t (fst (release_slot t slot)).
Proof.
  unfold release_slot. repeat case_decide; simpl; auto with cs.
  apply rtc_once, step_release; [lia|done].
Qed.

Lemma install_as_grant t r :
  install t r = grant t (holder r) (resource r) (rights r) (provenance r).
Proof. done. Qed.

Lemma validate_rights_unit c x (u : unit) :
  validate_rights c x = Ok u ↔ x ≠ 0 ∧ x ⊑r RightsOps.valid_for c.
Proof.
  unfold validate_rights, RightsOps.empty. rewrite <- is_subset_of_true. destruct u.
  case_decide; [naive_solver|]. destruct (RightsOps.is_subset_of _ _); naive_solver.
Qed.

Lemma grant_steps t h res x prov : slot_steps t (fst (grant t h res x prov)).
Proof.
  unfold grant. destruct (validate_rights _ _) as [[]|] eqn:Hv; [|auto with cs].
  destruct (pick_empty_slot t) as [t' [[i g]|e]] eqn:Hp; simpl;
    apply pick_empty_slot_spec in Hp as (H1 & _ & _ & H2); [|done].
  destruct H2 as (Hi & Heq & Hs & Hg & _).
  etrans; [exact H1|]. apply rtc_once. apply step_issue; simpl; auto.
  - by rewrite (slot_steps_capacity _ _ H1).
  - by rewrite Heq.
  - by rewrite Heq.
Qed.

Lemma revoke_steps t h : slot_steps t (fst (revoke t h)).
Proof.
  unfold revoke. destruct (slot_index _ _); [|auto with cs].
  repeat case_decide; simpl; auto with cs.
  destruct (revoke_slot t a) as [t' b] eqn:E. simpl.
  change t' with (fst (t', b)). rewrite <- E. apply revoke_slot_steps.
Qed.

Lemma revoke_where_steps m t : slot_steps t (fst (revoke_where m t)).
Proof.
  unfold revoke_where.
  apply (for_range_ind (λ _ s, slot_steps t (fst s))); [lia|auto with cs|].
  intros i [t1 c] _ H. simpl in *. destruct (_ && _); [|done].
  destruct (revoke_slot t1 i) as [t2 [|]] eqn:E; simpl.
  - etrans; [exact H|]. etrans; [|apply release_slot_steps].
    change t2 with (fst (t2, true)). rewrite <- E. apply revoke_slot_steps.
  - etrans; [exact H|].
    change t2 with (fst (t2, false)). rewrite <- E. apply revoke_slot_steps.
Qed.

#[export] Hint Resolve grant_steps revoke_steps revoke_where_steps revoke_slot_steps
  release_slot_steps : cs.

(** * Well-formedness *)

Definition is_live (r : CapabilityRecord) : bool := bool_decide (state r = Live).

Definition record_ok (r : CapabilityRecord) : Prop :=
  in_width 32 (generation r) ∧
  match state r with
  | Empty => r = with_generation EMPTY_RECORD (generation r)
  | Live => 1 ≤ generation r ∧ rights r ≠ 0 ∧
            rights r ⊑r RightsOps.valid_for (class (resource r))
  | Revoked => 1 ≤ generation r ∧ rights r = 0
  | Retired => r = with_state (with_generation EMPTY_RECORD u32_max) Retired
  end.

Definition table_wf (t : CapabilityTable) : Prop :=
  live_count t = count_if is_live (slots t) ∧ ∀ i, record_ok (record_at t i).

Lemma record_ok_empty : record_ok EMPTY_RECORD.
Proof. split; [split; simpl; lia|done]. Qed.

Lemma live_count_update (l : list CapabilityRecord) i r0 r :
  l !! i = Some r0 →
  (count_if is_live (<[i := r]> l) + Nat.b2n (is_live r0) =
   count_if is_live l + Nat.b2n (is_live r))%nat.
Proof. apply count_if_insert. Qed.

Lemma is_live_true r : is_live r = true ↔ state r = Live.
Proof. apply bool_decide_eq_true. Qed.

Lemma is_live_false r : is_live r = false ↔ state r ≠ Live.
Proof. apply bool_decide_eq_false. Qed.

Lemma table_wf_set t i r n :
  (i < capacity t)%nat → table_wf t → record_ok r →
  (n + Nat.b2n (is_live (record_at t i)) = live_count t + Nat.b2n (is_live r))%nat →
  table_wf (MkTable (<[i := r]> (slots t)) n).
Proof.
  intros Hi [Hc Hr] Hok Hn. split; simpl.
  - pose proof (live_count_update _ _ _ r (record_at_lookup _ _ Hi)). lia.
  - intros j. change (<[i:=r]> (slots t)) with (slots (set_slot t i r)).
    pose proof (record_at_set_slot t i j r) as H. unfold record_at in H |- *. simpl in *.
    rewrite H. case_decide; [done|]. apply Hr.
Qed.

Lemma record_ok_released r : record_ok r → 1 ≤ generation r → record_ok (released r).
Proof.
  intros [Hg _] H1. unfold released, in_width in *.
  destruct (Generation.next _) as [g|] eqn:E.
  - apply generation_next_Some in E as [E ->]. unfold u32_max, max_of in E.
    split; [split; simpl; lia|]. done.
  - apply generation_next_None in E. rewrite E. split; [|done].
    unfold u32_max, max_of. split; simpl; lia.
Qed.

Lemma not_live_released r : is_live (released r) = false.
Proof. unfold released. by destruct (Generation.next _). Qed.

Lemma slot_step_wf t t' : slot_step t t' → table_wf t → table_wf t'.
Proof.
  intros Hs Hwf. pose proof Hwf as [Hc Hr]. destruct Hs as
    [slot r Hi He Hg Hl Hv|slot Hi He Hg|slot Hi He|slot Hi He];
    pose proof (Hr slot) as Hok; pose proof Hok as [Hw Hm];
    rewrite He in Hm; unfold bump_live, set_slot; simpl.
  - apply table_wf_set; [done..| |].
    + apply generation_next_Some in Hg as [Hg1 Hg2]. apply validate_rights_unit in Hv.
      unfold u32_max, max_of, in_width in *. unfold record_ok, in_width. rewrite Hl, Hg2.
      naive_solver lia.
    + apply is_live_true in Hl. rewrite Hl.
      rewrite (proj2 (is_live_false _)) by congruence. simpl. lia.
  - apply table_wf_set; [done..| |].
    + split; simpl; [done|]. by rewrite Hm, Hg.
    + by rewrite (proj2 (is_live_false _)) by congruence.
  - apply table_wf_set; [done..| |].
    + split; simpl; [done|]. naive_solver.
    + rewrite (proj2 (is_live_true _)) by done. simpl.
      pose proof (count_if_pos is_live _ _ _ (record_at_lookup _ _ Hi)
        (proj2 (is_live_true _) He)). lia.
  - apply table_wf_set; [done..| |].
    + apply record_ok_released; [done|]. naive_solver.
    + rewrite not_live_released. by rewrite (proj2 (is_live_false _)) by congruence.
Qed.

Lemma slot_steps_wf t t' : slot_steps t t' → table_wf t → table_wf t'.
Proof. apply slot_steps_inv. intros ??. apply slot_step_wf. Qed.

Lemma table_wf_new N : table_wf (new N).
Proof.
  split; simpl.
  - rewrite count_if_replicate. done.
  - intros i. unfold record_at. simpl.
    destruct (replicate N EMPTY_RECORD !! i) as [r|] eqn:E; simpl.
    + apply lookup_replicate in E as [-> _]. apply record_ok_empty.
    + apply record_ok_empty.
Qed.

(** * Handles die for good

    [slot_evolves r r']: what a run can make of one slot. Generations never go
    down, and at one generation the state only moves from live to revoked to retired. *)

Definition state_rank (s : CapabilityState) : Z :=
  match s with Empty => 0 | Live => 0 | Revoked => 1 | Retired => 2 end.

Definition slot_evolves (r r' : CapabilityRecord) : Prop :=
  r' = r ∨ generation r < generation r' ∨
  (generation r' = generation r ∧ state_rank (state r) < state_rank (state r')).

#[export] Instance slot_evolves_preorder : PreOrder slot_evolves.
Proof.
  split; unfold slot_evolves.
  - by left.
  - intros a b c [->|[?|[? ?]]] [->|[?|[? ?]]]; auto; right; lia.
Qed.

Lemma slot_step_evolves t t' i :
  slot_step t t' → slot_evolves (record_at t i) (record_at t' i).
Proof.
  assert (∀ slot r, (slot < capacity t)%nat → slot_evolves (record_at t slot) r →
    slot_evolves (record_at t i) (record_at (set_slot t slot r) i)) as Hset.
  { intros slot r Hi Hev. rewrite record_at_set_slot. case_decide as H; [|reflexivity].
    by destruct H as [-> _]. }
  destruct 1 as [slot r Hi He Hg Hl Hv|slot Hi He Hg|slot Hi He|slot Hi He].
  - apply Hset; [done|]. apply generation_next_Some in Hg as [_ Hg]. right; left; lia.
  - apply Hset; [done|]. right; right. rewrite He. simpl. lia.
  - apply (Hset slot); [done|]. right; right. rewrite He. simpl. lia.
  - apply Hset; [done|]. unfold released. destruct (Generation.next _) as [g|] eqn:E.
    + apply generation_next_Some in E as [_ ->]. right; left. simpl. lia.
    + right; right. rewrite He. simpl. lia.
Qed.

Lemma slot_steps_evolve t t' i :
  slot_steps t t' → slot_evolves (record_at t i) (record_at t' i).
Proof.
  induction 1 as [|a b c H _ IH]; [reflexivity|].
  etrans; [by apply slot_step_evolves|done].
Qed.

(** The slot a handle names. *)
Definition slot_of (h : CapabilityHandle) : nat := Z.to_nat (h_slot h).

(** A handle is spent when its slot has reached its generation and does not hold it live. *)
Definition spent (t : CapabilityTable) (h : CapabilityHandle) : Prop :=
  let r := record_at t (slot_of h) in
  h_generation h ≤ generation r ∧ ¬ (state r = Live ∧ generation r = h_generation h).

Lemma spent_steps t t' h : slot_steps t t' → spent t h → spent t' h.
Proof.
  intros Hs [Hg Hn]. destruct (slot_steps_evolve _ _ (slot_of h) Hs) as [He|[He|[He Hr]]];
    unfold spent.
  - by rewrite He.
  - split; [lia|]. intros [_ ?]. lia.
  - split; [lia|]. intros [Hl ?]. rewrite Hl in Hr.
    destruct (state (record_at t (slot_of h))); simpl in Hr; lia.
Qed.

Lemma slot_index_Ok N h i : slot_index N h = Ok i ↔ i = slot_of h ∧ (i < N)%nat.
Proof. unfold slot_index. fold (slot_of h). case_decide; naive_solver lia. Qed.

Lemma record_Ok t h r :
  Table.record t h = Ok r ↔
  r = record_at t (slot_of h) ∧ (slot_of h < capacity t)%nat ∧
  generation r = h_generation h ∧ (state r = Live ∨ state r = Revoked).
Proof.
  unfold Table.record. destruct (slot_index _ _) as [i|e] eqn:E.
  - apply slot_index_Ok in E as [-> Hi]. repeat case_decide; split; intros H'; try done;
      try (destruct H' as (-> & _ & ? & [?|?]); congruence).
    simplify_eq. split_and!; auto. destruct (state _); naive_solver.
  - split; [done|]. intros (_ & Hi & _). exfalso.
    assert (slot_index (capacity t) h = Ok (slot_of h)) by by apply slot_index_Ok. congruence.
Qed.

Lemma table_authorize_Ok t a h res req r :
  Table.authorize t a h res req = Ok r ↔
  r = record_at t (slot_of h) ∧ (slot_of h < capacity t)%nat ∧ state r = Live ∧
  generation r = h_generation h ∧ holder r = a ∧ resource r = res ∧ req ⊑r rights r.
Proof.
  unfold Table.authorize. destruct (Table.record t h) as [r0|e] eqn:E.
  - apply record_Ok in E as (-> & Hi & Hg & Hs).
    destruct (CapTypes.authorize _ _ _ _ _) as [[]|e] eqn:Ea.
    + apply authorize_Ok in Ea as (?&?&?&?&?). split; [intros [= <-]; done|].
      by intros (-> & _).
    + split; [done|]. intros (-> & _ & H). apply authorize_Ok in H. congruence.
  - split; [done|]. intros (-> & ? & ? & ? & _). exfalso.
    assert (Table.record t h = Ok (record_at t (slot_of h))) by (apply record_Ok; auto).
    congruence.
Qed.

Lemma spent_no_authorize t a h res req r : spent t h → Table.authorize t a h res req ≠ Ok r.
Proof. intros [_ Hn] H. apply table_authorize_Ok in H as (-> & _ & ? & ? & _). auto. Qed.

(** What [grant] (and [install], which is the same code) does on every branch. *)
Lemma grant_cases t h res x prov t' out :
  grant t h res x prov = (t', out) →
  (t' = t ∧ out = Err InvalidRights ∧ ¬ (x ≠ 0 ∧ x ⊑r RightsOps.valid_for (class res))) ∨
  (x ≠ 0 ∧ x ⊑r RightsOps.valid_for (class res) ∧
   capacity t' = capacity t ∧
   ((out = Err CapacityExhausted ∧ live_count t' = live_count t ∧
     (∀ j, same_or_retired (record_at t j) (record_at t' j)) ∧
     (∀ j, (j < capacity t)%nat → ¬ installable (record_at t j))) ∨
    ∃ i, (i < capacity t)%nat ∧ installable (record_at t i) ∧
      (∀ j, (j < i)%nat → ¬ installable (record_at t j)) ∧
      live_count t' = S (live_count t) ∧
      record_at t' i = MkRecord Live h res x prov (generation (record_at t i) + 1) ∧
      (∀ j, j ≠ i → same_or_retired (record_at t j) (record_at t' j)) ∧
      out = if decide (Z.of_nat i ≤ u16_max)
            then Ok (MkHandle (Z.of_nat i) (generation (record_at t i) + 1))
            else Err CapacityExhausted)).
Proof.
  unfold grant. destruct (validate_rights _ _) as [u|e] eqn:Hv.
  - apply validate_rights_unit in Hv as [Hx Hx'].
    destruct (pick_empty_slot t) as [t1 [[i g]|e]] eqn:Hp;
      apply pick_empty_slot_spec in Hp as (H1 & H2 & H3 & H4);
      intros [= <- <-]; right; (split_and!; [done..| |]).
    + unfold bump_live, capacity, set_slot. simpl. rewrite length_insert.
      by apply slot_steps_capacity.
    + right. exists i. destruct H4 as (Hi & Heq & He & Hg & Hm).
      apply generation_next_Some in Hg as [Hg ->].
      assert (i < capacity t1)%nat by (by rewrite (slot_steps_capacity _ _ H1)).
      split_and!; auto.
      * by split.
      * simpl. by rewrite H2.
      * rewrite record_at_bump. by rewrite record_at_set_slot_eq.
      * intros j Hj. rewrite record_at_bump, record_at_set_slot_ne by done. done.
      * unfold slot_as_u16. by case_decide.
    + by apply slot_steps_capacity.
    + left. destruct H4 as [-> H4]. by split_and!.
  - intros [= <- <-]. left. split_and!; [done| |].
    + unfold validate_rights in Hv. repeat case_decide; simplify_eq; [done|].
      by destruct (RightsOps.is_subset_of _ _); simplify_eq/=.
    + intros H. apply (validate_rights_unit _ _ ()) in H. congruence.
Qed.
