(* ===== verification/CapTree.v ===== *)
(** Delegation trees: [capability/src/delegation.rs] and [capability/src/revocation.rs],
    the kernel's root grant and fork inheritance of [kernel/src/capability/mod.rs]. *)

From Stdlib Require Import ZArith Lia.
From stdpp Require Import base list tactics decidable numbers strings relations.
From S2P Require Import Prelude CapTypes CapTable.
Import Table.

Local Open Scope Z_scope.

(** * Delegation (delegation.rs) *)

Definition delegate (t : CapabilityTable) (source : HolderId) (par : CapabilityHandle)
    (target : HolderId) (x : Rights)
  : CapabilityTable * result CapabilityError CapabilityHandle :=
  match Table.record t par with
  | Err e => (t, Err e)
  | Ok r =>
      match validate_delegation r par source x with
      | Err e => (t, Err e)
      | Ok x =>
          if decide (target = KERNEL) then (t, Err InvalidRights)
          else
            match ProvenanceOps.child_of par (provenance r) with
            | Err e => (t, Err e)
            | Ok prov => install t (MkRecord Live target (resource r) x prov 0)
            end
      end
  end.

(** [handle_at(slot).expect(..)]: the slot is live, so a handle exists
    ([expect_handle_live] below); the default is never used. *)
Definition expect_handle (t : CapabilityTable) (slot : nat) : CapabilityHandle :=
  default Handle.INVALID (handle_at t slot).

(** The scan of [list_holder] from [slot] with [n] slots left. *)
Fixpoint list_holder_from (n slot : nat) (t : CapabilityTable) (h : HolderId)
  : option (nat * CapabilityHandle * CapabilityRecord) :=
  match n with
  | O => None
  | S n =>
      let r := record_at t slot in
      if decide (state r ≠ Live ∨ holder r ≠ h) then list_holder_from n (S slot) t h
      else Some (S slot, expect_handle t slot, r)
  end.

Definition list_holder (t : CapabilityTable) (h : HolderId) (cursor : nat)
  : option (nat * CapabilityHandle * CapabilityRecord) :=
  if decide (capacity t ≤ cursor)%nat then None
  else list_holder_from (capacity t - cursor) cursor t h.

Definition delegation_depth (t : CapabilityTable) (h : CapabilityHandle)
  : result CapabilityError Z :=
  let? r := Table.record t h in Ok (depth (provenance r)).

(** * Revocation (revocation.rs) *)

Definition slot_for_handle (t : CapabilityTable) (h : CapabilityHandle)
  : result CapabilityError nat :=
  let? _ := Table.record t h in Ok (Z.to_nat (h_slot h)).

(** [in_set[slot]] of a [[bool; N]] array, indexed below [N]. *)
Definition member (in_set : list bool) (slot : nat) : bool := default false (in_set !! slot).

(** The body of the inner loop of [revoke_subtree] on one slot. *)
Definition visit_slot (t : CapabilityTable) (slot : nat) (s : list bool * bool)
  : result CapabilityError (list bool * bool) :=
  let '(in_set, added) := s in
  if member in_set slot then Ok (in_set, added)
  else
    let r := record_at t slot in
    if decide (state r ≠ Live) then Ok (in_set, added)
    else
      match parent (provenance r) with
      | None => Ok (in_set, added)
      | Some parent_handle =>
          let? parent_slot := slot_for_handle t parent_handle in
          if member in_set parent_slot then Ok (<[slot := true]> in_set, true)
          else Ok (in_set, added)
      end.

(** [for _ in 0..max_passes { ..; if !added { break } }] *)
Fixpoint mark_passes (t : CapabilityTable) (passes : nat) (in_set : list bool)
  : result CapabilityError (list bool) :=
  match passes with
  | O => Ok in_set
  | S passes =>
      let? (in_set, added) := try_range 0 (capacity t) (visit_slot t) (in_set, false) in
      if added then mark_passes t passes in_set else Ok in_set
  end.

Definition revoke_marked (in_set : list bool) (t : CapabilityTable) : CapabilityTable * nat :=
  for_range 0 (capacity t) (λ slot '(t, count),
    if member in_set slot then
      match revoke_slot t slot with
      | (t, true) => (t, S count)
      | (t, false) => (t, count)
      end
    else (t, count)) (t, 0%nat).

Definition max_passes : nat := S (Z.to_nat MAX_DELEGATION_DEPTH).

Definition revoke_subtree (t : CapabilityTable) (h : CapabilityHandle)
  : CapabilityTable * result CapabilityError nat :=
  match slot_for_handle t h with
  | Err e => (t, Err e)
  | Ok root_slot =>
      match mark_passes t max_passes (<[root_slot := true]> (replicate (capacity t) false)) with
      | Err e => (t, Err e)
      | Ok in_set => let '(t, count) := revoke_marked in_set t in (t, Ok count)
      end
  end.

(** The first loop of [revoke_holder_tree_visiting] and [revoke_resource_tree]: revoke the
    subtree of every live slot [matches] selects. The closure [visit] is modelled by the
    list of resources it is called with. *)
Definition revoke_trees (matches : CapabilityRecord → bool) (t : CapabilityTable)
  : CapabilityTable * nat * list ResourceRef :=
  for_range 0 (capacity t) (λ slot '(t, revoked, visited),
    let r := record_at t slot in
    if decide (state r ≠ Live) then (t, revoked, visited)
    else if negb (matches r) then (t, revoked, visited)
    else
      let '(t', n) := revoke_subtree t (expect_handle t slot) in
      (t', (revoked + unwrap_or n 0)%nat, visited ++ [resource r])) (t, 0%nat, []).

(** The second loop: release the revoked slots [matches] selects. *)
Definition release_where (matches : CapabilityRecord → bool) (t : CapabilityTable)
  : CapabilityTable :=
  for_range 0 (capacity t) (λ slot t,
    let r := record_at t slot in
    if matches r && bool_decide (state r = Revoked) then fst (release_slot t slot) else t) t.

Definition revoke_holder_tree_visiting (t : CapabilityTable) (h : HolderId)
  : CapabilityTable * nat * list ResourceRef :=
  let matches r := bool_decide (holder r = h) in
  let '(t, revoked, visited) := revoke_trees matches t in
  (release_where matches t, revoked, visited).

Definition revoke_holder_tree (t : CapabilityTable) (h : HolderId) : CapabilityTable * nat :=
  let '(t, revoked, _) := revoke_holder_tree_visiting t h in (t, revoked).

Definition revoke_resource_tree (t : CapabilityTable) (c : ResourceClass) (i : Z)
  : CapabilityTable * nat :=
  let matches r := bool_decide (class (resource r) = c) && bool_decide (id (resource r) = i) in
  let '(t, revoked, _) := revoke_trees matches t in
  (release_where matches t, revoked).

Definition release_revoked (t : CapabilityTable) : CapabilityTable * nat :=
  for_range 0 (capacity t) (λ slot '(t, count),
    match release_slot t slot with
    | (t, true) => (t, S count)
    | (t, false) => (t, count)
    end) (t, 0%nat).

(** The ancestor walk of [authorize_revoke], at most [n] steps. *)
Fixpoint actor_holds_ancestor (t : CapabilityTable) (actor : HolderId) (n : nat)
    (current_parent : option CapabilityHandle) : bool :=
  match n with
  | O => false
  | S n =>
      match current_parent with
      | None => false
      | Some parent_handle =>
          match Table.record t parent_handle with
          | Err _ => false
          | Ok p =>
              if decide (holder p = actor) then true
              else actor_holds_ancestor t actor n (parent (provenance p))
          end
      end
  end.

Definition authorize_revoke (t : CapabilityTable) (actor : HolderId) (h : CapabilityHandle)
  : result CapabilityError unit :=
  let? r := Table.record t h in
  if decide (holder r = actor) then Ok ()
  else if actor_holds_ancestor t actor (Z.to_nat MAX_DELEGATION_DEPTH) (parent (provenance r))
  then Ok ()
  else Err UnauthorizedHolder.

(** * Kernel entry points (kernel/src/capability/mod.rs) *)

Definition grant_root (t : CapabilityTable) (h : HolderId) (res : ResourceRef) (x : Rights)
  : CapabilityTable * result CapabilityError CapabilityHandle :=
  let prov := ProvenanceOps.root h in
  match grant t h res x prov with
  | (t, Ok handle) => (t, Ok handle)
  | (t, Err CapacityExhausted) => grant (fst (release_revoked t)) h res x prov
  | (t, Err e) => (t, Err e)
  end.

Definition rollback_fork_inherited (t : CapabilityTable) (handles : list CapabilityHandle)
  : CapabilityTable :=
  fold_left (λ t h, fst (revoke t h)) handles t.

(** The loop of [inherit_capabilities_for_fork]. Each turn consumes a cursor position, so
    [capacity + 1] turns reach the end ([inherit_loop_spec]); [installed] is the array
    of handles, whose fill count is its length. Running out of fuel is the [None] of the
    outer option. *)
Fixpoint inherit_loop (fuel : nat) (t : CapabilityTable) (par child : HolderId)
    (cursor : nat) (installed : list CapabilityHandle)
  : option (CapabilityTable * result CapabilityError unit) :=
  match fuel with
  | O => None
  | S fuel =>
      match list_holder t par cursor with
      | None => Some (t, Ok ())
      | Some (next_cursor, handle, r) =>
          match ProvenanceOps.child_of handle (provenance r) with
          | Err e => Some (t, Err e)
          | Ok prov =>
              if decide (MAX_SLOTS ≤ length installed)%nat then
                Some (rollback_fork_inherited t installed, Err CapacityExhausted)
              else
                match install t (MkRecord Live child (resource r) (rights r) prov 0) with
                | (t, Ok child_handle) =>
                    inherit_loop fuel t par child next_cursor (installed ++ [child_handle])
                | (t, Err e) => Some (rollback_fork_inherited t installed, Err e)
                end
          end
      end
  end.

Definition inherit_capabilities_for_fork (t : CapabilityTable) (par child : HolderId)
  : option (CapabilityTable * result CapabilityError unit) :=
  inherit_loop (S (capacity t)) t par child 0 [].

(** * Delegation forests

    In a forest every live record with a parent handle names a live record, and the two
    records are related by [L]. [link] is the relation every kernel path keeps: same
    resource and root holder, no more rights, one level deeper; a root names its own holder.
    [strict_link] is what
    [delegate] adds: the parent may delegate, and root-only rights stay with the root. *)

Definition link (r : CapabilityRecord) (p : option CapabilityRecord) : Prop :=
  0 ≤ depth (provenance r) ≤ MAX_DELEGATION_DEPTH ∧
  match p with
  | None => depth (provenance r) = 0 ∧ root_holder (provenance r) = holder r
  | Some p =>
      resource p = resource r ∧ rights r ⊑r rights p ∧
      depth (provenance r) = depth (provenance p) + 1 ∧
      root_holder (provenance r) = root_holder (provenance p)
  end.

Definition strict_link (r : CapabilityRecord) (p : option CapabilityRecord) : Prop :=
  link r p ∧
  match p with
  | None => True
  | Some p => RightsOps.DELEGATE ⊑r rights p ∧
      Z.land (rights r) (RightsOps.root_only_for (class (resource r))) = 0
  end.

Definition linked (L : CapabilityRecord → option CapabilityRecord → Prop)
    (t : CapabilityTable) (r : CapabilityRecord) : Prop :=
  match parent (provenance r) with
  | None => L r None
  | Some ph =>
      let p := record_at t (slot_of ph) in
      state p = Live ∧ generation p = h_generation ph ∧ L r (Some p)
  end.

Definition forest_of (L : CapabilityRecord → option CapabilityRecord → Prop)
    (t : CapabilityTable) : Prop :=
  ∀ i, state (record_at t i) = Live → linked L t (record_at t i).

Abbreviation forest := (forest_of link).
Abbreviation strict_forest := (forest_of strict_link).

Lemma forest_mono (L L' : CapabilityRecord → option CapabilityRecord → Prop) t :
  (∀ r p, L r p → L' r p) → forest_of L t → forest_of L' t.
Proof.
  intros HL Hf i Hl. specialize (Hf i Hl). unfold linked in *.
  destruct (parent _); naive_solver.
Qed.

Lemma strict_forest_forest t : strict_forest t → forest t.
Proof. apply forest_mono. by intros r p [? _]. Qed.

#[export] Hint Resolve strict_forest_forest : cs.

(** [descends t root i n]: slot [i] is [n] live parent links below [root]. *)
Inductive descends (t : CapabilityTable) (root : nat) : nat → nat → Prop :=
| descends_root : descends t root root 0
| descends_child i ph n :
    state (record_at t i) = Live →
    parent (provenance (record_at t i)) = Some ph →
    descends t root (slot_of ph) n →
    descends t root i (S n).

Definition descendant (t : CapabilityTable) (root i : nat) : Prop := ∃ n, descends t root i n.

#[export] Hint Constructors descends : cs.

Lemma descendant_refl t root : descendant t root root.
Proof. exists 0%nat. constructor. Qed.

Lemma descendant_child t root i ph :
  state (record_at t i) = Live → parent (provenance (record_at t i)) = Some ph →
  descendant t root (slot_of ph) → descendant t root i.
Proof. intros ?? [n ?]. exists (S n). eauto with cs. Qed.

Lemma descends_trans t a b c n m : descends t a b n → descends t b c m → descendant t a c.
Proof.
  intros Hab. induction 1 as [|i ph k Hl Hp _ IH]; [by exists n|].
  by eapply descendant_child.
Qed.

Lemma forest_parent_live L t i ph :
  forest_of L t → state (record_at t i) = Live → parent (provenance (record_at t i)) = Some ph →
  state (record_at t (slot_of ph)) = Live ∧
  generation (record_at t (slot_of ph)) = h_generation ph.
Proof.
  intros Hf Hl Hp. specialize (Hf i Hl). unfold linked in Hf. rewrite Hp in Hf. tauto.
Qed.

Lemma forest_link L t i :
  forest_of L t → state (record_at t i) = Live →
  L (record_at t i)
    ((λ ph, record_at t (slot_of ph)) <$> parent (provenance (record_at t i))).
Proof.
  intros Hf Hl. specialize (Hf i Hl). unfold linked in Hf. destruct (parent _); naive_solver.
Qed.

(** Depth bounds the length of a chain of live links. *)
Lemma descends_depth t root i n :
  forest t → descends t root i n → n = 0%nat ∨
  (state (record_at t i) = Live ∧ Z.of_nat n ≤ depth (provenance (record_at t i))).
Proof.
  intros Hf. induction 1 as [|i ph n Hl Hp _ IH]; [by left|]. right. split; [done|].
  destruct (forest_parent_live _ _ _ _ Hf Hl Hp) as [Hpl _].
  destruct (forest_link _ _ _ Hf Hl) as [_ Hk]. rewrite Hp in Hk. simpl in Hk.
  destruct (forest_link _ _ _ Hf Hpl) as [Hd _]. destruct IH as [->|[_ ?]]; lia.
Qed.

Lemma descends_bound t root i n :
  forest t → descends t root i n → (n < max_passes)%nat.
Proof.
  intros Hf Hd. unfold max_passes, MAX_DELEGATION_DEPTH.
  destruct (descends_depth _ _ _ _ Hf Hd) as [->|[Hl Hn]]; [simpl; lia|].
  destruct (forest_link _ _ _ Hf Hl) as [Hb _]. unfold MAX_DELEGATION_DEPTH in Hb.
  simpl. lia.
Qed.

Lemma slot_for_handle_Ok t h i :
  slot_for_handle t h = Ok i ↔ i = slot_of h ∧ ∃ r, Table.record t h = Ok r.
Proof.
  unfold slot_for_handle. fold (slot_of h). destruct (Table.record t h); naive_solver.
Qed.

Lemma slot_for_parent t i ph :
  forest t → state (record_at t i) = Live → parent (provenance (record_at t i)) = Some ph →
  slot_for_handle t ph = Ok (slot_of ph).
Proof.
  intros Hf Hl Hp. destruct (forest_parent_live _ _ _ _ Hf Hl Hp) as [Hpl Hg].
  apply slot_for_handle_Ok. split; [done|]. exists (record_at t (slot_of ph)).
  apply record_Ok. split_and!; auto. apply record_at_nonempty. by rewrite Hpl.
Qed.

(** ** Marking *)

Lemma member_insert s i j :
  (i < length s)%nat → member (<[i := true]> s) j = bool_decide (i = j) || member s j.
Proof.
  intros Hi. unfold member. destruct (decide (i = j)) as [->|Hne].
  - by rewrite list_lookup_insert_eq, bool_decide_eq_true_2.
  - by rewrite list_lookup_insert_ne, bool_decide_eq_false_2.
Qed.

Lemma member_replicate n i : member (replicate n false) i = false.
Proof.
  unfold member. destruct (replicate n false !! i) as [b|] eqn:E; [|done].
  by apply lookup_replicate in E as [-> _].
Qed.

Definition marks_descendants (t : CapabilityTable) (root : nat) (s : list bool) : Prop :=
  length s = capacity t ∧ ∀ i, member s i = true → descendant t root i.

(** One pass over the slots of a forest: it marks descendants only, marks every live slot
    whose parent was marked before, and reports [added] unless nothing changed. *)
Lemma mark_pass t root s :
  forest t → marks_descendants t root s →
  ∃ s' added, try_range 0 (capacity t) (visit_slot t) (s, false) = Ok (s', added) ∧
    marks_descendants t root s' ∧
    (∀ i, member s i = true → member s' i = true) ∧
    (∀ i ph, state (record_at t i) = Live → parent (provenance (record_at t i)) = Some ph →
       member s (slot_of ph) = true → member s' i = true) ∧
    (added = false → s' = s).
Proof.
  intros Hf Hm.
  destruct (try_range_ind (λ k '(s', added), marks_descendants t root s' ∧
    (∀ i, member s i = true → member s' i = true) ∧
    (∀ i ph, (i < k)%nat → state (record_at t i) = Live →
       parent (provenance (record_at t i)) = Some ph →
       member s (slot_of ph) = true → member s' i = true) ∧
    (added = false → s' = s)) (visit_slot t) 0 (capacity t) (s, false))
    as ([s' added] & H & Hm' & Hmono & Hcl & Hadd).
  - lia.
  - split_and!; auto. lia.
  - intros i [s1 a1] Hi (Hm1 & Hmono1 & Hcl1 & Hadd1). unfold visit_slot.
    assert (∀ j ph, (j < S i)%nat → j ≠ i → state (record_at t j) = Live →
       parent (provenance (record_at t j)) = Some ph →
       member s (slot_of ph) = true → member s1 j = true) as Hold.
    { intros j ph Hj Hne. apply Hcl1. lia. }
    destruct (member s1 i) eqn:Hmi.
    { eexists. split; [done|]. split_and!; auto. intros j ph Hj ???.
      destruct (decide (j = i)) as [->|]; eauto. }
    case_decide as Hl.
    { eexists. split; [done|]. split_and!; auto. intros j ph Hj ???.
      destruct (decide (j = i)) as [->|]; [congruence|eauto]. }
    destruct (parent (provenance (record_at t i))) as [ph|] eqn:Hp.
    2: { eexists. split; [done|]. split_and!; auto. intros j ph Hj ???.
         destruct (decide (j = i)) as [->|]; [congruence|eauto]. }
    rewrite (slot_for_parent _ _ _ Hf Hl Hp). destruct (member s1 (slot_of ph)) eqn:Hmp.
    + destruct Hm1 as [Hlen Hm1]. eexists. split; [done|].
      assert (i < length s1)%nat by lia. split_and!; [|auto with lia..|done].
      * split; [by rewrite length_insert|]. intros j. rewrite member_insert by done.
        intros [Hij%bool_decide_eq_true|Hj]%orb_true_iff; [subst j|by apply Hm1].
        eapply descendant_child; eauto.
      * intros j Hj. rewrite member_insert by done. rewrite Hmono1 by done.
        apply orb_true_r.
      * intros j ph' Hj ???. rewrite member_insert by done. case_bool_decide; [done|].
        eauto.
    + eexists. split; [done|]. split_and!; auto. intros j ph' Hj ?? Hmp'.
      destruct (decide (j = i)) as [->|]; [|eauto]. simplify_eq.
      apply Hmono1 in Hmp'. congruence.
  - exists s', added. split_and!; auto. intros i ph Hl Hp. apply Hcl; [|done..].
    apply record_at_nonempty. by rewrite Hl.
Qed.

(** Passes: [n] of them reach every descendant [n] links away; fewer suffice when a pass
    adds nothing. *)
Lemma mark_passes_spec t root n s k :
  forest t → marks_descendants t root s →
  (∀ i m, descends t root i m → (m ≤ k)%nat → member s i = true) →
  ∃ s', mark_passes t n s = Ok s' ∧ marks_descendants t root s' ∧
    (∀ i m, descends t root i m → (m ≤ k + n)%nat → member s' i = true).
Proof.
  intros Hf. revert s k. induction n as [|n IH]; intros s k Hm Hk; cbn [mark_passes].
  - exists s. split_and!; auto. intros i m ??. eapply Hk; [done|lia].
  - destruct (mark_pass t root s Hf Hm) as (s1 & added & -> & Hm1 & Hmono & Hcl & Hadd).
    destruct added.
    + destruct (IH s1 (S k) Hm1) as (s2 & H2 & Hm2 & Hk2).
      { intros i m Hd Hle. destruct Hd as [|i ph m Hl Hp Hd].
        - apply Hmono. eapply Hk; [constructor|lia].
        - eapply Hcl; [done..|]. eapply Hk; [done|lia]. }
      exists s2. split_and!; auto. intros i m ??. eapply Hk2; [done|lia].
    + rewrite Hadd in * by done. exists s. split_and!; auto. intros i m Hd _.
      induction Hd as [|i ph m Hl Hp Hd IHd].
      * eapply Hk; [constructor|lia].
      * by eapply Hcl.
Qed.

(** The loop finds exactly the slots of the subtree. *)
Lemma mark_subtree t root :
  forest t → (root < capacity t)%nat →
  ∃ s, mark_passes t max_passes (<[root := true]> (replicate (capacity t) false)) = Ok s ∧
    ∀ i, member s i = true ↔ descendant t root i.
Proof.
  intros Hf Hr.
  assert (length (replicate (capacity t) false) = capacity t) as Hlen by apply length_replicate.
  destruct (mark_passes_spec t root max_passes
    (<[root := true]> (replicate (capacity t) false)) 0 Hf) as (s & Hs & Hm & Hk).
  - split; [by rewrite length_insert|]. intros i. rewrite member_insert by lia.
    rewrite member_replicate, orb_false_r. intros <-%bool_decide_eq_true.
    apply descendant_refl.
  - intros i m Hd Hle. destruct Hd; [|lia]. rewrite member_insert by lia.
    by rewrite bool_decide_eq_true_2.
  - exists s. split; [done|]. intros i. split; [apply Hm|]. intros [m Hd].
    eapply Hk; [done|]. pose proof (descends_bound _ _ _ _ Hf Hd). lia.
Qed.

(** ** Revoking the marked slots *)

Lemma revoke_slot_live t i :
  (i < capacity t)%nat → state (record_at t i) = Live →
  revoke_slot t i =
    (MkTable (<[i := revoked_in_place (record_at t i)]> (slots t)) (live_count t - 1), true).
Proof. intros Hi Hl. unfold revoke_slot. rewrite decide_False by lia. by rewrite Hl. Qed.

Lemma revoke_slot_not_live t i : state (record_at t i) ≠ Live → revoke_slot t i = (t, false).
Proof.
  intros Hl. unfold revoke_slot. case_decide; [done|]. by destruct (state (record_at t i)).
Qed.

Lemma revoke_slot_at t i j :
  record_at (fst (revoke_slot t i)) j =
    if decide (i = j ∧ state (record_at t i) = Live)
    then revoked_in_place (record_at t i) else record_at t j.
Proof.
  destruct (decide (state (record_at t i) = Live)) as [Hl|Hl].
  - assert (i < capacity t)%nat as Hi by (apply record_at_nonempty; by rewrite Hl).
    rewrite revoke_slot_live by done.
    change (record_at (set_slot t i (revoked_in_place (record_at t i))) j =
      if decide (i = j ∧ state (record_at t i) = Live)
      then revoked_in_place (record_at t i) else record_at t j).
    rewrite record_at_set_slot. repeat case_decide; tauto.
  - rewrite revoke_slot_not_live by done. by rewrite decide_False by tauto.
Qed.

Lemma revoke_slot_true t i : snd (revoke_slot t i) = is_live (record_at t i).
Proof.
  destruct (is_live (record_at t i)) eqn:E.
  - apply is_live_true in E. rewrite revoke_slot_live; [done| |done].
    apply record_at_nonempty. by rewrite E.
  - apply is_live_false in E. by rewrite revoke_slot_not_live.
Qed.

Lemma revoke_slot_capacity t i : capacity (fst (revoke_slot t i)) = capacity t.
Proof. apply slot_steps_capacity, revoke_slot_steps. Qed.

Definition marked_live (s : list bool) (t : CapabilityTable) (i : nat) : bool :=
  member s i && is_live (record_at t i).

Lemma revoke_marked_spec s t :
  let '(t', n) := revoke_marked s t in
  slot_steps t t' ∧
  (∀ i, record_at t' i =
     if marked_live s t i then revoked_in_place (record_at t i) else record_at t i) ∧
  n = count_if (marked_live s t) (seq 0 (capacity t)).
Proof.
  unfold revoke_marked.
  set (body := λ (slot : nat) '(t, count), _).
  pose proof (for_range_ind (λ k '(t', n), slot_steps t t' ∧
    (∀ i, record_at t' i = if bool_decide (i < k)%nat && marked_live s t i
       then revoked_in_place (record_at t i) else record_at t i) ∧
    n = count_if (marked_live s t) (seq 0 k)) body 0 (capacity t) (t, 0%nat)) as H.
  destruct (for_range 0 (capacity t) body (t, 0%nat)) as [t' n].
  destruct H as (H1 & H2 & H3); [lia|..].
  - split_and!; auto with cs.
  - intros i [t1 c] Hi (H1 & H2 & ->).
    assert (record_at t1 i = record_at t i) as Heq.
    { rewrite H2, bool_decide_eq_false_2 by lia. done. }
    rewrite seq_S, count_if_app, count_if_cons. simpl.
    replace (count_if (marked_live s t) []) with 0%nat by done.
    assert (marked_live s t i = member s i && is_live (record_at t i)) as -> by done.
    subst body. simpl.
    destruct (member s i) eqn:Hmem; simpl.
    + assert (∀ b, snd (revoke_slot t1 i) = b → b = is_live (record_at t i)) as Hb.
      { intros b <-. by rewrite revoke_slot_true, Heq. }
      assert (slot_steps t (fst (revoke_slot t1 i))) as Hst by (etrans; [done|auto with cs]).
      assert (∀ j, record_at (fst (revoke_slot t1 i)) j =
        if bool_decide (j < S i)%nat && marked_live s t j
        then revoked_in_place (record_at t j) else record_at t j) as Hrec.
      { intros j. rewrite revoke_slot_at, Heq, H2. unfold marked_live.
        destruct (decide (i = j)) as [<-|Hne].
        - rewrite !bool_decide_eq_false_2, bool_decide_eq_true_2, Hmem by lia. simpl.
          unfold is_live. case_bool_decide; [by rewrite decide_True|by rewrite decide_False by tauto].
        - rewrite decide_False by tauto. by rewrite (bool_decide_ext (j < S i)%nat (j < i)%nat) by lia. }
      destruct (revoke_slot t1 i) as [t2 b] eqn:E. simpl in *.
      rewrite <- (Hb b) by done. destruct b; simpl; split_and!; auto; lia.
    + split_and!; auto; try lia. intros j. rewrite H2. unfold marked_live.
      destruct (decide (j = i)) as [->|Hne].
      * rewrite Hmem. simpl. by rewrite !andb_false_r.
      * by rewrite (bool_decide_ext (j < S i)%nat (j < i)%nat) by lia.
  - split_and!; auto. intros i. rewrite H2. case_bool_decide as Hi; [done|]. simpl.
    unfold marked_live, is_live. rewrite record_at_ge by lia. by rewrite andb_false_r.
Qed.

(** Newly revoked slots: live before and below the root. *)
Definition live_below (t : CapabilityTable) (root i : nat) : Prop :=
  state (record_at t i) = Live ∧ descendant t root i.

Lemma revoke_subtree_spec t h r :
  forest t → Table.record t h = Ok r →
  ∃ t' n s, revoke_subtree t h = (t', Ok n) ∧ slot_steps t t' ∧
    (∀ i, marked_live s t i = true ↔ live_below t (slot_of h) i) ∧
    (∀ i, record_at t' i =
       if marked_live s t i then revoked_in_place (record_at t i) else record_at t i) ∧
    n = count_if (marked_live s t) (seq 0 (capacity t)).
Proof.
  intros Hf Hr. unfold revoke_subtree.
  assert (slot_for_handle t h = Ok (slot_of h)) as -> by (apply slot_for_handle_Ok; eauto).
  apply record_Ok in Hr as (_ & Hlt & _).
  destruct (mark_subtree t (slot_of h) Hf Hlt) as (s & -> & Hs).
  pose proof (revoke_marked_spec s t) as H.
  destruct (revoke_marked s t) as [t' n]. destruct H as (H1 & H2 & H3).
  exists t', n, s. split_and!; auto. intros i. unfold marked_live, live_below.
  rewrite andb_true_iff, Hs, is_live_true. tauto.
Qed.

(** ** Forests are preserved *)

(** Live records and their links are all a forest depends on. *)
Lemma forest_ext L t t' :
  forest_of L t →
  (∀ i, state (record_at t' i) = Live → record_at t' i = record_at t i) →
  (∀ i ph, state (record_at t' i) = Live → parent (provenance (record_at t' i)) = Some ph →
     state (record_at t' (slot_of ph)) = Live) →
  forest_of L t'.
Proof.
  intros Hf Hsame Hpar i Hl. pose proof (Hpar i) as Hp. pose proof (Hsame i Hl) as Heq.
  rewrite Heq in Hl, Hp |- *. specialize (Hf i Hl). unfold linked in *.
  destruct (parent _) as [ph|]; [|done]. by rewrite (Hsame (slot_of ph)) by auto.
Qed.

(** Steps that touch no live record. *)
Lemma forest_same_live L t t' :
  forest_of L t → (∀ i, state (record_at t' i) = Live ↔ state (record_at t i) = Live) →
  (∀ i, state (record_at t i) = Live → record_at t' i = record_at t i) → forest_of L t'.
Proof.
  intros Hf Hiff Hsame. eapply forest_ext; [done| |].
  - intros i Hl. apply Hsame. by apply Hiff.
  - intros i ph Hl Hp. rewrite Hsame in Hp by by apply Hiff.
    apply Hiff. eapply forest_parent_live; eauto. by apply Hiff.
Qed.

Lemma revoked_in_place_not_live r : state (revoked_in_place r) ≠ Live.
Proof. done. Qed.

Lemma revoke_subtree_forest L t h t' n :
  (∀ r p, L r p → link r p) → forest_of L t → revoke_subtree t h = (t', n) → forest_of L t'.
Proof.
  intros HL HfL. pose proof (forest_mono _ _ _ HL HfL) as Hf. destruct (Table.record t h) as [r|e] eqn:Hr.
  - destruct (revoke_subtree_spec t h r Hf Hr) as (t1 & n1 & s & -> & _ & Hs & Hrec & _).
    intros [= <- <-].
    assert (∀ i, state (record_at t1 i) = Live →
      record_at t1 i = record_at t i ∧ marked_live s t i = false) as Hsame.
    { intros i Hl. rewrite Hrec in Hl |- *. by destruct (marked_live s t i). }
    eapply forest_ext; [exact HfL|by intros i Hl; apply Hsame|].
    intros i ph Hl Hp. destruct (Hsame i Hl) as [Heq Hno]. rewrite Heq in Hl, Hp.
    destruct (forest_parent_live _ _ _ _ Hf Hl Hp) as [Hpl _].
    rewrite Hrec. destruct (marked_live s t (slot_of ph)) eqn:E; [|done].
    exfalso. apply Hs in E as [_ Hd].
    assert (marked_live s t i = true); [|congruence]. apply Hs. split; [done|].
    by eapply descendant_child.
  - unfold revoke_subtree, slot_for_handle. rewrite Hr. by intros [= <- _].
Qed.

Lemma release_slot_at t i j :
  record_at (fst (release_slot t i)) j =
    if decide (i = j ∧ state (record_at t i) = Revoked)
    then released (record_at t i) else record_at t j.
Proof.
  unfold release_slot. case_decide as Hc; [|case_decide as Hr]; simpl.
  - rewrite decide_False; [done|]. intros [_ Hr]. rewrite record_at_ge in Hr by done. done.
  - rewrite decide_False; [done|tauto].
  - fold (released (record_at t i)). rewrite record_at_set_slot. repeat case_decide; try done.
    all: exfalso; naive_solver lia.
Qed.

Lemma released_not_live r : state (released r) ≠ Live.
Proof. unfold released. by destruct (Generation.next _). Qed.

Lemma release_slot_forest L t i : forest_of L t → forest_of L (fst (release_slot t i)).
Proof.
  intros Hf. apply (forest_same_live L t); [done|..]; intros j; rewrite release_slot_at;
    case_decide as Hd; try done; destruct Hd as [<- Hr]; rewrite Hr; [|done].
  split; [|done]. intros Hl. by apply released_not_live in Hl.
Qed.

(** ** Releasing *)

Definition released_if (m : CapabilityRecord → bool) (r : CapabilityRecord)
  : CapabilityRecord :=
  if m r && bool_decide (state r = Revoked) then released r else r.

Lemma release_where_spec m t :
  slot_steps t (release_where m t) ∧
  ∀ i, record_at (release_where m t) i = released_if m (record_at t i).
Proof.
  unfold release_where.
  set (body := λ (slot : nat) (t : CapabilityTable), _).
  destruct (for_range_ind (λ k t', slot_steps t t' ∧
    ∀ i, record_at t' i = if bool_decide (i < k)%nat then released_if m (record_at t i)
                          else record_at t i) body 0 (capacity t) t) as [H1 H2].
  - lia.
  - auto with cs.
  - intros i t1 Hi [H1 H2].
    assert (record_at t1 i = record_at t i) as Heq
      by (rewrite H2, bool_decide_eq_false_2 by lia; done).
    assert (∀ j, j ≠ i → (if bool_decide (j < S i)%nat then released_if m (record_at t j)
      else record_at t j) = record_at t1 j) as Hne.
    { intros j Hj. rewrite H2. by rewrite (bool_decide_ext (j < S i)%nat (j < i)%nat) by lia. }
    subst body. simpl. rewrite Heq. destruct (m _ && _) eqn:E.
    + split; [etrans; [done|auto with cs]|]. intros j. rewrite release_slot_at, Heq.
      apply andb_true_iff in E as [Em Es%bool_decide_eq_true].
      destruct (decide (i = j)) as [<-|Hij].
      * rewrite decide_True, bool_decide_eq_true_2 by (auto; lia). unfold released_if.
        by rewrite Em, bool_decide_eq_true_2.
      * rewrite decide_False by tauto. by rewrite Hne.
    + split; [done|]. intros j. destruct (decide (j = i)) as [->|Hij]; [|by rewrite Hne].
      rewrite bool_decide_eq_true_2 by lia. unfold released_if. by rewrite E.
  - split; [done|]. intros i. rewrite H2. case_bool_decide; [done|].
    rewrite record_at_ge by lia. unfold released_if. by rewrite andb_false_r.
Qed.

Lemma released_if_live m r :
  (state (released_if m r) = Live ↔ state r = Live) ∧ (state r = Live → released_if m r = r).
Proof.
  unfold released_if. destruct (m r); simpl; [|done].
  case_bool_decide as H; [|done]. rewrite H. split; [|done].
  split; [intros Hl; by apply released_not_live in Hl|done].
Qed.

Lemma release_where_forest L m t : forest_of L t → forest_of L (release_where m t).
Proof.
  intros Hf. destruct (release_where_spec m t) as [_ H].
  apply (forest_same_live L t); [done|..]; intros i; rewrite H; apply released_if_live.
Qed.

(** [release_revoked] is the unconditional release loop with a counter. *)
Lemma release_revoked_table t : fst (release_revoked t) = release_where (λ _, true) t.
Proof.
  unfold release_revoked, release_where, for_range.
  assert (∀ l n (t : CapabilityTable), fst (fold_left
      (λ s (i : nat), (λ slot '(t, count), match release_slot t slot with
         | (t, true) => (t, S count) | (t, false) => (t, count) end) i s) l (t, n)) =
      fold_left (λ s i, (λ slot t,
         if true && bool_decide (state (record_at t slot) = Revoked)
         then fst (release_slot t slot) else t) i s) l t) as H; [|apply H].
  induction l as [|i l IH]; intros n u; [done|]. simpl.
  case_bool_decide as Hr.
  - destruct (release_slot u i) as [u' []]; apply IH.
  - assert (release_slot u i = (u, false)) as ->; [|apply IH].
    unfold release_slot. case_decide; [done|]. by rewrite decide_True.
Qed.

Lemma release_revoked_forest L t : forest_of L t → forest_of L (fst (release_revoked t)).
Proof. rewrite release_revoked_table. apply release_where_forest. Qed.

Lemma release_revoked_steps t : slot_steps t (fst (release_revoked t)).
Proof. rewrite release_revoked_table. apply release_where_spec. Qed.

(** ** Issuing *)

Lemma same_or_retired_live r r' :
  same_or_retired r r' →
  (state r' = Live ↔ state r = Live) ∧ (state r = Live → r' = r).
Proof. intros [->|(Hs & _ & ->)]; [done|]. rewrite Hs. done. Qed.

Lemma issue_forest L t t' i :
  forest_of L t → installable (record_at t i) →
  state (record_at t' i) = Live → linked L t (record_at t' i) →
  (∀ j, j ≠ i → same_or_retired (record_at t j) (record_at t' j)) →
  forest_of L t'.
Proof.
  intros Hf [He _] Hl Hlink Hoth.
  assert (∀ j, state (record_at t j) = Live → record_at t' j = record_at t j) as Hkeep.
  { intros j Hj. apply same_or_retired_live; [|done]. apply Hoth. congruence. }
  assert (∀ r, linked L t r → linked L t' r) as Htr.
  { intros r. unfold linked. destruct (parent _) as [ph|]; [|done].
    intros (H1 & H2 & H3). by rewrite Hkeep. }
  intros j Hj. destruct (decide (j = i)) as [->|Hne]; [by apply Htr|].
  destruct (same_or_retired_live _ _ (Hoth j Hne)) as [Hiff _].
  rewrite Hkeep by tauto. apply Htr, Hf. tauto.
Qed.

Lemma grant_forest L t h res x prov t' out :
  grant t h res x prov = (t', out) →
  (∀ g, linked L t (MkRecord Live h res x prov g)) →
  forest_of L t → forest_of L t'.
Proof.
  intros H Hlink Hf. apply grant_cases in H as [(-> & _)|(_ & _ & _ & H)]; [done|].
  destruct H as [(_ & _ & Hs & _)|(i & Hi & Hin & _ & _ & Hr & Hoth & _)].
  - apply (forest_same_live L t); [done|..]; intros i; apply same_or_retired_live, Hs.
  - apply (issue_forest L t t' i); auto; by rewrite Hr.
Qed.

Definition roots_allowed (L : CapabilityRecord → option CapabilityRecord → Prop) : Prop :=
  ∀ r, depth (provenance r) = 0 → root_holder (provenance r) = holder r → L r None.

Lemma link_roots : roots_allowed link.
Proof. intros r H Hr. unfold link, MAX_DELEGATION_DEPTH. rewrite H. split; [lia|done]. Qed.

Lemma strict_link_roots : roots_allowed strict_link.
Proof. intros r H Hr. split; [by apply link_roots|done]. Qed.

Lemma grant_root_forest L t h res x :
  roots_allowed L → forest_of L t → forest_of L (fst (grant_root t h res x)).
Proof.
  intros HL Hf. unfold grant_root.
  assert (∀ u t' out, forest_of L u → grant u h res x (ProvenanceOps.root h) = (t', out) →
    forest_of L t') as Hg.
  { intros u t' out Hu H. eapply grant_forest; [done| |done]. intros g. by apply HL. }
  destruct (grant t h res x _) as [t1 [hd|e]] eqn:E; [by eapply Hg|].
  destruct e; simpl; try by eapply Hg.
  destruct (grant (fst (release_revoked t1)) h res x _) as [t2 out2] eqn:E2. simpl.
  eapply Hg; [|done]. apply release_revoked_forest. by eapply Hg.
Qed.

(** What [delegate] does when all its checks pass. *)
Lemma delegate_cases t src ph tgt x t' out :
  delegate t src ph tgt x = (t', out) →
  (t' = t ∧ ∃ e, out = Err e) ∨
  ∃ p prov, p = record_at t (slot_of ph) ∧ state p = Live ∧
    generation p = h_generation ph ∧ holder p = src ∧ tgt ≠ KERNEL ∧
    RightsOps.DELEGATE ⊑r rights p ∧ x ⊑r rights p ∧
    x ⊑r RightsOps.valid_for (class (resource p)) ∧
    Z.land x (RightsOps.root_only_for (class (resource p))) = 0 ∧
    prov = MkProvenance (Some ph) (depth (provenance p) + 1) (root_holder (provenance p)) ∧
    depth (provenance p) + 1 ≤ MAX_DELEGATION_DEPTH ∧
    grant t tgt (resource p) x prov = (t', out).
Proof.
  unfold delegate. destruct (Table.record t ph) as [p|e] eqn:Hr; [|naive_solver].
  apply record_Ok in Hr as (-> & _ & _ & _).
  destruct (validate_delegation _ _ _ _) as [y|e] eqn:Hv; [|naive_solver].
  apply validate_delegation_Ok in Hv as (-> & Hl & Hg & Hh & Hd & Hx & Hval & Hro).
  case_decide as Htgt; [naive_solver|].
  destruct (ProvenanceOps.child_of _ _) as [prov|e] eqn:Hp; [|naive_solver].
  unfold ProvenanceOps.child_of in Hp.
  destruct (checked_add _ _ _) as [d|] eqn:Hc; simpl in Hp; [|done].
  apply checked_add_Some in Hc as [-> _]. case_decide as Hdep; [done|]. injection Hp as <-.
  rewrite install_as_grant. simpl. intros H. right.
  eexists _, _. split_and!; eauto. lia.
Qed.

Lemma delegate_forest L t src ph tgt x :
  (∀ r p, L r p → link r p) → (∀ r p, strict_link r p → L r p) →
  forest_of L t → forest_of L (fst (delegate t src ph tgt x)).
Proof.
  intros HL1 HL2 Hf. destruct (delegate t src ph tgt x) as [t' out] eqn:E. simpl.
  apply delegate_cases in E as [[-> _]|(p & prov & -> & Hl & Hg & Hh & Ht & Hd & Hx & Hv & Hro &
    -> & Hdep & H)]; [done|].
  eapply grant_forest; [exact H| |exact Hf]. intros g. unfold linked. simpl.
  split_and!; [done..|]. apply HL2. repeat (split; [split|]); simpl; auto.
  destruct (HL1 _ _ (forest_link _ _ _ Hf Hl)) as [Hb _]. lia.
Qed.

(** ** The tree loops *)

Lemma expect_handle_live t i :
  state (record_at t i) = Live → (Z.of_nat i ≤ u16_max) →
  expect_handle t i = MkHandle (Z.of_nat i) (generation (record_at t i)).
Proof.
  intros Hl Hi. unfold expect_handle, handle_at.
  assert (i < capacity t)%nat by (apply record_at_nonempty; by rewrite Hl).
  rewrite decide_False by lia. rewrite decide_False by congruence.
  unfold slot_as_u16. by rewrite decide_True.
Qed.

Lemma slot_of_handle i g : slot_of (MkHandle (Z.of_nat i) g) = i.
Proof. unfold slot_of. simpl. lia. Qed.

Lemma record_expect_handle t i :
  state (record_at t i) = Live → (Z.of_nat i ≤ u16_max) →
  Table.record t (expect_handle t i) = Ok (record_at t i) ∧ slot_of (expect_handle t i) = i.
Proof.
  intros Hl Hi. rewrite expect_handle_live by done. rewrite slot_of_handle. split; [|done].
  apply record_Ok. rewrite slot_of_handle. simpl. split_and!; auto.
  apply record_at_nonempty. by rewrite Hl.
Qed.

Lemma revoke_subtree_steps t h : slot_steps t (fst (revoke_subtree t h)).
Proof.
  unfold revoke_subtree. destruct (slot_for_handle t h) as [i|]; [|auto with cs].
  destruct (mark_passes _ _ _) as [s|]; [|auto with cs].
  pose proof (revoke_marked_spec s t) as H. destruct (revoke_marked s t). tauto.
Qed.

(** ** Counting live slots *)

Lemma live_count_seq t :
  table_wf t → live_count t = count_if (λ i, is_live (record_at t i)) (seq 0 (capacity t)).
Proof.
  intros [-> _]. unfold record_at, capacity. induction (slots t) as [|r l IH] using rev_ind; [done|].
  rewrite length_app, Nat.add_1_r, seq_S, !count_if_app, !count_if_cons. simpl.
  rewrite lookup_app_r, Nat.sub_diag by lia. simpl. rewrite IH. f_equal.
  apply count_if_ext. intros i Hi%elem_of_seq. by rewrite lookup_app_l by lia.
Qed.

Lemma revoke_subtree_count t h t' n :
  table_wf t → revoke_subtree t h = (t', Ok n) → (live_count t' + n = live_count t)%nat.
Proof.
  intros Hwf. unfold revoke_subtree. destruct (slot_for_handle t h); [|done].
  destruct (mark_passes _ _ _) as [s|]; [|done]. pose proof (revoke_marked_spec s t) as H.
  destruct (revoke_marked s t) as [t1 n1]. destruct H as (Hs & Hrec & ->). intros [= <- <-].
  rewrite !live_count_seq by eauto using slot_steps_wf. rewrite (slot_steps_capacity _ _ Hs).
  rewrite <- (count_if_split (member s) (λ i, is_live (record_at t i))), Nat.add_comm.
  f_equal. apply count_if_ext. intros i _. rewrite Hrec. unfold marked_live.
  by destruct (member s i), (is_live (record_at t i)) eqn:E.
Qed.

(** ** The tree loops *)

(** Within a forest [t'] whose live records are those of [t], descent is the same. *)
Lemma descends_sub t t' root i n :
  forest t' → (∀ j, state (record_at t' j) = Live → record_at t' j = record_at t j) →
  state (record_at t' i) = Live → descends t' root i n ↔ descends t root i n.
Proof.
  intros Hf Hsame Hl. split.
  - clear Hl. induction 1 as [|j ph n Hl Hp _ IH]; [constructor|].
    pose proof (Hsame j Hl) as He. rewrite He in Hl, Hp. eauto with cs.
  - intros Hd. revert Hl. induction Hd as [|j ph n Hl Hp _ IH]; intros Hl'; [constructor|].
    rewrite <- (Hsame j Hl') in Hp. apply (descends_child _ _ _ ph); [done..|].
    apply IH. by eapply forest_parent_live.
Qed.

(** Slot [i] is live and at or below a live slot [< k] that [m] selects. *)
Definition tree_hit (m : CapabilityRecord → bool) (t : CapabilityTable) (k i : nat) : Prop :=
  state (record_at t i) = Live ∧
  ∃ s, (s < k)%nat ∧ state (record_at t s) = Live ∧ m (record_at t s) = true ∧ descendant t s i.

(** [t'] is [t] with exactly the hit slots revoked in place. *)
Definition hits_revoked (m : CapabilityRecord → bool) (t : CapabilityTable) (k : nat)
    (t' : CapabilityTable) : Prop :=
  ∀ i, (tree_hit m t k i ∧ record_at t' i = revoked_in_place (record_at t i)) ∨
       (¬ tree_hit m t k i ∧ record_at t' i = record_at t i).

Lemma hits_revoked_live m t k t' i :
  hits_revoked m t k t' → state (record_at t' i) = Live →
  record_at t' i = record_at t i ∧ ¬ tree_hit m t k i.
Proof. intros H Hl. destruct (H i) as [[_ Heq]|[Hn Heq]]; [by rewrite Heq in Hl|auto]. Qed.

Lemma tree_hit_S m t k i :
  tree_hit m t (S k) i ↔
  tree_hit m t k i ∨ (live_below t k i ∧ state (record_at t k) = Live ∧ m (record_at t k) = true).
Proof.
  split.
  - intros [Hl (s & Hs & H)]. destruct (decide (s = k)) as [->|Hne].
    + right. split; [split|]; tauto.
    + left. split; [done|]. exists s. split; [lia|done].
  - intros [[Hl (s & Hs & H)]|[[Hl Hd] [Hk Hm]]]; (split; [done|]).
    + exists s. split; [lia|done].
    + exists k. split_and!; auto.
Qed.

(** A slot the loop skips adds no new hit. *)
Lemma tree_hit_skip m t k i :
  (state (record_at t k) ≠ Live ∨ m (record_at t k) = false ∨ tree_hit m t k k) →
  tree_hit m t (S k) i ↔ tree_hit m t k i.
Proof.
  intros H. rewrite tree_hit_S. split; [|tauto]. intros [?|[[Hl [n Hd]] [Hk Hm]]]; [done|].
  destruct H as [?|[?|[_ (s & Hs & H1 & H2 & [n' Hd'])]]]; [done|congruence|].
  split; [done|]. exists s. split_and!; auto. by eapply descends_trans.
Qed.

Lemma hits_revoked_ext m t k k' t' :
  (∀ i, tree_hit m t k i ↔ tree_hit m t k' i) → hits_revoked m t k t' → hits_revoked m t k' t'.
Proof. intros He H i. specialize (H i). specialize (He i). tauto. Qed.

(** The step of the loop on a slot that is still live and selected. *)
Lemma hits_revoked_subtree m t k t1 t2 s :
  forest t1 → hits_revoked m t k t1 →
  state (record_at t1 k) = Live → m (record_at t1 k) = true →
  (∀ i, marked_live s t1 i = true ↔ live_below t1 k i) →
  (∀ i, record_at t2 i =
     if marked_live s t1 i then revoked_in_place (record_at t1 i) else record_at t1 i) →
  hits_revoked m t (S k) t2.
Proof.
  intros Hf1 Hh Hl Hm Hs Hrec i.
  assert (∀ j, state (record_at t1 j) = Live → record_at t1 j = record_at t j) as Hsame
    by (intros j Hj; eapply hits_revoked_live; eauto).
  pose proof (Hsame k Hl) as Hk. rewrite Hk in Hl, Hm.
  rewrite tree_hit_S, Hrec. destruct (marked_live s t1 i) eqn:E.
  - apply Hs in E as [Hi [n Hd]]. left. rewrite (Hsame i Hi). split; [|done]. right.
    split_and!; auto. split; [by rewrite <- Hsame|]. exists n. by apply (descends_sub t t1).
  - destruct (Hh i) as [[Hhit Heq]|[Hno Heq]]; [by left; auto|]. right. split; [|done].
    intros [?|([Hi [n Hd]] & _)]; [done|]. rewrite <- Heq in Hi.
    assert (marked_live s t1 i = true); [|congruence]. apply Hs. split; [done|].
    exists n. by apply (descends_sub t t1).
Qed.

Lemma descends_resource t root i n :
  forest t → descends t root i n → resource (record_at t i) = resource (record_at t root).
Proof.
  intros Hf. induction 1 as [|i ph n Hl Hp _ IH]; [done|].
  destruct (forest_link _ _ _ Hf Hl) as [_ Hk]. rewrite Hp in Hk. simpl in Hk.
  destruct Hk as [<- _]. done.
Qed.

(** Handles carry a 16-bit slot index. *)
Definition addressable (t : CapabilityTable) : Prop := Z.of_nat (capacity t) ≤ 65536.

(** A resource the loop reports: that of a live slot [< k] that [m] selects. *)
Definition reported (m : CapabilityRecord → bool) (t : CapabilityTable) (k : nat)
    (x : ResourceRef) : Prop :=
  ∃ s, (s < k)%nat ∧ state (record_at t s) = Live ∧ m (record_at t s) = true ∧
       resource (record_at t s) = x.

Lemma reported_S m t k x :
  reported m t (S k) x ↔ reported m t k x ∨
    (state (record_at t k) = Live ∧ m (record_at t k) = true ∧ resource (record_at t k) = x).
Proof.
  split.
  - intros (s & Hs & H). destruct (decide (s = k)) as [->|]; [by right|].
    left. exists s. split; [lia|done].
  - intros [(s & Hs & H)|H]; [exists s|exists k]; (split; [lia|done]).
Qed.

Lemma reported_skip m t k x :
  forest t →
  (state (record_at t k) ≠ Live ∨ m (record_at t k) = false ∨ tree_hit m t k k) →
  reported m t (S k) x ↔ reported m t k x.
Proof.
  intros Hf H. rewrite reported_S. split; [|tauto]. intros [?|(Hl & Hm & <-)]; [done|].
  destruct H as [?|[?|[_ (s & Hs & H1 & H2 & [n Hd])]]]; [done|congruence|].
  exists s. split_and!; auto. by rewrite (descends_resource _ _ _ _ Hf Hd).
Qed.

Definition trees_inv (L : CapabilityRecord → option CapabilityRecord → Prop)
    (m : CapabilityRecord → bool) (t : CapabilityTable) (k : nat)
    (s : CapabilityTable * nat * list ResourceRef) : Prop :=
  let '(t', n, visited) := s in
  slot_steps t t' ∧ forest_of L t' ∧ hits_revoked m t k t' ∧
  (live_count t' + n = live_count t)%nat ∧
  ∀ x, x ∈ visited ↔ reported m t k x.

Lemma trees_inv_skip L m t k s :
  forest t →
  (state (record_at t k) ≠ Live ∨ m (record_at t k) = false ∨ tree_hit m t k k) →
  trees_inv L m t k s → trees_inv L m t (S k) s.
Proof.
  intros Hf Hk. destruct s as [[t' n] visited]. intros (H1 & H2 & H3 & H4 & H5).
  split_and!; auto.
  - eapply hits_revoked_ext; [|done]. intros i. symmetry. by apply tree_hit_skip.
  - intros x. rewrite H5. symmetry. by apply reported_skip.
Qed.

Lemma revoke_trees_spec L m t :
  (∀ r p, L r p → link r p) → forest_of L t → table_wf t → addressable t →
  trees_inv L m t (capacity t) (revoke_trees m t).
Proof.
  intros HL HfL Hwf Ha. pose proof (forest_mono _ _ _ HL HfL) as Hf.
  unfold revoke_trees. apply (for_range_ind (trees_inv L m t)); [lia|..].
  - split_and!; [auto with cs|done| |lia|].
    + intros i. right. split; [|done]. intros [_ (s & Hs & _)]. lia.
    + intros x. split; [by intros ?%elem_of_nil|]. intros (s & Hs & _). lia.
  - intros k [[t1 n] visited] Hk Hinv.
    pose proof Hinv as (H1 & H2 & H3 & H4 & H5). case_decide as Hl.
    { apply trees_inv_skip; auto. destruct (H3 k) as [[Hh _]|[_ Heq]]; [auto|].
      left. by rewrite <- Heq. }
    destruct (hits_revoked_live _ _ _ _ _ H3 Hl) as [Heq _].
    destruct (m (record_at t1 k)) eqn:Hm; cbn [negb].
    2: { apply trees_inv_skip; auto. right; left. by rewrite <- Heq. }
    assert (Z.of_nat k ≤ u16_max) as Hk16.
    { unfold addressable in Ha. unfold u16_max, max_of. lia. }
    destruct (record_expect_handle t1 k Hl Hk16) as [Hrec Hso].
    pose proof (forest_mono _ _ _ HL H2) as Hf1.
    destruct (revoke_subtree_spec t1 _ _ Hf1 Hrec) as (t2 & n2 & s & Hrs & Hst & Hs & Hrec2 & _).
    pose proof (revoke_subtree_count _ _ _ _ (slot_steps_wf _ _ H1 Hwf) Hrs) as Hcnt.
    rewrite Hrs. simpl. rewrite Hso in Hs. split_and!.
    + by etrans.
    + by eapply revoke_subtree_forest.
    + by eapply hits_revoked_subtree.
    + lia.
    + intros x. rewrite elem_of_app, list_elem_of_singleton, H5, reported_S, <- Heq.
      naive_solver.
Qed.

(** Both tree revocations: the loop, then the release of the slots it selected. *)
Definition tree_dead (m : CapabilityRecord → bool) (t : CapabilityTable) (i : nat) : Prop :=
  tree_hit m t (capacity t) i.

Lemma tree_dead_iff m t i :
  tree_dead m t i ↔ state (record_at t i) = Live ∧
    ∃ s, state (record_at t s) = Live ∧ m (record_at t s) = true ∧ descendant t s i.
Proof.
  unfold tree_dead, tree_hit. split.
  - intros [Hl (s & _ & H)]. eauto.
  - intros [Hl (s & Hs & H)]. split; [done|]. exists s. split; [|done].
    apply record_at_nonempty. by rewrite Hs.
Qed.

Lemma release_where_live_count m t : live_count (release_where m t) = live_count t.
Proof.
  unfold release_where. apply (for_range_ind (λ _ t', live_count t' = live_count t)); [lia|done|].
  intros i t' _ H. destruct (_ && _); [|done]. unfold release_slot. by repeat case_decide.
Qed.

Lemma tree_revocation L m t t1 n visited :
  (∀ r p, L r p → link r p) → forest_of L t → table_wf t → addressable t →
  revoke_trees m t = (t1, n, visited) →
  let t' := release_where m t1 in
  slot_steps t t' ∧ forest_of L t' ∧ (live_count t' + n = live_count t)%nat ∧
  (∀ i, state (record_at t' i) = Live ↔ state (record_at t i) = Live ∧ ¬ tree_dead m t i) ∧
  (∀ i, state (record_at t' i) = Live → record_at t' i = record_at t i) ∧
  (∀ i, tree_dead m t i → m (revoked_in_place (record_at t i)) = true →
     record_at t' i = released (record_at t i)) ∧
  (∀ x, x ∈ visited ↔ ∃ s, state (record_at t s) = Live ∧ m (record_at t s) = true ∧
     resource (record_at t s) = x).
Proof.
  intros HL HfL Hwf Ha Hrt.
  pose proof (revoke_trees_spec L m t HL HfL Hwf Ha) as H. rewrite Hrt in H.
  destruct H as (H1 & H2 & H3 & H4 & H5). destruct (release_where_spec m t1) as [H6 H7].
  split_and!.
  - by etrans.
  - by apply release_where_forest.
  - by rewrite release_where_live_count.
  - intros i. rewrite H7. destruct (released_if_live m (record_at t1 i)) as [-> _].
    destruct (H3 i) as [[Hh ->]|[Hn ->]]; unfold tree_dead; [|tauto].
    split; [by intros ?%revoked_in_place_not_live|tauto].
  - intros i. rewrite H7. destruct (released_if_live m (record_at t1 i)) as [-> Hsame].
    intros Hl. rewrite Hsame by done. by eapply hits_revoked_live.
  - intros i Hd Hm. rewrite H7. destruct (H3 i) as [[Hh ->]|[Hn _]]; [|done].
    unfold released_if. by rewrite Hm.
  - intros x. rewrite H5. split.
    + intros (s & _ & H). eauto.
    + intros (s & Hs & H). exists s. split; [|done]. apply record_at_nonempty. by rewrite Hs.
Qed.

(** ** Listing *)

Lemma list_holder_from_spec n slot t h :
  match list_holder_from n slot t h with
  | Some (next, hd, r) => ∃ i, (slot ≤ i < slot + n)%nat ∧ next = S i ∧ hd = expect_handle t i ∧
      r = record_at t i ∧ state r = Live ∧ holder r = h ∧
      ∀ j, (slot ≤ j < i)%nat → ¬ (state (record_at t j) = Live ∧ holder (record_at t j) = h)
  | None => ∀ j, (slot ≤ j < slot + n)%nat →
      ¬ (state (record_at t j) = Live ∧ holder (record_at t j) = h)
  end.
Proof.
  revert slot. induction n as [|n IH]; intros slot; cbn [list_holder_from]; [intros; lia|].
  case_decide as Hd.
  - assert (¬ (state (record_at t slot) = Live ∧ holder (record_at t slot) = h)) as Hn by tauto.
    specialize (IH (S slot)). destruct (list_holder_from _ _ _ _) as [[[next hd] r]|].
    + destruct IH as (i & Hi & H1 & H2 & H3 & H4 & H5 & H6). exists i.
      split_and!; auto; try lia. intros j Hj.
      destruct (decide (j = slot)) as [->|]; [done|]. apply H6. lia.
    + intros j Hj. destruct (decide (j = slot)) as [->|]; [done|]. apply IH. lia.
  - exists slot. destruct (decide (state (record_at t slot) = Live)); [|tauto].
    destruct (decide (holder (record_at t slot) = h)); [|tauto].
    split_and!; auto; intros; lia.
Qed.

Lemma list_holder_spec t h cursor :
  match list_holder t h cursor with
  | Some (next, hd, r) => ∃ i, (cursor ≤ i < capacity t)%nat ∧ next = S i ∧
      hd = expect_handle t i ∧ r = record_at t i ∧ state r = Live ∧ holder r = h ∧
      ∀ j, (cursor ≤ j < i)%nat → ¬ (state (record_at t j) = Live ∧ holder (record_at t j) = h)
  | None => ∀ j, (cursor ≤ j)%nat →
      ¬ (state (record_at t j) = Live ∧ holder (record_at t j) = h)
  end.
Proof.
  assert (∀ j, (capacity t ≤ j)%nat → state (record_at t j) ≠ Live) as Hge
    by (intros j Hj; by rewrite record_at_ge).
  unfold list_holder. case_decide as Hc.
  - intros j Hj [Hl _]. apply (Hge j); [lia|done].
  - pose proof (list_holder_from_spec (capacity t - cursor) cursor t h) as H.
    replace (cursor + (capacity t - cursor))%nat with (capacity t) in H by lia.
    destruct (list_holder_from _ _ _ _) as [[[next hd] r]|]; [done|].
    intros j Hj. destruct (decide (capacity t ≤ j)%nat) as [Hj'|]; [|apply H; lia].
    intros [Hl _]. by apply (Hge j).
Qed.

(** ** Revoking leaves *)

Definition leaf (t : CapabilityTable) (i : nat) : Prop :=
  ∀ j ph, state (record_at t j) = Live → parent (provenance (record_at t j)) = Some ph →
    slot_of ph ≠ i.

(** The record a handle names, when it is live. *)
Definition names_live (t : CapabilityTable) (h : CapabilityHandle) : Prop :=
  state (record_at t (slot_of h)) = Live ∧ generation (record_at t (slot_of h)) = h_generation h.

Lemma revoke_named t h :
  names_live t h →
  (∀ i, record_at (fst (revoke t h)) i =
     if decide (i = slot_of h) then revoked_in_place (record_at t i) else record_at t i) ∧
  snd (revoke t h) = Ok true.
Proof.
  intros [Hl Hg]. assert (slot_of h < capacity t)%nat as Hlt
    by (apply record_at_nonempty; by rewrite Hl).
  unfold revoke. rewrite (proj2 (slot_index_Ok _ h (slot_of h))) by done.
  rewrite decide_False by (rewrite Hl; naive_solver).
  rewrite decide_False by (rewrite Hl; naive_solver).
  pose proof (revoke_slot_at t (slot_of h)) as Hat. pose proof (revoke_slot_true t (slot_of h)) as Hb.
  destruct (revoke_slot t (slot_of h)) as [t' b]. simpl in *. subst b. split.
  - intros i. rewrite Hat, Hl. destruct (decide (i = slot_of h)) as [->|Hne].
    + by rewrite decide_True.
    + rewrite decide_False by naive_solver. done.
  - by rewrite (proj2 (is_live_true _)).
Qed.

Lemma revoke_leaf_forest L t h :
  forest_of L t → names_live t h → leaf t (slot_of h) → forest_of L (fst (revoke t h)).
Proof.
  intros Hf Hn Hleaf. destruct (revoke_named t h Hn) as [Hrec _].
  assert (∀ i, state (record_at (fst (revoke t h)) i) = Live →
    i ≠ slot_of h ∧ record_at (fst (revoke t h)) i = record_at t i) as Hsame.
  { intros i. rewrite Hrec. by case_decide. }
  apply (forest_ext L t); [done|by intros i Hi; apply Hsame|].
  intros i ph Hl Hp. destruct (Hsame i Hl) as [Hi Heq]. rewrite Heq in Hl, Hp.
  destruct (forest_parent_live _ _ _ _ Hf Hl Hp) as [Hpl _].
  rewrite Hrec, decide_False; [done|]. by apply (Hleaf i).
Qed.

(** ** Fork inheritance *)

(** The record a child gets for the capability in slot [i] of its parent. *)
Definition inherited_from (t0 : CapabilityTable) (child : HolderId) (i : nat)
    (r : CapabilityRecord) : Prop :=
  let p := record_at t0 i in
  state r = Live ∧ holder r = child ∧ resource r = resource p ∧ rights r = rights p ∧
  provenance r = MkProvenance (Some (expect_handle t0 i)) (depth (provenance p) + 1)
                   (root_holder (provenance p)).

(** A handle [rollback_fork_inherited] can take back. *)
Definition removable (t : CapabilityTable) (h : CapabilityHandle) : Prop :=
  names_live t h ∧ leaf t (slot_of h).

Lemma rollback_spec L t hs :
  forest_of L t → NoDup (slot_of <$> hs) → Forall (removable t) hs →
  let t' := rollback_fork_inherited t hs in
  slot_steps t t' ∧ forest_of L t' ∧
  ∀ i, record_at t' i =
    if decide (i ∈ slot_of <$> hs) then revoked_in_place (record_at t i) else record_at t i.
Proof.
  revert t. induction hs as [|h hs IH]; intros t Hf Hnd Hall.
  - split_and!; [auto with cs|done|]. intros i. by rewrite decide_False by set_solver.
  - rewrite fmap_cons in Hnd |- *. apply NoDup_cons in Hnd as [Hni Hnd].
    apply Forall_cons in Hall as [[Hn Hleaf] Hall].
    destruct (revoke_named t h Hn) as [Hrec _].
    assert (Forall (removable (fst (revoke t h))) hs) as Hall'.
    { rewrite Forall_forall in Hall |- *. intros h' Hh'. destruct (Hall h' Hh') as [Hn' Hl'].
      assert (slot_of h' ≠ slot_of h) as Hne.
      { intros He. apply Hni. rewrite <- He. by apply list_elem_of_fmap_2. }
      split; [|intros j ph]; [unfold names_live|];
        rewrite Hrec; case_decide as Hd; try done. by apply Hl'. }
    destruct (IH _ (revoke_leaf_forest _ _ _ Hf Hn Hleaf) Hnd Hall') as (H1 & H2 & H3).
    split_and!; [etrans; [apply revoke_steps|exact H1]|done|].
    intros i. etrans; [apply H3|]. rewrite Hrec.
    destruct (decide (i = slot_of h)) as [->|Hne].
    + rewrite decide_False by done. by rewrite decide_True by (by left).
    + destruct (decide (i ∈ slot_of <$> hs)).
      * by rewrite decide_True by (by right).
      * rewrite decide_False; [done|]. by intros [?|?]%elem_of_cons.
Qed.

Record fork_inv (t0 : CapabilityTable) (par child : HolderId) (cursor : nat)
    (t : CapabilityTable) (installed : list CapabilityHandle) : Prop := {
  fork_steps : slot_steps t0 t;
  fork_forest : forest t;
  fork_kept : ∀ i, state (record_at t0 i) = Live → record_at t i = record_at t0 i;
  fork_new : ∀ j, state (record_at t j) = Live →
    state (record_at t0 j) = Live ∨ j ∈ slot_of <$> installed;
  fork_done : ∀ i, (i < cursor)%nat → state (record_at t0 i) = Live →
    holder (record_at t0 i) = par →
    ∃ j, state (record_at t0 j) ≠ Live ∧ inherited_from t0 child i (record_at t j);
  fork_origin : ∀ h, h ∈ installed → ∃ i, state (record_at t0 i) = Live ∧
    holder (record_at t0 i) = par ∧ inherited_from t0 child i (record_at t (slot_of h));
  fork_nodup : NoDup (slot_of <$> installed);
  fork_removable : Forall (removable t) installed;
  fork_fresh : ∀ h, h ∈ installed → state (record_at t0 (slot_of h)) ≠ Live;
}.

(** Where a fork stops on depth: at the parent's first capability that is already as deep as
    allowed, with a copy of each of the parent's capabilities before it left behind. *)
Definition fork_stuck (t0 : CapabilityTable) (par child : HolderId) (t : CapabilityTable)
  : Prop :=
  ∃ k, state (record_at t0 k) = Live ∧ holder (record_at t0 k) = par ∧
    depth (provenance (record_at t0 k)) = MAX_DELEGATION_DEPTH ∧
    ∀ i, (i < k)%nat → state (record_at t0 i) = Live → holder (record_at t0 i) = par →
      ∃ j, state (record_at t0 j) ≠ Live ∧ inherited_from t0 child i (record_at t j).

Definition fork_outcome (t0 : CapabilityTable) (par child : HolderId) (t : CapabilityTable)
    (out : result CapabilityError unit) : Prop :=
  slot_steps t0 t ∧ forest t ∧
  (∀ i, state (record_at t0 i) = Live → record_at t i = record_at t0 i) ∧
  match out with
  | Ok _ =>
      (∀ i, state (record_at t0 i) = Live → holder (record_at t0 i) = par →
        ∃ j, state (record_at t0 j) ≠ Live ∧ inherited_from t0 child i (record_at t j)) ∧
      (∀ j, state (record_at t j) = Live → state (record_at t0 j) = Live ∨
        ∃ i, state (record_at t0 i) = Live ∧ holder (record_at t0 i) = par ∧
             inherited_from t0 child i (record_at t j))
  | Err DelegationDepthExceeded => fork_stuck t0 par child t
  | Err _ => ∀ j, state (record_at t j) = Live → state (record_at t0 j) = Live
  end.

Lemma fork_rolled_back t0 par child cursor t t1 installed e :
  e ≠ DelegationDepthExceeded → fork_inv t0 par child cursor t installed →
  slot_steps t t1 → forest t1 → (∀ j, same_or_retired (record_at t j) (record_at t1 j)) →
  fork_outcome t0 par child (rollback_fork_inherited t1 installed) (Err e).
Proof.
  intros He [H1 H2 H3 H4 H5 H6 H7 H8 H9] Hst Hf Hsame.
  assert (∀ j, state (record_at t1 j) = Live ↔ state (record_at t j) = Live) as Hiff
    by (intros j; apply same_or_retired_live, Hsame).
  assert (∀ j, state (record_at t j) = Live → record_at t1 j = record_at t j) as Heq
    by (intros j; apply same_or_retired_live, Hsame).
  assert (Forall (removable t1) installed) as Hrem.
  { eapply Forall_impl; [exact H8|]. intros h [[Hl Hg] Hleaf]. split.
    - unfold names_live. by rewrite Heq.
    - intros j ph Hj. rewrite Heq by by apply Hiff. apply Hleaf. by apply Hiff. }
  destruct (rollback_spec link t1 installed Hf H7 Hrem) as (G1 & G2 & G3).
  assert (∀ i, state (record_at t0 i) = Live → i ∉ slot_of <$> installed) as Hnot.
  { intros i Hl (h & -> & Hh)%list_elem_of_fmap. by apply (H9 h). }
  split_and!; [by do 2 (etrans; [eassumption|])|done|..].
  - intros i Hl. rewrite G3, decide_False by auto.
    rewrite Heq; rewrite H3 by done; done.
  - assert (∀ j, state (record_at (rollback_fork_inherited t1 installed) j) = Live →
      state (record_at t0 j) = Live) as Hback.
    { intros j. rewrite G3. case_decide as Hd; [done|]. rewrite Hiff. intros Hl.
      by destruct (H4 j Hl). }
    by destruct e.
Qed.

Lemma expect_handle_ext t t' i :
  capacity t' = capacity t → record_at t' i = record_at t i →
  expect_handle t' i = expect_handle t i.
Proof. intros Hc Hr. unfold expect_handle, handle_at. by rewrite Hc, Hr. Qed.

(** A live record of the parent during the loop is one it had before. *)
Lemma fork_source t0 par child cursor t installed i :
  par ≠ child → fork_inv t0 par child cursor t installed →
  state (record_at t i) = Live → holder (record_at t i) = par →
  state (record_at t0 i) = Live ∧ record_at t i = record_at t0 i ∧
  expect_handle t i = expect_handle t0 i.
Proof.
  intros Hne Hinv Hl Hh. destruct (fork_new _ _ _ _ _ _ Hinv i Hl) as [Hl0|Hin].
  - pose proof (fork_kept _ _ _ _ _ _ Hinv i Hl0) as Heq. split_and!; auto.
    apply expect_handle_ext; [|done]. by eapply slot_steps_capacity, fork_steps.
  - exfalso. apply list_elem_of_fmap in Hin as (h & -> & Hin).
    destruct (fork_origin _ _ _ _ _ _ Hinv h Hin) as (k & _ & _ & (_ & Hc & _)). congruence.
Qed.

(** Skipping cursor positions that hold nothing of the parent. *)
Lemma fork_skip t0 par child c c' t installed :
  fork_inv t0 par child c t installed →
  (∀ j, (c ≤ j < c')%nat → ¬ (state (record_at t j) = Live ∧ holder (record_at t j) = par)) →
  fork_inv t0 par child c' t installed.
Proof.
  intros [H1 H2 H3 H4 H5 H6 H7 H8 H9] Hskip. constructor; auto.
  intros i Hi Hl Hh. apply H5; auto. destruct (decide (i < c)%nat); [done|].
  exfalso. apply (Hskip i); [lia|]. rewrite H3 by done. done.
Qed.

(** What one turn of the loop installs for slot [i]. *)
Definition child_provenance (t : CapabilityTable) (i : nat) : Provenance :=
  MkProvenance (Some (expect_handle t i)) (depth (provenance (record_at t i)) + 1)
    (root_holder (provenance (record_at t i))).

Lemma linked_inherited t i child g :
  forest t → state (record_at t i) = Live → Z.of_nat i ≤ u16_max →
  depth (provenance (record_at t i)) + 1 ≤ MAX_DELEGATION_DEPTH →
  linked link t (MkRecord Live child (resource (record_at t i)) (rights (record_at t i))
    (child_provenance t i) g).
Proof.
  intros Hf Hl Hi Hd. unfold linked. simpl. rewrite expect_handle_live by done.
  rewrite slot_of_handle. simpl. destruct (forest_link _ _ _ Hf Hl) as [Hb _].
  split_and!; [done..|]. split; simpl; [lia|]. by split_and!.
Qed.

(** The effect of one successful installation on the slots. *)
Lemma installed_slot t child i t1 hd :
  forest t → state (record_at t i) = Live → Z.of_nat i ≤ u16_max →
  depth (provenance (record_at t i)) + 1 ≤ MAX_DELEGATION_DEPTH →
  grant t child (resource (record_at t i)) (rights (record_at t i)) (child_provenance t i) =
    (t1, Ok hd) →
  forest t1 ∧ names_live t1 hd ∧ state (record_at t (slot_of hd)) = Empty ∧
  (∃ g, record_at t1 (slot_of hd) = MkRecord Live child (resource (record_at t i))
     (rights (record_at t i)) (child_provenance t i) g) ∧
  (∀ j, state (record_at t j) = Live → record_at t1 j = record_at t j) ∧
  (∀ j, state (record_at t1 j) = Live → j = slot_of hd ∨ state (record_at t j) = Live).
Proof.
  intros Hf Hl Hi Hd Hins. split.
  { eapply grant_forest; [exact Hins| |exact Hf]. intros g. by apply linked_inherited. }
  apply grant_cases in Hins as [(_ & ? & _)|(_ & _ & Hc & [(? & _)|(k & Hk & [Hke _] & _ & _ &
    Hr & Hoth & Hout)])]; [done..|].
  case_decide; [|done]. injection Hout as ->. unfold names_live. rewrite slot_of_handle. simpl.
  rewrite Hr. split_and!; eauto.
  - intros j Hj. apply same_or_retired_live; [|done]. apply Hoth. congruence.
  - intros j Hj. destruct (decide (j = k)) as [|Hjk]; [by left|right].
    by apply (same_or_retired_live _ _ (Hoth j Hjk)).
Qed.

Lemma fork_install t0 par child i t installed t1 hd :
  par ≠ child → addressable t0 → fork_inv t0 par child i t installed →
  state (record_at t i) = Live → holder (record_at t i) = par →
  depth (provenance (record_at t i)) + 1 ≤ MAX_DELEGATION_DEPTH →
  grant t child (resource (record_at t i)) (rights (record_at t i)) (child_provenance t i) =
    (t1, Ok hd) →
  fork_inv t0 par child (S i) t1 (installed ++ [hd]).
Proof.
  intros Hne Ha Hinv Hl Hh Hd Hins. pose proof Hinv as [H1 H2 H3 H4 H5 H6 H7 H8 H9].
  destruct (fork_source _ _ _ _ _ _ i Hne Hinv Hl Hh) as (Hl0 & Heq0 & Hex).
  assert (Z.of_nat i ≤ u16_max) as Hi16.
  { assert (i < capacity t0)%nat by (apply record_at_nonempty; by rewrite Hl0).
    unfold addressable, u16_max, max_of in *. lia. }
  pose proof (grant_steps t child (resource (record_at t i)) (rights (record_at t i))
    (child_provenance t i)) as Hst. rewrite Hins in Hst. simpl in Hst.
  destruct (installed_slot _ _ _ _ _ H2 Hl Hi16 Hd Hins) as (Hf1 & Hn & Hke & [g Hr] & Hkeep & Hlive).
  assert (state (record_at t0 (slot_of hd)) ≠ Live) as Hk0
    by (intros Hx; rewrite H3 in Hke; congruence).
  assert (inherited_from t0 child i (record_at t1 (slot_of hd))) as Hinh.
  { rewrite Hr. unfold child_provenance. rewrite Heq0, Hex. by split_and!. }
  rewrite Forall_forall in H8.
  assert (∀ h, h ∈ installed → state (record_at t (slot_of h)) = Live) as Hinst
    by (intros h Hin; apply (H8 h Hin)).
  assert (∀ j ph, state (record_at t1 j) = Live → parent (provenance (record_at t1 j)) = Some ph →
    state (record_at t (slot_of ph)) = Live ∧
    (slot_of ph = i ∨ parent (provenance (record_at t j)) = Some ph ∧ state (record_at t j) = Live))
    as Hpar.
  { intros j ph Hj Hp. destruct (Hlive j Hj) as [->|Hj'].
    - rewrite Hr in Hp. simpl in Hp. injection Hp as <-.
      rewrite expect_handle_live, slot_of_handle by done. auto.
    - rewrite Hkeep in Hp by done. split; [|auto]. by eapply forest_parent_live. }
  constructor; auto.
  - by etrans.
  - intros j Hj. rewrite Hkeep; rewrite H3 by done; done.
  - intros j Hj. rewrite fmap_app. destruct (Hlive j Hj) as [->|Hj']; [set_solver|].
    destruct (H4 j Hj'); set_solver.
  - intros j Hj Hjl Hjh. destruct (decide (j = i)) as [->|Hji]; [eauto|].
    destruct (H5 j) as (k & Hk & Hinhk); [lia|done..|]. exists k. split; [done|].
    rewrite Hkeep by apply Hinhk. done.
  - intros h [Hin|Hin%list_elem_of_singleton]%elem_of_app; [|subst h].
    + rewrite Hkeep by auto. auto.
    + exists i. rewrite <- Heq0. auto.
  - rewrite fmap_app. apply NoDup_app. split_and!; [done| |apply NoDup_singleton].
    intros x (h & -> & Hin)%list_elem_of_fmap Hx%list_elem_of_singleton.
    specialize (Hinst h Hin). simpl in Hx. congruence.
  - apply Forall_forall. intros h [Hin|Hin%list_elem_of_singleton]%elem_of_app; [|subst h].
    + destruct (H8 h Hin) as [[Hl' Hg'] Hleaf]. split; [unfold names_live; by rewrite Hkeep|].
      intros j ph Hj Hp. destruct (Hpar j ph Hj Hp) as [_ [->|[? ?]]]; [|by apply (Hleaf j)].
      intros ->. destruct (H6 h Hin) as (k & _ & _ & (_ & Hc & _)). congruence.
    + split; [done|]. intros j ph Hj Hp. destruct (Hpar j ph Hj Hp) as [Hx _]. congruence.
  - intros h [Hin|Hin%list_elem_of_singleton]%elem_of_app; [|subst h]; auto.
Qed.

Lemma child_of_cases hd p :
  MAX_DELEGATION_DEPTH < depth p + 1 ∧ ProvenanceOps.child_of hd p = Err DelegationDepthExceeded ∨
  (depth p + 1 ≤ MAX_DELEGATION_DEPTH ∧
   ProvenanceOps.child_of hd p = Ok (MkProvenance (Some hd) (depth p + 1) (root_holder p))).
Proof.
  unfold ProvenanceOps.child_of. destruct (checked_add _ _ _) as [d|] eqn:E.
  - apply checked_add_Some in E as [-> _]. simpl. case_decide; [left|right]; (split; [lia|done]).
  - left. split; [|done]. apply checked_add_None in E. unfold MAX_DELEGATION_DEPTH. lia.
Qed.

Lemma inherit_loop_spec t0 par child fuel t cursor installed :
  par ≠ child → addressable t0 → fork_inv t0 par child cursor t installed →
  (capacity t0 - cursor < fuel)%nat →
  ∃ t' out, inherit_loop fuel t par child cursor installed = Some (t', out) ∧
    fork_outcome t0 par child t' out.
Proof.
  intros Hne Ha. revert t cursor installed.
  induction fuel as [|fuel IH]; intros t cursor installed Hinv Hfuel; [lia|].
  cbn [inherit_loop]. pose proof (list_holder_spec t par cursor) as Hls.
  assert (capacity t = capacity t0) as Hcap by (eapply slot_steps_capacity, fork_steps; eauto).
  destruct (list_holder t par cursor) as [[[next hd] r]|].
  - destruct Hls as (i & Hi & -> & -> & -> & Hl & Hh & Hskip).
    apply (fork_skip _ _ _ _ i) in Hinv; [|done].
    destruct (child_of_cases (expect_handle t i) (provenance (record_at t i)))
      as [[Hdeep ->]|[Hd ->]].
    + eexists _, _. split; [done|].
      destruct (fork_source _ _ _ _ _ _ i Hne Hinv Hl Hh) as (Hl0 & Heq0 & _).
      destruct Hinv as [H1 H2 H3 H4 H5 H6 H7 H8 H9]. split_and!; auto. exists i.
      rewrite <- Heq0 in *. destruct (forest_link _ _ _ H2 Hl) as [Hb _].
      split_and!; [done..|lia|exact H5].
    + case_decide.
      { eexists _, _. split; [done|]. eapply fork_rolled_back; [done|eauto with cs..|].
        - by destruct Hinv.
        - by left. }
      rewrite install_as_grant. simpl. fold (child_provenance t i).
      destruct (grant _ _ _ _ _) as [t1 [h1|e]] eqn:Hg.
      * apply IH; [by eapply fork_install|lia].
      * eexists _, _. split; [done|]. assert (Z.of_nat i ≤ u16_max) as Hi16
          by (unfold addressable, u16_max, max_of in *; lia).
        eapply fork_rolled_back; [|done|..].
        -- apply grant_cases in Hg as [(_ & [= ->] & _)|(_ & _ & _ & [([= ->] & _)|
             (k & _ & _ & _ & _ & _ & _ & Hout)])]; [done..|]. by case_decide; simplify_eq.
        -- pose proof (grant_steps t child (resource (record_at t i)) (rights (record_at t i))
             (child_provenance t i)) as Hst. by rewrite Hg in Hst.
        -- eapply grant_forest; [done| |by destruct Hinv]. intros g.
           apply linked_inherited; auto. by destruct Hinv.
        -- apply grant_cases in Hg as [(-> & _)|(_ & _ & _ & [(_ & _ & Hs & _)|
             (k & Hk & _ & _ & _ & _ & _ & Hout)])]; [by left|done|].
           rewrite decide_True in Hout; [done|]. unfold addressable, u16_max, max_of in *. lia.
  - eexists _, _. split; [done|]. destruct Hinv as [H1 H2 H3 H4 H5 H6 H7 H8 H9].
    split_and!; auto.
    + intros i Hl Hh. apply H5; auto. destruct (decide (i < cursor)%nat) as [|Hc]; [done|].
      exfalso. apply (Hls i); [lia|]. by rewrite H3.
    + intros j Hl. destruct (H4 j Hl) as [?|(h & -> & Hin)%list_elem_of_fmap]; auto.
Qed.

Lemma fork_inv_start t par child : forest t → fork_inv t par child 0 t [].
Proof.
  intros Hf. constructor; auto with cs; try done; try lia.
  - intros h Hh. by apply elem_of_nil in Hh.
  - constructor.
  - intros h Hh. by apply elem_of_nil in Hh.
Qed.

Lemma inherit_spec t par child :
  par ≠ child → addressable t → forest t →
  ∃ t' out, inherit_capabilities_for_fork t par child = Some (t', out) ∧
    fork_outcome t par child t' out.
Proof.
  intros Hne Ha Hf. apply inherit_loop_spec; auto using fork_inv_start. lia.
Qed.
