(* ===== verification/CapSafety.v ===== *)
(** Safety of the capability space: every operation sequence, end to end.

    [CapOp] lists the operations of [capability/src/table.rs], [delegation.rs],
    [revocation.rs] and of [kernel/src/capability/mod.rs] that change the table;
    [run_op] dispatches them. The theorems cover arbitrary sequences of operations. *)

From Stdlib Require Import ZArith Lia.
From stdpp Require Import base list tactics decidable numbers strings relations.
From S2P Require Import Prelude CapTypes CapTable CapTree.
Import Table.

Local Open Scope Z_scope.

Inductive CapOp : Type :=
| OpGrant (h : HolderId) (res : ResourceRef) (x : Rights) (prov : Provenance)
| OpInstall (r : CapabilityRecord)
| OpRevoke (h : CapabilityHandle)
| OpRevokeSlot (slot : nat)
| OpReleaseSlot (slot : nat)
| OpRevokeHolder (h : HolderId)
| OpRevokeResource (res : ResourceRef)
| OpRevokeResourceId (c : ResourceClass) (i : Z)
| OpDelegate (source : HolderId) (par : CapabilityHandle) (target : HolderId) (x : Rights)
| OpRevokeSubtree (h : CapabilityHandle)
| OpRevokeHolderTree (h : HolderId)
| OpRevokeResourceTree (c : ResourceClass) (i : Z)
| OpReleaseRevoked
| OpGrantRoot (h : HolderId) (res : ResourceRef) (x : Rights)
| OpFork (par child : HolderId).

Definition run_op (t : CapabilityTable) (op : CapOp) : CapabilityTable :=
  match op with
  | OpGrant h res x prov => fst (grant t h res x prov)
  | OpInstall r => fst (install t r)
  | OpRevoke h => fst (revoke t h)
  | OpRevokeSlot slot => fst (revoke_slot t slot)
  | OpReleaseSlot slot => fst (release_slot t slot)
  | OpRevokeHolder h => fst (revoke_holder t h)
  | OpRevokeResource res => fst (revoke_resource t res)
  | OpRevokeResourceId c i => fst (revoke_resource_id t c i)
  | OpDelegate source par target x => fst (delegate t source par target x)
  | OpRevokeSubtree h => fst (revoke_subtree t h)
  | OpRevokeHolderTree h => fst (revoke_holder_tree t h)
  | OpRevokeResourceTree c i => fst (revoke_resource_tree t c i)
  | OpReleaseRevoked => fst (release_revoked t)
  | OpGrantRoot h res x => fst (grant_root t h res x)
  | OpFork par child =>
      match inherit_capabilities_for_fork t par child with
      | Some (t, _) => t
      | None => t
      end
  end.

Definition run_ops (t : CapabilityTable) (ops : list CapOp) : CapabilityTable :=
  fold_left run_op ops t.

(** * Every operation is a run of the slot life cycle *)

Lemma delegate_steps t src ph tgt x : slot_steps t (fst (delegate t src ph tgt x)).
Proof.
  unfold delegate. destruct (Table.record t ph) as [r|]; [|auto with cs].
  destruct (validate_delegation _ _ _ _); [|auto with cs]. case_decide; [auto with cs|].
  destruct (ProvenanceOps.child_of _ _); [|auto with cs]. rewrite install_as_grant. auto with cs.
Qed.

Lemma revoke_trees_steps m t : slot_steps t (fst (fst (revoke_trees m t))).
Proof.
  unfold revoke_trees. apply (for_range_ind (λ _ s, slot_steps t (fst (fst s)))); [lia|auto with cs|].
  intros i [[t1 n] v] _ H. simpl in *. case_decide; [done|]. destruct (m _); simpl; [|done].
  pose proof (revoke_subtree_steps t1 (expect_handle t1 i)) as Hs.
  destruct (revoke_subtree _ _) as [t2 n2]. simpl in *. by etrans.
Qed.

Lemma tree_steps m t : slot_steps t (release_where m (fst (fst (revoke_trees m t)))).
Proof. etrans; [apply revoke_trees_steps|apply release_where_spec]. Qed.

Lemma grant_root_steps t h res x : slot_steps t (fst (grant_root t h res x)).
Proof.
  unfold grant_root. pose proof (grant_steps t h res x (ProvenanceOps.root h)) as H.
  destruct (grant t h res x _) as [t1 [hd|e]]; [done|]. destruct e; simpl in *; try done.
  etrans; [exact H|]. etrans; [apply release_revoked_steps|]. apply grant_steps.
Qed.

Lemma rollback_steps t hs : slot_steps t (rollback_fork_inherited t hs).
Proof.
  unfold rollback_fork_inherited. revert t. induction hs as [|h hs IH]; intros t; [auto with cs|].
  simpl. etrans; [apply revoke_steps|apply IH].
Qed.

Lemma inherit_loop_steps fuel t par child cursor installed t' out :
  inherit_loop fuel t par child cursor installed = Some (t', out) → slot_steps t t'.
Proof.
  revert t cursor installed. induction fuel as [|fuel IH]; intros t cursor installed; [done|].
  cbn [inherit_loop]. destruct (list_holder t par cursor) as [[[next hd] r]|].
  2: { intros [= <- _]. auto with cs. }
  destruct (ProvenanceOps.child_of _ _) as [prov|]; [|intros [= <- _]; auto with cs].
  case_decide; [intros [= <- _]; apply rollback_steps|].
  rewrite install_as_grant. simpl.
  pose proof (grant_steps t child (resource r) (rights r) prov) as Hg.
  destruct (grant _ _ _ _ _) as [t1 [h1|e]]; simpl in *.
  - intros Hi. etrans; [exact Hg|]. by eapply IH.
  - intros [= <- _]. etrans; [exact Hg|]. apply rollback_steps.
Qed.

#[export] Hint Resolve delegate_steps revoke_subtree_steps release_revoked_steps
  grant_root_steps : cs.

Lemma run_op_steps t op : slot_steps t (run_op t op).
Proof.
  destruct op; simpl; try rewrite install_as_grant; auto with cs;
    try apply revoke_where_steps.
  - unfold revoke_holder_tree, revoke_holder_tree_visiting. cbv zeta.
    pose proof (tree_steps (λ r, bool_decide (holder r = h)) t) as H.
    destruct (revoke_trees _ t) as [[t1 n] v]. exact H.
  - unfold revoke_resource_tree. cbv zeta.
    pose proof (tree_steps (λ r, bool_decide (class (resource r) = c) &&
      bool_decide (id (resource r) = i)) t) as H.
    destruct (revoke_trees _ t) as [[t1 n] v]. exact H.
  - destruct (inherit_capabilities_for_fork t par child) as [[t1 out]|] eqn:E; [|auto with cs].
    by eapply inherit_loop_steps.
Qed.

Lemma run_ops_steps t ops : slot_steps t (run_ops t ops).
Proof.
  revert t. induction ops as [|op ops IH]; intros t; [apply rtc_refl|].
  etrans; [apply run_op_steps|apply IH].
Qed.

(** The invariants of one record and of the counter, and the handles that can never come
    back, on every table the operations can build. *)
Lemma run_ops_wf N ops : table_wf (run_ops (new N) ops).
Proof. eapply slot_steps_wf; [apply run_ops_steps|apply table_wf_new]. Qed.

(** C23: Whatever sequence of operations runs on a fresh table, the live counter equals the
    number of live slots, live records have a non-empty set of rights that is legal for
    their resource class and a generation of at least 1, revoked records have no rights, and
    empty and retired slots keep nothing but their generation. *)
Theorem table_invariant N ops :
  let t := run_ops (new N) ops in
  capacity t = N ∧ live_count t = count_if is_live (slots t) ∧
  ∀ i, record_ok (record_at t i).
Proof.
  split; [|apply run_ops_wf]. rewrite (slot_steps_capacity _ _ (run_ops_steps _ _)).
  unfold capacity. apply length_replicate.
Qed.

(** Spent handles. *)
Lemma revoked_spent t h t' : revoke t h = (t', Ok true) → spent t' h.
Proof.
  unfold revoke. destruct (slot_index _ _) as [i|] eqn:Hi; [|done].
  apply slot_index_Ok in Hi as [-> Hi]. case_decide; [done|]. case_decide as Hg; [done|].
  pose proof (revoke_slot_at t (slot_of h) (slot_of h)) as Hat.
  pose proof (revoke_slot_true t (slot_of h)) as Hb.
  destruct (revoke_slot _ _) as [t1 b]. intros [= -> ->]. simpl in *.
  symmetry in Hb. apply is_live_true in Hb. rewrite decide_True in Hat by done.
  unfold spent. rewrite Hat. simpl.
  split; [|by intros [? _]]. destruct (decide (generation (record_at t (slot_of h)) =
    h_generation h)) as [->|]; [lia|tauto].
Qed.

(** C4: A handle that [revoke] reported as revoked never authorizes anything again: no
    sequence of operations (re-grants of its slot included) makes any holder pass
    [authorize] with it, for any resource and any rights. *)
Theorem revoked_handle_dead t h t' ops a res req :
  revoke t h = (t', Ok true) →
  is_ok (Table.authorize (run_ops t' ops) a h res req) = false.
Proof.
  intros Hr%revoked_spent. pose proof (spent_steps _ _ _ (run_ops_steps t' ops) Hr) as Hs.
  destruct (Table.authorize _ _ _ _ _) as [r|] eqn:E; [|done].
  by apply spent_no_authorize in E.
Qed.

Lemma granted_generation t h res x prov t' hd :
  grant t h res x prov = (t', Ok hd) →
  h_generation hd = generation (record_at t (slot_of hd)) + 1 ∧
  generation (record_at t' (slot_of hd)) = h_generation hd.
Proof.
  intros H. apply grant_cases in H as [(_ & ? & _)|(_ & _ & _ & [(? & _)|
    (i & _ & _ & _ & _ & Hr & _ & Hout)])]; [done..|].
  case_decide; [|done]. injection Hout as ->. by rewrite slot_of_handle, Hr.
Qed.

(** Handles are never reused: a handle returned by [grant] differs from every handle an
    earlier [grant] returned, whatever was revoked and released in between. *)
Theorem handles_never_reused t h1 res1 x1 prov1 t1 hd1 ops h2 res2 x2 prov2 t2 hd2 :
  grant t h1 res1 x1 prov1 = (t1, Ok hd1) →
  grant (run_ops t1 ops) h2 res2 x2 prov2 = (t2, Ok hd2) →
  hd1 ≠ hd2.
Proof.
  intros [_ H1]%granted_generation [H2 _]%granted_generation ->.
  destruct (slot_steps_evolve _ _ (slot_of hd2) (run_ops_steps t1 ops)) as [He|[He|[He _]]];
    rewrite ?He in H2; lia.
Qed.

(** ** A worked table, shared by the witnesses *)

Module Demo.
Definition A : HolderId := 10.
Definition B : HolderId := 20.
Definition D : HolderId := 30.
Definition obj : ResourceRef := Resource.object 42.
Definition rwd : Rights := RightsOps.union (RightsOps.union RightsOps.READ RightsOps.WRITE) RightsOps.DELEGATE.
Definition rd : Rights := RightsOps.union RightsOps.READ RightsOps.DELEGATE.
(** A root of [A], a child of [B], a grandchild of [D]. *)
Definition ops : list CapOp :=
  [OpGrantRoot A obj rwd; OpDelegate A (MkHandle 0 1) B rd;
   OpDelegate B (MkHandle 1 1) D RightsOps.READ].
Definition t : CapabilityTable := run_ops (new 8) ops.
End Demo.

Lemma handles_never_reused_witness :
  let t1 := fst (grant (new 1) Demo.A Demo.obj Demo.rd (ProvenanceOps.root Demo.A)) in
  MkHandle 0 1 ≠ MkHandle 0 3 ∧ snd (grant (run_ops t1 [OpRevokeHolder Demo.A]) Demo.B Demo.obj
    Demo.rd (ProvenanceOps.root Demo.B)) = Ok (MkHandle 0 3).
Proof.
  split; [|vm_compute; reflexivity].
  apply (handles_never_reused (new 1) Demo.A Demo.obj Demo.rd (ProvenanceOps.root Demo.A)
    (fst (grant (new 1) Demo.A Demo.obj Demo.rd (ProvenanceOps.root Demo.A))) (MkHandle 0 1)
    [OpRevokeHolder Demo.A] Demo.B Demo.obj Demo.rd (ProvenanceOps.root Demo.B)
    (fst (grant (run_ops (fst (grant (new 1) Demo.A Demo.obj Demo.rd (ProvenanceOps.root Demo.A)))
      [OpRevokeHolder Demo.A]) Demo.B Demo.obj Demo.rd (ProvenanceOps.root Demo.B)))
    (MkHandle 0 3)); vm_compute; reflexivity.
Defined.

Lemma revoked_handle_dead_witness :
  let h := MkHandle 1 1 in
  let t' := fst (revoke Demo.t h) in
  revoke Demo.t h = (t', Ok true) ∧
  is_ok (Table.authorize (run_ops t' [OpReleaseSlot 1; OpGrantRoot Demo.B Demo.obj Demo.rwd])
    Demo.B h Demo.obj RightsOps.READ) = false.
Proof.
  split; [vm_compute; reflexivity|].
  apply (revoked_handle_dead Demo.t (MkHandle 1 1) _ _ Demo.B Demo.obj RightsOps.READ).
  vm_compute; reflexivity.
Defined.

(** * Delegation trees *)

(** The operations that respect delegation trees: all but the flat ones, which revoke or
    install single slots. The kernel uses flat operations only to take back a leaf it has
    just installed ([revoke_leaf_forest]). *)
Definition tree_op (op : CapOp) : Prop :=
  match op with
  | OpDelegate _ _ _ _ | OpRevokeSubtree _ | OpRevokeHolderTree _ | OpRevokeResourceTree _ _
  | OpReleaseRevoked | OpGrantRoot _ _ _ => True
  | OpFork par child => par ≠ child
  | _ => False
  end.

#[export] Instance tree_op_dec op : Decision (tree_op op).
Proof. destruct op; simpl; apply _. Defined.

Definition no_fork (op : CapOp) : bool := match op with OpFork _ _ => false | _ => true end.

Section tree_ops.
Context (L : CapabilityRecord → option CapabilityRecord → Prop).
Context (HLlink : ∀ r p, L r p → link r p).
Context (HLstrict : ∀ r p, strict_link r p → L r p).

Lemma run_tree_op_forest t op :
  addressable t → table_wf t → tree_op op → no_fork op = true →
  forest_of L t → forest_of L (run_op t op).
Proof.
  intros Ha Hwf Hop Hnf Hf. assert (roots_allowed L) as Hroots
    by (intros r H1 H2; apply HLstrict, strict_link_roots; done).
  destruct op; try done; simpl.
  - by apply delegate_forest.
  - destruct (revoke_subtree t h) eqn:E. by eapply revoke_subtree_forest.
  - unfold revoke_holder_tree, revoke_holder_tree_visiting. cbv zeta.
    destruct (revoke_trees _ t) as [[t1 n] v] eqn:E.
    by destruct (tree_revocation L _ t t1 n v HLlink Hf Hwf Ha E) as (_ & ? & _).
  - unfold revoke_resource_tree. cbv zeta. destruct (revoke_trees _ t) as [[t1 n] v] eqn:E.
    by destruct (tree_revocation L _ t t1 n v HLlink Hf Hwf Ha E) as (_ & ? & _).
  - by apply release_revoked_forest.
  - by apply grant_root_forest.
Qed.
End tree_ops.

Lemma run_op_forest t op :
  addressable t → table_wf t → tree_op op → forest t → forest (run_op t op).
Proof.
  intros Ha Hwf Hop Hf. destruct (no_fork op) eqn:E.
  - apply run_tree_op_forest; auto. by intros r p [? _].
  - destruct op; simplify_eq/=.
    destruct (inherit_spec t par child Hop Ha Hf) as (t' & out & -> & _ & ? & _). done.
Qed.

Lemma addressable_run t op : addressable t → addressable (run_op t op).
Proof. unfold addressable. by rewrite (slot_steps_capacity _ _ (run_op_steps t op)). Qed.

Lemma run_ops_forest t ops :
  addressable t → table_wf t → Forall tree_op ops → forest t → forest (run_ops t ops).
Proof.
  intros Ha Hwf Hops. revert t Ha Hwf. induction Hops as [|op ops Hop _ IH]; intros t Ha Hwf Hf; [done|].
  simpl. apply IH; [by apply addressable_run|by eapply slot_steps_wf; [apply run_op_steps|]|].
  by apply run_op_forest.
Qed.

Lemma forest_new L N : forest_of L (new N).
Proof.
  intros i. unfold record_at. simpl.
  destruct (replicate N EMPTY_RECORD !! i) as [r|] eqn:E; simpl; [|done].
  by apply lookup_replicate in E as [-> _].
Qed.

Lemma addressable_new N : Z.of_nat N ≤ 65536 → addressable (new N).
Proof. unfold addressable, capacity. simpl. by rewrite length_replicate. Qed.

Lemma run_new_forest N ops :
  Z.of_nat N ≤ 65536 → Forall tree_op ops → forest (run_ops (new N) ops).
Proof.
  intros HN Hops. apply run_ops_forest; auto using addressable_new, table_wf_new, forest_new.
Qed.

(** Climbing to the root. *)
Lemma chain_to_root t n i :
  forest t → state (record_at t i) = Live →
  depth (provenance (record_at t i)) ≤ Z.of_nat n →
  ∃ root, descendant t root i ∧ state (record_at t root) = Live ∧
    parent (provenance (record_at t root)) = None ∧
    resource (record_at t root) = resource (record_at t i) ∧
    rights (record_at t i) ⊑r rights (record_at t root) ∧
    holder (record_at t root) = root_holder (provenance (record_at t i)).
Proof.
  intros Hf. revert i. induction n as [|n IH]; intros i Hl Hd;
    destruct (forest_link _ _ _ Hf Hl) as [Hb Hk];
    destruct (parent (provenance (record_at t i))) as [ph|] eqn:Hp; simpl in Hk.
  2, 4: destruct Hk as [_ Hk]; exists i; split_and!; auto using descendant_refl; reflexivity.
  all: destruct Hk as (Hres & Hle & Hdep & Hroot);
    destruct (forest_parent_live _ _ _ _ Hf Hl Hp) as [Hpl _];
    destruct (forest_link _ _ _ Hf Hpl) as [Hbp _]; try lia.
  destruct (IH (slot_of ph) Hpl ltac:(lia)) as (root & H1 & H2 & H3 & H4 & H5 & H6).
  exists root. split_and!; auto.
  - by eapply descendant_child.
  - congruence.
  - by etrans.
  - congruence.
Qed.

(** C1: Confinement. In a table built by grants of roots, delegations, fork inheritance and
    tree revocations, every successful [authorize] is backed by a live root grant of the
    same resource: the presented capability descends from it through live links, the root
    holds every right required, and its holder is the root holder recorded in the
    capability's provenance. *)
Theorem authority_confined N ops a h res req r :
  Z.of_nat N ≤ 65536 → Forall tree_op ops →
  let t := run_ops (new N) ops in
  Table.authorize t a h res req = Ok r →
  ∃ root, descendant t root (slot_of h) ∧ state (record_at t root) = Live ∧
    parent (provenance (record_at t root)) = None ∧ resource (record_at t root) = res ∧
    req ⊑r rights (record_at t root) ∧
    holder (record_at t root) = root_holder (provenance r).
Proof.
  intros HN Hops t Ha. apply table_authorize_Ok in Ha as (-> & _ & Hl & _ & _ & <- & Hreq).
  pose proof (run_new_forest N ops HN Hops) as Hf. fold t in Hf.
  destruct (forest_link _ _ _ Hf Hl) as [Hb _].
  destruct (chain_to_root t 4 (slot_of h) Hf Hl) as (root & H1 & H2 & H3 & H4 & H5 & H6).
  { unfold MAX_DELEGATION_DEPTH in Hb. lia. }
  exists root. split_and!; auto. by etrans.
Qed.

Lemma authority_confined_witness :
  is_ok (Table.authorize Demo.t Demo.D (MkHandle 2 1) Demo.obj RightsOps.READ) = true ∧
  ∃ root, descendant Demo.t root 2 ∧ state (record_at Demo.t root) = Live ∧
    parent (provenance (record_at Demo.t root)) = None ∧
    resource (record_at Demo.t root) = Demo.obj ∧
    RightsOps.READ ⊑r rights (record_at Demo.t root) ∧
    holder (record_at Demo.t root) = Demo.A.
Proof.
  split; [vm_compute; reflexivity|].
  apply (authority_confined 8 Demo.ops Demo.D (MkHandle 2 1) Demo.obj RightsOps.READ
    (record_at Demo.t 2)).
  - lia.
  - repeat constructor.
  - vm_compute; reflexivity.
Defined.

(** A live capability, presented by its holder for its resource. *)
Lemma authorize_own t h req :
  names_live t h →
  let r := record_at t (slot_of h) in
  Table.authorize t (holder r) h (resource r) req =
    if RightsOps.is_subset_of req (rights r) then Ok r else Err MissingRight.
Proof.
  intros [Hl Hg] r. unfold Table.authorize.
  rewrite (proj2 (record_Ok t h r)).
  2: { split_and!; auto. apply record_at_nonempty. by rewrite Hl. }
  unfold CapTypes.authorize. fold r in Hl, Hg. rewrite Hl, Hg. rewrite !decide_False by naive_solver.
  unfold RightsOps.contains, RightsOps.is_subset_of. rewrite (Z.land_comm (rights r)).
  by case_bool_decide.
Qed.

(** C22: A successful delegation attenuates. The parent was live, held by [source], allowed
    delegation; the child's rights are among the parent's, legal for the class and free of
    root-only rights; the child is one level deeper, at most [MAX_DELEGATION_DEPTH], for the
    same resource and root holder; it is authorized exactly up to its rights; the live
    records, the parent's included, are unchanged. A failed delegation leaves every live
    record as it was and adds none. *)
Theorem delegate_attenuates t source par target x t' out :
  addressable t → delegate t source par target x = (t', out) →
  (∀ i, state (record_at t i) = Live → record_at t' i = record_at t i) ∧
  match out with
  | Err _ => ∀ i, state (record_at t' i) = Live → state (record_at t i) = Live
  | Ok child =>
      let p := record_at t (slot_of par) in
      let c := record_at t' (slot_of child) in
      state p = Live ∧ generation p = h_generation par ∧ holder p = source ∧
      RightsOps.DELEGATE ⊑r rights p ∧ target ≠ KERNEL ∧
      rights c = x ∧ x ⊑r rights p ∧ x ⊑r RightsOps.valid_for (class (resource p)) ∧
      Z.land x (RightsOps.root_only_for (class (resource p))) = 0 ∧
      provenance c = MkProvenance (Some par) (depth (provenance p) + 1)
                       (root_holder (provenance p)) ∧
      depth (provenance c) ≤ MAX_DELEGATION_DEPTH ∧
      state (record_at t (slot_of child)) = Empty ∧
      ∀ req, Table.authorize t' target child (resource p) req =
        (if RightsOps.is_subset_of req x then Ok c else Err MissingRight)
  end.
Proof.
  intros Ha H. apply delegate_cases in H as [[-> [e ->]]|(p & prov & Hp & H)]; [done|].
  destruct H as (Hl & Hg & Hh & Ht & Hd & Hx & Hv & Hro & -> & Hdep & H).
  apply grant_cases in H as [(-> & -> & _)|(_ & _ & Hc & [(-> & _ & Hs & _)|H])]; [done|..].
  { split; intros i; apply (same_or_retired_live _ _ (Hs i)). }
  destruct H as (k & Hk & [Hke _] & _ & _ & Hr & Hoth & ->).
  rewrite decide_True by (unfold addressable, u16_max, max_of in *; lia).
  split. { intros i Hi. apply same_or_retired_live; [|done]. apply Hoth. congruence. }
  rewrite slot_of_handle. cbv zeta. rewrite <- Hp, Hr. simpl. split_and!; auto.
  intros req. pose proof (authorize_own t' (MkHandle (Z.of_nat k) (generation (record_at t k) + 1))
    req) as Hown.
  unfold names_live in Hown. rewrite slot_of_handle, Hr in Hown. by apply Hown.
Qed.

Lemma delegate_attenuates_witness :
  let t := run_ops (new 8) (take 1 Demo.ops) in
  let t' := fst (delegate t Demo.A (MkHandle 0 1) Demo.B Demo.rd) in
  (∀ i, state (record_at t i) = Live → record_at t' i = record_at t i) ∧
  rights (record_at t' 1) = Demo.rd ∧ Demo.rd ⊑r rights (record_at t 0).
Proof.
  pose proof (delegate_attenuates (run_ops (new 8) (take 1 Demo.ops)) Demo.A (MkHandle 0 1)
    Demo.B Demo.rd (fst (delegate (run_ops (new 8) (take 1 Demo.ops)) Demo.A (MkHandle 0 1)
      Demo.B Demo.rd)) (Ok (MkHandle 1 1)) ltac:(vm_compute; discriminate)
    ltac:(vm_compute; reflexivity)) as [H1 H2].
  split_and!; [exact H1| |]; apply H2.
Defined.

(** C7: In a delegation forest [revoke_subtree] succeeds on any handle [record] accepts and
    revokes exactly the live slots at or below it, in place: their rights are dropped,
    their holder, resource and generation kept; every other slot is unchanged; the count it
    returns is the number of capabilities that stopped being live. *)
Theorem revoke_subtree_exact t h r :
  table_wf t → forest t → Table.record t h = Ok r →
  ∃ t' n, revoke_subtree t h = (t', Ok n) ∧
    (live_count t' + n = live_count t)%nat ∧
    (∀ i, live_below t (slot_of h) i → record_at t' i = revoked_in_place (record_at t i)) ∧
    (∀ i, ¬ live_below t (slot_of h) i → record_at t' i = record_at t i).
Proof.
  intros Hwf Hf Hr. destruct (revoke_subtree_spec t h r Hf Hr) as (t' & n & s & He & _ & Hs & Hrec & _).
  exists t', n. split_and!; auto; [by eapply revoke_subtree_count|..]; intros i Hi; rewrite Hrec.
  - by rewrite (proj2 (Hs i)).
  - destruct (marked_live s t i) eqn:E; [|done]. by apply Hs in E.
Qed.

Lemma revoke_subtree_exact_witness :
  ∃ t' n, revoke_subtree Demo.t (MkHandle 1 1) = (t', Ok n) ∧
    (live_count t' + n = 3)%nat ∧
    (∀ i, live_below Demo.t 1 i → record_at t' i = revoked_in_place (record_at Demo.t i)) ∧
    (∀ i, ¬ live_below Demo.t 1 i → record_at t' i = record_at Demo.t i).
Proof.
  apply (revoke_subtree_exact Demo.t (MkHandle 1 1) (record_at Demo.t 1)).
  - apply run_ops_wf.
  - apply run_new_forest; [lia|repeat constructor].
  - vm_compute; reflexivity.
Defined.

Definition held_by (h : HolderId) (r : CapabilityRecord) : bool := bool_decide (holder r = h).

(** C10: The kernel's teardown of a process ([revoke_for_holder]): in a delegation forest,
    [revoke_holder_tree_visiting] leaves the holder with no live capability, kills every
    capability delegated from one of them however deep, touches no other live capability,
    counts what it killed, keeps the table a forest, and visits exactly the resources the
    holder had live capabilities for. Slots the holder occupied are released. *)
Theorem revoke_holder_tree_complete t h t' n visited :
  table_wf t → forest t → addressable t →
  revoke_holder_tree_visiting t h = (t', n, visited) →
  forest t' ∧ table_wf t' ∧ (live_count t' + n = live_count t)%nat ∧
  (∀ i, state (record_at t' i) = Live → record_at t' i = record_at t i ∧ holder (record_at t i) ≠ h) ∧
  (∀ i, state (record_at t i) = Live → state (record_at t' i) = Live ↔
     ¬ ∃ s, state (record_at t s) = Live ∧ holder (record_at t s) = h ∧ descendant t s i) ∧
  (∀ i, state (record_at t i) = Live → holder (record_at t i) = h →
     record_at t' i = released (record_at t i)) ∧
  (∀ x, x ∈ visited ↔ ∃ s, state (record_at t s) = Live ∧ holder (record_at t s) = h ∧
     resource (record_at t s) = x).
Proof.
  intros Hwf Hf Ha. unfold revoke_holder_tree_visiting. fold (held_by h). cbv zeta.
  destruct (revoke_trees (held_by h) t) as [[t1 n1] v1] eqn:E. intros [= <- <- <-].
  destruct (tree_revocation link _ t t1 n1 v1 (λ _ _ H, H) Hf Hwf Ha E)
    as (H1 & H2 & H3 & H4 & H5 & H6 & H7).
  assert (∀ r, held_by h r = true ↔ holder r = h) as Hheld by (intros r; apply bool_decide_eq_true).
  assert (∀ i, tree_dead (held_by h) t i ↔ state (record_at t i) = Live ∧
    ∃ s, state (record_at t s) = Live ∧ holder (record_at t s) = h ∧ descendant t s i) as Hdead.
  { intros i. rewrite tree_dead_iff. by setoid_rewrite Hheld. }
  assert (∀ i, state (record_at t i) = Live → holder (record_at t i) = h →
    tree_dead (held_by h) t i) as Hown.
  { intros i Hl Hh. apply Hdead. split; [done|]. exists i. auto using descendant_refl. }
  split_and!; auto.
  - by eapply slot_steps_wf.
  - intros i Hl. split; [by apply H5|]. apply H4 in Hl as [Hl Hn]. auto.
  - intros i Hl. rewrite H4, Hdead. tauto.
  - intros i Hl Hh. apply H6; [auto|]. by apply Hheld.
  - intros x. rewrite H7. by setoid_rewrite Hheld.
Qed.

Lemma revoke_holder_tree_complete_witness :
  let '(t', n, visited) := revoke_holder_tree_visiting Demo.t Demo.B in
  state (record_at t' 2) ≠ Live ∧ (∀ x, x ∈ visited ↔ ∃ s, state (record_at Demo.t s) = Live ∧
    holder (record_at Demo.t s) = Demo.B ∧ resource (record_at Demo.t s) = x).
Proof.
  destruct (revoke_holder_tree_visiting Demo.t Demo.B) as [[t' n] visited] eqn:E.
  destruct (revoke_holder_tree_complete Demo.t Demo.B t' n visited) as (_ & _ & _ & _ & H & _ & Hv).
  - apply run_ops_wf.
  - apply run_new_forest; [lia|repeat constructor].
  - vm_compute; discriminate.
  - exact E.
  - split; [|exact Hv]. rewrite H by (vm_compute; reflexivity). intros Hn. apply Hn.
    exists 1%nat. split_and!; [vm_compute; reflexivity..|].
    exists 1%nat. apply (descends_child _ _ _ (MkHandle 1 1)); [vm_compute; reflexivity..|].
    constructor.
Defined.

(** The kernel's teardown of a resource ([revoke_for_resource]): no live capability for
    the class and id remains, of any instance generation, and no other live capability is
    touched. *)
Theorem revoke_resource_tree_complete t c id0 t' n :
  table_wf t → forest t → addressable t →
  revoke_resource_tree t c id0 = (t', n) →
  let names r := class (resource r) = c ∧ id (resource r) = id0 in
  (live_count t' + n = live_count t)%nat ∧ forest t' ∧
  ∀ i, (state (record_at t' i) = Live ↔
          state (record_at t i) = Live ∧ ¬ names (record_at t i)) ∧
       (state (record_at t' i) = Live → record_at t' i = record_at t i).
Proof.
  intros Hwf Hf Ha. unfold revoke_resource_tree. cbv zeta.
  set (m := λ r : CapabilityRecord, _).
  assert (∀ r, m r = true ↔ class (resource r) = c ∧ id (resource r) = id0) as Hm.
  { intros r. unfold m. by rewrite andb_true_iff, !bool_decide_eq_true. }
  clearbody m. destruct (revoke_trees m t) as [[t1 n1] v1] eqn:E. intros [= <- <-].
  destruct (tree_revocation link _ t t1 n1 v1 (λ _ _ H, H) Hf Hwf Ha E)
    as (_ & H2 & H3 & H4 & H5 & _).
  split_and!; auto. intros i. split; [|by apply H5]. rewrite H4, tree_dead_iff.
  split; intros [Hl Hn]; (split; [done|]).
  - intros Hnames. apply Hn. split; [done|]. exists i. rewrite Hm. auto using descendant_refl.
  - intros (_ & s & Hs & Hms & [k Hd]). apply Hn. apply Hm in Hms.
    by rewrite (descends_resource _ _ _ _ Hf Hd).
Qed.

Lemma revoke_resource_tree_complete_witness :
  let '(t', n) := revoke_resource_tree Demo.t PersistentObject 42 in
  (live_count t' + n = 3)%nat ∧ forest t'.
Proof.
  destruct (revoke_resource_tree Demo.t PersistentObject 42) as [t' n] eqn:E.
  destruct (revoke_resource_tree_complete Demo.t PersistentObject 42 t' n) as (H1 & H2 & _).
  - apply run_ops_wf.
  - apply run_new_forest; [lia|repeat constructor].
  - vm_compute; discriminate.
  - exact E.
  - split; [exact H1|exact H2].
Defined.

(** The ancestor walk. *)
Lemma actor_holds_ancestor_spec t a n i :
  forest t → state (record_at t i) = Live →
  actor_holds_ancestor t a n (parent (provenance (record_at t i))) = true ↔
  ∃ root m, (1 ≤ m ≤ n)%nat ∧ descends t root i m ∧ holder (record_at t root) = a.
Proof.
  intros Hf. revert i. induction n as [|n IH]; intros i Hl; cbn [actor_holds_ancestor].
  { split; [done|]. intros (? & ? & ? & _). lia. }
  destruct (parent (provenance (record_at t i))) as [ph|] eqn:Hp.
  2: { split; [done|]. intros (root & m & Hm & Hd & _). inversion Hd; subst; [lia|congruence]. }
  destruct (forest_parent_live _ _ _ _ Hf Hl Hp) as [Hpl Hpg].
  rewrite (proj2 (record_Ok t ph (record_at t (slot_of ph)))).
  2: { split_and!; auto. apply record_at_nonempty. by rewrite Hpl. }
  case_decide as Hh.
  - split; [|done]. intros _. exists (slot_of ph), 1%nat. split_and!; [lia|lia| |done].
    eauto with cs.
  - rewrite (IH _ Hpl). split; intros (root & m & Hm & Hd & Hr).
    + exists root, (S m). split_and!; [lia|lia| |done]. eauto with cs.
    + inversion Hd as [|? ph' m' Hl' Hp' Hd']; subst; [lia|].
      rewrite Hp in Hp'. injection Hp' as <-. destruct m' as [|m'].
      * inversion Hd'. subst. congruence.
      * exists root, (S m'). split_and!; auto; lia.
Qed.

(** Who may revoke. In a delegation forest [authorize_revoke] allows a holder to revoke a
    live capability exactly when it holds that capability or one of its live ancestors; the
    bounded ancestor walk never misses one. Everyone else gets [UnauthorizedHolder]. *)
Theorem authorize_revoke_iff t a h :
  forest t → names_live t h →
  (authorize_revoke t a h = Ok () ↔
    ∃ root, descendant t root (slot_of h) ∧ holder (record_at t root) = a) ∧
  (authorize_revoke t a h = Ok () ∨ authorize_revoke t a h = Err UnauthorizedHolder).
Proof.
  intros Hf [Hl Hg]. unfold authorize_revoke.
  rewrite (proj2 (record_Ok t h (record_at t (slot_of h)))).
  2: { split_and!; auto. apply record_at_nonempty. by rewrite Hl. }
  case_decide as Hh.
  { split; [|by left]. split; [|done]. intros _. eauto using descendant_refl. }
  pose proof (actor_holds_ancestor_spec t a (Z.to_nat MAX_DELEGATION_DEPTH) (slot_of h) Hf Hl) as Hw.
  destruct (actor_holds_ancestor _ _ _ _); (split; [|auto]); (split; [|done || intros Hx]).
  - intros _. destruct (proj1 Hw eq_refl) as (root & m & _ & Hd & Hr). exists root. split; [by exists m|done].
  - done.
  - destruct Hx as (root & [m Hd] & Hr). exfalso. assert (false = true) as Hc; [|done]. apply Hw.
    exists root, m. pose proof (descends_bound _ _ _ _ Hf Hd) as Hb.
    split_and!; auto; [|unfold max_passes in Hb; lia].
    destruct m; [|lia]. inversion Hd. subst. congruence.
Qed.

Lemma authorize_revoke_iff_witness :
  authorize_revoke Demo.t Demo.A (MkHandle 2 1) = Ok () ↔
    ∃ root, descendant Demo.t root 2 ∧ holder (record_at Demo.t root) = Demo.A.
Proof.
  apply (authorize_revoke_iff Demo.t Demo.A (MkHandle 2 1)).
  - apply run_new_forest; [lia|repeat constructor].
  - split; vm_compute; reflexivity.
Defined.

(** Fork inheritance always ends. On success every live capability of the parent has a
    copy for the child in a new slot, with the same resource and rights and one level
    deeper, linked to the parent's; nothing else is new. When the table fills up nothing new
    stays live. The parent's and everyone else's live capabilities never change. The
    depth-exceeded error is excluded from the roll-back guarantee: see
    [fork_depth_error_leaks]. *)
Theorem fork_inherits t par child :
  par ≠ child → addressable t → forest t →
  ∃ t' out, inherit_capabilities_for_fork t par child = Some (t', out) ∧
  forest t' ∧ (∀ i, state (record_at t i) = Live → record_at t' i = record_at t i) ∧
  match out with
  | Ok _ =>
      (∀ i, state (record_at t i) = Live → holder (record_at t i) = par →
        ∃ j, state (record_at t j) ≠ Live ∧ inherited_from t child i (record_at t' j)) ∧
      (∀ j, state (record_at t' j) = Live → state (record_at t j) = Live ∨
        ∃ i, state (record_at t i) = Live ∧ holder (record_at t i) = par ∧
             inherited_from t child i (record_at t' j))
  | Err e => e ≠ DelegationDepthExceeded →
      ∀ j, state (record_at t' j) = Live → state (record_at t j) = Live
  end.
Proof.
  intros Hne Ha Hf. destruct (inherit_spec t par child Hne Ha Hf) as (t' & out & H & _ & H1 & H2 & H3).
  exists t', out. split_and!; auto. destruct out as [|e]; [done|]. by destruct e.
Qed.

Lemma fork_inherits_witness :
  ∃ t' out, inherit_capabilities_for_fork Demo.t Demo.B 99 = Some (t', out) ∧ forest t'.
Proof.
  destruct (fork_inherits Demo.t Demo.B 99) as (t' & out & H1 & H2 & _).
  - vm_compute; discriminate.
  - vm_compute; discriminate.
  - apply run_new_forest; [lia|repeat constructor].
  - exists t', out. split; [exact H1|exact H2].
Defined.

(** ** Where the code falls short *)

(** A parent (holder 5) with a root capability and one at the maximum depth. *)
Definition deep_ops : list CapOp :=
  [OpGrantRoot 5 Demo.obj Demo.rd; OpGrantRoot 1 Demo.obj Demo.rd;
   OpDelegate 1 (MkHandle 1 1) 2 Demo.rd; OpDelegate 2 (MkHandle 2 1) 3 Demo.rd;
   OpDelegate 3 (MkHandle 3 1) 4 Demo.rd; OpDelegate 4 (MkHandle 4 1) 5 Demo.rd].

(** C24: A fork that fails because a capability of the parent is already at the maximum
    delegation depth leaks, in any delegation forest: for each of the parent's capabilities
    in a slot before that one, a new slot holds a copy for the child, with the same resource
    and rights, and the child passes every check those rights allow. The early return skips
    [rollback_fork_inherited]. *)
Theorem fork_depth_error_leaks t par child t' :
  par ≠ child → addressable t → forest t →
  inherit_capabilities_for_fork t par child = Some (t', Err DelegationDepthExceeded) →
  ∃ k, state (record_at t k) = Live ∧ holder (record_at t k) = par ∧
    depth (provenance (record_at t k)) = MAX_DELEGATION_DEPTH ∧
    ∀ i, (i < k)%nat → state (record_at t i) = Live → holder (record_at t i) = par →
      ∃ h, state (record_at t (slot_of h)) ≠ Live ∧
        inherited_from t child i (record_at t' (slot_of h)) ∧
        ∀ req, req ⊑r rights (record_at t i) →
          Table.authorize t' child h (resource (record_at t i)) req =
            Ok (record_at t' (slot_of h)).
Proof.
  intros Hne Ha Hf H.
  destruct (inherit_spec t par child Hne Ha Hf) as (t1 & out & H1 & _ & _ & _ & Hs).
  rewrite H in H1. injection H1 as <- <-. destruct Hs as (k & Hk & Hkh & Hkd & Hcopy).
  exists k. split_and!; auto. intros i Hi Hl Hh. destruct (Hcopy i Hi Hl Hh) as (j & Hj & Hinh).
  exists (MkHandle (Z.of_nat j) (generation (record_at t' j))). rewrite slot_of_handle.
  split_and!; [done..|]. intros req Hreq.
  pose proof (authorize_own t' (MkHandle (Z.of_nat j) (generation (record_at t' j))) req) as Hown.
  unfold names_live in Hown. rewrite slot_of_handle in Hown. simpl in Hown.
  destruct Hinh as (Hjl & Hjh & Hjr & Hjx & _). rewrite Hjh, Hjr, Hjx in Hown. rewrite Hown by done.
  by rewrite (proj2 (is_subset_of_true _ _) Hreq).
Qed.

Lemma fork_depth_error_leaks_witness :
  let t := run_ops (new MAX_SLOTS) deep_ops in
  let t' := run_op t (OpFork 5 9) in
  inherit_capabilities_for_fork t 5 9 = Some (t', Err DelegationDepthExceeded) ∧
  list_holder t 9 0 = None ∧
  ∃ h, is_ok (Table.authorize t' 9 h Demo.obj RightsOps.READ) = true.
Proof.
  cbv zeta. assert (inherit_capabilities_for_fork (run_ops (new MAX_SLOTS) deep_ops) 5 9 =
    Some (run_op (run_ops (new MAX_SLOTS) deep_ops) (OpFork 5 9), Err DelegationDepthExceeded))
    as H by (vm_compute; reflexivity).
  split; [exact H|]. split; [vm_compute; reflexivity|].
  destruct (fork_depth_error_leaks (run_ops (new MAX_SLOTS) deep_ops) 5 9
    (run_op (run_ops (new MAX_SLOTS) deep_ops) (OpFork 5 9))) as (k & _ & _ & Hd & Hcopy).
  - discriminate.
  - vm_compute; discriminate.
  - apply run_new_forest; [vm_compute; discriminate|repeat constructor; discriminate].
  - exact H.
  - destruct k as [|k]; [vm_compute in Hd; discriminate|].
    destruct (Hcopy 0%nat) as (h & _ & _ & Ha); [apply Nat.lt_0_succ|vm_compute; reflexivity..|].
    exists h. specialize (Ha RightsOps.READ).
    change (resource (record_at (run_ops (new MAX_SLOTS) deep_ops) 0)) with Demo.obj in Ha.
    rewrite Ha by (vm_compute; reflexivity). reflexivity.
Defined.
