(* ===== verification/CapOrphans.v ===== *)
(** Flat revocation and the delegation tree.

    [revoke] and [revoke_holder] of [capability/src/table.rs] take capabilities away without
    looking at what was delegated from them; [revoke_subtree] of [revocation.rs] follows
    provenance through the live records. This file shows what a subtree revocation still
    reaches after a flat one. *)

From Stdlib Require Import ZArith Lia.
From stdpp Require Import base list tactics decidable numbers strings relations.
From S2P Require Import Prelude CapTypes CapTable CapTree CapSafety.
Import Table.

Local Open Scope Z_scope.

(** * The flat revocation loop *)

Lemma released_revoked r : released (revoked_in_place r) = released r.
Proof. done. Qed.

Lemma revoke_release_at t i j :
  state (record_at t i) = Live →
  record_at (fst (release_slot (fst (revoke_slot t i)) i)) j =
    if decide (i = j) then released (record_at t i) else record_at t j.
Proof.
  intros Hl. rewrite release_slot_at, !revoke_slot_at.
  rewrite (decide_True (P := i = i ∧ _)) by done. destruct (decide (i = j)) as [<-|Hne].
  - by rewrite decide_True.
  - by rewrite !decide_False by tauto.
Qed.

Lemma revoke_where_at m t i :
  record_at (fst (revoke_where m t)) i =
    if is_live (record_at t i) && m (record_at t i) then released (record_at t i)
    else record_at t i.
Proof.
  unfold revoke_where. set (body := λ (slot : nat) '(t, count), _).
  pose proof (for_range_ind (λ k s, ∀ i, record_at (fst s) i =
    if bool_decide (i < k)%nat && (is_live (record_at t i) && m (record_at t i))
    then released (record_at t i) else record_at t i) body 0 (capacity t) (t, 0%nat)) as H.
  rewrite H; [|lia|done|]; clear H.
  { case_bool_decide; [done|]. by rewrite record_at_ge by lia. }
  intros k [t1 c] Hk IH. simpl in IH.
  assert (record_at t1 k = record_at t k) as Heq
    by (rewrite IH, bool_decide_eq_false_2 by lia; done).
  assert (∀ j, j ≠ k → bool_decide (j < S k)%nat = bool_decide (j < k)%nat) as Hlt
    by (intros j Hj; apply bool_decide_ext; lia).
  intros j. unfold body. fold (is_live (record_at t1 k)). rewrite Heq.
  destruct (decide (j = k)) as [->|Hne].
  - rewrite bool_decide_eq_true_2 by lia. simpl. destruct (_ && _) eqn:E; [|done].
    apply andb_true_iff in E as [Hl _]. apply is_live_true in Hl.
    pose proof (revoke_slot_true t1 k) as Hb. pose proof (revoke_release_at t1 k k) as Hat.
    rewrite Heq, (proj2 (is_live_true _) Hl) in Hb. rewrite Heq in Hat.
    destruct (revoke_slot t1 k) as [t2 b]. simpl in Hb, Hat. subst b. simpl.
    by rewrite Hat, decide_True.
  - rewrite Hlt by done. destruct (is_live (record_at t k) && m (record_at t k)) eqn:E; [|apply IH].
    apply andb_true_iff in E as [Hl _]. apply is_live_true in Hl.
    pose proof (revoke_slot_true t1 k) as Hb. pose proof (revoke_release_at t1 k j) as Hat.
    rewrite Heq, (proj2 (is_live_true _) Hl) in Hb. rewrite Heq in Hat.
    destruct (revoke_slot t1 k) as [t2 b]. simpl in Hb, Hat. subst b. simpl.
    rewrite Hat, decide_False by done. apply IH.
Qed.

(** * Marking outside a forest *)

(** Every parent handle of a live record is one [record] accepts. *)
Definition parents_resolve (t : CapabilityTable) : Prop :=
  ∀ i ph, state (record_at t i) = Live → parent (provenance (record_at t i)) = Some ph →
    slot_for_handle t ph = Ok (slot_of ph).

Lemma visit_slot_sound t root i s a :
  parents_resolve t → (i < capacity t)%nat → marks_descendants t root s →
  ∃ s' a', visit_slot t i (s, a) = Ok (s', a') ∧ marks_descendants t root s'.
Proof.
  intros Hres Hi [Hlen Hm]. unfold visit_slot. destruct (member s i); [by eexists _, _|].
  case_decide as Hl; [by eexists _, _|].
  destruct (parent (provenance (record_at t i))) as [ph|] eqn:Hp; [|by eexists _, _].
  rewrite (Hres i ph Hl Hp).
  destruct (member s (slot_of ph)) eqn:Hmp; [|by eexists _, _].
  eexists _, _. split; [done|]. split; [by rewrite length_insert|]. intros j.
  rewrite member_insert by lia.
  intros [Hij%bool_decide_eq_true|Hj]%orb_true_iff; [subst j|by apply Hm].
  eapply descendant_child; eauto.
Qed.

Lemma mark_passes_sound t root n s :
  parents_resolve t → marks_descendants t root s →
  ∃ s', mark_passes t n s = Ok s' ∧ marks_descendants t root s'.
Proof.
  intros Hres. revert s. induction n as [|n IH]; intros s Hm; cbn [mark_passes]; [by exists s|].
  destruct (try_range_ind (λ _ sa, marks_descendants t root (fst sa)) (visit_slot t) 0
    (capacity t) (s, false)) as ([s1 a1] & -> & H1); [lia|done| |].
  - intros i [s1 a1] Hi H1. destruct (visit_slot_sound t root i s1 a1) as (s2 & a2 & ? & ?);
      [done|lia|done|]. by exists (s2, a2).
  - simpl. destruct a1; [by apply IH|by exists s1].
Qed.

(** [revoke_subtree] succeeds as soon as the parent handles resolve, and touches nothing
    that is not below its root through live records. *)
Lemma revoke_subtree_sound t h :
  parents_resolve t → names_live t h →
  ∃ t' n, revoke_subtree t h = (t', Ok n) ∧ capacity t' = capacity t ∧
    ∀ i, ¬ descendant t (slot_of h) i → record_at t' i = record_at t i.
Proof.
  intros Hres [Hl Hg].
  assert (slot_of h < capacity t)%nat as Hlt by (apply record_at_nonempty; by rewrite Hl).
  unfold revoke_subtree. rewrite (proj2 (slot_for_handle_Ok t h (slot_of h))).
  2: { split; [done|]. exists (record_at t (slot_of h)). apply record_Ok. auto. }
  assert (length (replicate (capacity t) false) = capacity t) as Hlen by apply length_replicate.
  destruct (mark_passes_sound t (slot_of h) max_passes
    (<[slot_of h := true]> (replicate (capacity t) false))) as (s & -> & Hm); [done| |].
  { split; [by rewrite length_insert|]. intros i. rewrite member_insert by lia.
    rewrite member_replicate, orb_false_r. intros <-%bool_decide_eq_true.
    apply descendant_refl. }
  pose proof (revoke_marked_spec s t) as H. destruct (revoke_marked s t) as [t' n].
  destruct H as (H1 & H2 & _). exists t', n.
  split_and!; [done|by apply slot_steps_capacity|]. intros i Hi. rewrite H2.
  unfold marked_live. destruct (member s i) eqn:E; [|done]. by apply Hm in E.
Qed.

(** * A flat revocation in the middle of a tree *)

Lemma descends_depth_ge t root i n :
  forest t → descends t root i n →
  depth (provenance (record_at t root)) + Z.of_nat n ≤ depth (provenance (record_at t i)).
Proof.
  intros Hf. induction 1 as [|i ph n Hl Hp _ IH]; [lia|].
  destruct (forest_link _ _ _ Hf Hl) as [_ Hk]. rewrite Hp in Hk. simpl in Hk. lia.
Qed.

(** A table that lost the capability in slot [mid], the other records being as before. *)
Definition cut (t t' : CapabilityTable) (mid : nat) : Prop :=
  capacity t' = capacity t ∧ state (record_at t' mid) ≠ Live ∧
  ∀ i, i ≠ mid → record_at t' i = record_at t i.

(** What was below [mid] is not below [root] any more. *)
Lemma cut_off t t' root mid i :
  forest t → cut t t' mid → root ≠ mid → descendant t root mid → descendant t mid i →
  ¬ descendant t' root i.
Proof.
  intros Hf (_ & Hdead & Hsame) Hne [k Hrm] Hmi [n Hd]. revert Hmi.
  induction Hd as [|i ph n Hl Hp _ IH]; intros [m Hm].
  - destruct k as [|k]; [inversion Hrm; congruence|].
    pose proof (descends_depth_ge _ _ _ _ Hf Hrm). pose proof (descends_depth_ge _ _ _ _ Hf Hm). lia.
  - destruct (decide (i = mid)) as [->|Hi]; [done|]. apply IH.
    rewrite Hsame in Hp by done. inversion Hm as [|? ph' m' ? Hp']; simplify_eq.
    by exists m'.
Qed.

Lemma revoke_cut t mid :
  names_live t mid → cut t (fst (revoke t mid)) (slot_of mid).
Proof.
  intros Hn. destruct (revoke_named t mid Hn) as [Hrec _]. split_and!.
  - apply slot_steps_capacity, revoke_steps.
  - by rewrite Hrec, decide_True.
  - intros i Hi. by rewrite Hrec, decide_False.
Qed.

(** After [revoke] the parent handles still resolve: the record is revoked, not released. *)
Lemma revoke_parents_resolve t mid :
  forest t → names_live t mid → parents_resolve (fst (revoke t mid)).
Proof.
  intros Hf Hn i ph. destruct (revoke_named t mid Hn) as [Hrec _].
  destruct (revoke_cut t mid Hn) as [Hcap _]. rewrite Hrec. case_decide as Hi; [done|].
  intros Hl Hp. destruct (forest_parent_live _ _ _ _ Hf Hl Hp) as [Hpl Hpg].
  apply slot_for_handle_Ok. split; [done|]. exists (record_at (fst (revoke t mid)) (slot_of ph)).
  apply record_Ok. rewrite Hcap, Hrec.
  split_and!; [done|apply record_at_nonempty; by rewrite Hpl|..]; case_decide; auto.
Qed.

Lemma authorize_ext t t' h :
  capacity t' = capacity t → record_at t' (slot_of h) = record_at t (slot_of h) →
  ∀ who res req, Table.authorize t' who h res req = Table.authorize t who h res req.
Proof.
  intros Hc Hr who res req. unfold Table.authorize, Table.record. rewrite Hc.
  destruct (slot_index (capacity t) h) as [i|] eqn:E; [|done].
  apply slot_index_Ok in E as [-> _]. by rewrite Hr.
Qed.

(** * Released parents *)

(** A live record whose parent handle went stale. *)
Definition orphan (t : CapabilityTable) (i : nat) : Prop :=
  state (record_at t i) = Live ∧
  ∃ ph, parent (provenance (record_at t i)) = Some ph ∧ slot_for_handle t ph = Err StaleHandle.

Lemma released_stale t ph r :
  record_ok r → state r = Live → generation r = h_generation ph →
  (slot_of ph < capacity t)%nat → record_at t (slot_of ph) = released r →
  slot_for_handle t ph = Err StaleHandle.
Proof.
  intros [_ Hok] Hl Hg Hlt Hr. rewrite Hl in Hok. destruct Hok as [Hg1 _].
  unfold slot_for_handle, Table.record.
  rewrite (proj2 (slot_index_Ok _ ph (slot_of ph))) by done. rewrite Hr.
  unfold released. destruct (Generation.next _) as [g|] eqn:E; simpl; [|done].
  apply generation_next_Some in E as [_ ->]. by rewrite decide_False by lia.
Qed.

(** The first pass fails on an orphan that is not the root, whatever the tree. *)
Lemma orphan_pass t o (s : list bool) :
  orphan t o → member s o = false → length s = capacity t →
  (∀ i ph, state (record_at t i) = Live → parent (provenance (record_at t i)) = Some ph →
     slot_for_handle t ph = Ok (slot_of ph) ∨ slot_for_handle t ph = Err StaleHandle) →
  try_range 0 (capacity t) (visit_slot t) (s, false) = Err StaleHandle.
Proof.
  intros (Hl & ph & Hp & Hst) Hs Hlen Hres.
  assert (o < capacity t)%nat as Ho by (apply record_at_nonempty; by rewrite Hl).
  unfold try_range. rewrite Nat.sub_0_r.
  assert (∀ n lo s a, (lo ≤ o < lo + n)%nat → (lo + n = capacity t)%nat → length s = capacity t →
    member s o = false → try_fold (visit_slot t) (seq lo n) (s, a) = Err StaleHandle) as H;
    [|by apply H; [lia|..]].
  clear s Hs Hlen. induction n as [|n IH]; intros lo s a Hlo Hn Hlen Hs; [lia|]. simpl.
  destruct (decide (lo = o)) as [->|Hne].
  { unfold visit_slot. rewrite Hs, decide_False, Hp, Hst by naive_solver. done. }
  unfold visit_slot at 1. destruct (member s lo); [apply IH; auto; lia|].
  case_decide as Hll; [apply IH; auto; lia|].
  destruct (parent (provenance (record_at t lo))) as [ph'|] eqn:Hp'; [|apply IH; auto; lia].
  destruct (Hres lo ph' Hll Hp') as [->| ->]; [|done]. simpl.
  destruct (member s (slot_of ph')); apply IH; auto; try lia.
  - by rewrite length_insert.
  - rewrite member_insert by lia. by rewrite bool_decide_eq_false_2.
Qed.

Lemma orphan_blocks t o h r :
  orphan t o → slot_of h ≠ o → Table.record t h = Ok r →
  (∀ i ph, state (record_at t i) = Live → parent (provenance (record_at t i)) = Some ph →
     slot_for_handle t ph = Ok (slot_of ph) ∨ slot_for_handle t ph = Err StaleHandle) →
  revoke_subtree t h = (t, Err StaleHandle).
Proof.
  intros Ho Hne Hr Hres. unfold revoke_subtree.
  rewrite (proj2 (slot_for_handle_Ok t h (slot_of h))) by eauto.
  apply record_Ok in Hr as (_ & Hlt & _).
  assert (length (replicate (capacity t) false) = capacity t) as Hlen by apply length_replicate.
  unfold max_passes. cbn [mark_passes]. rewrite (orphan_pass t o); [done|done| | |done].
  - rewrite member_insert by lia. by rewrite bool_decide_eq_false_2, member_replicate.
  - by rewrite length_insert.
Qed.

(** After a flat revocation by any criterion each parent handle resolves or is stale. *)
Lemma revoke_where_resolve m t i ph :
  table_wf t → forest t → let t' := fst (revoke_where m t) in
  state (record_at t' i) = Live → parent (provenance (record_at t' i)) = Some ph →
  slot_for_handle t' ph =
    if m (record_at t (slot_of ph)) then Err StaleHandle else Ok (slot_of ph).
Proof.
  intros [_ Hok] Hf t'. unfold t'. rewrite revoke_where_at. destruct (_ && _); [by intros ?%released_not_live|].
  intros Hl Hp. destruct (forest_parent_live _ _ _ _ Hf Hl Hp) as [Hpl Hpg].
  assert (slot_of ph < capacity t)%nat as Hlt by (apply record_at_nonempty; by rewrite Hpl).
  assert (capacity (fst (revoke_where m t)) = capacity t) as Hc
    by apply slot_steps_capacity, revoke_where_steps.
  pose proof (revoke_where_at m t (slot_of ph)) as Hat.
  rewrite (proj2 (is_live_true _) Hpl) in Hat. simpl in Hat.
  destruct (m (record_at t (slot_of ph))).
  - eapply released_stale; eauto. lia.
  - apply slot_for_handle_Ok. split; [done|]. eexists. apply record_Ok.
    rewrite Hat, Hc. by split_and!; auto.
Qed.

(** C25: Flat revocation breaks the subtree guarantee, in any delegation forest. Take a
    live capability [mid] strictly below a live [root]. After a flat [revoke] of [mid],
    [revoke_subtree] of [root] succeeds, yet every handle strictly below [mid] still answers
    every authorization as before. After a flat [revoke_holder] of [mid]'s holder, a child
    of [mid] held by somebody else still answers every authorization as before, and
    [revoke_subtree] of any other handle of the table, related to [mid] or not, fails with
    [StaleHandle] and revokes nothing. *)
Theorem flat_revoke_orphans t root mid :
  table_wf t → forest t → names_live t root → names_live t mid →
  slot_of root ≠ slot_of mid → descendant t (slot_of root) (slot_of mid) →
  (∃ t' n, revoke_subtree (fst (revoke t mid)) root = (t', Ok n) ∧
     ∀ h, slot_of h ≠ slot_of mid → live_below t (slot_of mid) (slot_of h) →
       ∀ who res req, Table.authorize t' who h res req = Table.authorize t who h res req) ∧
  (∀ h, state (record_at t (slot_of h)) = Live →
     parent (provenance (record_at t (slot_of h))) = Some mid →
     holder (record_at t (slot_of h)) ≠ holder (record_at t (slot_of mid)) →
     let t' := fst (revoke_holder t (holder (record_at t (slot_of mid)))) in
     (∀ who res req, Table.authorize t' who h res req = Table.authorize t who h res req) ∧
     ∀ h' r, slot_of h' ≠ slot_of h → Table.record t' h' = Ok r →
       revoke_subtree t' h' = (t', Err StaleHandle)).
Proof.
  intros Hwf Hf Hroot Hmid Hne Hd. split.
  - pose proof (revoke_cut t mid Hmid) as Hcut.
    destruct (revoke_subtree_sound (fst (revoke t mid)) root) as (t' & n & H & Hcap & Hsame).
    { by apply revoke_parents_resolve. }
    { unfold names_live. by rewrite (proj2 (proj2 Hcut)). }
    exists t', n. split; [done|]. intros h Hh [_ Hb]. apply authorize_ext.
    + rewrite Hcap. apply Hcut.
    + rewrite Hsame by (by eapply cut_off). by apply Hcut.
  - intros h Hl Hp Hhold t'. unfold t', revoke_holder. set (m := λ r, bool_decide _).
    pose proof (revoke_where_resolve m t) as Hres.
    assert (record_at (fst (revoke_where m t)) (slot_of h) = record_at t (slot_of h)) as Hh.
    { rewrite revoke_where_at. unfold m. by rewrite bool_decide_eq_false_2, andb_false_r. }
    split.
    + apply authorize_ext; [apply slot_steps_capacity, revoke_where_steps|done].
    + intros h' r Hne' Hr. eapply (orphan_blocks _ (slot_of h)); [|done..|].
      * split; [by rewrite Hh|]. exists mid. rewrite Hh. split; [done|].
        rewrite (Hres (slot_of h) mid) by (done || by rewrite Hh).
        unfold m. by rewrite bool_decide_eq_true_2.
      * intros i ph Hi Hph. rewrite (Hres i ph) by done. destruct (m _); auto.
Qed.

Lemma flat_revoke_orphans_witness :
  (∃ t' n, revoke_subtree (fst (revoke Demo.t (MkHandle 1 1))) (MkHandle 0 1) = (t', Ok n) ∧
     Table.authorize t' Demo.D (MkHandle 2 1) Demo.obj RightsOps.READ =
       Ok (record_at Demo.t 2)) ∧
  let t' := fst (revoke_holder Demo.t Demo.B) in
  revoke_subtree t' (MkHandle 0 1) = (t', Err StaleHandle).
Proof.
  destruct (flat_revoke_orphans Demo.t (MkHandle 0 1) (MkHandle 1 1)) as [(t' & n & H & Ha) Hb].
  - apply run_ops_wf.
  - apply run_new_forest; [lia|repeat constructor].
  - split; vm_compute; reflexivity.
  - split; vm_compute; reflexivity.
  - vm_compute; discriminate.
  - eapply (descendant_child Demo.t 0 1 (MkHandle 0 1)); [vm_compute; reflexivity..|].
    apply descendant_refl.
  - split.
    + exists t', n. split; [exact H|]. rewrite Ha; [vm_compute; reflexivity|vm_compute; discriminate|].
      split; [vm_compute; reflexivity|].
      eapply (descendant_child Demo.t 1 2 (MkHandle 1 1)); [vm_compute; reflexivity..|].
      apply descendant_refl.
    + eapply (Hb (MkHandle 2 1)); vm_compute; first [reflexivity|discriminate].
Defined.
