(* ===== verification/CapAudit.v ===== *)
(** Auditing: [capability/src/audit.rs], [capability/src/audit_log.rs], the names of
    [capability/src/rights.rs], and the kernel's audited entry points of
    [kernel/src/capability/audit.rs] and [kernel/src/capability/mod.rs]. *)

From Stdlib Require Import ZArith Lia Ascii.
From stdpp Require Import base list tactics decidable numbers strings.
From S2P Require Import Prelude CapTypes CapTable CapTree.
Import Table.

Local Open Scope Z_scope.

(** * Formatting

    [core::fmt::Write]: a writer may accept or refuse a string. A refusal ends the
    formatting but keeps what was written before. *)

Inductive FmtError : Type := MkFmtError.

Class FmtWrite (W : Type) : Type :=
  write_str : W → string → W * result FmtError unit.

(** [alloc::string::String] *)
#[export] Instance string_writer : FmtWrite string := λ w s, (String.append w s, Ok ()).

(** The fixed buffers [AuditLineBuf] (256 bytes) and [RightsNameBuf] (64 bytes): the text
    written so far, refusing what does not fit. *)
Record FixedBuf (size : nat) : Type := MkBuf { buf_text : string }.
Arguments MkBuf {size} buf_text.
Arguments buf_text {size} _.

#[export] Instance fixed_buf_writer size : FmtWrite (FixedBuf size) := λ w s,
  if decide (size < String.length (buf_text w) + String.length s)%nat then (w, Err MkFmtError)
  else (MkBuf (String.append (buf_text w) s), Ok ()).

Definition AuditLineBuf : Type := FixedBuf 256.
Definition RightsNameBuf : Type := FixedBuf 64.

(** [b'0' + (remaining % 10) as u8] *)
Definition digit (z : Z) : ascii := ascii_of_N (Z.to_N (48 + z mod 10)).

(** The digit loop of [write_u64]: [index] positions of the 20-byte buffer are left;
    [None] is the underflow of [index]. *)
Fixpoint digits (index : nat) (remaining : Z) (acc : string) : option string :=
  if decide (0 < remaining) then
    match index with
    | O => None
    | S index => digits index (remaining / 10) (String (digit remaining) acc)
    end
  else Some acc.

Definition NAMES : list (string * Z) :=
  [("read", Z.shiftl 1 0); ("write", Z.shiftl 1 1); ("inspect", Z.shiftl 1 2);
   ("delegate", Z.shiftl 1 3); ("revoke", Z.shiftl 1 4); ("observe", Z.shiftl 1 5);
   ("signal", Z.shiftl 1 6); ("terminate", Z.shiftl 1 7); ("audit_read", Z.shiftl 1 8);
   ("net_resolve", Z.shiftl 1 9); ("net_connect", Z.shiftl 1 10); ("net_send", Z.shiftl 1 11);
   ("net_receive", Z.shiftl 1 12); ("net_raw_device", Z.shiftl 1 13);
   ("gfx_connect", Z.shiftl 1 14); ("gfx_shell", Z.shiftl 1 15); ("gfx_overlay", Z.shiftl 1 16);
   ("gfx_serve", Z.shiftl 1 17); ("display_present", Z.shiftl 1 18);
   ("input_consume", Z.shiftl 1 19)]%string.

Section formatting.
Context {W : Type} `{FmtWrite W}.

Definition write_u64 (value : Z) (f : W) : W * result FmtError unit :=
  if decide (value = 0) then write_str f "0"
  else
    match digits 20 value "" with
    | Some s => write_str f s
    | None => (f, Err MkFmtError)
    end.

(** The loop of [write_names] over the rest of the table. *)
Fixpoint write_names_from (names : list (string * Z)) (x : Rights) (first : bool) (f : W)
  : W * result FmtError unit :=
  match names with
  | [] => (f, Ok ())
  | (name, bit) :: names =>
      if decide (Z.land x bit ≠ 0) then
        let?+ f, _ := (if first then (f, Ok ()) else write_str f "|") in
        let?+ f, _ := write_str f name in
        write_names_from names x false f
      else write_names_from names x first f
  end.

Definition write_names (x : Rights) (f : W) : W * result FmtError unit :=
  write_names_from NAMES x true f.
End formatting.

Definition format_rights (x : Rights) : RightsNameBuf := fst (write_names x (MkBuf "")).

(** * Events (audit.rs) *)

Record AuditOutcome : Type := MkOutcome { tag : Z; error_code : Z }.

Module Outcome.
Definition TAG_ALLOWED : Z := 0.
Definition TAG_DENIED : Z := 1.
Definition allowed : AuditOutcome := MkOutcome TAG_ALLOWED 0.
Definition denied (e : CapabilityError) : AuditOutcome :=
  MkOutcome TAG_DENIED (CapabilityErrorOps.as_u8 e).
Definition error_name (o : AuditOutcome) : string :=
  if decide (tag o = TAG_ALLOWED) then "allowed"
  else
    match CapabilityErrorOps.from_u8 (error_code o) with
    | Some e => CapabilityErrorOps.error_name e
    | None => "unknown"
    end.
End Outcome.

(** The padding fields of the source are constant zeros and are left out. *)
Record AuditEvent : Type := MkEvent {
  sequence : Z;
  actor : HolderId;
  ev_class : ResourceClass;
  resource_id : Z;
  requested : Rights;
  ev_handle : Z;
  outcome : AuditOutcome;
  ev_depth : Z;
}.

Definition outcome_of (r : result CapabilityError unit) : AuditOutcome :=
  match r with Ok _ => Outcome.allowed | Err e => Outcome.denied e end.

Definition event_for (seqno : Z) (a : HolderId) (res : ResourceRef) (req : Rights)
    (handle : CapabilityHandle) (d : Z) (r : result CapabilityError unit) : AuditEvent :=
  MkEvent seqno a (class res) (id res) req (Handle.encode handle) (outcome_of r) d.

(** [trait AuditSink] *)
Class AuditSink (S : Type) : Type := sink_record : S → AuditEvent → S.

(** [NullAuditSink] *)
#[export] Instance null_sink : AuditSink unit := λ s _, s.

Definition authorize_audited {S : Type} `{AuditSink S} (sink : S) (seqno : Z)
    (r : CapabilityRecord) (handle : CapabilityHandle) (h : HolderId) (res : ResourceRef)
    (required : Rights) : S * result CapabilityError unit :=
  let res' := CapTypes.authorize r handle h res required in
  let event := MkEvent seqno h (class res) (id res) required (Handle.encode handle)
                 (outcome_of res') (depth (provenance r)) in
  (sink_record sink event, res').

Definition resource_class_name (c : ResourceClass) : string :=
  match c with
  | PersistentObject => "persistent-object"
  | ProcessControl => "process-control"
  | IpcEndpoint => "ipc-endpoint"
  | BlockDevice => "block-device"
  | LifecycleControl => "lifecycle-control"
  | Audit => "audit"
  | Network => "network"
  | SharedBuffer => "shared-buffer"
  | Graphics => "graphics"
  | Display => "display"
  | Input => "input"
  end.

Definition format_audit_line {W : Type} `{FmtWrite W} (event : AuditEvent) (f : W)
  : W * result FmtError unit :=
  let?+ f, _ := write_str f "[AUD ] seq=" in
  let?+ f, _ := write_u64 (sequence event) f in
  let?+ f, _ := write_str f " actor=" in
  let?+ f, _ := write_u64 (actor event) f in
  let?+ f, _ := write_str f " class=" in
  let?+ f, _ := write_str f (resource_class_name (ev_class event)) in
  let?+ f, _ := write_str f " resource=" in
  let?+ f, _ := write_u64 (resource_id event) f in
  let?+ f, _ := write_str f " op=" in
  let?+ f, _ := (if decide (requested event = 0) then write_str f "none"
                 else write_names (requested event) f) in
  let?+ f, _ := write_str f " outcome=" in
  let?+ f, _ := write_str f (Outcome.error_name (outcome event)) in
  let?+ f, _ := write_str f " depth=" in
  write_u64 (ev_depth event) f.

(** * The bounded log (audit_log.rs) *)

Record BoundedAuditLog : Type := MkLog {
  events : list AuditEvent;
  start : nat;
  len : nat;
  next_sequence : Z;
  dropped : Z;
}.

Definition dummy_event : AuditEvent :=
  MkEvent 0 KERNEL PersistentObject 0 RightsOps.empty 0 Outcome.allowed 0.

Module Log.
Definition new (N : nat) : BoundedAuditLog := MkLog (replicate N dummy_event) 0 0 1 0.

(** [N] *)
Definition capacity (l : BoundedAuditLog) : nat := length (events l).

(** [self.events[index]]: the index is always reduced modulo [N]. *)
Definition event_at (l : BoundedAuditLog) (index : nat) : AuditEvent :=
  default dummy_event (events l !! index).

Definition is_empty (l : BoundedAuditLog) : bool := bool_decide (len l = 0%nat).

Definition oldest_sequence (l : BoundedAuditLog) : option Z :=
  if decide (len l = 0%nat) then None else Some (sequence (event_at l (start l))).

Definition newest_sequence (l : BoundedAuditLog) : option Z :=
  if decide (len l = 0%nat) then None
  else Some (sequence (event_at l ((start l + len l - 1) mod capacity l))).

(** The loop of [read_from]: [out] is the part of the slice written so far, of [room]
    positions; the [break] ends the loop. *)
Fixpoint read_loop (l : BoundedAuditLog) (since : Z) (room : nat) (offsets : list nat)
    (out : list AuditEvent) (last : Z) : list AuditEvent * Z :=
  match offsets with
  | [] => (out, last)
  | offset :: offsets =>
      let event := event_at l ((start l + offset) mod capacity l) in
      if decide (sequence event < since) then read_loop l since room offsets out last
      else if decide (room ≤ length out)%nat then (out, last)
      else read_loop l since room offsets (out ++ [event]) (sequence event)
  end.

Definition read_from (l : BoundedAuditLog) (since : Z) (room : nat) : list AuditEvent * Z :=
  if decide (len l = 0%nat ∨ room = 0%nat) then ([], next_sequence l)
  else
    let '(out, last) := read_loop l since room (seq 0 (len l)) [] 0 in
    (out, if decide (length out = 0%nat) then next_sequence l else last + 1).

Fixpoint get_loop (l : BoundedAuditLog) (seqno : Z) (offsets : list nat) : option AuditEvent :=
  match offsets with
  | [] => None
  | offset :: offsets =>
      let event := event_at l ((start l + offset) mod capacity l) in
      if decide (sequence event = seqno) then Some event else get_loop l seqno offsets
  end.

Definition get (l : BoundedAuditLog) (seqno : Z) : option AuditEvent :=
  get_loop l seqno (seq 0 (len l)).

Definition push_event (l : BoundedAuditLog) (event : AuditEvent) : BoundedAuditLog :=
  if decide (len l < capacity l)%nat then
    let index := ((start l + len l) mod capacity l)%nat in
    MkLog (<[index := event]> (events l)) (start l) (S (len l)) (next_sequence l) (dropped l)
  else
    MkLog (<[start l := event]> (events l)) (S (start l) mod capacity l) (len l)
      (next_sequence l) (wrapping_add 64 (dropped l) 1).

Definition with_sequence (e : AuditEvent) (n : Z) : AuditEvent :=
  MkEvent n (actor e) (ev_class e) (resource_id e) (requested e) (ev_handle e) (outcome e)
    (ev_depth e).

Definition record (l : BoundedAuditLog) (event : AuditEvent) : BoundedAuditLog :=
  let event := with_sequence event (next_sequence l) in
  push_event (MkLog (events l) (start l) (len l) (wrapping_add 64 (next_sequence l) 1) (dropped l))
    event.
End Log.

#[export] Instance log_sink : AuditSink BoundedAuditLog := Log.record.

(** * The kernel's audited checks

    The globals [CAPABILITY_SPACE], [AUDIT_LOG], [AUDIT_SERIAL_ECHO] and the lines sent to
    [kernel_log_fmt]. *)

Record AuditedSpace : Type := MkSpace {
  space : CapabilityTable;
  audit_log : BoundedAuditLog;
  serial_echo : bool;
  serial : list string;
}.

Definition AUDIT_RING_CAPACITY : nat := 64.
Definition MAX_AUDIT_READ_EVENTS : Z := 8.
Definition AUDIT_EVENT_SIZE_BYTES : Z := 64.
Definition AUDIT_RESOURCE : ResourceRef := MkResource Audit 0 0.

(** The two [expect]s hold ([Log_get_newest] below); a missing event would print nothing
    here. The buffer holds ASCII only, so [from_utf8] is the identity. *)
Definition record_decision (s : AuditedSpace) (a : HolderId) (res : ResourceRef) (req : Rights)
    (handle : CapabilityHandle) (d : Z) (r : result CapabilityError unit) : AuditedSpace :=
  let log := Log.record (audit_log s) (event_for 0 a res req handle d r) in
  let lines :=
    if serial_echo s && bool_decide (class res = Audit) then
      match Log.newest_sequence log ≫= Log.get log with
      | Some stored =>
          match format_audit_line stored (MkBuf "" : AuditLineBuf) with
          | (line, Ok _) => [String.append (buf_text line) (String (ascii_of_nat 10) "")]
          | (_, Err _) => []
          end
      | None => []
      end
    else [] in
  MkSpace (space s) log (serial_echo s) (serial s ++ lines).

Definition authorize_decoded (t : CapabilityTable) (h : HolderId) (raw_handle : Z)
    (res : ResourceRef) (required : Rights) : result CapabilityError CapabilityRecord :=
  let? handle := Handle.decode raw_handle in
  Table.authorize t h handle res required.

Definition authorize_decoded_class (t : CapabilityTable) (h : HolderId) (raw_handle : Z)
    (c : ResourceClass) (required : Rights) : result CapabilityError CapabilityRecord :=
  let? handle := Handle.decode raw_handle in
  Table.authorize_class t h handle c required.

(** [current]: the process the syscall runs for, when there is one. *)
Definition authorize_current (s : AuditedSpace) (current : option HolderId) (raw_handle : Z)
    (res : ResourceRef) (required : Rights)
  : AuditedSpace * result CapabilityError CapabilityRecord :=
  match current with
  | None => (s, Err UnauthorizedHolder)
  | Some h =>
      let handle := unwrap_or (Handle.decode raw_handle) Handle.INVALID in
      let r := authorize_decoded (space s) h raw_handle res required in
      let '(audit_resource, d) :=
        match r with
        | Ok rec => (resource rec, depth (provenance rec))
        | Err _ => (res, 0)
        end in
      (record_decision s h audit_resource required handle d (result_map (λ _, ()) r), r)
  end.

Definition authorize_current_class (s : AuditedSpace) (current : option HolderId)
    (raw_handle : Z) (c : ResourceClass) (required : Rights)
  : AuditedSpace * result CapabilityError CapabilityRecord :=
  match current with
  | None => (s, Err UnauthorizedHolder)
  | Some h =>
      let handle := unwrap_or (Handle.decode raw_handle) Handle.INVALID in
      let r := authorize_decoded_class (space s) h raw_handle c required in
      let '(audit_resource, d) :=
        match r with
        | Ok rec => (resource rec, depth (provenance rec))
        | Err _ => (MkResource c 0 0, 0)
        end in
      (record_decision s h audit_resource required handle d (result_map (λ _, ()) r), r)
  end.

(** The loop of [holder_has_resource_rights]; each turn advances the cursor, so
    [capacity + 1] turns are enough ([has_rights_loop_spec]); [None] is out of fuel. *)
Fixpoint has_rights_loop (fuel : nat) (t : CapabilityTable) (h : HolderId) (res : ResourceRef)
    (required : Rights) (cursor : nat) : option bool :=
  match fuel with
  | O => None
  | S fuel =>
      match list_holder t h cursor with
      | None => Some false
      | Some (next_cursor, handle, _) =>
          if is_ok (Table.authorize t h handle res required) then Some true
          else has_rights_loop fuel t h res required next_cursor
      end
  end.

Definition holder_has_resource_rights (t : CapabilityTable) (h : HolderId) (res : ResourceRef)
    (required : Rights) : option bool :=
  has_rights_loop (S (capacity t)) t h res required 0.

(** The syscall registers the audit reader uses, and what it writes to user memory: the
    events copied to [rdx]. [validate] stands for [validate_user_writable_pointer_range]. *)
Record AuditFrame : Type := MkFrame { rdi : Z; rsi : Z; rdx : Z; r10 : Z }.

Definition handle_audit_read (validate : Z → Z → bool) (s : AuditedSpace)
    (current : option HolderId) (f : AuditFrame)
  : AuditedSpace * Z * list AuditEvent :=
  let max_events := Z.min (r10 f) MAX_AUDIT_READ_EVENTS in
  if decide (max_events = 0) then
    (s, CapabilityErrorOps.syscall_status InvalidHandle, [])
  else if negb (validate (rdx f) (max_events * AUDIT_EVENT_SIZE_BYTES)) then
    (s, CapabilityErrorOps.syscall_status InvalidHandle, [])
  else
    match authorize_current s current (rdi f) AUDIT_RESOURCE RightsOps.AUDIT_READ with
    | (s, Err e) => (s, CapabilityErrorOps.syscall_status e, [])
    | (s, Ok _) =>
        let '(out, _) := Log.read_from (audit_log s) (rsi f) (Z.to_nat max_events) in
        (s, Z.of_nat (length out), out)
    end.

(** * Decimal output *)

(** Reading a decimal number back, from the value [acc] of the digits before. *)
Fixpoint decimal_value (s : string) (acc : Z) : option Z :=
  match s with
  | EmptyString => Some acc
  | String c s =>
      let d := Z.of_N (N_of_ascii c) - 48 in
      if decide (0 ≤ d < 10) then decimal_value s (10 * acc + d) else None
  end.

Lemma digit_value z : Z.of_N (N_of_ascii (digit z)) - 48 = z mod 10.
Proof.
  unfold digit. pose proof (Z.mod_pos_bound z 10 ltac:(lia)).
  rewrite N_ascii_embedding; lia.
Qed.

Lemma string_app_cons c (a b : string) :
  String.append (String c a) b = String c (String.append a b).
Proof. done. Qed.

Lemma string_app_nil_r (a : string) : String.append a "" = a.
Proof. induction a as [|c a IH]; [done|]. by rewrite string_app_cons, IH. Qed.

Lemma decimal_value_app s1 s2 acc :
  decimal_value (String.append s1 s2) acc = decimal_value s1 acc ≫= decimal_value s2.
Proof.
  revert acc. induction s1 as [|c s1 IH]; intros acc; [done|].
  rewrite string_app_cons. cbn [decimal_value]. case_decide; [apply IH|done].
Qed.

Lemma string_app_assoc (a b c : string) :
  String.append a (String.append b c) = String.append (String.append a b) c.
Proof. induction a as [|x a IH]; [done|]. by rewrite !string_app_cons, IH. Qed.

Lemma string_length_app (a b : string) :
  String.length (String.append a b) = (String.length a + String.length b)%nat.
Proof. induction a as [|x a IH]; [done|]. rewrite string_app_cons. simpl. by rewrite IH. Qed.

(** [head_nonzero s]: [s] does not start with the digit 0. *)
Definition head_nonzero (s : string) : bool :=
  match s with String c _ => negb (bool_decide (N_of_ascii c = 48%N)) | EmptyString => true end.

(** [n] buffer positions are enough below [10 ^ n]: the loop prepends exactly the digits. *)
Lemma digits_spec n r acc :
  0 ≤ r < 10 ^ Z.of_nat n →
  ∃ s, digits n r acc = Some (String.append s acc) ∧ (String.length s ≤ n)%nat ∧
       decimal_value s 0 = Some r ∧ head_nonzero s = true.
Proof.
  revert r acc. induction n as [|n IH]; intros r acc Hr.
  - exists "". assert (r = 0) as -> by (change (10 ^ Z.of_nat 0) with 1 in Hr; lia). done.
  - cbn [digits]. case_decide as Hpos.
    2: { exists "". assert (r = 0) as -> by lia. split_and!; try done. simpl. lia. }
    assert (0 ≤ r / 10 < 10 ^ Z.of_nat n) as Hq.
    { rewrite Nat2Z.inj_succ, Z.pow_succ_r in Hr by lia.
      split; [apply Z.div_pos; lia|apply Z.div_lt_upper_bound; lia]. }
    destruct (IH (r / 10) (String (digit r) acc) Hq) as (s & -> & Hlen & Hval & Hhd).
    exists (String.append s (String (digit r) "")). split_and!.
    + by rewrite <- string_app_assoc.
    + rewrite string_length_app. simpl. lia.
    + rewrite decimal_value_app, Hval. cbn -[Z.mul Z.modulo Z.div]. rewrite digit_value.
      pose proof (Z.mod_pos_bound r 10 ltac:(lia)). rewrite decide_True by lia.
      f_equal. pose proof (Z.div_mod r 10). lia.
    + destruct s as [|c s]; [|done]. change (head_nonzero (String (digit r) "") = true). cbn [head_nonzero].
      simpl in Hval. injection Hval as Hval. pose proof (digit_value r) as Hd.
      pose proof (Z.div_mod r 10). case_bool_decide as Hc; [|done]. rewrite Hc in Hd. lia.
Qed.

(** [write_u64] prints any 64-bit value in decimal: one string of at most 20 digits goes
    to the writer, it reads back as the value, and it has no leading zero (zero itself
    prints as one digit). The 20-byte buffer never underflows. *)
Theorem write_u64_decimal {W : Type} `{FmtWrite W} v (f : W) :
  in_width 64 v →
  ∃ s, write_u64 v f = write_str f s ∧ decimal_value s 0 = Some v ∧
       (1 ≤ String.length s ≤ 20)%nat ∧ (head_nonzero s = true ∨ s = "0"%string).
Proof.
  intros Hv. unfold write_u64. case_decide as H0.
  { exists "0"%string. subst v. simpl. split_and!; auto; lia. }
  destruct (digits_spec 20 v "") as (s & -> & Hlen & Hval & Hhd).
  { unfold in_width in Hv. split; [lia|]. change (10 ^ Z.of_nat 20) with 100000000000000000000.
    lia. }
  exists s. rewrite string_app_nil_r. split_and!; auto. destruct s; [simpl in Hval; congruence|simpl; lia].
Qed.

Lemma write_u64_decimal_witness :
  ∃ s, write_u64 u64_max ""%string = (s, Ok ()) ∧ decimal_value s 0 = Some u64_max.
Proof.
  destruct (write_u64_decimal u64_max ""%string) as (s & H1 & H2 & _).
  - vm_compute. split; [discriminate|reflexivity].
  - exists s. split; [exact H1|exact H2].
Defined.

(** [write_names] on a growing string: the names of the set bits, in bit order. *)
Definition set_names (names : list (string * Z)) (x : Rights) : list string :=
  fst <$> filter (λ nb, Z.land x nb.2 ≠ 0) names.

Lemma set_names_cons name bit names x :
  set_names ((name, bit) :: names) x =
    if decide (Z.land x bit ≠ 0) then name :: set_names names x else set_names names x.
Proof. unfold set_names. rewrite filter_cons. simpl. by case_decide. Qed.

Lemma write_names_from_string names x first (w : string) :
  write_names_from names x first w =
    (String.append w (match set_names names x with
                      | [] => ""
                      | l => String.append (if first then "" else "|") (String.concat "|" l)
                      end), Ok ()).
Proof.
  revert first w. induction names as [|[name bit] names IH]; intros first w.
  - simpl. by rewrite string_app_nil_r.
  - cbn [write_names_from]. rewrite set_names_cons. case_decide as Hb; [|apply IH].
    destruct first; simpl; rewrite IH; destruct (set_names names x) as [|y l];
      rewrite ?string_app_nil_r, <- ?string_app_assoc; done.
Qed.

Lemma write_names_string x w :
  write_names x w = (String.append w (String.concat "|" (set_names NAMES x)), Ok ()).
Proof.
  unfold write_names. rewrite write_names_from_string. by destruct (set_names NAMES x).
Qed.

(** * The ring refines an unbounded history *)

(** The retained events, oldest first. *)
Definition retained (l : BoundedAuditLog) : list AuditEvent :=
  (λ k, Log.event_at l ((start l + k) mod Log.capacity l)) <$> seq 0 (len l).

(** The abstract log: every event ever recorded, numbered from 1. *)
Definition abs_record (hist : list AuditEvent) (e : AuditEvent) : list AuditEvent :=
  hist ++ [Log.with_sequence e (Z.of_nat (length hist) + 1)].

Record log_refines (l : BoundedAuditLog) (hist : list AuditEvent) : Prop := {
  refines_capacity : (0 < Log.capacity l)%nat;
  refines_start : (start l < Log.capacity l)%nat;
  refines_len : len l = (length hist `min` Log.capacity l)%nat;
  refines_next : next_sequence l = Z.of_nat (length hist) + 1;
  refines_dropped : dropped l = Z.of_nat (length hist - len l);
  refines_retained : retained l = drop (length hist - len l) hist;
  refines_numbered : ∀ k e, hist !! k = Some e → sequence e = Z.of_nat k + 1;
}.

Lemma mod_add_inj (N a i j : nat) :
  (i < N)%nat → (j < N)%nat → ((a + i) mod N = (a + j) mod N)%nat → i = j.
Proof.
  intros Hi Hj He. pose proof (Nat.div_mod (a + i) N ltac:(lia)) as H1.
  pose proof (Nat.div_mod (a + j) N ltac:(lia)) as H2. rewrite He in H1.
  revert H1 H2. generalize ((a + i) / N)%nat ((a + j) / N)%nat ((a + j) mod N)%nat.
  intros q1 q2 m H1 H2. assert (q1 = q2) as -> by nia. lia.
Qed.

Lemma log_refines_new N : (0 < N)%nat → log_refines (Log.new N) [].
Proof.
  intros HN. unfold Log.new. constructor; unfold Log.capacity; simpl; rewrite ?length_replicate;
    try done; lia.
Qed.

Lemma event_at_insert l n i j e s d :
  (i < Log.capacity l)%nat →
  Log.event_at (MkLog (<[i := e]> (events l)) s n (next_sequence l) d) j =
    if decide (i = j) then e else Log.event_at l j.
Proof.
  intros Hi. unfold Log.event_at. simpl. case_decide as H.
  - subst. by rewrite list_lookup_insert_eq.
  - by rewrite list_lookup_insert_ne.
Qed.

Lemma retained_lookup l k :
  (k < len l)%nat →
  retained l !! k = Some (Log.event_at l ((start l + k) mod Log.capacity l)).
Proof. intros Hk. unfold retained. rewrite list_lookup_fmap, lookup_seq_lt by done. done. Qed.

Lemma drop_fmap_seq {A} (f : nat → A) n :
  drop 1 (f <$> seq 0 (S n)) = (λ k, f (S k)) <$> seq 0 n.
Proof.
  change (seq 0 (S n)) with (0%nat :: seq 1 n). rewrite fmap_cons, skipn_cons, drop_0.
  rewrite <- seq_shift. symmetry. apply (list_fmap_compose S f).
Qed.

Lemma retained_push l e :
  (0 < Log.capacity l)%nat → (start l < Log.capacity l)%nat → (len l ≤ Log.capacity l)%nat →
  retained (Log.push_event l e) =
    (if decide (len l < Log.capacity l)%nat then retained l else drop 1 (retained l)) ++ [e].
Proof.
  intros HN Hs Hl. set (N := Log.capacity l) in *. unfold Log.push_event. fold N.
  assert (∀ i s n d, Log.capacity (MkLog (<[i := e]> (events l)) s n (next_sequence l) d) = N) as Hcap.
  { intros. unfold Log.capacity. simpl. apply length_insert. }
  case_decide as Hlen.
  - unfold retained. rewrite Hcap. cbn [start len]. rewrite seq_S, fmap_app. fold N. f_equal.
    + apply list_fmap_ext. intros _ k Hk%list_elem_of_lookup_2%elem_of_seq.
      rewrite event_at_insert by (apply Nat.mod_upper_bound; lia).
      rewrite decide_False; [done|]. intros He. apply mod_add_inj in He; lia.
    + simpl. f_equal. rewrite event_at_insert by (apply Nat.mod_upper_bound; lia).
      by rewrite decide_True.
  - assert (len l = N) as HlN by lia. unfold retained. rewrite Hcap. cbn [start len].
    rewrite HlN. fold N. assert (Log.capacity l = N) as HcN by done.
    clearbody N. destruct N as [|n]; [lia|].
    rewrite drop_fmap_seq, seq_S, fmap_app. f_equal.
    + apply list_fmap_ext. intros _ k Hk%list_elem_of_lookup_2%elem_of_seq.
      rewrite Nat.Div0.add_mod_idemp_l. replace (S (start l) + k)%nat with (start l + S k)%nat by lia.
      rewrite event_at_insert by lia. rewrite decide_False; [done|]. intros He.
      rewrite <- (Nat.mod_small (start l) (S n)) in He at 1 by lia.
      rewrite <- (Nat.add_0_r (start l)) in He at 1. apply mod_add_inj in He; lia.
    + rewrite Nat.add_0_l, list_fmap_singleton. f_equal. rewrite Nat.Div0.add_mod_idemp_l.
      replace (S (start l) + n)%nat with (start l + 1 * S n)%nat by lia.
      rewrite Nat.Div0.mod_add, (Nat.mod_small (start l)) by lia.
      rewrite event_at_insert by lia. by rewrite decide_True.
Qed.

Lemma log_refines_record l hist e :
  log_refines l hist → Z.of_nat (length hist) + 2 < 2 ^ 64 →
  log_refines (Log.record l e) (abs_record hist e).
Proof.
  intros [H1 H2 H3 H4 H5 H6 H7] Hb. unfold Log.record, abs_record. rewrite H4.
  set (e' := Log.with_sequence e _).
  assert (∀ z, 0 ≤ z → z + 1 < 2 ^ 64 → wrapping_add 64 z 1 = z + 1) as Hw.
  { intros z Hz Hz'. unfold wrapping_add, wrap. apply Z.mod_small. lia. }
  rewrite Hw by lia.
  set (l1 := MkLog (events l) (start l) (len l) (Z.of_nat (length hist) + 1 + 1) (dropped l)).
  assert (Log.capacity (Log.push_event l1 e') = Log.capacity l) as Hc.
  { unfold Log.push_event, Log.capacity. case_decide; simpl; apply length_insert. }
  assert (len (Log.push_event l1 e') = (S (length hist) `min` Log.capacity l)%nat) as Hl.
  { unfold Log.push_event. change (Log.capacity l1) with (Log.capacity l).
    change (len l1) with (len l). case_decide; cbn [len]; lia. }
  assert (next_sequence (Log.push_event l1 e') = next_sequence l1) as Hn.
  { unfold Log.push_event. by case_decide. }
  constructor; rewrite ?Hc, ?Hl, ?Hn, ?length_app; cbn [length next_sequence l1]; try lia.
  - unfold Log.push_event. change (Log.capacity l1) with (Log.capacity l).
    case_decide; simpl; [done|]. apply Nat.mod_upper_bound. lia.
  - unfold Log.push_event. change (Log.capacity l1) with (Log.capacity l).
    change (len l1) with (len l). case_decide; cbn [dropped l1];
      [|rewrite Hw]; lia.
  - rewrite retained_push by (change (Log.capacity l1) with (Log.capacity l); cbn [start len l1]; lia).
    change (Log.capacity l1) with (Log.capacity l). change (len l1) with (len l).
    change (retained l1) with (retained l). rewrite H6.
    case_decide as Hd; rewrite ?drop_drop, drop_app_le by lia; do 2 f_equal; lia.
  - intros k x. rewrite lookup_app. destruct (hist !! k) as [y|] eqn:Hk.
    + intros [= <-]. eauto.
    + intros Hx. apply list_lookup_singleton_Some in Hx as [Hx <-].
      apply lookup_ge_None in Hk. simpl. lia.
Qed.

(** A log after recording [es] from boot. *)
Definition log_of (N : nat) (es : list AuditEvent) : BoundedAuditLog :=
  fold_left Log.record es (Log.new N).

Definition history (es : list AuditEvent) : list AuditEvent := fold_left abs_record es [].

Lemma history_length es : length (history es) = length es.
Proof.
  unfold history. induction es as [|e es IH] using rev_ind; [done|].
  rewrite fold_left_app. simpl. unfold abs_record at 1. by rewrite !length_app, IH.
Qed.

Lemma log_of_refines N es :
  (0 < N)%nat → Z.of_nat (length es) + 1 < 2 ^ 64 → log_refines (log_of N es) (history es).
Proof.
  intros HN. unfold log_of, history. induction es as [|e es IH] using rev_ind; intros Hlen.
  - by apply log_refines_new.
  - rewrite !fold_left_app. simpl. rewrite length_app in Hlen. simpl in Hlen.
    apply log_refines_record; [apply IH; lia|].
    fold (history es). rewrite history_length. lia.
Qed.

(** ** Reading *)

Lemma read_loop_spec l since room offsets out lst :
  (length out ≤ room)%nat →
  Log.read_loop l since room offsets out lst =
    let new := take (room - length out) (filter (λ e, since ≤ sequence e)
      ((λ k, Log.event_at l ((start l + k) mod Log.capacity l)) <$> offsets)) in
    (out ++ new, default lst (sequence <$> last new)).
Proof.
  revert out lst. induction offsets as [|k offsets IH]; intros out lst Hroom.
  - cbv zeta. by rewrite fmap_nil, filter_nil, take_nil, app_nil_r.
  - cbn [Log.read_loop]. rewrite fmap_cons, filter_cons.
    set (e := Log.event_at l _). destruct (decide (sequence e < since)) as [Hs|Hs].
    + rewrite decide_False by lia. by apply IH.
    + rewrite (decide_True (P := since ≤ sequence e)) by lia. case_decide as Hfull.
      { replace (room - length out)%nat with 0%nat by lia. simpl. by rewrite app_nil_r. }
      rewrite IH by (rewrite length_app; simpl; lia). rewrite length_app. simpl.
      replace (room - length out)%nat with (S (room - (length out + 1))) by lia. simpl.
      rewrite <- app_assoc. simpl. f_equal.
      rewrite last_cons. by destruct (last _).
Qed.

Lemma retained_nil l : len l = 0%nat → retained l = [].
Proof. intros H. unfold retained. by rewrite H. Qed.

Lemma read_from_spec l since room :
  (0 < room)%nat →
  let out := take room (filter (λ e, since ≤ sequence e) (retained l)) in
  Log.read_from l since room =
    (out, match last out with Some e => sequence e + 1 | None => next_sequence l end).
Proof.
  intros Hroom out. unfold Log.read_from. case_decide as H0.
  - destruct H0 as [H0|H0]; [|lia]. subst out. by rewrite retained_nil, filter_nil, take_nil.
  - rewrite read_loop_spec by (simpl; lia). cbn [length]. rewrite Nat.sub_0_r. cbv zeta.
    fold (retained l). fold out. cbn [app]. destruct (last out) as [e|] eqn:El.
    + rewrite decide_False; [done|]. destruct out; [done|]. simpl. lia.
    + apply last_None in El. rewrite El. done.
Qed.

Lemma get_loop_spec l n offsets :
  Log.get_loop l n offsets =
    snd <$> list_find (λ e, sequence e = n)
      ((λ k, Log.event_at l ((start l + k) mod Log.capacity l)) <$> offsets).
Proof.
  induction offsets as [|k offsets IH]; [done|]. rewrite fmap_cons. simpl.
  case_decide; [done|]. rewrite IH. by destruct (list_find _ _) as [[]|].
Qed.

Lemma get_spec l hist n :
  log_refines l hist →
  Log.get l n = if decide (Z.of_nat (length hist - len l) < n ≤ Z.of_nat (length hist))
                then hist !! Z.to_nat (n - 1) else None.
Proof.
  intros [H1 H2 H3 H4 H5 H6 H7]. unfold Log.get. rewrite get_loop_spec. fold (retained l).
  rewrite H6. destruct (list_find _ _) as [[i e]|] eqn:Hf; simpl.
  - apply list_find_Some in Hf as (Hi & He & _). rewrite lookup_drop in Hi.
    pose proof (H7 _ _ Hi). pose proof (lookup_lt_Some _ _ _ Hi).
    rewrite decide_True by lia. rewrite <- Hi. f_equal. lia.
  - apply list_find_None in Hf. case_decide as Hd; [|done].
    destruct (hist !! Z.to_nat (n - 1)) as [e|] eqn:He; [|done]. exfalso.
    rewrite Forall_forall in Hf. apply (Hf e); [|rewrite (H7 _ _ He); lia].
    apply list_elem_of_lookup. exists (Z.to_nat (n - 1) - (length hist - len l))%nat.
    rewrite lookup_drop, <- He. f_equal. lia.
Qed.

(** C26: The bounded log is the tail of the full history. After any sequence of records from
    boot (fewer than 2^64 - 1 of them) the retained events are the last [N] of the history,
    oldest first, numbered 1, 2, 3, ... over the whole history; [dropped] counts the ones
    overwritten; [get] finds exactly the retained sequence numbers; and what [read_from]
    returns is the first [room] retained events from [since] on. *)
Theorem audit_log_is_history_tail N es :
  (0 < N)%nat → Z.of_nat (length es) + 1 < 2 ^ 64 →
  let l := log_of N es in
  let hist := history es in
  let lost := (length es - N)%nat in
  retained l = drop lost hist ∧ dropped l = Z.of_nat lost ∧
  next_sequence l = Z.of_nat (length es) + 1 ∧
  (∀ k e, hist !! k = Some e → sequence e = Z.of_nat k + 1) ∧
  (∀ n, Log.get l n = if decide (Z.of_nat lost < n ≤ Z.of_nat (length es))
                      then hist !! Z.to_nat (n - 1) else None) ∧
  (∀ since room, (0 < room)%nat →
     fst (Log.read_from l since room) =
       take room (filter (λ e, since ≤ sequence e) (drop lost hist))).
Proof.
  intros HN Hlen l hist lost. pose proof (log_of_refines N es HN Hlen) as Hr.
  fold l hist in Hr. pose proof Hr as [H1 H2 H3 H4 H5 H6 H7].
  assert (Log.capacity l = N) as Hcap.
  { unfold l, log_of. clear. assert (∀ l0, Log.capacity (fold_left Log.record es l0) = Log.capacity l0) as ->.
    { induction es as [|e es IH]; intros l0; [done|]. simpl. rewrite IH.
      unfold Log.record, Log.push_event, Log.capacity. case_decide; simpl; apply length_insert. }
    unfold Log.capacity. apply length_replicate. }
  assert (length hist = length es) as Hh by apply history_length.
  assert (length hist - len l = lost)%nat as Hlost by (unfold lost; lia).
  rewrite Hlost in *. split_and!; auto; try lia.
  - intros n. rewrite (get_spec _ _ _ Hr), Hlost, Hh. done.
  - intros since room Hroom. rewrite read_from_spec by done. by rewrite H6.
Qed.

Lemma audit_log_is_history_tail_witness :
  retained (log_of 2 (replicate 3 dummy_event)) = drop 1 (history (replicate 3 dummy_event)).
Proof. apply (audit_log_is_history_tail 2 (replicate 3 dummy_event)); simpl; lia. Defined.

Lemma filter_numbered (b c : Z) (l : list AuditEvent) :
  (∀ k e, l !! k = Some e → sequence e = b + Z.of_nat k + 1) →
  filter (λ e, c ≤ sequence e) l = drop (Z.to_nat (c - 1 - b)) l.
Proof.
  revert b. induction l as [|e l IH]; intros b Hn; [by rewrite drop_nil|].
  rewrite filter_cons. pose proof (Hn 0%nat e eq_refl) as He.
  rewrite (IH (b + 1)) by (intros k x Hk; rewrite (Hn (S k) x Hk); lia).
  case_decide as Hc.
  - replace (Z.to_nat (c - 1 - b)) with 0%nat by lia.
    by replace (Z.to_nat (c - 1 - (b + 1))) with 0%nat by lia.
  - replace (Z.to_nat (c - 1 - b)) with (S (Z.to_nat (c - 1 - (b + 1)))) by lia. done.
Qed.

Lemma filter_retained l hist c :
  log_refines l hist →
  filter (λ e, c ≤ sequence e) (retained l) =
    drop ((length hist - len l) `max` Z.to_nat (c - 1)) hist.
Proof.
  intros [H1 H2 H3 H4 H5 H6 H7]. rewrite H6. set (lost := (length hist - len l)%nat).
  rewrite (filter_numbered (Z.of_nat lost)), drop_drop.
  - f_equal. lia.
  - intros k e Hk. rewrite lookup_drop in Hk. rewrite (H7 _ _ Hk). lia.
Qed.

(** Paging loses nothing. Reading from [since] and continuing from the returned
    [next_since] yields every retained event from [since] on exactly once and in order: the
    page followed by the events from [next_since] is the whole. *)
Theorem audit_paging N es since room :
  (0 < N)%nat → Z.of_nat (length es) + 1 < 2 ^ 64 → (0 < room)%nat →
  let l := log_of N es in
  let '(out, next_since) := Log.read_from l since room in
  (length out ≤ room)%nat ∧
  filter (λ e, since ≤ sequence e) (retained l) =
    out ++ filter (λ e, next_since ≤ sequence e) (retained l).
Proof.
  intros HN Hlen Hroom l. pose proof (log_of_refines N es HN Hlen) as Hr. fold l in Hr.
  rewrite read_from_spec by done. rewrite !(filter_retained _ _ _ Hr).
  pose proof Hr as [_ _ H3 H4 _ _ H7]. set (hist := history es) in *.
  set (m := ((length hist - len l) `max` Z.to_nat (since - 1))%nat).
  split; [rewrite length_take; lia|].
  destruct (last (take room (drop m hist))) as [e|] eqn:El.
  - set (n := (room `min` (length hist - m))%nat).
    assert (length (take room (drop m hist)) = n) as Hn by (rewrite length_take, length_drop; done).
    rewrite last_lookup, Hn in El.
    assert (0 < n)%nat as Hpos by (destruct (drop m hist); [by rewrite take_nil in El|];
      destruct room; [lia|]; simpl in Hn; lia).
    rewrite lookup_take, decide_True, lookup_drop in El by (unfold n; lia).
    rewrite (H7 _ _ El).
    replace ((length hist - len l) `max` _)%nat with (m + n)%nat by lia.
    rewrite <- (take_drop room (drop m hist)) at 1. f_equal. rewrite drop_drop.
    destruct (decide (room ≤ length hist - m)%nat).
    + f_equal. lia.
    + rewrite !drop_ge by lia. done.
  - apply last_None in El. rewrite El. rewrite H4. simpl.
    destruct room; [lia|]. destruct (drop m hist) eqn:Ed; [|done].
    rewrite drop_ge by lia. done.
Qed.

Lemma audit_paging_witness :
  let l := log_of 2 (replicate 3 dummy_event) in
  let '(out, next_since) := Log.read_from l 0 1 in
  (length out ≤ 1)%nat ∧
  filter (λ e, 0 ≤ sequence e) (retained l) =
    out ++ filter (λ e, next_since ≤ sequence e) (retained l).
Proof. apply (audit_paging 2 (replicate 3 dummy_event) 0 1); simpl; lia. Defined.

(** * Audited authorization *)

Lemma outcome_decodes r :
  Outcome.error_name (outcome_of r) =
    match r with Ok _ => "allowed"%string | Err e => CapabilityErrorOps.error_name e end.
Proof. by destruct r as [[]|[]]. Qed.

Lemma Log_get_newest l hist e :
  log_refines l (hist ++ [e]) → Log.newest_sequence l ≫= Log.get l = Some e.
Proof.
  intros Hr. pose proof Hr as [H1 H2 H3 H4 H5 H6 H7]. rewrite length_app in *. simpl in *.
  unfold Log.newest_sequence. rewrite decide_False by lia. simpl.
  pose proof (retained_lookup l (len l - 1) ltac:(lia)) as Hn.
  rewrite H6, lookup_drop in Hn.
  replace (length hist + 1 - len l + (len l - 1))%nat with (length hist) in Hn by lia.
  rewrite list_lookup_middle in Hn by done.
  replace (start l + len l - 1)%nat with (start l + (len l - 1))%nat by lia.
  injection Hn as <-. rewrite (H7 (length hist)) by (by rewrite list_lookup_middle).
  rewrite (get_spec _ _ _ Hr), length_app. simpl. rewrite decide_True by lia.
  rewrite <- (list_lookup_middle hist [] e (length hist)) by done. f_equal. lia.
Qed.

Lemma authorize_decoded_Ok t h raw res req rec :
  authorize_decoded t h raw res req = Ok rec ↔
  ∃ hd, Handle.decode raw = Ok hd ∧ Table.authorize t h hd res req = Ok rec.
Proof. unfold authorize_decoded. destruct (Handle.decode raw); naive_solver. Qed.

(** [authorize_current] decides exactly as the table does on the decoded handle, never
    changes the capability table, and appends exactly one event to the audit log, whatever
    the decision: numbered next in the history, attributed to the calling process, with the
    resource class and id, the rights asked for, and an outcome that names the decision. *)
Theorem authorize_current_audited s hist h raw res req s' r :
  log_refines (audit_log s) hist → Z.of_nat (length hist) + 2 < 2 ^ 64 →
  authorize_current s (Some h) raw res req = (s', r) →
  r = authorize_decoded (space s) h raw res req ∧ space s' = space s ∧
  ∃ e, log_refines (audit_log s') (hist ++ [e]) ∧
    sequence e = Z.of_nat (length hist) + 1 ∧ actor e = h ∧ requested e = req ∧
    ev_class e = class res ∧ resource_id e = id res ∧
    Outcome.error_name (outcome e) =
      match r with Ok _ => "allowed"%string | Err x => CapabilityErrorOps.error_name x end.
Proof.
  intros Hr Hb. unfold authorize_current.
  assert (∀ a res' d x, ∃ e, log_refines (audit_log (record_decision s a res' req
      (unwrap_or (Handle.decode raw) Handle.INVALID) d x)) (hist ++ [e]) ∧
      e = Log.with_sequence (event_for 0 a res' req
        (unwrap_or (Handle.decode raw) Handle.INVALID) d x) (Z.of_nat (length hist) + 1)) as Hrec.
  { intros a res' d x. eexists. split; [|done]. by apply log_refines_record. }
  destruct (authorize_decoded _ _ _ _ _) as [rec|e] eqn:E; intros [= <- <-];
    (split_and!; [done..|]).
  - apply authorize_decoded_Ok in E as (hd & _ & (_ & _ & _ & _ & _ & Hres & _)%table_authorize_Ok).
    destruct (Hrec h (resource rec) (depth (provenance rec)) (Ok ())) as (ev & H1 & ->).
    eexists. split; [exact H1|]. simpl. rewrite Hres. by split_and!.
  - destruct (Hrec h res 0 (Err e)) as (ev & H1 & ->).
    eexists. split; [exact H1|]. simpl. split_and!; [done..|]. apply (outcome_decodes (Err e)).
Qed.

Lemma authorize_current_audited_witness :
  let s := MkSpace (new 4) (Log.new 4) false [] in
  let '(s', r) := authorize_current s (Some 7) 65536 AUDIT_RESOURCE RightsOps.AUDIT_READ in
  r = Err InvalidHandle ∧ ∃ e, log_refines (audit_log s') [e] ∧ actor e = 7.
Proof.
  intros s. destruct (authorize_current s (Some 7) 65536
    AUDIT_RESOURCE RightsOps.AUDIT_READ) as [s' r] eqn:E.
  destruct (authorize_current_audited s [] 7 65536
    AUDIT_RESOURCE RightsOps.AUDIT_READ s' r) as (H1 & _ & e & H2 & _ & H3 & _).
  - apply log_refines_new. lia.
  - simpl. lia.
  - exact E.
  - split; [rewrite H1; vm_compute; reflexivity|]. exists e. split; [exact H2|exact H3].
Defined.

(** ** Holdings *)

Definition holds (t : CapabilityTable) (h : HolderId) (res : ResourceRef) (req : Rights)
    (i : nat) : Prop :=
  let r := record_at t i in
  state r = Live ∧ holder r = h ∧ resource r = res ∧ req ⊑r rights r.

Lemma has_rights_loop_spec fuel t h res req cursor :
  addressable t → (capacity t - cursor < fuel)%nat →
  ∃ b, has_rights_loop fuel t h res req cursor = Some b ∧
    (b = true ↔ ∃ i, (cursor ≤ i)%nat ∧ holds t h res req i).
Proof.
  intros Ha. revert cursor. induction fuel as [|fuel IH]; intros cursor Hf; [lia|].
  cbn [has_rights_loop]. pose proof (list_holder_spec t h cursor) as Hls.
  destruct (list_holder t h cursor) as [[[next hd] r]|].
  - destruct Hls as (i & Hi & -> & -> & -> & Hl & Hh & Hskip).
    assert (Z.of_nat i ≤ u16_max) as Hi16 by (unfold addressable, u16_max, max_of in *; lia).
    destruct (record_expect_handle t i Hl Hi16) as [Hr Hs].
    apply record_Ok in Hr as (_ & Hlt & Hg & _). rewrite Hs in Hlt.
    assert (is_ok (Table.authorize t h (expect_handle t i) res req) = true ↔ holds t h res req i)
      as Hok.
    { unfold holds. destruct (Table.authorize _ _ _ _ _) as [x|] eqn:E; simpl.
      - apply table_authorize_Ok in E. rewrite Hs in E. destruct E as (-> & _ & E). naive_solver.
      - split; [done|]. intros (H1 & H2 & H3 & H4).
        assert (Table.authorize t h (expect_handle t i) res req = Ok (record_at t i)); [|congruence].
        apply table_authorize_Ok. rewrite Hs. by split_and!. }
    destruct (is_ok _) eqn:E.
    + exists true. split; [done|]. split; [|done]. intros _. exists i. split; [lia|]. by apply Hok.
    + destruct (IH (S i) ltac:(lia)) as (b & -> & Hb). exists b. split; [done|]. rewrite Hb.
      split; intros (j & Hj & Hh'); exists j; (split; [|done]).
      * lia.
      * destruct (decide (j = i)) as [->|]; [by apply Hok in Hh'|].
        destruct (decide (j < i)%nat); [|lia]. exfalso. apply (Hskip j); [lia|].
        destruct Hh' as (? & ? & _). done.
  - exists false. split; [done|]. split; [done|]. intros (j & Hj & Hl & Hh & _).
    exfalso. apply (Hls j); [lia|done].
Qed.

(** [holder_has_resource_rights] terminates on every table and answers exactly whether
    some live capability of the holder is for the resource and covers the rights. *)
Theorem holder_has_resource_rights_iff t h res req :
  addressable t →
  ∃ b, holder_has_resource_rights t h res req = Some b ∧
    (b = true ↔ ∃ i, holds t h res req i).
Proof.
  intros Ha. destruct (has_rights_loop_spec (S (capacity t)) t h res req 0 Ha) as (b & H1 & H2).
  { lia. }
  exists b. split; [exact H1|]. rewrite H2. split; intros (i & H); exists i; [tauto|].
  split; [lia|done].
Qed.

Lemma holder_has_resource_rights_iff_witness :
  ∃ b, holder_has_resource_rights (new 4) 7 AUDIT_RESOURCE RightsOps.AUDIT_READ = Some b ∧
    (b = true ↔ ∃ i, holds (new 4) 7 AUDIT_RESOURCE RightsOps.AUDIT_READ i).
Proof. apply holder_has_resource_rights_iff. vm_compute. discriminate. Defined.

(** The audit reader syscall discloses events only to a process holding a live
    [AUDIT_READ] capability for the audit resource, only after the destination range for
    the whole request was validated, and never more than that range or
    [MAX_AUDIT_READ_EVENTS] hold. *)
Theorem audit_read_guarded validate s current f s' rax out :
  0 ≤ r10 f →
  handle_audit_read validate s current f = (s', rax, out) →
  out ≠ [] →
  ∃ h n, current = Some h ∧ (∃ i, holds (space s) h AUDIT_RESOURCE RightsOps.AUDIT_READ i) ∧
    validate (rdx f) (n * AUDIT_EVENT_SIZE_BYTES) = true ∧
    rax = Z.of_nat (length out) ∧ rax ≤ n ∧ n ≤ MAX_AUDIT_READ_EVENTS ∧
    Forall (λ e, rsi f ≤ sequence e) out.
Proof.
  intros Hr10. unfold handle_audit_read. set (n := Z.min (r10 f) MAX_AUDIT_READ_EVENTS).
  case_decide as Hn; [by intros [= <- <- <-]|].
  destruct (validate _ _) eqn:Hval; simpl; [|by intros [= <- <- <-]].
  destruct (authorize_current _ _ _ _ _) as [s1 [rec|e]] eqn:E; [|by intros [= <- <- <-]].
  assert (0 < n) by (unfold n, MAX_AUDIT_READ_EVENTS in *; lia).
  rewrite read_from_spec by lia. intros [= <- <- <-] _.
  unfold authorize_current in E. destruct current as [h|]; [|done].
  exists h, n. destruct (authorize_decoded _ _ _ _ _) as [rec'|] eqn:Ed; [|done].
  apply authorize_decoded_Ok in Ed as (hd & _ & (Hx & _ & Hl & _ & Hh & Hres & Hreq)%table_authorize_Ok).
  split_and!; auto.
  - exists (slot_of hd). subst rec'. by split_and!.
  - rewrite length_take. lia.
  - unfold n. lia.
  - apply Forall_take, Forall_forall. by intros x [Hx' _]%list_elem_of_filter.
Qed.

Lemma audit_read_guarded_witness :
  let t := fst (grant_root (new 4) 7 AUDIT_RESOURCE RightsOps.AUDIT_READ) in
  let s := MkSpace t (Log.new 4) false [] in
  let f := MkFrame (Handle.encode (MkHandle 0 1)) 0 4096 3 in
  let '(s', rax, out) := handle_audit_read (λ _ _, true) s (Some 7) f in
  out ≠ [] ∧ ∃ i, holds t 7 AUDIT_RESOURCE RightsOps.AUDIT_READ i.
Proof.
  intros t s f. destruct (handle_audit_read (λ _ _, true) s (Some 7) f) as [[s' rax] out] eqn:E.
  assert (out ≠ []) as Hne.
  { intros ->. assert (snd (handle_audit_read (λ _ _, true) s (Some 7) f) = []) as H
      by (rewrite E; reflexivity). vm_compute in H. discriminate H. }
  destruct (audit_read_guarded (λ _ _, true) s (Some 7) f s' rax out) as (h & n & H1 & H2 & _).
  - vm_compute. discriminate.
  - exact E.
  - exact Hne.
  - split; [exact Hne|]. injection H1 as <-. exact H2.
Defined.
