(* ===== verification/NativeAbi.v ===== *)
(** The native ABI: identities, status codes, port limits and wire records of
    [native-abi/src/port.rs], [shared_buffer.rs], [status.rs] and [work_set.rs]. *)

From Stdlib Require Import ZArith Lia.
From stdpp Require Import base list tactics decidable numbers.
From S2P Require Import Prelude Bytes CapTypes.

Local Open Scope Z_scope.

(** * Slot/generation identities

    The macro [slot_generation_id!] and [SharedBufferId]: the id is its raw word. *)

Inductive IdError : Type := InvalidGeneration | ReservedBitsSet.

#[export] Instance IdError_eq_dec : EqDecision IdError.
Proof. solve_decision. Defined.

Definition GENERATION_SHIFT : Z := 16.

Module Id.
Definition t : Type := Z.   (* u64 *)

Definition new (slot generation : Z) : result IdError t :=
  if decide (generation = 0) then Err InvalidGeneration
  else Ok (Z.lor slot (Z.shiftl generation GENERATION_SHIFT)).

Definition encode (i : t) : Z := i.

Definition decode (raw : Z) : result IdError t :=
  if decide (Z.land raw HIGH_BITS_MASK ≠ 0) then Err ReservedBitsSet
  else
    let generation := wrap 32 (Z.shiftr raw GENERATION_SHIFT) in
    if decide (generation = 0) then Err InvalidGeneration else Ok raw.

Definition slot (i : t) : Z := wrap 16 i.
Definition generation (i : t) : Z := wrap 32 (Z.shiftr i GENERATION_SHIFT).
End Id.

Definition ConnectionId : Type := Id.t.
Definition WorkSetId : Type := Id.t.
Definition SharedBufferId : Type := Id.t.

(** * Statuses (status.rs) *)

Definition NETWORK_STATUS_PENDING : Z := u64_max - 15.
Definition STATUS_EACCES : Z := CapabilityErrorOps.SYSCALL_EACCES.
Definition STATUS_EINVAL : Z := CapabilityErrorOps.SYSCALL_EINVAL.
Definition STATUS_ENOSPC : Z := CapabilityErrorOps.SYSCALL_ENOSPC.
Definition STATUS_ENOSYS : Z := u64_max - 37.
Definition STATUS_ESTALE : Z := CapabilityErrorOps.SYSCALL_ESTALE.
Definition STATUS_EBADF : Z := u64_max - 8.
Definition STATUS_EAGAIN : Z := u64_max - 10.
Definition STATUS_EEXIST : Z := u64_max - 16.
Definition STATUS_EPIPE : Z := u64_max - 31.
Definition STATUS_ETIMEDOUT : Z := u64_max - 109.
Definition STATUS_ECONNREFUSED : Z := u64_max - 110.
Definition STATUS_RANGE_START : Z := u64_max - 4095.
Definition is_status (value : Z) : bool := bool_decide (STATUS_RANGE_START ≤ value).

(** * Port limits (port.rs) *)

Definition PORT_FRAME_BYTES : nat := 64.
Definition PORT_MAX_EVENT_QUEUE_DEPTH : nat := 64.
Definition PORT_MAX_REQUEST_QUEUE_DEPTH : nat := 64.
Definition PORT_MAX_CONNECTIONS : Z := 16.
Definition PORT_MAX_OUTSTANDING_PER_CONNECTION : Z := 16.
Definition PORT_MAX_TRANSFERS_IN_FLIGHT_PER_CONNECTION : Z := 1.
Definition PORT_MAX_TRANSFERS_IN_FLIGHT : Z := 4.
Definition PORT_ROLE_CONNECT : Z := 1.
Definition PORT_ROLE_SERVE : Z := 2.
Definition WORK_SET_BITS : Z := 32.

Record PortParams : Type := MkParams {
  event_depth : Z;
  request_depth : Z;
  max_connections : Z;
  max_outstanding : Z;
  max_connections_per_holder : Z;
}.

Inductive PortParamError : Type :=
| PE_EventDepth | PE_RequestDepth | PE_Connections | PE_Outstanding | PE_PerHolder | PE_Inconsistent.

Definition validate_params (p : PortParams) : result PortParamError unit :=
  if decide (event_depth p = 0 ∨ Z.of_nat PORT_MAX_EVENT_QUEUE_DEPTH < event_depth p)
  then Err PE_EventDepth
  else if decide (request_depth p = 0 ∨ Z.of_nat PORT_MAX_REQUEST_QUEUE_DEPTH < request_depth p)
  then Err PE_RequestDepth
  else if decide (max_connections p = 0 ∨ PORT_MAX_CONNECTIONS < max_connections p)
  then Err PE_Connections
  else if decide (max_outstanding p = 0 ∨ PORT_MAX_OUTSTANDING_PER_CONNECTION < max_outstanding p)
  then Err PE_Outstanding
  else if decide (max_connections_per_holder p = 0 ∨
                  PORT_MAX_CONNECTIONS < max_connections_per_holder p)
  then Err PE_PerHolder
  else if decide (request_depth p < max_outstanding p ∨
                  max_connections p < max_connections_per_holder p)
  then Err PE_Inconsistent
  else Ok ().

Record PortRights : Type := MkPortRights { connect_right : Rights; serve_right : Rights }.

Definition port_rights_for (c : ResourceClass) : option PortRights :=
  match c with
  | Graphics => Some (MkPortRights RightsOps.GFX_CONNECT RightsOps.GFX_SERVE)
  | _ => None
  end.

(** * Wire records (port.rs) *)

Inductive RecvKind : Type := RK_Request | RK_ClientClosed | RK_ClientExited | RK_ClientRevoked.
Inductive EventKind : Type := EK_Frame | EK_Disconnected | EK_ServerGone.

#[export] Instance RecvKind_eq_dec : EqDecision RecvKind.
Proof. solve_decision. Defined.
#[export] Instance EventKind_eq_dec : EqDecision EventKind.
Proof. solve_decision. Defined.

Definition recv_kind_u32 (k : RecvKind) : Z :=
  match k with
  | RK_Request => 1 | RK_ClientClosed => 2 | RK_ClientExited => 3 | RK_ClientRevoked => 4
  end.

Definition recv_kind_from_u32 (raw : Z) : option RecvKind :=
  match raw with
  | 1 => Some RK_Request
  | 2 => Some RK_ClientClosed
  | 3 => Some RK_ClientExited
  | 4 => Some RK_ClientRevoked
  | _ => None
  end.

Definition event_kind_u32 (k : EventKind) : Z :=
  match k with EK_Frame => 1 | EK_Disconnected => 2 | EK_ServerGone => 3 end.

Definition event_kind_from_u32 (raw : Z) : option EventKind :=
  match raw with
  | 1 => Some EK_Frame
  | 2 => Some EK_Disconnected
  | 3 => Some EK_ServerGone
  | _ => None
  end.

Inductive RecordError : Type :=
| UnknownKind | UnknownFlags | ReservedNonZero | TransferMismatch | ConnectionErr (e : IdError).

Definition ENVELOPE_TRANSFER_PRESENT : Z := 1.

Record TransferredCap : Type := MkTransferred {
  tc_handle : Z;      (* u64 *)
  tc_buffer_id : Z;   (* u64 *)
  tc_byte_len : Z;    (* u64 *)
  tc_rights : Z;      (* u32 *)
  tc_class : Z;       (* u8 *)
}.

#[export] Instance TransferredCap_eq_dec : EqDecision TransferredCap.
Proof. solve_decision. Defined.

Record TrustedEnvelope : Type := MkEnvelope {
  env_connection : ConnectionId;
  env_pid : Z;
  env_domain : Z;
  env_instance_generation : Z;
  env_kernel_seq : Z;
  env_rights : Z;
  env_transfer : option TransferredCap;
}.

Module Envelope.
Definition BYTES : nat := 80.

Definition encode (e : TrustedEnvelope) : list Z :=
  let out := replicate BYTES 0 in
  let out := blit 0 (le_encode 8 (Id.encode (env_connection e))) out in
  let out := blit 8 (le_encode 8 (env_pid e)) out in
  let out := blit 16 (le_encode 8 (env_domain e)) out in
  let out := blit 24 (le_encode 8 (env_instance_generation e)) out in
  let out := blit 32 (le_encode 8 (env_kernel_seq e)) out in
  let out := blit 40 (le_encode 4 (env_rights e)) out in
  let flags := match env_transfer e with Some _ => ENVELOPE_TRANSFER_PRESENT | None => 0 end in
  let out := blit 44 (le_encode 4 flags) out in
  match env_transfer e with
  | Some transfer =>
      let out := blit 48 (le_encode 8 (tc_handle transfer)) out in
      let out := blit 56 (le_encode 8 (tc_buffer_id transfer)) out in
      let out := blit 64 (le_encode 8 (tc_byte_len transfer)) out in
      let out := blit 72 (le_encode 4 (tc_rights transfer)) out in
      blit 76 [tc_class transfer] out
  | None => out
  end.

(** [flags & !ENVELOPE_TRANSFER_PRESENT] on [u32] is [Z.ldiff]. *)
Definition decode (bytes : list Z) : result RecordError TrustedEnvelope :=
  match Id.decode (u64_at 0 bytes) with
  | Err e => Err (ConnectionErr e)
  | Ok connection =>
      let pid := u64_at 8 bytes in
      let domain := u64_at 16 bytes in
      let instance_generation := u64_at 24 bytes in
      let kernel_seq := u64_at 32 bytes in
      let rights := u32_at 40 bytes in
      let flags := u32_at 44 bytes in
      if decide (Z.ldiff flags ENVELOPE_TRANSFER_PRESENT ≠ 0) then Err UnknownFlags
      else if decide (slice 77 80 bytes ≠ [0; 0; 0]) then Err ReservedNonZero
      else
        let transfer_slice := slice 48 77 bytes in
        let transfer_present := bool_decide (Z.land flags ENVELOPE_TRANSFER_PRESENT ≠ 0) in
        let handle := u64_at 0 transfer_slice in
        if transfer_present then
          if decide (handle = 0) then Err TransferMismatch
          else
            let transfer := MkTransferred handle (u64_at 8 transfer_slice)
              (u64_at 16 transfer_slice) (u32_at 24 transfer_slice)
              (default 0 (transfer_slice !! 28%nat)) in
            Ok (MkEnvelope connection pid domain instance_generation kernel_seq rights
                  (Some transfer))
        else if existsb (λ b, negb (b =? 0)) transfer_slice then Err TransferMismatch
        else Ok (MkEnvelope connection pid domain instance_generation kernel_seq rights None)
  end.
End Envelope.

Record PortRecvRecord : Type := MkRecv {
  rr_kind : RecvKind;
  rr_reason : Z;
  rr_envelope : TrustedEnvelope;
  rr_frame : list Z;
}.

Module RecvRecord.
Definition BYTES : nat := 152.

Definition encode (r : PortRecvRecord) : list Z :=
  let out := replicate BYTES 0 in
  let out := blit 0 (le_encode 4 (recv_kind_u32 (rr_kind r))) out in
  let out := blit 4 (le_encode 4 (rr_reason r)) out in
  let out := blit 8 (Envelope.encode (rr_envelope r)) out in
  blit 88 (rr_frame r) out.

(** The length conversion of [bytes[8..88]] cannot fail. *)
Definition decode (bytes : list Z) : result RecordError PortRecvRecord :=
  let? kind := ok_or (recv_kind_from_u32 (u32_at 0 bytes)) UnknownKind in
  let reason := u32_at 4 bytes in
  let? envelope := Envelope.decode (slice 8 88 bytes) in
  Ok (MkRecv kind reason envelope (slice 88 152 bytes)).
End RecvRecord.

Record PortEventRecord : Type := MkEventRecord {
  er_kind : EventKind;
  er_reason : Z;
  er_kernel_seq : Z;
  er_frame : list Z;
}.

Module EventRecord.
Definition BYTES : nat := 80.

Definition encode (r : PortEventRecord) : list Z :=
  let out := replicate BYTES 0 in
  let out := blit 0 (le_encode 4 (event_kind_u32 (er_kind r))) out in
  let out := blit 4 (le_encode 4 (er_reason r)) out in
  let out := blit 8 (le_encode 8 (er_kernel_seq r)) out in
  blit 16 (er_frame r) out.

Definition decode (bytes : list Z) : result RecordError PortEventRecord :=
  let? kind := ok_or (event_kind_from_u32 (u32_at 0 bytes)) UnknownKind in
  Ok (MkEventRecord kind (u32_at 4 bytes) (u64_at 8 bytes) (slice 16 80 bytes)).
End EventRecord.

(** * Shared buffers (shared_buffer.rs) *)

Definition MAX_SHARED_MAPPINGS_PER_PROCESS : nat := 20.
Definition MAX_SHARED_BUFFER_BYTES : Z := 8 * 1024 * 1024.
Definition SHARED_BUFFER_PAGE_BYTES : Z := 4096.
Definition SHARED_BUFFER_ALLOCATE_FLAGS_MASK : Z := 0.
Definition SHARED_WINDOW_BASE : Z := 0x0000500000000000.
Definition SHARED_WINDOW_SLOT_STRIDE : Z := Z.shiftl 16 20.
Definition SHARED_WINDOW_BYTES : Z :=
  SHARED_WINDOW_SLOT_STRIDE * Z.of_nat MAX_SHARED_MAPPINGS_PER_PROCESS.
Definition SHARED_BUFFER_INFO_BYTES : nat := 40.
Definition SHARED_BUFFER_INFO_CALLER_FLAGS_MASK : Z := Z.lor 1 2.

(** [byte_len.div_ceil(SHARED_BUFFER_PAGE_BYTES) as u32] *)
Definition page_count_for_bytes (byte_len : Z) : option Z :=
  if decide (byte_len = 0 ∨ MAX_SHARED_BUFFER_BYTES < byte_len) then None
  else Some (wrap 32 ((byte_len + SHARED_BUFFER_PAGE_BYTES - 1) / SHARED_BUFFER_PAGE_BYTES)).

Definition allocate_flags_valid (flags : Z) : bool :=
  bool_decide (Z.ldiff flags SHARED_BUFFER_ALLOCATE_FLAGS_MASK = 0).

Definition validate_allocate_args (byte_len flags : Z) : bool :=
  allocate_flags_valid flags && bool_decide (is_Some (page_count_for_bytes byte_len)).

Definition shared_window_slot_base (slot : nat) : option Z :=
  if decide (MAX_SHARED_MAPPINGS_PER_PROCESS ≤ slot)%nat then None
  else Some (SHARED_WINDOW_BASE + Z.of_nat slot * SHARED_WINDOW_SLOT_STRIDE).

Record SharedBufferInfo : Type := MkInfo {
  info_id : SharedBufferId;
  info_byte_len : Z;
  info_page_count : Z;
  info_rights_bits : Z;
  info_flags : Z;
  info_mapped_va : Z;
}.

Inductive SharedBufferInfoError : Type :=
| SI_WrongLength | SI_ReservedNonZero | SI_UnknownFlags | SI_InvalidArgument
| SI_InvalidId (e : IdError).

Module BufferInfo.
Definition encode (i : SharedBufferInfo) : list Z :=
  let out := replicate SHARED_BUFFER_INFO_BYTES 0 in
  let out := blit 0 (le_encode 8 (Id.encode (info_id i))) out in
  let out := blit 8 (le_encode 8 (info_byte_len i)) out in
  let out := blit 16 (le_encode 4 (info_page_count i)) out in
  let out := blit 20 (le_encode 4 (info_rights_bits i)) out in
  let out := blit 24 (le_encode 4 (info_flags i)) out in
  blit 32 (le_encode 8 (info_mapped_va i)) out.

Definition decode (bytes : list Z) : result SharedBufferInfoError SharedBufferInfo :=
  if decide (length bytes ≠ SHARED_BUFFER_INFO_BYTES) then Err SI_WrongLength
  else if decide (u32_at 28 bytes ≠ 0) then Err SI_ReservedNonZero
  else
    let flags := u32_at 24 bytes in
    if decide (Z.ldiff flags SHARED_BUFFER_INFO_CALLER_FLAGS_MASK ≠ 0) then Err SI_UnknownFlags
    else
      match Id.decode (u64_at 0 bytes) with
      | Err e => Err (SI_InvalidId e)
      | Ok id =>
          let byte_len := u64_at 8 bytes in
          let page_count := u32_at 16 bytes in
          if decide (MAX_SHARED_BUFFER_BYTES < byte_len ∨
                     page_count_for_bytes byte_len ≠ Some page_count)
          then Err SI_InvalidArgument
          else Ok (MkInfo id byte_len page_count (u32_at 20 bytes) flags (u64_at 32 bytes))
      end.
End BufferInfo.

(** * Identities round-trip *)

Lemma id_new_spec slot g i :
  in_width 16 slot → in_width 32 g → Id.new slot g = Ok i →
  Id.decode (Id.encode i) = Ok i ∧ Id.slot i = slot ∧ Id.generation i = g ∧ in_width 64 i ∧ g ≠ 0.
Proof.
  intros Hs Hg. unfold Id.new. case_decide as H0; [done|]. intros [= <-].
  unfold Id.decode, Id.encode, Id.slot, Id.generation, GENERATION_SHIFT.
  destruct (pack_in_width _ _ Hs Hg) as [Hw Hm].
  rewrite wrap_pack_slot, wrap_pack_generation by done.
  rewrite decide_False by (rewrite Hm; naive_solver). by rewrite decide_False.
Qed.

Lemma id_decode_Ok raw i :
  in_width 64 raw → Id.decode raw = Ok i →
  i = raw ∧ Id.new (Id.slot raw) (Id.generation raw) = Ok raw ∧ Id.generation raw ≠ 0.
Proof.
  intros Hw. unfold Id.decode, Id.new, Id.slot, Id.generation, GENERATION_SHIFT.
  case_decide as Hm; [done|]. case_decide as Hg; [done|]. intros [= <-].
  by rewrite pack_unpack.
Qed.

(** A valid id: what [decode] accepts. *)
Definition id_ok (i : Id.t) : Prop := in_width 64 i ∧ Id.decode i = Ok i.

Lemma id_decode_id raw i : Id.decode raw = Ok i → i = raw.
Proof. unfold Id.decode. repeat case_decide; naive_solver. Qed.

(** Statuses never collide with ids, so one register carries either. *)
Lemma id_not_status i : id_ok i → is_status i = false.
Proof.
  intros [Hw Hd]. apply bool_decide_eq_false. unfold Id.decode in Hd.
  case_decide as Hm; [done|]. apply high_bits_clear in Hm; [|done].
  unfold STATUS_RANGE_START, u64_max, max_of. lia.
Qed.

(** * Record codecs *)

Definition transferred_ok (c : TransferredCap) : Prop :=
  in_width 64 (tc_handle c) ∧ tc_handle c ≠ 0 ∧ in_width 64 (tc_buffer_id c) ∧
  in_width 64 (tc_byte_len c) ∧ in_width 32 (tc_rights c) ∧ is_byte (tc_class c).

Definition envelope_ok (e : TrustedEnvelope) : Prop :=
  id_ok (env_connection e) ∧ in_width 64 (env_pid e) ∧ in_width 64 (env_domain e) ∧
  in_width 64 (env_instance_generation e) ∧ in_width 64 (env_kernel_seq e) ∧
  in_width 32 (env_rights e) ∧
  match env_transfer e with Some c => transferred_ok c | None => True end.

Definition bytes_ok (n : nat) (l : list Z) : Prop := length l = n ∧ Forall is_byte l.

Lemma u64_at_bound off l : Forall is_byte l → (off + 8 ≤ length l)%nat → in_width 64 (u64_at off l).
Proof.
  intros H Hl. pose proof (le_decode_bound (slice off (off + 8) l) (slice_bytes _ _ _ H)) as Hb.
  rewrite length_slice in Hb by done. by replace (off + 8 - off)%nat with 8%nat in Hb by lia.
Qed.

Lemma u32_at_bound off l : Forall is_byte l → (off + 4 ≤ length l)%nat → in_width 32 (u32_at off l).
Proof.
  intros H Hl. pose proof (le_decode_bound (slice off (off + 4) l) (slice_bytes _ _ _ H)) as Hb.
  rewrite length_slice in Hb by done. by replace (off + 4 - off)%nat with 4%nat in Hb by lia.
Qed.

Lemma le_encode_u64_at off l :
  Forall is_byte l → (off + 8 ≤ length l)%nat → le_encode 8 (u64_at off l) = slice off (off + 8) l.
Proof.
  intros H Hl. pose proof (le_encode_decode (slice off (off + 8) l) (slice_bytes _ _ _ H)) as Hb.
  rewrite length_slice in Hb by done. by replace (off + 8 - off)%nat with 8%nat in Hb by lia.
Qed.

Lemma le_encode_u32_at off l :
  Forall is_byte l → (off + 4 ≤ length l)%nat → le_encode 4 (u32_at off l) = slice off (off + 4) l.
Proof.
  intros H Hl. pose proof (le_encode_decode (slice off (off + 4) l) (slice_bytes _ _ _ H)) as Hb.
  rewrite length_slice in Hb by done. by replace (off + 4 - off)%nat with 4%nat in Hb by lia.
Qed.

Lemma envelope_length e : length (Envelope.encode e) = 80%nat.
Proof. unfold Envelope.encode, Envelope.BYTES. destruct (env_transfer e); solve_len. Qed.

(** The fields of an encoded envelope. *)
Lemma envelope_fields e :
  let b := Envelope.encode e in
  slice 0 8 b = le_encode 8 (env_connection e) ∧ slice 8 16 b = le_encode 8 (env_pid e) ∧
  slice 16 24 b = le_encode 8 (env_domain e) ∧
  slice 24 32 b = le_encode 8 (env_instance_generation e) ∧
  slice 32 40 b = le_encode 8 (env_kernel_seq e) ∧ slice 40 44 b = le_encode 4 (env_rights e) ∧
  slice 44 48 b =
    le_encode 4 (match env_transfer e with Some _ => ENVELOPE_TRANSFER_PRESENT | None => 0 end) ∧
  slice 77 80 b = [0; 0; 0] ∧
  match env_transfer e with
  | Some c => slice 48 56 b = le_encode 8 (tc_handle c) ∧
      slice 56 64 b = le_encode 8 (tc_buffer_id c) ∧ slice 64 72 b = le_encode 8 (tc_byte_len c) ∧
      slice 72 76 b = le_encode 4 (tc_rights c) ∧ slice 76 77 b = [tc_class c]
  | None => slice 48 77 b = replicate 29 0
  end.
Proof.
  unfold Envelope.encode, Envelope.BYTES, Id.encode. destruct (env_transfer e) as [c|]; cbv zeta;
    split_and!; read_field; try done; by rewrite slice_replicate by lia.
Qed.

Lemma ldiff_one f : 0 ≤ f → Z.ldiff f 1 = 0 → f = 0 ∨ f = 1.
Proof.
  intros Hf H. assert (f = Z.land f 1) as Hl.
  { apply Z.bits_inj'. intros i Hi. rewrite Z.land_spec.
    assert (Z.testbit (Z.ldiff f 1) i = false) as Hz by (rewrite H; apply Z.bits_0).
    rewrite Z.ldiff_spec in Hz. destruct (Z.testbit f i), (Z.testbit 1 i); done. }
  change 1 with (Z.ones 1) in Hl. rewrite Z.land_ones in Hl by lia. change (2 ^ 1) with 2 in Hl.
  pose proof (Z.mod_pos_bound f 2). lia.
Qed.

Lemma byte_at_slice (l : list Z) i : (i < length l)%nat → slice i (S i) l = [default 0 (l !! i)].
Proof.
  intros Hi. apply list_eq. intros j. rewrite slice_lookup. case_decide as Hj.
  - replace j with 0%nat by lia. rewrite Nat.add_0_r. simpl.
    destruct (lookup_lt_is_Some_2 l i Hi) as [x ->]. done.
  - symmetry. apply lookup_ge_None. simpl. lia.
Qed.

Lemma all_zero (l : list Z) : existsb (λ b, negb (b =? 0)) l = false ↔ l = replicate (length l) 0.
Proof.
  induction l as [|b l IH]; [done|]. simpl. rewrite orb_false_iff, IH, negb_false_iff, Z.eqb_eq.
  split; [by intros [-> H]; f_equal|]. intros [= -> H]. done.
Qed.

Lemma envelope_decode_encode e :
  envelope_ok e → Envelope.decode (Envelope.encode e) = Ok e.
Proof.
  intros (Hid & H1 & H2 & H3 & H4 & H5 & Ht). destruct (envelope_fields e)
    as (F0 & F1 & F2 & F3 & F4 & F5 & F6 & F7 & F8).
  destruct Hid as [Hw Hd]. unfold Envelope.decode, u64_at, u32_at. cbn [Nat.add].
  rewrite F0, F1, F2, F3, F4, F5, F6, F7, !le_u64, (le_u32 (env_rights e)) by done.
  rewrite Hd.
  rewrite (decide_False (P := [0; 0; 0] ≠ [0; 0; 0])) by naive_solver.
  destruct (env_transfer e) as [t|] eqn:Et.
  - destruct F8 as (G0 & G1 & G2 & G3 & G4), Ht as (T0 & T0' & T1 & T2 & T3 & T4).
    rewrite le_u32 by (vm_compute; split; [discriminate|reflexivity]).
    rewrite decide_False by (vm_compute; naive_solver). rewrite bool_decide_eq_true_2 by done.
    rewrite !slice_slice by lia. cbn [Nat.add]. rewrite G0, G1, G2, G3, !le_u64, le_u32 by done.
    rewrite decide_False by done. rewrite slice_lookup, decide_True by lia. cbn [Nat.add].
    rewrite byte_at_slice in G4 by (rewrite envelope_length; lia). injection G4 as ->.
    destruct e, t; simpl in *; congruence.
  - rewrite le_u32 by (vm_compute; split; [discriminate|reflexivity]).
    rewrite decide_False by (vm_compute; naive_solver). rewrite bool_decide_eq_false_2 by naive_solver.
    rewrite F8. destruct e; simpl in *; congruence.
Qed.

(** The wire form is canonical: only one byte string decodes to an envelope. *)
Lemma envelope_encode_decode b e :
  bytes_ok 80 b → Envelope.decode b = Ok e → Envelope.encode e = b ∧ envelope_ok e.
Proof.
  intros [Hlen Hb]. unfold Envelope.decode.
  destruct (Id.decode (u64_at 0 b)) as [i|] eqn:Hid; [|done].
  pose proof (id_decode_id _ _ Hid) as ->.
  case_decide as Hfl; [done|]. case_decide as Hres; [done|].
  assert (in_width 32 (u32_at 44 b)) as Hfw by (apply u32_at_bound; [done|lia]).
  apply ldiff_one in Hfl; [|by destruct Hfw].
  assert (∀ off, (off + 8 ≤ 80)%nat → in_width 64 (u64_at off b)) as W64
    by (intros; apply u64_at_bound; [done|lia]).
  assert (∀ off, (off + 4 ≤ 80)%nat → in_width 32 (u32_at off b)) as W32
    by (intros; apply u32_at_bound; [done|lia]).
  assert (∀ off, (off + 8 ≤ 80)%nat → le_encode 8 (u64_at off b) = slice off (off + 8) b) as E64
    by (intros; apply le_encode_u64_at; [done|lia]).
  assert (∀ off, (off + 4 ≤ 80)%nat → le_encode 4 (u32_at off b) = slice off (off + 4) b) as E32
    by (intros; apply le_encode_u32_at; [done|lia]).
  assert (∀ off, (off + 8 ≤ 29)%nat → u64_at off (slice 48 77 b) = u64_at (48 + off) b) as S64.
  { intros off Ho. unfold u64_at. rewrite slice_slice by lia. by rewrite Nat.add_assoc. }
  assert (u32_at 24 (slice 48 77 b) = u32_at 72 b) as S32
    by (unfold u32_at; by rewrite slice_slice by lia).
  rewrite !S64, S32 by lia. cbn [Nat.add].
  rewrite slice_lookup, (decide_True (P := (28 < 77 - 48)%nat)) by lia. cbn [Nat.add].
  set (e0 := MkEnvelope (u64_at 0 b) (u64_at 8 b) (u64_at 16 b) (u64_at 24 b) (u64_at 32 b)
    (u32_at 40 b)).
  assert (∀ t, match t with Some c => transferred_ok c | None => True end → envelope_ok (e0 t)) as Hok.
  { intros t Ht. unfold envelope_ok, id_ok. simpl. split_and!; auto; apply W64 || apply W32; lia. }
  case_bool_decide as Hp.
  - assert (u32_at 44 b = 1) as Hf by (destruct Hfl as [Hf|]; [by rewrite Hf in Hp|done]).
    case_decide as Hh; [done|]. intros [= <-].
    set (t := MkTransferred _ _ _ _ _). split.
    + destruct (envelope_fields (e0 (Some t))) as (F0 & F1 & F2 & F3 & F4 & F5 & F6 & F7 & G0 & G1 & G2 & G3 & G4).
      apply (list_eq_by_slices [8; 16; 24; 32; 40; 44; 48; 56; 64; 72; 76; 77; 80]%nat);
        rewrite ?envelope_length; [done|done|].
      cbn [same_slices]. rewrite F0, F1, F2, F3, F4, F5, F6, F7, G0, G1, G2, G3, G4. simpl env_transfer.
      cbv iota. unfold ENVELOPE_TRANSFER_PRESENT. rewrite <- Hf. simpl.
      rewrite (byte_at_slice b 76) by lia. split_and!;
      lazymatch goal with
      | |- le_encode 8 _ = _ => apply E64; lia
      | |- le_encode 4 _ = _ => apply E32; lia
      | |- _ => done
      end.
    + apply Hok. unfold transferred_ok. simpl. split_and!; auto; try (apply W64 || apply W32; lia).
      destruct (lookup_lt_is_Some_2 b 76 ltac:(lia)) as [x Hx]. rewrite Hx. simpl.
      rewrite Forall_lookup in Hb. eauto.
  - assert (u32_at 44 b = 0) as Hf by (destruct Hfl as [|Hf]; [done|rewrite Hf in Hp; naive_solver]).
    destruct (existsb _ _) eqn:Hz; [done|]. apply all_zero in Hz.
    rewrite length_slice in Hz by lia. intros [= <-]. split; [|by apply Hok].
    destruct (envelope_fields (e0 None)) as (F0 & F1 & F2 & F3 & F4 & F5 & F6 & F7 & G).
    apply (list_eq_by_slices [8; 16; 24; 32; 40; 44; 48; 77; 80]%nat);
      rewrite ?envelope_length; [done|done|].
    cbn [same_slices]. rewrite F0, F1, F2, F3, F4, F5, F6, F7, G. simpl env_transfer.
    cbv iota. pose proof (E32 44%nat ltac:(lia)) as E44. rewrite Hf in E44.
    rewrite E44, Hz, Hres. split_and!;
      lazymatch goal with
      | |- le_encode 8 _ = _ => apply E64; lia
      | |- le_encode 4 _ = _ => apply E32; lia
      | |- _ => done
      end.
Qed.

Definition recv_ok (r : PortRecvRecord) : Prop :=
  in_width 32 (rr_reason r) ∧ envelope_ok (rr_envelope r) ∧ bytes_ok 64 (rr_frame r).

Lemma recv_fields r :
  length (rr_frame r) = 64%nat →
  let b := RecvRecord.encode r in
  length b = 152%nat ∧ slice 0 4 b = le_encode 4 (recv_kind_u32 (rr_kind r)) ∧
  slice 4 8 b = le_encode 4 (rr_reason r) ∧ slice 8 88 b = Envelope.encode (rr_envelope r) ∧
  slice 88 152 b = rr_frame r.
Proof.
  intros Hf b. subst b. unfold RecvRecord.encode, RecvRecord.BYTES. cbv zeta.
  pose proof (envelope_length (rr_envelope r)) as He. set (eb := Envelope.encode _) in *.
  set (b0 := blit 4 _ _).
  assert (length b0 = 152%nat) as L0 by (unfold b0; solve_len).
  assert (slice 0 4 b0 = le_encode 4 (recv_kind_u32 (rr_kind r)) ∧
    slice 4 8 b0 = le_encode 4 (rr_reason r)) as [S0 S1] by (unfold b0; split; read_field; done).
  split_and!.
  - by rewrite !length_blit.
  - by rewrite !slice_blit_ne by (rewrite ?length_blit; lia).
  - by rewrite !slice_blit_ne by (rewrite ?length_blit; lia).
  - rewrite slice_blit_ne by (rewrite ?length_blit; lia). by rewrite slice_blit_eq by lia.
  - by rewrite slice_blit_eq by (rewrite ?length_blit; lia).
Qed.

Lemma recv_kind_codec k : recv_kind_from_u32 (recv_kind_u32 k) = Some k ∧ in_width 32 (recv_kind_u32 k).
Proof. destruct k; split; done. Qed.

Lemma recv_kind_inv raw k : recv_kind_from_u32 raw = Some k → recv_kind_u32 k = raw.
Proof.
  unfold recv_kind_from_u32. intros H.
  repeat (match goal with H : match ?x with _ => _ end = Some _ |- _ => destruct x end;
          try discriminate); injection H as <-; done.
Qed.

Ltac solve_bytes :=
  repeat match goal with
  | |- Forall is_byte (blit _ _ _) => apply blit_bytes
  | |- Forall is_byte (le_encode _ _) => apply le_encode_bytes
  | |- Forall is_byte (replicate _ _) => apply Forall_replicate; split; lia
  | |- Forall is_byte [_] => apply Forall_singleton
  | |- Forall is_byte _ => assumption
  end.

Lemma envelope_bytes e : envelope_ok e → Forall is_byte (Envelope.encode e).
Proof.
  intros (_ & _ & _ & _ & _ & _ & Ht). unfold Envelope.encode. cbv zeta.
  destruct (env_transfer e) as [c|]; solve_bytes. by destruct Ht as (_ & _ & _ & _ & _ & ?).
Qed.

(** The record the kernel hands a server on [RECV] survives the wire, both ways: decoding
    an encoded record gives it back, and a 152-byte string that decodes is the one and only
    encoding of the record it decodes to, whose fields are all in range. *)
Theorem recv_record_codec r b :
  (recv_ok r → bytes_ok 152 (RecvRecord.encode r) ∧ RecvRecord.decode (RecvRecord.encode r) = Ok r) ∧
  (bytes_ok 152 b → RecvRecord.decode b = Ok r → RecvRecord.encode r = b ∧ recv_ok r).
Proof.
  split.
  - intros (H1 & H2 & H3 & H3'). destruct (recv_fields r H3) as (Hl & F0 & F1 & F2 & F3).
    split.
    { split; [done|]. pose proof (envelope_bytes _ H2). unfold RecvRecord.encode. cbv zeta.
      solve_bytes. }
    unfold RecvRecord.decode, u32_at. cbn [Nat.add]. rewrite F0, F1, F2, F3.
    destruct (recv_kind_codec (rr_kind r)) as [Hk Hw]. rewrite !le_u32, Hk by done. simpl.
    rewrite envelope_decode_encode by done. by destruct r.
  - intros [Hl Hb]. unfold RecvRecord.decode.
    destruct (recv_kind_from_u32 _) as [k|] eqn:Hk; [|done]. simpl.
    destruct (Envelope.decode (slice 8 88 b)) as [e|] eqn:He; [|done]. intros [= <-].
    apply recv_kind_inv in Hk.
    assert (bytes_ok 80 (slice 8 88 b)) as He8 by (split; [rewrite length_slice; lia|auto with cs]).
    apply envelope_encode_decode in He as [He Hok]; [|done].
    assert (length (slice 88 152 b) = 64%nat) as Hfr by (rewrite length_slice; lia).
    split; [|split_and!; simpl; [apply u32_at_bound; [done|lia]|done|split; auto with cs]].
    destruct (recv_fields (MkRecv k (u32_at 4 b) e (slice 88 152 b)) Hfr) as (Hl' & F0 & F1 & F2 & F3).
    apply (list_eq_by_slices [4; 8; 88; 152]%nat); rewrite ?Hl'; [done|done|].
    cbn [same_slices]. rewrite F0, F1, F2, F3. simpl. rewrite Hk, He.
    split_and!;
      lazymatch goal with
      | |- le_encode 4 _ = _ => apply le_encode_u32_at; [done|lia]
      | |- _ => done
      end.
Qed.

Lemma recv_record_codec_witness :
  let e := MkEnvelope 65538 5 5 1 9 16384 (Some (MkTransferred 65539 65537 4096 1 7)) in
  let r := MkRecv RK_Request 0 e (replicate 64 7) in
  RecvRecord.decode (RecvRecord.encode r) = Ok r.
Proof.
  intros e r. apply (proj1 (recv_record_codec r [])).
  unfold recv_ok, envelope_ok, id_ok, transferred_ok, bytes_ok, in_width, is_byte. simpl.
  split_and!; try lia; try reflexivity; try (vm_compute; reflexivity).
  repeat constructor; simpl; lia.
Defined.
