(* ===== verification/PortEngine.v ===== *)
(** The service-port engine: [port/src/lib.rs], [effects.rs], [transfer.rs] and
    [engine.rs], the state machine behind the [SERVICE_PORT] syscall.

    [PortCore] is the registry of ports and the pool of connections; the operations of the
    source that take [&mut self], [&mut CapabilityTable] and [&mut Effects] thread all
    three as one [World]. [B] is the caller's work-set binding type. *)

From Stdlib Require Import ZArith Lia.
From stdpp Require Import base list tactics decidable numbers.
From S2P Require Import Prelude Bytes CapTypes CapTable CapTree NativeAbi.

Local Open Scope Z_scope.

(** * Identities and errors (lib.rs) *)

Record PortKey : Type := MkKey { pk_slot : Z; pk_generation : Z }.

#[export] Instance PortKey_eq_dec : EqDecision PortKey.
Proof. solve_decision. Defined.

(** [slot << 32 | generation] *)
Definition port_key_raw (k : PortKey) : Z := Z.lor (Z.shiftl (pk_slot k) 32) (pk_generation k).

Record Caller : Type := MkCaller {
  cl_holder : HolderId;
  cl_generation : Z;
  cl_domain : Z;
}.

Definition is_process (c : Caller) : bool :=
  negb (bool_decide (cl_holder c = KERNEL)) && negb (bool_decide (cl_generation c = 0)).

Inductive PortError : Type :=
| P_Invalid | P_Denied | P_Stale | P_NoSpace | P_WouldBlock | P_PeerClosed | P_Refused.

#[export] Instance PortError_eq_dec : EqDecision PortError.
Proof. solve_decision. Defined.

Definition port_error_status (e : PortError) : Z :=
  match e with
  | P_Invalid => STATUS_EINVAL
  | P_Denied => STATUS_EACCES
  | P_Stale => STATUS_ESTALE
  | P_NoSpace => STATUS_ENOSPC
  | P_WouldBlock => STATUS_EAGAIN
  | P_PeerClosed => STATUS_EPIPE
  | P_Refused => STATUS_ECONNREFUSED
  end.

(** * Effects (effects.rs) *)

Inductive Effect (B : Type) : Type :=
| WakeServer (k : PortKey)
| WakeSendSpace (k : PortKey)
| WakeConnection (c : ConnectionId)
| Signal (b : B) (bit : Z).
Arguments WakeServer {B} k.
Arguments WakeSendSpace {B} k.
Arguments WakeConnection {B} c.
Arguments Signal {B} b bit.

#[export] Instance Effect_eq_dec {B} `{EqDecision B} : EqDecision (Effect B).
Proof. unfold ConnectionId, Id.t in *. solve_decision. Defined.

Definition EFFECTS_CAPACITY : nat := 32.
Definition REVOKED_TRANSFERS_CAPACITY : nat := 16.

(** The filled prefixes of the two arrays. *)
Record Effects (B : Type) : Type := MkEffects {
  items : list (Effect B);
  revoked : list ResourceRef;
  overflowed : bool;
}.
Arguments MkEffects {B} items revoked overflowed.
Arguments items {B} _.
Arguments revoked {B} _.
Arguments overflowed {B} _.

Definition effects_new {B : Type} : Effects B := MkEffects [] [] false.

Definition push {B : Type} `{EqDecision B} (e : Effects B) (x : Effect B) : Effects B :=
  if existsb (λ y, bool_decide (y = x)) (items e) then e
  else if decide (length (items e) < EFFECTS_CAPACITY)%nat
  then MkEffects (items e ++ [x]) (revoked e) (overflowed e)
  else MkEffects (items e) (revoked e) true.

Definition note_revoked {B : Type} (e : Effects B) (r : ResourceRef) : Effects B :=
  if existsb (λ y, bool_decide (y = r)) (revoked e) then e
  else if decide (length (revoked e) < REVOKED_TRANSFERS_CAPACITY)%nat
  then MkEffects (items e) (revoked e ++ [r]) (overflowed e)
  else MkEffects (items e) (revoked e) true.

(** * Capability transfer (transfer.rs) *)

(** A capability offered with a SEND and the verdict of the shared-buffer attestation. *)
Record Transfer : Type := MkTransfer {
  tr_handle : CapabilityHandle;
  tr_attestation : result Z (SharedBufferId * Z);
}.

Definition TRANSFER_CHILD_RIGHTS : Rights := RightsOps.READ.

Record ValidatedTransfer : Type := MkValidated {
  vt_parent : CapabilityRecord;
  vt_provenance : Provenance;
  vt_buffer : SharedBufferId;
  vt_byte_len : Z;
}.

Definition capability_error (e : CapabilityError) : PortError :=
  match e with
  | InvalidHandle | InvalidRights => P_Invalid
  | StaleHandle | Revoked_err => P_Stale
  | UnauthorizedHolder | WrongResource | MissingRight | RightsWidening | NotDelegable => P_Denied
  | DelegationDepthExceeded | CapacityExhausted | GenerationExhausted => P_NoSpace
  end.

Definition attestation_error (status : Z) : PortError :=
  if decide (status = STATUS_EINVAL) then P_Invalid
  else if decide (status = STATUS_EACCES) then P_Denied
  else if decide (status = STATUS_ENOSPC) then P_NoSpace
  else P_Stale.

Definition validate (t : CapabilityTable) (sender : HolderId) (tr : Transfer)
  : result PortError ValidatedTransfer :=
  let handle := tr_handle tr in
  let? par := map_err capability_error (Table.record t handle) in
  if decide (holder par ≠ sender ∨ class (resource par) ≠ SharedBuffer) then Err P_Denied
  else
    let? _ := map_err capability_error
                (validate_delegation par handle sender TRANSFER_CHILD_RIGHTS) in
    let? buffer := map_err (λ _, P_Invalid) (Id.decode (id (resource par))) in
    let? (attested, byte_len) := map_err attestation_error (tr_attestation tr) in
    if decide (attested ≠ buffer) then Err P_Stale
    else
      let? prov := map_err capability_error (ProvenanceOps.child_of handle (provenance par)) in
      Ok (MkValidated par prov buffer byte_len).

Definition has_installable_slot (t : CapabilityTable) : bool :=
  existsb (λ slot, bool_decide (Table.state_at t slot = Empty) &&
                   negb (bool_decide (generation (Table.record_at t slot) = u32_max)))
    (seq 0 (Table.capacity t)).

Definition install_validated (t : CapabilityTable) (server : HolderId) (v : ValidatedTransfer)
  : CapabilityTable * result PortError TransferredCap :=
  match Table.install t (MkRecord Live server (resource (vt_parent v)) TRANSFER_CHILD_RIGHTS
                           (vt_provenance v) 0) with
  | (t, Err e) => (t, Err (capability_error e))
  | (t, Ok child) =>
      (t, Ok (MkTransferred (Handle.encode child) (Id.encode (vt_buffer v)) (vt_byte_len v)
                TRANSFER_CHILD_RIGHTS (ResourceClassOps.as_u8 SharedBuffer)))
  end.

Definition install_child (t : CapabilityTable) (server : HolderId) (v : ValidatedTransfer)
  : CapabilityTable * result PortError TransferredCap :=
  if has_installable_slot t then install_validated t server v
  else
    let t := fst (release_revoked t) in
    if has_installable_slot t then install_validated t server v else (t, Err P_NoSpace).

Definition release_child {B : Type} (t : CapabilityTable) (child : TransferredCap)
    (e : Effects B) : CapabilityTable * Effects B :=
  match Handle.decode (tc_handle child) with
  | Err _ => (t, e)
  | Ok handle =>
      match Table.record t handle with
      | Err _ => (t, e)
      | Ok rec =>
          let slot := Z.to_nat (h_slot handle) in
          let t := fst (Table.revoke_slot t slot) in
          let t := fst (Table.release_slot t slot) in
          (t, note_revoked e (resource rec))
      end
  end.

(** * Engine data (engine.rs) *)

Definition Frame : Type := list Z.

(** [ConnectionId::new(0, 1)] *)
Definition PLACEHOLDER_CONNECTION : ConnectionId := 65536.

Inductive RegistrationError : Type :=
| ClassHasNoPort | ParamsError (e : PortParamError) | AlreadyRegistered | RegistryFull
| ServerNotLive.

Record WakeBinding (B : Type) : Type := MkWake { wk_target : B; request_bit : Z; notice_bit : Z }.
Arguments MkWake {B} wk_target request_bit notice_bit.
Arguments wk_target {B} _.
Arguments request_bit {B} _.
Arguments notice_bit {B} _.

Record PortReleaseCounts : Type := MkReleased { served_ports : nat; client_connections : nat }.
Record HolderPortCounts : Type := MkHolderCounts { ports_served : nat; port_connections : nat }.
Record PortCounts : Type := MkCounts {
  count_ports : nat;
  count_connections : nat;
  count_queued_requests : nat;
  count_queued_events : Z;
  count_undelivered_transfers : nat;
}.

Record Request : Type := MkRequest {
  rq_seq : Z;
  rq_connection : ConnectionId;
  rq_pid : Z;
  rq_domain : Z;
  rq_generation : Z;
  rq_rights : Z;
  rq_transfer : option TransferredCap;
  rq_frame : Frame;
}.

Definition Request_EMPTY : Request :=
  MkRequest 0 PLACEHOLDER_CONNECTION 0 0 0 0 None (replicate PORT_FRAME_BYTES 0).

Definition rq_live (r : Request) : bool := negb (bool_decide (rq_seq r = 0)).

Record Event : Type := MkEvent { ev_seq : Z; ev_frame : Frame }.
Definition Event_EMPTY : Event := MkEvent 0 (replicate PORT_FRAME_BYTES 0).

Inductive ConnState : Type :=
| Free
| Open
| ClosePending (kind : RecvKind) (reason : Z)
| ServerClosed (reason : Z)
| ServerGone.

#[export] Instance ConnState_eq_dec : EqDecision ConnState.
Proof. solve_decision. Defined.

Record Connection : Type := MkConn {
  cn_generation : Z;          (* u32 *)
  cn_state : ConnState;
  cn_port : PortKey;
  cn_client : HolderId;
  cn_client_generation : Z;
  cn_client_domain : Z;
  cn_client_cap : CapabilityHandle;
  cn_outstanding : Z;         (* u16 *)
  cn_transfers : Z;           (* u8 *)
  cn_close_seq : Z;
  cn_event_head : nat;        (* u8 *)
  cn_event_len : nat;         (* u8 *)
  cn_events : list Event;
}.

Definition NO_PORT : PortKey := MkKey 0 0.

Definition Connection_EMPTY : Connection :=
  MkConn 0 Free NO_PORT KERNEL 0 0 Handle.INVALID 0 0 0 0 0
    (replicate PORT_MAX_EVENT_QUEUE_DEPTH Event_EMPTY).

Definition clear_events (c : Connection) : Connection :=
  MkConn (cn_generation c) (cn_state c) (cn_port c) (cn_client c) (cn_client_generation c)
    (cn_client_domain c) (cn_client_cap c) (cn_outstanding c) (cn_transfers c) (cn_close_seq c)
    0 0 (cn_events c).

Definition push_event (seqno : Z) (frame : Frame) (c : Connection) : Connection :=
  let index := ((cn_event_head c + cn_event_len c) mod PORT_MAX_EVENT_QUEUE_DEPTH)%nat in
  MkConn (cn_generation c) (cn_state c) (cn_port c) (cn_client c) (cn_client_generation c)
    (cn_client_domain c) (cn_client_cap c) (cn_outstanding c) (cn_transfers c) (cn_close_seq c)
    (cn_event_head c) (S (cn_event_len c)) (<[index := MkEvent seqno frame]> (cn_events c)).

Definition pop_event (c : Connection) : Connection * option Event :=
  if decide (cn_event_len c = 0%nat) then (c, None)
  else
    let event := default Event_EMPTY (cn_events c !! cn_event_head c) in
    (MkConn (cn_generation c) (cn_state c) (cn_port c) (cn_client c) (cn_client_generation c)
       (cn_client_domain c) (cn_client_cap c) (cn_outstanding c) (cn_transfers c)
       (cn_close_seq c) ((cn_event_head c + 1) mod PORT_MAX_EVENT_QUEUE_DEPTH)%nat
       (cn_event_len c - 1)%nat (cn_events c), Some event).

(** Assignments to the fields of a connection. *)
Definition set_counts (o tr : Z) (c : Connection) : Connection :=
  MkConn (cn_generation c) (cn_state c) (cn_port c) (cn_client c) (cn_client_generation c)
    (cn_client_domain c) (cn_client_cap c) o tr (cn_close_seq c)
    (cn_event_head c) (cn_event_len c) (cn_events c).

Definition set_closed (seqno : Z) (s : ConnState) (c : Connection) : Connection :=
  MkConn (cn_generation c) s (cn_port c) (cn_client c) (cn_client_generation c)
    (cn_client_domain c) (cn_client_cap c) (cn_outstanding c) (cn_transfers c) seqno
    (cn_event_head c) (cn_event_len c) (cn_events c).

Record Port (B : Type) : Type := MkPort {
  pt_generation : Z;          (* u32 *)
  pt_live : bool;
  pt_resource : ResourceRef;
  pt_rights : PortRights;
  pt_server : HolderId;
  pt_server_generation : Z;
  pt_params : PortParams;
  pt_next_seq : Z;
  pt_transfers : Z;           (* u8 *)
  pt_wake : option (WakeBinding B);
  pt_requests : list Request;
}.
Arguments MkPort {B} _ _ _ _ _ _ _ _ _ _ _.
Arguments pt_generation {B} _.
Arguments pt_live {B} _.
Arguments pt_resource {B} _.
Arguments pt_rights {B} _.
Arguments pt_server {B} _.
Arguments pt_server_generation {B} _.
Arguments pt_params {B} _.
Arguments pt_next_seq {B} _.
Arguments pt_transfers {B} _.
Arguments pt_wake {B} _.
Arguments pt_requests {B} _.

Definition Port_EMPTY {B : Type} : Port B :=
  MkPort 0 false (Resource.graphics 0 0) (MkPortRights RightsOps.empty RightsOps.empty) KERNEL 0
    (MkParams 0 0 0 0 0) 0 0 None (replicate PORT_MAX_REQUEST_QUEUE_DEPTH Request_EMPTY).

Definition queued_requests {B : Type} (p : Port B) : nat := count_if rq_live (pt_requests p).

(** [Port::next_seq]: the number to use, and the port with the next one. *)
Definition bump_seq {B : Type} (p : Port B) : Port B :=
  MkPort (pt_generation p) (pt_live p) (pt_resource p) (pt_rights p) (pt_server p)
    (pt_server_generation p) (pt_params p) (Z.max (wrapping_add 64 (pt_next_seq p) 1) 1)
    (pt_transfers p) (pt_wake p) (pt_requests p).

Definition set_queue {B : Type} (tr : Z) (rs : list Request) (p : Port B) : Port B :=
  MkPort (pt_generation p) (pt_live p) (pt_resource p) (pt_rights p) (pt_server p)
    (pt_server_generation p) (pt_params p) (pt_next_seq p) tr (pt_wake p) rs.

Definition set_wake {B : Type} (w : option (WakeBinding B)) (p : Port B) : Port B :=
  MkPort (pt_generation p) (pt_live p) (pt_resource p) (pt_rights p) (pt_server p)
    (pt_server_generation p) (pt_params p) (pt_next_seq p) (pt_transfers p) w (pt_requests p).

Record PortCore (B : Type) : Type := MkCore {
  ports : list (Port B);
  connections : list Connection;
}.
Arguments MkCore {B} ports connections.
Arguments ports {B} _.
Arguments connections {B} _.

Record World (B : Type) : Type := MkWorld {
  core : PortCore B;
  table : CapabilityTable;
  effects : Effects B;
}.
Arguments MkWorld {B} core table effects.
Arguments core {B} _.
Arguments table {B} _.
Arguments effects {B} _.

(** The messages of [check_invariants]. *)
Inductive Violation : Type :=
| DeadPortHoldsRequests (index : nat) | PoolOverDepth (index : nat)
| PortInFlight (index : nat) (transfers : Z) | HoldsRequests (index : nat)
| OutstandingMismatch (index : nat) | InFlightMismatch (index : nat)
| OverLimits (index : nat) | BoundToDeadPort (index : nat).

(** * The engine (engine.rs) *)

Module Core.
Section engine.
Context {B : Type} `{EqDecision B}.
Implicit Types (c : PortCore B) (w : World B).

(** [PortCore::new] asserts these bounds at compile time. *)
Definition sizes_ok (PORTS CONNS : nat) : bool :=
  bool_decide (0 < Z.of_nat PORTS ∧ Z.of_nat PORTS ≤ u8_max ∧
               0 < Z.of_nat CONNS ∧ Z.of_nat CONNS ≤ u16_max ∧
               (4 * PORTS + CONNS ≤ EFFECTS_CAPACITY)%nat ∧
               Z.of_nat PORTS * PORT_MAX_TRANSFERS_IN_FLIGHT ≤ Z.of_nat REVOKED_TRANSFERS_CAPACITY).

Definition new (PORTS CONNS : nat) : PortCore B :=
  MkCore (replicate PORTS Port_EMPTY) (replicate CONNS Connection_EMPTY).

(** [self.ports[i]] and [self.connections[i]], and assignments through [&mut]. *)
Definition port_at c (i : nat) : Port B := default Port_EMPTY (ports c !! i).
Definition conn_at c (i : nat) : Connection := default Connection_EMPTY (connections c !! i).

Definition upd_port (i : nat) (f : Port B → Port B) c : PortCore B :=
  MkCore (alter f i (ports c)) (connections c).
Definition upd_conn (i : nat) (f : Connection → Connection) c : PortCore B :=
  MkCore (ports c) (alter f i (connections c)).

Definition with_core (f : PortCore B → PortCore B) w : World B :=
  MkWorld (f (core w)) (table w) (effects w).
Definition emit (x : Effect B) w : World B := MkWorld (core w) (table w) (push (effects w) x).

(** ** Internals *)

(** [index as u8]; the registry has at most 255 slots. *)
Definition key c (index : nat) : PortKey :=
  MkKey (wrap 8 (Z.of_nat index)) (pt_generation (port_at c index)).

Definition port_index c (k : PortKey) : option nat :=
  let index := Z.to_nat (pk_slot k) in
  match ports c !! index with
  | None => None
  | Some p =>
      if pt_live p && bool_decide (pt_generation p = pk_generation k) then Some index else None
  end.

Definition port_for c (cls : ResourceClass) (i : Z) : option nat :=
  position (λ p, pt_live p && bool_decide (class (pt_resource p) = cls) &&
                 bool_decide (id (pt_resource p) = i)) (ports c).

Definition connection_id c (index : nat) : ConnectionId :=
  unwrap_or (Id.new (wrap 16 (Z.of_nat index)) (cn_generation (conn_at c index)))
    PLACEHOLDER_CONNECTION.

Definition connection_index c (raw : Z) : result PortError nat :=
  let? i := map_err (λ _, P_Invalid) (Id.decode raw) in
  let index := Z.to_nat (Id.slot i) in
  match connections c !! index with
  | None => Err P_Stale
  | Some conn =>
      if decide (cn_state conn = Free ∨ cn_generation conn ≠ Id.generation i) then Err P_Stale
      else Ok index
  end.

Definition client_connection c (caller : Caller) (raw : Z) : result PortError nat :=
  if negb (is_process caller) then Err P_Denied
  else
    let? index := connection_index c raw in
    let conn := conn_at c index in
    if decide (cn_client conn ≠ cl_holder caller) then Err P_Denied
    else if decide (cn_client_generation conn ≠ cl_generation caller) then Err P_Stale
    else Ok index.

Definition served_connection c (pidx : nat) (raw : Z) : result PortError nat :=
  let? index := connection_index c raw in
  if decide (cn_port (conn_at c index) ≠ key c pidx) then Err P_Stale else Ok index.

Definition connection_port c (index : nat) : result PortError nat :=
  ok_or (port_index c (cn_port (conn_at c index))) P_Stale.

Definition authorize_serve c (t : CapabilityTable) (caller : Caller) (serve : Z)
  : result PortError nat :=
  let? handle := map_err (λ _, P_Invalid) (Handle.decode serve) in
  let? rec := map_err capability_error (Table.record t handle) in
  match position (λ p, pt_live p && bool_decide (pt_resource p = resource rec)) (ports c) with
  | None =>
      match port_for c (class (resource rec)) (id (resource rec)) with
      | Some _ => Err P_Stale
      | None => Err P_Denied
      end
  | Some index =>
      let p := port_at c index in
      if negb (is_process caller) || negb (bool_decide (cl_holder caller = pt_server p)) ||
         negb (bool_decide (cl_generation caller = pt_server_generation p))
      then Err P_Denied
      else
        let? _ := map_err capability_error
          (Table.authorize t (cl_holder caller) handle (pt_resource p)
             (serve_right (pt_rights p))) in
        Ok index
  end.

Definition free_connection (index : nat) c : PortCore B :=
  upd_conn index (λ conn,
    MkConn (cn_generation conn) Free NO_PORT KERNEL 0 0 Handle.INVALID 0 0 0 0 0
      (cn_events conn)) c.

Definition consume_terminal (index : nat) w : World B :=
  let i := connection_id (core w) index in
  emit (WakeConnection i) (with_core (free_connection index) w).

(** The loop of [purge_connection] over the request array: what is left of it, the port's
    transfer count, the table and the effects. *)
Fixpoint purge_requests (i : ConnectionId) (rs : list Request) (tr : Z) (t : CapabilityTable)
    (e : Effects B) : list Request * Z * CapabilityTable * Effects B :=
  match rs with
  | [] => ([], tr, t, e)
  | r :: rs =>
      if negb (rq_live r) || negb (bool_decide (rq_connection r = i)) then
        let '(rs, tr, t, e) := purge_requests i rs tr t e in (r :: rs, tr, t, e)
      else
        let '(t, e, tr) :=
          match rq_transfer r with
          | Some child => let '(t, e) := release_child t child e in (t, e, saturating_sub tr 1)
          | None => (t, e, tr)
          end in
        let '(rs, tr, t, e) := purge_requests i rs tr t e in (Request_EMPTY :: rs, tr, t, e)
  end.

Definition purge_connection (pidx index : nat) w : World B :=
  let c := core w in
  let p := port_at c pidx in
  let '(rs, tr, t, e) :=
    purge_requests (connection_id c index) (pt_requests p) (pt_transfers p) (table w) (effects w) in
  MkWorld (upd_conn index (set_counts 0 0) (upd_port pidx (set_queue tr rs) c)) t e.

Definition close_pending (index : nat) (kind : RecvKind) (reason : Z) w : World B :=
  match port_index (core w) (cn_port (conn_at (core w) index)) with
  | None => w
  | Some pidx =>
      let w := purge_connection pidx index w in
      let p := port_at (core w) pidx in
      let seqno := pt_next_seq p in
      let w := with_core (upd_port pidx bump_seq) w in
      let w := with_core (upd_conn index (λ conn,
                 set_closed seqno (ClosePending kind reason) (clear_events conn))) w in
      let k := key (core w) pidx in
      let w := emit (WakeServer k) w in
      let w := match pt_wake p with
               | Some wk => emit (Signal (wk_target wk) (notice_bit wk)) w
               | None => w
               end in
      let w := emit (WakeSendSpace k) w in
      emit (WakeConnection (connection_id (core w) index)) w
  end.

Definition reauthorize_client (index pidx : nat) w : World B * result PortError Z :=
  let conn := conn_at (core w) index in
  let p := port_at (core w) pidx in
  match Table.authorize (table w) (cn_client conn) (cn_client_cap conn) (pt_resource p)
          (connect_right (pt_rights p)) with
  | Ok rec => (w, Ok (rights rec))
  | Err (Revoked_err | StaleHandle) =>
      (close_pending index RK_ClientRevoked 0 w, Err P_Stale)
  | Err _ => (w, Err P_Denied)
  end.

(** The two loops of [teardown_port]. *)
Fixpoint drain_requests (rs : list Request) (t : CapabilityTable) (e : Effects B)
  : CapabilityTable * Effects B :=
  match rs with
  | [] => (t, e)
  | r :: rs =>
      let '(t, e) :=
        match rq_transfer r with
        | Some child => if rq_live r then release_child t child e else (t, e)
        | None => (t, e)
        end in
      drain_requests rs t e
  end.

Definition teardown_connection (pidx : nat) (k : PortKey) (index : nat) w : World B :=
  let conn := conn_at (core w) index in
  if decide (cn_state conn = Free ∨ cn_port conn ≠ k) then w
  else
    match cn_state conn with
    | Open | ServerClosed _ =>
        let seqno := pt_next_seq (port_at (core w) pidx) in
        let w := with_core (upd_port pidx bump_seq) w in
        let w := with_core (upd_conn index (λ conn,
                   set_closed seqno ServerGone (set_counts 0 0 (clear_events conn)))) w in
        emit (WakeConnection (connection_id (core w) index)) w
    | ClosePending _ _ => with_core (free_connection index) w
    | Free | ServerGone => w
    end.

(** [port.live = false; port.wake = None; port.server = KERNEL; port.server_generation = 0] *)
Definition kill_port (p : Port B) : Port B :=
  MkPort (pt_generation p) false (pt_resource p) (pt_rights p) KERNEL 0 (pt_params p)
    (pt_next_seq p) (pt_transfers p) None (pt_requests p).

Definition teardown_port (pidx : nat) w : World B :=
  let k := key (core w) pidx in
  let p := port_at (core w) pidx in
  let '(t, e) := drain_requests (pt_requests p) (table w) (effects w) in
  let w := MkWorld (upd_port pidx
             (set_queue 0 (replicate (length (pt_requests p)) Request_EMPTY)) (core w)) t e in
  let w := for_range 0 (length (connections (core w))) (teardown_connection pidx k) w in
  let w := emit (WakeSendSpace k) w in
  let w := emit (WakeServer k) w in
  with_core (upd_port pidx kill_port) w.

Definition notice_record c (index : nat) : PortRecvRecord :=
  let conn := conn_at c index in
  let '(kind, reason) :=
    match cn_state conn with
    | ClosePending kind reason => (kind, reason)
    | _ => (RK_ClientExited, 0)
    end in
  MkRecv kind reason
    (MkEnvelope (connection_id c index) (cn_client conn) (cn_client_domain conn)
       (cn_client_generation conn) (cn_close_seq conn) 0 None)
    (replicate PORT_FRAME_BYTES 0).

Definition decode_class (raw : Z) : result PortError (ResourceClass * PortRights) :=
  let? cls := ok_or (if decide (raw ≤ u8_max) then ResourceClassOps.from_u8 raw else None)
                P_Invalid in
  let? rs := ok_or (port_rights_for cls) P_Invalid in
  Ok (cls, rs).

Definition frame_event (ev : Event) : PortEventRecord :=
  MkEventRecord EK_Frame 0 (ev_seq ev) (ev_frame ev).

Definition terminal_event (kind : EventKind) (reason seqno : Z) : PortEventRecord :=
  MkEventRecord kind reason seqno (replicate PORT_FRAME_BYTES 0).

(** ** Registration *)

Definition registered (res : ResourceRef) (rs : PortRights) (server : HolderId) (sgen : Z)
    (params : PortParams) (p : Port B) : Port B :=
  MkPort (pt_generation p + 1) true res rs server sgen params 1 0 None (pt_requests p).

Definition register c (res : ResourceRef) (server : HolderId) (sgen : Z) (params : PortParams)
  : PortCore B * result RegistrationError PortKey :=
  let?+ c, rs := (c, ok_or (port_rights_for (class res)) ClassHasNoPort) in
  let?+ c, _ := (c, map_err ParamsError (validate_params params)) in
  match port_for c (class res) (id res) with
  | Some _ => (c, Err AlreadyRegistered)
  | None =>
      let?+ c, index := (c, ok_or (position (λ p, negb (pt_live p) &&
                           negb (bool_decide (pt_generation p = u32_max))) (ports c))
                           RegistryFull) in
      if decide (server = KERNEL ∨ sgen = 0) then (c, Err ServerNotLive)
      else
        let c := upd_port index (registered res rs server sgen params) c in
        (c, Ok (key c index))
  end.

Definition unregister (k : PortKey) w : World B * bool :=
  match port_index (core w) k with
  | Some index => (teardown_port index w, true)
  | None => (w, false)
  end.

(** ** Client operations *)

Definition find_handle c (t : CapabilityTable) (caller : Caller) (cls_raw i role : Z)
  : result PortError Z :=
  let? (cls, rs) := decode_class cls_raw in
  let? required := (if decide (role = PORT_ROLE_CONNECT) then Ok (connect_right rs)
                    else if decide (role = PORT_ROLE_SERVE) then Ok (serve_right rs)
                    else Err P_Invalid) in
  if negb (is_process caller) then Err P_Denied
  else
    let? pidx := ok_or (port_for c cls i) P_Refused in
    let p := port_at c pidx in
    let? handle := ok_or (find_first (λ h, is_ok (Table.authorize t (cl_holder caller) h
                                                    (pt_resource p) required))
                            (omap (Table.handle_at t) (seq 0 (Table.capacity t)))) P_Denied in
    Ok (Handle.encode handle).

(** The connections bound to a port. *)
Definition bound (k : PortKey) (conn : Connection) : bool :=
  negb (bool_decide (cn_state conn = Free)) && bool_decide (cn_port conn = k).

Definition opened (k : PortKey) (caller : Caller) (cap : CapabilityHandle) (conn : Connection)
  : Connection :=
  MkConn (cn_generation conn + 1) Open k (cl_holder caller) (cl_generation caller)
    (cl_domain caller) cap 0 0 0 0 0 (cn_events conn).

Definition connect c (t : CapabilityTable) (caller : Caller) (raw cls_raw i : Z)
  : PortCore B * result PortError ConnectionId :=
  let?+ c, (cls, rs) := (c, decode_class cls_raw) in
  if negb (is_process caller) then (c, Err P_Denied)
  else
    let?+ c, handle := (c, map_err (λ _, P_Invalid) (Handle.decode raw)) in
    let?+ c, rec := (c, map_err capability_error (Table.record t handle)) in
    let?+ c, pidx := (c, ok_or (port_for c cls i) P_Refused) in
    let p := port_at c pidx in
    if decide (class (resource rec) ≠ cls ∨ id (resource rec) ≠ i) then (c, Err P_Denied)
    else if decide (instance_generation (resource rec) ≠ instance_generation (pt_resource p))
    then (c, Err P_Stale)
    else
      let?+ c, _ := (c, map_err capability_error
        (Table.authorize t (cl_holder caller) handle (pt_resource p) (connect_right rs))) in
      let k := key c pidx in
      let per_holder := count_if (λ conn, bound k conn &&
                                  bool_decide (cn_client conn = cl_holder caller))
                          (connections c) in
      if decide (max_connections_per_holder (pt_params p) ≤ Z.of_nat per_holder)
      then (c, Err P_NoSpace)
      else if decide (max_connections (pt_params p) ≤ Z.of_nat (count_if (bound k) (connections c)))
      then (c, Err P_NoSpace)
      else
        let?+ c, index := (c, ok_or (position (λ conn, bool_decide (cn_state conn = Free) &&
                             negb (bool_decide (cn_generation conn = u32_max))) (connections c))
                             P_NoSpace) in
        let c := upd_conn index (opened k caller handle) c in
        (c, Ok (connection_id c index)).

Definition send (caller : Caller) (connection : Z) (frame : Frame) (tr : option Transfer) w
  : World B * result PortError unit :=
  let?+ w, index := (w, client_connection (core w) caller connection) in
  match cn_state (conn_at (core w) index) with
  | ServerClosed _ => (w, Err P_PeerClosed)
  | Free | ClosePending _ _ | ServerGone => (w, Err P_Stale)
  | Open =>
      let?+ w, pidx := (w, connection_port (core w) index) in
      let?+ w, rts := reauthorize_client index pidx w in
      let conn := conn_at (core w) index in
      let p := port_at (core w) pidx in
      if decide (max_outstanding (pt_params p) ≤ cn_outstanding conn ∨
                 request_depth (pt_params p) ≤ Z.of_nat (queued_requests p))
      then (w, Err P_WouldBlock)
      else if bool_decide (is_Some tr) &&
              bool_decide (PORT_MAX_TRANSFERS_IN_FLIGHT_PER_CONNECTION ≤ cn_transfers conn ∨
                           PORT_MAX_TRANSFERS_IN_FLIGHT ≤ pt_transfers p)
      then (w, Err P_WouldBlock)
      else
        let?+ w, entry := (w, ok_or (position (λ r, negb (rq_live r)) (pt_requests p))
                                P_WouldBlock) in
        let server := pt_server p in
        let?+ w, validated := (w, match tr with
                                  | Some tr => result_map Some (validate (table w) (cl_holder caller) tr)
                                  | None => Ok None
                                  end) in
        let?+ w, child :=
          match validated with
          | Some v =>
              let '(t, r) := install_child (table w) server v in
              (MkWorld (core w) t (effects w), result_map Some r)
          | None => (w, Ok None)
          end in
        let i := connection_id (core w) index in
        let k := key (core w) pidx in
        let seqno := pt_next_seq p in
        let request := MkRequest seqno i (cl_holder caller) (cl_domain caller)
                         (cl_generation caller) rts child frame in
        let extra := match child with Some _ => 1 | None => 0 end in
        let w := with_core (upd_port pidx (λ p, set_queue (pt_transfers p + extra)
                   (<[entry := request]> (pt_requests p)) (bump_seq p))) w in
        let w := with_core (upd_conn index (λ conn, set_counts (cn_outstanding conn + 1)
                   (cn_transfers conn + extra) conn)) w in
        let w := emit (WakeServer k) w in
        let w := match pt_wake p with
                 | Some wk => emit (Signal (wk_target wk) (request_bit wk)) w
                 | None => w
                 end in
        (w, Ok ())
  end.

Definition recv_event (caller : Caller) (connection : Z) w : World B * result PortError PortEventRecord :=
  let?+ w, index := (w, client_connection (core w) caller connection) in
  let conn := conn_at (core w) index in
  match cn_state conn with
  | Open =>
      match pop_event conn with
      | (conn', Some ev) => (with_core (upd_conn index (λ _, conn')) w, Ok (frame_event ev))
      | (_, None) =>
          let?+ w, pidx := (w, connection_port (core w) index) in
          let?+ w, _ := reauthorize_client index pidx w in
          (w, Err P_WouldBlock)
      end
  | ServerClosed reason =>
      match pop_event conn with
      | (conn', Some ev) => (with_core (upd_conn index (λ _, conn')) w, Ok (frame_event ev))
      | (_, None) =>
          (consume_terminal index w, Ok (terminal_event EK_Disconnected reason (cn_close_seq conn)))
      end
  | ServerGone =>
      (consume_terminal index w, Ok (terminal_event EK_ServerGone 0 (cn_close_seq conn)))
  | Free | ClosePending _ _ => (w, Err P_Stale)
  end.

Definition close (caller : Caller) (connection reason : Z) w : World B * result PortError unit :=
  let?+ w, index := (w, client_connection (core w) caller connection) in
  match cn_state (conn_at (core w) index) with
  | Open => (close_pending index RK_ClientClosed reason w, Ok ())
  | ServerClosed _ | ServerGone => (consume_terminal index w, Ok ())
  | Free | ClosePending _ _ => (w, Err P_Stale)
  end.

(** ** Server operations *)

Definition serve_port_key c (t : CapabilityTable) (caller : Caller) (serve : Z)
  : result PortError PortKey :=
  result_map (key c) (authorize_serve c t caller serve).

Definition is_close_pending (s : ConnState) : bool :=
  match s with ClosePending _ _ => true | _ => false end.

Definition pending_notice c (k : PortKey) (index : nat) : bool :=
  bool_decide (cn_port (conn_at c index) = k) && is_close_pending (cn_state (conn_at c index)).

(** The notice [recv] picks: the oldest pending one of the port. *)
Definition oldest_notice c (k : PortKey) : option nat :=
  min_by_key (λ index, cn_close_seq (conn_at c index))
    (filter (λ index, pending_notice c k index = true) (seq 0 (length (connections c)))).

(** The request [recv] picks: the live entry with the lowest number. *)
Definition oldest_request (p : Port B) : option nat :=
  let at_ entry := default Request_EMPTY (pt_requests p !! entry) in
  min_by_key (λ entry, rq_seq (at_ entry))
    (filter (λ entry, rq_live (at_ entry) = true) (seq 0 PORT_MAX_REQUEST_QUEUE_DEPTH)).

(** [if let Some(conn) = self.connections.get_mut(..)]: an index out of range does nothing. *)
Definition account_received (r : Request) c : PortCore B :=
  let index := Z.to_nat (Id.slot (rq_connection r)) in
  upd_conn index (λ conn,
    if decide (cn_generation conn = Id.generation (rq_connection r)) then
      set_counts (saturating_sub (cn_outstanding conn) 1)
        (match rq_transfer r with
         | Some _ => saturating_sub (cn_transfers conn) 1
         | None => cn_transfers conn
         end) conn
    else conn) c.

Definition request_record (r : Request) : PortRecvRecord :=
  MkRecv RK_Request 0
    (MkEnvelope (rq_connection r) (rq_pid r) (rq_domain r) (rq_generation r) (rq_seq r)
       (rq_rights r) (rq_transfer r)) (rq_frame r).

Definition recv (caller : Caller) (serve : Z) w : World B * result PortError PortRecvRecord :=
  let?+ w, pidx := (w, authorize_serve (core w) (table w) caller serve) in
  let k := key (core w) pidx in
  match oldest_notice (core w) k with
  | Some index =>
      let rec := notice_record (core w) index in
      (with_core (free_connection index) w, Ok rec)
  | None =>
      let p := port_at (core w) pidx in
      let?+ w, entry := (w, ok_or (oldest_request p) P_WouldBlock) in
      let r := default Request_EMPTY (pt_requests p !! entry) in
      let w := with_core (upd_port pidx (λ p,
                 set_queue (match rq_transfer r with
                            | Some _ => saturating_sub (pt_transfers p) 1
                            | None => pt_transfers p
                            end) (<[entry := Request_EMPTY]> (pt_requests p)) p)) w in
      let w := with_core (account_received r) w in
      (emit (WakeSendSpace k) w, Ok (request_record r))
  end.

Definition post (caller : Caller) (serve connection : Z) (frame : Frame) w
  : World B * result PortError unit :=
  let?+ w, pidx := (w, authorize_serve (core w) (table w) caller serve) in
  let?+ w, index := (w, served_connection (core w) pidx connection) in
  let depth := event_depth (pt_params (port_at (core w) pidx)) in
  match cn_state (conn_at (core w) index) with
  | ClosePending _ _ => (w, Err P_PeerClosed)
  | Free | ServerClosed _ | ServerGone => (w, Err P_Stale)
  | Open =>
      if decide (depth ≤ Z.of_nat (cn_event_len (conn_at (core w) index)))
      then (w, Err P_WouldBlock)
      else
        let seqno := pt_next_seq (port_at (core w) pidx) in
        let w := with_core (upd_port pidx bump_seq) w in
        let w := with_core (upd_conn index (push_event seqno frame)) w in
        (emit (WakeConnection (connection_id (core w) index)) w, Ok ())
  end.

Definition disconnect (caller : Caller) (serve connection reason : Z) w
  : World B * result PortError unit :=
  let?+ w, pidx := (w, authorize_serve (core w) (table w) caller serve) in
  let?+ w, index := (w, served_connection (core w) pidx connection) in
  match cn_state (conn_at (core w) index) with
  | ClosePending _ _ => (w, Err P_PeerClosed)
  | Free | ServerClosed _ | ServerGone => (w, Err P_Stale)
  | Open =>
      let w := purge_connection pidx index w in
      let seqno := pt_next_seq (port_at (core w) pidx) in
      let w := with_core (upd_port pidx bump_seq) w in
      let w := with_core (upd_conn index (set_closed seqno (ServerClosed reason))) w in
      let w := emit (WakeConnection (connection_id (core w) index)) w in
      (emit (WakeSendSpace (key (core w) pidx)) w, Ok ())
  end.

Definition bind_wake (caller : Caller) (serve : Z) (target : B) (rbit nbit : Z) w
  : World B * result PortError unit :=
  if decide (WORK_SET_BITS ≤ rbit ∨ WORK_SET_BITS ≤ nbit) then (w, Err P_Invalid)
  else
    let?+ w, pidx := (w, authorize_serve (core w) (table w) caller serve) in
    let w := with_core (upd_port pidx (set_wake (Some (MkWake target rbit nbit)))) w in
    let w := if decide (queued_requests (port_at (core w) pidx) ≠ 0%nat)
             then emit (Signal target rbit) w else w in
    let k := key (core w) pidx in
    let w := if existsb (λ conn, bool_decide (cn_port conn = k) && is_close_pending (cn_state conn))
                  (connections (core w))
             then emit (Signal target nbit) w else w in
    (w, Ok ()).

(** ** Teardown and accounting *)

Definition exit_port (h : HolderId) (gen : Z) (index : nat) (s : World B * nat) : World B * nat :=
  let '(w, n) := s in
  let p := port_at (core w) index in
  if pt_live p && bool_decide (pt_server p = h) && bool_decide (pt_server_generation p = gen)
  then (teardown_port index w, S n) else (w, n).

Definition exit_connection (h : HolderId) (gen : Z) (index : nat) (s : World B * nat)
  : World B * nat :=
  let '(w, n) := s in
  let conn := conn_at (core w) index in
  if decide (cn_client conn ≠ h ∨ cn_client_generation conn ≠ gen) then (w, n)
  else
    match cn_state conn with
    | Open => (close_pending index RK_ClientExited 0 w, S n)
    | ServerClosed _ | ServerGone => (consume_terminal index w, S n)
    | Free | ClosePending _ _ => (w, n)
    end.

Definition on_holder_exit (h : HolderId) (gen : Z) w : World B * PortReleaseCounts :=
  let '(w, served) := for_range 0 (length (ports (core w))) (exit_port h gen) (w, 0%nat) in
  let '(w, clients) :=
    for_range 0 (length (connections (core w))) (exit_connection h gen) (w, 0%nat) in
  (w, MkReleased served clients).

Definition held_by_client (s : ConnState) : bool :=
  match s with Open | ServerClosed _ | ServerGone => true | _ => false end.

Definition counts_for c (h : HolderId) : HolderPortCounts :=
  MkHolderCounts
    (count_if (λ p, pt_live p && bool_decide (pt_server p = h)) (ports c))
    (count_if (λ conn, bool_decide (cn_client conn = h) && held_by_client (cn_state conn))
       (connections c)).

(** The live requests of the live ports. *)
Definition live_requests c : list Request :=
  filter (λ r, rq_live r = true)
    (concat (pt_requests <$> filter (λ p, pt_live p = true) (ports c))).

Definition global_counts c : PortCounts :=
  MkCounts (count_if pt_live (ports c))
    (count_if (λ conn, negb (bool_decide (cn_state conn = Free))) (connections c))
    (length (live_requests c))
    (foldr (λ conn n, Z.of_nat (cn_event_len conn) + n) 0 (connections c))
    (count_if (λ r, bool_decide (is_Some (rq_transfer r))) (live_requests c)).

Definition event_ready c (connection : Z) : bool :=
  match connection_index c connection with
  | Ok index =>
      let conn := conn_at c index in
      negb (bool_decide (cn_state conn = Open)) || negb (bool_decide (cn_event_len conn = 0%nat))
  | Err _ => true
  end.

Definition connection_port_key c (connection : Z) : result PortError PortKey :=
  result_map (λ index, cn_port (conn_at c index)) (connection_index c connection).

(** ** The structural self-check *)

Definition check_port (index : nat) (p : Port B) : result Violation unit :=
  if negb (pt_live p) then
    if existsb rq_live (pt_requests p) then Err (DeadPortHoldsRequests index) else Ok ()
  else if decide (request_depth (pt_params p) < Z.of_nat (queued_requests p))
  then Err (PoolOverDepth index)
  else
    let transfers := Z.of_nat (count_if (λ r, rq_live r && bool_decide (is_Some (rq_transfer r)))
                                 (pt_requests p)) in
    if decide (transfers ≠ pt_transfers p ∨ PORT_MAX_TRANSFERS_IN_FLIGHT < transfers)
    then Err (PortInFlight index transfers) else Ok ().

Definition check_connection c (index : nat) : result Violation unit :=
  let conn := conn_at c index in
  if decide (cn_state conn = Free) then Ok ()
  else
    let i := connection_id c index in
    let requests := List.filter (λ r, rq_live r && bool_decide (rq_connection r = i))
                      (concat (pt_requests <$> ports c)) in
    if decide (requests ≠ [] ∧ cn_state conn ≠ Open) then Err (HoldsRequests index)
    else if decide (Z.of_nat (length requests) ≠ cn_outstanding conn)
    then Err (OutstandingMismatch index)
    else
      let transfers := Z.of_nat (count_if (λ r, bool_decide (is_Some (rq_transfer r))) requests) in
      if decide (transfers ≠ cn_transfers conn ∨
                 PORT_MAX_TRANSFERS_IN_FLIGHT_PER_CONNECTION < transfers)
      then Err (InFlightMismatch index)
      else
        match port_index c (cn_port conn) with
        | Some pidx =>
            let params := pt_params (port_at c pidx) in
            if decide (max_outstanding params < cn_outstanding conn ∨
                       event_depth params < Z.of_nat (cn_event_len conn))
            then Err (OverLimits index) else Ok ()
        | None =>
            if decide (cn_state conn ≠ ServerGone) then Err (BoundToDeadPort index) else Ok ()
        end.

Definition check_invariants c : result Violation unit :=
  let? _ := try_range 0 (length (ports c)) (λ index _, check_port index (port_at c index)) () in
  try_range 0 (length (connections c)) (λ index _, check_connection c index) ().
End engine.
End Core.
