(* ===== verification/PortInv.v ===== *)
(** The structural invariant of the port engine ([port/src/engine.rs]).

    [inv] strengthens what the engine's own [check_invariants] tests: every queued request
    belongs to an open connection of its port and carries that client's pid and generation, the
    counters of ports and connections equal the number of queued requests and transfers,
    limits hold, and a connection's port is live until the connection is [ServerGone].
    Every operation preserves it, whatever the capability table does in between. *)

From Stdlib Require Import ZArith Lia.
From stdpp Require Import base list tactics decidable numbers.
From S2P Require Import Prelude Bytes CapTypes CapTable CapTree NativeAbi PortEngine.
Import Core.

Local Open Scope Z_scope.

(** * Requests of a connection *)

Definition mine (i : ConnectionId) (r : Request) : bool :=
  rq_live r && bool_decide (rq_connection r = i).
Definition carries (r : Request) : bool := bool_decide (is_Some (rq_transfer r)).
Definition live_carrier (r : Request) : bool := rq_live r && carries r.
Definition my_carrier (i : ConnectionId) (r : Request) : bool := mine i r && carries r.

(** The id of the connection in slot [j], and the key of the port in slot [i]. *)
Definition cid (j : nat) (conn : Connection) : ConnectionId :=
  unwrap_or (Id.new (wrap 16 (Z.of_nat j)) (cn_generation conn)) PLACEHOLDER_CONNECTION.
Definition pkey {B : Type} (i : nat) (p : Port B) : PortKey :=
  MkKey (wrap 8 (Z.of_nat i)) (pt_generation p).

Definition sender_ok (conn : Connection) (r : Request) : Prop :=
  rq_pid r = cn_client conn ∧ rq_generation r = cn_client_generation conn.

(** States in which a connection is bound to a live port. *)
Definition attached (s : ConnState) : Prop :=
  match s with Open | ClosePending _ _ | ServerClosed _ => True | Free | ServerGone => False end.

#[export] Instance attached_dec s : Decision (attached s).
Proof. destruct s; apply _. Defined.

(** The fields of [PortParams] are [u16]s. *)
Definition params_typed (p : PortParams) : Prop :=
  in_width 16 (event_depth p) ∧ in_width 16 (request_depth p) ∧ in_width 16 (max_connections p) ∧
  in_width 16 (max_outstanding p) ∧ in_width 16 (max_connections_per_holder p).

Record port_local {B : Type} (p : Port B) : Prop := {
  pl_len : length (pt_requests p) = PORT_MAX_REQUEST_QUEUE_DEPTH;
  pl_gen : in_width 32 (pt_generation p);
  pl_pos : pt_live p = true → 1 ≤ pt_generation p;
  pl_params : pt_live p = true → validate_params (pt_params p) = Ok () ∧ params_typed (pt_params p);
  pl_rights : pt_live p = true → port_rights_for (class (pt_resource p)) = Some (pt_rights p);
  pl_server : pt_live p = true → pt_server p ≠ KERNEL ∧ pt_server_generation p ≠ 0;
  pl_seq : pt_live p = true → 1 ≤ pt_next_seq p < 2 ^ 64;
  pl_queued : pt_live p = true → Z.of_nat (queued_requests p) ≤ request_depth (pt_params p);
  pl_transfers : pt_live p = true →
    pt_transfers p = Z.of_nat (count_if live_carrier (pt_requests p)) ∧
    pt_transfers p ≤ PORT_MAX_TRANSFERS_IN_FLIGHT;
}.

Record conn_local (conn : Connection) : Prop := {
  cl_gen : in_width 32 (cn_generation conn);
  cl_pos : cn_state conn ≠ Free → 1 ≤ cn_generation conn;
  cl_client : cn_state conn ≠ Free → cn_client conn ≠ KERNEL ∧ cn_client_generation conn ≠ 0;
  cl_events : length (cn_events conn) = PORT_MAX_EVENT_QUEUE_DEPTH;
  cl_head : (cn_event_head conn < PORT_MAX_EVENT_QUEUE_DEPTH)%nat;
  cl_len : (cn_event_len conn ≤ PORT_MAX_EVENT_QUEUE_DEPTH)%nat;
  cl_free : cn_state conn = Free → cn_port conn = NO_PORT;
  cl_idle : ¬ attached (cn_state conn) →
    cn_outstanding conn = 0 ∧ cn_transfers conn = 0 ∧ cn_event_len conn = 0%nat;
}.

(** A connection in slot [j] against the port [p] it is attached to. *)
Record bound_ok {B : Type} (p : Port B) (j : nat) (conn : Connection) : Prop := {
  bo_outstanding : cn_outstanding conn = Z.of_nat (count_if (mine (cid j conn)) (pt_requests p));
  bo_transfers : cn_transfers conn = Z.of_nat (count_if (my_carrier (cid j conn)) (pt_requests p));
  bo_max : cn_outstanding conn ≤ max_outstanding (pt_params p);
  bo_max_transfers : cn_transfers conn ≤ PORT_MAX_TRANSFERS_IN_FLIGHT_PER_CONNECTION;
  bo_depth : Z.of_nat (cn_event_len conn) ≤ event_depth (pt_params p);
  bo_closed : cn_state conn ≠ Open → cn_outstanding conn = 0;
  bo_pending : is_close_pending (cn_state conn) = true → cn_event_len conn = 0%nat;
}.

Record inv {B : Type} (c : PortCore B) : Prop := {
  inv_ports : Z.of_nat (length (ports c)) ≤ u8_max;
  inv_conns : Z.of_nat (length (connections c)) ≤ u16_max;
  inv_port : ∀ i p, ports c !! i = Some p → port_local p;
  inv_conn : ∀ j conn, connections c !! j = Some conn → conn_local conn;
  inv_bound : ∀ j conn, connections c !! j = Some conn → attached (cn_state conn) →
    ∃ i p, ports c !! i = Some p ∧ pt_live p = true ∧ cn_port conn = pkey i p ∧ bound_ok p j conn;
  inv_gone : ∀ j conn, connections c !! j = Some conn → cn_state conn = ServerGone →
    ∃ i p g, ports c !! i = Some p ∧ cn_port conn = MkKey (wrap 8 (Z.of_nat i)) g ∧
      1 ≤ g ≤ pt_generation p ∧ (pt_live p = true → g < pt_generation p);
  inv_req : ∀ i p r, ports c !! i = Some p → r ∈ pt_requests p → rq_live r = true →
    ∃ j conn, connections c !! j = Some conn ∧ cn_state conn = Open ∧ cn_port conn = pkey i p ∧
      rq_connection r = cid j conn ∧ sender_ok conn r;
  inv_unique : ∀ i p i' p', ports c !! i = Some p → ports c !! i' = Some p' →
    pt_live p = true → pt_live p' = true → class (pt_resource p) = class (pt_resource p') →
    id (pt_resource p) = id (pt_resource p') → i = i';
}.

(** * Identities *)

Lemma u16_nat j n : (j < n)%nat → Z.of_nat n ≤ u16_max → in_width 16 (Z.of_nat j).
Proof. unfold in_width, u16_max, max_of. lia. Qed.
Lemma u8_nat j n : (j < n)%nat → Z.of_nat n ≤ u8_max → in_width 8 (Z.of_nat j).
Proof. unfold in_width, u8_max, max_of. lia. Qed.

Lemma cid_spec j conn :
  in_width 16 (Z.of_nat j) → in_width 32 (cn_generation conn) → 1 ≤ cn_generation conn →
  id_ok (cid j conn) ∧ Id.slot (cid j conn) = Z.of_nat j ∧
  Id.generation (cid j conn) = cn_generation conn.
Proof.
  intros Hj Hg H1. unfold cid. rewrite (wrap_small 16) by done.
  destruct (Id.new _ _) as [i|e] eqn:E.
  - destruct (id_new_spec _ _ _ Hj Hg E) as (? & ? & ? & ? & ?). by split_and!.
  - unfold Id.new in E. case_decide; [lia|done].
Qed.

Section inv.
Context {B : Type} `{EqDecision B}.
Implicit Types (c : PortCore B) (w : World B) (p : Port B) (conn : Connection) (r : Request).

Lemma port_at_lookup c i p : ports c !! i = Some p → port_at c i = p.
Proof. unfold port_at. by intros ->. Qed.
Lemma conn_at_lookup c j conn : connections c !! j = Some conn → conn_at c j = conn.
Proof. unfold conn_at. by intros ->. Qed.
Lemma key_lookup c i p : ports c !! i = Some p → key c i = pkey i p.
Proof. intros Hp. unfold key. by rewrite (port_at_lookup _ _ _ Hp). Qed.
Lemma connection_id_lookup c j conn : connections c !! j = Some conn → connection_id c j = cid j conn.
Proof. intros Hp. unfold connection_id. by rewrite (conn_at_lookup _ _ _ Hp). Qed.

Lemma inv_cid c j conn :
  inv c → connections c !! j = Some conn → cn_state conn ≠ Free →
  id_ok (cid j conn) ∧ Id.slot (cid j conn) = Z.of_nat j ∧
  Id.generation (cid j conn) = cn_generation conn.
Proof.
  intros Hi Hc Hs. apply cid_spec.
  - eapply u16_nat; [by eapply lookup_lt_Some|apply Hi].
  - by eapply cl_gen, inv_conn.
  - by eapply cl_pos; [eapply inv_conn|].
Qed.

Lemma cid_inj c j conn j' conn' :
  inv c → connections c !! j = Some conn → connections c !! j' = Some conn' →
  cn_state conn ≠ Free → cn_state conn' ≠ Free → cid j conn = cid j' conn' → j = j'.
Proof.
  intros Hi Hc Hc' Hs Hs' He. destruct (inv_cid _ _ _ Hi Hc Hs) as (_ & H1 & _).
  destruct (inv_cid _ _ _ Hi Hc' Hs') as (_ & H2 & _). rewrite He in H1. lia.
Qed.

Lemma pkey_inj c i p i' p' :
  inv c → ports c !! i = Some p → ports c !! i' = Some p' → pkey i p = pkey i' p' → i = i'.
Proof.
  intros Hi Hp Hp' [= Hs _].
  rewrite !(wrap_small 8) in Hs by (eapply u8_nat; [by eapply lookup_lt_Some|apply Hi]). lia.
Qed.

Lemma port_index_Some c k i :
  port_index c k = Some i →
  ∃ p, ports c !! i = Some p ∧ pt_live p = true ∧ pt_generation p = pk_generation k ∧
       i = Z.to_nat (pk_slot k).
Proof.
  unfold port_index. destruct (ports c !! _) as [p|] eqn:E; [|done].
  destruct (pt_live p) eqn:El; simpl; [|done]. case_bool_decide; [|done].
  intros [= <-]. eauto.
Qed.

Lemma port_index_key c i p :
  inv c → ports c !! i = Some p → pt_live p = true → port_index c (pkey i p) = Some i.
Proof.
  intros Hi Hp Hl. unfold port_index, pkey. simpl.
  rewrite (wrap_small 8) by (eapply u8_nat; [by eapply lookup_lt_Some|apply Hi]).
  rewrite Nat2Z.id, Hp, Hl, bool_decide_true by done. done.
Qed.

(** The port an attached connection names is found, and is the one of [inv_bound]. *)
Lemma attached_port c j conn :
  inv c → connections c !! j = Some conn → attached (cn_state conn) →
  ∃ i p, port_index c (cn_port conn) = Some i ∧ ports c !! i = Some p ∧ pt_live p = true ∧
    cn_port conn = pkey i p ∧ bound_ok p j conn.
Proof.
  intros Hi Hc Ha. destruct (inv_bound _ Hi _ _ Hc Ha) as (i & p & Hp & Hl & Hk & Hb).
  exists i, p. rewrite Hk. by rewrite (port_index_key _ _ _ Hi Hp Hl).
Qed.

Lemma bound_to c i p j conn :
  inv c → ports c !! i = Some p → connections c !! j = Some conn →
  attached (cn_state conn) → cn_port conn = pkey i p → pt_live p = true ∧ bound_ok p j conn.
Proof.
  intros Hi Hp Hc Ha Hk. destruct (inv_bound _ Hi _ _ Hc Ha) as (i' & p' & Hp' & Hl & Hk' & Hb).
  rewrite Hk in Hk'. pose proof (pkey_inj _ _ _ _ _ Hi Hp Hp' Hk') as <-. by simplify_eq.
Qed.

(** A dead port holds no request. *)
Lemma dead_port_empty c i p r :
  inv c → ports c !! i = Some p → pt_live p = false → r ∈ pt_requests p → rq_live r = false.
Proof.
  intros Hi Hp Hd Hr. destruct (rq_live r) eqn:E; [|done].
  destruct (inv_req _ Hi _ _ _ Hp Hr E) as (j & conn & Hc & Ho & Hk & _).
  destruct (bound_to _ _ _ _ _ Hi Hp Hc) as [? _]; [by rewrite Ho|done|congruence].
Qed.

(** A live request of a connection sits in the port the connection names. *)
Lemma mine_port c i p j conn r :
  inv c → ports c !! i = Some p → connections c !! j = Some conn → cn_state conn ≠ Free →
  r ∈ pt_requests p → mine (cid j conn) r = true →
  cn_state conn = Open ∧ cn_port conn = pkey i p.
Proof.
  intros Hi Hp Hc Hs Hr [Hl Hm]%andb_true_iff. apply bool_decide_eq_true in Hm.
  destruct (inv_req _ Hi _ _ _ Hp Hr Hl) as (j' & conn' & Hc' & Ho & Hk & Hid & _).
  rewrite Hm in Hid. assert (j = j') as <-
    by (eapply cid_inj; [exact Hi|exact Hc|exact Hc'|done|by rewrite Ho|done]).
  by simplify_eq.
Qed.

(** * Steps that keep the invariant *)

(** What no step on a live port and an allocated connection changes. *)
Definition same_port p p' : Prop :=
  pt_generation p' = pt_generation p ∧ pt_live p' = pt_live p ∧
  pt_resource p' = pt_resource p ∧ pt_rights p' = pt_rights p ∧ pt_server p' = pt_server p ∧
  pt_server_generation p' = pt_server_generation p ∧ pt_params p' = pt_params p.

Definition same_conn conn conn' : Prop :=
  cn_generation conn' = cn_generation conn ∧ cn_port conn' = cn_port conn ∧
  cn_client conn' = cn_client conn ∧ cn_client_generation conn' = cn_client_generation conn ∧
  cn_client_domain conn' = cn_client_domain conn.

Lemma same_port_key p p' i : same_port p p' → pkey i p' = pkey i p.
Proof. intros [Hg _]. unfold pkey. by rewrite Hg. Qed.

Lemma same_conn_id conn conn' j : same_conn conn conn' → cid j conn' = cid j conn.
Proof. intros [Hg _]. unfold cid. by rewrite Hg. Qed.

(** A port against another connection whose requests the step left alone. *)
Lemma bound_ok_others p p' j conn :
  same_port p p' →
  count_if (mine (cid j conn)) (pt_requests p') = count_if (mine (cid j conn)) (pt_requests p) →
  count_if (my_carrier (cid j conn)) (pt_requests p') =
    count_if (my_carrier (cid j conn)) (pt_requests p) →
  bound_ok p j conn → bound_ok p' j conn.
Proof.
  intros (_ & _ & _ & _ & _ & _ & Hpar) H1 H2 []. constructor; rewrite ?H1, ?H2, ?Hpar; auto.
Qed.

(** The step of a live port [i] and a connection [j] attached to it. *)
Lemma inv_pair c i p p' j conn conn' :
  inv c → ports c !! i = Some p → connections c !! j = Some conn →
  pt_live p = true → cn_port conn = pkey i p → attached (cn_state conn) →
  same_port p p' → port_local p' →
  same_conn conn conn' → conn_local conn' → attached (cn_state conn') → bound_ok p' j conn' →
  (∀ k, k ≠ cid j conn →
     count_if (mine k) (pt_requests p') = count_if (mine k) (pt_requests p) ∧
     count_if (my_carrier k) (pt_requests p') = count_if (my_carrier k) (pt_requests p)) →
  (∀ r, r ∈ pt_requests p' → rq_live r = true →
     r ∈ pt_requests p ∧ rq_connection r ≠ cid j conn ∨
     rq_connection r = cid j conn ∧ cn_state conn' = Open ∧ sender_ok conn' r) →
  inv (MkCore (<[i := p']> (ports c)) (<[j := conn']> (connections c))).
Proof.
  intros Hi Hp Hc Hl Hk Ha Hsp Hpl Hsc Hcl Ha' Hb Hcount Hreq.
  pose proof (same_port_key _ _ i Hsp) as Hkey. pose proof (same_conn_id _ _ j Hsc) as Hid.
  pose proof Hsp as (Hg & Hlv & Hres & _). pose proof Hsc as (Hcg & Hcp & _).
  assert (Hil : (i < length (ports c))%nat) by by eapply lookup_lt_Some.
  assert (Hjl : (j < length (connections c))%nat) by by eapply lookup_lt_Some.
  assert (Hne : ∀ j0 conn0, connections c !! j0 = Some conn0 → cn_state conn0 ≠ Free → j0 ≠ j →
            cid j0 conn0 ≠ cid j conn).
  { intros j0 conn0 Hc0 Hs0 Hjj He. apply Hjj. eapply cid_inj; eauto. by destruct (cn_state conn). }
  constructor; simpl.
  - rewrite length_insert. apply Hi.
  - rewrite length_insert. apply Hi.
  - intros i0 p0 [(<- & <- & _)|[_ H0]]%list_lookup_insert_Some; [done|by eapply inv_port].
  - intros j0 conn0 [(<- & <- & _)|[_ H0]]%list_lookup_insert_Some; [done|by eapply inv_conn].
  - intros j0 conn0 [(<- & <- & _)|[Hjj H0]]%list_lookup_insert_Some Ha0.
    + exists i, p'. rewrite list_lookup_insert_eq by done. split_and!; auto; congruence.
    + destruct (inv_bound _ Hi _ _ H0 Ha0) as (i0 & p0 & Hp0 & Hl0 & Hk0 & Hb0).
      destruct (decide (i0 = i)) as [->|Hii].
      * assert (p0 = p) as -> by congruence. exists i, p'. rewrite list_lookup_insert_eq by done.
        split_and!; try congruence. destruct (Hcount (cid j0 conn0)).
        { apply Hne; auto. by destruct (cn_state conn0). }
        eapply bound_ok_others; eauto.
      * exists i0, p0. by rewrite list_lookup_insert_ne.
  - intros j0 conn0 [(<- & <- & _)|[Hjj H0]]%list_lookup_insert_Some Ha0; [by rewrite Ha0 in Ha'|].
    destruct (inv_gone _ Hi _ _ H0 Ha0) as (i0 & p0 & g & Hp0 & Hk0 & Hg0 & Hl0).
    destruct (decide (i0 = i)) as [->|Hii].
    + assert (p0 = p) as -> by congruence. exists i, p', g. rewrite list_lookup_insert_eq by done. by rewrite Hlv, Hg.
    + exists i0, p0, g. by rewrite list_lookup_insert_ne.
  - intros i0 p0 r [(<- & <- & _)|[Hii H0]]%list_lookup_insert_Some Hr Hlr.
    + destruct (Hreq r Hr Hlr) as [[Hr0 Hn]|(Hrc & Ho & Hs)].
      * destruct (inv_req _ Hi _ _ _ Hp Hr0 Hlr) as (j0 & conn0 & Hc0 & Ho0 & Hk0 & Hid0 & Hs0).
        assert (j0 ≠ j) by (intros ->; simplify_eq; congruence).
        exists j0, conn0. rewrite list_lookup_insert_ne by done. by rewrite Hkey.
      * exists j, conn'. rewrite list_lookup_insert_eq by done. split_and!; auto; congruence.
    + destruct (inv_req _ Hi _ _ _ H0 Hr Hlr) as (j0 & conn0 & Hc0 & Ho0 & Hk0 & Hid0 & Hs0).
      assert (j0 ≠ j).
      { intros ->. simplify_eq. rewrite Hk in Hk0. by eapply Hii, pkey_inj. }
      exists j0, conn0. by rewrite list_lookup_insert_ne.
  - intros i1 p1 i2 p2 H1 H2. apply list_lookup_insert_Some in H1, H2.
    destruct H1 as [(<- & <- & _)|[? H1]], H2 as [(<- & <- & _)|[? H2]]; [done|..].
    + rewrite Hlv, Hres. by apply (inv_unique _ Hi).
    + rewrite Hlv, Hres. by apply (inv_unique _ Hi).
    + by apply (inv_unique _ Hi).
Qed.

(** A step of a port that leaves its queue alone. *)
Lemma inv_port_step c i p p' :
  inv c → ports c !! i = Some p → same_port p p' →
  pt_requests p' = pt_requests p → pt_transfers p' = pt_transfers p →
  (pt_live p = true → 1 ≤ pt_next_seq p' < 2 ^ 64) →
  inv (MkCore (<[i := p']> (ports c)) (connections c)).
Proof.
  intros Hi Hp Hsp Hrs Htr Hseq. pose proof (same_port_key _ _ i Hsp) as Hkey.
  pose proof Hsp as (Hg & Hlv & Hres & Hri & Hsv & Hsg & Hpar).
  assert (Hil : (i < length (ports c))%nat) by by eapply lookup_lt_Some.
  constructor; simpl.
  - rewrite length_insert. apply Hi.
  - apply Hi.
  - intros i0 p0 [(<- & <- & _)|[_ H0]]%list_lookup_insert_Some; [|by eapply inv_port].
    destruct (inv_port _ Hi _ _ Hp). constructor; unfold queued_requests;
      rewrite ?Hg, ?Hlv, ?Hres, ?Hri, ?Hsv, ?Hsg, ?Hpar, ?Hrs, ?Htr; auto.
  - apply Hi.
  - intros j conn Hc Ha. destruct (inv_bound _ Hi _ _ Hc Ha) as (i0 & p0 & Hp0 & Hl0 & Hk0 & Hb0).
    destruct (decide (i0 = i)) as [->|Hii].
    + assert (p0 = p) as -> by congruence. exists i, p'. rewrite list_lookup_insert_eq by done.
      split_and!; try congruence. eapply bound_ok_others; eauto; by rewrite Hrs.
    + exists i0, p0. by rewrite list_lookup_insert_ne.
  - intros j conn Hc Ha. destruct (inv_gone _ Hi _ _ Hc Ha) as (i0 & p0 & g & Hp0 & Hk0 & Hg0 & Hl0).
    destruct (decide (i0 = i)) as [->|Hii].
    + assert (p0 = p) as -> by congruence. exists i, p', g. rewrite list_lookup_insert_eq by done. by rewrite Hlv, Hg.
    + exists i0, p0, g. by rewrite list_lookup_insert_ne.
  - intros i0 p0 r [(<- & <- & _)|[Hii H0]]%list_lookup_insert_Some Hr Hlr.
    + rewrite Hkey. rewrite Hrs in Hr. by apply (inv_req _ Hi).
    + by apply (inv_req _ Hi).
  - intros i1 p1 i2 p2 H1 H2. apply list_lookup_insert_Some in H1, H2.
    destruct H1 as [(<- & <- & _)|[? H1]], H2 as [(<- & <- & _)|[? H2]]; [done|..];
      rewrite ?Hlv, ?Hres; by apply (inv_unique _ Hi).
Qed.

(** A connection that holds no request changes to a state without a port. *)
Lemma inv_free c j conn :
  inv c → connections c !! j = Some conn → cn_state conn ≠ Open →
  inv (free_connection j c).
Proof.
  intros Hi Hc Ho. unfold free_connection, upd_conn. rewrite (alter_insert _ _ _ _ Hc).
  pose proof (inv_conn _ Hi _ _ Hc) as Hcl.
  assert (Hjl : (j < length (connections c))%nat) by by eapply lookup_lt_Some.
  constructor; simpl; try apply Hi.
  - rewrite length_insert. apply Hi.
  - intros j0 conn0 [(<- & <- & _)|[_ H0]]%list_lookup_insert_Some; [|by eapply inv_conn].
    destruct Hcl. constructor; simpl; auto; try done; unfold PORT_MAX_EVENT_QUEUE_DEPTH; lia.
  - intros j0 conn0 [(<- & <- & _)|[_ H0]]%list_lookup_insert_Some; [done|exact (inv_bound _ Hi _ _ H0)].
  - intros j0 conn0 [(<- & <- & _)|[_ H0]]%list_lookup_insert_Some; [done|exact (inv_gone _ Hi _ _ H0)].
  - intros i p r Hp Hr Hlr.
    destruct (inv_req _ Hi _ _ _ Hp Hr Hlr) as (j0 & conn0 & Hc0 & Ho0 & Hrest).
    exists j0, conn0. rewrite list_lookup_insert_ne; [done|]. intros <-. by simplify_eq.
Qed.

Lemma params_bounds pr :
  validate_params pr = Ok () → params_typed pr →
  1 ≤ event_depth pr ≤ 64 ∧ 1 ≤ request_depth pr ≤ 64 ∧ 1 ≤ max_outstanding pr ≤ 16 ∧
  max_outstanding pr ≤ request_depth pr.
Proof.
  unfold validate_params, params_typed, in_width, PORT_MAX_EVENT_QUEUE_DEPTH,
    PORT_MAX_REQUEST_QUEUE_DEPTH, PORT_MAX_OUTSTANDING_PER_CONNECTION.
  intros Hv (? & ? & ? & ? & ?). repeat case_decide; simplify_eq; lia.
Qed.

Lemma port_for_None c cls i p :
  port_for c cls i = None → p ∈ ports c → pt_live p = true →
  ¬ (class (pt_resource p) = cls ∧ id (pt_resource p) = i).
Proof.
  unfold port_for. intros Hf Hp Hl [H1 H2]. eapply position_None in Hf; [|done].
  by rewrite Hl, !bool_decide_true in Hf.
Qed.

Lemma inv_register c i p res rs server sgen params :
  inv c → ports c !! i = Some p → pt_live p = false → pt_generation p ≠ u32_max →
  port_for c (class res) (id res) = None → port_rights_for (class res) = Some rs →
  validate_params params = Ok () → params_typed params → server ≠ KERNEL → sgen ≠ 0 →
  inv (MkCore (<[i := registered res rs server sgen params p]> (ports c)) (connections c)).
Proof.
  intros Hi Hp Hd Hg Hf Hrs Hv Ht Hsv Hsg. pose proof (inv_port _ Hi _ _ Hp) as Hpl.
  assert (Hil : (i < length (ports c))%nat) by by eapply lookup_lt_Some.
  assert (Hdead : ∀ r, r ∈ pt_requests p → rq_live r = false) by eauto using dead_port_empty.
  assert (Hfresh : ∀ i0 p0, ports c !! i0 = Some p0 → pt_live p0 = true →
    ¬ (class (pt_resource p0) = class res ∧ id (pt_resource p0) = id res)).
  { intros i0 p0 H0 Hl0. eapply port_for_None; eauto. by eapply list_elem_of_lookup_2. }
  destruct (params_bounds _ Hv Ht) as (_ & ? & _).
  constructor; simpl; try apply Hi.
  - rewrite length_insert. apply Hi.
  - intros i0 p0 [(<- & <- & _)|[_ H0]]%list_lookup_insert_Some; [|by eapply inv_port].
    destruct Hpl as [? Hw _ _ _ _ _ _ _]. unfold u32_max, max_of, in_width in *.
    constructor; unfold queued_requests, in_width; simpl; auto; intros; try lia.
    + rewrite count_if_zero by done. lia.
    + rewrite count_if_zero; [unfold PORT_MAX_TRANSFERS_IN_FLIGHT; lia|].
      intros r Hr. unfold live_carrier. by rewrite Hdead.
  - intros j conn Hc Ha. destruct (inv_bound _ Hi _ _ Hc Ha) as (i0 & p0 & Hp0 & Hl0 & Hk0 & Hb0).
    exists i0, p0. rewrite list_lookup_insert_ne; [done|]. intros ->. congruence.
  - intros j conn Hc Ha. destruct (inv_gone _ Hi _ _ Hc Ha) as (i0 & p0 & g & Hp0 & Hk0 & Hg0 & Hl0).
    destruct (decide (i0 = i)) as [->|Hii].
    + assert (p0 = p) as -> by congruence. eexists i, (registered _ _ _ _ _ p), g.
      rewrite list_lookup_insert_eq by done. split_and!; [done|done|lia|simpl; lia|simpl; lia].
    + exists i0, p0, g. by rewrite list_lookup_insert_ne.
  - intros i0 p0 r [(<- & <- & _)|[Hii H0]]%list_lookup_insert_Some Hr Hlr.
    + simpl in Hr. by rewrite Hdead in Hlr.
    + by apply (inv_req _ Hi).
  - intros i1 p1 i2 p2 H1 H2. apply list_lookup_insert_Some in H1, H2.
    destruct H1 as [(<- & <- & _)|[? H1]], H2 as [(<- & <- & _)|[? H2]]; [done|..]; simpl.
    + intros _ Hl2 He1 He2. destruct (Hfresh _ _ H2 Hl2). by rewrite He1, He2.
    + intros Hl1 _ He1 He2. destruct (Hfresh _ _ H1 Hl1). by rewrite He1, He2.
    + by apply (inv_unique _ Hi).
Qed.

Lemma inv_open c i p j conn caller cap :
  inv c → ports c !! i = Some p → pt_live p = true → connections c !! j = Some conn →
  cn_state conn = Free → cn_generation conn ≠ u32_max → is_process caller = true →
  inv (MkCore (ports c) (<[j := opened (pkey i p) caller cap conn]> (connections c))).
Proof.
  intros Hi Hp Hl Hc Hs Hg Hcl. pose proof (inv_conn _ Hi _ _ Hc) as Hlo.
  assert (Hjl : (j < length (connections c))%nat) by by eapply lookup_lt_Some.
  destruct (pl_params _ (inv_port _ Hi _ _ Hp) Hl) as [Hv Ht].
  destruct (params_bounds _ Hv Ht) as (Hev & _ & Hmo & _).
  apply andb_true_iff in Hcl as [Hk%negb_true_iff Hsg%negb_true_iff].
  apply bool_decide_eq_false in Hk, Hsg.
  assert (in_width 32 (cn_generation conn + 1) ∧ 1 ≤ cn_generation conn + 1) as [Hw H1].
  { destruct Hlo as [Hw _ _ _ _ _ _ _]. unfold u32_max, max_of, in_width in *. lia. }
  assert (Hnone : ∀ r, r ∈ pt_requests p → mine (cid j (opened (pkey i p) caller cap conn)) r = false).
  { intros r Hr. unfold mine. destruct (rq_live r) eqn:Hlr; [|done]. apply bool_decide_eq_false.
    intros He. destruct (inv_req _ Hi _ _ _ Hp Hr Hlr) as (j0 & conn0 & Hc0 & Ho0 & _ & Hid & _).
    destruct (inv_cid _ _ _ Hi Hc0) as (_ & Hsl & _); [by rewrite Ho0|].
    destruct (cid_spec j (opened (pkey i p) caller cap conn)) as (_ & Hsl' & _); [|done..|].
    { eapply u16_nat; [done|apply Hi]. }
    rewrite He in Hid. rewrite Hid in Hsl'. assert (j = j0) as <- by lia. congruence. }
  constructor; simpl; try apply Hi.
  - rewrite length_insert. apply Hi.
  - intros j0 conn0 [(<- & <- & _)|[_ H0]]%list_lookup_insert_Some; [|by eapply inv_conn].
    destruct Hlo. constructor; simpl; auto; try done; unfold PORT_MAX_EVENT_QUEUE_DEPTH; lia.
  - intros j0 conn0 [(<- & <- & _)|[_ H0]]%list_lookup_insert_Some; [|exact (inv_bound _ Hi _ _ H0)].
    intros _. exists i, p. split_and!; auto.
    constructor; simpl; auto; unfold PORT_MAX_TRANSFERS_IN_FLIGHT_PER_CONNECTION; try lia.
    + rewrite count_if_zero; [done|]. apply Hnone.
    + rewrite count_if_zero; [done|]. intros r Hr. unfold my_carrier. by rewrite Hnone.
  - intros j0 conn0 [(<- & <- & _)|[_ H0]]%list_lookup_insert_Some; [done|exact (inv_gone _ Hi _ _ H0)].
  - intros i0 p0 r Hp0 Hr Hlr.
    destruct (inv_req _ Hi _ _ _ Hp0 Hr Hlr) as (j0 & conn0 & Hc0 & Ho0 & Hrest).
    exists j0, conn0. rewrite list_lookup_insert_ne; [done|]. intros <-. congruence.
Qed.

(** * Dropping requests *)

Definition purged (i : ConnectionId) (r : Request) : Request :=
  if mine i r then Request_EMPTY else r.

(** The transfer children of a list of requests, and their release in order. *)
Definition children (q : Request → bool) (rs : list Request) : list TransferredCap :=
  omap rq_transfer (List.filter q rs).

Definition release_children (t : CapabilityTable) (e : Effects B) (l : list TransferredCap)
  : CapabilityTable * Effects B :=
  fold_left (λ s child, release_child (fst s) child (snd s)) l (t, e).

Lemma release_children_cons t e child l :
  release_children t e (child :: l) =
  release_children (fst (release_child t child e)) (snd (release_child t child e)) l.
Proof. unfold release_children. simpl. by destruct (release_child t child e). Qed.

Lemma children_cons q r rs :
  children q (r :: rs) =
  (if q r then match rq_transfer r with Some x => [x] | None => [] end else []) ++ children q rs.
Proof. unfold children. simpl. destruct (q r); [|done]. simpl. by destruct (rq_transfer r). Qed.

Lemma purge_requests_spec i rs tr t e :
  0 ≤ tr →
  purge_requests i rs tr t e =
    (purged i <$> rs, Z.max 0 (tr - Z.of_nat (count_if (my_carrier i) rs)),
     fst (release_children t e (children (mine i) rs)),
     snd (release_children t e (children (mine i) rs))).
Proof.
  revert tr t e. induction rs as [|r rs IH]; intros tr t e Htr.
  { simpl. repeat f_equal. unfold count_if. simpl. lia. }
  cbn [purge_requests]. rewrite children_cons, count_if_cons, fmap_cons.
  unfold purged at 1, my_carrier at 1, carries.
  assert (negb (rq_live r) || negb (bool_decide (rq_connection r = i)) = negb (mine i r)) as ->
    by (unfold mine; by destruct (rq_live r), (bool_decide _)).
  destruct (mine i r); simpl; [|by rewrite IH by done].
  destruct (rq_transfer r) as [child|]; simpl.
  - destruct (release_child t child e) as [t1 e1] eqn:E.
    rewrite IH by (unfold saturating_sub; lia). rewrite release_children_cons, E. simpl.
    do 3 f_equal. unfold saturating_sub. lia.
  - by rewrite IH.
Qed.

Lemma drain_requests_spec rs t e :
  drain_requests rs t e = release_children t e (children rq_live rs).
Proof.
  revert t e. induction rs as [|r rs IH]; intros t e; [done|].
  cbn [drain_requests]. rewrite children_cons.
  destruct (rq_transfer r) as [child|], (rq_live r); simpl; try apply IH.
  rewrite release_children_cons. destruct (release_child t child e) as [t1 e1]. apply IH.
Qed.

Lemma mine_EMPTY i : mine i Request_EMPTY = false.
Proof. done. Qed.

Lemma mine_purged i k r :
  mine k (purged i r) = if decide (k = i) then false else mine k r.
Proof.
  unfold purged. destruct (mine i r) eqn:E; case_decide; subst; try done.
  apply andb_true_iff in E as [_ E%bool_decide_eq_true]. unfold mine.
  rewrite (bool_decide_false (rq_connection r = k)) by congruence. by rewrite andb_false_r.
Qed.

Lemma purged_other i r : mine i r = false → purged i r = r.
Proof. unfold purged. by intros ->. Qed.

Lemma count_purged i rs :
  count_if (mine i) (purged i <$> rs) = 0%nat ∧
  count_if (my_carrier i) (purged i <$> rs) = 0%nat ∧
  (count_if rq_live (purged i <$> rs) ≤ count_if rq_live rs)%nat ∧
  (count_if live_carrier (purged i <$> rs) + count_if (my_carrier i) rs =
    count_if live_carrier rs)%nat ∧
  ∀ k, k ≠ i →
    count_if (mine k) (purged i <$> rs) = count_if (mine k) rs ∧
    count_if (my_carrier k) (purged i <$> rs) = count_if (my_carrier k) rs.
Proof.
  rewrite !count_if_fmap. split_and!.
  - apply count_if_zero. intros r _. by rewrite mine_purged, decide_True.
  - apply count_if_zero. intros r _. unfold my_carrier. by rewrite mine_purged, decide_True.
  - apply count_if_mono. intros r. unfold purged. by destruct (mine i r).
  - rewrite <- (count_if_split (mine i) live_carrier rs), Nat.add_comm. f_equal;
      apply count_if_ext; intros r _; unfold purged, my_carrier, live_carrier.
    + unfold mine. by destruct (rq_live r), (carries r), (bool_decide _).
    + by destruct (mine i r).
  - intros k Hk. rewrite !count_if_fmap. split; apply count_if_ext; intros r _.
    + by rewrite mine_purged, decide_False.
    + unfold my_carrier. rewrite mine_purged, decide_False by done.
      unfold purged. destruct (mine i r) eqn:E; [|done].
      apply andb_true_iff in E as [_ E%bool_decide_eq_true]. unfold mine.
      rewrite (bool_decide_false (rq_connection r = k)) by congruence. by destruct (rq_live r).
Qed.

Lemma elem_of_purged i r (rs : list Request) :
  r ∈ purged i <$> rs → rq_live r = true → r ∈ rs ∧ rq_connection r ≠ i.
Proof.
  intros (r0 & -> & Hr)%list_elem_of_fmap. unfold purged. destruct (mine i r0) eqn:E; [done|].
  intros Hl. split; [done|]. unfold mine in E. rewrite Hl in E. by apply bool_decide_eq_false in E.
Qed.

(** The numbers drawn from a port. *)
Lemma next_seq_bounds s : 1 ≤ s < 2 ^ 64 → 1 ≤ Z.max (wrapping_add 64 s 1) 1 < 2 ^ 64.
Proof.
  intros Hs. pose proof (wrap_in_width 64 (s + 1) ltac:(lia)) as Hw.
  unfold wrapping_add, in_width in *. lia.
Qed.

(** Closing a connection from either end: its requests are dropped, a number is drawn. *)
Definition closed_queue i p : Port B :=
  bump_seq (set_queue (Z.max 0 (pt_transfers p - Z.of_nat (count_if (my_carrier i) (pt_requests p))))
              (purged i <$> pt_requests p) p).

Lemma inv_close c i p j conn conn' :
  inv c → ports c !! i = Some p → connections c !! j = Some conn →
  pt_live p = true → cn_port conn = pkey i p → cn_state conn = Open →
  same_conn conn conn' → cn_events conn' = cn_events conn →
  (cn_event_head conn' = cn_event_head conn ∧ cn_event_len conn' = cn_event_len conn ∧
     is_close_pending (cn_state conn') = false ∨
   cn_event_head conn' = 0%nat ∧ cn_event_len conn' = 0%nat) →
  attached (cn_state conn') → cn_state conn' ≠ Open →
  cn_outstanding conn' = 0 → cn_transfers conn' = 0 →
  inv (MkCore (<[i := closed_queue (cid j conn) p]> (ports c)) (<[j := conn']> (connections c))).
Proof.
  intros Hi Hp Hc Hl Hk Ho Hsc Hev Hring Ha Hno Hz1 Hz2.
  destruct (count_purged (cid j conn) (pt_requests p)) as (Hq1 & Hq2 & Hq3 & Hq4 & Hq5).
  destruct (bound_to _ _ _ _ _ Hi Hp Hc) as [_ Hb]; [by rewrite Ho|done|].
  pose proof (inv_port _ Hi _ _ Hp) as Hpl. pose proof (inv_conn _ Hi _ _ Hc) as Hcl.
  destruct (pl_params _ Hpl Hl) as [Hv Ht]. destruct (params_bounds _ Hv Ht) as (Hpe & _ & Hpo & _).
  pose proof (same_conn_id _ _ j Hsc) as Hid.
  apply (inv_pair c i p _ j conn conn'); auto.
  - by rewrite Ho.
  - by repeat split.
  - destruct Hpl. constructor; simpl; auto.
    + by rewrite length_fmap.
    + intros _. apply next_seq_bounds; auto.
    + intros _. unfold queued_requests. simpl. etrans; [|by apply pl_queued0].
      by apply Nat2Z.inj_le.
    + intros _. destruct (pl_transfers0 Hl) as [H1 H2]. rewrite H1 in *. lia.
  - destruct Hcl, Hsc as (Hs1 & Hs2 & Hs3 & Hs4 & Hs5).
    constructor; rewrite ?Hs1, ?Hs2, ?Hs3, ?Hs4, ?Hs5, ?Hev; auto.
    + intros _. apply cl_pos0. by rewrite Ho.
    + intros _. apply cl_client0. by rewrite Ho.
    + destruct Hring as [(-> & _)|(-> & _)]; [done|]. unfold PORT_MAX_EVENT_QUEUE_DEPTH. lia.
    + destruct Hring as [(_ & -> & _)|(_ & ->)]; [done|lia].
    + intros E. by rewrite E in Ha.
    + done.
  - constructor; simpl; rewrite ?Hid, ?Hz1, ?Hz2, ?Hq1, ?Hq2; auto; try lia.
    + unfold PORT_MAX_TRANSFERS_IN_FLIGHT_PER_CONNECTION. lia.
    + destruct Hring as [(_ & -> & _)|(_ & ->)]; [apply Hb|lia].
    + intros Hcp. destruct Hring as [(_ & _ & Hf)|(_ & Hz)]; [congruence|done].
  - intros r Hr Hlr. left. by apply elem_of_purged.
Qed.

(** * Closing a connection *)

Definition pushes (e : Effects B) (l : list (Effect B)) : Effects B := fold_left push l e.

Definition notice_signal p : list (Effect B) :=
  match pt_wake p with Some wk => [Signal (wk_target wk) (notice_bit wk)] | None => [] end.

(** What [purge_connection] and a drawn number do to the port and the connection. *)
Lemma purge_connection_spec c i p j conn t e :
  inv c → ports c !! i = Some p → pt_live p = true → connections c !! j = Some conn →
  purge_connection i j (MkWorld c t e) =
    MkWorld (MkCore (<[i := set_queue (Z.max 0 (pt_transfers p -
                             Z.of_nat (count_if (my_carrier (cid j conn)) (pt_requests p))))
                           (purged (cid j conn) <$> pt_requests p) p]> (ports c))
                    (<[j := set_counts 0 0 conn]> (connections c)))
      (fst (release_children t e (children (mine (cid j conn)) (pt_requests p))))
      (snd (release_children t e (children (mine (cid j conn)) (pt_requests p)))).
Proof.
  intros Hi Hp Hl Hc. unfold purge_connection. simpl.
  rewrite (port_at_lookup _ _ _ Hp), (connection_id_lookup _ _ _ Hc).
  destruct (pl_transfers _ (inv_port _ Hi _ _ Hp) Hl) as [Htr _].
  rewrite purge_requests_spec by lia. unfold upd_conn, upd_port. simpl.
  by rewrite (alter_insert _ _ _ _ Hp), (alter_insert _ _ _ _ Hc).
Qed.

Definition pending_conn (kind : RecvKind) (reason seqno : Z) conn : Connection :=
  set_closed seqno (ClosePending kind reason) (clear_events (set_counts 0 0 conn)).

Lemma close_pending_spec c j conn kind reason t e :
  inv c → connections c !! j = Some conn → attached (cn_state conn) →
  ∃ i p, ports c !! i = Some p ∧ pt_live p = true ∧ cn_port conn = pkey i p ∧
    let rel := release_children t e (children (mine (cid j conn)) (pt_requests p)) in
    close_pending j kind reason (MkWorld c t e) =
      MkWorld (MkCore (<[i := closed_queue (cid j conn) p]> (ports c))
                 (<[j := pending_conn kind reason (pt_next_seq p) conn]> (connections c)))
        (fst rel)
        (pushes (snd rel) ([WakeServer (pkey i p)] ++ notice_signal p ++
           [WakeSendSpace (pkey i p); WakeConnection (cid j conn)])).
Proof.
  intros Hi Hc Ha. destruct (attached_port _ _ _ Hi Hc Ha) as (i & p & Hx & Hp & Hl & Hk & Hb).
  assert (Hil : (i < length (ports c))%nat) by by eapply lookup_lt_Some.
  assert (Hjl : (j < length (connections c))%nat) by by eapply lookup_lt_Some.
  exists i, p. split_and!; auto. cbv zeta. unfold close_pending. simpl.
  rewrite (conn_at_lookup _ _ _ Hc), Hx, (purge_connection_spec _ _ _ _ _ _ _ Hi Hp Hl Hc).
  set (rel := release_children _ _ _). unfold port_at at 1 2. simpl.
  rewrite list_lookup_insert_eq by done. unfold with_core, upd_port, upd_conn, emit. simpl.
  rewrite (alter_insert _ _ _ _ (list_lookup_insert_eq (ports c) i _ Hil)).
  rewrite (alter_insert _ _ _ _ (list_lookup_insert_eq (connections c) j _ Hjl)).
  rewrite !list_insert_insert_eq. unfold connection_id, key, port_at, conn_at.
  unfold notice_signal, pushes.
  simpl. rewrite !list_lookup_insert_eq by done. simpl.
  destruct (pt_wake p); simpl; by rewrite ?list_lookup_insert_eq by done.
Qed.

Lemma close_pending_inv w j conn kind reason :
  inv (core w) → connections (core w) !! j = Some conn → cn_state conn = Open →
  inv (core (close_pending j kind reason w)).
Proof.
  intros Hi Hc Ho. destruct w as [c t e].
  destruct (close_pending_spec c j conn kind reason t e Hi Hc) as (i & p & Hp & Hl & Hk & ->).
  { by rewrite Ho. }
  simpl. apply (inv_close c i p j conn); auto; by repeat split.
Qed.

(** * Tearing down a port *)

Definition free_conn conn : Connection :=
  MkConn (cn_generation conn) Free NO_PORT KERNEL 0 0 Handle.INVALID 0 0 0 0 0 (cn_events conn).

Definition gone_conn (seqno : Z) conn : Connection :=
  set_closed seqno ServerGone (set_counts 0 0 (clear_events conn)).

(** What the teardown of the port [k] leaves of a connection. *)
Definition torn (k : PortKey) conn conn' : Prop :=
  if decide (attached (cn_state conn) ∧ cn_port conn = k) then
    if is_close_pending (cn_state conn) then conn' = free_conn conn
    else ∃ seqno, conn' = gone_conn seqno conn
  else conn' = conn.

Definition with_seq (s : Z) p : Port B :=
  MkPort (pt_generation p) (pt_live p) (pt_resource p) (pt_rights p) (pt_server p)
    (pt_server_generation p) (pt_params p) s (pt_transfers p) (pt_wake p) (pt_requests p).

Definition wakes_attached c (k : PortKey) (x : Effect B) : Prop :=
  ∃ j conn, connections c !! j = Some conn ∧ attached (cn_state conn) ∧ cn_port conn = k ∧
    x = WakeConnection (cid j conn).

Lemma pushes_app e l l' : pushes e (l ++ l') = pushes (pushes e l) l'.
Proof. apply fold_left_app. Qed.

(** One iteration of the loop over the connections. *)
Lemma teardown_connection_spec c0 i p k j conn w s l :
  ports c0 !! i = Some p → 1 ≤ s < 2 ^ 64 →
  ports (core w) = <[i := with_seq s p]> (ports c0) →
  connections (core w) !! j = Some conn →
  connections c0 !! j = Some conn →
  Forall (wakes_attached c0 k) l →
  ∃ s' conn' l',
    teardown_connection i k j w =
      MkWorld (MkCore (<[i := with_seq s' p]> (ports c0)) (<[j := conn']> (connections (core w))))
        (table w) (pushes (effects w) l') ∧
    1 ≤ s' < 2 ^ 64 ∧ torn k conn conn' ∧ Forall (wakes_attached c0 k) (l ++ l') ∧
    (attached (cn_state conn) ∧ cn_port conn = k → is_close_pending (cn_state conn) = false →
     WakeConnection (cid j conn) ∈ l').
Proof.
  intros Hp Hs Hpw Hc Hc0 Hl. destruct w as [[ps cs] t e]. simpl in *. subst ps.
  assert (Hil : (i < length (ports c0))%nat) by by eapply lookup_lt_Some.
  assert (Hjl : (j < length cs)%nat) by by eapply lookup_lt_Some.
  unfold teardown_connection, conn_at. simpl. rewrite Hc. simpl.
  assert (Hsame : ¬ (attached (cn_state conn) ∧ cn_port conn = k) → ∃ s' conn' l',
    MkWorld (MkCore (<[i := with_seq s p]> (ports c0)) cs) t e =
      MkWorld (MkCore (<[i := with_seq s' p]> (ports c0)) (<[j := conn']> cs)) t (pushes e l') ∧
    1 ≤ s' < 2 ^ 64 ∧ torn k conn conn' ∧ Forall (wakes_attached c0 k) (l ++ l') ∧
    (attached (cn_state conn) ∧ cn_port conn = k → is_close_pending (cn_state conn) = false →
     WakeConnection (cid j conn) ∈ l')).
  { intros Hn. exists s, conn, []. unfold torn. rewrite (list_insert_id cs), decide_False by done.
    by rewrite app_nil_r. }
  case_decide as Hskip.
  { apply Hsame. intros [Ha <-]. by destruct Hskip as [E|?]; [rewrite E in Ha|]. }
  assert (cn_port conn = k) as Hk by (destruct (decide (cn_port conn = k)); naive_solver).
  destruct (cn_state conn) as [| |kind reason|reason|] eqn:E; try naive_solver.
  1, 3: unfold with_core, upd_port, upd_conn, emit; simpl;
    rewrite (alter_insert _ _ _ _ (list_lookup_insert_eq (ports c0) i _ Hil));
    rewrite (alter_insert _ _ _ _ Hc), list_insert_insert_eq;
    exists (Z.max (wrapping_add 64 s 1) 1);
    eexists (gone_conn s conn), [WakeConnection (cid j conn)];
    (split_and!; [|by apply next_seq_bounds..| | |by intros; left]);
    [unfold port_at, connection_id, conn_at; simpl;
     rewrite !list_lookup_insert_eq by done; reflexivity
    |unfold torn; rewrite E; rewrite decide_True by done; by eexists
    |apply Forall_app; split; [done|]; constructor; [|done]; exists j, conn; by rewrite E].
  eexists s, (free_conn conn), []. split_and!; [|lia..| |by rewrite app_nil_r|done].
  - unfold with_core, free_connection, upd_conn. simpl. by rewrite (alter_insert _ _ _ _ Hc).
  - unfold torn. rewrite E. by rewrite decide_True.
Qed.

(** The connections after the teardown of the port [k], slot by slot. *)
Definition torn_conns (k : PortKey) (cs cs' : list Connection) : Prop :=
  length cs' = length cs ∧
  ∀ j conn, cs !! j = Some conn → ∃ conn', cs' !! j = Some conn' ∧ torn k conn conn'.

(** The wakes of a teardown: attached connections only, and every one that is not the server's
    own pending notice. *)
Definition torn_wakes c (k : PortKey) (l : list (Effect B)) : Prop :=
  Forall (wakes_attached c k) l ∧
  ∀ j conn, connections c !! j = Some conn → attached (cn_state conn) ∧ cn_port conn = k →
    is_close_pending (cn_state conn) = false → WakeConnection (cid j conn) ∈ l.

(** The loop after [n] connections. *)
Definition torn_upto c0 i p k t e (n : nat) w : Prop :=
  ∃ s cs l,
    w = MkWorld (MkCore (<[i := with_seq s p]> (ports c0)) cs) t (pushes e l) ∧
    1 ≤ s < 2 ^ 64 ∧ Forall (wakes_attached c0 k) l ∧ length cs = length (connections c0) ∧
    (∀ j conn, connections c0 !! j = Some conn → ∃ conn', cs !! j = Some conn' ∧
      if decide (j < n)%nat then torn k conn conn' else conn' = conn) ∧
    ∀ j conn, (j < n)%nat → connections c0 !! j = Some conn →
      attached (cn_state conn) ∧ cn_port conn = k → is_close_pending (cn_state conn) = false →
      WakeConnection (cid j conn) ∈ l.

Lemma torn_upto_step c0 i p k t e n w :
  ports c0 !! i = Some p → (n < length (connections c0))%nat →
  torn_upto c0 i p k t e n w → torn_upto c0 i p k t e (S n) (teardown_connection i k n w).
Proof.
  intros Hp Hn (s1 & cs1 & l1 & -> & Hs1 & Hl1 & Hlen & Hcs & Hwk).
  destruct (lookup_lt_is_Some_2 (connections c0) n Hn) as [conn Hc].
  destruct (Hcs _ _ Hc) as (conn0 & Hc1 & H0). rewrite decide_False in H0 by lia. subst conn0.
  destruct (teardown_connection_spec c0 i p k n conn
    (MkWorld (MkCore (<[i := with_seq s1 p]> (ports c0)) cs1) t (pushes e l1)) s1 l1)
    as (s2 & conn2 & l2 & -> & Hs2 & Ht & Hl2 & Hw2); auto. simpl.
  exists s2, (<[n := conn2]> cs1), (l1 ++ l2). rewrite pushes_app, length_insert.
  split_and!; auto; try lia.
  - intros j conn3 Hc3. destruct (decide (j = n)) as [->|Hj].
    + exists conn2. rewrite list_lookup_insert_eq by lia. rewrite decide_True by lia.
      split; [done|]. congruence.
    + destruct (Hcs _ _ Hc3) as (conn4 & Hc4 & H4). exists conn4.
      rewrite list_lookup_insert_ne by done. split; [done|].
      destruct (decide (j < n)%nat); [rewrite decide_True by lia|rewrite decide_False by lia]; done.
  - intros j conn3 Hj Hc3 Ha Hcp. apply elem_of_app. destruct (decide (j = n)) as [->|Hne].
    + right. assert (conn3 = conn) as -> by congruence. auto.
    + left. apply Hwk; auto. lia.
Qed.

Lemma teardown_loop c0 i p k t e :
  ports c0 !! i = Some p → 1 ≤ pt_next_seq p < 2 ^ 64 →
  ∃ s cs l,
    for_range 0 (length (connections c0)) (teardown_connection i k) (MkWorld c0 t e) =
    MkWorld (MkCore (<[i := with_seq s p]> (ports c0)) cs) t (pushes e l) ∧
    torn_conns k (connections c0) cs ∧ torn_wakes c0 k l.
Proof.
  intros Hp Hs.
  assert (torn_upto c0 i p k t e (length (connections c0))
    (for_range 0 (length (connections c0)) (teardown_connection i k) (MkWorld c0 t e))) as Hloop.
  { apply for_range_ind; [lia| |intros n w [_ Hn]; by apply torn_upto_step].
    exists (pt_next_seq p), (connections c0), []. split_and!; auto; try lia.
    - replace (with_seq (pt_next_seq p) p) with p by by destruct p.
      rewrite list_insert_id by done. by destruct c0.
    - intros j conn Hc. exists conn. by rewrite decide_False by lia. }
  destruct Hloop as (s' & cs' & l & -> & Hs' & Hl & Hlen & Hcs & Hwk).
  exists s', cs', l. split_and!; auto.
  2: { split; [done|]. intros j conn Hc. apply Hwk; [|done]. by eapply lookup_lt_Some. }
  split; [done|]. intros j conn Hc.
  destruct (Hcs _ _ Hc) as (conn' & Hc' & H). exists conn'. split; [done|].
  by rewrite decide_True in H by (eapply lookup_lt_Some, Hc).
Qed.

Definition dead_port (s : Z) p : Port B :=
  kill_port (with_seq s (set_queue 0 (replicate (length (pt_requests p)) Request_EMPTY) p)).

Lemma teardown_port_spec c i p t e :
  inv c → ports c !! i = Some p → pt_live p = true →
  let rel := release_children t e (children rq_live (pt_requests p)) in
  ∃ s cs l,
    teardown_port i (MkWorld c t e) =
      MkWorld (MkCore (<[i := dead_port s p]> (ports c)) cs) (fst rel)
        (pushes (snd rel) (l ++ [WakeSendSpace (pkey i p); WakeServer (pkey i p)])) ∧
    torn_conns (pkey i p) (connections c) cs ∧ torn_wakes c (pkey i p) l.
Proof.
  intros Hi Hp Hl rel. assert (Hil : (i < length (ports c))%nat) by by eapply lookup_lt_Some.
  unfold teardown_port. simpl. rewrite (key_lookup _ _ _ Hp), (port_at_lookup _ _ _ Hp).
  rewrite drain_requests_spec. fold rel. destruct rel as [t1 e1].
  set (q := set_queue 0 (replicate (length (pt_requests p)) Request_EMPTY) p).
  assert (upd_port i (set_queue 0 (replicate (length (pt_requests p)) Request_EMPTY)) c =
    MkCore (<[i := q]> (ports c)) (connections c)) as ->
    by (unfold upd_port; by rewrite (alter_insert _ _ _ _ Hp)).
  destruct (teardown_loop (MkCore (<[i := q]> (ports c)) (connections c)) i q (pkey i p) t1 e1)
    as (s & cs & l & Hloop & Ht & Hw).
  - simpl. by rewrite list_lookup_insert_eq.
  - by apply (pl_seq _ (inv_port _ Hi _ _ Hp)).
  - simpl in Hloop, Ht. rewrite Hloop. exists s, cs, l. split_and!; auto.
    unfold with_core, upd_port, emit. rewrite pushes_app. simpl. rewrite list_insert_insert_eq.
    by rewrite (alter_insert _ _ _ _ (list_lookup_insert_eq (ports c) i _ Hil)), list_insert_insert_eq.
Qed.

Lemma torn_inv k conn conn' :
  torn k conn conn' →
  conn' = conn ∧ ¬ (attached (cn_state conn) ∧ cn_port conn = k) ∨
  cn_port conn = k ∧ attached (cn_state conn) ∧
    (conn' = free_conn conn ∨ ∃ seqno, conn' = gone_conn seqno conn).
Proof.
  unfold torn. case_decide as Ha; [|auto]. intros H. right.
  destruct (is_close_pending _); naive_solver.
Qed.

Lemma inv_teardown c i p s cs :
  inv c → ports c !! i = Some p → pt_live p = true → torn_conns (pkey i p) (connections c) cs →
  inv (MkCore (<[i := dead_port s p]> (ports c)) cs).
Proof.
  intros Hi Hp Hl [Hlen Ht]. assert (Hil : (i < length (ports c))%nat) by by eapply lookup_lt_Some.
  assert (Hback : ∀ j conn', cs !! j = Some conn' →
    ∃ conn, connections c !! j = Some conn ∧ torn (pkey i p) conn conn').
  { intros j conn' Hc'. destruct (lookup_lt_is_Some_2 (connections c) j) as [conn Hc].
    { rewrite <- Hlen. by eapply lookup_lt_Some. }
    destruct (Ht _ _ Hc) as (conn1 & Hc1 & H1). exists conn. split; [done|congruence]. }
  constructor; simpl.
  - rewrite length_insert. apply Hi.
  - rewrite Hlen. apply Hi.
  - intros i0 p0 [(<- & <- & _)|[_ H0]]%list_lookup_insert_Some; [|by eapply inv_port].
    destruct (inv_port _ Hi _ _ Hp). constructor; simpl; auto; try done. by rewrite length_replicate.
  - intros j conn' Hc'. destruct (Hback _ _ Hc') as (conn & Hc & H%torn_inv).
    pose proof (inv_conn _ Hi _ _ Hc) as [].
    destruct H as [[-> _]|(_ & Ha & [->|[sq ->]])]; [by eapply inv_conn| |];
      (constructor; simpl; auto; try done; try (unfold PORT_MAX_EVENT_QUEUE_DEPTH; lia));
      intros _; [apply cl_pos0|apply cl_client0]; intros E; by rewrite E in Ha.
  - intros j conn' Hc' Ha'. destruct (Hback _ _ Hc') as (conn & Hc & H%torn_inv).
    destruct H as [[-> Hn]|(_ & Ha & [->|[sq ->]])]; [|done..].
    destruct (inv_bound _ Hi _ _ Hc Ha') as (i0 & p0 & Hp0 & Hl0 & Hk0 & Hb0).
    exists i0, p0. rewrite list_lookup_insert_ne; [done|]. intros <-. simplify_eq. tauto.
  - intros j conn' Hc' Ha'. destruct (Hback _ _ Hc') as (conn & Hc & H%torn_inv).
    destruct H as [[-> Hn]|(Hk & Ha & [->|[sq ->]])]; [|done|].
    + destruct (inv_gone _ Hi _ _ Hc Ha') as (i0 & p0 & g & Hp0 & Hk0 & Hg0 & Hl0).
      destruct (decide (i0 = i)) as [->|Hii].
      * assert (p0 = p) as -> by congruence. exists i, (dead_port s p), g.
        by rewrite list_lookup_insert_eq.
      * exists i0, p0, g. by rewrite list_lookup_insert_ne.
    + exists i, (dead_port s p), (pt_generation p). rewrite list_lookup_insert_eq by done.
      split_and!; auto; simpl; try done. by apply (pl_pos _ (inv_port _ Hi _ _ Hp)).
  - intros i0 p0 r [(<- & <- & _)|[Hii H0]]%list_lookup_insert_Some Hr Hlr.
    + simpl in Hr. apply elem_of_replicate in Hr as [-> _]. done.
    + destruct (inv_req _ Hi _ _ _ H0 Hr Hlr) as (j0 & conn0 & Hc0 & Ho0 & Hk0 & Hrest).
      destruct (Ht _ _ Hc0) as (conn1 & Hc1 & H1%torn_inv).
      destruct H1 as [[-> _]|(Hk & _)]; [by exists j0, conn0|].
      rewrite Hk in Hk0. destruct Hii. symmetry. by eapply pkey_inj.
  - intros i1 p1 i2 p2 H1 H2. apply list_lookup_insert_Some in H1, H2.
    destruct H1 as [(<- & <- & _)|[? H1]], H2 as [(<- & <- & _)|[? H2]]; [done|done|done|].
    by apply (inv_unique _ Hi).
Qed.

Lemma teardown_port_inv w i p :
  inv (core w) → ports (core w) !! i = Some p → pt_live p = true → inv (core (teardown_port i w)).
Proof.
  intros Hi Hp Hl. destruct w as [c t e].
  destruct (teardown_port_spec c i p t e Hi Hp Hl) as (s & cs & l & -> & Ht & _). simpl.
  by apply inv_teardown.
Qed.

(** * Queueing and taking a request *)

(** 1 for a request that carries a transfer. *)
Definition weight r : Z := if carries r then 1 else 0.

Lemma inv_enqueue c i p j conn n r0 r :
  inv c → ports c !! i = Some p → connections c !! j = Some conn →
  pt_live p = true → cn_port conn = pkey i p → cn_state conn = Open →
  pt_requests p !! n = Some r0 → rq_live r0 = false →
  rq_seq r = pt_next_seq p → rq_connection r = cid j conn → sender_ok conn r →
  cn_outstanding conn < max_outstanding (pt_params p) →
  Z.of_nat (queued_requests p) < request_depth (pt_params p) →
  (carries r = true → cn_transfers conn < PORT_MAX_TRANSFERS_IN_FLIGHT_PER_CONNECTION ∧
     pt_transfers p < PORT_MAX_TRANSFERS_IN_FLIGHT) →
  inv (MkCore (<[i := set_queue (pt_transfers p + weight r) (<[n := r]> (pt_requests p)) (bump_seq p)]>
                 (ports c))
         (<[j := set_counts (cn_outstanding conn + 1) (cn_transfers conn + weight r) conn]>
            (connections c))).
Proof.
  intros Hi Hp Hc Hl Hk Ho Hn Hd Hsq Hid Hsd Hmo Hrd Htr.
  destruct (bound_to _ _ _ _ _ Hi Hp Hc) as [_ Hb]; [by rewrite Ho|done|].
  pose proof (inv_port _ Hi _ _ Hp) as Hpl. pose proof (inv_conn _ Hi _ _ Hc) as Hcl.
  pose proof (pl_seq _ Hpl Hl) as Hs.
  assert (rq_live r = true) as Hlr.
  { unfold rq_live. rewrite bool_decide_false; [done|lia]. }
  assert (∀ q, (∀ x, rq_live x = false → q x = false) →
    count_if q (<[n := r]> (pt_requests p)) = (count_if q (pt_requests p) + Nat.b2n (q r))%nat) as Hq.
  { intros q Hq. pose proof (count_if_insert q _ _ _ r Hn) as Hx. rewrite (Hq _ Hd) in Hx.
    simpl in Hx. lia. }
  assert (∀ k, mine k r = bool_decide (cid j conn = k)) as Hm by (intros; unfold mine; by rewrite Hlr, Hid).
  assert (∀ k x, rq_live x = false → mine k x = false) as Hm0 by (intros k x Hx; unfold mine; by rewrite Hx).
  assert (∀ k x, rq_live x = false → my_carrier k x = false) as Hm1
    by (intros k x Hx; unfold my_carrier; by rewrite Hm0).
  assert (weight r = Z.of_nat (Nat.b2n (carries r))) as Hw by (unfold weight; by destruct (carries r)).
  apply (inv_pair c i p _ j conn); auto.
  - by rewrite Ho.
  - by repeat split.
  - destruct Hpl. constructor; simpl; auto.
    + by rewrite length_insert.
    + intros _. by apply next_seq_bounds.
    + intros _. unfold queued_requests in *. simpl. rewrite Hq by done. rewrite Hlr. simpl. lia.
    + intros _. destruct (pl_transfers0 Hl) as [H1 H2].
      rewrite Hq by (intros x Hx; unfold live_carrier; by rewrite Hx).
      unfold live_carrier at 2. rewrite Hlr. simpl. rewrite Hw.
      destruct (carries r); simpl; [destruct (Htr eq_refl)|]; lia.
  - by repeat split.
  - destruct Hcl. constructor; simpl; auto. rewrite Ho. simpl. tauto.
  - simpl. by rewrite Ho.
  - destruct Hb. constructor; simpl; auto; try (unfold cid at 1; simpl; fold (cid j conn)).
    + rewrite Hq, Hm, bool_decide_true by (try done; apply Hm0). simpl. lia.
    + rewrite Hq by apply Hm1. unfold my_carrier at 2. rewrite Hm, bool_decide_true by done.
      simpl. rewrite Hw. lia.
    + lia.
    + rewrite Hw. destruct (carries r); simpl; [destruct (Htr eq_refl)|]; lia.
    + by rewrite Ho.
  - intros k Hk0. simpl. rewrite !Hq by (apply Hm0 || apply Hm1). unfold my_carrier at 2.
    rewrite Hm, bool_decide_false by done. simpl. by rewrite !Nat.add_0_r.
  - simpl. intros r1 Hr1 Hlr1. destruct (decide (rq_connection r1 = cid j conn)) as [He|He].
    + right. split_and!; [done|done|]. apply list_elem_of_lookup in Hr1 as [m Hm2].
      apply list_lookup_insert_Some in Hm2 as [(_ & <- & _)|[_ Hm2]]; [done|].
      destruct (inv_req _ Hi _ _ _ Hp (list_elem_of_lookup_2 _ _ _ Hm2) Hlr1)
        as (j1 & conn1 & Hc1 & Ho1 & _ & Hid1 & Hs1).
      assert (j1 = j) as -> by (eapply cid_inj; eauto; congruence). by simplify_eq.
    + left. split; [|done]. apply list_elem_of_lookup in Hr1 as [m Hm2].
      apply list_lookup_insert_Some in Hm2 as [(_ & <- & _)|[_ Hm2]]; [congruence|].
      by eapply list_elem_of_lookup_2.
Qed.

Lemma inv_dequeue c i p j conn n r :
  inv c → ports c !! i = Some p → connections c !! j = Some conn →
  cn_port conn = pkey i p → cn_state conn = Open →
  pt_requests p !! n = Some r → rq_live r = true → rq_connection r = cid j conn →
  inv (MkCore (<[i := set_queue (pt_transfers p - weight r) (<[n := Request_EMPTY]> (pt_requests p)) p]>
                 (ports c))
         (<[j := set_counts (cn_outstanding conn - 1) (cn_transfers conn - weight r) conn]>
            (connections c))).
Proof.
  intros Hi Hp Hc Hk Ho Hn Hlr Hid.
  destruct (bound_to _ _ _ _ _ Hi Hp Hc) as [Hl Hb]; [by rewrite Ho|done|].
  pose proof (inv_port _ Hi _ _ Hp) as Hpl. pose proof (inv_conn _ Hi _ _ Hc) as Hcl.
  assert (∀ q, q Request_EMPTY = false → count_if q (pt_requests p) =
    (count_if q (<[n := Request_EMPTY]> (pt_requests p)) + Nat.b2n (q r))%nat) as Hq.
  { intros q Hq. pose proof (count_if_insert q _ _ _ Request_EMPTY Hn) as Hx. rewrite Hq in Hx.
    simpl in Hx. lia. }
  assert (∀ k, mine k r = bool_decide (cid j conn = k)) as Hm by (intros; unfold mine; by rewrite Hlr, Hid).
  assert (weight r = Z.of_nat (Nat.b2n (carries r))) as Hw by (unfold weight; by destruct (carries r)).
  apply (inv_pair c i p _ j conn); auto.
  - by rewrite Ho.
  - by repeat split.
  - destruct Hpl. constructor; simpl; auto.
    + by rewrite length_insert.
    + intros _. unfold queued_requests in *. simpl. specialize (pl_queued0 Hl).
      rewrite (Hq rq_live), Hlr in pl_queued0 by done. simpl in pl_queued0. lia.
    + intros _. destruct (pl_transfers0 Hl) as [H1 H2]. rewrite (Hq live_carrier) in H1 by done.
      unfold live_carrier at 2 in H1. rewrite Hlr in H1. simpl in H1. rewrite Hw. lia.
  - by repeat split.
  - destruct Hcl. constructor; simpl; auto. rewrite Ho. simpl. tauto.
  - simpl. by rewrite Ho.
  - destruct Hb as [H1 H2 H3 H4 H5 H6 H7].
    rewrite (Hq (mine (cid j conn))), Hm, bool_decide_true in H1 by done.
    rewrite (Hq (my_carrier (cid j conn))) in H2 by done. unfold my_carrier at 2 in H2.
    rewrite Hm, bool_decide_true in H2 by done. simpl in H1, H2.
    constructor; simpl; auto; try (unfold cid at 1; simpl; fold (cid j conn)); try lia.
    by rewrite Ho.
  - intros k Hk0. simpl. rewrite (Hq (mine k)), (Hq (my_carrier k)) by done. unfold my_carrier at 3.
    rewrite Hm, bool_decide_false by done. simpl. by rewrite !Nat.add_0_r.
  - simpl. intros r1 Hr1 Hlr1. apply list_elem_of_lookup in Hr1 as [m Hm2].
    apply list_lookup_insert_Some in Hm2 as [(_ & <- & _)|[_ Hm2]]; [done|].
    apply list_elem_of_lookup_2 in Hm2.
    destruct (decide (rq_connection r1 = cid j conn)) as [He|He]; [|by left].
    right. split_and!; [done|done|].
    destruct (inv_req _ Hi _ _ _ Hp Hm2 Hlr1) as (j1 & conn1 & Hc1 & Ho1 & _ & Hid1 & Hs1).
    assert (j1 = j) as -> by (eapply cid_inj; eauto; congruence). by simplify_eq.
Qed.

(** A step of a connection's event ring, with the number drawn for it. *)
Lemma inv_events c i p p' j conn conn' :
  inv c → ports c !! i = Some p → connections c !! j = Some conn →
  cn_port conn = pkey i p → attached (cn_state conn) →
  (p' = p ∨ p' = bump_seq p) → same_conn conn conn' →
  cn_state conn' = cn_state conn → is_close_pending (cn_state conn) = false →
  cn_outstanding conn' = cn_outstanding conn → cn_transfers conn' = cn_transfers conn →
  length (cn_events conn') = length (cn_events conn) →
  (cn_event_head conn' < PORT_MAX_EVENT_QUEUE_DEPTH)%nat →
  Z.of_nat (cn_event_len conn') ≤ event_depth (pt_params p) →
  inv (MkCore (<[i := p']> (ports c)) (<[j := conn']> (connections c))).
Proof.
  intros Hi Hp Hc Hk Ha Hp' Hsc Hst Hcp Ho Htr Hlen Hhd Hev.
  destruct (bound_to _ _ _ _ _ Hi Hp Hc Ha Hk) as [Hl Hb].
  pose proof (inv_port _ Hi _ _ Hp) as Hpl. pose proof (inv_conn _ Hi _ _ Hc) as Hcl.
  destruct (pl_params _ Hpl Hl) as [Hv Ht]. destruct (params_bounds _ Hv Ht) as (Hpe & _).
  assert (same_port p p' ∧ pt_requests p' = pt_requests p ∧ pt_transfers p' = pt_transfers p ∧
    1 ≤ pt_next_seq p' < 2 ^ 64) as (Hsp & Hrs & Hpt & Hsq).
  { pose proof (pl_seq _ Hpl Hl) as Hs. destruct Hp' as [->| ->];
      (split; [by repeat split|split; [done|split; [done|]]]); [done|by apply next_seq_bounds]. }
  apply (inv_pair c i p _ j conn); auto.
  - destruct Hpl, Hsp as (Hg & Hlv & Hres & Hri & Hsv & Hsg & Hpar).
    constructor; unfold queued_requests in *; rewrite ?Hg, ?Hlv, ?Hres, ?Hri, ?Hsv, ?Hsg, ?Hpar, ?Hrs, ?Hpt; auto.
  - destruct Hcl, Hsc as (Hs1 & Hs2 & Hs3 & Hs4 & Hs5).
    constructor; rewrite ?Hs1, ?Hs2, ?Hs3, ?Hs4, ?Hs5, ?Hst; auto; try congruence; try tauto.
    unfold PORT_MAX_EVENT_QUEUE_DEPTH. lia.
  - by rewrite Hst.
  - pose proof (same_conn_id _ _ j Hsc) as Hid. destruct Hb, Hsp as (_ & _ & _ & _ & _ & _ & Hpar).
    constructor; rewrite ?Hid, ?Hrs, ?Hpar, ?Ho, ?Htr, ?Hst; auto. by rewrite Hcp.
  - intros k _. by rewrite Hrs.
  - intros r Hr Hlr. rewrite Hrs in Hr. destruct (decide (rq_connection r = cid j conn)) as [He|He]; [|by left].
    right. split; [done|]. destruct (mine_port c i p j conn r Hi Hp Hc) as [Ho1 _]; auto.
    { by destruct (cn_state conn). } { unfold mine. by rewrite Hlr, bool_decide_true. }
    split; [congruence|].
    destruct (inv_req _ Hi _ _ _ Hp Hr Hlr) as (j1 & conn1 & Hc1 & Ho2 & _ & Hid1 & Hs1).
    assert (j1 = j) as -> by (eapply cid_inj; eauto; congruence). simplify_eq.
    destruct Hsc as (_ & _ & E1 & E2 & _). unfold sender_ok in *. by rewrite E1, E2.
Qed.
End inv.
