(* ===== verification/PortTransfer.v ===== *)
(** Capability transfer over ports, against the capability table
    ([port/src/transfer.rs] and [capability/src]).

    What a validated transfer guarantees, where the child is installed, and what the
    release of undelivered children does to the table. *)

From Stdlib Require Import ZArith Lia.
From stdpp Require Import base list tactics decidable numbers strings relations.
From S2P Require Import Prelude Bytes CapTypes CapTable CapTree NativeAbi PortEngine PortInv.
Import Table.

Local Open Scope Z_scope.

Section transfer.
Context {B : Type} `{EqDecision B}.

(** T1-T5: the parent is a live, delegable capability of the sender on the attested buffer. *)
Lemma validate_Ok t sender tr v :
  validate t sender tr = Ok v →
  let p := record_at t (slot_of (tr_handle tr)) in
  vt_parent v = p ∧ state p = Live ∧ generation p = h_generation (tr_handle tr) ∧
  holder p = sender ∧ class (resource p) = SharedBuffer ∧
  RightsOps.DELEGATE ⊑r rights p ∧ RightsOps.READ ⊑r rights p ∧
  Id.decode (id (resource p)) = Ok (vt_buffer v) ∧
  tr_attestation tr = Ok (vt_buffer v, vt_byte_len v) ∧
  vt_provenance v = MkProvenance (Some (tr_handle tr)) (depth (provenance p) + 1)
                      (root_holder (provenance p)) ∧
  depth (provenance p) + 1 ≤ MAX_DELEGATION_DEPTH.
Proof.
  unfold validate. destruct (Table.record t (tr_handle tr)) as [p|] eqn:Hr; [simpl|done].
  apply record_Ok in Hr as (-> & _). case_decide as Hp; [done|].
  destruct (validate_delegation _ _ _ _) as [x|] eqn:Hv; [simpl|done].
  apply validate_delegation_Ok in Hv as (_ & Hl & Hg & Hh & Hd & Hx & _).
  destruct (Id.decode _) as [b|] eqn:Hb; [simpl|done].
  destruct (tr_attestation tr) as [[a len]|] eqn:Ha; [simpl|done]. case_decide as Hab; [done|].
  destruct (ProvenanceOps.child_of _ _) as [prov|] eqn:Hc; [simpl|done]. intros [= <-]. simpl.
  unfold ProvenanceOps.child_of in Hc. destruct (checked_add _ _ _) as [d|] eqn:Hd'; [simpl in Hc|done].
  apply checked_add_Some in Hd' as [-> _]. case_decide as Hdep; [done|]. injection Hc as <-.
  assert (a = b) as -> by (destruct (decide (a = b)); tauto).
  split_and!; auto; try lia. destruct (decide (class (resource (record_at t (slot_of (tr_handle tr)))) =
    SharedBuffer)); tauto.
Qed.

Lemma has_installable_slot_true t :
  has_installable_slot t = true ↔ ∃ i, (i < capacity t)%nat ∧ installable (record_at t i).
Proof.
  unfold has_installable_slot, installable. rewrite existsb_exists. split.
  - intros (i & Hi%list_elem_of_In%elem_of_seq & [He Hg]%andb_true_iff).
    apply bool_decide_eq_true in He. apply negb_true_iff, bool_decide_eq_false in Hg.
    exists i. unfold state_at in He. rewrite decide_False in He by lia. split; [lia|done].
  - intros (i & Hi & He & Hg). exists i. split; [apply list_elem_of_In, elem_of_seq; lia|].
    unfold state_at. rewrite decide_False by lia. by rewrite He, bool_decide_true, bool_decide_false.
Qed.

(** The table T6 leaves for the install of T7. *)
Definition reclaimed (t : CapabilityTable) : CapabilityTable :=
  if has_installable_slot t then t else fst (release_revoked t).

Lemma reclaimed_steps t : slot_steps t (reclaimed t).
Proof. unfold reclaimed. destruct (has_installable_slot t); auto using release_revoked_steps with cs. Qed.

Lemma reclaimed_live t i :
  (state (record_at (reclaimed t) i) = Live ↔ state (record_at t i) = Live) ∧
  (state (record_at t i) = Live → record_at (reclaimed t) i = record_at t i).
Proof.
  unfold reclaimed. destruct (has_installable_slot t); [done|]. rewrite release_revoked_table.
  destruct (release_where_spec (λ _, true) t) as [_ H]. rewrite H. apply released_if_live.
Qed.

Definition child_cap (v : ValidatedTransfer) (h : CapabilityHandle) : TransferredCap :=
  MkTransferred (Handle.encode h) (Id.encode (vt_buffer v)) (vt_byte_len v)
    TRANSFER_CHILD_RIGHTS (ResourceClassOps.as_u8 SharedBuffer).

(** T6 and T7: no space, or the child is granted in the reclaimed table. *)
Lemma install_child_cases t server v t' out :
  addressable t → class (resource (vt_parent v)) = SharedBuffer →
  install_child t server v = (t', out) →
  (t' = reclaimed t ∧ t' = fst (release_revoked t) ∧ out = Err P_NoSpace) ∨
  ∃ h, grant (reclaimed t) server (resource (vt_parent v)) TRANSFER_CHILD_RIGHTS (vt_provenance v)
         = (t', Ok h) ∧ out = Ok (child_cap v h).
Proof.
  intros Ha Hc Hi.
  assert (Hsome : ∀ u, slot_steps t u → has_installable_slot u = true →
    install_validated u server v = (t', out) →
    ∃ h, grant u server (resource (vt_parent v)) TRANSFER_CHILD_RIGHTS (vt_provenance v) = (t', Ok h) ∧
      out = Ok (child_cap v h)).
  { intros u Hs (i0 & Hi0 & Hin0)%has_installable_slot_true. unfold install_validated.
    rewrite install_as_grant. simpl. destruct (grant u _ _ _ _) as [u' o] eqn:E.
    pose proof E as Hg. apply grant_cases in Hg as [(_ & _ & Hv)|(_ & _ & _ & [(_ & _ & _ & Hno)|
      (i & Hi1 & Hin & _ & _ & _ & _ & Ho)])].
    - destruct Hv. by rewrite Hc.
    - by destruct (Hno i0).
    - apply slot_steps_capacity in Hs. unfold addressable, u16_max, max_of in *.
      rewrite decide_True in Ho by lia. subst o. intros [= <- <-]. eauto. }
  unfold install_child in Hi. unfold reclaimed. destruct (has_installable_slot t) eqn:E.
  - right. apply Hsome; auto with cs.
  - destruct (has_installable_slot (fst (release_revoked t))) eqn:E'.
    + right. apply Hsome; auto using release_revoked_steps.
    + left. by simplify_eq.
Qed.

(** The record of an installed child. *)
Lemma granted_child t h res x prov t' hd :
  table_wf t → addressable t → grant t h res x prov = (t', Ok hd) →
  let i := slot_of hd in
  (i < capacity t')%nat ∧ installable (record_at t i) ∧
  record_at t' i = MkRecord Live h res x prov (h_generation hd) ∧
  (∀ j, state (record_at t j) = Live → j ≠ i ∧ record_at t' j = record_at t j) ∧
  (∀ j, j ≠ i → state (record_at t' j) = Live → state (record_at t j) = Live) ∧
  Handle.decode (Handle.encode hd) = Ok hd.
Proof.
  intros Hwf Ha H. apply grant_cases in H as [(_ & ? & _)|(_ & _ & Hcap & [(? & _)|
    (i & Hi & Hin & _ & _ & Hr & Hoth & Hout)])]; [done..|].
  case_decide as Hu; [|done]. injection Hout as ->. rewrite slot_of_handle. simpl.
  split_and!; auto.
  - lia.
  - intros j Hl. assert (j ≠ i) as Hj by (intros ->; destruct Hin; congruence).
    split; [done|]. by apply (same_or_retired_live _ _ (Hoth j Hj)).
  - intros j Hj Hl. by apply (same_or_retired_live _ _ (Hoth j Hj)).
  - destruct Hwf as [_ Hok]. specialize (Hok i). destruct Hin as [_ Hg].
    rewrite handle_decode_encode.
    + rewrite decide_False; [done|]. simpl. destruct Hok as [[? _] _]. lia.
    + destruct Hok as [Hw _]. unfold handle_in_range, in_width, u16_max, u32_max, max_of in *.
      simpl. lia.
Qed.

(** * Undelivered children *)

(** The handle of a child was issued by the table; it is dead; it names the live slot [i]. *)
Definition issued (t : CapabilityTable) (child : TransferredCap) : Prop :=
  ∃ h, Handle.decode (tc_handle child) = Ok h ∧ (slot_of h < capacity t)%nat ∧
    h_generation h ≤ generation (record_at t (slot_of h)).

Definition child_dead (t : CapabilityTable) (child : TransferredCap) : Prop :=
  ∃ h, Handle.decode (tc_handle child) = Ok h ∧ spent t h.

Definition names (t : CapabilityTable) (child : TransferredCap) (i : nat) : Prop :=
  ∃ h, Handle.decode (tc_handle child) = Ok h ∧ names_live t h ∧ i = slot_of h.

Lemma issued_steps t t' child : slot_steps t t' → issued t child → issued t' child.
Proof.
  intros Hs (h & Hd & Hc & Hg). exists h. rewrite (slot_steps_capacity _ _ Hs). split_and!; auto.
  destruct (slot_steps_evolve _ _ (slot_of h) Hs) as [He|[He|[He _]]]; rewrite ?He; lia.
Qed.

Lemma child_dead_steps t t' child : slot_steps t t' → child_dead t child → child_dead t' child.
Proof. intros Hs (h & Hd & Hsp). exists h. split; [done|]. by eapply spent_steps. Qed.

Lemma release_child_spec t child (e : Effects B) :
  let t' := fst (release_child t child e) in
  slot_steps t t' ∧
  (∀ i, state (record_at t' i) = Live → record_at t' i = record_at t i) ∧
  (∀ i, state (record_at t i) = Live → record_at t' i = record_at t i ∨ names t child i) ∧
  (issued t child → child_dead t' child).
Proof.
  unfold release_child, issued, child_dead, names.
  destruct (Handle.decode (tc_handle child)) as [h|] eqn:Hd; [|split_and!; auto with cs; naive_solver].
  destruct (Table.record t h) as [r|] eqn:Hr; simpl.
  - apply record_Ok in Hr as (-> & Hc & Hg & Hst).
    set (t1 := fst (revoke_slot t (Z.to_nat (h_slot h)))).
    assert (Hat1 : ∀ i, i ≠ slot_of h → record_at t1 i = record_at t i).
    { intros i Hi. unfold t1. rewrite revoke_slot_at, decide_False; [done|]. by intros [<- _]. }
    assert (Hrev : state (record_at t1 (slot_of h)) = Revoked ∧
      generation (record_at t1 (slot_of h)) = h_generation h).
    { unfold t1. fold (slot_of h). rewrite revoke_slot_at.
      destruct Hst as [Hl|Hv]; [rewrite decide_True by done|rewrite decide_False]; [done|done|].
      rewrite Hv. by intros [_ ?]. }
    assert (Hat : ∀ i, record_at (fst (release_slot t1 (Z.to_nat (h_slot h)))) i =
      if decide (i = slot_of h) then released (record_at t1 i) else record_at t i).
    { intros i. rewrite release_slot_at. fold (slot_of h). destruct (decide (i = slot_of h)) as [->|Hi].
      - rewrite decide_True; [done|]. by destruct Hrev.
      - rewrite decide_False by naive_solver. by apply Hat1. }
    split_and!.
    + etrans; [apply revoke_slot_steps|apply release_slot_steps].
    + intros i. rewrite Hat. case_decide; [|done]. intros Hl. by apply released_not_live in Hl.
    + intros i Hl. rewrite Hat. case_decide as Hi; [|by left]. subst i. right. exists h. by split_and!.
    + intros _. exists h. split; [done|]. unfold spent. rewrite Hat, decide_True by done.
      split; [|by intros [Hl _]; apply released_not_live in Hl].
      unfold released. destruct (Generation.next _) eqn:E; simpl; [|lia].
      apply generation_next_Some in E. lia.
  - split_and!; auto with cs. intros (h' & [= <-] & Hc & Hg). exists h. split; [done|]. split; [done|].
    intros [Hl He]. assert (Table.record t h = Ok (record_at t (slot_of h))); [|congruence].
    apply record_Ok. auto.
Qed.

Lemma release_children_spec t (e : Effects B) l :
  let t' := fst (release_children t e l) in
  slot_steps t t' ∧
  (∀ i, state (record_at t' i) = Live → record_at t' i = record_at t i) ∧
  (∀ i, state (record_at t i) = Live → record_at t' i = record_at t i ∨ ∃ child, child ∈ l ∧ names t child i) ∧
  (∀ child, child ∈ l → issued t child → child_dead t' child).
Proof.
  revert t e. induction l as [|child l IH]; intros t e.
  { simpl. split_and!; auto with cs. by intros child Hc%elem_of_nil. }
  rewrite release_children_cons.
  destruct (release_child_spec t child e) as (Hs1 & Hl1 & Hk1 & Hd1).
  destruct (release_child t child e) as [t1 e1]. simpl in *.
  destruct (IH t1 e1) as (Hs2 & Hl2 & Hk2 & Hd2). simpl. split_and!.
  - by etrans.
  - intros i Hl. rewrite Hl2 by done. apply Hl1. by rewrite <- Hl2.
  - intros i Hl. destruct (Hk1 i Hl) as [He|Hn]; [|right; exists child; split; [by left|done]].
    destruct (Hk2 i) as [He2|(child' & Hc' & h & Hh & [Hn1 Hn2] & Hi)].
    + by rewrite He.
    + left. congruence.
    + right. exists child'. split; [by right|]. subst i. exists h. rewrite He in Hn1, Hn2. done.
  - intros child' [->|Hc']%elem_of_cons Hi.
    + eapply child_dead_steps; [exact Hs2|auto].
    + apply Hd2; [done|]. by eapply issued_steps.
Qed.
End transfer.
