(* ===== verification/PortOps.v ===== *)
(** Every operation of the port engine, on every branch.

    For each operation of [port/src/engine.rs]: what a success and a failure do to the
    registry, the table and the effects, and that the invariant of [PortInv] survives. *)

From Stdlib Require Import ZArith Lia.
From stdpp Require Import base list tactics decidable numbers strings relations.
From S2P Require Import Prelude Bytes CapTypes CapTable CapTree CapSafety NativeAbi.
From S2P Require Import PortEngine PortInv PortTransfer.
Import Core.

Local Open Scope Z_scope.

Section ops.
Context {B : Type} `{EqDecision B}.
Implicit Types (c : PortCore B) (w : World B) (p : Port B) (conn : Connection) (r : Request).

(** * Looking things up *)

Lemma connection_index_Ok c raw j :
  connection_index c raw = Ok j →
  ∃ conn, connections c !! j = Some conn ∧ cn_state conn ≠ Free ∧ Id.decode raw = Ok raw ∧
    j = Z.to_nat (Id.slot raw) ∧ cn_generation conn = Id.generation raw.
Proof.
  unfold connection_index. destruct (Id.decode raw) as [i|] eqn:Hd; [simpl|done].
  pose proof (id_decode_id _ _ Hd) as ->. destruct (connections c !! _) as [conn|] eqn:Hc; [|done].
  case_decide as Hs; [done|]. intros [= <-]. exists conn.
  split_and!; auto. destruct (decide (cn_generation conn = Id.generation raw)); tauto.
Qed.

Lemma client_connection_Ok c caller raw j :
  client_connection c caller raw = Ok j →
  ∃ conn, connections c !! j = Some conn ∧ cn_state conn ≠ Free ∧ is_process caller = true ∧
    cn_client conn = cl_holder caller ∧ cn_client_generation conn = cl_generation caller.
Proof.
  unfold client_connection. destruct (is_process caller) eqn:Hp; [simpl|done].
  destruct (connection_index c raw) as [j'|] eqn:Hi; [|done].
  apply connection_index_Ok in Hi as (conn & Hc & Hs & _). rewrite (conn_at_lookup _ _ _ Hc).
  case_decide as H1; [done|]. case_decide as H2; [done|]. intros [= <-]. exists conn.
  by split_and!.
Qed.

Lemma client_connection_index c caller raw j :
  client_connection c caller raw = Ok j → connection_index c raw = Ok j.
Proof.
  unfold client_connection. destruct (is_process caller); [simpl|done].
  destruct (connection_index c raw); [|done]. repeat case_decide; done.
Qed.

Lemma index_cid c raw j :
  in_width 64 raw → connection_index c raw = Ok j →
  ∃ conn, connections c !! j = Some conn ∧ cn_state conn ≠ Free ∧ cid j conn = raw.
Proof.
  intros Hw (conn & Hc & Hs & Hd & -> & Hg)%connection_index_Ok. exists conn. split_and!; auto.
  unfold cid. destruct (id_decode_Ok _ _ Hw Hd) as (_ & Hnew & _).
  pose proof (wrap_in_width 16 raw ltac:(lia)) as Hsl. fold (Id.slot raw) in Hsl.
  rewrite Hg, Z2Nat.id by (destruct Hsl; lia). rewrite wrap_small by done. by rewrite Hnew.
Qed.

Lemma served_connection_Ok c i p raw j :
  ports c !! i = Some p → served_connection c i raw = Ok j →
  ∃ conn, connections c !! j = Some conn ∧ cn_state conn ≠ Free ∧ cn_port conn = pkey i p.
Proof.
  intros Hp. unfold served_connection. destruct (connection_index c raw) as [j'|] eqn:Hi; [|done].
  apply connection_index_Ok in Hi as (conn & Hc & Hs & _).
  rewrite (conn_at_lookup _ _ _ Hc), (key_lookup _ _ _ Hp). case_decide as Hk; [done|].
  intros [= <-]. exists conn. split_and!; auto.
Qed.

Lemma authorize_serve_Ok c t caller serve i :
  authorize_serve c t caller serve = Ok i →
  ∃ p h, ports c !! i = Some p ∧ pt_live p = true ∧ is_process caller = true ∧
    cl_holder caller = pt_server p ∧ cl_generation caller = pt_server_generation p ∧
    Handle.decode serve = Ok h ∧
    ∃ rec, Table.authorize t (cl_holder caller) h (pt_resource p) (serve_right (pt_rights p)) = Ok rec.
Proof.
  unfold authorize_serve. destruct (Handle.decode serve) as [h|] eqn:Hh; [simpl|done].
  destruct (Table.record t h) as [rec|] eqn:Hr; [simpl|done].
  destruct (position _ _) as [i'|] eqn:Hp; [|by destruct (port_for _ _ _)].
  apply position_Some in Hp as [(p & Hp & [Hl _]%andb_true_iff) _].
  rewrite (port_at_lookup _ _ _ Hp). destruct (is_process caller) eqn:Hcl; [simpl|done].
  case_bool_decide as Hs; [simpl|done]. case_bool_decide as Hg; [simpl|done].
  destruct (Table.authorize _ _ _ _ _) as [rec'|] eqn:Ha; [simpl|done].
  intros [= <-]. exists p, h. split_and!; eauto.
Qed.

Lemma port_for_Some c cls i k :
  port_for c cls i = Some k →
  ∃ p, ports c !! k = Some p ∧ pt_live p = true ∧ class (pt_resource p) = cls ∧ id (pt_resource p) = i.
Proof.
  unfold port_for. intros [(p & Hp & H) _]%position_Some. exists p.
  apply andb_true_iff in H as [[Hl H1%bool_decide_eq_true]%andb_true_iff H2%bool_decide_eq_true].
  done.
Qed.

Lemma port_for_unique c k p :
  inv c → ports c !! k = Some p → pt_live p = true →
  port_for c (class (pt_resource p)) (id (pt_resource p)) = Some k.
Proof.
  intros Hi Hp Hl. destruct (port_for _ _ _) as [k'|] eqn:E.
  - apply port_for_Some in E as (p' & Hp' & Hl' & H1 & H2). f_equal. by eapply (inv_unique _ Hi).
  - exfalso. eapply port_for_None; [exact E|by eapply list_elem_of_lookup_2|done|done].
Qed.

(** * The operations *)

Lemma new_inv P C :
  Z.of_nat P ≤ u8_max → Z.of_nat C ≤ u16_max → inv (Core.new P C : PortCore B).
Proof.
  intros HP HC. unfold Core.new.
  assert (∀ i p, replicate P Port_EMPTY !! i = Some p → p = Port_EMPTY (B:=B)) as Hp
    by by intros i p [? _]%lookup_replicate.
  assert (∀ j conn, replicate C Connection_EMPTY !! j = Some conn → conn = Connection_EMPTY) as Hc
    by by intros j conn [? _]%lookup_replicate.
  constructor; simpl; rewrite ?length_replicate; auto.
  - intros i p ->%Hp. constructor; try done.
  - intros j conn ->%Hc. constructor; try done.
    + simpl. unfold PORT_MAX_EVENT_QUEUE_DEPTH. lia.
    + simpl. unfold PORT_MAX_EVENT_QUEUE_DEPTH. lia.
  - by intros j conn ->%Hc.
  - by intros j conn ->%Hc.
  - intros i p r ->%Hp Hr. cbn [pt_requests Port_EMPTY] in Hr. by apply elem_of_replicate in Hr as [-> _].
  - by intros i p i' p' ->%Hp ->%Hp.
Qed.

Lemma register_cases c res server sgen params c' out :
  register c res server sgen params = (c', out) →
  (c' = c ∧ ∃ e, out = Err e) ∨
  ∃ i p rs, ports c !! i = Some p ∧ pt_live p = false ∧ pt_generation p ≠ u32_max ∧
    port_for c (class res) (id res) = None ∧ port_rights_for (class res) = Some rs ∧
    validate_params params = Ok () ∧ server ≠ KERNEL ∧ sgen ≠ 0 ∧
    c' = MkCore (<[i := registered res rs server sgen params p]> (ports c)) (connections c) ∧
    out = Ok (MkKey (wrap 8 (Z.of_nat i)) (pt_generation p + 1)).
Proof.
  unfold register. destruct (port_rights_for _) as [rs|] eqn:Hr; simpl; [|naive_solver].
  destruct (validate_params params) as [[]|] eqn:Hv; simpl; [|naive_solver].
  destruct (port_for _ _ _) eqn:Hf; [naive_solver|].
  destruct (position _ _) as [i|] eqn:Hp; simpl; [|naive_solver].
  apply position_Some in Hp as [(p & Hp & H) _].
  apply andb_true_iff in H as [Hl%negb_true_iff Hg%negb_true_iff]. apply bool_decide_eq_false in Hg.
  case_decide as Hs; [naive_solver|]. intros [= <- <-]. right. exists i, p, rs.
  assert (Hil : (i < length (ports c))%nat) by by eapply lookup_lt_Some.
  unfold upd_port, key, port_at. simpl. rewrite (alter_insert _ _ _ _ Hp).
  rewrite list_lookup_insert_eq by done. split_and!; auto.
Qed.

Lemma connect_cases c t caller raw cls i c' out :
  connect c t caller raw cls i = (c', out) →
  (c' = c ∧ ∃ e, out = Err e) ∨
  ∃ k p h rec j conn, ports c !! k = Some p ∧ pt_live p = true ∧ is_process caller = true ∧
    Handle.decode raw = Ok h ∧ class (pt_resource p) = class (resource rec) ∧
    port_rights_for (class (resource rec)) = Some (MkPortRights RightsOps.GFX_CONNECT RightsOps.GFX_SERVE) ∧
    id (pt_resource p) = i ∧
    Table.authorize t (cl_holder caller) h (pt_resource p) RightsOps.GFX_CONNECT = Ok rec ∧
    Z.of_nat (count_if (bound (pkey k p)) (connections c)) < max_connections (pt_params p) ∧
    Z.of_nat (count_if (λ conn, bound (pkey k p) conn && bool_decide (cn_client conn = cl_holder caller))
      (connections c)) < max_connections_per_holder (pt_params p) ∧
    connections c !! j = Some conn ∧ cn_state conn = Free ∧ cn_generation conn ≠ u32_max ∧
    c' = MkCore (ports c) (<[j := opened (pkey k p) caller h conn]> (connections c)) ∧
    out = Ok (cid j (opened (pkey k p) caller h conn)).
Proof.
  unfold connect. destruct (decode_class cls) as [[cl rs]|] eqn:Hd; [|naive_solver].
  destruct (is_process caller) eqn:Hpc; simpl; [|naive_solver].
  destruct (Handle.decode raw) as [h|] eqn:Hh; simpl; [|naive_solver].
  destruct (Table.record t h) as [rec|] eqn:Hr; simpl; [|naive_solver].
  destruct (port_for c cl i) as [k|] eqn:Hf; simpl; [|naive_solver].
  apply port_for_Some in Hf as (p & Hp & Hl & Hcl & Hid).
  rewrite (port_at_lookup _ _ _ Hp), (key_lookup _ _ _ Hp).
  case_decide as H1; [naive_solver|]. case_decide as H2; [naive_solver|].
  destruct (Table.authorize _ _ _ _ _) as [rec'|] eqn:Ha; simpl; [|naive_solver].
  case_decide as H3; [naive_solver|]. case_decide as H4; [naive_solver|].
  destruct (position _ _) as [j|] eqn:Hj; simpl; [|naive_solver].
  apply position_Some in Hj as [(conn & Hc & H) _].
  apply andb_true_iff in H as [Hs%bool_decide_eq_true Hg%negb_true_iff].
  apply bool_decide_eq_false in Hg. intros [= <- <-]. right.
  assert (Hjl : (j < length (connections c))%nat) by by eapply lookup_lt_Some.
  unfold decode_class in Hd. destruct (if decide _ then _ else _) as [cl'|]; simpl in Hd; [|done].
  destruct (port_rights_for cl') as [rs'|] eqn:Hrs; simpl in Hd; [|done]. injection Hd as -> ->.
  assert (cl = Graphics ∧ rs = MkPortRights RightsOps.GFX_CONNECT RightsOps.GFX_SERVE) as [-> ->]
    by (by destruct cl; simplify_eq/=).
  pose proof Ha as (-> & _ & _ & _ & _ & Hres & _)%table_authorize_Ok.
  eexists k, p, h, _, j, conn. unfold upd_conn, connection_id, conn_at. simpl.
  rewrite (alter_insert _ _ _ _ Hc), list_lookup_insert_eq by done. rewrite Hres, Hcl.
  split_and!; eauto; lia.
Qed.

(** ** SEND *)

(** The request a successful SEND queues. *)
Definition sent_request p j conn (caller : Caller) (rts : Z) (child : option TransferredCap)
    (frame : Frame) : Request :=
  MkRequest (pt_next_seq p) (cid j conn) (cl_holder caller) (cl_domain caller)
    (cl_generation caller) rts child frame.

Definition request_signal p : list (Effect B) :=
  match pt_wake p with Some wk => [Signal (wk_target wk) (request_bit wk)] | None => [] end.

(** A client's SEND that got through: connection [j] of port [i], entry [n] of its pool. *)
Record send_ok (c : PortCore B) (t : CapabilityTable) (caller : Caller) (tr : option Transfer)
    (i : nat) (p : Port B) (j : nat) (conn : Connection) (n : nat) (r0 : Request)
    (child : option TransferredCap) (t' : CapabilityTable) (rec : CapabilityRecord) : Prop := {
  so_port : ports c !! i = Some p;
  so_live : pt_live p = true;
  so_conn : connections c !! j = Some conn;
  so_open : cn_state conn = Open;
  so_key : cn_port conn = pkey i p;
  so_client : is_process caller = true ∧ cn_client conn = cl_holder caller ∧
    cn_client_generation conn = cl_generation caller;
  so_auth : Table.authorize t (cn_client conn) (cn_client_cap conn) (pt_resource p)
    (connect_right (pt_rights p)) = Ok rec;
  so_outstanding : cn_outstanding conn < max_outstanding (pt_params p);
  so_depth : Z.of_nat (queued_requests p) < request_depth (pt_params p);
  so_entry : pt_requests p !! n = Some r0;
  so_empty : rq_live r0 = false;
  so_transfer : match tr with
    | None => child = None ∧ t' = t
    | Some tr =>
        cn_transfers conn < PORT_MAX_TRANSFERS_IN_FLIGHT_PER_CONNECTION ∧
        pt_transfers p < PORT_MAX_TRANSFERS_IN_FLIGHT ∧
        ∃ v cap, validate t (cl_holder caller) tr = Ok v ∧
          install_child t (pt_server p) v = (t', Ok cap) ∧ child = Some cap
    end;
}.

Lemma reauthorize_client_cases c i p j conn t e :
  ports c !! i = Some p → connections c !! j = Some conn →
  reauthorize_client j i (MkWorld c t e) =
  match Table.authorize t (cn_client conn) (cn_client_cap conn) (pt_resource p)
          (connect_right (pt_rights p)) with
  | Ok rec => (MkWorld c t e, Ok (rights rec))
  | Err (Revoked_err | StaleHandle) =>
      (close_pending j RK_ClientRevoked 0 (MkWorld c t e), Err P_Stale)
  | Err _ => (MkWorld c t e, Err P_Denied)
  end.
Proof.
  intros Hp Hc. unfold reauthorize_client. simpl.
  by rewrite (port_at_lookup _ _ _ Hp), (conn_at_lookup _ _ _ Hc).
Qed.

(** The client's capability is gone: the connection is closed with a notice. *)
Definition client_revoked c (t : CapabilityTable) j conn : Prop :=
  connections c !! j = Some conn ∧ cn_state conn = Open ∧
  ∃ i p e, ports c !! i = Some p ∧ cn_port conn = pkey i p ∧
    Table.authorize t (cn_client conn) (cn_client_cap conn) (pt_resource p)
      (connect_right (pt_rights p)) = Err e ∧ (e = Revoked_err ∨ e = StaleHandle).

(** The infallible tail of SEND. *)
Lemma enqueue_spec c i p j conn n (caller : Caller) rts child frame t e :
  ports c !! i = Some p → connections c !! j = Some conn →
  (let w := MkWorld c t e in
   let request := MkRequest (pt_next_seq p) (connection_id (core w) j) (cl_holder caller)
                    (cl_domain caller) (cl_generation caller) rts child frame in
   let extra := match child with Some _ => 1 | None => 0 end in
   let w := with_core (upd_port i (λ p, set_queue (pt_transfers p + extra)
              (<[n := request]> (pt_requests p)) (bump_seq p))) w in
   let w := with_core (upd_conn j (λ conn, set_counts (cn_outstanding conn + 1)
              (cn_transfers conn + extra) conn)) w in
   let w := emit (WakeServer (key c i)) w in
   match pt_wake p with Some wk => emit (Signal (wk_target wk) (request_bit wk)) w | None => w end) =
  let r := sent_request p j conn caller rts child frame in
  MkWorld
    (MkCore (<[i := set_queue (pt_transfers p + weight r) (<[n := r]> (pt_requests p)) (bump_seq p)]>
               (ports c))
       (<[j := set_counts (cn_outstanding conn + 1) (cn_transfers conn + weight r) conn]>
          (connections c))) t
    (pushes e ([WakeServer (pkey i p)] ++ request_signal p)).
Proof.
  intros Hp Hc. unfold sent_request, with_core, upd_port, upd_conn, emit. simpl.
  rewrite (connection_id_lookup _ _ _ Hc), (key_lookup _ _ _ Hp).
  rewrite (alter_insert _ _ _ _ Hp), (alter_insert _ _ _ _ Hc).
  unfold weight, carries, request_signal, pushes. simpl.
  by destruct child; destruct (pt_wake p).
Qed.

Lemma send_cases c t e caller raw frame tr w' out :
  inv c → send caller raw frame tr (MkWorld c t e) = (w', out) →
  (∃ err, out = Err err ∧ w' = MkWorld c t e) ∨
  (∃ j conn, client_revoked c t j conn ∧ out = Err P_Stale ∧
     w' = close_pending j RK_ClientRevoked 0 (MkWorld c t e)) ∨
  (∃ v t' i p err tr', tr = Some tr' ∧ validate t (cl_holder caller) tr' = Ok v ∧
     ports c !! i = Some p ∧ install_child t (pt_server p) v = (t', Err err) ∧
     out = Err err ∧ w' = MkWorld c t' e) ∨
  ∃ i p j conn n r0 child t' rec,
    send_ok c t caller tr i p j conn n r0 child t' rec ∧ out = Ok () ∧
    let r := sent_request p j conn caller (rights rec) child frame in
    w' = MkWorld
      (MkCore (<[i := set_queue (pt_transfers p + weight r) (<[n := r]> (pt_requests p)) (bump_seq p)]>
                 (ports c))
         (<[j := set_counts (cn_outstanding conn + 1) (cn_transfers conn + weight r) conn]>
            (connections c))) t'
      (pushes e ([WakeServer (pkey i p)] ++ request_signal p)).
Proof.
  intros Hi. unfold send. cbn [core].
  destruct (client_connection c caller raw) as [j|err] eqn:Hcc; [|naive_solver].
  apply client_connection_Ok in Hcc as (conn & Hc & Hs & Hcl). rewrite (conn_at_lookup _ _ _ Hc).
  destruct (cn_state conn) eqn:Ho; [naive_solver| |naive_solver..].
  destruct (attached_port _ _ _ Hi Hc) as (i & p & Hx & Hp & Hl & Hk & Hb); [by rewrite Ho|].
  unfold connection_port. rewrite (conn_at_lookup _ _ _ Hc), Hx. cbn [ok_or].
  rewrite (reauthorize_client_cases _ _ _ _ _ _ _ Hp Hc).
  destruct (Table.authorize _ _ _ _ _) as [rec|er] eqn:Ha.
  2: { destruct er; intros [= <- <-]; try (by left; eexists);
       (right; left; exists j, conn; split; [|done]; split_and!; eauto 10). }
  cbn [core]. rewrite (conn_at_lookup _ _ _ Hc), (port_at_lookup _ _ _ Hp).
  case_decide as Hmax; [intros [= <- <-]; left; by eexists|].
  destruct (bool_decide (is_Some tr) && _) eqn:Htr; [intros [= <- <-]; left; by eexists|].
  destruct (position _ _) as [n|] eqn:Hn; cbn [ok_or]; [|intros [= <- <-]; left; by eexists].
  apply position_Some in Hn as [(r0 & Hr0 & Hd%negb_true_iff) _]. cbn [table].
  destruct tr as [tr|]; simpl.
  - destruct (validate t (cl_holder caller) tr) as [v|er] eqn:Hv; simpl;
      [|intros [= <- <-]; left; by eexists].
    destruct (install_child t (pt_server p) v) as [t' [cap|er]] eqn:Hin; simpl.
    + intros [= <- <-]. right; right; right. simpl in Htr. apply bool_decide_eq_false in Htr.
      assert (send_ok c t caller (Some tr) i p j conn n r0 (Some cap) t' rec) as Hso.
      { constructor; auto; try lia. split_and!; try lia. eauto. }
      exists i, p, j, conn, n, r0, (Some cap), t', rec. split_and!; auto.
      by apply (enqueue_spec c i p j conn n caller (rights rec) (Some cap) frame t' e).
    + intros [= <- <-]. right; right; left. exists v, t', i, p, er, tr. by split_and!.
  - intros [= <- <-]. right; right; right.
    assert (send_ok c t caller None i p j conn n r0 None t rec) as Hso.
    { constructor; auto; try lia. }
    exists i, p, j, conn, n, r0, None, t, rec. split_and!; auto.
    by apply (enqueue_spec c i p j conn n caller (rights rec) None frame t e).
Qed.

(** ** RECV_EVENT and CLOSE *)

Definition terminal_state (s : ConnState) : Prop :=
  match s with ServerClosed _ | ServerGone => True | _ => False end.

Lemma consume_terminal_spec c j conn t e :
  connections c !! j = Some conn →
  consume_terminal j (MkWorld c t e) =
    MkWorld (MkCore (ports c) (<[j := free_conn conn]> (connections c))) t
      (push e (WakeConnection (cid j conn))).
Proof.
  intros Hc. unfold consume_terminal, with_core, emit, free_connection, upd_conn. simpl.
  by rewrite (connection_id_lookup _ _ _ Hc), (alter_insert _ _ _ _ Hc).
Qed.

Lemma free_inv c j conn :
  inv c → connections c !! j = Some conn → cn_state conn ≠ Open →
  inv (MkCore (ports c) (<[j := free_conn conn]> (connections c))).
Proof.
  intros Hi Hc Ho. pose proof (inv_free c j conn Hi Hc Ho) as H.
  unfold free_connection, upd_conn in H. by rewrite (alter_insert _ _ _ _ Hc) in H.
Qed.

Lemma recv_event_cases c t e caller raw w' out :
  inv c → recv_event caller raw (MkWorld c t e) = (w', out) →
  (∃ err, out = Err err ∧ w' = MkWorld c t e) ∨
  (∃ j conn, client_revoked c t j conn ∧ cn_event_len conn = 0%nat ∧ out = Err P_Stale ∧
     w' = close_pending j RK_ClientRevoked 0 (MkWorld c t e)) ∨
  (∃ j conn conn' ev, connections c !! j = Some conn ∧ attached (cn_state conn) ∧
     is_close_pending (cn_state conn) = false ∧
     cn_client conn = cl_holder caller ∧ cn_client_generation conn = cl_generation caller ∧
     pop_event conn = (conn', Some ev) ∧ out = Ok (frame_event ev) ∧
     w' = MkWorld (MkCore (ports c) (<[j := conn']> (connections c))) t e) ∨
  (∃ j conn ev, connections c !! j = Some conn ∧
     (cn_state conn = ServerGone ∧ ev = terminal_event EK_ServerGone 0 (cn_close_seq conn) ∨
      ∃ reason, cn_state conn = ServerClosed reason ∧
        ev = terminal_event EK_Disconnected reason (cn_close_seq conn)) ∧
     cn_client conn = cl_holder caller ∧ cn_client_generation conn = cl_generation caller ∧
     cn_event_len conn = 0%nat ∧ out = Ok ev ∧ w' = consume_terminal j (MkWorld c t e)).
Proof.
  intros Hi. unfold recv_event. cbn [core].
  destruct (client_connection c caller raw) as [j|err] eqn:Hcc; [|naive_solver].
  apply client_connection_Ok in Hcc as (conn & Hc & Hs & Hpc & H1 & H2). rewrite (conn_at_lookup _ _ _ Hc).
  assert (Hpop : ∀ conn' ev, pop_event conn = (conn', Some ev) →
    with_core (upd_conn j (λ _, conn')) (MkWorld c t e) =
      MkWorld (MkCore (ports c) (<[j := conn']> (connections c))) t e).
  { intros conn' ev _. unfold with_core, upd_conn. simpl. by rewrite (alter_insert _ _ _ _ Hc). }
  assert (Hnone : ∀ conn', pop_event conn = (conn', None) → cn_event_len conn = 0%nat).
  { intros conn'. unfold pop_event. by case_decide. }
  destruct (cn_state conn) eqn:Ho; [naive_solver| |naive_solver| |].
  - destruct (pop_event conn) as [conn' [ev|]] eqn:Hp.
    + intros [= <- <-]. right; right; left. exists j, conn, conn', ev. rewrite Ho.
      split_and!; eauto; done.
    + destruct (attached_port _ _ _ Hi Hc) as (i & p & Hx & Hip & Hl & Hk & Hb); [by rewrite Ho|].
      unfold connection_port. rewrite (conn_at_lookup _ _ _ Hc), Hx. cbn [ok_or].
      rewrite (reauthorize_client_cases _ _ _ _ _ _ _ Hip Hc).
      destruct (Table.authorize _ _ _ _ _) as [rec|er] eqn:Ha; [intros [= <- <-]; left; by eexists|].
      destruct er; intros [= <- <-]; try (by left; eexists);
        (right; left; exists j, conn; split_and!; eauto; split_and!; eauto 10).
  - destruct (pop_event conn) as [conn' [ev|]] eqn:Hp; intros [= <- <-].
    + right; right; left. exists j, conn, conn', ev. rewrite Ho. split_and!; eauto; done.
    + right; right; right. exists j, conn. rewrite Ho. eexists. split_and!; eauto.
  - intros [= <- <-]. right; right; right. exists j, conn. rewrite Ho. eexists. split_and!; eauto.
    apply (inv_conn _ Hi _ _ Hc). rewrite Ho. tauto.
Qed.

Lemma pop_event_inv c i p j conn conn' ev :
  inv c → ports c !! i = Some p → connections c !! j = Some conn → cn_port conn = pkey i p →
  attached (cn_state conn) → is_close_pending (cn_state conn) = false →
  pop_event conn = (conn', Some ev) →
  inv (MkCore (ports c) (<[j := conn']> (connections c))).
Proof.
  intros Hi Hp Hc Hk Ha Hcp Hpop. rewrite <- (list_insert_id (ports c) i p Hp).
  unfold pop_event in Hpop. case_decide as Hz; [done|]. injection Hpop as <- <-.
  destruct (bound_to _ _ _ _ _ Hi Hp Hc Ha Hk) as [_ Hb].
  eapply inv_events; eauto; try done; cbn [cn_event_head cn_event_len].
  - exact (Nat.mod_upper_bound (cn_event_head conn + 1) 64 ltac:(lia)).
  - pose proof (bo_depth _ _ _ Hb). lia.
Qed.

Lemma close_cases c t e caller raw reason w' out :
  close caller raw reason (MkWorld c t e) = (w', out) →
  (∃ err, out = Err err ∧ w' = MkWorld c t e) ∨
  ∃ j conn, connections c !! j = Some conn ∧ connection_index c raw = Ok j ∧
    cn_client conn = cl_holder caller ∧
    cn_client_generation conn = cl_generation caller ∧ out = Ok () ∧
    (cn_state conn = Open ∧ w' = close_pending j RK_ClientClosed reason (MkWorld c t e) ∨
     terminal_state (cn_state conn) ∧ w' = consume_terminal j (MkWorld c t e)).
Proof.
  unfold close. cbn [core].
  destruct (client_connection c caller raw) as [j|err] eqn:Hcc; [|naive_solver].
  pose proof (client_connection_index _ _ _ _ Hcc) as Hci.
  apply client_connection_Ok in Hcc as (conn & Hc & Hs & Hpc & H1 & H2). rewrite (conn_at_lookup _ _ _ Hc).
  destruct (cn_state conn) eqn:Ho; [done|..]; intros [= <- <-]; try (left; by eexists);
    right; exists j, conn; rewrite Ho; split_and!; auto.
  all: right; by split.
Qed.

(** ** RECV *)

Lemma oldest_notice_Some c k j :
  oldest_notice c k = Some j →
  ∃ conn kind reason, connections c !! j = Some conn ∧ cn_port conn = k ∧
    cn_state conn = ClosePending kind reason ∧
    ∀ j' conn', connections c !! j' = Some conn' → cn_port conn' = k →
      is_close_pending (cn_state conn') = true → cn_close_seq conn ≤ cn_close_seq conn'.
Proof.
  unfold oldest_notice. intros [Hj Hmin]%min_by_key_Some.
  apply list_elem_of_filter in Hj as [Hn Hj%elem_of_seq].
  destruct (lookup_lt_is_Some_2 (connections c) j) as [conn Hc]; [lia|].
  apply andb_true_iff in Hn as [Hk%bool_decide_eq_true Hcp].
  rewrite (conn_at_lookup _ _ _ Hc) in Hk, Hcp.
  destruct (cn_state conn) as [| |kind reason|reason|] eqn:Hs; try done.
  exists conn, kind, reason. split_and!; auto. intros j' conn' Hc' Hk' Hcp'.
  specialize (Hmin j'). rewrite (conn_at_lookup _ _ _ Hc), (conn_at_lookup _ _ _ Hc') in Hmin.
  apply Hmin. apply list_elem_of_filter. split.
  - unfold pending_notice. rewrite (conn_at_lookup _ _ _ Hc'), Hcp', bool_decide_true by done. done.
  - apply elem_of_seq. apply lookup_lt_Some in Hc'. lia.
Qed.

Lemma oldest_request_Some p n :
  oldest_request p = Some n →
  ∃ r, pt_requests p !! n = Some r ∧ rq_live r = true ∧
    ∀ r', r' ∈ pt_requests p → rq_live r' = true →
      length (pt_requests p) = PORT_MAX_REQUEST_QUEUE_DEPTH → rq_seq r ≤ rq_seq r'.
Proof.
  unfold oldest_request. intros [Hn Hmin]%min_by_key_Some.
  apply list_elem_of_filter in Hn as [Hl Hn%elem_of_seq].
  destruct (pt_requests p !! n) as [r|] eqn:Hr; simpl in Hl; [|done].
  exists r. split_and!; auto. intros r' [m Hm]%list_elem_of_lookup Hl' Hlen.
  specialize (Hmin m). rewrite Hm in Hmin. apply Hmin, list_elem_of_filter.
  rewrite Hm. split; [done|]. apply elem_of_seq. apply lookup_lt_Some in Hm. lia.
Qed.

Lemma oldest_request_None p r :
  oldest_request p = None → length (pt_requests p) = PORT_MAX_REQUEST_QUEUE_DEPTH →
  r ∈ pt_requests p → rq_live r = false.
Proof.
  unfold oldest_request. intros Hn%min_by_key_None Hlen [m Hm]%list_elem_of_lookup.
  destruct (rq_live r) eqn:E; [|done]. exfalso. apply (elem_of_nil m). rewrite <- Hn.
  apply list_elem_of_filter. rewrite Hm. split; [done|]. apply elem_of_seq.
  apply lookup_lt_Some in Hm. lia.
Qed.

(** The bookkeeping of a received request. *)
Lemma account_received_spec c i p j conn n r :
  inv c → ports c !! i = Some p → connections c !! j = Some conn → cn_state conn = Open →
  cn_port conn = pkey i p → pt_requests p !! n = Some r → rq_live r = true →
  rq_connection r = cid j conn →
  account_received r (upd_port i (λ p,
    set_queue (match rq_transfer r with
               | Some _ => saturating_sub (pt_transfers p) 1
               | None => pt_transfers p
               end) (<[n := Request_EMPTY]> (pt_requests p)) p) c) =
  MkCore (<[i := set_queue (pt_transfers p - weight r) (<[n := Request_EMPTY]> (pt_requests p)) p]>
            (ports c))
    (<[j := set_counts (cn_outstanding conn - 1) (cn_transfers conn - weight r) conn]> (connections c)).
Proof.
  intros Hi Hp Hc Ho Hk Hn Hl Hid. destruct (inv_cid _ _ _ Hi Hc) as (_ & Hsl & Hg); [by rewrite Ho|].
  destruct (bound_to _ _ _ _ _ Hi Hp Hc) as [Hlive Hb]; [by rewrite Ho|done|].
  destruct (pl_transfers _ (inv_port _ Hi _ _ Hp) Hlive) as [Htr _].
  assert (mine (cid j conn) r = true) as Hm by (unfold mine; by rewrite Hl, bool_decide_true).
  pose proof (count_if_pos (mine (cid j conn)) _ _ _ Hn Hm) as H1.
  unfold account_received, upd_conn, upd_port. simpl. rewrite Hid, Hsl, Nat2Z.id.
  rewrite (alter_insert _ _ _ _ Hp), (alter_insert _ _ _ _ Hc), Hg, decide_True by done.
  pose proof (bo_outstanding _ _ _ Hb) as Hb1. pose proof (bo_transfers _ _ _ Hb) as Hb2.
  assert (saturating_sub (cn_outstanding conn) 1 = cn_outstanding conn - 1) as ->
    by (unfold saturating_sub; lia).
  unfold weight, carries. destruct (rq_transfer r) as [child|] eqn:Hch; simpl.
  - assert (carries r = true) as Hcar by (unfold carries; by rewrite Hch).
    assert (live_carrier r = true) as H2 by (unfold live_carrier; by rewrite Hl).
    assert (my_carrier (cid j conn) r = true) as H3 by (unfold my_carrier; by rewrite Hm).
    apply (count_if_pos _ _ _ _ Hn) in H2, H3.
    unfold saturating_sub. rewrite !Z.max_r by lia. done.
  - by rewrite !Z.sub_0_r.
Qed.

Lemma recv_cases c t e caller serve w' out :
  inv c → recv caller serve (MkWorld c t e) = (w', out) →
  (∃ err, out = Err err ∧ w' = MkWorld c t e) ∨
  ∃ i p, authorize_serve c t caller serve = Ok i ∧ ports c !! i = Some p ∧ pt_live p = true ∧
    ((∃ j conn, oldest_notice c (pkey i p) = Some j ∧ connections c !! j = Some conn ∧
        cn_port conn = pkey i p ∧ is_close_pending (cn_state conn) = true ∧
        out = Ok (notice_record c j) ∧
        w' = MkWorld (MkCore (ports c) (<[j := free_conn conn]> (connections c))) t e) ∨
     (∃ n r j conn, oldest_notice c (pkey i p) = None ∧ oldest_request p = Some n ∧
        pt_requests p !! n = Some r ∧ rq_live r = true ∧ connections c !! j = Some conn ∧
        cn_state conn = Open ∧ cn_port conn = pkey i p ∧ rq_connection r = cid j conn ∧
        sender_ok conn r ∧ out = Ok (request_record r) ∧
        w' = MkWorld
          (MkCore (<[i := set_queue (pt_transfers p - weight r) (<[n := Request_EMPTY]> (pt_requests p)) p]>
                     (ports c))
             (<[j := set_counts (cn_outstanding conn - 1) (cn_transfers conn - weight r) conn]>
                (connections c))) t (push e (WakeSendSpace (pkey i p))))).
Proof.
  intros Hi. unfold recv. cbn [core table].
  destruct (authorize_serve c t caller serve) as [i|err] eqn:Ha; [|naive_solver].
  pose proof (authorize_serve_Ok _ _ _ _ _ Ha) as (p & _ & Hp & Hl & _).
  rewrite (key_lookup _ _ _ Hp). destruct (oldest_notice c (pkey i p)) as [j|] eqn:Hn.
  - intros [= <- <-]. right. exists i, p. split_and!; auto. left.
    pose proof (oldest_notice_Some _ _ _ Hn) as (conn & kind & reason & Hc & Hk & Hs & _).
    exists j, conn. rewrite Hs. split_and!; auto.
    unfold with_core, free_connection, upd_conn. simpl. by rewrite (alter_insert _ _ _ _ Hc).
  - rewrite (port_at_lookup _ _ _ Hp).
    destruct (oldest_request p) as [n|] eqn:Hr; cbn [ok_or]; [|intros [= <- <-]; left; by eexists].
    pose proof (oldest_request_Some _ _ Hr) as (r & Hr0 & Hlr & _). rewrite Hr0. cbn [default from_option].
    destruct (inv_req _ Hi _ _ _ Hp (list_elem_of_lookup_2 _ _ _ Hr0) Hlr)
      as (j & conn & Hc & Ho & Hk & Hid & Hsd).
    intros [= <- <-]. right. exists i, p. split_and!; auto. right.
    exists n, r, j, conn. split_and!; auto. unfold with_core, emit. cbn [core table effects].
    change (default Request_EMPTY (Some r)) with r.
    by rewrite (account_received_spec c i p j conn n r).
Qed.

(** ** POST, DISCONNECT and BIND_WAKE *)

Lemma post_cases c t e caller serve raw frame w' out :
  inv c → post caller serve raw frame (MkWorld c t e) = (w', out) →
  (∃ err, out = Err err ∧ w' = MkWorld c t e) ∨
  ∃ i p j conn, authorize_serve c t caller serve = Ok i ∧ ports c !! i = Some p ∧ pt_live p = true ∧
    connections c !! j = Some conn ∧ cn_state conn = Open ∧ cn_port conn = pkey i p ∧
    Z.of_nat (cn_event_len conn) < event_depth (pt_params p) ∧ out = Ok () ∧
    w' = MkWorld (MkCore (<[i := bump_seq p]> (ports c))
                    (<[j := push_event (pt_next_seq p) frame conn]> (connections c))) t
           (push e (WakeConnection (cid j conn))).
Proof.
  intros Hi. unfold post. cbn [core table].
  destruct (authorize_serve c t caller serve) as [i|err] eqn:Ha; [|naive_solver].
  pose proof (authorize_serve_Ok _ _ _ _ _ Ha) as (p & _ & Hp & Hl & _).
  destruct (served_connection c i raw) as [j|err] eqn:Hsc; [|naive_solver].
  apply (served_connection_Ok _ _ _ _ _ Hp) in Hsc as (conn & Hc & Hs & Hk).
  rewrite (conn_at_lookup _ _ _ Hc), (port_at_lookup _ _ _ Hp).
  assert (Hjl : (j < length (connections c))%nat) by by eapply lookup_lt_Some.
  destruct (cn_state conn) eqn:Ho; [done| |intros [= <- <-]; left; by eexists..].
  case_decide as Hd; [intros [= <- <-]; left; by eexists|]. intros [= <- <-]. right.
  exists i, p, j, conn. split_and!; auto; [lia|].
  unfold with_core, upd_port, upd_conn, emit, connection_id, conn_at. cbn [core table effects ports connections].
  rewrite (alter_insert _ _ _ _ Hp), (alter_insert _ _ _ _ Hc). by rewrite list_lookup_insert_eq.
Qed.

Lemma disconnect_cases c t e caller serve raw reason w' out :
  inv c → disconnect caller serve raw reason (MkWorld c t e) = (w', out) →
  (∃ err, out = Err err ∧ w' = MkWorld c t e) ∨
  ∃ i p j conn, authorize_serve c t caller serve = Ok i ∧ ports c !! i = Some p ∧ pt_live p = true ∧
    connections c !! j = Some conn ∧ cn_state conn = Open ∧ cn_port conn = pkey i p ∧ out = Ok () ∧
    let rel := release_children t e (children (mine (cid j conn)) (pt_requests p)) in
    w' = MkWorld (MkCore (<[i := closed_queue (cid j conn) p]> (ports c))
                    (<[j := set_closed (pt_next_seq p) (ServerClosed reason) (set_counts 0 0 conn)]>
                       (connections c)))
           (fst rel) (pushes (snd rel) [WakeConnection (cid j conn); WakeSendSpace (pkey i p)]).
Proof.
  intros Hi. unfold disconnect. cbn [core table].
  destruct (authorize_serve c t caller serve) as [i|err] eqn:Ha; [|naive_solver].
  pose proof (authorize_serve_Ok _ _ _ _ _ Ha) as (p & _ & Hp & Hl & _).
  destruct (served_connection c i raw) as [j|err] eqn:Hsc; [|naive_solver].
  apply (served_connection_Ok _ _ _ _ _ Hp) in Hsc as (conn & Hc & Hs & Hk).
  rewrite (conn_at_lookup _ _ _ Hc).
  assert (Hil : (i < length (ports c))%nat) by by eapply lookup_lt_Some.
  assert (Hjl : (j < length (connections c))%nat) by by eapply lookup_lt_Some.
  destruct (cn_state conn) eqn:Ho; [done| |intros [= <- <-]; left; by eexists..].
  rewrite (purge_connection_spec _ _ _ _ _ _ _ Hi Hp Hl Hc). intros [= <- <-]. right.
  exists i, p, j, conn. split_and!; auto. set (rel := release_children _ _ _). cbv zeta.
  unfold with_core, upd_port, upd_conn, emit, connection_id, conn_at, key, port_at, pushes.
  cbn [core table effects ports connections].
  rewrite (alter_insert _ _ _ _ (list_lookup_insert_eq (ports c) i _ Hil)).
  rewrite (alter_insert _ _ _ _ (list_lookup_insert_eq (connections c) j _ Hjl)).
  rewrite !list_insert_insert_eq, !list_lookup_insert_eq by done. done.
Qed.

Lemma bind_wake_cases c t e caller serve target rb nb w' out :
  bind_wake caller serve target rb nb (MkWorld c t e) = (w', out) →
  (∃ err, out = Err err ∧ w' = MkWorld c t e) ∨
  ∃ i p l, authorize_serve c t caller serve = Ok i ∧ ports c !! i = Some p ∧ pt_live p = true ∧
    rb < WORK_SET_BITS ∧ nb < WORK_SET_BITS ∧ out = Ok () ∧
    w' = MkWorld (MkCore (<[i := set_wake (Some (MkWake target rb nb)) p]> (ports c)) (connections c))
           t (pushes e l) ∧
    l = (if decide (queued_requests p ≠ 0%nat) then [Signal target rb] else []) ++
        (if existsb (λ conn, bool_decide (cn_port conn = pkey i p) && is_close_pending (cn_state conn))
              (connections c) then [Signal target nb] else []).
Proof.
  unfold bind_wake. case_decide as Hb; [intros [= <- <-]; left; by eexists|]. cbn [core table].
  destruct (authorize_serve c t caller serve) as [i|err] eqn:Ha; [|naive_solver].
  pose proof (authorize_serve_Ok _ _ _ _ _ Ha) as (p & _ & Hp & Hl & _).
  assert (Hil : (i < length (ports c))%nat) by by eapply lookup_lt_Some.
  intros [= <- <-]. right. eexists i, p, _. split_and!; auto; try lia.
  unfold with_core, upd_port, emit, key, port_at, pushes. cbn [core table effects ports connections].
  rewrite (alter_insert _ _ _ _ Hp), list_lookup_insert_eq by done.
  change (queued_requests (default Port_EMPTY (Some (set_wake (Some (MkWake target rb nb)) p))))
    with (queued_requests p).
  destruct (decide (queued_requests p ≠ 0%nat)); cbn [core table effects ports connections];
    rewrite list_lookup_insert_eq by done;
    change (MkKey (wrap 8 (Z.of_nat i)) (pt_generation (default Port_EMPTY
      (Some (set_wake (Some (MkWake target rb nb)) p))))) with (pkey i p);
    by destruct (existsb _ (connections c)).
Qed.


(** * The engine as a transition system

    The state changes the engine makes, one constructor each: the guards are what the code has
    checked when it makes the change, the effects what it then owes. Every operation is a
    sequence of them. *)

Definition child_installed (t : CapabilityTable) (server : HolderId)
    (child : option TransferredCap) (t' : CapabilityTable) : Prop :=
  match child with
  | None => t' = t
  | Some cap => ∃ sender tr v, validate t sender tr = Ok v ∧ install_child t server v = (t', Ok cap)
  end.

(** The states a connection is closed into, and the wakes owed for it. *)
Inductive closing (i : nat) p (j : nat) conn : Connection → list (Effect B) → Prop :=
| closing_pending kind reason :
    closing i p j conn (pending_conn kind reason (pt_next_seq p) conn)
      ([WakeServer (pkey i p)] ++ notice_signal p ++
       [WakeSendSpace (pkey i p); WakeConnection (cid j conn)])
| closing_server reason :
    closing i p j conn (set_closed (pt_next_seq p) (ServerClosed reason) (set_counts 0 0 conn))
      [WakeConnection (cid j conn); WakeSendSpace (pkey i p)].

(** Steps that end a connection or a port. *)
Inductive shut_step : World B → World B → Prop :=
| ws_free c t e j conn l :
    connections c !! j = Some conn →
    (is_close_pending (cn_state conn) = true ∧ l = [] ∨
     terminal_state (cn_state conn) ∧ l = [WakeConnection (cid j conn)]) →
    shut_step (MkWorld c t e)
      (MkWorld (MkCore (ports c) (<[j := free_conn conn]> (connections c))) t (pushes e l))
| ws_close c t e i p j conn conn' l :
    ports c !! i = Some p → pt_live p = true → connections c !! j = Some conn →
    cn_state conn = Open → cn_port conn = pkey i p → closing i p j conn conn' l →
    let rel := release_children t e (children (mine (cid j conn)) (pt_requests p)) in
    shut_step (MkWorld c t e) (MkWorld
      (MkCore (<[i := closed_queue (cid j conn) p]> (ports c)) (<[j := conn']> (connections c)))
      (fst rel) (pushes (snd rel) l))
| ws_teardown c t e i p s cs l :
    ports c !! i = Some p → pt_live p = true →
    torn_conns (pkey i p) (connections c) cs → torn_wakes c (pkey i p) l →
    let rel := release_children t e (children rq_live (pt_requests p)) in
    shut_step (MkWorld c t e) (MkWorld (MkCore (<[i := dead_port s p]> (ports c)) cs)
      (fst rel) (pushes (snd rel) (l ++ [WakeSendSpace (pkey i p); WakeServer (pkey i p)]))).

(** What a step does: it delivers a request, runs an operation on the capability table, or
    neither. *)
Inductive Act : Type :=
| Quiet
| Deliver (r : Request)
| Change (op : CapOp).

Inductive act_step : Act → World B → World B → Prop :=
| ws_shut w w' : shut_step w w' → act_step Quiet w w'
| ws_register c t e i p res rs server sgen params :
    ports c !! i = Some p → pt_live p = false → pt_generation p ≠ u32_max →
    port_for c (class res) (id res) = None → port_rights_for (class res) = Some rs →
    validate_params params = Ok () → params_typed params → server ≠ KERNEL → sgen ≠ 0 →
    act_step Quiet (MkWorld c t e)
      (MkWorld (MkCore (<[i := registered res rs server sgen params p]> (ports c)) (connections c)) t e)
| ws_open c t e i p j conn caller cap :
    ports c !! i = Some p → pt_live p = true → connections c !! j = Some conn →
    cn_state conn = Free → cn_generation conn ≠ u32_max → is_process caller = true →
    act_step Quiet (MkWorld c t e)
      (MkWorld (MkCore (ports c) (<[j := opened (pkey i p) caller cap conn]> (connections c))) t e)
| ws_enqueue c t e i p j conn n r0 r t' :
    ports c !! i = Some p → pt_live p = true → connections c !! j = Some conn →
    cn_state conn = Open → cn_port conn = pkey i p →
    pt_requests p !! n = Some r0 → rq_live r0 = false →
    rq_seq r = pt_next_seq p → rq_connection r = cid j conn → sender_ok conn r →
    cn_outstanding conn < max_outstanding (pt_params p) →
    Z.of_nat (queued_requests p) < request_depth (pt_params p) →
    (carries r = true → cn_transfers conn < PORT_MAX_TRANSFERS_IN_FLIGHT_PER_CONNECTION ∧
       pt_transfers p < PORT_MAX_TRANSFERS_IN_FLIGHT) →
    child_installed t (pt_server p) (rq_transfer r) t' →
    act_step Quiet (MkWorld c t e) (MkWorld
      (MkCore (<[i := set_queue (pt_transfers p + weight r) (<[n := r]> (pt_requests p)) (bump_seq p)]>
                 (ports c))
         (<[j := set_counts (cn_outstanding conn + 1) (cn_transfers conn + weight r) conn]>
            (connections c))) t'
      (pushes e ([WakeServer (pkey i p)] ++ request_signal p)))
| ws_no_child c t e t' server sender tr v err :
    validate t sender tr = Ok v → install_child t server v = (t', Err err) →
    act_step Quiet (MkWorld c t e) (MkWorld c t' e)
| ws_dequeue c t e i p j conn n r :
    ports c !! i = Some p → pt_live p = true → connections c !! j = Some conn →
    cn_state conn = Open → cn_port conn = pkey i p → oldest_request p = Some n →
    pt_requests p !! n = Some r → rq_live r = true → rq_connection r = cid j conn →
    act_step (Deliver r) (MkWorld c t e) (MkWorld
      (MkCore (<[i := set_queue (pt_transfers p - weight r) (<[n := Request_EMPTY]> (pt_requests p)) p]>
                 (ports c))
         (<[j := set_counts (cn_outstanding conn - 1) (cn_transfers conn - weight r) conn]>
            (connections c))) t (push e (WakeSendSpace (pkey i p))))
| ws_post c t e i p j conn frame :
    ports c !! i = Some p → pt_live p = true → connections c !! j = Some conn →
    cn_state conn = Open → cn_port conn = pkey i p →
    Z.of_nat (cn_event_len conn) < event_depth (pt_params p) →
    act_step Quiet (MkWorld c t e) (MkWorld
      (MkCore (<[i := bump_seq p]> (ports c))
         (<[j := push_event (pt_next_seq p) frame conn]> (connections c))) t
      (push e (WakeConnection (cid j conn))))
| ws_pop c t e j conn conn' ev :
    connections c !! j = Some conn → attached (cn_state conn) →
    is_close_pending (cn_state conn) = false → pop_event conn = (conn', Some ev) →
    act_step Quiet (MkWorld c t e)
      (MkWorld (MkCore (ports c) (<[j := conn']> (connections c))) t e)
| ws_bind c t e i p target rb nb l :
    ports c !! i = Some p → pt_live p = true →
    l = (if decide (queued_requests p ≠ 0%nat) then [Signal target rb] else []) ++
        (if existsb (λ conn, bool_decide (cn_port conn = pkey i p) && is_close_pending (cn_state conn))
              (connections c) then [Signal target nb] else []) →
    act_step Quiet (MkWorld c t e) (MkWorld
      (MkCore (<[i := set_wake (Some (MkWake target rb nb)) p]> (ports c)) (connections c)) t (pushes e l))
| ws_cap c t e op :
    act_step (Change op) (MkWorld c t e) (MkWorld c (run_op t op) e).

Definition world_step w w' : Prop := ∃ a, act_step a w w'.

Lemma act_world a w w' : act_step a w w' → world_step w w'.
Proof. by exists a. Qed.

Lemma shut_step_inv w w' : shut_step w w' → inv (core w) → inv (core w').
Proof.
  destruct 1; intros Hi; cbn [core] in *.
  - apply free_inv; auto. intros Ho. rewrite Ho in *. naive_solver.
  - apply (inv_close c i p j conn); auto;
      match goal with H : closing _ _ _ _ _ _ |- _ => destruct H end; try done; auto; by left.
  - by apply inv_teardown.
Qed.

Lemma world_step_inv w w' : world_step w w' → inv (core w) → inv (core w').
Proof.
  destruct 1 as [a []]; intros Hi; cbn [core] in *.
  - by eapply shut_step_inv.
  - by apply inv_register.
  - by apply inv_open.
  - by apply (inv_enqueue c i p j conn n r0).
  - done.
  - by apply inv_dequeue.
  - eapply inv_events; eauto; try done; unfold push_event;
      cbn [cn_state cn_events cn_event_head cn_event_len].
    + match goal with H : cn_state conn = Open |- _ => by rewrite H end.
    + match goal with H : cn_state conn = Open |- _ => by rewrite H end.
    + by rewrite length_insert.
    + by eapply inv_conn.
    + lia.
  - destruct (inv_bound _ Hi j conn) as (i & p & Hip & _ & Hk & _); [done..|].
    by apply (pop_event_inv c i p j conn conn' ev).
  - apply (inv_port_step c i p); auto; [by repeat split|]. intros Hl. apply (pl_seq p); [by eapply inv_port|done].
  - done.
Qed.

Lemma world_step_lengths w w' :
  world_step w w' →
  length (ports (core w')) = length (ports (core w)) ∧
  length (connections (core w')) = length (connections (core w)).
Proof.
  destruct 1 as [a []]; try match goal with H : shut_step _ _ |- _ => destruct H end;
    cbn [core ports connections]; rewrite ?length_insert; try done.
  split; [done|]. match goal with H : torn_conns _ _ _ |- _ => apply H end.
Qed.

Lemma shut_steps n w w' : bsteps shut_step n w w' → bsteps world_step n w w'.
Proof. induction 1; eauto using bsteps_refl, bsteps_l, act_world, ws_shut. Qed.

Lemma quiet_steps n w w' : bsteps (act_step Quiet) n w w' → bsteps world_step n w w'.
Proof. induction 1; eauto using bsteps_refl, bsteps_l, act_world. Qed.

Lemma world_steps_lengths n w w' :
  bsteps world_step n w w' →
  length (ports (core w')) = length (ports (core w)) ∧
  length (connections (core w')) = length (connections (core w)).
Proof.
  induction 1 as [|n w1 w2 w3 H12 _ [IH1 IH2]]; [done|].
  destruct (world_step_lengths _ _ H12). split; congruence.
Qed.

Lemma world_steps_inv n w w' : bsteps world_step n w w' → inv (core w) → inv (core w').
Proof. induction 1; eauto using world_step_inv. Qed.

Lemma shut_steps_inv n w w' : bsteps shut_step n w w' → inv (core w) → inv (core w').
Proof. intros H. by eapply world_steps_inv, shut_steps. Qed.

(** ** Every operation is a run of steps *)

Lemma close_pending_step c t e j conn kind reason :
  inv c → connections c !! j = Some conn → cn_state conn = Open →
  shut_step (MkWorld c t e) (close_pending j kind reason (MkWorld c t e)).
Proof.
  intros Hi Hc Ho.
  destruct (close_pending_spec c j conn kind reason t e Hi Hc) as (i & p & Hp & Hl & Hk & ->); [by rewrite Ho|].
  apply ws_close; auto. constructor.
Qed.

Lemma consume_terminal_step c t e j conn :
  connections c !! j = Some conn → terminal_state (cn_state conn) →
  shut_step (MkWorld c t e) (consume_terminal j (MkWorld c t e)).
Proof.
  intros Hc Ht. rewrite (consume_terminal_spec _ _ _ _ _ Hc).
  by apply (ws_free c t e j conn [WakeConnection (cid j conn)]); auto.
Qed.

Lemma teardown_step c t e i p :
  inv c → ports c !! i = Some p → pt_live p = true →
  shut_step (MkWorld c t e) (teardown_port i (MkWorld c t e)).
Proof.
  intros Hi Hp Hl. destruct (teardown_port_spec c i p t e Hi Hp Hl) as (s & cs & l & -> & Ht & Hw).
  by apply ws_teardown.
Qed.

Lemma send_step caller raw frame tr w :
  inv (core w) → bsteps (act_step Quiet) 1 w (fst (send caller raw frame tr w)).
Proof.
  destruct w as [c t e]. cbn [core]. intros Hi. destruct (send _ _ _ _ _) as [w' out] eqn:E.
  apply send_cases in E as [(err & _ & ->)|[(j & conn & (Hc & Ho & _) & _ & ->)|
    [(v & t' & i & p & err & tr' & -> & Hv & Hp & Hin & _ & ->)|
     (i & p & j & conn & n & r0 & child & t' & rec & Hso & _ & ->)]]]; [..|done].
  - apply bsteps_refl.
  - eapply bsteps_once, ws_shut, close_pending_step; eauto.
  - by eapply bsteps_once, ws_no_child.
  - destruct Hso as [Hp Hl Hc Ho Hk (Hpc & H1 & H2) _ Hmo Hrd Hn Hd Htr].
    eapply bsteps_once, ws_enqueue; eauto; [by split|..]; simpl.
    + intros Hcar. destruct tr as [tr|]; [tauto|]. destruct Htr as [-> _]. done.
    + destruct tr as [tr|]; [|destruct Htr as [-> ->]; done].
      destruct Htr as (_ & _ & v & cap & Hv & Hin & ->). simpl. eauto.
Qed.

Lemma recv_event_step caller raw w :
  inv (core w) → bsteps (act_step Quiet) 1 w (fst (recv_event caller raw w)).
Proof.
  destruct w as [c t e]. cbn [core]. intros Hi. destruct (recv_event _ _ _) as [w' out] eqn:E.
  apply recv_event_cases in E as [(err & _ & ->)|[(j & conn & (Hc & Ho & _) & _ & _ & ->)|
    [(j & conn & conn' & ev & Hc & Ha & Hcp & _ & _ & Hp & _ & ->)|
     (j & conn & ev & Hc & Ht & _ & _ & _ & _ & ->)]]]; [..|done].
  - apply bsteps_refl.
  - eapply bsteps_once, ws_shut, close_pending_step; eauto.
  - eapply bsteps_once, ws_pop; eauto.
  - eapply bsteps_once, ws_shut, consume_terminal_step; eauto. by destruct Ht as [[-> _]|(? & -> & _)].
Qed.

Lemma close_step caller raw reason w :
  inv (core w) → bsteps (act_step Quiet) 1 w (fst (close caller raw reason w)).
Proof.
  destruct w as [c t e]. cbn [core]. intros Hi. destruct (close _ _ _ _) as [w' out] eqn:E.
  apply close_cases in E as [(err & _ & ->)|(j & conn & Hc & _ & _ & _ & _ & [[Ho ->]|[Ht ->]])].
  - apply bsteps_refl.
  - eapply bsteps_once, ws_shut, close_pending_step; eauto.
  - eapply bsteps_once, ws_shut, consume_terminal_step; eauto.
Qed.

Lemma recv_step caller serve w :
  inv (core w) →
  bsteps (act_step Quiet) 1 w (fst (recv caller serve w)) ∨
  ∃ r, act_step (Deliver r) w (fst (recv caller serve w)) ∧
    snd (recv caller serve w) = Ok (request_record r).
Proof.
  destruct w as [c t e]. cbn [core]. intros Hi. destruct (recv _ _ _) as [w' out] eqn:E.
  apply recv_cases in E as [(err & _ & ->)|(i & p & _ & Hp & Hl & [(j & conn & _ & Hc & _ & Hcp & _ & ->)|
    (n & r & j & conn & _ & Hold & Hn & Hlr & Hc & Ho & Hk & Hid & _ & -> & ->)])]; [..|done].
  - left. apply bsteps_refl.
  - left. apply bsteps_once, ws_shut. by apply (ws_free c t e j conn []); auto.
  - right. exists r. split; [|done]. eapply ws_dequeue; eauto.
Qed.

Lemma post_step caller serve raw frame w :
  inv (core w) → bsteps (act_step Quiet) 1 w (fst (post caller serve raw frame w)).
Proof.
  destruct w as [c t e]. cbn [core]. intros Hi. destruct (post _ _ _ _ _) as [w' out] eqn:E.
  apply post_cases in E as [(err & _ & ->)|(i & p & j & conn & _ & Hp & Hl & Hc & Ho & Hk & Hd & _ & ->)];
    [apply bsteps_refl| |done]. eapply bsteps_once, ws_post; eauto.
Qed.

Lemma disconnect_step caller serve raw reason w :
  inv (core w) → bsteps (act_step Quiet) 1 w (fst (disconnect caller serve raw reason w)).
Proof.
  destruct w as [c t e]. cbn [core]. intros Hi. destruct (disconnect _ _ _ _ _) as [w' out] eqn:E.
  apply disconnect_cases in E as [(err & _ & ->)|(i & p & j & conn & _ & Hp & Hl & Hc & Ho & Hk & _ & ->)];
    [apply bsteps_refl| |done]. eapply bsteps_once, ws_shut, ws_close; eauto. constructor.
Qed.

Lemma bind_wake_step caller serve target rb nb w :
  bsteps (act_step Quiet) 1 w (fst (bind_wake caller serve target rb nb w)).
Proof.
  destruct w as [c t e]. destruct (bind_wake _ _ _ _ _ _) as [w' out] eqn:E.
  apply bind_wake_cases in E as [(err & _ & ->)|(i & p & l & _ & Hp & Hl & _ & _ & _ & -> & ->)];
    [apply bsteps_refl|]. by eapply bsteps_once, ws_bind.
Qed.

Lemma exit_port_step h gen i w n :
  inv (core w) → bsteps shut_step 1 w (fst (exit_port h gen i (w, n))).
Proof.
  destruct w as [c t e]. simpl. intros Hi.
  destruct (pt_live _ && _ && _) eqn:E; [cbn [fst]|apply bsteps_refl].
  apply andb_true_iff in E as [[Hl _]%andb_true_iff _]. unfold port_at in Hl.
  destruct (ports c !! i) as [p|] eqn:Hp; [|done]. by eapply bsteps_once, teardown_step.
Qed.

Lemma exit_connection_step h gen j w n :
  inv (core w) → bsteps shut_step 1 w (fst (exit_connection h gen j (w, n))).
Proof.
  destruct w as [c t e]. simpl. intros Hi. case_decide; [apply bsteps_refl|]. unfold conn_at in *.
  destruct (connections c !! j) as [conn|] eqn:Hc; [simpl|apply bsteps_refl].
  destruct (cn_state conn) eqn:Ho; try apply bsteps_refl; cbn [fst].
  - eapply bsteps_once, close_pending_step; eauto.
  - eapply bsteps_once, consume_terminal_step; eauto. by rewrite Ho.
  - eapply bsteps_once, consume_terminal_step; eauto. by rewrite Ho.
Qed.

(** A loop of operations is a run of their steps. *)
Lemma loop_steps (body : nat → World B * nat → World B * nat) n w :
  (∀ i w n, inv (core w) → bsteps shut_step 1 w (fst (body i (w, n)))) →
  inv (core w) → bsteps shut_step n w (fst (for_range 0 n body (w, 0%nat))).
Proof.
  intros Hbody Hi. apply (for_range_ind (λ k s, bsteps shut_step k w (fst s))); [lia|apply bsteps_refl|].
  intros i [w1 m] _ Hs. replace (S i) with (i + 1)%nat by lia.
  eapply bsteps_trans; [exact Hs|]. apply Hbody. by eapply shut_steps_inv.
Qed.

Lemma exit_steps h gen w :
  inv (core w) →
  ∃ w1, bsteps shut_step (length (ports (core w))) w w1 ∧
    bsteps shut_step (length (connections (core w1))) w1 (fst (on_holder_exit h gen w)).
Proof.
  intros Hi. unfold on_holder_exit.
  pose proof (loop_steps (exit_port h gen) (length (ports (core w))) w (exit_port_step h gen) Hi) as H1.
  destruct (for_range _ _ (exit_port h gen) _) as [w1 n1]. cbn [fst] in H1.
  pose proof (shut_steps_inv _ _ _ H1 Hi) as Hi1. exists w1. split; [done|].
  pose proof (loop_steps (exit_connection h gen) (length (connections (core w1))) w1
    (exit_connection_step h gen) Hi1) as H2.
  by destruct (for_range _ _ (exit_connection h gen) _) as [w2 n2].
Qed.
End ops.
