(* ===== verification/PortSafety.v ===== *)
(** The port engine end to end: any interleaving of port operations and of capability-table
    operations, from an empty engine and an empty table. *)

From Stdlib Require Import ZArith Lia.
From stdpp Require Import base list tactics decidable numbers strings relations sorting.
From S2P Require Import Prelude Bytes CapTypes CapTable CapTree CapSafety NativeAbi.
From S2P Require Import PortEngine PortInv PortTransfer PortOps.
Import Core.

Local Open Scope Z_scope.

(** * Runs *)

(** The operations of the engine that change state, and the table operations the rest of the
    kernel interleaves with them. [find_handle], [serve_port_key], [event_ready] and the
    counters only read. *)
Inductive PortOp (B : Type) : Type :=
| PoRegister (res : ResourceRef) (server : HolderId) (sgen : Z) (params : PortParams)
| PoUnregister (k : PortKey)
| PoConnect (caller : Caller) (handle cls i : Z)
| PoSend (caller : Caller) (connection : Z) (frame : Frame) (tr : option Transfer)
| PoRecvEvent (caller : Caller) (connection : Z)
| PoClose (caller : Caller) (connection reason : Z)
| PoRecv (caller : Caller) (serve : Z)
| PoPost (caller : Caller) (serve connection : Z) (frame : Frame)
| PoDisconnect (caller : Caller) (serve connection reason : Z)
| PoBindWake (caller : Caller) (serve : Z) (target : B) (rbit nbit : Z)
| PoExit (h : HolderId) (gen : Z)
| PoCap (op : CapOp).
Arguments PoRegister {B}.
Arguments PoUnregister {B}.
Arguments PoConnect {B}.
Arguments PoSend {B}.
Arguments PoRecvEvent {B}.
Arguments PoClose {B}.
Arguments PoRecv {B}.
Arguments PoPost {B}.
Arguments PoDisconnect {B}.
Arguments PoBindWake {B}.
Arguments PoExit {B}.
Arguments PoCap {B}.

Section runs.
Context {B : Type} `{EqDecision B}.
Implicit Types (c : PortCore B) (w : World B) (p : Port B) (conn : Connection) (r : Request).

(** One operation with the fresh effect list its caller passes. *)
Definition port_op c (t : CapabilityTable) (op : PortOp B) : World B :=
  let w := MkWorld c t effects_new in
  match op with
  | PoRegister res server sgen params =>
      MkWorld (fst (register c res server sgen params)) t effects_new
  | PoUnregister k => fst (unregister k w)
  | PoConnect caller handle cls i => MkWorld (fst (connect c t caller handle cls i)) t effects_new
  | PoSend caller connection frame tr => fst (send caller connection frame tr w)
  | PoRecvEvent caller connection => fst (recv_event caller connection w)
  | PoClose caller connection reason => fst (close caller connection reason w)
  | PoRecv caller serve => fst (recv caller serve w)
  | PoPost caller serve connection frame => fst (post caller serve connection frame w)
  | PoDisconnect caller serve connection reason => fst (disconnect caller serve connection reason w)
  | PoBindWake caller serve target rbit nbit => fst (bind_wake caller serve target rbit nbit w)
  | PoExit h gen => fst (on_holder_exit h gen w)
  | PoCap op => MkWorld c (run_op t op) effects_new
  end.

Definition System : Type := PortCore B * CapabilityTable.

Definition port_run (s : System) (ops : list (PortOp B)) : System :=
  fold_left (λ s op, (core (port_op (fst s) (snd s) op), table (port_op (fst s) (snd s) op))) ops s.

Definition boot (PORTS CONNS N : nat) : System := (Core.new PORTS CONNS, Table.new N).

(** Arguments that fit their Rust types: the parameters of a registration are [u16]s. *)
Definition op_typed (op : PortOp B) : Prop :=
  match op with PoRegister _ _ _ params => params_typed params | _ => True end.

#[export] Instance op_typed_dec op : Decision (op_typed op).
Proof. destruct op; simpl; unfold params_typed; apply _. Defined.

Lemma register_step c t e res server sgen params :
  params_typed params →
  bsteps (act_step Quiet) 1 (MkWorld c t e) (MkWorld (fst (register c res server sgen params)) t e).
Proof.
  intros Ht. destruct (register _ _ _ _ _) as [c' out] eqn:E.
  apply register_cases in E as [[-> _]|(i & p & rs & Hp & Hl & Hg & Hf & Hr & Hv & Hs & Hsg & -> & _)];
    [apply bsteps_refl|]. by eapply bsteps_once, ws_register.
Qed.

Lemma connect_step c t e caller h cls i :
  bsteps (act_step Quiet) 1 (MkWorld c t e) (MkWorld (fst (connect c t caller h cls i)) t e).
Proof.
  destruct (connect _ _ _ _ _ _) as [c' out] eqn:E.
  apply connect_cases in E as [[-> _]|(k & p & h' & rec & j & conn & Hp & Hl & Hpc & _ & _ & _ & _ & _ & _ & _ &
    Hc & Hs & Hg & -> & _)]; [apply bsteps_refl|]. by eapply bsteps_once, ws_open.
Qed.

Lemma unregister_step k w : inv (core w) → bsteps (act_step Quiet) 1 w (fst (unregister k w)).
Proof.
  destruct w as [c t e]. intros Hi. unfold unregister.
  destruct (port_index _ _) as [i|] eqn:E; [|apply bsteps_refl].
  apply port_index_Some in E as (p & Hp & Hl & _). by eapply bsteps_once, ws_shut, teardown_step.
Qed.

(** The steps one operation can take: one, or one per port and connection on an exit. *)
Definition op_bound c : nat := S (length (ports c) + length (connections c)).

(** The steps of each operation: RECV may deliver a request, a capability operation changes the
    table, an exit is a run of teardowns, and every other operation is one quiet step. *)
Lemma port_op_acts c t op :
  inv c → op_typed op →
  let w := MkWorld c t effects_new in
  match op with
  | PoCap cap => act_step (Change cap) w (port_op c t op)
  | PoExit _ _ => bsteps shut_step (length (ports c) + length (connections c)) w (port_op c t op)
  | PoRecv caller serve =>
      bsteps (act_step Quiet) 1 w (port_op c t op) ∨
      ∃ r, act_step (Deliver r) w (port_op c t op) ∧ snd (recv caller serve w) = Ok (request_record r)
  | _ => bsteps (act_step Quiet) 1 w (port_op c t op)
  end.
Proof.
  intros Hi Ht. destruct op; cbn [port_op]; auto using register_step, unregister_step,
    connect_step, send_step, recv_event_step, close_step, recv_step, post_step, disconnect_step,
    bind_wake_step, ws_cap.
  destruct (exit_steps h gen (MkWorld c t effects_new) Hi) as (w1 & Hs1 & Hs2).
  destruct (world_steps_lengths _ _ _ (shut_steps _ _ _ Hs1)) as [_ Hl]. rewrite Hl in Hs2.
  eapply bsteps_trans; [exact Hs1|exact Hs2].
Qed.

(** An operation is one step, or the teardown steps of an exit. *)
Lemma port_op_cases c t op :
  inv c → op_typed op →
  bsteps world_step 1 (MkWorld c t effects_new) (port_op c t op) ∨
  bsteps shut_step (length (ports c) + length (connections c)) (MkWorld c t effects_new) (port_op c t op).
Proof.
  intros Hi Ht. pose proof (port_op_acts c t op Hi Ht) as H.
  destruct op; try (left; by apply quiet_steps); cbv zeta in H.
  - left. destruct H as [H|(r & H & _)]; [by apply quiet_steps|by eapply bsteps_once, act_world].
  - by right.
  - left. by eapply bsteps_once, act_world.
Qed.

Lemma port_op_steps c t op :
  inv c → op_typed op →
  bsteps world_step (op_bound c) (MkWorld c t effects_new) (port_op c t op).
Proof.
  intros Hi Ht. destruct (port_op_cases c t op Hi Ht) as [H|H%shut_steps];
    (eapply bsteps_weaken; [|exact H]); unfold op_bound; lia.
Qed.

Lemma port_op_inv c t op : inv c → op_typed op → inv (core (port_op c t op)).
Proof. intros Hi Ht. by eapply world_steps_inv; [apply port_op_steps|]. Qed.

Lemma port_run_ind_where (P : PortCore B → CapabilityTable → Prop) (Q : PortOp B → Prop) s ops :
  P (fst s) (snd s) → Forall Q ops →
  (∀ c t op, P c t → Q op → P (core (port_op c t op)) (table (port_op c t op))) →
  P (fst (port_run s ops)) (snd (port_run s ops)).
Proof.
  intros H0 Hops Hstep. revert s H0. induction Hops as [|op ops Hop _ IH]; intros s H0; [done|].
  simpl. apply IH. simpl. by apply Hstep.
Qed.

Lemma port_run_ind (P : PortCore B → CapabilityTable → Prop) s ops :
  P (fst s) (snd s) → Forall op_typed ops →
  (∀ c t op, P c t → op_typed op → P (core (port_op c t op)) (table (port_op c t op))) →
  P (fst (port_run s ops)) (snd (port_run s ops)).
Proof. apply port_run_ind_where. Qed.

Lemma sizes_ok_bounds P C :
  sizes_ok P C = true →
  Z.of_nat P ≤ u8_max ∧ Z.of_nat C ≤ u16_max ∧ (4 * P + C ≤ 32)%nat ∧ (P ≤ 4)%nat.
Proof.
  unfold sizes_ok. intros (_ & ? & _ & ? & ? & H)%bool_decide_eq_true.
  unfold PORT_MAX_TRANSFERS_IN_FLIGHT, EFFECTS_CAPACITY, REVOKED_TRANSFERS_CAPACITY in *.
  split_and!; auto; lia.
Qed.

Lemma boot_inv P C N : sizes_ok P C = true → inv (fst (boot P C N)).
Proof. intros (? & ? & _)%sizes_ok_bounds. by apply new_inv. Qed.

Lemma run_inv P C N ops :
  sizes_ok P C = true → Forall op_typed ops → inv (fst (port_run (boot P C N) ops)).
Proof.
  intros Hs Hops. apply (port_run_ind (λ c _, inv c)); auto using boot_inv, port_op_inv.
Qed.

Lemma port_op_lengths c t op :
  inv c → op_typed op → op_bound (core (port_op c t op)) = op_bound c.
Proof.
  intros Hi Ht. destruct (world_steps_lengths _ _ _ (port_op_steps c t op Hi Ht)) as [H1 H2].
  unfold op_bound. by rewrite H1, H2.
Qed.

(** * The self-check *)

Lemma check_port_ok c i p : inv c → ports c !! i = Some p → check_port i p = Ok ().
Proof.
  intros Hi Hp. pose proof (inv_port _ Hi _ _ Hp) as []. unfold check_port.
  destruct (pt_live p) eqn:Hl; simpl.
  - rewrite decide_False by (specialize (pl_queued eq_refl); lia).
    destruct (pl_transfers eq_refl) as [H1 H2]. unfold live_carrier, carries in H1.
    rewrite <- H1, decide_False; [done|]. lia.
  - destruct (existsb rq_live (pt_requests p)) eqn:E; [|done].
    apply existsb_exists in E as (r & Hr%list_elem_of_In & Hlr).
    rewrite (dead_port_empty _ _ _ _ Hi Hp Hl Hr) in Hlr. done.
Qed.

(** The requests of a connection, counted over every port. *)
Lemma count_everywhere c j conn q :
  inv c → connections c !! j = Some conn → cn_state conn ≠ Free →
  (∀ r, q r = true → mine (cid j conn) r = true) →
  if decide (attached (cn_state conn)) then
    ∀ i p, ports c !! i = Some p → cn_port conn = pkey i p →
      count_if q (concat (pt_requests <$> ports c)) = count_if q (pt_requests p)
  else count_if q (concat (pt_requests <$> ports c)) = 0%nat.
Proof.
  intros Hi Hc Hs Hq.
  assert (∀ i' p', ports c !! i' = Some p' → (attached (cn_state conn) → cn_port conn ≠ pkey i' p') →
    count_if q (pt_requests p') = 0%nat) as Hzero.
  { intros i' p' Hp' Hne. apply count_if_zero. intros r Hr. destruct (q r) eqn:E; [|done].
    destruct (mine_port c i' p' j conn r) as [Ho Hk]; auto. destruct Hne; [by rewrite Ho|done]. }
  case_decide as Ha.
  - intros i p Hp Hk. apply (count_if_concat_one _ _ i); [by rewrite list_lookup_fmap, Hp|].
    intros i' l' Hne Hl'. rewrite list_lookup_fmap in Hl'.
    destruct (ports c !! i') as [p'|] eqn:Hp'; simplify_eq/=. eapply Hzero; [done|].
    intros _ Hk'. rewrite Hk in Hk'. by eapply Hne, pkey_inj.
  - apply count_if_concat_zero. intros l (p' & -> & [i' Hp']%list_elem_of_lookup)%list_elem_of_fmap.
    by eapply Hzero.
Qed.

Lemma check_connection_ok c j :
  inv c → (j < length (connections c))%nat → check_connection c j = Ok ().
Proof.
  intros Hi [conn Hc]%lookup_lt_is_Some_2. unfold check_connection.
  rewrite (conn_at_lookup _ _ _ Hc), (connection_id_lookup _ _ _ Hc). case_decide as Hs; [done|].
  change (λ r, rq_live r && bool_decide (rq_connection r = cid j conn)) with (mine (cid j conn)).
  pose proof (count_everywhere c j conn (mine (cid j conn)) Hi Hc Hs) as H1.
  pose proof (count_everywhere c j conn (my_carrier (cid j conn)) Hi Hc Hs) as H2.
  specialize (H1 ltac:(done)). specialize (H2 ltac:(by intros r [? _]%andb_true_iff)).
  rewrite (count_if_filter _ (mine (cid j conn)) _ : count_if (λ r, bool_decide (is_Some (rq_transfer r)))
    (List.filter (mine (cid j conn)) (concat (pt_requests <$> ports c))) =
    count_if (my_carrier (cid j conn)) (concat (pt_requests <$> ports c))).
  fold (count_if (mine (cid j conn)) (concat (pt_requests <$> ports c))).
  case_decide as Ha.
  - destruct (attached_port _ _ _ Hi Hc Ha) as (i & p & Hx & Hp & Hl & Hk & [Hb1 Hb2 Hb3 Hb4 Hb5 Hb6 _]).
    specialize (H1 i p Hp Hk). specialize (H2 i p Hp Hk).
    rewrite Hx, (port_at_lookup _ _ _ Hp), H1, H2.
    rewrite decide_False.
    2: { intros [Hne Ho]. apply Hne. apply length_zero_iff_nil. fold (count_if (mine (cid j conn)) (concat (pt_requests <$> ports c))).
         rewrite H1. rewrite Hb6 in Hb1 by done. lia. }
    rewrite decide_False by lia. rewrite decide_False by lia. by rewrite decide_False by lia.
  - assert (cn_state conn = ServerGone) as Hg by (destruct (cn_state conn); simpl in *; tauto).
    rewrite H1, H2. destruct (cl_idle _ (inv_conn _ Hi _ _ Hc) Ha) as (Ho & Ht & He).
    rewrite decide_False.
    2: { intros [Hne _]. apply Hne. by apply length_zero_iff_nil. }
    rewrite Ho, Ht, Hg. rewrite decide_False by lia.
    unfold PORT_MAX_TRANSFERS_IN_FLIGHT_PER_CONNECTION. rewrite decide_False by lia.
    destruct (port_index c (cn_port conn)) as [i|] eqn:Hx; [|done].
    apply port_index_Some in Hx as (p & Hp & Hl & Hgen & Hsl).
    destruct (inv_gone _ Hi _ _ Hc Hg) as (i0 & p0 & g & Hp0 & Hk0 & Hg0 & Hl0).
    rewrite Hk0 in Hgen, Hsl. simpl in Hgen, Hsl.
    rewrite (wrap_small 8), Nat2Z.id in Hsl by (eapply u8_nat; [by eapply lookup_lt_Some|apply Hi]).
    subst i0. assert (p0 = p) as -> by congruence. specialize (Hl0 Hl). lia.
Qed.

(** C9: Whatever is registered, connected, sent, received, posted, disconnected, closed, bound,
    torn down or revoked, in any order and with any arguments, the engine's structural
    self-check holds: dead ports hold no requests, queues and in-flight transfers stay within
    their limits, each connection's counters equal its queued requests and transfers, only
    open connections have requests, and a connection is bound to a live port until its
    server is gone. *)
Theorem port_invariant P C N ops :
  sizes_ok P C = true → Forall op_typed ops →
  check_invariants (fst (port_run (boot P C N) ops)) = Ok ().
Proof.
  intros Hs Hops. pose proof (run_inv P C N ops Hs Hops) as Hi.
  set (c := fst _) in *. unfold check_invariants.
  destruct (try_range_ind (λ _ (_ : unit), True) (λ index _, check_port index (port_at c index))
    0 (length (ports c)) ()) as (u & -> & _); [lia|done| |].
  { intros i [] Hil _. destruct (lookup_lt_is_Some_2 (ports c) i) as [p Hp]; [lia|].
    exists (). rewrite (port_at_lookup _ _ _ Hp). split; [by eapply check_port_ok|done]. }
  destruct (try_range_ind (λ _ (_ : unit), True) (λ index _, check_connection c index)
    0 (length (connections c)) ()) as ([] & -> & _); [lia|done| |done].
  intros j [] Hj _. exists (). split; [apply check_connection_ok; [done|lia]|done].
Qed.
End runs.

(** ** A worked session, shared by the witnesses

    The kernel's configuration of 4 ports and 16 connections; a server, a client with a
    connect capability and a delegable buffer. *)

Module Session.
Definition res : ResourceRef := Resource.graphics 1 7.
Definition params : PortParams := MkParams 4 4 4 2 2.
Definition srv : Caller := MkCaller 10 1 10.
Definition cli : Caller := MkCaller 20 3 20.
Definition serve : Z := Handle.encode (MkHandle 0 1).
Definition conn_h : Z := Handle.encode (MkHandle 1 1).
Definition buffer : Z := 65536 * 5 + 2.
Definition buf_h : CapabilityHandle := MkHandle 2 1.
Definition frame (b : Z) : Frame := replicate PORT_FRAME_BYTES b.
Definition conn : Z := 65536.
Definition tr : Transfer := MkTransfer buf_h (Ok (buffer, 4096)).
Definition caps : list (PortOp nat) :=
  [PoCap (OpGrantRoot 10 res RightsOps.GFX_SERVE);
   PoCap (OpGrantRoot 20 res RightsOps.GFX_CONNECT);
   PoCap (OpGrantRoot 20 (Resource.shared_buffer buffer)
            (RightsOps.union (RightsOps.union RightsOps.READ RightsOps.WRITE) RightsOps.DELEGATE))].
(** Registered, connected, bound; one request with a transfer queued, one event posted. *)
Definition ops : list (PortOp nat) :=
  caps ++
  [PoRegister res 10 1 params; PoConnect cli conn_h (ResourceClassOps.as_u8 Graphics) 1;
   PoBindWake srv serve 3%nat 0 1;
   PoSend cli conn (frame 1) (Some tr); PoPost srv serve conn (frame 2)].
Definition state : System := port_run (boot 4 16 16) ops.
Definition world : World nat := MkWorld (fst state) (snd state) effects_new.
End Session.

Lemma port_invariant_witness :
  length (live_requests (fst Session.state)) = 1%nat ∧ check_invariants (fst Session.state) = Ok ().
Proof.
  split; [vm_compute; reflexivity|]. apply (port_invariant 4 16 16 Session.ops).
  - reflexivity.
  - apply (bool_decide_unpack (Forall op_typed Session.ops)). vm_compute. exact I.
Defined.
