(* ===== verification/PortQueues.v ===== *)
(** First in, first out: the request pool of a port and the event ring of a connection refine
    plain lists.

    The engine keeps requests in an unordered pool and picks the lowest number, and events in
    a ring with a head and a length ([port/src/engine.rs]). [queue] and [events_of] are the
    lists they stand for. Numbers are drawn modulo 2^64; the theorems bound the length of the
    run so that no port draws that many. *)

From Stdlib Require Import ZArith Lia.
From stdpp Require Import base list tactics decidable numbers strings relations sorting.
From S2P Require Import Prelude Bytes CapTypes CapTable CapTree CapSafety NativeAbi.
From S2P Require Import PortEngine PortInv PortTransfer PortOps PortSafety.
Import Core.

Local Open Scope Z_scope.

(** * Event rings *)

Definition ring_at (conn : Connection) (k : nat) : Event :=
  default Event_EMPTY (cn_events conn !! ((cn_event_head conn + k) mod PORT_MAX_EVENT_QUEUE_DEPTH)%nat).

Definition events_of (conn : Connection) : list Event := ring_at conn <$> seq 0 (cn_event_len conn).

Lemma ring_index_ne h k n :
  (k < n)%nat → (n < PORT_MAX_EVENT_QUEUE_DEPTH)%nat →
  ((h + k) mod PORT_MAX_EVENT_QUEUE_DEPTH ≠ (h + n) mod PORT_MAX_EVENT_QUEUE_DEPTH)%nat.
Proof.
  set (D := PORT_MAX_EVENT_QUEUE_DEPTH). intros Hk Hn Heq.
  assert (D ≠ 0)%nat as HD by (unfold D, PORT_MAX_EVENT_QUEUE_DEPTH; lia). clearbody D.
  pose proof (Nat.div_mod_eq (h + k) D). pose proof (Nat.div_mod_eq (h + n) D).
  pose proof (Nat.Div0.div_le_mono (h + k) (h + n) D ltac:(lia)).
  assert (((h + n) / D) = ((h + k) / D) ∨ ((h + n) / D) ≥ S ((h + k) / D))%nat as [|] by lia; nia.
Qed.

Lemma events_push conn s f :
  conn_local conn → (cn_event_len conn < PORT_MAX_EVENT_QUEUE_DEPTH)%nat →
  events_of (push_event s f conn) = events_of conn ++ [MkEvent s f].
Proof.
  intros Hc Hlen. unfold events_of, push_event. cbn [cn_event_len].
  rewrite seq_S, fmap_app. f_equal.
  - apply list_fmap_ext. intros k x [Hx Hk]%lookup_seq. unfold ring_at. cbn [cn_event_head cn_events].
    rewrite list_lookup_insert_ne; [done|]. intros Heq. symmetry in Heq. revert Heq.
    apply ring_index_ne; lia.
  - cbn [fmap list_fmap]. unfold ring_at. cbn [cn_event_head cn_events].
    rewrite list_lookup_insert_eq; [done|]. rewrite (cl_events _ Hc).
    apply Nat.mod_upper_bound. unfold PORT_MAX_EVENT_QUEUE_DEPTH. lia.
Qed.

Lemma events_pop conn conn' ev :
  conn_local conn → pop_event conn = (conn', Some ev) → events_of conn = ev :: events_of conn'.
Proof.
  intros Hc. unfold pop_event. case_decide as Hz; [done|].
  set (D := PORT_MAX_EVENT_QUEUE_DEPTH). intros H. apply pair_equal_spec in H as [<- H].
  injection H as <-. unfold events_of. cbn [cn_event_len].
  destruct (cn_event_len conn) as [|n]; [done|]. replace (S n - 1)%nat with n by lia.
  rewrite <- cons_seq, <- fmap_S_seq, fmap_cons, <- list_fmap_compose. f_equal.
  - unfold ring_at. rewrite Nat.add_0_r, Nat.mod_small; [done|]. apply Hc.
  - apply list_fmap_ext. intros k x _. unfold compose, ring_at. cbn [cn_event_head cn_events].
    fold D. rewrite Nat.Div0.add_mod_idemp_l. do 3 f_equal. lia.
Qed.

(** * Request pools *)

Definition seq_le (r1 r2 : Request) : Prop := rq_seq r1 ≤ rq_seq r2.

#[export] Instance seq_le_dec : RelDecision seq_le.
Proof. unfold seq_le. intros r1 r2. apply _. Defined.
#[export] Instance seq_le_total : Total seq_le.
Proof. intros r1 r2. unfold seq_le. lia. Qed.
#[export] Instance seq_le_trans : Transitive seq_le.
Proof. intros r1 r2 r3. unfold seq_le. lia. Qed.

Definition live_of {B : Type} (p : Port B) : list Request := List.filter rq_live (pt_requests p).

(** The queue a pool stands for: its live entries by number. *)
Definition queue {B : Type} (p : Port B) : list Request := merge_sort seq_le (live_of p).

(** Numbers in a pool are distinct and below the next one, which is at most [n]. *)
Record numbered {B : Type} (n : Z) (p : Port B) : Prop := {
  nb_next : pt_next_seq p ≤ n;
  nb_below : ∀ r, r ∈ pt_requests p → rq_live r = true → rq_seq r < pt_next_seq p;
  nb_distinct : ∀ k k' r r', pt_requests p !! k = Some r → pt_requests p !! k' = Some r' →
    rq_live r = true → rq_live r' = true → rq_seq r = rq_seq r' → k = k';
}.

Section queues.
Context {B : Type} `{EqDecision B}.
Implicit Types (c : PortCore B) (w : World B) (p : Port B) (conn : Connection) (r : Request).

Lemma elem_of_live p r : r ∈ live_of p ↔ r ∈ pt_requests p ∧ rq_live r = true.
Proof. unfold live_of. by rewrite !list_elem_of_In, filter_In. Qed.

Lemma queue_unique n p q :
  numbered n p → StronglySorted seq_le q → q ≡ₚ live_of p → queue p = q.
Proof.
  intros Hn Hs Hq. unfold queue. eapply (StronglySorted_unique_strong seq_le); [|apply StronglySorted_merge_sort; apply _|done|].
  - intros r1 r2 H1 H2 Hle1 Hle2.
    rewrite merge_sort_Permutation in H1. rewrite Hq in H2.
    apply elem_of_live in H1 as [[k1 Hk1]%list_elem_of_lookup Hl1].
    apply elem_of_live in H2 as [[k2 Hk2]%list_elem_of_lookup Hl2].
    assert (k1 = k2) as -> by (eapply (nb_distinct _ _ Hn); eauto; unfold seq_le in *; lia).
    congruence.
  - by rewrite merge_sort_Permutation, Hq.
Qed.

Lemma queue_sorted p : StronglySorted seq_le (queue p).
Proof. apply StronglySorted_merge_sort; apply _. Qed.

Lemma queue_perm p : queue p ≡ₚ live_of p.
Proof. apply merge_sort_Permutation. Qed.

(** Writing one entry of the pool. *)
Lemma live_insert p n r0 r rs :
  pt_requests p !! n = Some r0 → rs = <[n := r]> (pt_requests p) →
  (if rq_live r0 then [r0] else []) ++ List.filter rq_live rs ≡ₚ
  (if rq_live r then [r] else []) ++ live_of p.
Proof.
  intros Hn ->. unfold live_of. rewrite <- (take_drop_middle _ _ _ Hn) at 2.
  rewrite insert_take_drop by (by eapply lookup_lt_Some).
  rewrite !List.filter_app. cbn [List.filter].
  destruct (rq_live r0), (rq_live r); cbn [app]; rewrite ?app_nil_l; solve_Permutation.
Qed.

(** ** Numbers *)

Lemma numbered_mono n n' p : n ≤ n' → numbered n p → numbered n' p.
Proof. intros Hn []. constructor; auto. lia. Qed.

Lemma bump_next n p :
  1 ≤ pt_next_seq p ≤ n → n + 1 < 2 ^ 64 → pt_next_seq (bump_seq p) = pt_next_seq p + 1.
Proof. intros Hs Hn. simpl. unfold wrapping_add. rewrite wrap_small by (unfold in_width; lia). lia. Qed.

(** A pool whose live entries all come from [p], at the next number. *)
Lemma numbered_sub n p p' :
  numbered n p → 1 ≤ pt_next_seq p → n + 1 < 2 ^ 64 →
  (pt_next_seq p' = pt_next_seq p ∨ pt_next_seq p' = pt_next_seq (bump_seq p)) →
  (∀ k r, pt_requests p' !! k = Some r → rq_live r = true → pt_requests p !! k = Some r) →
  numbered (n + 1) p'.
Proof.
  intros [H1 H2 H3] Hp Hn Hs Hr.
  assert (pt_next_seq p ≤ pt_next_seq p' ≤ n + 1) as Hsp.
  { rewrite (bump_next n p) in Hs by lia. lia. }
  constructor; [lia| |].
  - intros r [k Hk]%list_elem_of_lookup Hl. specialize (Hr _ _ Hk Hl).
    apply list_elem_of_lookup_2 in Hr. specialize (H2 r Hr Hl). lia.
  - intros k k' r r' Hk Hk' Hl Hl'. apply H3; eauto.
Qed.

Lemma numbered_closed n i p :
  numbered n p → 1 ≤ pt_next_seq p → n + 1 < 2 ^ 64 → numbered (n + 1) (closed_queue i p).
Proof.
  intros Hnb Hp Hn. apply (numbered_sub n p); auto. intros k r Hk Hl.
  unfold closed_queue in Hk. cbn [pt_requests bump_seq set_queue] in Hk.
  rewrite list_lookup_fmap in Hk. destruct (pt_requests p !! k) as [r0|] eqn:E; simplify_eq/=.
  revert Hl. unfold purged. by destruct (mine i r0).
Qed.

Lemma numbered_enqueue n p k r tr :
  numbered n p → 1 ≤ pt_next_seq p → n + 1 < 2 ^ 64 → rq_seq r = pt_next_seq p →
  numbered (n + 1) (set_queue tr (<[k := r]> (pt_requests p)) (bump_seq p)).
Proof.
  intros [H1 H2 H3] Hp Hn Hs. pose proof (bump_next n p ltac:(lia) Hn) as Hb.
  constructor; cbn [pt_next_seq pt_requests set_queue].
  - rewrite Hb. lia.
  - intros r' [m Hm]%list_elem_of_lookup Hl. rewrite Hb.
    apply list_lookup_insert_Some in Hm as [(_ & <- & _)|[_ Hm]]; [lia|].
    specialize (H2 r' (list_elem_of_lookup_2 _ _ _ Hm) Hl). lia.
  - intros m m' r1 r2 Hm1 Hm2 Hl1 Hl2 He.
    apply list_lookup_insert_Some in Hm1 as [(-> & <- & _)|[_ Hm1]],
      Hm2 as [(-> & <- & _)|[_ Hm2]]; [done|..].
    + specialize (H2 r2 (list_elem_of_lookup_2 _ _ _ Hm2) Hl2). lia.
    + specialize (H2 r1 (list_elem_of_lookup_2 _ _ _ Hm1) Hl1). lia.
    + by eapply H3.
Qed.

Lemma numbered_dequeue n p k tr :
  numbered n p → numbered n (set_queue tr (<[k := Request_EMPTY]> (pt_requests p)) p).
Proof.
  intros [H1 H2 H3].
  assert (∀ m r, <[k := Request_EMPTY]> (pt_requests p) !! m = Some r → rq_live r = true →
    pt_requests p !! m = Some r) as Hsub.
  { intros m r [(_ & <- & _)|[_ Hm]]%list_lookup_insert_Some Hl; done. }
  constructor; cbn [pt_next_seq pt_requests set_queue]; [done| |].
  - intros r [m Hm]%list_elem_of_lookup Hl. apply H2; [|done]. by eapply list_elem_of_lookup_2, Hsub.
  - intros m m' r r' Hm Hm' Hl Hl'. apply H3; auto.
Qed.

(** ** Queues *)

Lemma queue_enqueue n p k r0 r tr :
  numbered n p → 1 ≤ pt_next_seq p → n + 1 < 2 ^ 64 → rq_seq r = pt_next_seq p →
  pt_requests p !! k = Some r0 → rq_live r0 = false →
  queue (set_queue tr (<[k := r]> (pt_requests p)) (bump_seq p)) = queue p ++ [r].
Proof.
  intros Hnb Hp Hn Hs Hk Hd. apply (queue_unique (n + 1)).
  - by apply numbered_enqueue.
  - apply StronglySorted_app. split_and!; [|apply queue_sorted|by repeat constructor].
    intros r1 r2 H1 ->%list_elem_of_singleton. rewrite queue_perm in H1.
    apply elem_of_live in H1 as [H1 Hl1]. pose proof (nb_below _ _ Hnb _ H1 Hl1). unfold seq_le. lia.
  - rewrite queue_perm. unfold live_of at 2. cbn [pt_requests set_queue].
    pose proof (live_insert p k r0 r _ Hk eq_refl) as Hpm. rewrite Hd in Hpm.
    assert (rq_live r = true) as Hl by (unfold rq_live; rewrite bool_decide_false; [done|lia]).
    rewrite Hl in Hpm. cbn [app] in Hpm. rewrite Hpm. by rewrite Permutation_app_comm.
Qed.

Lemma queue_dequeue n p k r tr :
  numbered n p → oldest_request p = Some k → pt_requests p !! k = Some r → rq_live r = true →
  length (pt_requests p) = PORT_MAX_REQUEST_QUEUE_DEPTH →
  queue p = r :: queue (set_queue tr (<[k := Request_EMPTY]> (pt_requests p)) p).
Proof.
  intros Hnb Hold Hk Hl Hlen. apply (queue_unique n); [done|..].
  - pose proof (live_insert p k r Request_EMPTY _ Hk eq_refl) as Hpm. rewrite Hl in Hpm. cbn in Hpm.
    constructor; [apply queue_sorted|]. apply Forall_forall. intros r1 H1. rewrite queue_perm in H1.
    apply oldest_request_Some in Hold as (r' & Hr' & _ & Hmin). assert (r' = r) as -> by congruence.
    apply elem_of_live in H1 as [[m Hm]%list_elem_of_lookup Hl1].
    cbn [pt_requests set_queue] in Hm.
    apply list_lookup_insert_Some in Hm as [(_ & <- & _)|[_ Hm]]; [done|].
    apply Hmin; auto. by eapply list_elem_of_lookup_2.
  - rewrite queue_perm. pose proof (live_insert p k r Request_EMPTY _ Hk eq_refl) as Hpm.
    rewrite Hl in Hpm. exact Hpm.
Qed.

Lemma sorted_filter f (q : list Request) :
  StronglySorted seq_le q → StronglySorted seq_le (List.filter f q).
Proof.
  induction 1 as [|r q Hs IH Hf]; [constructor|]. simpl. destruct (f r); [|done].
  constructor; [done|]. apply Forall_forall. intros r' Hr'. rewrite Forall_forall in Hf.
  apply Hf. apply list_elem_of_In in Hr'. apply filter_In in Hr' as [Hr' _]. by apply list_elem_of_In.
Qed.

Lemma filter_all f (q : list Request) : (∀ r, r ∈ q → f r = true) → List.filter f q = q.
Proof.
  induction q as [|r q IH]; intros H; [done|]. simpl. rewrite H by (by left). f_equal.
  apply IH. intros r' Hr'. apply H. by right.
Qed.

Lemma filter_perm f (q q' : list Request) : q ≡ₚ q' → List.filter f q ≡ₚ List.filter f q'.
Proof.
  induction 1 as [|x q q' _ IH|x y q|q1 q2 q3 _ IH1 _ IH2]; [done|..]; simpl.
  - destruct (f x); [by f_equiv|done].
  - destruct (f x), (f y); solve_Permutation.
  - by etrans.
Qed.

Lemma queue_closed n i p :
  numbered n p → 1 ≤ pt_next_seq p → n + 1 < 2 ^ 64 →
  queue (closed_queue i p) = List.filter (λ r, negb (mine i r)) (queue p).
Proof.
  intros Hnb Hp Hn. apply (queue_unique (n + 1)); [by apply numbered_closed|..].
  - apply sorted_filter, queue_sorted.
  - rewrite (filter_perm _ _ _ (queue_perm p)). unfold live_of, closed_queue.
    cbn [pt_requests bump_seq set_queue]. induction (pt_requests p) as [|r rs IH]; [done|].
    rewrite fmap_cons. cbn [List.filter]. unfold purged at 1.
    destruct (mine i r) eqn:Em.
    + assert (rq_live r = true) as -> by by apply andb_true_iff in Em as [? _].
      cbn [List.filter]. rewrite Em. done.
    + rewrite (purged_other i r Em). destruct (rq_live r); [|done]. cbn [List.filter]. rewrite Em. cbn [negb]. by apply Permutation_cons.
Qed.

(** ** Numbers over a run *)

(** The live ports draw numbers up to [n]. *)
Definition numbered_core (n : Z) c : Prop :=
  ∀ i p, ports c !! i = Some p → pt_live p = true → numbered n p.

Lemma numbered_core_insert n c i p' cs' :
  numbered_core n c → (pt_live p' = true → numbered (n + 1) p') →
  numbered_core (n + 1) (MkCore (<[i := p']> (ports c)) cs').
Proof.
  intros H Hp' i0 p0 [(_ & <- & _)|[_ H0]]%list_lookup_insert_Some Hl; [by auto|].
  eapply numbered_mono; [|by eapply H]. lia.
Qed.

(** One step draws at most one number from a port that stays live. *)
Lemma step_numbered n w w' :
  world_step w w' → inv (core w) → 1 ≤ n → n + 1 < 2 ^ 64 →
  numbered_core n (core w) → numbered_core (n + 1) (core w').
Proof.
  intros Hst Hi H1 Hn Hnc.
  assert (Hnx : ∀ i p, ports (core w) !! i = Some p → pt_live p = true →
    numbered n p ∧ 1 ≤ pt_next_seq p).
  { intros i p Hp Hl. split; [by eapply Hnc|by apply (inv_port _ Hi _ _ Hp)]. }
  assert (Hsame : numbered_core (n + 1) (core w)).
  { intros i p Hp Hl. eapply numbered_mono; [|by eapply Hnc]. lia. }
  destruct Hst as [act Hst]; destruct Hst; try match goal with H : shut_step _ _ |- _ => destruct H end;
    cbn [core ports] in *; try exact Hsame;
    try (apply numbered_core_insert; [done|]; intros Hlive);
    try (destruct (Hnx i p) as [Hn1 Hn2]; [done..|]).
  - by apply numbered_closed.
  - done.
  - assert (∀ r, r ∈ pt_requests p → rq_live r = false) as Hd by eauto using dead_port_empty.
    constructor; cbn [pt_next_seq pt_requests registered]; [lia| |].
    + intros r Hr Hlr. by rewrite Hd in Hlr.
    + intros k k' r r' Hk _ Hlr. rewrite Hd in Hlr; [done|]. by eapply list_elem_of_lookup_2.
  - by apply numbered_enqueue.
  - apply numbered_dequeue. by apply (numbered_mono n); [lia|].
  - by apply (numbered_sub n p); auto.
  - by apply (numbered_sub n p); auto.
Qed.

Lemma steps_numbered k n w w' :
  bsteps world_step k w w' → inv (core w) → 1 ≤ n → n + Z.of_nat k < 2 ^ 64 →
  numbered_core n (core w) → numbered_core (n + Z.of_nat k) (core w').
Proof.
  intros Hs. revert n. induction Hs as [k w|k w1 w2 w3 H12 H23 IH]; intros n Hi H1 Hn Hnc.
  - intros i p Hp Hl. eapply numbered_mono; [|by eapply Hnc]. lia.
  - replace (n + Z.of_nat (S k)) with (n + 1 + Z.of_nat k) by lia.
    apply IH; [by eapply world_step_inv|lia|lia|]. eapply step_numbered; eauto. lia.
Qed.

(** The numbers [k] operations can draw. *)
Definition drawn (P C k : nat) : Z := 1 + Z.of_nat (k * S (P + C)).

Lemma port_op_numbered P C k c t op :
  inv c → op_typed op → op_bound c = S (P + C) → drawn P C (S k) < 2 ^ 64 →
  numbered_core (drawn P C k) c → numbered_core (drawn P C (S k)) (core (port_op c t op)).
Proof.
  intros Hi Hop Hl Hb Hn. pose proof (port_op_steps c t op Hi Hop) as Hst. rewrite Hl in Hst.
  apply (steps_numbered _ (drawn P C k)) in Hst; auto; unfold drawn in *; cbn [core] in *; try lia.
  by replace (1 + Z.of_nat (S k * S (P + C))) with (1 + Z.of_nat (k * S (P + C)) + Z.of_nat (S (P + C))) by lia.
Qed.

Lemma run_numbered P C N ops :
  sizes_ok P C = true → Forall op_typed ops → drawn P C (length ops) < 2 ^ 64 →
  let c := fst (port_run (boot P C N) ops) in
  inv c ∧ numbered_core (drawn P C (length ops)) c.
Proof.
  intros Hs Hops Hb. cbv zeta.
  assert (inv (fst (port_run (boot P C N) ops)) ∧ op_bound (fst (port_run (boot P C N) ops)) = S (P + C) ∧
    numbered_core (drawn P C (length ops)) (fst (port_run (boot P C N) ops))) as (? & _ & ?); [|done].
  revert Hb. induction ops as [|op ops IH] using rev_ind; intros Hb.
  { split_and!; [by apply (boot_inv P C N)|unfold op_bound; simpl; by rewrite !length_replicate|].
    intros i p Hp. simpl in Hp. by apply lookup_replicate in Hp as [-> _]. }
  apply Forall_app in Hops as [Hops Hop]. rewrite Forall_singleton in Hop.
  assert (length (ops ++ [op]) = S (length ops)) as E by (rewrite length_app; simpl; lia).
  rewrite E in *. unfold port_run in *. rewrite fold_left_app. cbn [fold_left fst].
  destruct IH as (Hi & Hl & Hn); [done|unfold drawn in *; lia|].
  split_and!; [by apply port_op_inv|by rewrite port_op_lengths|by apply port_op_numbered].
Qed.

(** A connection that has drawn a number leaves room for one more. *)
Lemma live_numbered P C N ops i p :
  sizes_ok P C = true → Forall op_typed ops → drawn P C (S (length ops)) < 2 ^ 64 →
  let c := fst (port_run (boot P C N) ops) in
  ports c !! i = Some p → pt_live p = true →
  inv c ∧ numbered (drawn P C (length ops)) p ∧ 1 ≤ pt_next_seq p ∧
  drawn P C (length ops) + 1 < 2 ^ 64.
Proof.
  intros Hs Hops Hb c Hp Hl. destruct (run_numbered P C N ops) as [Hi Hn]; auto.
  { unfold drawn in *. lia. }
  split_and!; [done|by eapply Hn|by apply (inv_port _ Hi _ _ Hp)|unfold drawn in *; lia].
Qed.

(** * First in, first out *)

(** Queued requests are live, so those of a connection are told by its id. *)
Lemma queue_mine_raw k p :
  List.filter (λ r, negb (mine k r)) (queue p) =
  List.filter (λ r, negb (bool_decide (rq_connection r = k))) (queue p).
Proof.
  apply filter_ext_in. intros r Hr%list_elem_of_In. rewrite queue_perm in Hr.
  apply elem_of_live in Hr as [_ Hlr]. unfold mine. by rewrite Hlr.
Qed.

(** A connection that is not open on a port has nothing in its queue. *)
Lemma queue_not_mine c j conn :
  inv c → connections c !! j = Some conn → cn_state conn ≠ Free →
  ∀ i p, ports c !! i = Some p → ¬ (cn_state conn = Open ∧ cn_port conn = pkey i p) →
  List.filter (λ r, negb (bool_decide (rq_connection r = cid j conn))) (queue p) = queue p.
Proof.
  intros Hi Hc Hs i p Hp Hn. rewrite <- queue_mine_raw. apply filter_all.
  intros r Hr. rewrite queue_perm in Hr. apply elem_of_live in Hr as [Hr _].
  destruct (mine (cid j conn) r) eqn:Em; [|done]. by destruct Hn; eapply mine_port.
Qed.

(** C27: The request pool of a port is a first-in first-out queue, over every connection. A
    successful SEND appends one request, with the sender's identity and frame, to the queue of
    one port and leaves the others alone; a successful RECV takes a pending close notice and
    leaves the queue alone or, when there is none, returns exactly the head of the queue;
    closing a connection removes from every queue the requests of the connection its handle
    names, no others, and keeps the order of the rest. *)
Theorem requests_fifo P C N ops :
  sizes_ok P C = true → Forall op_typed ops → drawn P C (S (length ops)) < 2 ^ 64 →
  let c := fst (port_run (boot P C N) ops) in
  let t := snd (port_run (boot P C N) ops) in
  (∀ caller raw frame tr w', send caller raw frame tr (MkWorld c t effects_new) = (w', Ok ()) →
     ∃ i p p' r, ports c !! i = Some p ∧ ports (core w') = <[i := p']> (ports c) ∧
       queue p' = queue p ++ [r] ∧ rq_frame r = frame ∧ rq_pid r = cl_holder caller ∧
       rq_generation r = cl_generation caller) ∧
  (∀ caller serve rec w', recv caller serve (MkWorld c t effects_new) = (w', Ok rec) →
     ∃ i p p', ports c !! i = Some p ∧ ports (core w') = <[i := p']> (ports c) ∧
       match oldest_notice c (pkey i p) with
       | Some j => rec = notice_record c j ∧ queue p' = queue p
       | None => ∃ r, rec = request_record r ∧ queue p = r :: queue p'
       end) ∧
  (∀ caller raw reason w' i p', in_width 64 raw →
     close caller raw reason (MkWorld c t effects_new) = (w', Ok ()) →
     ports (core w') !! i = Some p' →
     ∃ p, ports c !! i = Some p ∧
       queue p' = List.filter (λ r, negb (bool_decide (rq_connection r = raw))) (queue p)).
Proof.
  intros Hs Hops Hb c t.
  assert (inv c) as Hi by (apply run_inv; auto).
  pose proof (λ i p, live_numbered P C N ops i p Hs Hops Hb) as Hnb. cbv zeta in Hnb. fold c in Hnb.
  split_and!.
  - intros caller raw frame tr w' E.
    apply send_cases in E as [(err & ? & _)|[(j & conn & _ & ? & _)|
      [(v & t' & i & p & err & tr' & _ & _ & _ & _ & ? & _)|
       (i & p & j & conn & n & r0 & child & t' & rec & [] & _ & ->)]]]; [done..| |done].
    destruct (Hnb i p) as (_ & Hn1 & Hn2 & Hn3); [done..|].
    eexists i, p, _, _. split_and!; [done|reflexivity|by eapply queue_enqueue|done..].
  - intros caller serve rec w' E.
    apply recv_cases in E as [(err & ? & _)|(i & p & _ & Hp & Hl & [(j & conn & Hold & Hc & _ & Hcp & [= ->] & ->)|
      (n & r & j & conn & Hnone & Hold & Hn & Hlr & Hc & Ho & Hk & Hid & _ & [= ->] & ->)])]; [done|..|done].
    + exists i, p, p. rewrite Hold. split_and!; auto. cbn [core ports]. by rewrite list_insert_id.
    + destruct (Hnb i p) as (_ & Hn1 & Hn2 & Hn3); [done..|].
      eexists i, p, _. rewrite Hnone. split_and!; [done|reflexivity|]. exists r. split; [done|].
      eapply queue_dequeue; eauto. apply (inv_port _ Hi _ _ Hp).
  - intros caller raw reason w' i0 p' Hw E Hp'.
    apply close_cases in E as [(err & ? & _)|(j & conn & Hc & Hix & _ & _ & _ & Hst)]; [done|].
    destruct (index_cid _ _ _ Hw Hix) as (conn1 & Hc1 & Hfree & Hraw).
    rewrite Hc in Hc1. injection Hc1 as <-. pose proof (queue_not_mine c j conn Hi Hc Hfree) as Hid.
    rewrite Hraw in Hid. destruct Hst as [[Ho ->]|[Ht ->]].
    + destruct (close_pending_spec c j conn RK_ClientClosed reason t effects_new Hi Hc)
        as (i & p & Hp & Hl & Hk & Heq); [by rewrite Ho|]. rewrite Heq in Hp'. cbn [core ports] in Hp'.
      apply list_lookup_insert_Some in Hp' as [(<- & <- & _)|[Hne Hp']].
      * exists p. split; [done|]. destruct (Hnb i p) as (_ & Hn1 & Hn2 & Hn3); [done..|].
        rewrite Hraw. rewrite (queue_closed _ _ _ Hn1 Hn2 Hn3). apply queue_mine_raw.
      * exists p'. split; [done|]. symmetry. apply (Hid i0); [done|]. intros [_ Hk'].
        apply Hne. eapply (pkey_inj c); eauto; congruence.
    + rewrite (consume_terminal_spec _ _ _ _ _ Hc) in Hp'. exists p'. split; [done|]. symmetry.
      apply (Hid i0); [done|]. intros [Ho _]. by rewrite Ho in Ht.
Qed.

(** The event ring of a connection is a first-in first-out queue. A successful POST appends
    the frame, numbered by its port, to the events of one connection and leaves the others
    alone; RECV_EVENT returns the head of the client's own queue; it returns a terminal event
    (and frees the slot) only when the queue is empty; and DISCONNECT keeps every event queued
    before it. *)
Theorem events_fifo P C N ops :
  sizes_ok P C = true → Forall op_typed ops →
  let c := fst (port_run (boot P C N) ops) in
  let t := snd (port_run (boot P C N) ops) in
  (∀ caller serve raw frame w', post caller serve raw frame (MkWorld c t effects_new) = (w', Ok ()) →
     ∃ j conn conn' s, connections c !! j = Some conn ∧ cn_state conn = Open ∧
       connections (core w') = <[j := conn']> (connections c) ∧
       events_of conn' = events_of conn ++ [MkEvent s frame]) ∧
  (∀ caller raw rec w', recv_event caller raw (MkWorld c t effects_new) = (w', Ok rec) →
     ∃ j conn conn', connections c !! j = Some conn ∧ cn_client conn = cl_holder caller ∧
       connections (core w') = <[j := conn']> (connections c) ∧
       match events_of conn with
       | ev :: rest => rec = frame_event ev ∧ events_of conn' = rest ∧ cn_state conn' = cn_state conn
       | [] => er_kind rec ≠ EK_Frame ∧ cn_state conn' = Free
       end) ∧
  (∀ caller serve raw reason w', disconnect caller serve raw reason (MkWorld c t effects_new) = (w', Ok ()) →
     ∃ j conn conn', connections c !! j = Some conn ∧
       connections (core w') = <[j := conn']> (connections c) ∧
       events_of conn' = events_of conn ∧ cn_state conn' = ServerClosed reason).
Proof.
  intros Hs Hops c t. assert (inv c) as Hi by (apply run_inv; auto). split_and!.
  - intros caller serve raw frame w' E.
    apply post_cases in E as [(err & ? & _)|(i & p & j & conn & _ & Hp & Hl & Hc & Ho & Hk & Hd & _ & ->)];
      [done| |done].
    eexists j, conn, _, _. split_and!; [done..|]. apply events_push; [by eapply inv_conn|].
    destruct (pl_params _ (inv_port _ Hi _ _ Hp) Hl) as [Hv Hty].
    destruct (params_bounds _ Hv Hty) as [? _]. unfold PORT_MAX_EVENT_QUEUE_DEPTH. lia.
  - intros caller raw rec w' E.
    apply recv_event_cases in E as [(err & ? & _)|[(j & conn & _ & _ & ? & _)|
      [(j & conn & conn' & ev & Hc & Ha & Hcp & Hcl & _ & Hp & [= ->] & ->)|
       (j & conn & ev & Hc & Ht & Hcl & _ & Hz & [= ->] & ->)]]]; [done..| | |done].
    + exists j, conn, conn'. rewrite (events_pop _ _ _ (inv_conn _ Hi _ _ Hc) Hp). split_and!; auto.
      unfold pop_event in Hp. case_decide; [done|]. apply pair_equal_spec in Hp as [<- _]. done.
    + rewrite (consume_terminal_spec _ _ _ _ _ Hc). exists j, conn, (free_conn conn).
      unfold events_of. rewrite Hz. split_and!; auto. by destruct Ht as [[_ ->]|(? & _ & ->)].
  - intros caller serve raw reason w' E.
    apply disconnect_cases in E as [(err & ? & _)|(i & p & j & conn & _ & Hp & Hl & Hc & Ho & Hk & _ & ->)];
      [done| |done]. by eexists j, conn, _.
Qed.
End queues.

Lemma session_typed : Forall op_typed Session.ops.
Proof. apply (bool_decide_unpack (Forall op_typed Session.ops)). vm_compute. exact I. Qed.

Lemma requests_fifo_witness :
  (∃ w', send Session.cli Session.conn (Session.frame 3) None Session.world = (w', Ok ()) ∧
     ∃ i p p' r, ports (fst Session.state) !! i = Some p ∧
       ports (core w') = <[i := p']> (ports (fst Session.state)) ∧
       queue p' = queue p ++ [r] ∧ rq_frame r = Session.frame 3 ∧ rq_pid r = 20 ∧ rq_generation r = 3) ∧
  (rq_frame <$> queue (port_at (fst Session.state) 0)) = [Session.frame 1].
Proof.
  split; [|vm_compute; reflexivity].
  exists (fst (send Session.cli Session.conn (Session.frame 3) None Session.world)).
  assert (send Session.cli Session.conn (Session.frame 3) None Session.world =
    (fst (send Session.cli Session.conn (Session.frame 3) None Session.world), Ok ())) as E
    by (vm_compute; reflexivity).
  split; [exact E|].
  destruct (requests_fifo 4 16 16 Session.ops eq_refl session_typed eq_refl) as (H & _ & _).
  exact (H _ _ _ _ _ E).
Defined.

Lemma events_fifo_witness :
  ∃ rec w', recv_event Session.cli Session.conn Session.world = (w', Ok rec) ∧
    er_frame rec = Session.frame 2 ∧
    ∃ j conn conn', connections (fst Session.state) !! j = Some conn ∧ cn_client conn = 20 ∧
      connections (core w') = <[j := conn']> (connections (fst Session.state)) ∧
      match events_of conn with
      | ev :: rest => rec = frame_event ev ∧ events_of conn' = rest ∧ cn_state conn' = cn_state conn
      | [] => er_kind rec ≠ EK_Frame ∧ cn_state conn' = Free
      end.
Proof.
  exists (MkEventRecord EK_Frame 0 2 (Session.frame 2)).
  exists (fst (recv_event Session.cli Session.conn Session.world)).
  assert (recv_event Session.cli Session.conn Session.world =
    (fst (recv_event Session.cli Session.conn Session.world),
     Ok (MkEventRecord EK_Frame 0 2 (Session.frame 2)))) as E by (vm_compute; reflexivity).
  split; [exact E|]. split; [reflexivity|].
  destruct (events_fifo 4 16 16 Session.ops eq_refl session_typed) as (_ & H & _).
  exact (H _ _ _ _ E).
Defined.
