(* ===== verification/PortEffects.v ===== *)
(** The effects of the port engine ([port/src/effects.rs]): the list never overflows, and no
    waiter is left asleep.

    The engine wakes nobody itself; it lists wakes and signals for its caller. The capacity
    argument of [effects.rs] and [PortCore::new] is proved, and with it that an operation
    that ends a wait always lists the wake of that waiter. *)

From Stdlib Require Import ZArith Lia.
From stdpp Require Import base list tactics decidable numbers strings relations.
From S2P Require Import Prelude Bytes CapTypes CapTable CapTree CapSafety NativeAbi.
From S2P Require Import PortEngine PortInv PortTransfer PortOps PortSafety.
Import Core.

Local Open Scope Z_scope.

Section effects.
Context {B : Type} `{EqDecision B}.
Implicit Types (c : PortCore B) (w : World B) (p : Port B) (conn : Connection) (r : Request)
  (e : Effects B) (U : list (Effect B)).

(** * Bounded lists of effects *)

(** Everything listed is in [U], once, and nothing was dropped. *)
Record listed U e : Prop := {
  ls_nodup : NoDup (items e);
  ls_sub : ∀ x, x ∈ items e → x ∈ U;
  ls_fits : overflowed e = false;
}.

Lemma push_listed U e x :
  (length U ≤ EFFECTS_CAPACITY)%nat → listed U e → x ∈ U →
  listed U (push e x) ∧ x ∈ items (push e x) ∧ revoked (push e x) = revoked e ∧
  ∀ y, y ∈ items e → y ∈ items (push e x).
Proof.
  intros HU [Hn Hs Hf] Hx. unfold push. destruct (existsb _ _) eqn:E.
  - apply existsb_exists in E as (y & Hy%list_elem_of_In & ->%bool_decide_eq_true). by split_and!.
  - assert (x ∉ items e) as Hnew.
    { intros Hin. apply list_elem_of_In in Hin.
      assert (existsb (λ y, bool_decide (y = x)) (items e) = true); [|congruence].
      apply existsb_exists. exists x. by rewrite bool_decide_true. }
    assert (length (x :: items e) ≤ length U)%nat as Hlen.
    { apply submseteq_length, NoDup_submseteq; [by constructor|].
      intros y [->|Hy]%elem_of_cons; auto. }
    simpl in Hlen. rewrite decide_True by lia. cbn [items revoked].
    split_and!; [split|..]; cbn [items overflowed]; auto.
    + apply NoDup_app. split_and!; [done| |by apply NoDup_singleton].
      by intros y Hy ->%list_elem_of_singleton.
    + intros y [Hy|Hy%list_elem_of_singleton]%elem_of_app; [auto|by subst].
    + apply elem_of_app. right. by apply list_elem_of_singleton.
    + intros y Hy. apply elem_of_app. by left.
Qed.

Lemma pushes_listed U e l :
  (length U ≤ EFFECTS_CAPACITY)%nat → listed U e → (∀ x, x ∈ l → x ∈ U) →
  listed U (pushes e l) ∧ (∀ x, x ∈ l → x ∈ items (pushes e l)) ∧
  revoked (pushes e l) = revoked e ∧ ∀ y, y ∈ items e → y ∈ items (pushes e l).
Proof.
  intros HU. revert e. induction l as [|x l IH]; intros e He Hl.
  { split_and!; auto. by intros x Hx%elem_of_nil. }
  unfold pushes. simpl. fold (pushes (push e x) l).
  destruct (push_listed U e x) as (H1 & H2 & H3 & H4); [done|done|apply Hl; by left|].
  destruct (IH (push e x)) as (H5 & H6 & H7 & H8); [done|intros y Hy; apply Hl; by right|].
  split_and!; [done| |congruence|auto]. intros y [->|Hy]%elem_of_cons; auto.
Qed.

(** Releasing children notes at most one resource each. *)
Lemma release_children_effects t e l :
  let e' := snd (release_children t e l) in
  items e' = items e ∧ (length (revoked e') ≤ length (revoked e) + length l)%nat ∧
  (overflowed e = false → (length (revoked e) + length l ≤ REVOKED_TRANSFERS_CAPACITY)%nat →
   overflowed e' = false).
Proof.
  revert t e. induction l as [|child l IH]; intros t e; [simpl; split_and!; auto; lia|].
  rewrite release_children_cons.
  assert (items (snd (release_child t child e)) = items e ∧
    (length (revoked (snd (release_child t child e))) ≤ S (length (revoked e)))%nat ∧
    (overflowed e = false → (S (length (revoked e)) ≤ REVOKED_TRANSFERS_CAPACITY)%nat →
     overflowed (snd (release_child t child e)) = false)) as (H1 & H2 & H3).
  { unfold release_child. destruct (Handle.decode _) as [h|]; [|simpl; split_and!; auto; lia].
    destruct (Table.record t h) as [rec|]; [|simpl; split_and!; auto; lia]. simpl. unfold note_revoked.
    destruct (existsb _ _); [split_and!; auto; lia|]. case_decide as Hd; simpl.
    - rewrite length_app. simpl. split_and!; auto; lia.
    - split_and!; auto; lia. }
  destruct (IH (fst (release_child t child e)) (snd (release_child t child e))) as (H4 & H5 & H6).
  simpl. split_and!; [congruence|lia|]. intros Hf Hlen. apply H6; [apply H3; auto; lia|lia].
Qed.

(** * What one operation can list *)

Definition signals p : list (Effect B) :=
  match pt_wake p with
  | Some wk => [Signal (wk_target wk) (request_bit wk); Signal (wk_target wk) (notice_bit wk)]
  | None => []
  end.

Definition port_universe (i : nat) p : list (Effect B) :=
  [WakeServer (pkey i p); WakeSendSpace (pkey i p)] ++ signals p.

Definition universe c : list (Effect B) :=
  concat (imap port_universe (ports c)) ++ imap (λ j conn, WakeConnection (cid j conn)) (connections c).

Lemma elem_of_universe c x :
  x ∈ universe c ↔
  (∃ i p, ports c !! i = Some p ∧ x ∈ port_universe i p) ∨
  (∃ j conn, connections c !! j = Some conn ∧ x = WakeConnection (cid j conn)).
Proof.
  unfold universe. rewrite elem_of_app. f_equiv.
  - rewrite list_elem_of_In, in_concat. split.
    + intros (l & Hl%list_elem_of_In & Hx%list_elem_of_In).
      apply elem_of_lookup_imap in Hl as (i & p & -> & Hp). eauto.
    + intros (i & p & Hp & Hx). exists (port_universe i p). rewrite <- !list_elem_of_In.
      split; [|done]. apply elem_of_lookup_imap. eauto.
  - rewrite elem_of_lookup_imap. naive_solver.
Qed.

Lemma length_universe c : (length (universe c) ≤ 4 * length (ports c) + length (connections c))%nat.
Proof.
  unfold universe. rewrite length_app, length_imap. apply Nat.add_le_mono_r.
  generalize (ports c). intros ps.
  assert (∀ k, (length (concat (imap (λ i, port_universe (k + i)) ps)) ≤ 4 * length ps)%nat) as H; [|apply (H 0%nat)].
  induction ps as [|p ps IH]; intros k; [simpl; lia|].
  rewrite imap_cons. simpl. rewrite length_app.
  assert (length (signals p) ≤ 2)%nat by (unfold signals; destruct (pt_wake p); simpl; lia).
  specialize (IH (S k)). erewrite (imap_ext _ (λ i, port_universe (S k + i))).
  - simpl in *. lia.
  - intros i p' _. simpl. f_equal. lia.
Qed.

(** Transfers queued anywhere, all of which one operation may have to release. *)
Definition inflight c : nat := count_if live_carrier (concat (pt_requests <$> ports c)).

Lemma inflight_insert c i p p' cs :
  ports c !! i = Some p →
  (inflight (MkCore (<[i := p']> (ports c)) cs) + count_if live_carrier (pt_requests p) =
   inflight c + count_if live_carrier (pt_requests p'))%nat.
Proof.
  intros Hp. unfold inflight. cbn [ports]. rewrite list_fmap_insert.
  apply count_if_concat_insert. by rewrite list_lookup_fmap, Hp.
Qed.

Lemma inflight_bound c : inv c → (inflight c ≤ 4 * length (ports c))%nat.
Proof.
  intros Hi. unfold inflight. rewrite <- (length_fmap pt_requests (ports c)).
  apply count_if_concat_le. intros l (p & -> & [i Hp]%list_elem_of_lookup)%list_elem_of_fmap.
  destruct (pt_live p) eqn:Hl.
  - destruct (pl_transfers _ (inv_port _ Hi _ _ Hp) Hl) as [H1 H2].
    unfold PORT_MAX_TRANSFERS_IN_FLIGHT in H2. lia.
  - rewrite count_if_zero; [lia|]. intros r Hr. unfold live_carrier.
    by rewrite (dead_port_empty _ _ _ _ Hi Hp Hl Hr).
Qed.

Lemma length_children q rs : length (children q rs) = count_if (λ r, q r && carries r) rs.
Proof.
  induction rs as [|r rs IH]; [done|]. rewrite children_cons, length_app, count_if_cons, IH. f_equal.
  unfold carries. destruct (q r); simpl; [|done]. by destruct (rq_transfer r).
Qed.

(** The state of the effects while an operation runs. *)
Record room U w : Prop := {
  rm_listed : listed U (effects w);
  rm_universe : ∀ x, x ∈ universe (core w) → x ∈ U;
  rm_revoked : (length (revoked (effects w)) + inflight (core w) ≤ REVOKED_TRANSFERS_CAPACITY)%nat;
}.

(** A step that keeps the keys of ports and connections, and adds no wake binding. *)
Lemma universe_insert c i p p' j conn conn' x :
  ports c !! i = Some p → pkey i p' = pkey i p → (pt_wake p' = pt_wake p ∨ pt_wake p' = None) →
  connections c !! j = Some conn → cid j conn' = cid j conn →
  x ∈ universe (MkCore (<[i := p']> (ports c)) (<[j := conn']> (connections c))) → x ∈ universe c.
Proof.
  intros Hp Hk Hw Hc Hid. rewrite !elem_of_universe. cbn [ports connections].
  intros [(i0 & p0 & [(<- & <- & _)|[_ H0]]%list_lookup_insert_Some & Hx)|
    (j0 & conn0 & [(<- & <- & _)|[_ H0]]%list_lookup_insert_Some & ->)].
  - left. exists i, p. split; [done|]. unfold port_universe, signals in *. rewrite Hk in Hx.
    destruct Hw as [Hw|Hw]; rewrite Hw in Hx; [done|]. apply elem_of_app in Hx as [Hx|Hx%elem_of_nil]; [|done].
    apply elem_of_app. by left.
  - left. eauto.
  - right. exists j, conn. by rewrite Hid.
  - right. eauto.
Qed.

Lemma release_listed U t e l :
  listed U e → (length (revoked e) + length l ≤ REVOKED_TRANSFERS_CAPACITY)%nat →
  listed U (snd (release_children t e l)) ∧
  (length (revoked (snd (release_children t e l))) ≤ length (revoked e) + length l)%nat.
Proof.
  intros [Hn Hs Hf] Hr. destruct (release_children_effects t e l) as (H1 & H2 & H3).
  split; [split; [by rewrite H1|by rewrite H1|auto]|done].
Qed.

Lemma count_mine_le i rs : (count_if (my_carrier i) rs ≤ count_if live_carrier rs)%nat.
Proof.
  apply count_if_mono. intros r. unfold my_carrier, mine, live_carrier.
  by intros [[-> _]%andb_true_iff ->]%andb_true_iff.
Qed.

Lemma closing_universe c i p j conn conn' l x :
  ports c !! i = Some p → connections c !! j = Some conn → closing i p j conn conn' l → x ∈ l →
  x ∈ universe c.
Proof.
  intros Hp Hc Hcl Hx. apply elem_of_universe.
  assert (∀ y, y ∈ port_universe i p → (∃ i p, ports c !! i = Some p ∧ y ∈ port_universe i p) ∨
    (∃ j conn, connections c !! j = Some conn ∧ y = WakeConnection (cid j conn))) as Hport by eauto.
  unfold port_universe, signals in Hport. destruct Hcl; unfold notice_signal in *;
    [destruct (pt_wake p)|]; cbn [app] in Hx, Hport;
    repeat (apply elem_of_cons in Hx as [Hx|Hx]); try (by apply elem_of_nil in Hx);
    subst x; first [apply Hport; set_solver|right; eauto].
Qed.

Lemma shut_room U w w' :
  (length U ≤ EFFECTS_CAPACITY)%nat → shut_step w w' → inv (core w) → room U w → room U w'.
Proof.
  intros HU Hst Hi [Hl Hu Hr].
  destruct Hst as [c t e j conn l Hc Hcase|c t e i p j conn conn' l Hp Hlv Hc Ho Hk Hcl|
    c t e i p s cs l Hp Hlv Htc [Htw _]]; try subst rel; cbn [core effects] in *.
  - destruct (pushes_listed U e l) as (H1 & _ & H3 & _); [done..| |].
    { intros x Hx. destruct Hcase as [[_ ->]|[_ ->]]; [by apply elem_of_nil in Hx|].
      apply list_elem_of_singleton in Hx as ->. apply Hu, elem_of_universe. right. eauto. }
    split; cbn [core effects]; [done| |by rewrite H3]. intros x Hx. apply Hu.
    rewrite elem_of_universe in *. cbn [ports connections] in Hx.
    destruct Hx as [?|(j0 & conn0 & [(<- & <- & _)|[_ H0]]%list_lookup_insert_Some & ->)]; eauto.
  - pose proof (inflight_insert c i p (closed_queue (cid j conn) p) (<[j := conn']> (connections c)) Hp)
      as Hin. destruct (count_purged (cid j conn) (pt_requests p)) as (_ & _ & _ & Hq & _).
    cbn [closed_queue pt_requests bump_seq set_queue] in Hin.
    assert (length (children (mine (cid j conn)) (pt_requests p)) =
      count_if (my_carrier (cid j conn)) (pt_requests p)) as Hch by apply length_children.
    destruct (release_listed U t e (children (mine (cid j conn)) (pt_requests p))) as [H1 H2]; [done|lia|].
    destruct (pushes_listed U _ l HU H1) as (H3 & _ & H5 & _).
    { intros x Hx. apply Hu. by eapply closing_universe. }
    split; cbn [core effects]; [done| |rewrite H5; lia].
    intros x Hx. apply Hu. eapply universe_insert; [exact Hp| | |exact Hc| |exact Hx]; [done|by left|].
    by destruct Hcl.
  - pose proof (inflight_insert c i p (dead_port s p) cs Hp) as Hin.
    assert (count_if live_carrier (pt_requests (dead_port s p)) = 0%nat) as Hz
      by (cbn [pt_requests dead_port kill_port with_seq set_queue]; by rewrite count_if_replicate).
    assert (length (children rq_live (pt_requests p)) = count_if live_carrier (pt_requests p)) as Hch
      by apply length_children.
    destruct (release_listed U t e (children rq_live (pt_requests p))) as [H1 H2]; [done|lia|].
    destruct (pushes_listed U (snd (release_children t e (children rq_live (pt_requests p))))
      (l ++ [WakeSendSpace (pkey i p); WakeServer (pkey i p)]) HU H1) as (H3 & _ & H5 & _).
    { intros x [Hx|Hx]%elem_of_app; apply Hu, elem_of_universe.
      - rewrite Forall_forall in Htw. destruct (Htw x Hx) as (j & conn & Hc & _ & _ & ->). right. eauto.
      - left. exists i, p. split; [done|]. unfold port_universe. set_solver. }
    split; cbn [core effects]; [done| |rewrite H5; lia].
    intros x Hx. apply Hu. rewrite elem_of_universe in *. cbn [ports connections] in Hx.
    destruct Hx as [(i0 & p0 & [(<- & <- & _)|[_ H0]]%list_lookup_insert_Some & Hx)|(j & conn' & Hc' & ->)].
    + left. exists i, p. split; [done|]. unfold port_universe in *. cbn [signals pt_wake dead_port kill_port] in Hx.
      set_solver.
    + left. eauto.
    + right. destruct Htc as [Hlen Htc]. destruct (lookup_lt_is_Some_2 (connections c) j) as [conn Hc].
      { rewrite <- Hlen. by eapply lookup_lt_Some. }
      destruct (Htc _ _ Hc) as (conn1 & Hc1 & Ht%torn_inv). assert (conn1 = conn') as -> by congruence.
      exists j, conn. split; [done|]. by destruct Ht as [[-> _]|(_ & _ & [->|[? ->]])].
Qed.

Lemma shuts_room U n w w' :
  (length U ≤ EFFECTS_CAPACITY)%nat → bsteps shut_step n w w' → inv (core w) → room U w → room U w'.
Proof.
  intros HU. induction 1 as [|n w1 w2 w3 H12 _ IH]; [done|]. intros Hi Hr.
  apply IH; [by eapply shut_step_inv|by eapply shut_room].
Qed.

Lemma world_step_listed c t U w' :
  (length U ≤ EFFECTS_CAPACITY)%nat → world_step (MkWorld c t effects_new) w' → inv c →
  room U (MkWorld c t effects_new) →
  ∃ U', (length U' ≤ EFFECTS_CAPACITY)%nat ∧ listed U' (effects w').
Proof.
  intros HU Hst Hi Hr. pose proof Hr as [Hl Hu _]. cbn [core effects] in *.
  destruct Hst as [act Hst]. inversion Hst as [w w1 Hsh| | |? ? ? i p j conn n r0 r t'| |? ? ? i p j conn n r|? ? ? i p j conn frame| |
    ? ? ? i p target rb nb l Hp Hlv El|]; subst; cbn [effects] in *; try (by exists U).
  - exists U. split; [done|]. eapply (shut_room U (MkWorld c t effects_new)); eauto.
  - exists U. split; [done|]. apply pushes_listed; [done..|]. intros x Hx. apply Hu, elem_of_universe. left.
    exists i, p. split; [done|]. unfold port_universe, signals, request_signal in *.
    destruct (pt_wake p); set_solver.
  - exists U. split; [done|]. apply push_listed; [done..|]. apply Hu, elem_of_universe. left.
    exists i, p. split; [done|]. unfold port_universe. set_solver.
  - exists U. split; [done|]. apply push_listed; [done..|]. apply Hu, elem_of_universe. right. eauto.
  - exists [Signal target rb; Signal target nb]. split; [unfold EFFECTS_CAPACITY; simpl; lia|].
    apply pushes_listed; [unfold EFFECTS_CAPACITY; simpl; lia| |].
    + split; cbn [items effects_new]; [constructor|by intros x Hx%elem_of_nil|done].
    + intros x [Hx|Hx]%elem_of_app; [case_decide|destruct (existsb _ _)]; set_solver.
Qed.

Lemma start_room c t :
  inv c → (4 * length (ports c) + length (connections c) ≤ 32)%nat → (length (ports c) ≤ 4)%nat →
  (length (universe c) ≤ EFFECTS_CAPACITY)%nat ∧ room (universe c) (MkWorld c t effects_new).
Proof.
  intros Hi H1 H2. pose proof (length_universe c). unfold EFFECTS_CAPACITY. split; [lia|].
  split; [split; cbn [items effects effects_new]; [constructor|by intros x Hx%elem_of_nil|done]|done|].
  pose proof (inflight_bound c Hi). unfold REVOKED_TRANSFERS_CAPACITY. simpl. lia.
Qed.

Lemma op_listed c t op :
  inv c → (4 * length (ports c) + length (connections c) ≤ 32)%nat → (length (ports c) ≤ 4)%nat →
  op_typed op → ∃ U, (length U ≤ EFFECTS_CAPACITY)%nat ∧ listed U (effects (port_op c t op)).
Proof.
  intros Hi H1 H2 Ht. destruct (start_room c t Hi H1 H2) as [HU Hr].
  destruct (port_op_cases c t op Hi Ht) as [H|H].
  - inversion H as [|n w1 w2 w3 H12 H23]; subst; [exists (universe c); split; [done|apply Hr]|].
    inversion H23; subst. by eapply world_step_listed.
  - exists (universe c). split; [done|]. by eapply shuts_room in H as [].
Qed.

(** The run keeps the sizes the capacity argument rests on. *)
Lemma run_sizes P C N (ops : list (PortOp B)) :
  sizes_ok P C = true → Forall op_typed ops →
  let c := fst (port_run (boot P C N) ops) in
  inv c ∧ (4 * length (ports c) + length (connections c) ≤ 32)%nat ∧ (length (ports c) ≤ 4)%nat.
Proof.
  intros Hs Hops. apply (port_run_ind (λ c _, inv c ∧
    (4 * length (ports c) + length (connections c) ≤ 32)%nat ∧ (length (ports c) ≤ 4)%nat)); [|done|].
  - destruct (sizes_ok_bounds P C Hs) as (? & ? & ? & ?). split; [by apply (boot_inv P C N)|].
    simpl. rewrite !length_replicate. lia.
  - intros c t op (Hi & H1 & H2) Ht. split; [by apply port_op_inv|].
    destruct (world_steps_lengths _ _ _ (port_op_steps c t op Hi Ht)) as [E1 E2]. by rewrite E1, E2.
Qed.

(** C28: The effect list of an operation never overflows: with the sizes [PortCore::new] asserts,
    after any history, no operation drops a wake, a signal or a revoked resource, and it lists
    each effect once. *)
Theorem effects_never_overflow P C N (ops : list (PortOp B)) op :
  sizes_ok P C = true → Forall op_typed ops → op_typed op →
  let c := fst (port_run (boot P C N) ops) in
  let t := snd (port_run (boot P C N) ops) in
  let e := effects (port_op c t op) in
  overflowed e = false ∧ NoDup (items e) ∧ (length (items e) ≤ EFFECTS_CAPACITY)%nat.
Proof.
  intros Hs Hops Ht c t e. destruct (run_sizes P C N ops Hs Hops) as (Hi & H1 & H2).
  destruct (op_listed c t op Hi H1 H2 Ht) as (U & HU & [Hn Hsub Hf]).
  split_and!; [done..|]. etrans; [|exact HU]. by apply submseteq_length, NoDup_submseteq.
Qed.
End effects.

(** The exit of the client notes the resource of the undelivered child, wakes and signals the
    server, and wakes the senders and the connection's waiters. *)
Lemma effects_never_overflow_witness :
  let c := fst (port_run (boot 4 16 16) Session.ops) in
  let t := snd (port_run (boot 4 16 16) Session.ops) in
  let e := effects (port_op c t (PoExit 20 3)) in
  items e ≠ [] ∧ overflowed e = false ∧ NoDup (items e) ∧ (length (items e) ≤ EFFECTS_CAPACITY)%nat.
Proof.
  assert (Forall op_typed Session.ops) as Ho.
  { apply (bool_decide_unpack (Forall op_typed Session.ops)). vm_compute. exact I. }
  pose proof (effects_never_overflow 4 16 16 Session.ops (PoExit 20 3) eq_refl Ho I) as H.
  cbv zeta in H |- *. split; [by vm_compute|exact H].
Defined.
