(* ===== verification/PortWakeups.v ===== *)
(** No lost wakeups.

    A client waits in RECV_EVENT until [event_ready], a server in RECV until a notice or a
    request is there, a sender in SEND until there is capacity; the engine lists the wakes
    ([port/src/engine.rs], [effects.rs]) and its caller applies them after the operation. *)

From Stdlib Require Import ZArith Lia.
From stdpp Require Import base list tactics decidable numbers strings relations.
From S2P Require Import Prelude Bytes CapTypes CapTable CapTree CapSafety NativeAbi.
From S2P Require Import PortEngine PortInv PortTransfer PortOps PortSafety PortEffects.
Import Core.

Local Open Scope Z_scope.

Section wakeups.
Context {B : Type} `{EqDecision B}.
Implicit Types (c : PortCore B) (w : World B) (p : Port B) (conn : Connection) (r : Request)
  (e : Effects B) (U : list (Effect B)).

(** * Waiting *)

(** The capacity tests of SEND, for a frame with ([tr = true]) or without a transfer. *)
Definition full (tr : bool) p conn : bool :=
  bool_decide (max_outstanding (pt_params p) ≤ cn_outstanding conn ∨
               request_depth (pt_params p) ≤ Z.of_nat (queued_requests p)) ||
  tr && bool_decide (PORT_MAX_TRANSFERS_IN_FLIGHT_PER_CONNECTION ≤ cn_transfers conn ∨
                     PORT_MAX_TRANSFERS_IN_FLIGHT ≤ pt_transfers p).

Definition send_blocked c (raw : Z) (tr : bool) : bool :=
  match connection_index c raw with
  | Ok j =>
      let conn := conn_at c j in
      match cn_state conn, port_index c (cn_port conn) with
      | Open, Some i => full tr (port_at c i) conn
      | _, _ => false
      end
  | Err _ => false
  end.

Definition recv_blocked c (k : PortKey) : bool :=
  match port_index c k with
  | Some i =>
      match oldest_notice c k, oldest_request (port_at c i) with
      | None, None => true
      | _, _ => false
      end
  | None => false
  end.

(** The three waits, as conditions on the slots they concern. *)
Definition event_waits (j : nat) (k : ConnectionId) c : Prop :=
  ∃ conn, connections c !! j = Some conn ∧ cid j conn = k ∧ cn_state conn = Open ∧
    cn_event_len conn = 0%nat.

Definition recv_waits (i : nat) (k : PortKey) c : Prop :=
  ∃ p, ports c !! i = Some p ∧ pt_live p = true ∧ pkey i p = k ∧
    (∀ r, r ∈ pt_requests p → rq_live r = false) ∧
    ∀ j conn, connections c !! j = Some conn → cn_port conn = k → is_close_pending (cn_state conn) = false.

Definition send_waits (j : nat) (k : ConnectionId) (i : nat) (pk : PortKey) (tr : bool) c : Prop :=
  ∃ conn p, connections c !! j = Some conn ∧ cid j conn = k ∧ cn_state conn = Open ∧
    cn_port conn = pk ∧ ports c !! i = Some p ∧ pt_live p = true ∧ pkey i p = pk ∧
    full tr p conn = true.

(** A step ends a wait only with its wake. *)
Definition wakes (W : PortCore B → Prop) (x : Effect B) w w' : Prop :=
  W (core w) → W (core w') ∨ x ∈ items (effects w').

Lemma full_mono tr p p' conn conn' :
  pt_params p' = pt_params p → cn_outstanding conn ≤ cn_outstanding conn' →
  cn_transfers conn ≤ cn_transfers conn' → pt_transfers p ≤ pt_transfers p' →
  (queued_requests p ≤ queued_requests p')%nat →
  full tr p conn = true → full tr p' conn' = true.
Proof.
  intros Hp H1 H2 H3 H4. unfold full. rewrite !orb_true_iff, !andb_true_iff, !bool_decide_eq_true, Hp.
  intros [H|[-> H]]; [left|right; split; [done|]]; lia.
Qed.

(** ** Steps that touch other slots *)

Lemma event_waits_frame j k c c' :
  connections c' !! j = connections c !! j → event_waits j k c → event_waits j k c'.
Proof. intros Hj (conn & Hc & H). exists conn. by rewrite Hj. Qed.

Lemma recv_waits_frame i k c c' :
  (∀ p, ports c !! i = Some p → pt_live p = true → ∃ p',
     ports c' !! i = Some p' ∧ pt_live p' = true ∧ pkey i p' = pkey i p ∧
     ∀ r, r ∈ pt_requests p' → rq_live r = true → r ∈ pt_requests p) →
  (∀ j conn', connections c' !! j = Some conn' → cn_port conn' = k →
     is_close_pending (cn_state conn') = true →
     ∃ conn, connections c !! j = Some conn ∧ cn_port conn = k ∧ is_close_pending (cn_state conn) = true) →
  recv_waits i k c → recv_waits i k c'.
Proof.
  intros Hp Hc (p & Hi & Hl & Hk & Hr & Hn). destruct (Hp p Hi Hl) as (p' & Hi' & Hl' & Hk' & Hr').
  exists p'. split_and!; auto; [congruence|..].
  - intros r Hin. destruct (rq_live r) eqn:E; [|done]. rewrite Hr in E; auto.
  - intros j conn' Hc' Hk2. destruct (is_close_pending _) eqn:E; [|done].
    destruct (Hc j conn' Hc' Hk2 E) as (conn & Hcc & Hkk & E'). by rewrite (Hn j conn) in E'.
Qed.

Lemma send_waits_frame j k i pk tr c c' :
  (∀ conn, connections c !! j = Some conn → cn_state conn = Open → ∃ conn', connections c' !! j = Some conn' ∧
     cid j conn' = cid j conn ∧ cn_state conn' = Open ∧ cn_port conn' = cn_port conn ∧
     cn_outstanding conn ≤ cn_outstanding conn' ∧ cn_transfers conn ≤ cn_transfers conn') →
  (∀ p, ports c !! i = Some p → pt_live p = true → ∃ p', ports c' !! i = Some p' ∧ pt_live p' = true ∧
     pkey i p' = pkey i p ∧ pt_params p' = pt_params p ∧ pt_transfers p ≤ pt_transfers p' ∧
     (queued_requests p ≤ queued_requests p')%nat) →
  send_waits j k i pk tr c → send_waits j k i pk tr c'.
Proof.
  intros Hc Hp (conn & p & Hj & Hk & Ho & Hpk & Hi & Hl & Hik & Hf).
  destruct (Hc conn Hj Ho) as (conn' & Hj' & E1 & E2 & E3 & E4 & E5).
  destruct (Hp p Hi Hl) as (p' & Hi' & F1 & F2 & F3 & F4 & F5).
  exists conn', p'. split_and!; try congruence. by eapply full_mono.
Qed.

(** ** Clients waiting for an event *)

(** A step that rewrites one connection slot. *)
Lemma event_slot j k c j0 conn0 conn1 ps (x : Prop) :
  connections c !! j0 = Some conn0 →
  (cn_state conn0 = Open → cn_event_len conn0 = 0%nat → cid j0 conn0 = k →
   cn_state conn1 = Open ∧ cn_event_len conn1 = 0%nat ∧ cid j0 conn1 = cid j0 conn0 ∨ x) →
  event_waits j k c →
  event_waits j k (MkCore ps (<[j0 := conn1]> (connections c))) ∨ x.
Proof.
  intros Hc H0 (conn & Hj & Hk & Ho & He).
  destruct (decide (j0 = j)) as [->|Hne].
  - assert (conn0 = conn) as -> by congruence. destruct (H0 Ho He Hk) as [(H1 & H2 & H3)|?]; [|by right].
    left. exists conn1. cbn [connections]. rewrite list_lookup_insert_eq by (by eapply lookup_lt_Some).
    split_and!; congruence.
  - left. exists conn. cbn [connections]. by rewrite list_lookup_insert_ne.
Qed.

(** ** Without overflow, what is pushed is listed *)

Lemma push_kept e x :
  overflowed (push e x) = false →
  overflowed e = false ∧ x ∈ items (push e x) ∧ ∀ y, y ∈ items e → y ∈ items (push e x).
Proof.
  unfold push. destruct (existsb _ _) eqn:E.
  - apply existsb_exists in E as (y & Hy%list_elem_of_In & ->%bool_decide_eq_true).
    intros Hf. by split_and!.
  - case_decide; cbn [overflowed items]; [|done]. intros Hf. split_and!; [done| |].
    + apply elem_of_app. right. by apply list_elem_of_singleton.
    + intros y Hy. apply elem_of_app. by left.
Qed.

Lemma pushes_kept e l :
  overflowed (pushes e l) = false →
  overflowed e = false ∧ (∀ x, x ∈ l → x ∈ items (pushes e l)) ∧
  ∀ y, y ∈ items e → y ∈ items (pushes e l).
Proof.
  revert e. induction l as [|x l IH]; intros e Hf; [split_and!; auto; by intros x Hx%elem_of_nil|].
  unfold pushes in *. simpl in *. destruct (IH _ Hf) as (H1 & H2 & H3).
  destruct (push_kept _ _ H1) as (H4 & H5 & H6). split_and!; [done| |auto].
  intros y [->|Hy]%elem_of_cons; auto.
Qed.

Lemma release_kept t e l :
  overflowed (snd (release_children t e l)) = false →
  overflowed e = false ∧ items (snd (release_children t e l)) = items e.
Proof.
  destruct (release_children_effects t e l) as (Hi & _ & _). intros Hf. split; [|done].
  revert t e Hf Hi. induction l as [|child l IH]; intros t e Hf _; [done|].
  rewrite release_children_cons in Hf.
  destruct (release_children_effects (fst (release_child t child e)) (snd (release_child t child e)) l) as (Hi & _).
  specialize (IH _ _ Hf Hi). revert IH. unfold release_child.
  destruct (Handle.decode _) as [h|]; [|done]. destruct (Table.record t h) as [rec|]; [|done].
  simpl. unfold note_revoked. destruct (existsb _ _); [done|]. by case_decide.
Qed.

Lemma event_shut j k w w' :
  shut_step w w' → inv (core w) → overflowed (effects w') = false →
  wakes (event_waits j k) (WakeConnection k) w w'.
Proof.
  intros Hst Hi Hf HW.
  destruct Hst as [c t e j0 conn l Hc Hcase|c t e i p j0 conn conn' l Hp Hlv Hc Ho Hk Hcl|
    c t e i p s cs l Hp Hlv [Hlen Htc] [Htw Hall]]; try subst rel; cbn [core effects] in *;
    apply pushes_kept in Hf as (_ & Hin & _).
  - eapply event_slot; [done| |done]. intros Ho. rewrite Ho in Hcase. naive_solver.
  - eapply event_slot; [done| |done]. intros _ _ <-. right. apply Hin. destruct Hcl; set_solver.
  - destruct HW as (conn & Hj & Hk & Ho & He). destruct (Htc _ _ Hj) as (conn' & Hj' & Ht%torn_inv).
    destruct Ht as [[-> _]|(Hkp & Ha & _)]; [left; by exists conn|]. right. apply Hin, elem_of_app. left.
    rewrite <- Hk. apply Hall; auto. by rewrite Ho.
Qed.

Lemma event_step j k w w' :
  world_step w w' → inv (core w) → overflowed (effects w') = false →
  wakes (event_waits j k) (WakeConnection k) w w'.
Proof.
  intros Hst Hi Hf HW. destruct Hst as [act Hst]; destruct Hst; cbn [core effects] in *; try (by left).
  - by eapply event_shut.
  - eapply event_slot; [done| |done]. congruence.
  - eapply event_slot; [done| |done]. intros. by left.
  - eapply event_slot; [done| |done]. intros. by left.
  - eapply event_slot; [done| |done]. intros _ _ <-. right. by destruct (push_kept _ _ Hf) as (_ & ? & _).
  - eapply event_slot; [done| |done]. intros _ Hz _.
    match goal with H : pop_event _ = _ |- _ => unfold pop_event in H; by rewrite decide_True in H end.
Qed.

(** ** Servers waiting for a request or a notice *)

(** A step that rewrites one port slot and one connection slot, and adds neither a request to
    the waiting port nor a notice. *)
Lemma recv_slots i k c i0 p0 p1 j0 conn0 conn1 :
  ports c !! i0 = Some p0 → connections c !! j0 = Some conn0 →
  (i0 = i → pt_live p0 = true → pt_live p1 = true ∧ pkey i0 p1 = pkey i0 p0 ∧
     ∀ r, r ∈ pt_requests p1 → rq_live r = true → r ∈ pt_requests p0) →
  (cn_port conn1 = k → is_close_pending (cn_state conn1) = true →
   cn_port conn0 = k ∧ is_close_pending (cn_state conn0) = true) →
  recv_waits i k c →
  recv_waits i k (MkCore (<[i0 := p1]> (ports c)) (<[j0 := conn1]> (connections c))).
Proof.
  intros Hp Hc Hport Hconn. apply recv_waits_frame; cbn [ports connections].
  - intros p Hpi Hl. destruct (decide (i0 = i)) as [->|Hne].
    + assert (p0 = p) as -> by congruence. exists p1.
      rewrite list_lookup_insert_eq by (by eapply lookup_lt_Some). auto.
    + exists p. by rewrite list_lookup_insert_ne.
  - intros j conn' [(<- & <- & _)|[_ Hj]]%list_lookup_insert_Some Hk Hcp; [|eauto].
    exists conn0. destruct (Hconn Hk Hcp). done.
Qed.

Lemma recv_conn i k c j0 conn0 conn1 :
  connections c !! j0 = Some conn0 →
  (is_close_pending (cn_state conn1) = true →
   cn_port conn1 = cn_port conn0 ∧ is_close_pending (cn_state conn0) = true) →
  recv_waits i k c → recv_waits i k (MkCore (ports c) (<[j0 := conn1]> (connections c))).
Proof.
  intros Hc Hcp HW. pose proof HW as (p & Hp & _).
  rewrite <- (list_insert_id (ports c) i p) by done.
  eapply recv_slots; eauto. intros Hk E. destruct (Hcp E) as [E1 E2]. split; congruence.
Qed.

Lemma purged_live i r (rs : list Request) : r ∈ purged i <$> rs → rq_live r = true → r ∈ rs.
Proof. intros H1 H2. by destruct (elem_of_purged _ _ _ H1 H2). Qed.

Lemma recv_shut i k w w' :
  shut_step w w' → inv (core w) → overflowed (effects w') = false →
  wakes (recv_waits i k) (WakeServer k) w w'.
Proof.
  intros Hst Hi Hf HW.
  destruct Hst as [c t e j0 conn l Hc Hcase|c t e i0 p0 j0 conn conn' l Hp Hlv Hc Ho Hk Hcl|
    c t e i0 p0 s cs l Hp Hlv [Hlen Htc] Hall]; try subst rel; cbn [core effects] in *;
    apply pushes_kept in Hf as (_ & Hin & _).
  - left. by eapply recv_conn.
  - destruct (decide (pkey i0 p0 = k)) as [<-|Hne].
    + destruct Hcl; [right; apply Hin; set_solver|]. left. eapply recv_slots; eauto; [|done].
      intros _ _. split_and!; [done..|]. intros r. apply purged_live.
    + left. eapply recv_slots; eauto.
      * intros _ _. split_and!; [done..|]. intros r. apply purged_live.
      * destruct Hcl; [|done]. intros Hk'. cbn in Hk'. congruence.
  - destruct (decide (i0 = i)) as [->|Hne].
    + right. destruct HW as (p & Hp' & _ & <- & _). assert (p0 = p) as -> by congruence.
      apply Hin. set_solver.
    + left. revert HW. apply recv_waits_frame; cbn [ports connections].
      * intros p Hp' Hl. exists p. by rewrite list_lookup_insert_ne.
      * intros j conn' Hj Hk Hcp. destruct (lookup_lt_is_Some_2 (connections c) j) as [conn Hc].
        { rewrite <- Hlen. by eapply lookup_lt_Some. }
        destruct (Htc _ _ Hc) as (conn1 & Hc1 & Ht%torn_inv). assert (conn1 = conn') as -> by congruence.
        destruct Ht as [[-> _]|(_ & _ & [->|[? ->]])]; [eauto|done..].
Qed.

Lemma recv_step_wakes i k w w' :
  world_step w w' → inv (core w) → overflowed (effects w') = false →
  wakes (recv_waits i k) (WakeServer k) w w'.
Proof.
  intros Hst Hi Hf HW.
  destruct Hst as [act Hst]. destruct Hst as [| | |c t e i0 p j conn n r0 r t' Hp Hlv Hc Ho Hk| |c t e i0 p j conn n r Hp Hlv Hc Ho Hk|
    c t e i0 p j conn frame Hp Hlv Hc Ho Hk|c t e j conn conn' ev Hc Ha Hcp Hpop|c t e i0 p target rb nb l Hp|];
    cbn [core effects] in *; try (by left).
  - by eapply recv_shut.
  - left. revert HW. apply recv_waits_frame; cbn [ports connections]; [|eauto].
    intros p' Hp' Hl. exists p'. rewrite list_lookup_insert_ne; [done|]. intros ->. congruence.
  - left. by eapply recv_conn.
  - destruct (decide (i0 = i)) as [->|Hne].
    + right. apply pushes_kept in Hf as (_ & Hin & _). destruct HW as (p' & Hp' & _ & <- & _).
      assert (p' = p) as -> by congruence. apply Hin. set_solver.
    + left. eapply recv_slots; eauto; done.
  - left. eapply recv_slots; eauto.
    intros _ _. split_and!; [done..|]. cbn [pt_requests set_queue]. intros r' [m Hm]%list_elem_of_lookup Hl.
    apply list_lookup_insert_Some in Hm as [(_ & <- & _)|[_ Hm]]; [done|]. by eapply list_elem_of_lookup_2.
  - left. eapply recv_slots; eauto; done.
  - left. eapply recv_conn; eauto. unfold pop_event in Hpop. case_decide; [done|].
    apply pair_equal_spec in Hpop as [<- _]. by cbn.
  - left. revert HW. apply recv_waits_frame; cbn [ports connections]; [|eauto].
    intros p' Hp' Hl. destruct (decide (i0 = i)) as [->|Hne].
    + assert (p' = p) as -> by congruence. eexists.
      by rewrite list_lookup_insert_eq by (by eapply lookup_lt_Some).
    + exists p'. by rewrite list_lookup_insert_ne.
Qed.

(** ** Senders waiting for capacity *)

Definition port_grows p p' : Prop :=
  pt_live p' = true ∧ pt_generation p' = pt_generation p ∧ pt_params p' = pt_params p ∧
  pt_transfers p ≤ pt_transfers p' ∧ (queued_requests p ≤ queued_requests p')%nat.

Definition conn_grows conn conn' : Prop :=
  cn_generation conn' = cn_generation conn ∧ cn_state conn' = Open ∧ cn_port conn' = cn_port conn ∧
  cn_outstanding conn ≤ cn_outstanding conn' ∧ cn_transfers conn ≤ cn_transfers conn'.

Lemma send_slots j k i pk tr c i0 p0 p1 j0 conn0 conn1 :
  ports c !! i0 = Some p0 → connections c !! j0 = Some conn0 →
  (i0 = i → pt_live p0 = true → port_grows p0 p1) →
  (j0 = j → cn_state conn0 = Open → conn_grows conn0 conn1) →
  send_waits j k i pk tr c →
  send_waits j k i pk tr (MkCore (<[i0 := p1]> (ports c)) (<[j0 := conn1]> (connections c))).
Proof.
  intros Hp Hc Hport Hconn. apply send_waits_frame; cbn [ports connections].
  - intros conn Hj Ho. destruct (decide (j0 = j)) as [->|Hne].
    + assert (conn0 = conn) as -> by congruence. exists conn1.
      rewrite list_lookup_insert_eq by (by eapply lookup_lt_Some).
      destruct (Hconn eq_refl Ho) as (Hg & H1 & H2 & H3 & H4). unfold cid. by rewrite Hg.
    + exists conn. rewrite list_lookup_insert_ne by done. split_and!; auto; lia.
  - intros p Hpi Hl. destruct (decide (i0 = i)) as [->|Hne].
    + assert (p0 = p) as -> by congruence. exists p1.
      rewrite list_lookup_insert_eq by (by eapply lookup_lt_Some).
      destruct (Hport eq_refl Hl) as (H1 & Hg & H2 & H3 & H4). unfold pkey. by rewrite Hg.
    + exists p. rewrite list_lookup_insert_ne by done. split_and!; auto; lia.
Qed.

Lemma send_conn j k i pk tr c j0 conn0 conn1 :
  connections c !! j0 = Some conn0 → (j0 = j → cn_state conn0 = Open → conn_grows conn0 conn1) →
  send_waits j k i pk tr c →
  send_waits j k i pk tr (MkCore (ports c) (<[j0 := conn1]> (connections c))).
Proof.
  intros Hc Hconn HW. pose proof HW as (conn & p & _ & _ & _ & _ & Hp & _).
  rewrite <- (list_insert_id (ports c) i p) by done.
  eapply send_slots; eauto. intros _ Hl. unfold port_grows. split_and!; auto; lia.
Qed.

(** The waiting connection is attached to the waiting port only. *)
Lemma send_waits_port j k i pk tr c i0 p0 conn0 :
  inv c → send_waits j k i pk tr c → ports c !! i0 = Some p0 → connections c !! j = Some conn0 →
  cn_port conn0 = pkey i0 p0 → i0 = i ∧ pk = pkey i0 p0.
Proof.
  intros Hi (conn & p & Hj & _ & _ & Hpk & Hp & _ & Hik & _) Hp0 Hc0 Hk.
  assert (conn0 = conn) as -> by congruence. split; [|congruence].
  eapply pkey_inj; [exact Hi|exact Hp0|exact Hp|congruence].
Qed.

Lemma send_shut j k i pk tr w w' :
  shut_step w w' → inv (core w) → overflowed (effects w') = false →
  wakes (send_waits j k i pk tr) (WakeSendSpace pk) w w'.
Proof.
  intros Hst Hi Hf HW.
  destruct Hst as [c t e j0 conn l Hc Hcase|c t e i0 p0 j0 conn conn' l Hp Hlv Hc Ho Hk Hcl|
    c t e i0 p0 s cs l Hp Hlv [Hlen Htc] Hall]; try subst rel; cbn [core effects] in *;
    apply pushes_kept in Hf as (_ & Hin & _).
  - left. eapply send_conn; eauto. intros _ Ho. rewrite Ho in Hcase. naive_solver.
  - destruct (decide (i0 = i)) as [->|Hne].
    + right. destruct HW as (conn1 & p & _ & _ & _ & _ & Hp' & _ & <- & _).
      assert (p0 = p) as -> by congruence. apply Hin. destruct Hcl; set_solver.
    + left. eapply send_slots; eauto; [done|]. intros -> _.
      by destruct (send_waits_port _ _ _ _ _ _ _ _ _ Hi HW Hp Hc Hk) as [? _].
  - destruct (decide (i0 = i)) as [->|Hne].
    + right. destruct HW as (conn1 & p & _ & _ & _ & _ & Hp' & _ & <- & _).
      assert (p0 = p) as -> by congruence. apply Hin. set_solver.
    + left. pose proof HW as HW0. revert HW. apply send_waits_frame; cbn [ports connections].
      * intros conn Hj Ho. destruct (Htc _ _ Hj) as (conn1 & Hc1 & Ht%torn_inv). exists conn1.
        destruct Ht as [[-> _]|(Hk & _)]; [split_and!; auto; lia|].
        by destruct (send_waits_port _ _ _ _ _ _ _ _ _ Hi HW0 Hp Hj Hk) as [? _].
      * intros p Hpi Hl. exists p. rewrite list_lookup_insert_ne by done. split_and!; auto; lia.
Qed.

Lemma send_step_wakes j k i pk tr w w' :
  world_step w w' → inv (core w) → overflowed (effects w') = false →
  wakes (send_waits j k i pk tr) (WakeSendSpace pk) w w'.
Proof.
  intros Hst Hi Hf HW.
  destruct Hst as [act Hst]. destruct Hst as [|c t e i0 p| |c t e i0 p j0 conn n r0 r t' Hp Hlv Hc Ho Hk Hn Hd|
    |c t e i0 p j0 conn n r Hp Hlv Hc Ho Hk|
    c t e i0 p j0 conn frame Hp Hlv Hc Ho Hk|c t e j0 conn conn' ev Hc Ha Hcp Hpop|c t e i0 p target rb nb l Hp|];
    cbn [core effects] in *; try (by left).
  - by eapply send_shut.
  - left. revert HW. apply send_waits_frame; cbn [ports connections].
    + intros conn Hj Ho. exists conn. split_and!; auto; lia.
    + intros p' Hp' Hl. exists p'. rewrite list_lookup_insert_ne; [split_and!; auto; lia|]. intros ->. congruence.
  - left. eapply send_conn; eauto. congruence.
  - assert (0 ≤ weight r) by (unfold weight; destruct (carries r); lia).
    left. eapply send_slots; eauto; intros _ _; unfold port_grows, conn_grows;
      cbn [pt_live pt_generation pt_params pt_transfers set_queue bump_seq
           cn_generation cn_state cn_port cn_outstanding cn_transfers set_counts];
      split_and!; auto; try lia.
    pose proof (count_if_insert rq_live _ _ _ r Hn) as Hx. rewrite Hd in Hx.
    unfold queued_requests. cbn [pt_requests set_queue]. simpl in Hx. lia.
  - destruct (decide (i0 = i)) as [->|Hne].
    + right. destruct (push_kept _ _ Hf) as (_ & Hx & _).
      destruct HW as (conn1 & p' & _ & _ & _ & _ & Hp' & _ & <- & _).
      by assert (p' = p) as -> by congruence.
    + left. eapply send_slots; eauto; [done|]. intros -> _.
      by destruct (send_waits_port _ _ _ _ _ _ _ _ _ Hi HW Hp Hc Hk) as [? _].
  - left. eapply send_slots; eauto; intros _ _; unfold port_grows, conn_grows, push_event; cbn;
      split_and!; auto; lia.
  - left. eapply send_conn; eauto. intros _ Ho. unfold pop_event in Hpop. case_decide; [done|].
    apply pair_equal_spec in Hpop as [<- _]. unfold conn_grows. cbn. split_and!; auto; lia.
  - left. revert HW. apply send_waits_frame; cbn [ports connections].
    + intros conn Hj Ho. exists conn. split_and!; auto; lia.
    + intros p' Hp' Hl. destruct (decide (i0 = i)) as [->|Hne].
      * assert (p' = p) as -> by congruence. eexists.
        rewrite list_lookup_insert_eq by (by eapply lookup_lt_Some).
        split_and!; done.
      * exists p'. rewrite list_lookup_insert_ne by done. split_and!; auto; lia.
Qed.

(** ** From steps to operations *)

Lemma step_keeps w w' :
  world_step w w' → overflowed (effects w') = false →
  overflowed (effects w) = false ∧ ∀ x, x ∈ items (effects w) → x ∈ items (effects w').
Proof.
  intros Hst Hf. destruct Hst as [act Hst]; destruct Hst; cbn [effects] in *; try done;
    try (destruct (pushes_kept _ _ Hf) as (? & _ & ?); done);
    try (destruct (push_kept _ _ Hf) as (? & _ & ?); done).
  match goal with H : shut_step _ _ |- _ => destruct H end; cbn [effects] in *; try subst rel;
    destruct (pushes_kept _ _ Hf) as (Hr & _ & Hsub); [done|..];
    destruct (release_kept _ _ _ Hr) as [He Hitems]; (split; [done|]); intros x Hx;
    apply Hsub; by rewrite Hitems.
Qed.

Lemma steps_wake (W : PortCore B → Prop) x n w w' :
  (∀ w w', world_step w w' → inv (core w) → overflowed (effects w') = false → wakes W x w w') →
  bsteps world_step n w w' → inv (core w) → overflowed (effects w') = false →
  W (core w) → W (core w') ∨ x ∈ items (effects w').
Proof.
  intros HW Hs Hi Hf. cut (W (core w) ∨ x ∈ items (effects w) → W (core w') ∨ x ∈ items (effects w')).
  { intros H0 H1. by apply H0; left. }
  assert (overflowed (effects w) = false ∧
    (W (core w) ∨ x ∈ items (effects w) → W (core w') ∨ x ∈ items (effects w'))) as [_ ?]; [|done].
  induction Hs as [|n w1 w2 w3 H12 H23 IH]; [done|].
  destruct (IH (world_step_inv _ _ H12 Hi) Hf) as [Hf2 H2].
  destruct (step_keeps _ _ H12 Hf2) as [Hf1 Hk]. split; [done|]. intros [H1|H1]; apply H2.
  - by destruct (HW _ _ H12 Hi Hf2 H1); [left|right].
  - right. auto.
Qed.

(** The waits the code tests. *)
Lemma cid_index c j conn :
  inv c → connections c !! j = Some conn → cn_state conn ≠ Free →
  connection_index c (cid j conn) = Ok j.
Proof.
  intros Hi Hc Hs. destruct (inv_cid _ _ _ Hi Hc Hs) as ([_ Hd] & Hsl & Hg).
  unfold connection_index. rewrite Hd. cbn [map_err]. rewrite Hsl, Nat2Z.id, Hc.
  rewrite decide_False; [done|]. intros [?|?]; congruence.
Qed.

Lemma event_ready_false c raw :
  inv c → in_width 64 raw → event_ready c raw = false → ∃ j, event_waits j raw c.
Proof.
  intros Hi Hw. unfold event_ready. destruct (connection_index c raw) as [j|] eqn:E; [|done].
  destruct (index_cid _ _ _ Hw E) as (conn & Hc & Hs & Hid). rewrite (conn_at_lookup _ _ _ Hc).
  intros [Ho%negb_false_iff He%negb_false_iff]%orb_false_iff.
  apply bool_decide_eq_true in Ho, He. exists j, conn. by split_and!.
Qed.

Lemma event_waits_ready c j raw : inv c → event_waits j raw c → event_ready c raw = false.
Proof.
  intros Hi (conn & Hc & <- & Ho & He). unfold event_ready.
  rewrite (cid_index _ _ _ Hi Hc) by (by rewrite Ho). rewrite (conn_at_lookup _ _ _ Hc), Ho, He.
  by rewrite !bool_decide_true.
Qed.

Lemma recv_blocked_waits c k :
  inv c → in_width 8 (pk_slot k) →
  recv_blocked c k = true ↔ recv_waits (Z.to_nat (pk_slot k)) k c.
Proof.
  intros Hi Hw. unfold recv_blocked. split.
  - destruct (port_index c k) as [i|] eqn:Hx; [|done].
    apply port_index_Some in Hx as (p & Hp & Hl & Hg & ->). rewrite (port_at_lookup _ _ _ Hp).
    destruct (oldest_notice c k) eqn:Hn; [done|]. destruct (oldest_request p) eqn:Hr; [done|]. intros _.
    exists p. split_and!; auto.
    + unfold pkey. rewrite Z2Nat.id by apply Hw. rewrite wrap_small, Hg by done. by destruct k.
    + intros r Hin. eapply oldest_request_None; eauto. apply (inv_port _ Hi _ _ Hp).
    + intros j conn Hc Hk. destruct (is_close_pending _) eqn:E; [|done]. exfalso.
      apply min_by_key_None in Hn. apply (elem_of_nil j). rewrite <- Hn. apply list_elem_of_filter.
      unfold pending_notice. rewrite (conn_at_lookup _ _ _ Hc), Hk, E, bool_decide_true by done.
      split; [done|]. apply elem_of_seq. apply lookup_lt_Some in Hc. lia.
  - intros (p & Hp & Hl & Hk & Hr & Hn). rewrite <- Hk at 1.
    rewrite (port_index_key _ _ _ Hi Hp Hl), (port_at_lookup _ _ _ Hp).
    destruct (oldest_notice c k) as [j|] eqn:E.
    { apply oldest_notice_Some in E as (conn & kind & reason & Hc & Hk' & Hs & _).
      specialize (Hn j conn Hc Hk'). by rewrite Hs in Hn. }
    destruct (oldest_request p) as [n|] eqn:E'; [|done].
    apply oldest_request_Some in E' as (r & Hin%list_elem_of_lookup_2 & Hlr & _).
    by rewrite Hr in Hlr.
Qed.

Lemma send_blocked_waits c raw tr :
  inv c → in_width 64 raw → send_blocked c raw tr = true →
  ∃ j i k, connection_port_key c raw = Ok k ∧ send_waits j raw i k tr c.
Proof.
  intros Hi Hw. unfold send_blocked, connection_port_key.
  destruct (connection_index c raw) as [j|] eqn:E; [|done].
  destruct (index_cid _ _ _ Hw E) as (conn & Hc & Hs & Hid). rewrite (conn_at_lookup _ _ _ Hc).
  destruct (cn_state conn) eqn:Ho; try done. cbn [result_map].
  destruct (attached_port _ _ _ Hi Hc) as (i & p & Hx & Hp & Hl & Hk & _); [by rewrite Ho|].
  rewrite Hx, (port_at_lookup _ _ _ Hp). intros Hf. exists j, i, (cn_port conn).
  rewrite (conn_at_lookup _ _ _ Hc). split; [done|]. exists conn, p. split_and!; auto.
Qed.

Lemma send_waits_blocked c j raw i k tr : inv c → send_waits j raw i k tr c → send_blocked c raw tr = true.
Proof.
  intros Hi (conn & p & Hc & <- & Ho & <- & Hp & Hl & Hk & Hf). unfold send_blocked.
  rewrite (cid_index _ _ _ Hi Hc) by (by rewrite Ho). rewrite (conn_at_lookup _ _ _ Hc), Ho.
  rewrite <- Hk, (port_index_key _ _ _ Hi Hp Hl), (port_at_lookup _ _ _ Hp). done.
Qed.

(** ** Blocking *)

Lemma capability_error_blocks err : capability_error err ≠ P_WouldBlock.
Proof. by destruct err. Qed.

Lemma map_err_blocks {A E} (f : E → PortError) (r : result E A) :
  (∀ err, f err ≠ P_WouldBlock) → map_err f r ≠ Err P_WouldBlock.
Proof. intros Hf E'. destruct r; simplify_eq/=. by eapply Hf. Qed.

Lemma validate_blocks t h tr : validate t h tr ≠ Err P_WouldBlock.
Proof.
  assert (∀ s, attestation_error s ≠ P_WouldBlock) by (intros s; unfold attestation_error; by repeat case_decide).
  unfold validate. repeat first
    [ case_decide; [done|]
    | match goal with |- context [map_err ?f ?r] =>
        let Hm := fresh in assert (Hm : map_err f r ≠ Err P_WouldBlock)
          by (apply map_err_blocks; auto using capability_error_blocks);
        destruct (map_err f r) as [?|?]; [|congruence]
      end
    | case_match; try done ]. done.
Qed.

Lemma install_child_blocks t s v : snd (install_child t s v) ≠ Err P_WouldBlock.
Proof.
  assert (∀ t, snd (install_validated t s v) ≠ Err P_WouldBlock) as H.
  { intros t'. unfold install_validated. destruct (Table.install _ _) as [t'' [h|err]]; [done|].
    cbn. intros [= E]. by eapply capability_error_blocks. }
  unfold install_child. by repeat case_match.
Qed.

(** C6: No lost wakeups. After any history, an operation that makes RECV_EVENT on a connection
    ready lists the wake of that connection; one that gives a waiting server a request or a
    notice, or takes its port away, lists the wake of the port's server; one that gives a
    waiting sender capacity, or closes its connection or port, lists the wake of the port's
    senders, under the key the sender waits on. *)
Theorem no_lost_wakeups P C N (ops : list (PortOp B)) op :
  sizes_ok P C = true → Forall op_typed ops → op_typed op →
  let c := fst (port_run (boot P C N) ops) in
  let w := port_op c (snd (port_run (boot P C N) ops)) op in
  (∀ raw, in_width 64 raw → event_ready c raw = false → event_ready (core w) raw = true →
     WakeConnection raw ∈ items (effects w)) ∧
  (∀ k, in_width 8 (pk_slot k) → recv_blocked c k = true → recv_blocked (core w) k = false →
     WakeServer k ∈ items (effects w)) ∧
  (∀ raw tr k, in_width 64 raw → connection_port_key c raw = Ok k →
     send_blocked c raw tr = true → send_blocked (core w) raw tr = false →
     WakeSendSpace k ∈ items (effects w)).
Proof.
  intros Hs Hops Ht c w. destruct (run_sizes P C N ops Hs Hops) as (Hi & H1 & H2). fold c in Hi, H1, H2.
  set (t := snd (port_run (boot P C N) ops)) in *.
  destruct (op_listed c t op Hi H1 H2 Ht) as (U & _ & [_ _ Hf]). fold w in Hf.
  pose proof (port_op_steps c t op Hi Ht) as Hst. fold w in Hst.
  pose proof (port_op_inv c t op Hi Ht) as Hi'. fold w in Hi'. split_and!.
  - intros raw Hw E E'. destruct (event_ready_false _ _ Hi Hw E) as [j HW].
    destruct (steps_wake _ (WakeConnection raw) _ _ _ (event_step j raw) Hst Hi Hf HW) as [HW'|]; [|done].
    apply event_waits_ready in HW'; [congruence|done].
  - intros k Hw E E'. apply (recv_blocked_waits _ _ Hi Hw) in E.
    destruct (steps_wake _ (WakeServer k) _ _ _ (recv_step_wakes _ k) Hst Hi Hf E) as [HW'|]; [|done].
    apply (recv_blocked_waits _ _ Hi' Hw) in HW'. congruence.
  - intros raw tr k Hw Hk E E'. destruct (send_blocked_waits _ _ _ Hi Hw E) as (j & i & k' & Hk' & HW).
    assert (k' = k) as -> by congruence.
    destruct (steps_wake _ (WakeSendSpace k) _ _ _ (send_step_wakes j raw i k tr) Hst Hi Hf HW) as [HW'|]; [|done].
    apply send_waits_blocked in HW'; [congruence|done].
Qed.

Lemma entry_free p :
  port_local p → pt_live p = true → Z.of_nat (queued_requests p) < request_depth (pt_params p) →
  is_Some (position (λ r, negb (rq_live r)) (pt_requests p)).
Proof.
  intros Hp Hl Hd. destruct (position _ _) eqn:E; [by eexists|]. exfalso.
  destruct (pl_params _ Hp Hl) as [Hv Ht]. destruct (params_bounds _ Hv Ht) as (_ & Hr & _).
  rewrite position_None in E. pose proof (count_if_zero _ _ E) as Hz.
  pose proof (count_if_split rq_live (λ _, true) (pt_requests p)) as Hsp.
  rewrite (count_if_ext _ rq_live), (count_if_ext (λ x, _ && true) (λ r, negb (rq_live r))), Hz in Hsp
    by (intros; by rewrite andb_true_r).
  assert (count_if (λ _ : Request, true) (pt_requests p) = PORT_MAX_REQUEST_QUEUE_DEPTH) as Hc.
  { rewrite <- (pl_len _ Hp). unfold count_if. by rewrite List.filter_true. }
  unfold queued_requests in Hd. rewrite Hc in Hsp. unfold PORT_MAX_REQUEST_QUEUE_DEPTH in Hsp. lia.
Qed.

Lemma client_connection_blocks c caller raw : client_connection c caller raw ≠ Err P_WouldBlock.
Proof.
  unfold client_connection, connection_index. destruct (is_process caller); [simpl|done].
  destruct (Id.decode raw) as [i|]; [simpl|done]. destruct (connections c !! _); [|done].
  repeat case_decide; done.
Qed.

Lemma authorize_serve_blocks c t caller serve : authorize_serve c t caller serve ≠ Err P_WouldBlock.
Proof.
  unfold authorize_serve. destruct (Handle.decode serve) as [h|]; [simpl|done].
  destruct (Table.record t h) as [rec|err]; [simpl|by destruct err].
  destruct (position _ _); [|by destruct (port_for _ _ _)]. destruct (_ || _); [done|].
  destruct (Table.authorize _ _ _ _ _) as [|err]; [done|by destruct err].
Qed.

Lemma send_would_block c t e caller raw frame tr w' :
  inv c → send caller raw frame tr (MkWorld c t e) = (w', Err P_WouldBlock) →
  send_blocked c raw (bool_decide (is_Some tr)) = true ∧ w' = MkWorld c t e.
Proof.
  intros Hi. unfold send, send_blocked. cbn [core].
  destruct (client_connection c caller raw) as [j|] eqn:Hcc.
  2: { pose proof (client_connection_blocks c caller raw). congruence. }
  rewrite (client_connection_index _ _ _ _ Hcc).
  apply client_connection_Ok in Hcc as (conn & Hc & _). rewrite (conn_at_lookup _ _ _ Hc).
  destruct (cn_state conn) eqn:Ho; try by intros [=].
  destruct (attached_port _ _ _ Hi Hc) as (i & p & Hx & Hp & Hl & Hk & _); [by rewrite Ho|].
  unfold connection_port. rewrite (conn_at_lookup _ _ _ Hc), Hx. cbn [ok_or].
  rewrite (reauthorize_client_cases _ _ _ _ _ _ _ Hp Hc).
  destruct (Table.authorize _ _ _ _ _) as [rec|er] eqn:Ha; [|by destruct er].
  cbn [core]. rewrite (conn_at_lookup _ _ _ Hc), (port_at_lookup _ _ _ Hp). unfold full.
  case_decide as Hmax; [intros [= <-]; by rewrite bool_decide_true|].
  destruct (bool_decide (is_Some tr) && _) eqn:Htr; [intros [= <-]; by rewrite orb_true_r|].
  destruct (entry_free p) as [n Hn]; [apply (inv_port _ Hi _ _ Hp)|done|lia|]. rewrite Hn. cbn [ok_or table].
  destruct tr as [tr|]; simpl; [|done]. pose proof (validate_blocks t (cl_holder caller) tr).
  destruct (validate t (cl_holder caller) tr) as [v|er]; simpl; [|congruence].
  pose proof (install_child_blocks t (pt_server p) v).
  destruct (install_child t (pt_server p) v) as [t' [cap|er]]; simpl in *; congruence.
Qed.

Lemma recv_would_block c t e caller serve w' :
  inv c → recv caller serve (MkWorld c t e) = (w', Err P_WouldBlock) →
  (∃ k, serve_port_key c t caller serve = Ok k ∧ recv_blocked c k = true) ∧ w' = MkWorld c t e.
Proof.
  intros Hi. unfold recv, serve_port_key. cbn [core table].
  destruct (authorize_serve c t caller serve) as [i|] eqn:Ha.
  2: { pose proof (authorize_serve_blocks c t caller serve). congruence. }
  apply authorize_serve_Ok in Ha as (p & _ & Hp & Hl & _).
  rewrite (key_lookup _ _ _ Hp), (port_at_lookup _ _ _ Hp). cbn [result_map].
  destruct (oldest_notice c (pkey i p)) as [j|] eqn:Hn; [by intros [=]|].
  destruct (oldest_request p) as [n|] eqn:Hr; cbn [ok_or]; [by intros [=]|]. intros [= <-].
  split; [|done]. eexists. rewrite (key_lookup _ _ _ Hp). split; [done|]. unfold recv_blocked.
  by rewrite (port_index_key _ _ _ Hi Hp Hl), Hn, (port_at_lookup _ _ _ Hp), Hr.
Qed.

Lemma recv_event_would_block c t e caller raw w' :
  inv c → recv_event caller raw (MkWorld c t e) = (w', Err P_WouldBlock) →
  event_ready c raw = false ∧ w' = MkWorld c t e.
Proof.
  intros Hi. unfold recv_event, event_ready. cbn [core].
  destruct (client_connection c caller raw) as [j|] eqn:Hcc.
  2: { pose proof (client_connection_blocks c caller raw). congruence. }
  rewrite (client_connection_index _ _ _ _ Hcc).
  apply client_connection_Ok in Hcc as (conn & Hc & _). rewrite (conn_at_lookup _ _ _ Hc).
  unfold pop_event. destruct (cn_state conn) eqn:Ho; try by intros [=].
  2: { case_decide; by intros [=]. }
  case_decide as He; [|by intros [=]].
  destruct (attached_port _ _ _ Hi Hc) as (i & p & Hx & Hp & Hl & Hk & _); [by rewrite Ho|].
  unfold connection_port. rewrite (conn_at_lookup _ _ _ Hc), Hx. cbn [ok_or].
  rewrite (reauthorize_client_cases _ _ _ _ _ _ _ Hp Hc).
  destruct (Table.authorize _ _ _ _ _) as [rec|er] eqn:Ha; [|by destruct er].
  intros [= <-]. by rewrite He, !bool_decide_true.
Qed.
(** An operation blocks only on one of the three waits, and then has changed nothing. After
    any history, RECV_EVENT answers [WouldBlock] only if the connection is not [event_ready];
    RECV only if the port of the serve capability has no notice and no request; SEND only if the
    connection is open and a capacity limit is reached. *)
Theorem blocked_means_waiting P C N (ops : list (PortOp B)) caller :
  sizes_ok P C = true → Forall op_typed ops →
  let c := fst (port_run (boot P C N) ops) in
  let t := snd (port_run (boot P C N) ops) in
  let w := MkWorld c t effects_new in
  (∀ raw w', recv_event caller raw w = (w', Err P_WouldBlock) → event_ready c raw = false ∧ w' = w) ∧
  (∀ serve w', recv caller serve w = (w', Err P_WouldBlock) →
     (∃ k, serve_port_key c t caller serve = Ok k ∧ recv_blocked c k = true) ∧ w' = w) ∧
  (∀ raw frame tr w', send caller raw frame tr w = (w', Err P_WouldBlock) →
     send_blocked c raw (bool_decide (is_Some tr)) = true ∧ w' = w).
Proof.
  intros Hs Hops c t w. destruct (run_sizes P C N ops Hs Hops) as (Hi & _). fold c in Hi.
  split_and!; intros; eauto using recv_event_would_block, recv_would_block, send_would_block.
Qed.
End wakeups.

(** In the session, the client waits for a second event once it took the first, the server for
    a second request. *)
Lemma blocked_means_waiting_witness :
  let ops := Session.ops ++ [PoRecvEvent Session.cli Session.conn; PoRecv Session.srv Session.serve] in
  let c := fst (port_run (boot 4 16 16) ops) in
  let t := snd (port_run (boot 4 16 16) ops) in
  event_ready c Session.conn = false ∧
  ∃ k, serve_port_key c t Session.srv Session.serve = Ok k ∧ recv_blocked c k = true.
Proof.
  intros ops c t.
  assert (Forall op_typed ops) as Ho.
  { apply (bool_decide_unpack (Forall op_typed ops)). vm_compute. exact I. }
  split.
  - apply (proj1 (blocked_means_waiting 4 16 16 ops Session.cli eq_refl Ho) Session.conn
      (fst (recv_event Session.cli Session.conn (MkWorld c t effects_new)))).
    vm_compute. reflexivity.
  - apply (proj1 (proj2 (blocked_means_waiting 4 16 16 ops Session.srv eq_refl Ho)) Session.serve
      (fst (recv Session.srv Session.serve (MkWorld c t effects_new)))).
    vm_compute. reflexivity.
Defined.

(** A POST to the waiting client wakes it; a SEND wakes the waiting server. *)
Lemma no_lost_wakeups_witness :
  let ops := Session.ops ++ [PoRecvEvent Session.cli Session.conn; PoRecv Session.srv Session.serve] in
  let c := fst (port_run (boot 4 16 16) ops) in
  let t := snd (port_run (boot 4 16 16) ops) in
  WakeConnection Session.conn ∈
    items (effects (port_op c t (PoPost Session.srv Session.serve Session.conn (Session.frame 4)))) ∧
  WakeServer (MkKey 0 1) ∈
    items (effects (port_op c t (PoSend Session.cli Session.conn (Session.frame 5) None))).
Proof.
  intros ops c t.
  assert (Forall op_typed ops) as Ho.
  { apply (bool_decide_unpack (Forall op_typed ops)). vm_compute. exact I. }
  split.
  - apply (proj1 (no_lost_wakeups 4 16 16 ops
      (PoPost Session.srv Session.serve Session.conn (Session.frame 4)) eq_refl Ho I) Session.conn);
      vm_compute; by split.
  - apply (proj1 (proj2 (no_lost_wakeups 4 16 16 ops
      (PoSend Session.cli Session.conn (Session.frame 5) None) eq_refl Ho I)) (MkKey 0 1));
      vm_compute; by split.
Defined.
