(* ===== verification/PortAuthority.v ===== *)
(** Authority over ports: the engine and the capability table together.

    A SEND may carry a capability ([port/src/transfer.rs]): the engine installs a read-only
    child for the server, queues its handle, and takes the child back when the request is
    dropped before it is received ([port/src/engine.rs]). *)

From Stdlib Require Import ZArith Lia.
From stdpp Require Import base list tactics decidable numbers strings relations.
From S2P Require Import Prelude Bytes CapTypes CapTable CapTree CapSafety NativeAbi.
From S2P Require Import PortEngine PortInv PortTransfer PortOps PortSafety.
Import Core.

Local Open Scope Z_scope.

Section authority.
Context {B : Type} `{EqDecision B}.
Implicit Types (c : PortCore B) (w : World B) (p : Port B) (conn : Connection) (r : Request)
  (t : CapabilityTable) (child : TransferredCap).

(** * Queued children *)

Definition queued c r : Prop :=
  ∃ i p, ports c !! i = Some p ∧ r ∈ pt_requests p ∧ rq_live r = true.

(** While it lives, the child is read-only. *)
Definition plain t child : Prop :=
  ∀ h, Handle.decode (tc_handle child) = Ok h → names_live t h →
    rights (Table.record_at t (slot_of h)) = TRANSFER_CHILD_RIGHTS.

(** The engine, the table, and the table's view of the children in the queues. *)
Record joined w : Prop := {
  jn_inv : inv (core w);
  jn_wf : table_wf (table w);
  jn_addressable : addressable (table w);
  jn_children : ∀ r child, queued (core w) r → rq_transfer r = Some child →
    issued (table w) child ∧ plain (table w) child;
}.

Lemma plain_steps t t' child : slot_steps t t' → issued t child → plain t child → plain t' child.
Proof.
  intros Hs (h & Hd & Hc & Hg) Hp h' Hd' [Hl Hg']. assert (h' = h) as -> by congruence.
  destruct (slot_steps_evolve _ _ (slot_of h) Hs) as [He|[He|[He Hr]]].
  - rewrite He in *. by apply Hp.
  - lia.
  - rewrite Hl in Hr. destruct (state (Table.record_at t (slot_of h))); simpl in Hr; lia.
Qed.

Lemma install_child_steps t server v : slot_steps t (fst (install_child t server v)).
Proof.
  assert (∀ t, slot_steps t (fst (install_validated t server v))) as H.
  { intros u. unfold install_validated. rewrite install_as_grant. simpl.
    pose proof (grant_steps u server (resource (vt_parent v)) TRANSFER_CHILD_RIGHTS (vt_provenance v)) as Hg.
    by destruct (Table.grant _ _ _ _ _) as [? []]. }
  unfold install_child. destruct (has_installable_slot t); [done|].
  destruct (has_installable_slot _); simpl; [|apply release_revoked_steps].
  etrans; [apply release_revoked_steps|done].
Qed.

(** The installed child, in full. *)
Lemma install_granted t sender tr v server cap t' :
  table_wf t → addressable t → validate t sender tr = Ok v → install_child t server v = (t', Ok cap) →
  ∃ h, Handle.decode (tc_handle cap) = Ok h ∧
    Table.record_at t' (slot_of h) =
      MkRecord Live server (resource (vt_parent v)) TRANSFER_CHILD_RIGHTS (vt_provenance v) (h_generation h) ∧
    (∀ j, state (Table.record_at t j) = Live → j ≠ slot_of h ∧ Table.record_at t' j = Table.record_at t j) ∧
    (∀ j, j ≠ slot_of h → state (Table.record_at t' j) = Live → Table.record_at t' j = Table.record_at t j).
Proof.
  intros Hwf Ha Hv Hin. pose proof (validate_Ok _ _ _ _ Hv) as (Hpar & _ & _ & _ & Hcls & _).
  rewrite <- Hpar in Hcls.
  apply install_child_cases in Hin as [(_ & _ & ?)|(h & Hg & [= ->])]; [done| |done..].
  assert (slot_steps t (reclaimed t)) as Hs by apply reclaimed_steps.
  apply granted_child in Hg as (Hc & Hi & Hr & Hl & Hb & Hd);
    [|by eapply slot_steps_wf|unfold addressable; by rewrite (slot_steps_capacity _ _ Hs)].
  exists h. split_and!; auto.
  - intros j Hj. destruct (reclaimed_live t j) as [H1 H2]. rewrite <- (H2 Hj). apply Hl. by apply H1.
  - intros j Hj Hlj. pose proof (Hb j Hj Hlj) as Hlr. destruct (reclaimed_live t j) as [H1 H2].
    rewrite <- H2 by (by apply H1). by apply Hl.
Qed.

Lemma act_table a w w' : act_step a w w' → slot_steps (table w) (table w').
Proof.
  destruct 1; cbn [table]; auto with cs.
  - match goal with H : shut_step _ _ |- _ => destruct H end; cbn [table]; auto with cs;
      subst rel; apply release_children_spec.
  - match goal with H : child_installed _ _ ?x _ |- _ => destruct x; [|rewrite H; auto with cs] end.
    match goal with H : child_installed _ _ _ _ |- _ => destruct H as (? & ? & v & _ & Hin) end.
    pose proof (install_child_steps t (pt_server p) v) as Hs. by rewrite Hin in Hs.
  - pose proof (install_child_steps t server v) as Hs.
    match goal with H : install_child _ _ _ = _ |- _ => by rewrite H in Hs end.
  - apply run_op_steps.
Qed.

(** ** What a step does to the queues *)

Lemma queued_insert c i p p' cs r :
  ports c !! i = Some p → queued (MkCore (<[i := p']> (ports c)) cs) r →
  (rq_live r = true ∧ r ∈ pt_requests p') ∨ queued c r.
Proof.
  intros Hp (i0 & p0 & [(<- & <- & _)|[_ H0]]%list_lookup_insert_Some & Hr & Hl); [by left|].
  right. by exists i0, p0.
Qed.

Lemma queued_purged k (rs : list Request) r : r ∈ purged k <$> rs → rq_live r = true → r ∈ rs ∧ mine k r = false.
Proof.
  intros (r0 & -> & Hr)%list_elem_of_fmap. unfold purged. by destruct (mine k r0) eqn:E.
Qed.

Lemma written_elem (rs : list Request) n r r' : r ∈ <[n := r']> rs → r = r' ∨ r ∈ rs.
Proof.
  intros [k Hk]%list_elem_of_lookup. apply list_lookup_insert_Some in Hk as [(_ & <- & _)|[_ Hk]]; [by left|].
  right. by eapply list_elem_of_lookup_2.
Qed.

(** A request enters a queue only with its child installed. *)
Lemma act_arrives a w w' r :
  act_step a w w' → queued (core w') r →
  queued (core w) r ∨ ∃ server, child_installed (table w) server (rq_transfer r) (table w').
Proof.
  destruct 1; cbn [core table]; try (by left).
  - match goal with H : shut_step _ _ |- _ => destruct H end; cbn [core]; try (by left).
    + intros [[Hl Hr]|Hq]%(queued_insert c i p); [|by left|done]. left. exists i, p.
      split_and!; auto. by destruct (queued_purged _ _ _ Hr Hl).
    + intros [[Hl Hr]|Hq]%(queued_insert c i p); [|by left|done].
      apply elem_of_replicate in Hr as [-> _]. done.
  - intros [[Hl Hr]|Hq]%(queued_insert c i p); [|by left|done]. left. by exists i, p.
  - intros [[Hl Hr]|Hq]%(queued_insert c i p); [|by left|done].
    cbn [pt_requests set_queue] in Hr. apply written_elem in Hr as [->|Hr]; [by right; eauto|].
    left. by exists i, p.
  - intros [[Hl Hr]|Hq]%(queued_insert c i p); [|by left|done].
    cbn [pt_requests set_queue] in Hr. apply written_elem in Hr as [->|Hr]; [done|].
    left. by exists i, p.
  - intros [[Hl Hr]|Hq]%(queued_insert c i p); [|by left|done]. left. by exists i, p.
  - intros [[Hl Hr]|Hq]%(queued_insert c i p); [|by left|done]. left. by exists i, p.
Qed.

Lemma act_joined a w w' : act_step a w w' → joined w → joined w'.
Proof.
  intros Hst [Hi Hwf Ha Hch]. pose proof (act_table _ _ _ Hst) as Hs. constructor.
  - eapply world_step_inv; [by eapply act_world|done].
  - by eapply slot_steps_wf.
  - unfold addressable. by rewrite (slot_steps_capacity _ _ Hs).
  - intros r child [Hq|[server Hin]]%(act_arrives _ _ _ _ Hst) Hr.
    + destruct (Hch r child Hq Hr). split; [by eapply issued_steps|by eapply plain_steps].
    + rewrite Hr in Hin. destruct Hin as (sender & tr & v & Hv & Hin).
      destruct (install_granted _ _ _ _ _ _ _ Hwf Ha Hv Hin) as (h & Hd & Hrec & _). split.
      * exists h. rewrite Hrec. split_and!; [done| |done]. apply record_at_nonempty. by rewrite Hrec.
      * intros h' Hd' _. assert (h' = h) as -> by congruence. by rewrite Hrec.
Qed.

Lemma queued_where c i p r :
  ports c !! i = Some p → queued c r →
  (r ∈ pt_requests p ∧ rq_live r = true) ∨
  ∀ p' cs, queued (MkCore (<[i := p']> (ports c)) cs) r.
Proof.
  intros Hp (i0 & p0 & Hp0 & Hr & Hl). destruct (decide (i0 = i)) as [->|Hne].
  - left. by assert (p0 = p) as -> by congruence.
  - right. intros p' cs. exists i0, p0. cbn [ports]. by rewrite list_lookup_insert_ne.
Qed.

Lemma queued_here c i p p' cs r :
  ports c !! i = Some p → rq_live r = true → r ∈ pt_requests p' →
  queued (MkCore (<[i := p']> (ports c)) cs) r.
Proof.
  intros Hp Hl Hr. exists i, p'. cbn [ports].
  by rewrite list_lookup_insert_eq by (by eapply lookup_lt_Some).
Qed.

Lemma queued_split c i p p' cs r :
  ports c !! i = Some p → queued c r →
  (r ∈ pt_requests p → rq_live r = true → r ∈ pt_requests p') →
  queued (MkCore (<[i := p']> (ports c)) cs) r.
Proof.
  intros Hp Hq Hk. destruct (queued_where _ _ _ _ Hp Hq) as [[Hr Hl]|]; [|done].
  by eapply queued_here; auto.
Qed.

Lemma elem_of_children (q : Request → bool) (rs : list Request) r child :
  r ∈ rs → q r = true → rq_transfer r = Some child → child ∈ children q rs.
Proof.
  intros Hr Hq Ht. apply list_elem_of_omap. exists r. split; [|done].
  by apply list_elem_of_In, List.filter_In; split; [apply list_elem_of_In|].
Qed.

(** A request leaves a queue only delivered, or with its child dead. *)
Lemma act_leaves a w w' r :
  act_step a w w' → joined w → queued (core w) r →
  queued (core w') r ∨ a = Deliver r ∨
  ∀ child, rq_transfer r = Some child → child_dead (table w') child.
Proof.
  intros Hst [Hi _ _ Hch] Hq. pose proof (λ child, Hch r child Hq) as Hc.
  destruct Hst; cbn [core table] in *; try (by left).
  - match goal with H : shut_step _ _ |- _ => destruct H end; cbn [core table] in *; try (by left); subst rel.
    + destruct (queued_where c i p r) as [[Hr Hl]|]; [done..| |by left].
      destruct (mine (cid j conn) r) eqn:E.
      * right; right. intros child Hx. eapply release_children_spec; [|by apply Hc].
        by eapply elem_of_children.
      * left. eapply queued_here; [done..|]. cbn. apply list_elem_of_fmap. exists r. by rewrite purged_other.
    + destruct (queued_where c i p r) as [[Hr Hl]|]; [done..| |by left]. right; right.
      intros child Hx. eapply release_children_spec; [|by apply Hc]. by eapply elem_of_children.
  - left. eapply queued_split; [done..|]. intros Hr Hl. exfalso.
    rewrite (dead_port_empty c i p r) in Hl; done.
  - left. eapply queued_split; [done..|]. intros [k Hk]%list_elem_of_lookup Hl. cbn.
    apply list_elem_of_lookup. exists k. rewrite list_lookup_insert_ne; [done|]. intros <-. congruence.
  - destruct (queued_where c i p r) as [[[k Hk]%list_elem_of_lookup Hl]|]; [done..| |by left].
    destruct (decide (k = n)) as [->|Hne]; [right; left; by simplify_eq|].
    left. eapply queued_here; [done..|]. apply list_elem_of_lookup. exists k. cbn.
    by rewrite list_lookup_insert_ne.
  - left. by eapply queued_split.
  - left. by eapply queued_split.
Qed.

(** ** Runs *)

Lemma steps_joined n w w' : bsteps world_step n w w' → joined w → joined w'.
Proof. induction 1 as [|n w1 w2 w3 [a H12] _ IH]; eauto using act_joined. Qed.

Lemma joined_effects w c t e : core w = c → table w = t → joined w → joined (MkWorld c t e).
Proof. intros <- <- [H1 H2 H3 H4]. by constructor. Qed.

Lemma boot_joined P C N e :
  sizes_ok P C = true → Z.of_nat N ≤ 65536 →
  joined (MkWorld (fst (boot (B := B) P C N)) (snd (boot (B := B) P C N)) e).
Proof.
  intros Hs HN. constructor; cbn [core table fst snd boot].
  - by apply (boot_inv P C N).
  - apply table_wf_new.
  - by apply addressable_new.
  - intros r child (i & p & [-> _]%lookup_replicate & Hr & Hl) _.
    apply elem_of_replicate in Hr as [-> _]. done.
Qed.

Lemma port_op_joined c t op e :
  op_typed op → joined (MkWorld c t e) →
  joined (port_op c t op).
Proof.
  intros Ht Hj. eapply steps_joined; [apply port_op_steps; [apply Hj|done]|].
  by eapply joined_effects; [..|exact Hj].
Qed.

Lemma run_joined P C N ops :
  sizes_ok P C = true → Z.of_nat N ≤ 65536 → Forall op_typed ops →
  joined (MkWorld (fst (port_run (boot P C N) ops)) (snd (port_run (boot P C N) ops)) effects_new).
Proof.
  intros Hs HN Hops. apply (port_run_ind (λ c t, joined (MkWorld c t effects_new))); auto using boot_joined.
  intros c t op Hj Ht. eapply joined_effects; [done..|]. by eapply port_op_joined.
Qed.

(** The table of a run evolves by the slot life cycle. *)
Lemma port_op_table c t op :
  inv c → op_typed op → slot_steps t (table (port_op c t op)).
Proof.
  intros Hi Ht. change t with (table (MkWorld c t (effects_new (B := B)))) at 1.
  pose proof (port_op_steps c t op Hi Ht) as H. revert H. generalize (port_op c t op).
  generalize (MkWorld c t (effects_new (B := B))). intros w w' H.
  induction H as [|n w1 w2 w3 [a H12] _ IH]; [auto with cs|]. etrans; [by eapply act_table|done].
Qed.

Lemma port_run_table c t ops :
  inv c → Forall op_typed ops → slot_steps t (snd (port_run (c, t) ops)).
Proof.
  intros Hi Hops. cut (inv (fst (port_run (c, t) ops)) ∧ slot_steps t (snd (port_run (c, t) ops))); [tauto|].
  apply (port_run_ind (λ c' t', inv c' ∧ slot_steps t t')); [split; [done|auto with cs]|done|].
  intros c' t' op [Hi' Hs] Ht. split; [by apply port_op_inv|]. etrans; [exact Hs|by apply port_op_table].
Qed.

Lemma shut_leaves n w w' r :
  bsteps shut_step n w w' → joined w → queued (core w) r →
  queued (core w') r ∨ ∀ child, rq_transfer r = Some child → child_dead (table w') child.
Proof.
  induction 1 as [|n w1 w2 w3 H12 H23 IH]; [by left|]. intros Hj Hq.
  pose proof (ws_shut _ _ H12) as Hst.
  destruct (act_leaves _ _ _ r Hst Hj Hq) as [Hq2|[|Hd]]; [|done|].
  - apply IH; [by eapply act_joined|done].
  - right. intros child Hc. eapply child_dead_steps; [|by apply Hd].
    clear -H23. induction H23 as [|n w1 w2 w3 H12 _ IH]; [auto with cs|].
    etrans; [by eapply act_table, ws_shut|done].
Qed.

Lemma op_leaves c t op r :
  joined (MkWorld c t effects_new) → op_typed op → queued c r →
  queued (core (port_op c t op)) r ∨
  (∃ caller serve, op = PoRecv caller serve ∧
     snd (recv caller serve (MkWorld c t effects_new)) = Ok (request_record r)) ∨
  ∀ child, rq_transfer r = Some child → child_dead (table (port_op c t op)) child.
Proof.
  intros Hj Ht Hq. pose proof (port_op_acts c t op (jn_inv _ Hj) Ht) as Hs.
  assert (∀ w', bsteps (act_step Quiet) 1 (MkWorld c t effects_new) w' →
    queued (core w') r ∨ ∀ child, rq_transfer r = Some child → child_dead (table w') child) as Hquiet.
  { intros w' H. inversion H as [|n w1 w2 w3 H12 H23]; subst; [by left|]. inversion H23; subst.
    destruct (act_leaves _ _ _ r H12 Hj Hq) as [?|[?|?]]; [by left|done|by right]. }
  destruct op; cbv zeta in Hs; try (destruct (Hquiet _ Hs); by auto).
  - destruct Hs as [Hs|(r' & Hs & Hr)]; [destruct (Hquiet _ Hs); by auto|].
    destruct (act_leaves _ _ _ r Hs Hj Hq) as [?|[[= ->]|?]]; [by left| |by auto].
    right; left. eauto.
  - destruct (shut_leaves _ _ _ r Hs Hj Hq); by auto.
  - destruct (act_leaves _ _ _ r Hs Hj Hq) as [?|[?|?]]; by auto.
Qed.

(** C5: Undelivered capabilities die with their request. After any history, whatever operation
    runs, a queued request that carries a capability is still queued, or it is the one RECV
    returned, or the capability's handle never authorizes anything again, whatever runs later:
    closing, disconnecting, revoking, unregistering and exiting leak nothing to the server. *)
Theorem undelivered_children_die P C N ops op r child later a res req :
  sizes_ok P C = true → Z.of_nat N ≤ 65536 → Forall op_typed ops → op_typed op →
  Forall op_typed later →
  let c := fst (port_run (boot P C N) ops) in
  let t := snd (port_run (boot P C N) ops) in
  let w := port_op c t op in
  queued c r → rq_transfer r = Some child →
  queued (core w) r ∨
  (∃ caller serve, op = PoRecv caller serve ∧
     snd (recv caller serve (MkWorld c t effects_new)) = Ok (request_record r)) ∨
  ∃ h, Handle.decode (tc_handle child) = Ok h ∧
    is_ok (Table.authorize (snd (port_run (core w, table w) later)) a h res req) = false.
Proof.
  intros Hs HN Hops Ht Hlater c t w Hq Hr. pose proof (run_joined P C N ops Hs HN Hops) as Hj.
  fold c t in Hj. destruct (op_leaves c t op r Hj Ht Hq) as [?|[?|Hd]]; [by auto..|].
  right; right. destruct (Hd child Hr) as (h & Hh & Hsp). exists h. split; [done|].
  assert (slot_steps (table w) (snd (port_run (core w, table w) later))) as Hst.
  { apply port_run_table; [|done]. by eapply jn_inv, port_op_joined. }
  pose proof (spent_steps _ _ _ Hst Hsp) as Hsp'.
  destruct (Table.authorize _ _ _ _ _) eqn:E; [|done]. by apply spent_no_authorize in E.
Qed.

(** * Delegation trees through ports *)

Lemma released_forest t t' (l : list TransferredCap) :
  strict_forest t →
  (∀ i, state (Table.record_at t' i) = Live → Table.record_at t' i = Table.record_at t i) →
  (∀ i, state (Table.record_at t i) = Live → Table.record_at t' i = Table.record_at t i ∨
     ∃ child, child ∈ l ∧ names t child i) →
  (∀ child, child ∈ l → plain t child) → strict_forest t'.
Proof.
  intros Hf Hl Hk Hp. eapply forest_ext; [exact Hf|done|]. intros i ph Hi Hph.
  pose proof (Hl i Hi) as E0. rewrite E0 in Hi, Hph. destruct (forest_parent_live _ _ _ _ Hf Hi Hph) as [Hpl _].
  destruct (Hk _ Hpl) as [->|(child & Hc & h & Hd & Hn & E)]; [done|exfalso].
  pose proof (forest_link _ _ _ Hf Hi) as Hlink. rewrite Hph in Hlink. cbn in Hlink.
  destruct Hlink as [_ [Hdel _]]. rewrite E, (Hp child Hc h Hd Hn) in Hdel.
  by apply is_subset_of_true in Hdel.
Qed.

Lemma installed_forest t server (child : option TransferredCap) t' :
  table_wf t → addressable t → strict_forest t → child_installed t server child t' → strict_forest t'.
Proof.
  intros Hwf Ha Hf Hin. destruct child as [cap|]; [|by rewrite Hin].
  destruct Hin as (sender & tr & v & Hv & Hin).
  destruct (install_granted _ _ _ _ _ _ _ Hwf Ha Hv Hin) as (h & _ & Hrec & Hkeep & Hold).
  apply validate_Ok in Hv as (Hpar & Hpl & Hpg & _ & Hcls & Hdel & Hrd & _ & _ & Hprov & Hdep).
  destruct (forest_link _ _ _ Hf Hpl) as [[Hb _] _].
  assert (∀ cap, linked strict_link t cap → linked strict_link t' cap) as Htr.
  { intros cap'. unfold linked. destruct (parent _) as [ph|]; [|done].
    intros (H1 & H2 & H3). by rewrite (proj2 (Hkeep _ H1)). }
  intros i Hi. destruct (decide (i = slot_of h)) as [->|Hne].
  - rewrite Hrec, Hprov, Hpar. apply Htr. unfold linked. cbn.
    split_and!; [done..|]. unfold strict_link, link. cbn. rewrite Hcls. split_and!; auto; lia.
  - rewrite (Hold i Hne Hi). apply Htr, Hf. by rewrite <- Hold.
Qed.

Lemma children_forest c t (e e' : Effects B) i p q :
  joined (MkWorld c t e') → ports c !! i = Some p → (∀ r, q r = true → rq_live r = true) →
  strict_forest t → strict_forest (fst (release_children t e (children q (pt_requests p)))).
Proof.
  intros [_ _ _ Hch] Hp Hq Hf.
  destruct (release_children_spec t e (children q (pt_requests p))) as (_ & Hl & Hk & _).
  eapply released_forest; [exact Hf|exact Hl|exact Hk|].
  intros child (r & Hr & Hx)%list_elem_of_omap. apply list_elem_of_In, List.filter_In in Hr as [Hr Hqr].
  apply list_elem_of_In in Hr. apply (Hch r); [|done]. exists i, p. auto.
Qed.

Lemma quiet_forest w w' :
  act_step Quiet w w' → joined w → strict_forest (table w) → strict_forest (table w').
Proof.
  intros Hst Hj Hf. pose proof Hj as [_ Hwf Ha _]. inversion Hst; subst; cbn [core table] in *; try done.
  - match goal with H : shut_step _ _ |- _ => destruct H end; cbn [core table] in *; try done; subst rel.
    + eapply children_forest; [done..| |done]. by intros r [? _]%andb_true_iff.
    + by eapply children_forest.
  - by eapply installed_forest.
  - match goal with H : validate _ _ _ = _ |- _ => apply validate_Ok in H as (Hpar & _ & _ & _ & Hcls & _) end.
    rewrite <- Hpar in Hcls. match goal with H : install_child _ _ _ = _ |- _ =>
      apply install_child_cases in H as [(-> & _)|(h & _ & ?)]; [|done..] end.
    apply (forest_same_live _ t); [done|..]; intros i; apply reclaimed_live.
Qed.

(** The operations that keep delegation trees: the engine's, and those of the table that do. *)
Definition keeps_trees (op : PortOp B) : Prop :=
  match op with PoCap cap => tree_op cap ∧ no_fork cap = true | _ => True end.

#[global] Instance keeps_trees_dec op : Decision (keeps_trees op).
Proof. destruct op; simpl; apply _. Defined.

Lemma deliver_table r w w' : act_step (Deliver r) w w' → table w' = table w.
Proof. by inversion 1. Qed.

Lemma shuts_forest n w w' :
  bsteps shut_step n w w' → joined w → strict_forest (table w) → strict_forest (table w').
Proof.
  induction 1 as [|n w1 w2 w3 H12 _ IH]; [done|]. intros Hj Hf. pose proof (ws_shut _ _ H12) as Hst.
  apply IH; [by eapply act_joined|by eapply quiet_forest].
Qed.

Lemma port_op_forest c t op :
  joined (MkWorld c t effects_new) → op_typed op → keeps_trees op →
  strict_forest t → strict_forest (table (port_op c t op)).
Proof.
  intros Hj Ht Hk Hf. pose proof (port_op_acts c t op (jn_inv _ Hj) Ht) as Hs.
  assert (∀ w', bsteps (act_step Quiet) 1 (MkWorld c t effects_new) w' → strict_forest (table w')) as Hq.
  { intros w' H. inversion H as [|n w1 w2 w3 H12 H23]; subst; [done|]. inversion H23; subst.
    by eapply quiet_forest. }
  destruct op; cbv zeta in Hs; try (by apply Hq).
  - destruct Hs as [Hs|(r & Hs & _)]; [by apply Hq|]. by rewrite (deliver_table _ _ _ Hs).
  - by eapply shuts_forest.
  - destruct Hk as [H1 H2]. destruct Hj as [_ Hwf Ha _].
    apply (run_tree_op_forest strict_link); auto. by intros r p [? _].
Qed.

(** C3: Confinement across ports. In a system built by grants of roots, delegations, tree
    revocations, and any use of ports (transfers, deliveries, closes, teardowns, exits), every
    successful [authorize] is backed by a live root grant of the same resource that holds
    every right required: a transfer never amplifies authority, and taking back an undelivered
    child never orphans another capability. *)
Theorem port_authority_confined P C N ops a h res req (r : CapabilityRecord) :
  sizes_ok P C = true → Z.of_nat N ≤ 65536 → Forall op_typed ops → Forall keeps_trees ops →
  let t := snd (port_run (boot (B := B) P C N) ops) in
  Table.authorize t a h res req = Ok r →
  ∃ root, descendant t root (slot_of h) ∧ state (Table.record_at t root) = Live ∧
    parent (provenance (Table.record_at t root)) = None ∧ resource (Table.record_at t root) = res ∧
    req ⊑r rights (Table.record_at t root) ∧
    holder (Table.record_at t root) = root_holder (provenance r).
Proof.
  intros Hs HN Hops Hk t Ha. apply table_authorize_Ok in Ha as (-> & _ & Hl & _ & _ & <- & Hreq).
  assert (joined (MkWorld (fst (port_run (boot P C N) ops)) t effects_new) ∧ strict_forest t) as [_ Hsf].
  { apply (port_run_ind_where (λ c t, joined (MkWorld c t effects_new) ∧ strict_forest t)
      (λ op, op_typed op ∧ keeps_trees op)).
    - split; [by apply boot_joined|apply forest_new].
    - by apply Forall_and.
    - intros c t' op [Hj Hf] [Ht Hk']. split; [|by apply port_op_forest].
      eapply joined_effects; [done..|]. by eapply port_op_joined. }
  apply strict_forest_forest in Hsf. destruct (forest_link _ _ _ Hsf Hl) as [Hb _].
  destruct (chain_to_root t 4 (slot_of h) Hsf Hl) as (root & H1 & H2 & H3 & H4 & H5 & H6).
  { unfold MAX_DELEGATION_DEPTH in Hb. lia. }
  exists root. split_and!; auto. by etrans.
Qed.

(** * SEND and RECV *)

(** What a SEND with a capability hands over. If it succeeds, the offered capability was
    live, held by the caller, delegable, on a shared buffer the attestation named; the server of
    the connection's port gets one new read-only capability on the same buffer, one level
    below; every live capability is as it was; and the queue of the port holds a request with
    the new handle. *)
Theorem transfer_attenuates P C N ops caller raw frame tr w' :
  sizes_ok P C = true → Z.of_nat N ≤ 65536 → Forall op_typed ops →
  let c := fst (port_run (boot P C N) ops) in
  let t := snd (port_run (boot P C N) ops) in
  send caller raw frame (Some tr) (MkWorld c t effects_new) = (w', Ok ()) →
  let par := Table.record_at t (slot_of (tr_handle tr)) in
  state par = Live ∧ generation par = h_generation (tr_handle tr) ∧ holder par = cl_holder caller ∧
  class (resource par) = SharedBuffer ∧ RightsOps.DELEGATE ⊑r rights par ∧
  (∃ len, tr_attestation tr = Ok (id (resource par), len)) ∧
  ∃ i p r child h,
    ports c !! i = Some p ∧ pt_live p = true ∧
    queued (core w') r ∧ rq_transfer r = Some child ∧ Handle.decode (tc_handle child) = Ok h ∧
    Table.record_at (table w') (slot_of h) =
      MkRecord Live (pt_server p) (resource par) RightsOps.READ
        (MkProvenance (Some (tr_handle tr)) (depth (provenance par) + 1) (root_holder (provenance par)))
        (h_generation h) ∧
    (∀ j, state (Table.record_at t j) = Live → Table.record_at (table w') j = Table.record_at t j) ∧
    (∀ j, j ≠ slot_of h → state (Table.record_at (table w') j) = Live → state (Table.record_at t j) = Live).
Proof.
  intros Hs HN Hops c t E par. pose proof (run_joined P C N ops Hs HN Hops) as Hj. fold c t in Hj.
  destruct Hj as [Hi Hwf Ha _]. cbn [core table] in *.
  apply send_cases in E as [(err & ? & _)|[(j & conn & _ & ? & _)|[(v & t' & i & p & err & tr' & _ & _ & _ & _ & ? & _)|
     (i & p & j & conn & n & r0 & child & t' & rec & Hso & _ & ->)]]]; [done..| |done].
  destruct Hso as [Hp Hl Hc Ho Hk _ _ _ _ Hn Hd (_ & _ & v & cap & Hv & Hin & ->)].
  pose proof (validate_Ok _ _ _ _ Hv) as (Hpar & Hpl & Hpg & Hph & Hcls & Hdel & _ & Hid & Hat & Hprov & _).
  fold par in Hpar, Hpl, Hpg, Hph, Hcls, Hdel, Hid, Hprov. split_and!; auto.
  { exists (vt_byte_len v). by rewrite (id_decode_id _ _ Hid) in Hat. }
  destruct (install_granted t (cl_holder caller) tr v (pt_server p) cap t' Hwf Ha Hv Hin)
    as (h & Hh & Hrec & Hkeep & Hold).
  exists i, p. eexists. exists cap, h. split_and!; [done..| | | | | |].
  - eapply (queued_here c i p); [done| |]; cycle 1.
    + cbn. apply list_elem_of_lookup. exists n. by rewrite list_lookup_insert_eq by (by eapply lookup_lt_Some).
    + unfold rq_live, sent_request. cbn. apply negb_true_iff, bool_decide_eq_false.
      pose proof (pl_seq _ (inv_port _ Hi _ _ Hp) Hl). lia.
  - done.
  - done.
  - cbn. by rewrite Hrec, Hpar, Hprov.
  - intros k Hk'. by apply Hkeep.
  - intros k Hk' Hlk. by rewrite <- (Hold k Hk' Hlk).
Qed.

(** C29: A failed SEND leaves the ports, the connections, the effects and every live capability as
    they were: the table may only have reclaimed revoked slots, and only with [NoSpace]. The one
    exception is a client whose connect capability is gone: it gets [Stale], and the connection
    is closed with a notice to the server, which takes back the children it still has queued. *)
Theorem send_fails_atomically P C N ops caller raw frame tr w' err :
  sizes_ok P C = true → Z.of_nat N ≤ 65536 → Forall op_typed ops →
  let c := fst (port_run (boot P C N) ops) in
  let t := snd (port_run (boot P C N) ops) in
  let w := MkWorld c t effects_new in
  send caller raw frame tr w = (w', Err err) →
  w' = w ∨
  (err = P_NoSpace ∧ w' = MkWorld c (fst (release_revoked t)) effects_new ∧
   ∀ i, (state (Table.record_at (table w') i) = Live ↔ state (Table.record_at t i) = Live) ∧
     (state (Table.record_at t i) = Live → Table.record_at (table w') i = Table.record_at t i)) ∨
  (err = P_Stale ∧ ∃ j conn, client_revoked c t j conn ∧ w' = close_pending j RK_ClientRevoked 0 w).
Proof.
  intros Hs HN Hops c t w E. pose proof (run_joined P C N ops Hs HN Hops) as [Hi Hwf Ha _].
  fold c t in Hi, Hwf, Ha. cbn [core table] in *.
  apply send_cases in E as [(er & [= ->] & ->)|[(j & conn & Hr & [= ->] & ->)|
    [(v & t' & i & p & er & tr' & _ & Hv & _ & Hin & [= ->] & ->)|
     (i & p & j & conn & n & r0 & child & t' & rec & _ & ? & _)]]]; [by left| | |done..].
  - right; right. eauto.
  - right; left. pose proof (validate_Ok _ _ _ _ Hv) as (Hpar & _ & _ & _ & Hcls & _).
    rewrite <- Hpar in Hcls.
    apply install_child_cases in Hin as [(-> & He & [= ->])|(h & _ & ?)]; [|done..].
    cbn [table]. split_and!; [done|by rewrite <- He|]. intros k. apply reclaimed_live.
Qed.

(** C30: RECV is authentic. A record is returned only to the registered server instance of a live
    port that presents a capability with the port's serve right; it names a connection of that
    port, and its envelope carries the pid and the instance generation of the process that
    opened the connection, for requests and for notices alike. *)
Theorem recv_authentic P C N ops caller serve w' rec :
  sizes_ok P C = true → Forall op_typed ops →
  let c := fst (port_run (boot P C N) ops) in
  let t := snd (port_run (boot P C N) ops) in
  recv caller serve (MkWorld c t effects_new) = (w', Ok rec) →
  ∃ i p j conn h cap, ports c !! i = Some p ∧ pt_live p = true ∧
    cl_holder caller = pt_server p ∧ cl_generation caller = pt_server_generation p ∧
    Handle.decode serve = Ok h ∧
    Table.authorize t (cl_holder caller) h (pt_resource p) (serve_right (pt_rights p)) = Ok cap ∧
    connections c !! j = Some conn ∧ cn_port conn = pkey i p ∧
    (rr_kind rec = RK_Request ∧ cn_state conn = Open ∨
     is_close_pending (cn_state conn) = true ∧ env_transfer (rr_envelope rec) = None) ∧
    env_connection (rr_envelope rec) = cid j conn ∧
    env_pid (rr_envelope rec) = cn_client conn ∧
    env_instance_generation (rr_envelope rec) = cn_client_generation conn.
Proof.
  intros Hs Hops c t E. pose proof (run_inv P C N ops Hs Hops) as Hi. fold c in Hi.
  apply recv_cases in E as [(err & ? & _)|(i & p & Ha & Hp & Hl & Hcase)]; [done| |done].
  apply authorize_serve_Ok in Ha as (p' & h & Hp' & _ & _ & Hh & Hg & Hd & cap & Hau).
  assert (p' = p) as -> by congruence.
  destruct Hcase as [(j & conn & _ & Hc & Hk & Hcp & [= ->] & _)|
    (n & r & j & conn & _ & _ & _ & _ & Hc & Ho & Hk & Hid & [Hs1 Hs2] & [= ->] & _)];
    exists i, p, j, conn, h, cap; split_and!; auto.
  - right. split; [done|]. unfold notice_record. by destruct (cn_state (conn_at c j)).
  - unfold notice_record. destruct (cn_state (conn_at c j)); cbn; by apply connection_id_lookup.
  - unfold notice_record. rewrite (conn_at_lookup _ _ _ Hc). by destruct (cn_state conn).
  - unfold notice_record. rewrite (conn_at_lookup _ _ _ Hc). by destruct (cn_state conn).
Qed.
End authority.

(** ** Witnesses: the session, with its queued transfer *)

Lemma session_typed_ops : Forall op_typed Session.ops.
Proof. apply (bool_decide_unpack (Forall op_typed Session.ops)). vm_compute. exact I. Qed.

(** The client closes before the server received: the child's handle is dead. *)
Lemma undelivered_children_die_witness :
  let c := fst (port_run (boot 4 16 16) Session.ops) in
  let t := snd (port_run (boot 4 16 16) Session.ops) in
  let w := port_op c t (PoClose Session.cli Session.conn 0) in
  ∃ r child, queued c r ∧ rq_transfer r = Some child ∧
    (queued (core w) r ∨
     (∃ caller serve, PoClose (B := nat) Session.cli Session.conn 0 = PoRecv caller serve ∧
        snd (recv caller serve (MkWorld c t effects_new)) = Ok (request_record r)) ∨
     ∃ h, Handle.decode (tc_handle child) = Ok h ∧
       is_ok (Table.authorize (snd (port_run (core w, table w) [])) 10 h
         (Resource.shared_buffer Session.buffer) RightsOps.READ) = false).
Proof.
  assert (∃ r child, queued (fst (port_run (boot 4 16 16) Session.ops)) r ∧ rq_transfer r = Some child)
    as (r & child & Hq & Hr).
  { set (p := default Port_EMPTY (ports (fst (port_run (boot 4 16 16) Session.ops)) !! 0%nat)).
    set (r := default Request_EMPTY (pt_requests p !! 0%nat)).
    exists r, (default (MkTransferred 0 0 0 0 0) (rq_transfer r)). split; [|by vm_compute].
    exists 0%nat, p. split_and!; [by vm_compute| |by vm_compute].
    apply list_elem_of_lookup. exists 0%nat. by vm_compute. }
  cbv zeta. exists r, child. split; [exact Hq|]. split; [exact Hr|].
  pose proof (undelivered_children_die 4 16 16 Session.ops (PoClose Session.cli Session.conn 0) r child [] 10
    (Resource.shared_buffer Session.buffer) RightsOps.READ eq_refl ltac:(lia) session_typed_ops I
    (Forall_nil_2 _)) as H.
  cbv zeta in H. exact (H Hq Hr).
Defined.

Lemma port_authority_confined_witness :
  let t := snd Session.state in
  ∃ root, descendant t root 3 ∧ state (Table.record_at t root) = Live ∧
    parent (provenance (Table.record_at t root)) = None ∧
    resource (Table.record_at t root) = Resource.shared_buffer Session.buffer ∧
    RightsOps.READ ⊑r rights (Table.record_at t root) ∧ holder (Table.record_at t root) = 20.
Proof.
  apply (port_authority_confined 4 16 16 Session.ops 10 (MkHandle 3 1)
    (Resource.shared_buffer Session.buffer) RightsOps.READ (Table.record_at (snd Session.state) 3)).
  - reflexivity.
  - lia.
  - apply session_typed_ops.
  - apply (bool_decide_unpack (Forall keeps_trees Session.ops)). vm_compute. exact I.
  - vm_compute. reflexivity.
Defined.

Lemma transfer_attenuates_witness :
  let ops := take 6 Session.ops in
  let c := fst (port_run (boot 4 16 16) ops) in
  let t := snd (port_run (boot 4 16 16) ops) in
  let w := MkWorld c t effects_new in
  let w' := fst (send Session.cli Session.conn (Session.frame 1) (Some Session.tr) w) in
  ∃ i p r child h, ports c !! i = Some p ∧ pt_live p = true ∧ queued (core w') r ∧
    rq_transfer r = Some child ∧ Handle.decode (tc_handle child) = Ok h ∧
    rights (Table.record_at (table w') (slot_of h)) = RightsOps.READ.
Proof.
  intros ops c t w w'.
  assert (Forall op_typed ops) as Ho.
  { apply (bool_decide_unpack (Forall op_typed ops)). vm_compute. exact I. }
  destruct (transfer_attenuates 4 16 16 ops Session.cli Session.conn (Session.frame 1) Session.tr w')
    as (_ & _ & _ & _ & _ & _ & i & p & r & child & h & H1 & H2 & H3 & H4 & H5 & H6 & _);
    [reflexivity|lia|exact Ho|vm_compute; reflexivity|].
  exists i, p, r, child, h. split_and!; auto. by rewrite H6.
Defined.

(** The client's connect capability is revoked: its next SEND closes the connection. *)
Lemma send_fails_atomically_witness :
  let ops := Session.ops ++ [PoCap (OpRevokeSubtree (MkHandle 1 1))] in
  let c := fst (port_run (boot 4 16 16) ops) in
  let t := snd (port_run (boot 4 16 16) ops) in
  let w := MkWorld c t effects_new in
  let w' := fst (send Session.cli Session.conn (Session.frame 1) None w) in
  w' ≠ w ∧
  (w' = w ∨
   (P_Stale = P_NoSpace ∧ w' = MkWorld c (fst (release_revoked t)) effects_new ∧
    ∀ i, (state (Table.record_at (table w') i) = Live ↔ state (Table.record_at t i) = Live) ∧
      (state (Table.record_at t i) = Live → Table.record_at (table w') i = Table.record_at t i)) ∨
   (P_Stale = P_Stale ∧ ∃ j conn, client_revoked c t j conn ∧ w' = close_pending j RK_ClientRevoked 0 w)).
Proof.
  assert (Forall op_typed (Session.ops ++ [PoCap (OpRevokeSubtree (MkHandle 1 1))])) as Ho.
  { apply (bool_decide_unpack (Forall op_typed _)). vm_compute. exact I. }
  pose proof (send_fails_atomically 4 16 16 _ Session.cli Session.conn (Session.frame 1) None
    (fst (send Session.cli Session.conn (Session.frame 1) None
       (MkWorld (fst (port_run (boot 4 16 16) (Session.ops ++ [PoCap (OpRevokeSubtree (MkHandle 1 1))])))
          (snd (port_run (boot 4 16 16) (Session.ops ++ [PoCap (OpRevokeSubtree (MkHandle 1 1))])))
          effects_new))) P_Stale eq_refl ltac:(lia) Ho) as H.
  cbv zeta in H |- *. split; [by vm_compute|]. apply H. vm_compute. reflexivity.
Defined.

Lemma recv_authentic_witness :
  let c := fst Session.state in
  let t := snd Session.state in
  let w := MkWorld c t effects_new in
  let rec := request_record (default Request_EMPTY (pt_requests (port_at c 0) !! 0%nat)) in
  ∃ i p j conn h cap, ports c !! i = Some p ∧ pt_live p = true ∧
    cl_holder Session.srv = pt_server p ∧ cl_generation Session.srv = pt_server_generation p ∧
    Handle.decode Session.serve = Ok h ∧
    Table.authorize t (cl_holder Session.srv) h (pt_resource p) (serve_right (pt_rights p)) = Ok cap ∧
    connections c !! j = Some conn ∧ cn_port conn = pkey i p ∧
    (rr_kind rec = RK_Request ∧ cn_state conn = Open ∨
     is_close_pending (cn_state conn) = true ∧ env_transfer (rr_envelope rec) = None) ∧
    env_connection (rr_envelope rec) = cid j conn ∧ env_pid (rr_envelope rec) = cn_client conn ∧
    env_instance_generation (rr_envelope rec) = cn_client_generation conn.
Proof.
  intros c t w rec.
  apply (recv_authentic 4 16 16 Session.ops Session.srv Session.serve (fst (recv Session.srv Session.serve w))).
  - reflexivity.
  - apply session_typed_ops.
  - vm_compute. reflexivity.
Defined.
