(* ===== verification/PortExit.v ===== *)
(** Process exit ([PortCore::on_holder_exit] of [port/src/engine.rs]): nothing of the holder's
    instance is left in the engine, and the counts it reports are exact. *)

From Stdlib Require Import ZArith Lia.
From stdpp Require Import base list tactics decidable numbers strings relations.
From S2P Require Import Prelude Bytes CapTypes CapTable CapTree CapSafety NativeAbi.
From S2P Require Import PortEngine PortInv PortTransfer PortOps PortSafety.
Import Core.

Local Open Scope Z_scope.

Section exit.
Context {B : Type} `{EqDecision B}.
Context (h : HolderId) (gen : Z).
Implicit Types (c : PortCore B) (w : World B) (p : Port B) (conn : Connection).

(** A live port of the instance, a connection its client side still holds. *)
Definition serves p : bool :=
  pt_live p && bool_decide (pt_server p = h) && bool_decide (pt_server_generation p = gen).

Definition holds conn : bool :=
  bool_decide (cn_client conn = h ∧ cn_client_generation conn = gen) && held_by_client (cn_state conn).

Lemma port_at_insert c cs i p' k :
  (i < length (ports c))%nat →
  port_at (MkCore (<[i := p']> (ports c)) cs) k = if decide (k = i) then p' else port_at c k.
Proof.
  intros Hi. unfold port_at. cbn [ports]. case_decide as Hk.
  - subst. by rewrite list_lookup_insert_eq.
  - by rewrite list_lookup_insert_ne.
Qed.

Lemma conn_at_insert c (ps : list (Port B)) j conn' k :
  (j < length (connections c))%nat →
  conn_at (MkCore ps (<[j := conn']> (connections c))) k = if decide (k = j) then conn' else conn_at c k.
Proof.
  intros Hj. unfold conn_at. cbn [connections]. case_decide as Hk.
  - subst. by rewrite list_lookup_insert_eq.
  - by rewrite list_lookup_insert_ne.
Qed.

Lemma torn_holds k conn conn' : torn k conn conn' → holds conn' = holds conn.
Proof.
  unfold torn. case_decide as Ha; [|by intros ->]. destruct Ha as [Ha _].
  destruct (cn_state conn) eqn:E; cbn in *; try done.
  - intros [s ->]. unfold holds, gone_conn. cbn. by rewrite E.
  - intros ->. unfold holds, free_conn. cbn. by rewrite E, !andb_false_r.
  - intros [s ->]. unfold holds, gone_conn. cbn. by rewrite E.
Qed.

Lemma teardown_exit c t e i p :
  inv c → ports c !! i = Some p → pt_live p = true →
  let c' := core (teardown_port i (MkWorld c t e)) in
  (∀ k, serves (port_at c' k) = if decide (k = i) then false else serves (port_at c k)) ∧
  ∀ j, holds (conn_at c' j) = holds (conn_at c j).
Proof.
  intros Hi Hp Hl. destruct (teardown_port_spec c i p t e Hi Hp Hl) as (s & cs & l & -> & [Hlen Ht] & _).
  cbn [core]. split.
  - intros k. rewrite port_at_insert by (by eapply lookup_lt_Some). by case_decide.
  - intros j. unfold conn_at. cbn [connections]. destruct (connections c !! j) as [conn|] eqn:E.
    + destruct (Ht j conn E) as (conn' & -> & Htorn). by eapply torn_holds.
    + apply lookup_ge_None in E. by rewrite (proj2 (lookup_ge_None cs j)) by lia.
Qed.

Lemma close_exit c t e j conn kind reason :
  inv c → connections c !! j = Some conn → cn_state conn = Open →
  let c' := core (close_pending j kind reason (MkWorld c t e)) in
  (∀ k, serves (port_at c' k) = serves (port_at c k)) ∧
  ∀ k, holds (conn_at c' k) = if decide (k = j) then false else holds (conn_at c k).
Proof.
  intros Hi Hc Ho.
  destruct (close_pending_spec c j conn kind reason t e Hi Hc) as (i & p & Hp & Hl & Hk & ->);
    [by rewrite Ho|]. cbn [core]. split; intros k.
  - rewrite port_at_insert by (by eapply lookup_lt_Some). case_decide; [|done]. subst.
    by rewrite (port_at_lookup _ _ _ Hp).
  - rewrite conn_at_insert by (by eapply lookup_lt_Some). case_decide; [|done].
    unfold holds. cbn. by rewrite andb_false_r.
Qed.

Lemma consume_exit c t e j conn :
  connections c !! j = Some conn →
  let c' := core (consume_terminal j (MkWorld c t e)) in
  (∀ k, serves (port_at c' k) = serves (port_at c k)) ∧
  ∀ k, holds (conn_at c' k) = if decide (k = j) then false else holds (conn_at c k).
Proof.
  intros Hc. rewrite (consume_terminal_spec _ _ _ _ _ Hc). cbn [core]. split; intros k; [done|].
  rewrite conn_at_insert by (by eapply lookup_lt_Some). case_decide; [|done].
  unfold holds. cbn. by rewrite andb_false_r.
Qed.

(** The slots a loop has not reached after [n] rounds. *)
Definition upto (n k : nat) : bool := bool_decide (n ≤ k)%nat.

Lemma upto_true n k : (n ≤ k)%nat → upto n k = true.
Proof. apply bool_decide_true. Qed.

Lemma upto_false n k : (k < n)%nat → upto n k = false.
Proof. intros. apply bool_decide_false. lia. Qed.

Lemma upto_S n k : k ≠ n → upto (S n) k = upto n k.
Proof. intros. apply bool_decide_ext. lia. Qed.

Lemma count_if_seq_S (q : nat → bool) n :
  count_if q (seq 0 (S n)) = (count_if q (seq 0 n) + Nat.b2n (q n))%nat.
Proof. rewrite seq_S, count_if_app, count_if_cons. change (count_if q []) with 0%nat. simpl. lia. Qed.

(** The first loop, after [n] ports. *)
Lemma ports_loop w :
  inv (core w) →
  let s := for_range 0 (length (ports (core w))) (exit_port h gen) (w, 0%nat) in
  inv (core (fst s)) ∧ (∀ k, serves (port_at (core (fst s)) k) = false) ∧
  (∀ j, holds (conn_at (core (fst s)) j) = holds (conn_at (core w) j)) ∧
  snd s = count_if (λ i, serves (port_at (core w) i)) (seq 0 (length (ports (core w)))).
Proof.
  intros Hi. cbv zeta. set (N := length (ports (core w))).
  assert (∀ k, (N ≤ k)%nat → serves (port_at (core w) k) = false) as Hout.
  { intros k Hk. unfold port_at. by rewrite (proj2 (lookup_ge_None _ _)). }
  cut (let s := for_range 0 N (exit_port h gen) (w, 0%nat) in inv (core (fst s)) ∧
    (∀ k, serves (port_at (core (fst s)) k) = upto N k && serves (port_at (core w) k)) ∧
    (∀ j, holds (conn_at (core (fst s)) j) = holds (conn_at (core w) j)) ∧
    snd s = count_if (λ i, serves (port_at (core w) i)) (seq 0 N)).
  { intros (H1 & H2 & H3 & H4). split_and!; auto. intros k. rewrite H2. destruct (upto N k) eqn:E; [|done]. apply Hout. by apply bool_decide_eq_true in E. }
  apply (for_range_ind (λ n s, inv (core (fst s)) ∧
    (∀ k, serves (port_at (core (fst s)) k) = upto n k && serves (port_at (core w) k)) ∧
    (∀ j, holds (conn_at (core (fst s)) j) = holds (conn_at (core w) j)) ∧
    snd s = count_if (λ i, serves (port_at (core w) i)) (seq 0 n))); [lia|done|].
  intros n [[c t e] m] Hn (H1 & H2 & H3 & H4). cbn [fst snd core] in *. unfold exit_port. cbn [core].
  fold (serves (port_at c n)). rewrite count_if_seq_S, H2, upto_true by lia. cbn [andb].
  destruct (serves (port_at (core w) n)) eqn:E; cbn [fst snd Nat.b2n].
  - assert (serves (port_at c n) = true) as Hs by (rewrite H2, upto_true; [done|lia]).
    unfold serves in Hs. apply andb_true_iff in Hs as [[Hl _]%andb_true_iff _]. unfold port_at in Hl.
    destruct (ports c !! n) as [p|] eqn:Hp; [|done].
    destruct (teardown_exit c t e n p H1 Hp Hl) as [T1 T2]. split_and!.
    + eapply shut_step_inv; [by eapply teardown_step|done].
    + intros k. rewrite T1. case_decide as Hk; [subst; by rewrite upto_false by lia|].
      rewrite H2. by rewrite upto_S.
    + intros j. by rewrite T2.
    + lia.
  - split_and!; auto; [|lia]. intros k. rewrite H2. destruct (decide (k = n)) as [->|Hk].
    + by rewrite E, !andb_false_r.
    + by rewrite upto_S.
Qed.

(** The second loop. *)
Lemma conns_loop w :
  inv (core w) → (∀ k, serves (port_at (core w) k) = false) →
  let s := for_range 0 (length (connections (core w))) (exit_connection h gen) (w, 0%nat) in
  (∀ k, serves (port_at (core (fst s)) k) = false) ∧
  (∀ j, holds (conn_at (core (fst s)) j) = false) ∧
  snd s = count_if (λ j, holds (conn_at (core w) j)) (seq 0 (length (connections (core w)))).
Proof.
  intros Hi Hs. cbv zeta. set (N := length (connections (core w))).
  assert (∀ k, (N ≤ k)%nat → holds (conn_at (core w) k) = false) as Hout.
  { intros k Hk. unfold conn_at, holds. rewrite (proj2 (lookup_ge_None _ _)) by done.
    cbn. by rewrite andb_false_r. }
  cut (let s := for_range 0 N (exit_connection h gen) (w, 0%nat) in inv (core (fst s)) ∧
    (∀ k, serves (port_at (core (fst s)) k) = false) ∧
    (∀ j, holds (conn_at (core (fst s)) j) = upto N j && holds (conn_at (core w) j)) ∧
    snd s = count_if (λ j, holds (conn_at (core w) j)) (seq 0 N)).
  { intros (H1 & H2 & H3 & H4). split_and!; auto. intros k. rewrite H3. destruct (upto N k) eqn:E; [|done]. apply Hout. by apply bool_decide_eq_true in E. }
  apply (for_range_ind (λ n s, inv (core (fst s)) ∧
    (∀ k, serves (port_at (core (fst s)) k) = false) ∧
    (∀ j, holds (conn_at (core (fst s)) j) = upto n j && holds (conn_at (core w) j)) ∧
    snd s = count_if (λ j, holds (conn_at (core w) j)) (seq 0 n))); [lia|done|].
  intros n [[c t e] m] Hn (H1 & H2 & H3 & H4). cbn [fst snd core] in *.
  assert (holds (conn_at c n) = holds (conn_at (core w) n)) as Hh by (rewrite H3, upto_true; [done|lia]).
  rewrite count_if_seq_S, <- Hh.
  assert (Hclose : ∀ c', (∀ k, holds (conn_at c' k) = if decide (k = n) then false else holds (conn_at c k)) →
    ∀ k, holds (conn_at c' k) = upto (S n) k && holds (conn_at (core w) k)).
  { intros c' Hc' k. rewrite Hc'. case_decide as Hk; [subst; by rewrite upto_false by lia|].
    rewrite H3. by rewrite upto_S. }
  assert (Hskip : holds (conn_at c n) = false → inv c ∧ (∀ k, serves (port_at c k) = false) ∧
    (∀ k, holds (conn_at c k) = upto (S n) k && holds (conn_at (core w) k)) ∧
    m = (count_if (λ j, holds (conn_at (core w) j)) (seq 0 n) + Nat.b2n (holds (conn_at c n)))%nat).
  { intros E. rewrite E. split_and!; auto; [|simpl; lia]. apply Hclose. intros k. case_decide; by subst. }
  unfold exit_connection. cbn [core]. case_decide as Hcl.
  { apply Hskip. unfold holds. rewrite bool_decide_false by tauto. done. }
  assert (holds (conn_at c n) = held_by_client (cn_state (conn_at c n))) as Hhold.
  { unfold holds. rewrite bool_decide_true; [done|]. destruct (decide (cn_client (conn_at c n) = h)),
      (decide (cn_client_generation (conn_at c n) = gen)); tauto. }
  destruct (connections c !! n) as [conn|] eqn:Hc.
  2: { assert (cn_state (conn_at c n) = Free) as E by (unfold conn_at; by rewrite Hc).
       rewrite E. apply Hskip. by rewrite Hhold, E. }
  rewrite (conn_at_lookup _ _ _ Hc) in Hhold, Hskip |- *.
  destruct (cn_state conn) eqn:Ho; try (by apply Hskip); rewrite Hhold; cbn [fst snd core held_by_client Nat.b2n].
  - destruct (close_exit c t e n conn RK_ClientExited 0 H1 Hc Ho) as [T1 T2]. split_and!.
    + eapply shut_step_inv; [by eapply close_pending_step|done].
    + intros k. by rewrite T1.
    + by apply Hclose.
    + lia.
  - destruct (consume_exit c t e n conn Hc) as [T1 T2]. split_and!;
      [|intros k; by rewrite T1|by apply Hclose|lia].
    eapply shut_step_inv; [eapply consume_terminal_step; [done|by rewrite Ho]|done].
  - destruct (consume_exit c t e n conn Hc) as [T1 T2]. split_and!;
      [|intros k; by rewrite T1|by apply Hclose|lia].
    eapply shut_step_inv; [eapply consume_terminal_step; [done|by rewrite Ho]|done].
Qed.

Lemma count_over_ports c : count_if (λ i, serves (port_at c i)) (seq 0 (length (ports c))) = count_if serves (ports c).
Proof.
  rewrite <- (count_if_fmap (port_at c)). f_equal. apply list_eq. intros i.
  rewrite list_lookup_fmap. unfold port_at. destruct (ports c !! i) as [p|] eqn:E.
  - rewrite lookup_seq_lt by (by eapply lookup_lt_Some). cbn. by rewrite E.
  - rewrite lookup_seq_ge by (by apply lookup_ge_None). done.
Qed.

Lemma count_over_conns c :
  count_if (λ j, holds (conn_at c j)) (seq 0 (length (connections c))) = count_if holds (connections c).
Proof.
  rewrite <- (count_if_fmap (conn_at c)). f_equal. apply list_eq. intros i.
  rewrite list_lookup_fmap. unfold conn_at. destruct (connections c !! i) as [p|] eqn:E.
  - rewrite lookup_seq_lt by (by eapply lookup_lt_Some). cbn. by rewrite E.
  - rewrite lookup_seq_ge by (by apply lookup_ge_None). done.
Qed.
End exit.

(** C31: A process exit is complete. After any history, once a holder's instance exits, no live
    port is served by it and no connection is open, disconnected or orphaned on its client side
    (what it had is free, or a notice its server has yet to read); the counts reported are the
    ports it served and the connections it held. *)
Theorem holder_exit_complete {B : Type} `{EqDecision B} P C N (ops : list (PortOp B)) h gen :
  sizes_ok P C = true → Forall op_typed ops →
  let c := fst (port_run (boot P C N) ops) in
  let t := snd (port_run (boot P C N) ops) in
  let out := on_holder_exit h gen (MkWorld c t effects_new) in
  (∀ p, p ∈ ports (core (fst out)) → serves h gen p = false) ∧
  (∀ conn, conn ∈ connections (core (fst out)) → holds h gen conn = false) ∧
  snd out = MkReleased (count_if (serves h gen) (ports c)) (count_if (holds h gen) (connections c)).
Proof.
  intros Hs Hops c t. pose proof (run_inv P C N ops Hs Hops) as Hi. fold c in Hi.
  unfold on_holder_exit. cbv zeta.
  destruct (ports_loop h gen (MkWorld c t effects_new) Hi) as (H1 & H2 & H3 & H4).
  pose proof (loop_steps (exit_port h gen) (length (ports c)) (MkWorld c t effects_new)
    (exit_port_step h gen) Hi) as [_ Hlen]%shut_steps%world_steps_lengths. revert H1 H2 H3 H4 Hlen.
  destruct (for_range _ _ (exit_port h gen) _) as [w1 n1]. cbn [fst snd core]. intros H1 H2 H3 -> Hlen.
  destruct (conns_loop h gen w1 H1 H2) as (H5 & H6 & H7). revert H5 H6 H7.
  destruct (for_range _ _ (exit_connection h gen) _) as [w2 n2]. cbn [fst snd]. intros H5 H6 ->.
  split_and!.
  - intros p [i Hp]%list_elem_of_lookup. specialize (H5 i). by rewrite (port_at_lookup _ _ _ Hp) in H5.
  - intros conn [j Hc]%list_elem_of_lookup. specialize (H6 j). by rewrite (conn_at_lookup _ _ _ Hc) in H6.
  - f_equal; [apply count_over_ports|]. rewrite <- (count_over_conns h gen c), Hlen.
    by apply count_if_ext.
Qed.

Lemma holder_exit_complete_witness :
  let c := fst (port_run (boot 4 16 16) Session.ops) in
  let t := snd (port_run (boot 4 16 16) Session.ops) in
  let out := on_holder_exit 20 3 (MkWorld c t effects_new) in
  (∀ p, p ∈ ports (core (fst out)) → serves 20 3 p = false) ∧
  (∀ conn, conn ∈ connections (core (fst out)) → holds 20 3 conn = false) ∧
  snd out = MkReleased (count_if (serves 20 3) (ports c)) (count_if (holds 20 3) (connections c)) ∧
  count_if (holds 20 3) (connections c) = 1%nat.
Proof.
  assert (Forall op_typed Session.ops) as Ho.
  { apply (bool_decide_unpack (Forall op_typed Session.ops)). vm_compute. exact I. }
  pose proof (holder_exit_complete 4 16 16 Session.ops 20 3 eq_refl Ho) as H. cbv zeta in H |- *.
  destruct H as (H1 & H2 & H3). split; [exact H1|]. split; [exact H2|]. split; [exact H3|].
  vm_compute. reflexivity.
Defined.
