(* ===== verification/Elf.v ===== *)
(** The ELF64 load plan ([elf/src]): header and program headers are parsed and validated under a
    policy before anything is mapped.

    A file is a [list Z] of bytes; addresses and sizes are 64-bit integers as [Z]. The plan keeps
    its segments in an array of sixteen, of which the first [segment_count] are used. *)

From Stdlib Require Import ZArith Lia.
From stdpp Require Import base list sets gmap tactics decidable numbers.
From S2P Require Import Prelude Bytes.

Local Open Scope Z_scope.

(** * Constants and errors (header.rs, error.rs) *)

Definition ELFMAG : list Z := [0x7f; 69; 76; 70].
Definition ELFCLASS64 : Z := 2.
Definition ELFDATA2LSB : Z := 1.
Definition EV_CURRENT : Z := 1.
Definition EM_X86_64 : Z := 62.
Definition ET_EXEC : Z := 2.
Definition ET_DYN : Z := 3.
Definition ELF64_EHDR_SIZE : nat := 64.
Definition ELF64_PHDR_SIZE : Z := 56.
Definition PT_LOAD : Z := 1.
Definition PT_DYNAMIC : Z := 2.
Definition PT_INTERP : Z := 3.
Definition PF_X : Z := 1.
Definition PF_W : Z := 2.
Definition PF_R : Z := 4.

Inductive LoadPlanError : Type :=
| TruncatedHeader
| BadMagic
| BadClass
| BadEndian
| BadVersion
| BadMachine
| TruncatedProgramHeaders
| BadPhentsize
| FileszGreaterThanMemsz
| FileRangeOverflow
| FileRangeBeyondEof
| VaddrRangeOverflow
| NonCanonicalVaddr
| OutOfWindowVaddr
| PageZero
| AlignmentViolation
| OffsetVaddrCongruenceViolation
| SegmentOverlap
| SegmentBudgetExceeded
| EntryOutsideExecutableSegment
| WriteExecuteConflict
| NoLoadSegments
| UnsupportedEType
| ArithmeticOverflow.

#[export] Instance LoadPlanError_eq_dec : EqDecision LoadPlanError.
Proof. solve_decision. Defined.

(** [u64::is_power_of_two] *)
Definition is_power_of_two (z : Z) : bool := bool_decide (0 < z) && bool_decide (Z.land z (z - 1) = 0).

(** * The file header (header.rs) *)

Record Elf64Header : Type := MkHeader {
  hd_type : Z;
  hd_entry : Z;
  hd_phoff : Z;
  hd_phentsize : Z;
  hd_phnum : Z;
}.

Definition read_bytes (n : nat) (bytes : list Z) (offset : Z) : result LoadPlanError Z :=
  let? end_ := ok_or (checked_add 64 offset (Z.of_nat n)) ArithmeticOverflow in
  if decide (Z.of_nat (length bytes) < end_) then Err TruncatedHeader
  else Ok (le_decode (slice (Z.to_nat offset) (Z.to_nat end_) bytes)).

Definition read_u16 : list Z → Z → result LoadPlanError Z := read_bytes 2.
Definition read_u32 : list Z → Z → result LoadPlanError Z := read_bytes 4.
Definition read_u64 : list Z → Z → result LoadPlanError Z := read_bytes 8.

Module Header.
Definition parse (bytes : list Z) : result LoadPlanError Elf64Header :=
  if decide (length bytes < ELF64_EHDR_SIZE)%nat then Err TruncatedHeader
  else if decide (slice 0 4 bytes ≠ ELFMAG) then Err BadMagic
  else if decide (nth 4 bytes 0 ≠ ELFCLASS64) then Err BadClass
  else if decide (nth 5 bytes 0 ≠ ELFDATA2LSB) then Err BadEndian
  else if decide (nth 6 bytes 0 ≠ EV_CURRENT) then Err BadVersion
  else
    let? e_type := read_u16 bytes 0x10 in
    let? e_machine := read_u16 bytes 0x12 in
    if decide (e_machine ≠ EM_X86_64) then Err BadMachine
    else
      let? e_version := read_u32 bytes 0x14 in
      if decide (e_version ≠ EV_CURRENT) then Err BadVersion
      else
        let? e_entry := read_u64 bytes 0x18 in
        let? e_phoff := read_u64 bytes 0x20 in
        let? e_phentsize := read_u16 bytes 0x36 in
        let? e_phnum := read_u16 bytes 0x38 in
        if decide (e_phentsize ≠ ELF64_PHDR_SIZE) then Err BadPhentsize
        else Ok (MkHeader e_type e_entry e_phoff e_phentsize e_phnum).
End Header.

(** * Segments (segment.rs) *)

Record SegmentPermissions : Type := MkPerms { perm_read : bool; perm_write : bool; perm_execute : bool }.

#[export] Instance SegmentPermissions_eq_dec : EqDecision SegmentPermissions.
Proof. solve_decision. Defined.

Module Perms.
Definition default : SegmentPermissions := MkPerms false false false.

Definition from_p_flags (flags : Z) : SegmentPermissions :=
  MkPerms (bool_decide (Z.land flags PF_R ≠ 0)) (bool_decide (Z.land flags PF_W ≠ 0))
    (bool_decide (Z.land flags PF_X ≠ 0)).

Definition is_write_execute (p : SegmentPermissions) : bool := perm_write p && perm_execute p.
End Perms.

Record LoadSegment : Type := MkSegment {
  vaddr : Z;
  memsz : Z;
  file_offset : Z;
  filesz : Z;
  align : Z;
  perms : SegmentPermissions;
}.

#[export] Instance LoadSegment_eq_dec : EqDecision LoadSegment.
Proof. solve_decision. Defined.

(** [value & !(align - 1)] *)
Definition align_down (value align : Z) : Z := Z.ldiff value (align - 1).

Definition align_up (value align : Z) : result LoadPlanError Z :=
  if decide (align = 0 ∨ is_power_of_two align = false) then Err AlignmentViolation
  else if decide (Z.land value (align - 1) = 0) then Ok value
  else ok_or (checked_add 64 value (align - Z.land value (align - 1))) ArithmeticOverflow.

Module Segment.
Definition default : LoadSegment := MkSegment 0 0 0 0 0 Perms.default.

Definition file_range (s : LoadSegment) : result LoadPlanError (Z * Z) :=
  let? end_ := ok_or (checked_add 64 (file_offset s) (filesz s)) FileRangeOverflow in
  Ok (file_offset s, end_).

Definition zero_fill_range (s : LoadSegment) : result LoadPlanError (option (Z * Z)) :=
  if decide (memsz s < filesz s) then Err FileszGreaterThanMemsz
  else if decide (filesz s = memsz s) then Ok None
  else
    let? start := ok_or (checked_add 64 (vaddr s) (filesz s)) VaddrRangeOverflow in
    let? end_ := ok_or (checked_add 64 (vaddr s) (memsz s)) VaddrRangeOverflow in
    Ok (Some (start, end_)).

Definition page_span (s : LoadSegment) (page_size : Z) : result LoadPlanError (Z * Z) :=
  if decide (page_size = 0 ∨ is_power_of_two page_size = false) then Err AlignmentViolation
  else if decide (memsz s = 0) then Ok (align_down (vaddr s) page_size, 0)
  else
    let? end_ := ok_or (checked_add 64 (vaddr s) (memsz s)) VaddrRangeOverflow in
    let first := align_down (vaddr s) page_size in
    let? last_exclusive := align_up end_ page_size in
    let? bytes := ok_or (checked_sub last_exclusive first) ArithmeticOverflow in
    Ok (first, bytes / page_size).

Definition mapped_page_count (s : LoadSegment) (page_size : Z) : result LoadPlanError Z :=
  let? span := page_span s page_size in Ok (snd span).

Definition file_backed_end (s : LoadSegment) : result LoadPlanError (option Z) :=
  if decide (filesz s = 0) then Ok None
  else
    let? end_ := ok_or (checked_add 64 (vaddr s) (filesz s)) VaddrRangeOverflow in
    Ok (Some end_).
End Segment.

(** * The policy (policy.rs) *)

Definition MAX_LOAD_SEGMENTS : nat := 16.

Definition NATIVE_ALLOWED_E_TYPES : list Z := [ET_DYN; ET_EXEC].

Record LoadPlanPolicy : Type := MkPolicy {
  user_va_lo : Z;
  user_va_hi : Z;
  max_segments : nat;
  page_size : Z;
  reject_write_execute : bool;
  reject_page_zero : bool;
  allowed_e_types : list Z;
}.

Module Policy.
Definition native_x86_64 : LoadPlanPolicy :=
  MkPolicy 0 (2 ^ 47) MAX_LOAD_SEGMENTS 4096 true false NATIVE_ALLOWED_E_TYPES.

Definition linux_conventional_x86_64 : LoadPlanPolicy :=
  MkPolicy 0x10000 (2 ^ 47) MAX_LOAD_SEGMENTS 4096 true true NATIVE_ALLOWED_E_TYPES.

Definition m8_legacy_slot_x86_64 : LoadPlanPolicy :=
  MkPolicy 0x400000000000 0x408000000000 MAX_LOAD_SEGMENTS 4096 true true NATIVE_ALLOWED_E_TYPES.

Definition absolute_user_x86_64 : LoadPlanPolicy := m8_legacy_slot_x86_64.

Definition accepts_vaddr_range (p : LoadPlanPolicy) (va len : Z) : bool :=
  if decide (len = 0) then bool_decide (user_va_lo p ≤ va) && bool_decide (va < user_va_hi p)
  else
    match checked_add 64 va len with
    | None => false
    | Some end_ => bool_decide (user_va_lo p ≤ va) && bool_decide (end_ ≤ user_va_hi p)
    end.

Definition accepts_linux_user_segment (va size : Z) : bool :=
  accepts_vaddr_range linux_conventional_x86_64 va size ||
  accepts_vaddr_range m8_legacy_slot_x86_64 va size.

Definition allows_e_type (p : LoadPlanPolicy) (e_type : Z) : bool :=
  bool_decide (allowed_e_types p = []) || bool_decide (e_type ∈ allowed_e_types p).
End Policy.

(** * The plan (plan.rs) *)

Record LoadPlan : Type := MkPlan {
  entry : Z;
  phdr_vaddr : option Z;
  phoff : Z;
  phentsize : Z;
  phnum : Z;
  segments : list LoadSegment;
  segment_count : nat;
  has_interp : bool;
  has_dynamic : bool;
  e_type : Z;
}.

Definition is_canonical_user (addr : Z) : bool := bool_decide (addr < Z.shiftl 1 47).

Definition validate_segment (s : LoadSegment) (file_len : Z) (p : LoadPlanPolicy)
  : result LoadPlanError unit :=
  if decide (memsz s < filesz s) then Err FileszGreaterThanMemsz
  else
    let? (_, file_end) := Segment.file_range s in
    if decide (file_len < file_end) then Err FileRangeBeyondEof
    else
      let? vaddr_end := ok_or (checked_add 64 (vaddr s) (memsz s)) VaddrRangeOverflow in
      if negb (is_canonical_user (vaddr s)) ||
         bool_decide (0 < memsz s) && negb (is_canonical_user (vaddr_end - 1))
      then Err NonCanonicalVaddr
      else if decide (vaddr s < user_va_lo p ∨ user_va_hi p < vaddr_end) then Err OutOfWindowVaddr
      else
        let? _ :=
          if reject_page_zero p then
            let? (first_page, page_count) := Segment.page_span s (page_size p) in
            if decide (0 < page_count ∧ first_page = 0) then Err PageZero else Ok ()
          else Ok () in
        let? _ :=
          if decide (1 < align s) then
            if is_power_of_two (align s) then
              if decide (file_offset s mod align s ≠ vaddr s mod align s)
              then Err OffsetVaddrCongruenceViolation else Ok ()
            else Err AlignmentViolation
          else Ok () in
        if reject_write_execute p && Perms.is_write_execute (perms s) then Err WriteExecuteConflict
        else Ok ().

(** One segment of [detect_overlaps] against the segments after it. *)
Definition overlaps_later (seg : LoadSegment) (left_end : Z) (right : LoadSegment) (_ : unit)
  : result LoadPlanError unit :=
  if decide (memsz right = 0) then Ok ()
  else
    let? right_end := ok_or (checked_add 64 (vaddr right) (memsz right)) VaddrRangeOverflow in
    if decide (vaddr seg < right_end ∧ vaddr right < left_end) then Err SegmentOverlap else Ok ().

Fixpoint detect_overlaps (segs : list LoadSegment) : result LoadPlanError unit :=
  match segs with
  | [] => Ok ()
  | seg :: rest =>
      let? _ :=
        if decide (memsz seg = 0) then Ok ()
        else
          let? left_end := ok_or (checked_add 64 (vaddr seg) (memsz seg)) VaddrRangeOverflow in
          try_fold (overlaps_later seg left_end) rest () in
      detect_overlaps rest
  end.

Fixpoint resolve_phdr_vaddr (off : Z) (segs : list LoadSegment) : option Z :=
  match segs with
  | [] => None
  | s :: segs =>
      match checked_add 64 (file_offset s) (filesz s) with
      | None => None
      | Some file_end =>
          if decide (file_offset s ≤ off ∧ off < file_end)
          then checked_add 64 (vaddr s) (off - file_offset s)
          else resolve_phdr_vaddr off segs
      end
  end.

Module Plan.
Definition iter_segments (p : LoadPlan) : list LoadSegment := take (segment_count p) (segments p).

(** [iter().map(|s| s.vaddr).min()] *)
Definition image_base (p : LoadPlan) : option Z :=
  match iter_segments p with
  | [] => None
  | s :: segs => Some (foldl (λ m s, Z.min m (vaddr s)) (vaddr s) segs)
  end.

Definition swap (i j : nat) (spans : list (Z * Z)) : list (Z * Z) :=
  <[i := nth j spans (0, 0)]> (<[j := nth i spans (0, 0)]> spans).

(** [while j > 0 && spans[j - 1].0 > spans[j].0 { swap; j -= 1 }] *)
Fixpoint sift (j : nat) (spans : list (Z * Z)) : list (Z * Z) :=
  match j with
  | O => spans
  | S j' =>
      if decide (fst (nth j spans (0, 0)) < fst (nth j' spans (0, 0)))
      then sift j' (swap j' j spans) else spans
  end.

(** The page spans, unsorted: the array and how many of it are used. *)
Definition collect_span (page_size : Z) (s : LoadSegment) (st : list (Z * Z) * nat)
  : result LoadPlanError (list (Z * Z) * nat) :=
  let '(spans, span_count) := st in
  let? (first, count) := Segment.page_span s page_size in
  if decide (count = 0) then Ok (spans, span_count)
  else
    let? bytes := ok_or (checked_mul 64 count page_size) ArithmeticOverflow in
    let? end_ := ok_or (checked_add 64 first bytes) ArithmeticOverflow in
    Ok (<[span_count := (first, end_)]> spans, S span_count).

(** [while index < span_count && spans[index].0 < end { end = end.max(..); index += 1 }] *)
Fixpoint absorb (fuel : nat) (spans : list (Z * Z)) (span_count index : nat) (end_ : Z) : nat * Z :=
  match fuel with
  | O => (index, end_)
  | S fuel =>
      if decide (index < span_count)%nat then
        let '(s, e) := nth index spans (0, 0) in
        if decide (s < end_) then absorb fuel spans span_count (S index) (Z.max end_ e)
        else (index, end_)
      else (index, end_)
  end.

Fixpoint merge_spans (fuel : nat) (page_size : Z) (spans : list (Z * Z)) (span_count index : nat) (total : Z)
  : result LoadPlanError Z :=
  match fuel with
  | O => Ok total
  | S fuel =>
      if decide (index < span_count)%nat then
        let '(start, end_) := nth index spans (0, 0) in
        let '(index, end_) := absorb span_count spans span_count (S index) end_ in
        let? bytes := ok_or (checked_sub end_ start) ArithmeticOverflow in
        let? total := ok_or (checked_add 64 total (bytes / page_size)) ArithmeticOverflow in
        merge_spans fuel page_size spans span_count index total
      else Ok total
  end.

Definition total_mapped_pages (p : LoadPlan) (page_size : Z) : result LoadPlanError Z :=
  if decide (page_size = 0 ∨ is_power_of_two page_size = false) then Err AlignmentViolation
  else
    let? (spans, span_count) :=
      try_fold (collect_span page_size) (iter_segments p) (replicate MAX_LOAD_SEGMENTS (0, 0), O) in
    let spans := for_range 1 span_count sift spans in
    merge_spans span_count page_size spans span_count 0 0.
End Plan.

Fixpoint entry_in_executable (entry : Z) (segs : list LoadSegment) : result LoadPlanError unit :=
  match segs with
  | [] => Err EntryOutsideExecutableSegment
  | s :: segs =>
      if negb (perm_execute (perms s)) || bool_decide (memsz s = 0) then entry_in_executable entry segs
      else
        let? end_ := ok_or (checked_add 64 (vaddr s) (memsz s)) VaddrRangeOverflow in
        if decide (vaddr s ≤ entry ∧ entry < end_) then Ok () else entry_in_executable entry segs
  end.

Definition validate_entry_in_executable (p : LoadPlan) : result LoadPlanError unit :=
  entry_in_executable (entry p) (Plan.iter_segments p).

(** The state of the program-header loop. *)
Record ParseState : Type := MkParse {
  ps_segments : list LoadSegment;
  ps_count : nat;
  ps_interp : bool;
  ps_dynamic : bool;
}.

Definition truncated {A : Type} (r : result LoadPlanError A) : result LoadPlanError A :=
  map_err (λ _, TruncatedProgramHeaders) r.

(** One turn of the program-header loop. *)
Definition parse_phdr (bytes : list Z) (p : LoadPlanPolicy) (h : Elf64Header) (index : nat) (st : ParseState)
  : result LoadPlanError ParseState :=
  let? offset := ok_or (checked_mul 64 (Z.of_nat index) (hd_phentsize h)) ArithmeticOverflow in
  let? start := ok_or (checked_add 64 (hd_phoff h) offset) ArithmeticOverflow in
  let? end_ := ok_or (checked_add 64 start (hd_phentsize h)) ArithmeticOverflow in
  if decide (Z.of_nat (length bytes) < end_) then Err TruncatedProgramHeaders
  else
    let phdr := slice (Z.to_nat start) (Z.to_nat end_) bytes in
    let? p_type := truncated (read_u32 phdr 0) in
    if decide (p_type = PT_INTERP) then Ok (MkParse (ps_segments st) (ps_count st) true (ps_dynamic st))
    else if decide (p_type = PT_DYNAMIC) then Ok (MkParse (ps_segments st) (ps_count st) (ps_interp st) true)
    else if decide (p_type ≠ PT_LOAD) then Ok st
    else
      let? p_flags := truncated (read_u32 phdr 4) in
      let? p_offset := truncated (read_u64 phdr 0x08) in
      let? p_vaddr := truncated (read_u64 phdr 0x10) in
      let? p_filesz := truncated (read_u64 phdr 0x20) in
      let? p_memsz := truncated (read_u64 phdr 0x28) in
      let? p_align := truncated (read_u64 phdr 0x30) in
      let segment := MkSegment p_vaddr p_memsz p_offset p_filesz p_align (Perms.from_p_flags p_flags) in
      let? _ := validate_segment segment (Z.of_nat (length bytes)) p in
      if decide (max_segments p ≤ ps_count st ∨ MAX_LOAD_SEGMENTS ≤ ps_count st)%nat
      then Err SegmentBudgetExceeded
      else Ok (MkParse (<[ps_count st := segment]> (ps_segments st)) (S (ps_count st))
                 (ps_interp st) (ps_dynamic st)).

Definition parse_load_plan (bytes : list Z) (p : LoadPlanPolicy) : result LoadPlanError LoadPlan :=
  if decide (page_size p = 0 ∨ is_power_of_two (page_size p) = false) then Err AlignmentViolation
  else if decide (user_va_hi p ≤ user_va_lo p) then Err OutOfWindowVaddr
  else
    let? h := Header.parse bytes in
    if negb (Policy.allows_e_type p (hd_type h)) then Err UnsupportedEType
    else
      let? table := ok_or (checked_mul 64 (hd_phnum h) (hd_phentsize h)) ArithmeticOverflow in
      let? phdr_table_end := ok_or (checked_add 64 (hd_phoff h) table) ArithmeticOverflow in
      if decide (Z.of_nat (length bytes) < phdr_table_end) then Err TruncatedProgramHeaders
      else if decide (hd_phoff h mod 8 ≠ 0) then Err TruncatedProgramHeaders
      else
        let? st := try_range 0 (Z.to_nat (hd_phnum h)) (parse_phdr bytes p h)
                     (MkParse (replicate MAX_LOAD_SEGMENTS Segment.default) 0 false false) in
        if decide (ps_count st = 0)%nat then Err NoLoadSegments
        else
          let used := take (ps_count st) (ps_segments st) in
          let? _ := detect_overlaps used in
          let plan := MkPlan (hd_entry h) (resolve_phdr_vaddr (hd_phoff h) used) (hd_phoff h)
                        (hd_phentsize h) (hd_phnum h) (ps_segments st) (ps_count st)
                        (ps_interp st) (ps_dynamic st) (hd_type h) in
          let? _ := validate_entry_in_executable plan in
          Ok plan.
