(* ===== verification/ElfPlan.v ===== *)
(** What a load plan guarantees ([parse_load_plan] of [elf/src/plan.rs]). *)

From Stdlib Require Import ZArith Lia.
From stdpp Require Import base list sets gmap tactics decidable numbers.
From S2P Require Import Prelude Bytes Elf.

Local Open Scope Z_scope.

(** * Powers of two *)

Lemma is_power_of_two_spec z : is_power_of_two z = true ↔ ∃ k, 0 ≤ k ∧ z = 2 ^ k.
Proof.
  unfold is_power_of_two. rewrite andb_true_iff, !bool_decide_eq_true. split.
  - intros [Hz Hl]. exists (Z.log2 z). split; [apply Z.log2_nonneg|].
    destruct (Z.log2_spec z Hz) as [Hlo Hhi]. destruct (decide (z = 2 ^ Z.log2 z)) as [|Hne]; [done|]. exfalso.
    assert (Z.log2 (z - 1) = Z.log2 z) as El by (apply Z.log2_unique; [apply Z.log2_nonneg|lia]).
    assert (0 < z - 1) as Hz1.
    { destruct (decide (z = 1)) as [->|]; [by rewrite Z.log2_1 in Hne|lia]. }
    assert (Z.testbit (Z.land z (z - 1)) (Z.log2 z) = true) as Hb.
    { rewrite Z.land_spec, (Z.bit_log2 z Hz). rewrite <- El. by apply Z.bit_log2. }
    by rewrite Hl, Z.bits_0 in Hb.
  - intros (k & Hk & ->). split; [apply Z.pow_pos_nonneg; lia|].
    replace (2 ^ k - 1) with (Z.ones k) by (rewrite Z.ones_equiv; lia).
    rewrite Z.land_ones by done. apply Z.mod_same. pose proof (Z.pow_pos_nonneg 2 k). lia.
Qed.

Section aligned.
Context (k : Z) (Hk : 0 ≤ k).

Lemma pow_pos : 0 < 2 ^ k.
Proof. apply Z.pow_pos_nonneg; lia. Qed.

Lemma low_bits v : Z.land v (2 ^ k - 1) = v mod 2 ^ k.
Proof. by apply land_pow2. Qed.

Lemma align_down_pow v : align_down v (2 ^ k) = 2 ^ k * (v / 2 ^ k).
Proof. by apply ldiff_pow2. Qed.

Lemma align_up_pow v :
  0 ≤ v → 2 ^ k * ((v + 2 ^ k - 1) / 2 ^ k) < 2 ^ 64 → align_up v (2 ^ k) = Ok (2 ^ k * ((v + 2 ^ k - 1) / 2 ^ k)).
Proof.
  intros Hv Hmax. pose proof pow_pos as Hp. unfold align_up.
  assert (is_power_of_two (2 ^ k) = true) as Ht by (apply is_power_of_two_spec; eauto).
  rewrite Ht, decide_False by (intros [?|?]; [lia|done]). rewrite low_bits.
  pose proof (Z.div_mod v (2 ^ k) ltac:(lia)) as Hdm. pose proof (Z.mod_pos_bound v (2 ^ k) Hp) as Hm.
  set (q := v / 2 ^ k) in *. set (r := v mod 2 ^ k) in *. set (m := 2 ^ k) in *. case_decide as Hr.
  - replace ((v + m - 1) / m) with q; [f_equal; lia|]. apply (Z.div_unique _ _ _ (m - 1)); lia.
  - assert ((v + m - 1) / m = q + 1) as Eq by (symmetry; apply (Z.div_unique _ _ _ (r - 1)); lia).
    rewrite Eq in Hmax |- *. unfold checked_add. rewrite decide_True by lia. cbn. f_equal. lia.
Qed.
End aligned.

(** * Segments of a plan *)

(** A segment with fields of their width. *)
Record segment_typed (s : LoadSegment) : Prop := {
  st_vaddr : in_width 64 (vaddr s);
  st_memsz : in_width 64 (memsz s);
  st_offset : in_width 64 (file_offset s);
  st_filesz : in_width 64 (filesz s);
  st_align : in_width 64 (align s);
}.

(** What validation establishes. *)
Record segment_ok (file_len : Z) (p : LoadPlanPolicy) (s : LoadSegment) : Prop := {
  so_typed : segment_typed s;
  so_sizes : filesz s ≤ memsz s;
  so_file : file_offset s + filesz s ≤ file_len;
  so_window : user_va_lo p ≤ vaddr s ∧ vaddr s + memsz s ≤ user_va_hi p;
  so_canonical : vaddr s < 2 ^ 47 ∧ vaddr s + memsz s ≤ 2 ^ 47;
  so_page_zero : reject_page_zero p = true → 0 < memsz s → page_size p ≤ vaddr s;
  so_align : 1 < align s → (∃ k, align s = 2 ^ k) ∧ file_offset s mod align s = vaddr s mod align s;
  so_wx : reject_write_execute p = true → perm_write (perms s) = true → perm_execute (perms s) = false;
}.

(** The pages [v / ps .. (v + m - 1) / ps] of a range, in one formula. *)
Definition pages_end (ps v m : Z) : Z := (v + m + ps - 1) / ps.

Lemma pages_end_gt ps v m : 0 < ps → 0 < m → v / ps < pages_end ps v m.
Proof.
  intros Hp Hm. unfold pages_end. assert (v / ps + 1 ≤ (v + m + ps - 1) / ps); [|lia].
  apply Z.div_le_lower_bound; [lia|]. pose proof (Z.mul_div_le v ps Hp). lia.
Qed.

Lemma align_up_Ok v ps l : align_up v ps = Ok l → 0 < ps → l = ps * ((v + ps - 1) / ps).
Proof.
  intros E Hpos. revert E. unfold align_up. case_decide as Hp; [done|].
  destruct (is_power_of_two ps) eqn:Hpow; [|tauto]. apply is_power_of_two_spec in Hpow as (k & Hk & ->).
  rewrite low_bits by done. pose proof (Z.div_mod v (2 ^ k) ltac:(lia)). pose proof (Z.mod_pos_bound v (2 ^ k) Hpos).
  case_decide as Hr.
  - intros [= <-]. replace ((v + 2 ^ k - 1) / 2 ^ k) with (v / 2 ^ k); [lia|].
    apply (Z.div_unique _ _ _ (2 ^ k - 1)); lia.
  - destruct (checked_add _ _ _) as [x|] eqn:Ex; [|done]. apply checked_add_Some in Ex as [-> _]. intros [= <-].
    replace ((v + 2 ^ k - 1) / 2 ^ k) with (v / 2 ^ k + 1); [lia|].
    apply (Z.div_unique _ _ _ (v mod 2 ^ k - 1)); lia.
Qed.

Lemma page_span_Ok s ps first count :
  Segment.page_span s ps = Ok (first, count) →
  0 < ps ∧ first = ps * (vaddr s / ps) ∧
  count = (if decide (memsz s = 0) then 0 else pages_end ps (vaddr s) (memsz s) - vaddr s / ps).
Proof.
  unfold Segment.page_span. destruct (decide (ps = 0 ∨ _)) as [|Hp]; [done|].
  destruct (is_power_of_two ps) eqn:Hpow; [|tauto]. apply is_power_of_two_spec in Hpow as (k & Hk & ->).
  pose proof (pow_pos k Hk) as Hpos. rewrite align_down_pow by done. case_decide; [by intros [= <- <-]|].
  destruct (checked_add 64 _ _) as [e|] eqn:Ee; [|done]. apply checked_add_Some in Ee as [-> He]. cbn [ok_or].
  destruct (align_up _ _) as [l|] eqn:El; [|done]. apply align_up_Ok in El as ->; [|done].
  destruct (checked_sub _ _) as [b|] eqn:Eb; [|done]. apply checked_sub_Some in Eb as [-> _]. intros [= <- <-].
  split_and!; [done|done|]. rewrite <- Z.mul_sub_distr_l, Z.mul_comm, Z.div_mul by lia. done.
Qed.

Lemma validate_segment_Ok s len p :
  segment_typed s → validate_segment s len p = Ok () → segment_ok len p s.
Proof.
  intros Ht. pose proof Ht as [[Hv _] [Hm _] _ _ _]. unfold validate_segment. case_decide; [done|].
  unfold Segment.file_range. destruct (checked_add 64 (file_offset s) _) as [fe|] eqn:Ef; [|done]. cbn [ok_or].
  apply checked_add_Some in Ef as [-> Hf]. case_decide; [done|].
  destruct (checked_add 64 (vaddr s) _) as [ve|] eqn:Ev; [|done]. cbn [ok_or].
  apply checked_add_Some in Ev as [-> Hve].
  destruct (_ || _) eqn:Hcan; [done|]. apply orb_false_iff in Hcan as [Hc1%negb_false_iff Hc2].
  unfold is_canonical_user in *. apply bool_decide_eq_true in Hc1.
  change (Z.shiftl 1 47) with (2 ^ 47) in *.
  destruct (decide (vaddr s < user_va_lo p ∨ _)) as [|Hw]; [done|].
  destruct (if reject_page_zero p then _ else _) as [[]|] eqn:Hpz; [|done].
  destruct (if decide (1 < align s) then _ else _) as [[]|] eqn:Hal; [|done].
  destruct (reject_write_execute p && _) eqn:Hwx; [done|]. intros _.
  constructor; [done|lia|lia|lia| | | |].
  - split; [done|]. destruct (decide (0 < memsz s)) as [Hpos|]; [|lia].
    rewrite bool_decide_true in Hc2 by done. cbn in Hc2. apply negb_false_iff, bool_decide_eq_true in Hc2. lia.
  - intros Hr Hpos. rewrite Hr in Hpz.
    destruct (Segment.page_span s (page_size p)) as [[first count]|] eqn:Es; [|done].
    destruct (decide (0 < count ∧ first = 0)) as [|Hz]; [done|]. apply page_span_Ok in Es as (Hps & -> & ->). rewrite decide_False in Hz by lia.
    pose proof (pages_end_gt (page_size p) (vaddr s) (memsz s) Hps Hpos) as Hgt.
    destruct (decide (vaddr s < page_size p)); [|lia]. rewrite Z.div_small in Hz, Hgt by lia. destruct Hz. lia.
  - intros Hal1. rewrite decide_True in Hal by done. destruct (is_power_of_two (align s)) eqn:Hpw; [|done].
    apply is_power_of_two_spec in Hpw as (k & _ & Ek). case_decide; [done|]. split; [by exists k|]. lia.
  - intros Hr Hwr. rewrite Hr in Hwx. unfold Perms.is_write_execute in Hwx. rewrite Hwr in Hwx. done.
Qed.

(** * Program headers *)

Definition phdr_at (bytes : list Z) (h : Elf64Header) (i : nat) : list Z :=
  let start := Z.to_nat (hd_phoff h + Z.of_nat i * ELF64_PHDR_SIZE) in slice start (start + 56) bytes.

Definition type_at (bytes : list Z) (h : Elf64Header) (i : nat) : Z := u32_at 0 (phdr_at bytes h i).

(** The segment a [PT_LOAD] header describes. *)
Definition load_at (bytes : list Z) (h : Elf64Header) (i : nat) : option LoadSegment :=
  let ph := phdr_at bytes h i in
  if decide (type_at bytes h i = PT_LOAD) then
    Some (MkSegment (u64_at 0x10 ph) (u64_at 0x28 ph) (u64_at 0x08 ph) (u64_at 0x20 ph) (u64_at 0x30 ph)
            (Perms.from_p_flags (u32_at 4 ph)))
  else None.

Definition loads (bytes : list Z) (h : Elf64Header) (n : nat) : list LoadSegment := omap (load_at bytes h) (seq 0 n).

Definition has_type (bytes : list Z) (h : Elf64Header) (t : Z) (n : nat) : bool :=
  existsb (λ i, bool_decide (type_at bytes h i = t)) (seq 0 n).

Lemma loads_S bytes h n : loads bytes h (S n) = loads bytes h n ++ option_list (load_at bytes h n).
Proof. unfold loads. rewrite seq_S, omap_app. simpl. by destruct (load_at bytes h n). Qed.

Lemma has_type_S bytes h t n :
  has_type bytes h t (S n) = has_type bytes h t n || bool_decide (type_at bytes h n = t).
Proof. unfold has_type. rewrite seq_S, existsb_app. simpl. by rewrite orb_false_r. Qed.

Lemma read_bytes_at n bytes o :
  (o + n ≤ length bytes)%nat → Z.of_nat (length bytes) < 2 ^ 64 →
  read_bytes n bytes (Z.of_nat o) = Ok (le_decode (slice o (o + n) bytes)).
Proof.
  intros H Hl. unfold read_bytes, checked_add. rewrite decide_True by lia. cbn [ok_or]. rewrite decide_False by lia.
  do 3 f_equal; lia.
Qed.

Lemma read_width n bytes o v : Forall is_byte bytes → read_bytes n bytes o = Ok v → in_width (8 * Z.of_nat n) v.
Proof.
  intros Hb. unfold read_bytes. destruct (checked_add _ _ _) as [e|] eqn:E; [|done]. apply checked_add_Some in E as [-> He].
  cbn [ok_or]. case_decide; [done|]. intros [= <-]. apply field_width; [done|]. lia.
Qed.

Record header_typed (h : Elf64Header) : Prop := {
  ht_entry : in_width 64 (hd_entry h);
  ht_phoff : in_width 64 (hd_phoff h);
  ht_phnum : in_width 16 (hd_phnum h);
  ht_phentsize : hd_phentsize h = ELF64_PHDR_SIZE;
}.

Lemma header_parse_Ok bytes h :
  Forall is_byte bytes → Header.parse bytes = Ok h →
  header_typed h ∧ slice 0 4 bytes = ELFMAG ∧ (64 ≤ length bytes)%nat.
Proof.
  intros Hb. unfold Header.parse. repeat (case_decide; [done|]). unfold read_u16, read_u32, read_u64.
  destruct (read_bytes 2 bytes 0x10) as [ty|]; [|done]. destruct (read_bytes 2 bytes 0x12); [|done].
  case_decide; [done|]. destruct (read_bytes 4 bytes 0x14); [|done]. case_decide; [done|].
  destruct (read_bytes 8 bytes 0x18) eqn:E1; [|done]. destruct (read_bytes 8 bytes 0x20) eqn:E2; [|done].
  destruct (read_bytes 2 bytes 0x36); [|done]. destruct (read_bytes 2 bytes 0x38) eqn:E3; [|done].
  case_decide as Hsz; [done|]. intros [= <-].
  apply read_width in E1, E2, E3; [|done..]. split; [by constructor|].
  split; [done|]. unfold ELF64_EHDR_SIZE in *. lia.
Qed.

(** One turn of the loop: the header is read and, if it is a [PT_LOAD], validated and kept. *)
Lemma parse_phdr_Ok bytes p h i st st' :
  Forall is_byte bytes → Z.of_nat (length bytes) < 2 ^ 64 → header_typed h →
  parse_phdr bytes p h i st = Ok st' →
  ps_interp st' = ps_interp st || bool_decide (type_at bytes h i = PT_INTERP) ∧
  ps_dynamic st' = ps_dynamic st || bool_decide (type_at bytes h i = PT_DYNAMIC) ∧
  match load_at bytes h i with
  | None => ps_segments st' = ps_segments st ∧ ps_count st' = ps_count st
  | Some s =>
      segment_ok (Z.of_nat (length bytes)) p s ∧ (ps_count st < max_segments p)%nat ∧
      (ps_count st < MAX_LOAD_SEGMENTS)%nat ∧
      ps_segments st' = <[ps_count st := s]> (ps_segments st) ∧ ps_count st' = S (ps_count st)
  end.
Proof.
  intros Hb Hlen [_ [Hpo _] _ Hsz]. unfold parse_phdr. rewrite Hsz.
  do 3 checked_op. unfold ELF64_PHDR_SIZE in *. case_decide as Hend; [done|]. cbv zeta.
  replace (slice _ _ bytes) with (phdr_at bytes h i).
  2: { unfold phdr_at, ELF64_PHDR_SIZE. f_equal. lia. }
  assert (length (phdr_at bytes h i) = 56)%nat as Hl.
  { unfold phdr_at, ELF64_PHDR_SIZE. rewrite length_slice by lia. lia. }
  assert (Forall is_byte (phdr_at bytes h i)) as Hpb by (by apply slice_bytes).
  unfold load_at, type_at. revert Hl Hpb. generalize (phdr_at bytes h i). intros ph Hl Hpb.
  unfold truncated, read_u32, read_u64.
  change 0 with (Z.of_nat 0); change 4 with (Z.of_nat 4); change 8 with (Z.of_nat 8);
    change 0x10 with (Z.of_nat 16); change 0x20 with (Z.of_nat 32); change 0x28 with (Z.of_nat 40);
    change 0x30 with (Z.of_nat 48).
  rewrite !read_bytes_at by lia. cbn [map_err].
  fold (u32_at 0 ph) (u32_at 4 ph) (u64_at 16 ph) (u64_at 40 ph) (u64_at 8 ph) (u64_at 32 ph) (u64_at 48 ph).
  set (seg := MkSegment _ _ _ _ _ _).
  assert (segment_typed seg) as Hty.
  { constructor; by apply (field_width 8). }
  destruct (decide (u32_at 0 ph = PT_INTERP)) as [->|Hi].
  { intros [= <-]. cbn. by rewrite orb_true_r, orb_false_r. }
  rewrite (bool_decide_false (u32_at 0 ph = PT_INTERP)), orb_false_r by done.
  destruct (decide (u32_at 0 ph = PT_DYNAMIC)) as [->|Hd].
  { intros [= <-]. cbn. by rewrite orb_true_r. }
  rewrite (bool_decide_false (u32_at 0 ph = PT_DYNAMIC)), orb_false_r by done.
  destruct (decide (u32_at 0 ph = PT_LOAD)) as [Hld|Hld].
  2: { rewrite decide_True by done. by intros [= <-]. }
  rewrite decide_False by tauto. destruct (validate_segment seg _ p) as [[]|] eqn:Ev; [|done].
  apply validate_segment_Ok in Ev; [|done]. case_decide; [done|]. intros [= <-]. cbn. split_and!; done || lia.
Qed.

Lemma parse_loop bytes p h st :
  Forall is_byte bytes → Z.of_nat (length bytes) < 2 ^ 64 → header_typed h →
  let n := Z.to_nat (hd_phnum h) in
  try_range 0 n (parse_phdr bytes p h) (MkParse (replicate MAX_LOAD_SEGMENTS Segment.default) 0 false false) = Ok st →
  take (ps_count st) (ps_segments st) = loads bytes h n ∧ length (loads bytes h n) = ps_count st ∧
  (ps_count st ≤ max_segments p)%nat ∧ (ps_count st ≤ MAX_LOAD_SEGMENTS)%nat ∧
  Forall (segment_ok (Z.of_nat (length bytes)) p) (loads bytes h n) ∧
  ps_interp st = has_type bytes h PT_INTERP n ∧ ps_dynamic st = has_type bytes h PT_DYNAMIC n.
Proof.
  intros Hb Hlen Hh n Hr.
  apply (try_range_inv (λ i st, take (ps_count st) (ps_segments st) = loads bytes h i ∧
    length (loads bytes h i) = ps_count st ∧ length (ps_segments st) = MAX_LOAD_SEGMENTS ∧
    (ps_count st ≤ max_segments p)%nat ∧ (ps_count st ≤ MAX_LOAD_SEGMENTS)%nat ∧
    Forall (segment_ok (Z.of_nat (length bytes)) p) (loads bytes h i) ∧
    ps_interp st = has_type bytes h PT_INTERP i ∧ ps_dynamic st = has_type bytes h PT_DYNAMIC i)) in Hr.
  - naive_solver.
  - lia.
  - cbn. split_and!; try done; lia.
  - intros i s s' _ (H1 & H2 & H3 & H4 & H5 & H6 & H7 & H8) E.
    apply parse_phdr_Ok in E as (E1 & E2 & E3); [|done..]. rewrite loads_S, !has_type_S, E1, E2, H7, H8.
    destruct (load_at bytes h i) as [seg|].
    + destruct E3 as (Hok & M1 & M2 & -> & ->). change (option_list (Some seg)) with [seg].
      rewrite length_app, length_insert. cbn [length].
      split_and!; [|lia|done|lia|lia|by apply Forall_app; split; [|constructor]|done|done].
      rewrite (take_S_r _ _ seg) by (apply list_lookup_insert_eq; lia). by rewrite take_insert_ge, H1 by lia.
    + destruct E3 as [-> ->]. change (option_list None) with (@nil LoadSegment). rewrite app_nil_r. split_and!; done.
Qed.

(** * The whole plan *)

(** The addresses of a segment. *)
Definition covers (s : LoadSegment) (a : Z) : Prop := vaddr s ≤ a < vaddr s + memsz s.

Definition apart_from (s s' : LoadSegment) : Prop := ∀ a, covers s a → covers s' a → False.

Lemma overlaps_later_Ok s e segs :
  e = vaddr s + memsz s → try_fold (overlaps_later s e) segs () = Ok () → Forall (apart_from s) segs.
Proof.
  intros ->. induction segs as [|s' segs IH]; simpl; [constructor|].
  destruct (overlaps_later s _ s' ()) as [[]|] eqn:E; [|done]. intros H%IH. constructor; [|done].
  revert E. unfold overlaps_later, apart_from, covers. case_decide; [lia|]. checked_op. case_decide; [done|]. lia.
Qed.

Lemma detect_overlaps_Ok segs :
  Forall (λ s, 0 ≤ memsz s) segs → detect_overlaps segs = Ok () → ForallOrdPairs apart_from segs.
Proof.
  intros Hm. induction Hm as [|s segs Hs Hm IH]; simpl; [constructor|].
  destruct (if decide (memsz s = 0) then _ else _) as [[]|] eqn:E; [|done]. intros H%IH. constructor; [|done].
  case_decide as Hz.
  - apply Forall_forall. intros s' _ a. unfold covers. lia.
  - revert E. checked_op. by apply overlaps_later_Ok.
Qed.

Lemma pairs_lookup {A} (R : A → A → Prop) l i j x y :
  ForallOrdPairs R l → (i < j)%nat → l !! i = Some x → l !! j = Some y → R x y.
Proof.
  intros Hl. revert i j. induction Hl as [|z l Hz Hl IH]; intros i j Hij Hi Hj; [done|].
  destruct j as [|j]; [lia|]. simpl in Hj. destruct i as [|i]; simpl in Hi.
  - injection Hi as ->. rewrite Forall_forall in Hz. apply Hz, list_elem_of_In. by eapply list_elem_of_lookup_2.
  - apply (IH i j); [lia|done|done].
Qed.

Lemma entry_in_executable_Ok e segs :
  entry_in_executable e segs = Ok () → ∃ s, s ∈ segs ∧ perm_execute (perms s) = true ∧ covers s e.
Proof.
  induction segs as [|s segs IH]; simpl; [done|]. destruct (_ || _) eqn:Hs.
  - intros (s' & ? & ?)%IH. exists s'. split; [by right|done].
  - apply orb_false_iff in Hs as [Hx%negb_false_iff _]. checked_op. case_decide as Hc.
    + intros _. exists s. split; [by left|]. split; [done|]. unfold covers. lia.
    + intros (s' & ? & ?)%IH. exists s'. split; [by right|done].
Qed.

(** What a file must satisfy beyond a readable header. *)
Record acceptable (bytes : list Z) (p : LoadPlanPolicy) (h : Elf64Header) : Prop := {
  ac_type : Policy.allows_e_type p (hd_type h) = true;
  ac_table : hd_phoff h + hd_phnum h * ELF64_PHDR_SIZE ≤ Z.of_nat (length bytes);
  ac_aligned : hd_phoff h mod 8 = 0;
  ac_count : let n := length (loads bytes h (Z.to_nat (hd_phnum h))) in
             (1 ≤ n ≤ Nat.min (max_segments p) MAX_LOAD_SEGMENTS)%nat;
  ac_segments : Forall (segment_ok (Z.of_nat (length bytes)) p) (loads bytes h (Z.to_nat (hd_phnum h)));
  ac_apart : ForallOrdPairs apart_from (loads bytes h (Z.to_nat (hd_phnum h)));
  ac_entry : ∃ s, s ∈ loads bytes h (Z.to_nat (hd_phnum h)) ∧ perm_execute (perms s) = true ∧
                  covers s (hd_entry h);
}.

(** The policies of the source are of this kind. *)
Record policy_ok (p : LoadPlanPolicy) : Prop := {
  po_page : ∃ k, 0 ≤ k ≤ 63 ∧ page_size p = 2 ^ k;
  po_window : user_va_lo p < user_va_hi p;
}.

Lemma parse_load_plan_Ok bytes p plan :
  Forall is_byte bytes → Z.of_nat (length bytes) < 2 ^ 64 → parse_load_plan bytes p = Ok plan →
  ∃ h, Header.parse bytes = Ok h ∧ acceptable bytes p h ∧ entry plan = hd_entry h ∧ e_type plan = hd_type h ∧
    Plan.iter_segments plan = loads bytes h (Z.to_nat (hd_phnum h)).
Proof.
  intros Hb Hlen. unfold parse_load_plan. do 2 (case_decide; [done|]).
  destruct (Header.parse bytes) as [h|] eqn:Eh; [|done].
  destruct (header_parse_Ok _ _ Hb Eh) as (Hh & Hmag & _). pose proof (ht_phentsize h Hh) as Hsz.
  destruct (negb (Policy.allows_e_type p (hd_type h))) eqn:Ety; [done|]. apply negb_false_iff in Ety.
  do 2 checked_op. do 2 (case_decide; [done|]).
  destruct (try_range _ _ _ _) as [st|] eqn:Er; [|done]. apply parse_loop in Er; [|done..].
  destruct Er as (L1 & L2 & L3 & L4 & L5 & _ & _). case_decide as Hz; [done|].
  destruct (detect_overlaps _) as [[]|] eqn:Eo; [|done]. unfold validate_entry_in_executable, Plan.iter_segments.
  cbn [entry segment_count segments]. rewrite L1 in *.
  destruct (entry_in_executable _ _) as [[]|] eqn:Ee; [|done]. intros [= <-].
  cbn [e_type entry segment_count segments]. rewrite L1. exists h. split_and!; try done.
  apply detect_overlaps_Ok in Eo; [|by eapply Forall_impl; [|exact L5]; intros ? [[_ [? _] _ _ _]]].
  constructor; try done; [rewrite <- Hsz; lia|cbv zeta; lia|by apply entry_in_executable_Ok].
Qed.

(** ** Nothing else is refused *)

Lemma page_span_value s k :
  0 ≤ k ≤ 63 → 0 ≤ vaddr s → 0 ≤ memsz s → vaddr s + memsz s ≤ 2 ^ 47 →
  Segment.page_span s (2 ^ k) =
    Ok (2 ^ k * (vaddr s / 2 ^ k),
        if decide (memsz s = 0) then 0 else pages_end (2 ^ k) (vaddr s) (memsz s) - vaddr s / 2 ^ k).
Proof.
  intros Hk Hv Hm He. assert (0 ≤ k) as Hk0 by lia. pose proof (pow_pos k Hk0) as Hpos.
  assert (2 ^ k ≤ 2 ^ 63) as Hk63 by (apply Z.pow_le_mono_r; lia).
  assert (is_power_of_two (2 ^ k) = true) as Ht by (apply is_power_of_two_spec; eauto).
  unfold Segment.page_span. rewrite Ht, decide_False by (intros [?|?]; [lia|done]).
  rewrite align_down_pow by done. case_decide; [done|].
  unfold checked_add. rewrite decide_True by lia. cbn [ok_or].
  pose proof (Z.mul_div_le (vaddr s + memsz s + 2 ^ k - 1) (2 ^ k) Hpos) as Hle.
  rewrite align_up_pow by lia. fold (pages_end (2 ^ k) (vaddr s) (memsz s)).
  pose proof (pages_end_gt (2 ^ k) (vaddr s) (memsz s) Hpos ltac:(lia)).
  unfold checked_sub. rewrite decide_True by nia. cbn [ok_or]. do 2 f_equal.
  rewrite <- Z.mul_sub_distr_l, Z.mul_comm, Z.div_mul by lia. done.
Qed.

Lemma validate_segment_complete s len p :
  policy_ok p → len < 2 ^ 64 → segment_ok len p s → validate_segment s len p = Ok ().
Proof.
  intros [(k & Hk & Ek) _] Hlen [[[Hv _] [Hm _] [Ho _] [Hf _] _] Hsz Hfile Hwin Hcan Hpz Hal Hwx].
  unfold validate_segment, Segment.file_range. rewrite decide_False by lia.
  unfold checked_add. rewrite decide_True by lia. cbn [ok_or]. rewrite decide_False by lia.
  rewrite decide_True by lia. cbn [ok_or]. unfold is_canonical_user. change (Z.shiftl 1 47) with (2 ^ 47).
  rewrite (bool_decide_true (vaddr s < 2 ^ 47)) by lia.
  rewrite (bool_decide_true (vaddr s + memsz s - 1 < 2 ^ 47)) by lia. rewrite andb_false_r. cbn [negb orb].
  rewrite (decide_False (P := vaddr s < user_va_lo p ∨ _)) by lia.
  rewrite Ek, page_span_value by lia. rewrite Ek in Hpz. pose proof (pow_pos k ltac:(lia)) as Hpos.
  assert ((if reject_page_zero p
    then if decide (0 < (if decide (memsz s = 0) then 0 else pages_end (2 ^ k) (vaddr s) (memsz s) - vaddr s / 2 ^ k) ∧
                    2 ^ k * (vaddr s / 2 ^ k) = 0) then Err PageZero else Ok () else Ok ()) = Ok () :> result LoadPlanError unit) as ->.
  { destruct (reject_page_zero p); [|done]. destruct (decide (memsz s = 0)); [by rewrite decide_False by lia|].
    rewrite decide_False; [done|]. intros [_ Hz]. specialize (Hpz eq_refl ltac:(lia)).
    assert (1 ≤ vaddr s / 2 ^ k) by (apply Z.div_le_lower_bound; lia). nia. }
  destruct (decide (1 < align s)) as [H1|].
  - destruct (Hal H1) as [[j Hj] Hc]. assert (is_power_of_two (align s) = true) as ->.
    { apply is_power_of_two_spec. exists j. split; [|done]. destruct (decide (0 ≤ j)); [done|].
      rewrite Z.pow_neg_r in Hj by lia. lia. }
    rewrite decide_False by tauto. unfold Perms.is_write_execute.
    destruct (reject_write_execute p), (perm_write (perms s)) eqn:Ew; try done. by rewrite Hwx.
  - unfold Perms.is_write_execute. destruct (reject_write_execute p), (perm_write (perms s)) eqn:Ew; try done.
    by rewrite Hwx.
Qed.

Lemma detect_overlaps_complete segs :
  Forall (λ s, 0 ≤ vaddr s ∧ 0 ≤ memsz s ∧ vaddr s + memsz s ≤ 2 ^ 47) segs → ForallOrdPairs apart_from segs →
  detect_overlaps segs = Ok ().
Proof.
  intros Hb Hp. induction Hp as [|s segs Hs Hp IH]; [done|]. apply Forall_cons_1 in Hb as [Hbs Hb]. cbn [detect_overlaps].
  rewrite IH by done. case_decide as Hz; [done|]. unfold checked_add. rewrite decide_True by lia. cbn [ok_or].
  assert (try_fold (overlaps_later s (vaddr s + memsz s)) segs () = Ok ()) as ->; [|done].
  clear IH Hp. induction Hs as [|s' segs Hs' Hs IH]; [done|]. apply Forall_cons_1 in Hb as [Hbs' Hb]. cbn [try_fold].
  unfold overlaps_later at 1. case_decide as Hz'; [by apply IH|]. unfold checked_add. rewrite decide_True by lia. cbn [ok_or].
  rewrite decide_False; [by apply IH|]. intros Hov.
  unfold apart_from, covers in Hs'. apply (Hs' (Z.max (vaddr s) (vaddr s'))); lia.
Qed.

Lemma entry_in_executable_complete e segs :
  Forall (λ s, 0 ≤ vaddr s ∧ 0 ≤ memsz s ∧ vaddr s + memsz s ≤ 2 ^ 47) segs →
  (∃ s, s ∈ segs ∧ perm_execute (perms s) = true ∧ covers s e) → entry_in_executable e segs = Ok ().
Proof.
  intros Hb (s & Hs & Hx & Hc). induction Hb as [|s' segs Hs' Hb IH]; [by apply elem_of_nil in Hs|].
  cbn [entry_in_executable]. destruct (_ || _) eqn:Hskip.
  - apply elem_of_cons in Hs as [->|Hs]; [|by apply IH]. rewrite Hx in Hskip. unfold covers in Hc. cbn in Hskip.
    apply bool_decide_eq_true in Hskip. lia.
  - unfold checked_add. rewrite decide_True by lia. cbn [ok_or]. destruct (decide (vaddr s' ≤ e < _)) as [|Hin]; [done|].
    apply elem_of_cons in Hs as [->|Hs]; [|by apply IH]. unfold covers in Hc. lia.
Qed.

Lemma parse_phdr_total bytes p h i st :
  Forall is_byte bytes → Z.of_nat (length bytes) < 2 ^ 64 → header_typed h → policy_ok p →
  hd_phoff h + (Z.of_nat i + 1) * ELF64_PHDR_SIZE ≤ Z.of_nat (length bytes) →
  (∀ s, load_at bytes h i = Some s → segment_ok (Z.of_nat (length bytes)) p s ∧
     (ps_count st < max_segments p)%nat ∧ (ps_count st < MAX_LOAD_SEGMENTS)%nat) →
  ∃ st', parse_phdr bytes p h i st = Ok st'.
Proof.
  intros Hb Hlen [_ [Hpo _] _ Hsz] Hp Hin Hload. unfold parse_phdr. rewrite Hsz. unfold ELF64_PHDR_SIZE in *.
  unfold checked_mul, checked_add. do 3 (rewrite decide_True by lia; cbn [ok_or]). rewrite decide_False by lia.
  cbv zeta. replace (slice _ _ bytes) with (phdr_at bytes h i).
  2: { unfold phdr_at, ELF64_PHDR_SIZE. f_equal. lia. }
  assert (length (phdr_at bytes h i) = 56)%nat as Hl.
  { unfold phdr_at, ELF64_PHDR_SIZE. rewrite length_slice by lia. lia. }
  unfold load_at, type_at in Hload. revert Hload Hl. generalize (phdr_at bytes h i). intros ph Hload Hl.
  unfold truncated, read_u32, read_u64.
  change 0 with (Z.of_nat 0); change 4 with (Z.of_nat 4); change 8 with (Z.of_nat 8);
    change 0x10 with (Z.of_nat 16); change 0x20 with (Z.of_nat 32); change 0x28 with (Z.of_nat 40);
    change 0x30 with (Z.of_nat 48).
  rewrite !read_bytes_at by lia. cbn [map_err].
  fold (u32_at 0 ph) (u32_at 4 ph) (u64_at 16 ph) (u64_at 40 ph) (u64_at 8 ph) (u64_at 32 ph) (u64_at 48 ph).
  destruct (decide (u32_at 0 ph = PT_INTERP)); [by eexists|].
  destruct (decide (u32_at 0 ph = PT_DYNAMIC)); [by eexists|].
  destruct (decide (u32_at 0 ph = PT_LOAD)) as [Hld|Hld].
  2: { rewrite decide_True by done. by eexists. }
  rewrite decide_False by tauto. destruct (Hload _ eq_refl) as (Hok & M1 & M2).
  rewrite (validate_segment_complete _ _ p Hp Hlen Hok). rewrite decide_False by lia. by eexists.
Qed.

Lemma loads_length_le bytes h i n : (i ≤ n)%nat → (length (loads bytes h i) ≤ length (loads bytes h n))%nat.
Proof. intros H. induction H as [|n _ IH]; [done|]. rewrite loads_S, length_app. lia. Qed.

Lemma load_at_elem bytes h i n s : (i < n)%nat → load_at bytes h i = Some s → s ∈ loads bytes h n.
Proof. intros Hi Hs. apply list_elem_of_omap. exists i. split; [apply elem_of_seq; lia|done]. Qed.

Lemma parse_load_plan_complete bytes p h :
  Forall is_byte bytes → Z.of_nat (length bytes) < 2 ^ 64 → policy_ok p →
  Header.parse bytes = Ok h → acceptable bytes p h → ∃ plan, parse_load_plan bytes p = Ok plan.
Proof.
  intros Hb Hlen Hp Eh [Hty Htab Hal Hcnt Hsegs Hap Hent].
  destruct (header_parse_Ok _ _ Hb Eh) as (Hh & _ & _). pose proof Hh as [_ [Hpo _] [Hpn _] Hsz].
  unfold parse_load_plan. pose proof Hp as [(k & Hk & Ek) Hwin]. pose proof (pow_pos k ltac:(lia)) as Hpos.
  assert (is_power_of_two (page_size p) = true) as Hpow by (apply is_power_of_two_spec; exists k; split; [lia|done]).
  rewrite decide_False by (rewrite Hpow; intros [?|?]; [lia|done]). rewrite decide_False by lia.
  rewrite Eh, Hty. cbn [negb]. rewrite Hsz. unfold checked_mul, checked_add, ELF64_PHDR_SIZE in *.
  do 2 (rewrite decide_True by lia; cbn [ok_or]). do 2 rewrite decide_False by (lia || tauto).
  set (n := Z.to_nat (hd_phnum h)) in *.
  destruct (try_range_ind (λ i st, take (ps_count st) (ps_segments st) = loads bytes h i ∧
    length (loads bytes h i) = ps_count st ∧ length (ps_segments st) = MAX_LOAD_SEGMENTS)
    (parse_phdr bytes p h) 0 n (MkParse (replicate MAX_LOAD_SEGMENTS Segment.default) 0 false false))
    as (st & -> & L1 & L2 & _); [lia|done| |].
  - intros i s Hi (L1 & L2 & L3). destruct (parse_phdr_total bytes p h i s) as [st' E]; [done..| | |].
    + unfold ELF64_PHDR_SIZE. lia.
    + intros seg Hseg. rewrite Forall_forall in Hsegs. pose proof (loads_length_le bytes h (S i) n ltac:(lia)) as Hle.
      rewrite loads_S, length_app, Hseg in Hle. change (option_list (Some seg)) with [seg] in Hle. cbn in Hle.
      split; [|lia]. apply Hsegs, list_elem_of_In. eapply load_at_elem; [|done]. lia.
    + exists st'. split; [done|]. apply parse_phdr_Ok in E as (_ & _ & E); [|done..]. rewrite loads_S.
      destruct (load_at bytes h i) as [seg|].
      * destruct E as (_ & M1 & M2 & -> & ->). change (option_list (Some seg)) with [seg].
        rewrite length_app, length_insert. split_and!; [|simpl; lia|done].
        rewrite (take_S_r _ _ seg) by (apply list_lookup_insert_eq; lia). by rewrite take_insert_ge, L1 by lia.
      * destruct E as [-> ->]. change (option_list None) with (@nil LoadSegment). by rewrite app_nil_r.
  - rewrite decide_False by (cbv zeta in Hcnt; lia).
    assert (Forall (λ s, 0 ≤ vaddr s ∧ 0 ≤ memsz s ∧ vaddr s + memsz s ≤ 2 ^ 47) (loads bytes h n)) as Hbnd.
    { eapply Forall_impl; [|exact Hsegs]. intros s [[[? _] [? _] _ _ _] _ _ _ [_ ?] _ _ _]. lia. }
    rewrite L1, detect_overlaps_complete by done.
    unfold validate_entry_in_executable, Plan.iter_segments. cbn [entry segment_count segments].
    rewrite L1, entry_in_executable_complete by done. by eexists.
Qed.

(** C14: What is loaded was validated, and nothing valid is refused. If [parse_load_plan] accepts a
    file, the segments of the plan are exactly the [PT_LOAD] program headers of the file, in
    order: at most sixteen and within the policy's budget. Each has its file bytes inside the
    file, its addresses inside the policy's window and the canonical user half, its offset
    congruent to its address, keeps off page zero and is not both writable and executable
    where the policy says so. No address belongs to two segments, and the entry point lies in
    an executable one. A file with a readable header that satisfies all this is accepted. *)
Theorem load_plan_valid bytes p :
  Forall is_byte bytes → Z.of_nat (length bytes) < 2 ^ 64 → policy_ok p →
  (∀ plan, parse_load_plan bytes p = Ok plan →
     ∃ h, Header.parse bytes = Ok h ∧ acceptable bytes p h ∧ entry plan = hd_entry h ∧
       e_type plan = hd_type h ∧ Plan.iter_segments plan = loads bytes h (Z.to_nat (hd_phnum h)) ∧
       (∀ i j s s' a, Plan.iter_segments plan !! i = Some s → Plan.iter_segments plan !! j = Some s' →
          covers s a → covers s' a → i = j)) ∧
  (∀ h, Header.parse bytes = Ok h → acceptable bytes p h → ∃ plan, parse_load_plan bytes p = Ok plan).
Proof.
  intros Hb Hlen Hp. split; [|by intros; eapply parse_load_plan_complete].
  intros plan (h & E & Hac & E1 & E2 & E3)%parse_load_plan_Ok; [|done..]. exists h. split_and!; try done.
  intros i j s s' a Hi Hj Ha Ha'. rewrite E3 in *. destruct Hac as [_ _ _ _ _ Hap _].
  destruct (lt_eq_lt_dec i j) as [[Hij|]|Hij]; [|done|]; exfalso.
  - exact (pairs_lookup _ _ _ _ _ _ Hap Hij Hi Hj a Ha Ha').
  - exact (pairs_lookup _ _ _ _ _ _ Hap Hij Hj Hi a Ha' Ha).
Qed.

(** * A small program *)

(** Text and data: the data segment has four bytes in the file and a zero-filled tail that runs
    into a second page. *)
Module Hello.
Definition phdr (flags offset va size mem : Z) : list Z :=
  le_encode 4 PT_LOAD ++ le_encode 4 flags ++ le_encode 8 offset ++ le_encode 8 va ++ le_encode 8 va ++
  le_encode 8 size ++ le_encode 8 mem ++ le_encode 8 4096.

Definition file : list Z :=
  ELFMAG ++ [2; 1; 1; 0] ++ replicate 8 0 ++ le_encode 2 ET_EXEC ++ le_encode 2 EM_X86_64 ++ le_encode 4 1 ++
  le_encode 8 0x400064 ++ le_encode 8 64 ++ le_encode 8 0 ++ le_encode 4 0 ++ le_encode 2 64 ++ le_encode 2 56 ++
  le_encode 2 2 ++ le_encode 2 0 ++ le_encode 2 0 ++ le_encode 2 0 ++
  phdr 5 0 0x400000 176 176 ++ phdr 6 176 0x4020b0 4 0x1800 ++ [1; 2; 3; 4].

Definition plan : LoadPlan :=
  match parse_load_plan file Policy.linux_conventional_x86_64 with
  | Ok p => p
  | Err _ => MkPlan 0 None 0 0 0 [] 0 false false 0
  end.

Lemma file_bytes : Forall is_byte file.
Proof. repeat (apply Forall_app; split); auto with cs; repeat constructor; by vm_compute. Qed.

Lemma file_len : Z.of_nat (length file) < 2 ^ 64.
Proof. by vm_compute. Qed.

Lemma policy_is_ok : policy_ok Policy.linux_conventional_x86_64.
Proof. constructor; [by exists 12|by vm_compute]. Qed.

Lemma parsed : parse_load_plan file Policy.linux_conventional_x86_64 = Ok plan.
Proof. by vm_compute. Qed.
End Hello.

Lemma load_plan_valid_witness :
  ∃ h, Header.parse Hello.file = Ok h ∧ acceptable Hello.file Policy.linux_conventional_x86_64 h ∧
    entry Hello.plan = hd_entry h ∧ e_type Hello.plan = hd_type h ∧
    Plan.iter_segments Hello.plan = loads Hello.file h (Z.to_nat (hd_phnum h)) ∧
    (∀ i j s s' a, Plan.iter_segments Hello.plan !! i = Some s → Plan.iter_segments Hello.plan !! j = Some s' →
       covers s a → covers s' a → i = j).
Proof.
  destruct (load_plan_valid Hello.file Policy.linux_conventional_x86_64 Hello.file_bytes Hello.file_len
              Hello.policy_is_ok) as [H _].
  exact (H Hello.plan Hello.parsed).
Defined.
