(* ===== verification/ElfPages.v ===== *)
(** The page demand of a load plan ([total_mapped_pages] of [elf/src/plan.rs]) against the set of
    pages it touches. *)

From Stdlib Require Import ZArith Lia.
From stdpp Require Import base list sorting sets gmap tactics decidable numbers.
From S2P Require Import Prelude Bytes Elf ElfPlan.

Local Open Scope Z_scope.

(** * Unions of intervals *)

Definition interval (a b : Z) : gset Z := list_to_set (seqZ a (b - a)).

Definition union_of (l : list (Z * Z)) : gset Z := ⋃ ((λ ab, interval (fst ab) (snd ab)) <$> l).

Lemma elem_of_interval a b x : x ∈ interval a b ↔ a ≤ x < b.
Proof. unfold interval. rewrite elem_of_list_to_set, elem_of_seqZ. lia. Qed.

Lemma size_interval a b : a ≤ b → Z.of_nat (size (interval a b)) = b - a.
Proof.
  intros H. unfold interval. rewrite size_list_to_set by apply NoDup_seqZ. rewrite length_seqZ. lia.
Qed.

Lemma elem_of_union_of l x : x ∈ union_of l ↔ ∃ ab, ab ∈ l ∧ fst ab ≤ x < snd ab.
Proof.
  unfold union_of. rewrite elem_of_union_list. setoid_rewrite list_elem_of_fmap. split.
  - intros (X & (ab & -> & Hab) & Hx%elem_of_interval). eauto.
  - intros (ab & Hab & Hx). exists (interval (fst ab) (snd ab)). rewrite elem_of_interval. eauto.
Qed.

(** Swallow the intervals that start before [e]. *)
Fixpoint swallow (e : Z) (l : list (Z * Z)) : Z * list (Z * Z) :=
  match l with
  | (s', e') :: l' => if decide (s' < e) then swallow (Z.max e e') l' else (e, l)
  | [] => (e, [])
  end.

Fixpoint measure (s e : Z) (l : list (Z * Z)) : Z :=
  match l with
  | [] => e - s
  | (s', e') :: l => if decide (s' < e) then measure s (Z.max e e') l else e - s + measure s' e' l
  end.

Definition starts_le (a b : Z * Z) : Prop := fst a ≤ fst b.

#[export] Instance starts_le_trans : Transitive starts_le.
Proof. unfold starts_le. intros ?????. lia. Qed.

Lemma size_measure s e l :
  s ≤ e → Forall (λ ab, s ≤ fst ab ∧ fst ab ≤ snd ab) l → StronglySorted starts_le l →
  Z.of_nat (size (interval s e ∪ union_of l)) = measure s e l.
Proof.
  revert s e. induction l as [|[s' e'] l IH]; intros s e Hse Hl Hs; cbn [measure].
  { change (union_of []) with (∅ : gset Z). rewrite union_empty_r_L. by apply size_interval. }
  apply Forall_cons_1 in Hl as [[Hs1 Hs2] Hl]. cbn [fst snd] in *. apply StronglySorted_inv in Hs as [Hs Hall].
  assert (union_of ((s', e') :: l) = interval s' e' ∪ union_of l) as -> by done. case_decide as Hlt.
  - rewrite <- IH; [|lia|done|done]. do 2 f_equal. apply set_eq. intros x.
    rewrite !elem_of_union, !elem_of_interval.
    assert (s ≤ x < e ∨ s' ≤ x < e' ↔ s ≤ x < Z.max e e') by lia. tauto.
  - rewrite size_union.
    + rewrite Nat2Z.inj_add, size_interval by done. rewrite IH; [done|done| |done].
      rewrite Forall_forall in Hl, Hall |- *. intros ab Hab. specialize (Hl ab Hab). specialize (Hall ab Hab).
      unfold starts_le in Hall. cbn in Hall. lia.
    + intros x. rewrite elem_of_union, !elem_of_interval, elem_of_union_of. intros Hx [Hx'|(ab & Hab & Hx')]; [lia|].
      rewrite Forall_forall in Hall. specialize (Hall ab ltac:(by apply list_elem_of_In)). unfold starts_le in Hall.
      cbn in Hall. lia.
Qed.

Lemma measure_swallow s e l :
  measure s e l = (fst (swallow e l) - s) + match snd (swallow e l) with [] => 0 | (s2, e2) :: l2 => measure s2 e2 l2 end.
Proof.
  revert e. induction l as [|[s' e'] l IH]; intros e; cbn [measure swallow]; [cbn; lia|].
  case_decide; [apply IH|]. cbn. lia.
Qed.

Lemma measure_nonneg s e l :
  s ≤ e → Forall (λ ab, fst ab ≤ snd ab) l → 0 ≤ measure s e l.
Proof.
  revert s e. induction l as [|[s' e'] l IH]; intros s e Hse Hl; cbn [measure]; [lia|].
  apply Forall_cons_1 in Hl as [Hs1 Hl]. cbn in Hs1. case_decide; [apply IH; [lia|done]|].
  specialize (IH s' e' Hs1 Hl). lia.
Qed.

(** * Sorting *)

Lemma swap_app (pre post : list (Z * Z)) x y :
  Plan.swap (length pre) (S (length pre)) (pre ++ y :: x :: post) = pre ++ x :: y :: post.
Proof.
  unfold Plan.swap. rewrite !insert_app_r_alt by lia.
  replace (S (length pre) - length pre)%nat with 1%nat by lia. rewrite Nat.sub_diag.
  rewrite nth_middle. rewrite app_nth2 by lia. replace (S (length pre) - length pre)%nat with 1%nat by lia. done.
Qed.

Lemma sorted_snoc (l : list (Z * Z)) x :
  StronglySorted starts_le l → Forall (λ y, starts_le y x) l → StronglySorted starts_le (l ++ [x]).
Proof.
  intros Hs Hl. apply StronglySorted_app. split_and!; [|done|by repeat constructor].
  intros a b Ha Hb%list_elem_of_singleton. subst. rewrite Forall_forall in Hl. by apply Hl, list_elem_of_In.
Qed.

(** One pass of the insertion sort. *)
Lemma sift_spec pre x post :
  StronglySorted starts_le pre →
  ∃ mid, Plan.sift (length pre) (pre ++ x :: post) = mid ++ post ∧ mid ≡ₚ pre ++ [x] ∧ StronglySorted starts_le mid.
Proof.
  revert x post. induction pre as [|y pre IH] using rev_ind; intros x post Hs.
  { exists [x]. split_and!; [done|done|by repeat constructor]. }
  apply StronglySorted_app in Hs as (Hy & Hs & _).
  assert (Forall (λ z, starts_le z y) pre) as Hpy.
  { apply Forall_forall. intros z Hz%list_elem_of_In. apply Hy; [done|by apply list_elem_of_singleton]. }
  rewrite length_app. cbn [length]. rewrite Nat.add_1_r, <- app_assoc. cbn [Plan.sift app].
  rewrite nth_middle. rewrite app_nth2 by lia. replace (S (length pre) - length pre)%nat with 1%nat by lia. cbn [nth].
  case_decide as Hlt.
  - rewrite swap_app. destruct (IH x (y :: post) Hs) as (mid & -> & Hp & Hm). exists (mid ++ [y]).
    rewrite <- app_assoc. split_and!; [done|by rewrite Hp, <- !app_assoc, (Permutation_app_comm [x])|].
    apply sorted_snoc; [done|]. rewrite Hp. apply Forall_app. split; [done|]. constructor; [|done]. unfold starts_le. lia.
  - exists (pre ++ [y] ++ [x]). rewrite <- !app_assoc. split_and!; [done|done|]. rewrite app_assoc.
    apply sorted_snoc; [by apply sorted_snoc|]. unfold starts_le in *. apply Forall_app. split; [|by constructor; [lia|]].
    eapply Forall_impl; [|exact Hpy]. cbn. lia.
Qed.

Lemma insertion_sort spans n :
  (n ≤ length spans)%nat →
  ∃ sorted, for_range 1 n Plan.sift spans = sorted ++ drop n spans ∧ length sorted = n ∧
    sorted ≡ₚ take n spans ∧ StronglySorted starts_le sorted.
Proof.
  intros Hn. destruct n as [|n].
  { exists []. unfold for_range. cbn. split_and!; [by rewrite drop_0|done|done|constructor]. }
  apply (for_range_ind (λ i s, ∃ sorted, s = sorted ++ drop i spans ∧ length sorted = i ∧
    sorted ≡ₚ take i spans ∧ StronglySorted starts_le sorted)).
  - lia.
  - exists (take 1 spans). rewrite length_take. split_and!; [by rewrite take_drop|lia|done|].
    destruct spans; cbn; repeat constructor.
  - intros i s Hi (sorted & -> & Hl & Hp & Hs).
    destruct (lookup_lt_is_Some_2 spans i) as [x Hx]; [lia|]. rewrite (drop_S _ x) by done.
    destruct (sift_spec sorted x (drop (S i) spans) Hs) as (mid & Em & Hpm & Hsm). rewrite Hl in Em.
    exists mid. split_and!; [done| | |done].
    + rewrite Hpm, length_app. simpl. lia.
    + rewrite Hpm, Hp. by rewrite (take_S_r _ _ x) by done.
Qed.

(** * The loops of [total_mapped_pages] *)

(** Page numbers as byte addresses. *)
Definition scaled (ps : Z) (l : list (Z * Z)) : list (Z * Z) := (λ ab, (ps * fst ab, ps * snd ab)) <$> l.

Section pages.
Context (ps : Z) (Hps : 0 < ps).

Lemma absorb_swallow fuel spans n i e l :
  (length l ≤ fuel)%nat → drop i (take n spans) = scaled ps l → (i ≤ n ≤ length spans)%nat →
  ∃ j, Plan.absorb fuel spans n i (ps * e) = (j, ps * fst (swallow e l)) ∧ (i ≤ j ≤ n)%nat ∧
    drop j (take n spans) = scaled ps (snd (swallow e l)).
Proof.
  revert fuel i e. induction l as [|[s' e'] l IH]; intros fuel i e Hf Hd Hn; cbn [swallow].
  - assert (i = n) as ->.
    { apply (f_equal length) in Hd. rewrite length_drop, length_take in Hd. simpl in Hd. lia. }
    exists n. split; [|done]. destruct fuel; cbn [Plan.absorb]; [done|]. by rewrite decide_False by lia.
  - destruct fuel as [|fuel]; [simpl in Hf; lia|]. cbn [Plan.absorb].
    assert ((take n spans) !! i = Some (ps * s', ps * e')) as Hi.
    { rewrite <- (Nat.add_0_r i), <- lookup_drop, Hd. done. }
    assert (i < n)%nat by (apply lookup_lt_Some in Hi; rewrite length_take in Hi; lia).
    rewrite lookup_take_lt in Hi by done. rewrite decide_True by done. rewrite (nth_lookup_Some _ _ _ _ Hi).
    assert (drop (S i) (take n spans) = scaled ps l) as Hd'.
    { rewrite <- Nat.add_1_r, <- drop_drop, Hd. done. }
    destruct (decide (s' < e)) as [Hlt|Hlt].
    + rewrite decide_True by nia. replace (Z.max (ps * e) (ps * e')) with (ps * Z.max e e') by nia.
      destruct (IH fuel (S i) (Z.max e e')) as (j & -> & Hj & Hdj); [simpl in Hf; lia|done|lia|].
      exists j. split_and!; [done|lia|lia|done].
    + rewrite decide_False by nia. exists i. split_and!; [done|lia|lia|done].
Qed.

Lemma swallow_props e l :
  e ≤ fst (swallow e l) ∧ (length (snd (swallow e l)) ≤ length l)%nat ∧
  (∀ P : Z * Z → Prop, Forall P l → Forall P (snd (swallow e l))).
Proof.
  revert e. induction l as [|[s' e'] l IH]; intros e; cbn [swallow]; [split_and!; [done|done|by auto]|].
  case_decide; [|split_and!; [done|done|by auto]].
  destruct (IH (Z.max e e')) as (H1 & H2 & H3). split_and!; [lia|simpl; lia|].
  intros P HP. apply Forall_cons_1 in HP as [_ HP]. auto.
Qed.

Definition measure_of (l : list (Z * Z)) : Z := match l with [] => 0 | (s, e) :: l => measure s e l end.

Lemma merge_spans_measure fuel spans n i l total :
  (length l ≤ fuel)%nat → drop i (take n spans) = scaled ps l → (i ≤ n ≤ length spans)%nat →
  Forall (λ ab, fst ab ≤ snd ab) l → 0 ≤ total → total + measure_of l < 2 ^ 64 →
  Plan.merge_spans fuel ps spans n i total = Ok (total + measure_of l).
Proof.
  revert i l total. induction fuel as [|fuel IH]; intros i l total Hf Hd Hn Hle Ht Hmax.
  { destruct l; [|simpl in Hf; lia]. simpl. f_equal. lia. }
  cbn [Plan.merge_spans]. destruct l as [|[s e] l].
  { assert (i = n) as ->.
    { apply (f_equal length) in Hd. rewrite length_drop, length_take in Hd. simpl in Hd. lia. }
    rewrite decide_False by lia. simpl. f_equal. lia. }
  assert ((take n spans) !! i = Some (ps * s, ps * e)) as Hi.
  { rewrite <- (Nat.add_0_r i), <- lookup_drop, Hd. done. }
  assert (i < n)%nat by (apply lookup_lt_Some in Hi; rewrite length_take in Hi; lia).
  rewrite lookup_take_lt in Hi by done. rewrite decide_True by done. rewrite (nth_lookup_Some _ _ _ _ Hi).
  assert (drop (S i) (take n spans) = scaled ps l) as Hd'.
  { rewrite <- Nat.add_1_r, <- drop_drop, Hd. done. }
  assert (length l ≤ n)%nat as Hln.
  { apply (f_equal length) in Hd'. unfold scaled in Hd'. rewrite length_drop, length_take, length_fmap in Hd'. lia. }
  destruct (absorb_swallow n spans n (S i) e l Hln Hd') as (j & -> & Hj & Hdj); [lia|].
  apply Forall_cons_1 in Hle as [Hse Hle]. cbn in Hse.
  destruct (swallow_props e l) as (P1 & P2 & P3). cbn [measure_of] in *. rewrite measure_swallow in Hmax |- *.
  fold (measure_of (snd (swallow e l))) in *. set (e2 := fst (swallow e l)) in *. set (l2 := snd (swallow e l)) in *.
  assert (0 ≤ measure_of l2) as Hnn.
  { pose proof (P3 _ Hle) as Hl2. destruct l2 as [|[s2 e2'] l2]; [done|]. cbn. apply Forall_cons_1 in Hl2 as [? ?].
    by apply measure_nonneg. }
  unfold checked_sub. rewrite decide_True by nia. cbn [ok_or].
  rewrite <- Z.mul_sub_distr_l, Z.mul_comm, Z.div_mul by lia. unfold checked_add. rewrite decide_True by lia. cbn [ok_or].
  rewrite (IH j l2); [f_equal; lia|simpl in Hf; lia|done|lia|by apply P3|lia|lia].
Qed.
End pages.

(** * The demand of a plan *)

(** The pages of a segment as a range of page numbers. *)
Definition seg_pages (ps : Z) (s : LoadSegment) : option (Z * Z) :=
  if decide (memsz s = 0) then None else Some (vaddr s / ps, pages_end ps (vaddr s) (memsz s)).

Definition seg_bounded (s : LoadSegment) : Prop := 0 ≤ vaddr s ∧ 0 ≤ memsz s ∧ vaddr s + memsz s ≤ 2 ^ 47.

Section demand.
Context (k : Z) (Hk : 0 ≤ k ≤ 63).

Lemma collect_spans segs spans n l :
  Forall seg_bounded segs → take n spans = scaled (2 ^ k) l → (n + length segs ≤ length spans)%nat →
  length l = n →
  ∃ spans', try_fold (Plan.collect_span (2 ^ k)) segs (spans, n) =
      Ok (spans', length (l ++ omap (seg_pages (2 ^ k)) segs)) ∧ length spans' = length spans ∧
    take (length (l ++ omap (seg_pages (2 ^ k)) segs)) spans' = scaled (2 ^ k) (l ++ omap (seg_pages (2 ^ k)) segs).
Proof.
  pose proof (pow_pos k ltac:(lia)) as Hpos. intros Hb. revert spans n l.
  induction Hb as [|s segs (Hv & Hm & He) Hb IH]; intros spans n l Ht Hn Hl.
  { exists spans. cbn. by rewrite app_nil_r, Hl. }
  cbn [try_fold omap list_omap]. unfold Plan.collect_span at 1. rewrite page_span_value by done.
  unfold seg_pages. destruct (decide (memsz s = 0)) as [Hz|Hz].
  { rewrite decide_True by done. simpl in Hn. apply (IH spans n l); [done|lia|done]. }
  pose proof (pages_end_gt (2 ^ k) (vaddr s) (memsz s) Hpos ltac:(lia)) as Hgt.
  rewrite decide_False by lia. set (a := vaddr s / 2 ^ k) in *. set (b := pages_end (2 ^ k) (vaddr s) (memsz s)) in *.
  assert (0 ≤ a) by (apply Z.div_pos; lia). assert (2 ^ k ≤ 2 ^ 63) as Hk63 by (apply Z.pow_le_mono_r; lia).
  assert (2 ^ k * b < 2 ^ 64) as Hb64.
  { unfold b, pages_end. pose proof (Z.mul_div_le (vaddr s + memsz s + 2 ^ k - 1) (2 ^ k) Hpos). lia. }
  unfold checked_mul. rewrite decide_True by nia. cbn [ok_or]. unfold checked_add. rewrite decide_True by nia. cbn [ok_or].
  replace (2 ^ k * a + (b - a) * 2 ^ k) with (2 ^ k * b) by lia. simpl in Hn.
  destruct (IH (<[n := (2 ^ k * a, 2 ^ k * b)]> spans) (S n) (l ++ [(a, b)])) as (spans' & E1 & E2 & E3).
  - rewrite (take_S_r _ _ (2 ^ k * a, 2 ^ k * b)) by (apply list_lookup_insert_eq; lia).
    rewrite take_insert_ge, Ht by lia. unfold scaled. by rewrite fmap_app.
  - rewrite length_insert. lia.
  - rewrite length_app. simpl. lia.
  - rewrite <- app_assoc in E1, E3. exists spans'. rewrite length_insert in E2. done.
Qed.

Lemma scaled_sorted l : StronglySorted starts_le (scaled (2 ^ k) l) → StronglySorted starts_le l.
Proof.
  pose proof (pow_pos k ltac:(lia)) as Hpos. induction l as [|x l IH]; [constructor|]. cbn. intros Hs.
  apply StronglySorted_inv in Hs as [Hs Hx]. constructor; [by apply IH|].
  apply (proj1 (Forall_fmap (λ ab : Z * Z, (2 ^ k * fst ab, 2 ^ k * snd ab)) _ _)) in Hx.
  eapply Forall_impl; [|exact Hx]. unfold starts_le. cbn. intros y Hy. nia.
Qed.

Lemma seg_pages_covers s x :
  0 ≤ memsz s →
  (∃ a, covers s a ∧ a / 2 ^ k = x) ↔ ∃ ab, seg_pages (2 ^ k) s = Some ab ∧ fst ab ≤ x < snd ab.
Proof.
  pose proof (pow_pos k ltac:(lia)) as Hpos. intros Hm. unfold seg_pages, covers. case_decide as Hz.
  { split; [intros (a & Ha & _); lia|by intros (ab & ? & _)]. }
  pose proof (Z.div_mod (vaddr s) (2 ^ k) ltac:(lia)) as D1. pose proof (Z.mod_pos_bound (vaddr s) (2 ^ k) Hpos) as M1.
  pose proof (Z.div_mod (vaddr s + memsz s + 2 ^ k - 1) (2 ^ k) ltac:(lia)) as D2.
  pose proof (Z.mod_pos_bound (vaddr s + memsz s + 2 ^ k - 1) (2 ^ k) Hpos) as M2. fold (pages_end (2 ^ k) (vaddr s) (memsz s)) in D2.
  split.
  - intros (a & Ha & <-). eexists. split; [done|]. cbn [fst snd].
    pose proof (Z.div_mod a (2 ^ k) ltac:(lia)). pose proof (Z.mod_pos_bound a (2 ^ k) Hpos). nia.
  - intros (ab & [= <-] & Hx). cbn [fst snd] in Hx. exists (Z.max (vaddr s) (2 ^ k * x)). split; [nia|].
    symmetry. destruct (decide (vaddr s ≤ 2 ^ k * x)).
    + rewrite Z.max_r by done. by rewrite Z.mul_comm, Z.div_mul by lia.
    + rewrite Z.max_l by lia. assert (x = vaddr s / 2 ^ k) as ->; [nia|done].
Qed.

(** The loops compute the size of the union. *)
Lemma total_mapped_pages_size plan :
  Forall seg_bounded (Plan.iter_segments plan) → (length (Plan.iter_segments plan) ≤ MAX_LOAD_SEGMENTS)%nat →
  Plan.total_mapped_pages plan (2 ^ k) =
    Ok (Z.of_nat (size (union_of (omap (seg_pages (2 ^ k)) (Plan.iter_segments plan))))).
Proof.
  pose proof (pow_pos k ltac:(lia)) as Hpos. intros Hb Hlen.
  assert (is_power_of_two (2 ^ k) = true) as Ht by (apply is_power_of_two_spec; exists k; split; [lia|done]).
  unfold Plan.total_mapped_pages. rewrite Ht, decide_False by (intros [?|?]; [lia|done]).
  set (segs := Plan.iter_segments plan) in *. set (l := omap (seg_pages (2 ^ k)) segs).
  destruct (collect_spans segs (replicate MAX_LOAD_SEGMENTS (0, 0)) 0 []) as (spans & E1 & E2 & E3);
    [done|done|by rewrite length_replicate|done|]. cbn [app] in E1, E3. fold l in E1, E3. rewrite E1.
  assert (length l ≤ length spans)%nat as Hln.
  { apply (f_equal length) in E3. rewrite length_take in E3. unfold scaled in E3. rewrite length_fmap in E3. lia. }
  destruct (insertion_sort spans (length l) Hln) as (sorted & -> & Hsl & Hp & Hs).
  rewrite E3 in Hp. unfold scaled in Hp. apply Permutation_map_inv in Hp as (l' & -> & Hp).
  fold (scaled (2 ^ k) l') in Hs. apply scaled_sorted in Hs.
  assert (Forall (λ ab, 0 ≤ fst ab ∧ fst ab < snd ab) l) as Hlt.
  { apply Forall_forall. intros ab (s & Hs' & Hsp)%list_elem_of_In%list_elem_of_omap.
    rewrite Forall_forall in Hb. destruct (Hb s ltac:(by apply list_elem_of_In)) as (? & ? & _).
    unfold seg_pages in Hsp. case_decide; [done|]. injection Hsp as <-. cbn.
    split; [apply Z.div_pos; lia|]. apply pages_end_gt; lia. }
  assert (union_of l = union_of l') as Hu by (apply set_eq; intros x; rewrite !elem_of_union_of; by setoid_rewrite Hp).
  assert (measure_of l' = Z.of_nat (size (union_of l))) as Hme.
  { rewrite Hu. rewrite Hp in Hlt. destruct l' as [|[s e] l']; [done|]. apply Forall_cons_1 in Hlt as [Hse Hlt].
    apply StronglySorted_inv in Hs as [Hs Hall]. cbn [measure_of]. rewrite <- size_measure; [done|cbn in Hse; lia| |done].
    rewrite Forall_forall in Hall, Hlt |- *. intros ab Hab. specialize (Hall ab Hab). specialize (Hlt ab Hab).
    unfold starts_le in Hall. cbn in *. lia. }
  assert (Z.of_nat (size (union_of l)) < 2 ^ 64) as Hmax.
  { assert (union_of l ⊆ interval 0 (2 ^ 48)) as Hsub%subseteq_size.
    { intros x (ab & (s & Hs' & Hsp)%list_elem_of_omap & Hx)%elem_of_union_of. apply elem_of_interval.
      rewrite Forall_forall in Hb. destruct (Hb s ltac:(by apply list_elem_of_In)) as (? & ? & ?).
      destruct (proj2 (seg_pages_covers s x ltac:(done)) ltac:(eauto)) as (a & Ha & <-). unfold covers in Ha.
      split; [apply Z.div_pos; lia|]. apply Z.div_lt_upper_bound; [lia|]. nia. }
    pose proof (size_interval 0 (2 ^ 48) ltac:(lia)). lia. }
  rewrite (merge_spans_measure (2 ^ k) Hpos _ _ _ _ l'); [f_equal; lia| | | | | |].
  - rewrite Hp. done.
  - rewrite drop_0, take_app_le, take_ge; [done| |]; rewrite length_map, Hp; lia.
  - rewrite length_app, length_map, length_drop, Hp. lia.
  - rewrite Hp in Hlt. eapply Forall_impl; [|exact Hlt]. cbn. lia.
  - done.
  - lia.
Qed.
End demand.

Lemma total_mapped_pages_spec bytes p plan k :
  Forall is_byte bytes → Z.of_nat (length bytes) < 2 ^ 64 → parse_load_plan bytes p = Ok plan → 0 ≤ k ≤ 63 →
  ∃ pages : gset Z,
    Plan.total_mapped_pages plan (2 ^ k) = Ok (Z.of_nat (size pages)) ∧
    ∀ x, x ∈ pages ↔ ∃ s a, s ∈ Plan.iter_segments plan ∧ covers s a ∧ a / 2 ^ k = x.
Proof.
  intros Hb Hlen E Hk. apply parse_load_plan_Ok in E as (h & _ & [_ _ _ Hcnt Hsegs _ _] & _ & _ & E); [|done..].
  rewrite <- E in *. exists (union_of (omap (seg_pages (2 ^ k)) (Plan.iter_segments plan))).
  assert (Forall seg_bounded (Plan.iter_segments plan)) as Hbnd.
  { eapply Forall_impl; [|exact Hsegs]. intros s [[[? _] [? _] _ _ _] _ _ _ [_ ?] _ _ _]. done. }
  split; [apply total_mapped_pages_size; [done|done|cbv zeta in Hcnt; lia]|].
  intros x. rewrite elem_of_union_of. setoid_rewrite list_elem_of_omap. rewrite Forall_forall in Hbnd. split.
  - intros (ab & (s & Hs & Hsp) & Hx). exists s. destruct (Hbnd s) as (_ & ? & _); [by apply list_elem_of_In|].
    destruct (proj2 (seg_pages_covers k Hk s x ltac:(done)) ltac:(eauto)) as (a & Ha & Hax). eauto.
  - intros (s & a & Hs & Ha & Hax). destruct (Hbnd s) as (_ & ? & _); [by apply list_elem_of_In|].
    destruct (proj1 (seg_pages_covers k Hk s x ltac:(done)) ltac:(eauto)) as (ab & Hsp & Hx). eauto.
Qed.

(** The page demand of a plan is exact. For every plan that was accepted and every page size,
    [total_mapped_pages] succeeds with the number of distinct pages the segments touch: pages
    shared by segments are counted once, whatever their order. *)
Theorem total_mapped_pages_exact bytes p plan k :
  Forall is_byte bytes → Z.of_nat (length bytes) < 2 ^ 64 → parse_load_plan bytes p = Ok plan → 0 ≤ k ≤ 63 →
  ∃ pages : gset Z,
    Plan.total_mapped_pages plan (2 ^ k) = Ok (Z.of_nat (size pages)) ∧
    ∀ x, x ∈ pages ↔ ∃ s a, s ∈ Plan.iter_segments plan ∧ covers s a ∧ a / 2 ^ k = x.
Proof. apply total_mapped_pages_spec. Qed.

Lemma total_mapped_pages_exact_witness :
  Plan.total_mapped_pages Hello.plan (2 ^ 12) = Ok 3 ∧
  ∃ pages : gset Z,
    Plan.total_mapped_pages Hello.plan (2 ^ 12) = Ok (Z.of_nat (size pages)) ∧
    ∀ x, x ∈ pages ↔ ∃ s a, s ∈ Plan.iter_segments Hello.plan ∧ covers s a ∧ a / 2 ^ 12 = x.
Proof.
  split; [by vm_compute|]. eapply total_mapped_pages_exact; [| |exact Hello.parsed|lia].
  - apply Hello.file_bytes.
  - apply Hello.file_len.
Defined.
