(* ===== verification/MemoryMap.v ===== *)
(** Physical memory regions and the normalised firmware memory map.

    Models kernel/src/mm/region.rs, the alignment helpers of kernel/src/mm/mod.rs, and
    the map construction of kernel/src/boot/uefi.rs: the firmware's descriptors and the
    boot reservations are collected into fixed arrays, sorted by start address, and
    merged into a list of usable and reserved regions.

    [NormalizedMemoryMap]'s array and count are the list of its first [region_count]
    entries. The scratch arrays keep their [None] tail, on which the sorting loops stop.
    A sum that would exceed 64 bits wraps, as the release profile's does. *)

From Stdlib Require Import ZArith Lia String.
From stdpp Require Import base list sets tactics decidable numbers sorting.
From S2P Require Import Prelude.

Local Open Scope Z_scope.

Definition PAGE_SIZE : Z := 4096.
Definition MAX_MEMORY_REGIONS : nat := 256.
Definition MAX_RESERVED_RANGES : nat := MAX_MEMORY_REGIONS + 1.

Module Mm.
Definition align_down (value align : Z) : Z := Z.ldiff value (align - 1).

Definition align_up (value align : Z) : Z :=
  if decide (Z.land value (align - 1) = 0) then value
  else Z.ldiff (wrap 64 (value + align - 1)) (align - 1).
End Mm.

Inductive MemoryRegionKind : Type := Usable | Reserved.

#[export] Instance MemoryRegionKind_eq_dec : EqDecision MemoryRegionKind.
Proof. solve_decision. Defined.

Record MemoryRegion : Type := MkRegion { rg_start : Z; rg_end : Z; rg_kind : MemoryRegionKind }.

Definition region_len (r : MemoryRegion) : Z := saturating_sub (rg_end r) (rg_start r).

Record ReservedRange : Type := MkRange { rr_start : Z; rr_end : Z }.

#[export] Instance ReservedRange_eq_dec : EqDecision ReservedRange.
Proof. solve_decision. Defined.

Module Range.
Definition from_base_and_size (base size : Z) : ReservedRange :=
  MkRange (Mm.align_down base PAGE_SIZE) (Mm.align_up (Z.min u64_max (base + size)) PAGE_SIZE).

Definition is_empty (r : ReservedRange) : bool := bool_decide (rr_end r ≤ rr_start r).
End Range.

Definition RESERVED_PHYSICAL_ZERO_PAGE : ReservedRange := MkRange 0 PAGE_SIZE.

(** ** The normalised map *)

Record NormalizedMemoryMap : Type := MkMap {
  regions : list MemoryRegion;
  usable_bytes : Z;
  reserved_bytes : Z
}.

Module Map.
Definition empty : NormalizedMemoryMap := MkMap [] 0 0.

Definition clear (m : NormalizedMemoryMap) : NormalizedMemoryMap := MkMap [] 0 0.

Definition bump_totals (kind : MemoryRegionKind) (len : Z) (m : NormalizedMemoryMap) : NormalizedMemoryMap :=
  match kind with
  | Usable => MkMap (regions m) (wrapping_add 64 (usable_bytes m) len) (reserved_bytes m)
  | Reserved => MkMap (regions m) (usable_bytes m) (wrapping_add 64 (reserved_bytes m) len)
  end.

Definition with_regions (l : list MemoryRegion) (m : NormalizedMemoryMap) : NormalizedMemoryMap :=
  MkMap l (usable_bytes m) (reserved_bytes m).

(** The last region, when [region] extends it. *)
Definition extends_last (region : MemoryRegion) (m : NormalizedMemoryMap) : option MemoryRegion :=
  match last (regions m) with
  | Some previous =>
      if decide (rg_kind previous = rg_kind region ∧ rg_end previous = rg_start region)
      then Some previous else None
  | None => None
  end.

Definition push_region (region : MemoryRegion) (m : NormalizedMemoryMap) : result string NormalizedMemoryMap :=
  if decide (region_len region = 0) then Ok m
  else
    match extends_last region m with
    | Some previous =>
        let grown := MkRegion (rg_start previous) (rg_end region) (rg_kind previous) in
        let l := <[(length (regions m) - 1)%nat := grown]> (regions m) in
        Ok (bump_totals (rg_kind region) (region_len region) (with_regions l m))
    | None =>
        if decide (length (regions m) = MAX_MEMORY_REGIONS)
        then Err "normalized memory map exceeded fixed region capacity"%string
        else Ok (bump_totals (rg_kind region) (region_len region) (with_regions (regions m ++ [region]) m))
    end.
End Map.

(** ** Boot reservations *)

Definition MAX_BOOT_RESERVED_RANGES : nat := 16.

Module BootRanges.
Definition push (range : ReservedRange) (ranges : list ReservedRange) : result string (list ReservedRange) :=
  if Range.is_empty range then Ok ranges
  else if existsb (λ e, bool_decide (rr_start e = rr_start range ∧ rr_end e = rr_end range)) ranges
  then Ok ranges
  else if decide (length ranges = MAX_BOOT_RESERVED_RANGES)
  then Err "boot reservation capacity exceeded"%string
  else Ok (ranges ++ [range]).
End BootRanges.

(** ** Sorting the scratch arrays

    [sort_descriptors] and [sort_reserved_ranges] are the same insertion sort, on the
    start address of an entry. *)

Section insertion_sort.
Context {A : Type} (key : A → Z).

(** [while position > 0 { match arr[position - 1] { .. } } arr[position] = Some(current)] *)
Fixpoint shift (current : A) (position : nat) (arr : list (option A)) : list (option A) :=
  match position with
  | O => <[O := Some current]> arr
  | S p =>
      match arr !! p with
      | Some (Some previous) =>
          if decide (key previous > key current)
          then shift current p (<[S p := Some previous]> arr)
          else <[S p := Some current]> arr
      | _ => <[S p := Some current]> arr
      end
  end.

Fixpoint sort_from (indices : list nat) (arr : list (option A)) : list (option A) :=
  match indices with
  | [] => arr
  | index :: indices =>
      match arr !! index with
      | Some (Some current) => sort_from indices (shift current index arr)
      | _ => arr
      end
  end.

Definition insertion_sort (arr : list (option A)) : list (option A) :=
  sort_from (seq 1 (length arr - 1)) arr.
End insertion_sort.

(** [arr.iter().flatten()] *)
Definition flatten {A : Type} (arr : list (option A)) : list A := omap id arr.

(** ** The firmware's map

    [ty] is the descriptor's memory type; [CONVENTIONAL] is the UEFI value 7. *)

Record MemoryDescriptor : Type := MkDescriptor { ty : Z; phys_start : Z; page_count : Z }.

Definition CONVENTIONAL : Z := 7.

Definition is_usable_memory_type (t : Z) : bool := bool_decide (t = CONVENTIONAL).

Record RawDescriptor : Type := MkRaw { rd_start : Z; rd_end : Z; rd_ty : Z }.

Definition saturating_add64 (a b : Z) : Z := Z.min u64_max (a + b).
Definition saturating_mul64 (a b : Z) : Z := Z.min u64_max (a * b).

Definition raw_of (d : MemoryDescriptor) : RawDescriptor :=
  MkRaw (phys_start d) (saturating_add64 (phys_start d) (saturating_mul64 (page_count d) PAGE_SIZE)) (ty d).

Definition collect_descriptors (ds : list MemoryDescriptor) : result string (list (option RawDescriptor)) :=
  result_map snd
    (try_fold (λ d '(count, collected),
       if decide (count = MAX_MEMORY_REGIONS)
       then Err "UEFI memory map exceeded fixed descriptor capacity"%string
       else Ok (S count, <[count := Some (raw_of d)]> collected))
     ds (O, replicate MAX_MEMORY_REGIONS None)).

Definition sort_descriptors : list (option RawDescriptor) → list (option RawDescriptor) :=
  insertion_sort rd_start.

Definition widen (range : ReservedRange) : ReservedRange :=
  MkRange (Mm.align_down (rr_start range) PAGE_SIZE) (Mm.align_up (rr_end range) PAGE_SIZE).

Definition same_range (range existing : ReservedRange) : bool :=
  bool_decide (rr_start existing = rr_start range ∧ rr_end existing = rr_end range).

Definition collect_range (range : ReservedRange) (st : nat * list (option ReservedRange))
  : result string (nat * list (option ReservedRange)) :=
  let '(count, collected) := st in
  let range := widen range in
  if Range.is_empty range then Ok st
  else if existsb (same_range range) (flatten (take count collected)) then Ok st
  else if decide (count = MAX_RESERVED_RANGES) then Err "reserved range capacity exceeded"%string
  else Ok (S count, <[count := Some range]> collected).

Definition collect_reserved_ranges (ranges : list ReservedRange) : result string (list (option ReservedRange)) :=
  result_map snd
    (try_fold collect_range ranges
       (1%nat, <[O := Some RESERVED_PHYSICAL_ZERO_PAGE]> (replicate MAX_RESERVED_RANGES None))).

Definition sort_reserved_ranges : list (option ReservedRange) → list (option ReservedRange) :=
  insertion_sort rr_start.

(** ** Carving the reservations out of usable memory *)

(** One iteration of the loop over the reservations; the state is [(cursor, normalized)]. *)
Definition carve_step (stop : Z) (reserved : ReservedRange) (st : Z * NormalizedMemoryMap)
  : result string (Z * NormalizedMemoryMap) :=
  let '(cursor, m) := st in
  if decide (rr_end reserved ≤ cursor ∨ stop ≤ rr_start reserved) then Ok st
  else
    let? m := (if decide (cursor < rr_start reserved)
               then Map.push_region (MkRegion cursor (rr_start reserved) Usable) m else Ok m) in
    let reserved_start := Z.max (rr_start reserved) cursor in
    let reserved_end := Z.min (rr_end reserved) stop in
    let? m := Map.push_region (MkRegion reserved_start reserved_end Reserved) m in
    Ok (reserved_end, m).

Definition add_descriptor (reserved : list ReservedRange) (d : RawDescriptor) (m : NormalizedMemoryMap)
  : result string NormalizedMemoryMap :=
  let start := Mm.align_up (rd_start d) PAGE_SIZE in
  let stop := Mm.align_down (rd_end d) PAGE_SIZE in
  if decide (stop ≤ start) then Ok m
  else if is_usable_memory_type (rd_ty d) then
    let? st := try_fold (carve_step stop) reserved (start, m) in
    let '(cursor, m) := st in
    if decide (cursor < stop) then Map.push_region (MkRegion cursor stop Usable) m else Ok m
  else Map.push_region (MkRegion start stop Reserved) m.

Definition normalize_memory_map (ds : list MemoryDescriptor) (ranges : list ReservedRange)
    (normalized : NormalizedMemoryMap) : result string NormalizedMemoryMap :=
  let? collected := collect_descriptors ds in
  let descriptors := sort_descriptors collected in
  let? collected := collect_reserved_ranges ranges in
  let reserved := sort_reserved_ranges collected in
  try_fold (add_descriptor (flatten reserved)) (flatten descriptors) (Map.clear normalized).

(** * Lemmas *)

(** ** Page rounding *)

Lemma align_down_page v : Mm.align_down v PAGE_SIZE = 4096 * (v / 4096).
Proof. apply (ldiff_pow2 v 12). lia. Qed.

Lemma align_up_page v : 0 ≤ v → v + 4095 < 2 ^ 64 → Mm.align_up v PAGE_SIZE = 4096 * ((v + 4095) / 4096).
Proof.
  intros Hv Hmax. unfold Mm.align_up, PAGE_SIZE. replace (v + 4096 - 1) with (v + 4095) by lia.
  rewrite wrap_small by (unfold in_width; lia).
  change (4096 - 1) with (2 ^ 12 - 1). rewrite land_pow2, ldiff_pow2 by lia. change (2 ^ 12) with 4096.
  case_decide as H; [|done]. pose proof (Z.div_mod v 4096). rewrite H in *.
  rewrite <- (Z.div_unique (v + 4095) 4096 (v / 4096) 4095); lia.
Qed.

Lemma align_up_aligned v : v mod 4096 = 0 → Mm.align_up v PAGE_SIZE = v.
Proof. intros H. unfold Mm.align_up, PAGE_SIZE. change (4096 - 1) with (2 ^ 12 - 1). rewrite land_pow2 by lia. by rewrite decide_True. Qed.

Lemma align_down_aligned v : v mod 4096 = 0 → Mm.align_down v PAGE_SIZE = v.
Proof. intros H. rewrite align_down_page. pose proof (Z.div_mod v 4096). lia. Qed.

Lemma mod_page q : (4096 * q) mod 4096 = 0.
Proof. rewrite Z.mul_comm. by apply Z.mod_mul. Qed.

(** ** The insertion sort *)

Section sort_spec.
Context {A : Type} (key : A → Z).

Definition by_key : A → A → Prop := λ x y, key x ≤ key y.

Lemma shift_spec cur l h r :
  StronglySorted by_key l →
  ∃ l', shift key cur (length l) ((Some <$> l) ++ h :: r) = (Some <$> l') ++ r
        ∧ l' ≡ₚ cur :: l ∧ StronglySorted by_key l'.
Proof.
  revert h r. induction l as [|p l IH] using rev_ind; intros h r Hs.
  { exists [cur]. split; [done|]. split; [done|]. repeat constructor. }
  rewrite length_app, fmap_app, <- app_assoc. cbn [length fmap list_fmap]. rewrite Nat.add_1_r. cbn [shift].
  rewrite lookup_app_r, length_fmap, Nat.sub_diag by (rewrite length_fmap; lia). cbn.
  apply StronglySorted_app in Hs as (Hlp & Hl & _).
  case_decide as Hk.
  - rewrite insert_app_r_alt, length_fmap by (rewrite length_fmap; lia).
    replace (S (length l) - length l)%nat with 1%nat by lia. cbn.
    destruct (IH (Some p) (Some p :: r) Hl) as (l' & -> & Hp & Hs').
    exists (l' ++ [p]). rewrite fmap_app, <- app_assoc. split; [done|]. split.
    { rewrite Hp. simpl. by rewrite (Permutation_app_comm l [p]). }
    apply StronglySorted_app_2; [|done|repeat constructor].
    intros x y Hx ->%list_elem_of_singleton. rewrite Hp in Hx. unfold by_key.
    apply elem_of_cons in Hx as [->|Hx]; [lia|]. apply Hlp; [done|by left].
  - rewrite insert_app_r_alt, length_fmap by (rewrite length_fmap; lia).
    replace (S (length l) - length l)%nat with 1%nat by lia. cbn.
    exists ((l ++ [p]) ++ [cur]). rewrite !fmap_app, <- !app_assoc. split; [done|]. split.
    { rewrite app_assoc, (Permutation_app_comm _ [cur]). done. }
    rewrite app_assoc. apply StronglySorted_app_2; [|apply StronglySorted_app_2; [|done|repeat constructor]|repeat constructor].
    + intros x y Hx ->%list_elem_of_singleton. unfold by_key. apply elem_of_app in Hx as [Hx|Hx%list_elem_of_singleton]; [|subst; lia].
      pose proof (Hlp x p Hx ltac:(by left)) as Hxp. unfold by_key in Hxp. lia.
    + intros x y Hx Hy. by apply Hlp.
Qed.
Lemma sort_from_spec l1 l2 n :
  StronglySorted by_key l1 →
  ∃ l', sort_from key (seq (length l1) (length l2 + n)) ((Some <$> l1) ++ (Some <$> l2) ++ replicate n None)
        = (Some <$> l') ++ replicate n None
        ∧ l' ≡ₚ l1 ++ l2 ∧ StronglySorted by_key l'.
Proof.
  revert l1. induction l2 as [|x l2 IH]; intros l1 Hs.
  { exists l1. cbn. rewrite app_nil_r. split; [|done]. destruct n as [|n]; [done|]. cbn.
    by rewrite lookup_app_r, length_fmap, Nat.sub_diag by (rewrite length_fmap; lia). }
  cbn [length Nat.add seq sort_from fmap list_fmap].
  rewrite lookup_app_r, length_fmap, Nat.sub_diag by (rewrite length_fmap; lia). cbn [lookup list_lookup app].
  destruct (shift_spec x l1 (Some x) ((Some <$> l2) ++ replicate n None) Hs) as (l' & -> & Hp & Hs').
  destruct (IH l' Hs') as (l'' & E & Hp' & Hs''). exists l''.
  apply Permutation_length in Hp as Hl. cbn in Hl. rewrite <- Hl. split; [done|]. split; [|done].
  rewrite Hp', Hp. cbn. by rewrite Permutation_middle.
Qed.

Lemma insertion_sort_spec l n :
  ∃ l', insertion_sort key ((Some <$> l) ++ replicate n None) = (Some <$> l') ++ replicate n None
        ∧ l' ≡ₚ l ∧ StronglySorted by_key l'.
Proof.
  unfold insertion_sort. rewrite length_app, length_fmap, length_replicate. destruct l as [|x l].
  - exists []. split; [|by repeat constructor]. cbn. destruct n as [|[|n]]; done.
  - destruct (sort_from_spec [x] l n) as (l' & E & H); [repeat constructor|]. exists l'. split; [|done].
    cbn [length]. replace (S (length l) + n - 1)%nat with (length l + n)%nat by lia. exact E.
Qed.
End sort_spec.

Lemma flatten_app {A : Type} (a b : list (option A)) : flatten (a ++ b) = flatten a ++ flatten b.
Proof. apply omap_app. Qed.

Lemma flatten_fmap {A : Type} (l : list A) : flatten (Some <$> l) = l.
Proof. induction l as [|x l IH]; [done|]. cbn. by f_equal. Qed.

Lemma flatten_Some {A : Type} (l : list A) n : flatten ((Some <$> l) ++ replicate n None) = l.
Proof.
  rewrite flatten_app, flatten_fmap.
  replace (flatten (replicate n None)) with (@nil A) by (induction n; done). apply app_nil_r.
Qed.

Lemma flatten_sort {A : Type} (key : A → Z) l n :
  let l' := flatten (insertion_sort key ((Some <$> l) ++ replicate n None)) in
  l' ≡ₚ l ∧ StronglySorted (by_key key) l'.
Proof. destruct (insertion_sort_spec key l n) as (l' & -> & H). cbn zeta. by rewrite flatten_Some. Qed.

(** ** Collection *)

(** Writing the entry after a prefix. *)
Lemma insert_prefix {A : Type} (l : list A) n x :
  (length l < n)%nat →
  <[length l := Some x]> ((Some <$> l) ++ replicate (n - length l) None)
  = (Some <$> (l ++ [x])) ++ replicate (n - length (l ++ [x])) None.
Proof.
  intros H. rewrite insert_app_r_alt, length_fmap, Nat.sub_diag by (rewrite length_fmap; lia).
  rewrite length_app, fmap_app, <- app_assoc. f_equal. cbn [length].
  replace (n - length l)%nat with (S (n - (length l + 1))) by lia. done.
Qed.

Lemma collect_descriptors_spec ds :
  collect_descriptors ds =
    if decide (length ds ≤ MAX_MEMORY_REGIONS)%nat
    then Ok ((Some <$> (raw_of <$> ds)) ++ replicate (MAX_MEMORY_REGIONS - length ds) None)
    else Err "UEFI memory map exceeded fixed descriptor capacity"%string.
Proof.
  unfold collect_descriptors.
  set (body := λ (d : MemoryDescriptor) '(count, collected), _).
  assert (∀ todo done_, (length done_ ≤ MAX_MEMORY_REGIONS)%nat →
    try_fold body todo (length done_, (Some <$> (raw_of <$> done_)) ++ replicate (MAX_MEMORY_REGIONS - length done_) None)
    = if decide (length (done_ ++ todo) ≤ MAX_MEMORY_REGIONS)%nat
      then Ok (length (done_ ++ todo), (Some <$> (raw_of <$> (done_ ++ todo))) ++ replicate (MAX_MEMORY_REGIONS - length (done_ ++ todo)) None)
      else Err "UEFI memory map exceeded fixed descriptor capacity"%string) as H.
  { induction todo as [|d todo IH]; intros done_ Hl.
    { by rewrite app_nil_r, decide_True. }
    cbn [try_fold]. unfold body at 1. case_decide as Hfull.
    { rewrite decide_False; [done|]. rewrite length_app. cbn [length]. lia. }
    pose proof (insert_prefix (raw_of <$> done_) MAX_MEMORY_REGIONS (raw_of d)) as Hi.
    rewrite length_app, !length_fmap in Hi. rewrite Hi by lia.
    specialize (IH (done_ ++ [d])). rewrite <- app_assoc, length_app, Nat.add_1_r, fmap_app in IH.
    rewrite Nat.add_1_r. apply IH. lia. }
  specialize (H ds [] ltac:(cbn; lia)). cbn [length app fmap list_fmap] in H. rewrite Nat.sub_0_r in H. rewrite H.
  by case_decide.
Qed.

Definition in_range (a : Z) (r : ReservedRange) : Prop := rr_start r ≤ a < rr_end r.

(** A reservation whose end can be rounded up within 64 bits. *)
Definition range_ok (r : ReservedRange) : Prop := 0 ≤ rr_start r ∧ 0 ≤ rr_end r ≤ 2 ^ 64 - 4096.

(** A page-aligned, non-empty reservation. *)
Definition range_good (r : ReservedRange) : Prop :=
  0 ≤ rr_start r < rr_end r ∧ rr_start r mod 4096 = 0 ∧ rr_end r mod 4096 = 0.

(** The addresses a list of boot reservations withholds: page zero, and every page that
    a reservation touches. *)
Definition reserved_at (rs : list ReservedRange) (a : Z) : Prop :=
  0 ≤ a < PAGE_SIZE ∨
  ∃ r, r ∈ rs ∧ 4096 * (rr_start r / 4096) ≤ a < 4096 * ((rr_end r + 4095) / 4096).

Lemma widen_ok r :
  range_ok r →
  widen r = MkRange (4096 * (rr_start r / 4096)) (4096 * ((rr_end r + 4095) / 4096)).
Proof. intros (H1 & H2 & H3). unfold widen. rewrite align_down_page, align_up_page by lia. done. Qed.

Lemma widen_good r : range_ok r → Range.is_empty (widen r) = false → range_good (widen r).
Proof.
  intros Hr He. unfold Range.is_empty in He. apply bool_decide_eq_false in He.
  rewrite widen_ok in * by done. destruct Hr as (H1 & H2 & H3). cbn in *. unfold range_good. cbn.
  rewrite !mod_page. pose proof (Z.div_pos (rr_start r) 4096). lia.
Qed.

(** The array and its count hold the list [l], which withholds what [rs] does. *)
Definition collected (rs : list ReservedRange) (st : nat * list (option ReservedRange)) : Prop :=
  ∃ l, st = (length l, (Some <$> l) ++ replicate (MAX_RESERVED_RANGES - length l) None)
    ∧ (length l ≤ MAX_RESERVED_RANGES)%nat ∧ (length l ≤ S (length rs))%nat ∧ Forall range_good l
    ∧ ∀ a, (∃ r, r ∈ l ∧ in_range a r) ↔ reserved_at rs a.

Lemma reserved_at_snoc rs r a :
  range_ok r → reserved_at (rs ++ [r]) a ↔ reserved_at rs a ∨ in_range a (widen r).
Proof.
  intros Hr. unfold reserved_at, in_range. rewrite widen_ok by done. cbn [rr_start rr_end].
  set_solver.
Qed.

Lemma collect_range_spec rs r st :
  collected rs st → range_ok r →
  match collect_range r st with
  | Ok st' => collected (rs ++ [r]) st'
  | Err _ => (MAX_MEMORY_REGIONS ≤ length rs)%nat
  end.
Proof.
  intros (l & -> & Hcap & Hlen & Hgood & Hin) Hr. unfold collect_range.
  rewrite take_app_length', flatten_fmap by by rewrite length_fmap. destruct (Range.is_empty (widen r)) eqn:He.
  { exists l. rewrite length_app. split_and!; [done|done|cbn; lia|done|]. intros a.
    rewrite Hin, reserved_at_snoc by done. unfold Range.is_empty in He. apply bool_decide_eq_true in He.
    unfold in_range. split; [by left|]. intros [?|?]; [done|lia]. }
  destruct (existsb _ l) eqn:Hex.
  { apply existsb_exists in Hex as (e & He1%list_elem_of_In & [Hs Hd]%bool_decide_eq_true).
    exists l. rewrite length_app. split_and!; [done|done|cbn; lia|done|]. intros a.
    rewrite reserved_at_snoc, <- Hin by done. split; [by left|]. intros [?|Ha]; [done|].
    exists e. split; [done|]. unfold in_range in *. lia. }
  case_decide as Hfull; [unfold MAX_RESERVED_RANGES in Hfull; lia|].
  exists (l ++ [widen r]). rewrite insert_prefix, !length_app by lia. cbn [length].
  split_and!; [f_equal; lia|lia|lia| |].
  - apply Forall_app. split; [done|]. constructor; [|done]. by apply widen_good.
  - intros a. rewrite reserved_at_snoc, <- Hin by done. set_solver.
Qed.

Lemma collect_reserved_spec rs :
  Forall range_ok rs →
  match collect_reserved_ranges rs with
  | Ok c => collected rs (length (flatten c), c)
  | Err _ => (MAX_MEMORY_REGIONS < length rs)%nat
  end.
Proof.
  intros Hok. unfold collect_reserved_ranges.
  assert (∀ todo done_ st, Forall range_ok todo → collected done_ st →
    match try_fold collect_range todo st with
    | Ok st' => collected (done_ ++ todo) st'
    | Err _ => (MAX_MEMORY_REGIONS < length (done_ ++ todo))%nat
    end) as H.
  { induction todo as [|r todo IH]; intros done_ st Ht Hc; [by rewrite app_nil_r|].
    apply Forall_cons in Ht as [Hr Ht]. cbn [try_fold]. pose proof (collect_range_spec done_ r st Hc Hr) as Hs.
    destruct (collect_range r st) as [st'|e].
    - specialize (IH (done_ ++ [r]) st' Ht Hs). rewrite <- app_assoc in IH. exact IH.
    - rewrite length_app. cbn [length]. lia. }
  set (st0 := (1%nat, _)). assert (collected [] st0) as H0.
  { exists [RESERVED_PHYSICAL_ZERO_PAGE]. split_and!; [done|cbn; lia|cbn; lia| |].
    - repeat constructor; cbn; lia.
    - intros a. unfold reserved_at, in_range. split.
      + intros (r & ->%list_elem_of_singleton & Hr). by left.
      + intros [Ha|(r & Hr & _)]; [|by apply elem_of_nil in Hr]. eexists. by rewrite list_elem_of_singleton. }
  specialize (H rs [] st0 Hok H0). destruct (try_fold _ _ _) as [[n c]|]; [|exact H]. cbn [result_map snd].
  destruct H as (l & [= -> ->] & H). exists l. by rewrite flatten_Some.
Qed.

(** ** Building the map *)

(** A page-aligned, non-empty region that ends by [hi]. *)
Definition region_good (hi : Z) (r : MemoryRegion) : Prop :=
  0 ≤ rg_start r < rg_end r ∧ rg_end r ≤ hi ∧ rg_start r mod 4096 = 0 ∧ rg_end r mod 4096 = 0.

Definition before (r s : MemoryRegion) : Prop := rg_end r ≤ rg_start s.

(** The bytes of the regions of one kind. *)
Definition kind_len (k : MemoryRegionKind) (r : MemoryRegion) : Z :=
  if decide (rg_kind r = k) then rg_end r - rg_start r else 0.

Fixpoint total (k : MemoryRegionKind) (l : list MemoryRegion) : Z :=
  match l with
  | [] => 0
  | r :: l => kind_len k r + total k l
  end.

(** Well-formed regions in address order, none after [hi], within the table, with exact
    totals. *)
Record map_ok (hi : Z) (m : NormalizedMemoryMap) : Prop := {
  map_room : (length (regions m) ≤ MAX_MEMORY_REGIONS)%nat;
  map_good : Forall (region_good hi) (regions m);
  map_sorted : StronglySorted before (regions m);
  map_usable : usable_bytes m = total Usable (regions m);
  map_reserved : reserved_bytes m = total Reserved (regions m)
}.

Definition in_region (k : MemoryRegionKind) (a : Z) (r : MemoryRegion) : Prop :=
  rg_kind r = k ∧ rg_start r ≤ a < rg_end r.

Definition covers (m : NormalizedMemoryMap) (k : MemoryRegionKind) (a : Z) : Prop :=
  ∃ r, r ∈ regions m ∧ in_region k a r.

Lemma total_app k l1 l2 : total k (l1 ++ l2) = total k l1 + total k l2.
Proof. induction l1 as [|r l1 IH]; cbn; [done|]. rewrite IH. lia. Qed.

Lemma total_bound hi lo l :
  lo ≤ hi → Forall (region_good hi) l → Forall (λ r, lo ≤ rg_start r) l → StronglySorted before l →
  0 ≤ total Usable l ∧ 0 ≤ total Reserved l ∧ total Usable l + total Reserved l ≤ hi - lo.
Proof.
  revert lo. induction l as [|r l IH]; intros lo Hlo Hg Hl Hs; cbn [total]; [lia|].
  apply Forall_cons in Hg as [Hr Hg]. apply Forall_cons in Hl as [Hl _].
  apply StronglySorted_cons in Hs as [Hb Hs]. destruct Hr as (H1 & H2 & _).
  destruct (IH (rg_end r) H2 Hg Hb Hs) as (? & ? & ?). unfold kind_len.
  destruct (rg_kind r); repeat case_decide; try done; lia.
Qed.

Lemma map_total hi m :
  map_ok hi m → 0 ≤ hi →
  0 ≤ total Usable (regions m) ∧ 0 ≤ total Reserved (regions m) ∧
  total Usable (regions m) + total Reserved (regions m) ≤ hi.
Proof.
  intros [_ Hg Hs _ _] Hhi. replace hi with (hi - 0) by lia. apply total_bound; [lia| | |done].
  - eapply Forall_impl; [exact Hg|]. intros r (? & ? & ? & ?). split_and!; auto; lia.
  - eapply Forall_impl; [exact Hg|]. intros r (? & _). lia.
Qed.

Lemma region_good_le hi hi' r : hi ≤ hi' → region_good hi r → region_good hi' r.
Proof. intros ? (? & ? & ? & ?). split_and!; auto; lia. Qed.

Lemma map_ok_le hi hi' m : hi ≤ hi' → map_ok hi m → map_ok hi' m.
Proof.
  intros H [Hn Hg Hs Hu Hr]. split; auto. eapply Forall_impl; [exact Hg|]. intros r. by apply region_good_le.
Qed.

(** A regions list grown at its end: by a new region, or by extending the last one. *)
Lemma bump_ok hi l' k s e m :
  map_ok hi m → 0 ≤ hi → s < e < 2 ^ 64 → hi ≤ s → (length l' ≤ MAX_MEMORY_REGIONS)%nat →
  Forall (region_good e) l' → StronglySorted before l' →
  (∀ k', total k' l' = total k' (regions m) + (if decide (k = k') then e - s else 0)) →
  map_ok e (Map.bump_totals k (e - s) (Map.with_regions l' m)).
Proof.
  intros Hm Hhi Hse Hs Hlen Hg Hso Ht. pose proof (map_total hi m Hm Hhi) as (HU & HR & Hsum).
  destruct Hm as [_ _ _ Hu Hr]. pose proof (Ht Usable) as HtU. pose proof (Ht Reserved) as HtR.
  unfold Map.with_regions. destruct k; cbn [Map.bump_totals]; split; cbn [regions usable_bytes reserved_bytes]; auto;
    unfold wrapping_add; rewrite ?decide_True, ?decide_False in * by done;
    rewrite ?wrap_small; unfold in_width; try lia.
Qed.

Lemma regions_bump k n l m : regions (Map.bump_totals k n (Map.with_regions l m)) = l.
Proof. by destruct k. Qed.

Lemma exists_snoc {A : Type} (P : A → Prop) l x : (∃ r, r ∈ l ++ [x] ∧ P r) ↔ (∃ r, r ∈ l ∧ P r) ∨ P x.
Proof. set_solver. Qed.

(** A region that does not extend the last one is appended. *)
Lemma append_region_spec hi r m :
  map_ok hi m → 0 ≤ hi ≤ rg_start r → rg_start r < rg_end r < 2 ^ 64 →
  rg_start r mod 4096 = 0 → rg_end r mod 4096 = 0 → length (regions m) ≠ MAX_MEMORY_REGIONS →
  let m' := Map.bump_totals (rg_kind r) (rg_end r - rg_start r) (Map.with_regions (regions m ++ [r]) m) in
  map_ok (rg_end r) m' ∧ (∀ k a, covers m' k a ↔ covers m k a ∨ in_region k a r)
  ∧ (length (regions m') ≤ S (length (regions m)))%nat.
Proof.
  intros Hm Hhi Hlen Hal1 Hal2 Hroom m'. subst m'. pose proof (map_room _ _ Hm) as Hcap. pose proof (map_good _ _ Hm) as Hg. split_and!.
  - apply (bump_ok hi); auto; try lia; [rewrite length_app; cbn [length]; lia| | |].
    + apply Forall_app. split.
      * eapply Forall_impl; [exact Hg|]. intros s. apply region_good_le. lia.
      * constructor; [|done]. split_and!; auto; lia.
    + apply StronglySorted_app_2; [|apply (map_sorted _ _ Hm)|repeat constructor].
      intros x y Hx ->%list_elem_of_singleton.
      rewrite Forall_forall in Hg. destruct (Hg x Hx) as (_ & ? & _). unfold before. lia.
    + intros k'. rewrite !total_app. cbn [total]. unfold kind_len. case_decide; lia.
  - intros k a. unfold covers. by rewrite regions_bump, exists_snoc.
  - rewrite regions_bump, length_app. cbn. lia.
Qed.

Lemma push_region_spec hi r m :
  map_ok hi m → 0 ≤ hi ≤ rg_start r → rg_start r ≤ rg_end r < 2 ^ 64 →
  rg_start r mod 4096 = 0 → rg_end r mod 4096 = 0 →
  match Map.push_region r m with
  | Ok m' => map_ok (rg_end r) m' ∧ (∀ k a, covers m' k a ↔ covers m k a ∨ in_region k a r)
             ∧ (length (regions m') ≤ S (length (regions m)))%nat
  | Err _ => (MAX_MEMORY_REGIONS ≤ length (regions m))%nat
  end.
Proof.
  intros Hm Hhi Hlen Hal1 Hal2. unfold Map.push_region, region_len, saturating_sub. case_decide as H0.
  { split_and!; [eapply map_ok_le; [|done]; lia| |lia]. intros k a. split; [by left|].
    intros [?|(_ & ?)]; [done|lia]. }
  replace (Z.max 0 (rg_end r - rg_start r)) with (rg_end r - rg_start r) by lia.
  pose proof (map_good _ _ Hm) as Hg. pose proof (map_sorted _ _ Hm) as Hso.
  assert (∀ l, Forall (region_good hi) l → Forall (region_good (rg_end r)) l) as Hup.
  { intros l Hl. eapply Forall_impl; [exact Hl|]. intros s. apply region_good_le. lia. }
  unfold Map.extends_last. destruct (last (regions m)) as [p|] eqn:Ep; [case_decide as Hext|].
  - destruct Hext as [Hk He]. apply last_Some in Ep as [l0 El]. rewrite El in *.
    rewrite length_app. cbn [length]. rewrite insert_app_r_alt, Nat.add_sub, Nat.sub_diag by lia. cbn [list_insert insert].
    apply Forall_app in Hg as [Hg0 Hp]. apply Forall_cons in Hp as [(Hp1 & Hp2 & Hp3 & Hp4) _].
    apply StronglySorted_app in Hso as (Hso & Hs0 & _). split_and!.
    + pose proof (map_room _ _ Hm) as Hcap. rewrite El, length_app in Hcap.
      apply (bump_ok hi); auto; try lia; [by rewrite length_app| | |].
      * apply Forall_app. split; [by apply Hup|]. constructor; [|done]. split_and!; cbn; auto; lia.
      * apply StronglySorted_app_2; [|done|repeat constructor]. intros x y Hx ->%list_elem_of_singleton.
        apply (Hso x p Hx). by left.
      * intros k'. rewrite ?El, !total_app. unfold kind_len. cbn [total rg_kind rg_start rg_end].
        unfold kind_len. cbn [rg_kind rg_start rg_end]. rewrite Hk. case_decide; lia.
    + intros k a. unfold covers. rewrite regions_bump, ?El, !exists_snoc. unfold in_region. cbn.
      rewrite Hk. destruct (decide (a < rg_end p)); intuition lia.
    + rewrite regions_bump, ?El, !length_app. cbn. lia.
  - case_decide as Hfull; [lia|]. apply (append_region_spec hi); auto; lia.
  - case_decide as Hfull; [lia|]. apply (append_region_spec hi); auto; lia.
Qed.

(** ** Carving one descriptor *)

(** What usable memory at [a] becomes under the reservations [R]. *)
Definition carved_kind (R : list ReservedRange) (k : MemoryRegionKind) (a : Z) : Prop :=
  match k with
  | Usable => ∀ r, r ∈ R → ¬ in_range a r
  | Reserved => ∃ r, r ∈ R ∧ in_range a r
  end.

Section carve.
Context (start stop : Z) (R : list ReservedRange) (m0 : NormalizedMemoryMap).
Hypothesis Hstart : 0 ≤ start ∧ start < stop < 2 ^ 64.
Hypothesis Hstop_aligned : stop mod 4096 = 0.
Hypothesis HR : Forall range_good R.
Hypothesis HRs : StronglySorted (by_key rr_start) R.

(** The loop's state after the reservations [done_] and at most [n] regions: everything
    before the cursor is classified, and no reservation seen so far reaches past it. *)
Record carved (done_ : list ReservedRange) (n : nat) (cursor : Z) (m : NormalizedMemoryMap) : Prop := {
  cv_range : start ≤ cursor ≤ stop;
  cv_aligned : cursor mod 4096 = 0;
  cv_ok : map_ok cursor m;
  cv_covers : ∀ k a, covers m k a ↔ covers m0 k a ∨ (start ≤ a < cursor ∧ carved_kind R k a);
  cv_done : ∀ r, r ∈ done_ → Z.min (rr_end r) stop ≤ cursor ∨ stop ≤ rr_start r;
  cv_count : (length (regions m) ≤ n)%nat
}.

(** Addresses between the cursor and the next reservation are not reserved. *)
Lemma gap_usable done_ todo n cursor m a :
  R = done_ ++ todo → carved done_ n cursor m → cursor ≤ a < stop → Forall (λ r, a < rr_start r) todo →
  carved_kind R Usable a.
Proof.
  intros ER Hc Ha Ht s Hs [Hs1 Hs2]. rewrite ER in Hs. apply elem_of_app in Hs as [Hs|Hs].
  - destruct (cv_done _ _ _ _ Hc s Hs); lia.
  - rewrite Forall_forall in Ht. specialize (Ht s Hs). lia.
Qed.

(** Pushing the piece [[cursor, e)] of kind [k] classifies it. *)
Lemma push_piece done_ k n cursor e m :
  carved done_ n cursor m → cursor ≤ e ≤ stop → e mod 4096 = 0 → (∀ a, cursor ≤ a < e → carved_kind R k a) →
  match Map.push_region (MkRegion cursor e k) m with
  | Ok m' => carved done_ (S n) e m'
  | Err _ => (MAX_MEMORY_REGIONS ≤ n)%nat
  end.
Proof.
  intros [Hr Hal Hok Hcov Hd Hn] He Hae Hk.
  pose proof (push_region_spec cursor (MkRegion cursor e k) m Hok) as Hp. cbn in Hp.
  specialize (Hp ltac:(lia) ltac:(lia) Hal Hae). destruct (Map.push_region _ m) as [m'|]; [|lia].
  destruct Hp as (H1 & H2 & H3). split; [lia|done|done| | |lia].
  2: { intros r Hrd. destruct (Hd r Hrd); lia. }
  intros k' a. rewrite H2, Hcov. unfold in_region. cbn. split.
  - intros [[?|[? ?]]|[<- ?]]; [by left|right; split; [lia|done]|right; split; [lia|by apply Hk]].
  - intros [?|[Ha Hc]]; [by left; left|]. destruct (decide (a < cursor)); [left; right; split; [lia|done]|].
    right. split; [|lia]. specialize (Hk a ltac:(lia)). destruct k, k'; try done; cbn in Hk, Hc.
    + destruct Hc as (r & ? & ?). by destruct (Hk r).
    + destruct Hk as (r & ? & ?). by destruct (Hc r).
Qed.

Lemma carve_step_spec done_ r todo n cursor m :
  R = done_ ++ r :: todo → carved done_ n cursor m →
  match carve_step stop r (cursor, m) with
  | Ok (cursor', m') => carved (done_ ++ [r]) (2 + n) cursor' m'
  | Err _ => (MAX_MEMORY_REGIONS < 2 + n)%nat
  end.
Proof.
  intros ER Hc. pose proof (cv_range _ _ _ _ Hc) as Hrange. unfold carve_step.
  assert (range_good r) as (Hr1 & Hr2 & Hr3).
  { rewrite Forall_forall in HR. apply HR. rewrite ER. set_solver. }
  assert (∀ n' c m', carved done_ n' c m' → (n' ≤ 2 + n)%nat → Z.min (rr_end r) stop ≤ c ∨ stop ≤ rr_start r →
                     carved (done_ ++ [r]) (2 + n) c m') as Hlast.
  { intros n' c m' [] Hn' Hd. split; auto; [|lia]. intros s [Hs|Hs]%elem_of_app; [auto|].
    apply list_elem_of_singleton in Hs as ->. done. }
  case_decide as Hskip; [apply (Hlast n); [done|lia|lia]|].
  assert (match (if decide (cursor < rr_start r) then Map.push_region (MkRegion cursor (rr_start r) Usable) m else Ok m) with
          | Ok m1 => carved done_ (S n) (Z.max (rr_start r) cursor) m1
          | Err _ => (MAX_MEMORY_REGIONS ≤ n)%nat end) as H1.
  { case_decide as Hgap.
    - rewrite Z.max_l by lia. apply push_piece; [done|lia|done|]. intros a Ha.
      apply (gap_usable done_ (r :: todo) n cursor m); auto; [lia|]. constructor; [lia|].
      rewrite ER in HRs. apply StronglySorted_app in HRs as (_ & _ & [H _]%StronglySorted_cons).
      eapply Forall_impl; [exact H|]. unfold by_key. lia.
    - rewrite Z.max_r by lia. destruct Hc. split; auto. }
  destruct (if decide _ then _ else _) as [m1|]; [|lia].
  pose proof (push_piece done_ Reserved (S n) _ (Z.min (rr_end r) stop) m1 H1) as H2.
  specialize (H2 ltac:(lia) ltac:(destruct (Z.min_spec (rr_end r) stop) as [[_ ->]|[_ ->]]; done)).
  destruct (Map.push_region _ m1) as [m2|].
  - apply (Hlast (S (S n))); [apply H2|lia|lia]. intros a Ha. exists r. split; [rewrite ER; set_solver|].
    unfold in_range. lia.
  - cut (MAX_MEMORY_REGIONS ≤ S n)%nat; [lia|]. apply H2. intros a Ha. exists r.
    split; [rewrite ER; set_solver|]. unfold in_range. lia.
Qed.

Lemma carve_spec todo done_ n cursor m :
  R = done_ ++ todo → carved done_ n cursor m →
  match try_fold (carve_step stop) todo (cursor, m) with
  | Ok (cursor', m') => carved R (2 * length todo + n) cursor' m'
  | Err _ => (MAX_MEMORY_REGIONS < 2 * length todo + n)%nat
  end.
Proof.
  revert done_ n cursor m. induction todo as [|r todo IH]; intros done_ n cursor m ER Hc; cbn [try_fold length].
  { rewrite app_nil_r in ER. by rewrite ER. }
  pose proof (carve_step_spec done_ r todo n cursor m ER Hc) as Hs.
  destruct (carve_step stop r (cursor, m)) as [[c' m']|]; [|lia].
  specialize (IH (done_ ++ [r]) (2 + n)%nat c' m'). rewrite <- app_assoc in IH. specialize (IH ER Hs).
  replace (2 * S (length todo) + n)%nat with (2 * length todo + (2 + n))%nat by lia. exact IH.
Qed.
End carve.

Definition raw_good (d : RawDescriptor) : Prop :=
  0 ≤ rd_start d < rd_end d ∧ rd_end d < 2 ^ 64 ∧ rd_start d mod 4096 = 0 ∧ rd_end d mod 4096 = 0.

(** What a descriptor's memory at [a] becomes. *)
Definition raw_kind (R : list ReservedRange) (d : RawDescriptor) (k : MemoryRegionKind) (a : Z) : Prop :=
  rd_start d ≤ a < rd_end d ∧ (if is_usable_memory_type (rd_ty d) then carved_kind R k a else k = Reserved).

Section normalize.
Context (R : list ReservedRange) (HR : Forall range_good R) (HRs : StronglySorted (by_key rr_start) R).

Lemma add_descriptor_spec hi d m :
  map_ok hi m → 0 ≤ hi ≤ rd_start d → raw_good d →
  match add_descriptor R d m with
  | Ok m' => map_ok (rd_end d) m' ∧ (∀ k a, covers m' k a ↔ covers m k a ∨ raw_kind R d k a)
             ∧ (length (regions m') ≤ 2 * length R + 1 + length (regions m))%nat
  | Err _ => (MAX_MEMORY_REGIONS < 2 * length R + 1 + length (regions m))%nat
  end.
Proof.
  intros Hm Hhi (H1 & H2 & H3 & H4). unfold add_descriptor, raw_kind.
  rewrite align_up_aligned, align_down_aligned, decide_False by first [done|lia].
  destruct (is_usable_memory_type (rd_ty d)).
  - assert (carved (rd_start d) (rd_end d) R m [] (length (regions m)) (rd_start d) m) as H0.
    { split; [lia|done|eapply map_ok_le; [|done]; lia| |by intros r ?%elem_of_nil|done].
      intros k a. split; [by left|]. intros [?|[? _]]; [done|lia]. }
    pose proof (carve_spec (rd_start d) (rd_end d) R m ltac:(lia) H4 HR HRs R [] _ _ _ eq_refl H0) as Hc.
    destruct (try_fold _ R _) as [[cursor m1]|]; [|lia].
    pose proof (cv_range _ _ _ _ _ _ _ _ Hc) as Hr. case_decide as Hlast.
    + pose proof (push_piece (rd_start d) (rd_end d) R m ltac:(lia) R Usable _ cursor (rd_end d) m1 Hc ltac:(lia) H4) as Hp.
      assert (∀ a, cursor ≤ a < rd_end d → carved_kind R Usable a) as Hu.
      { intros a Ha. eapply (gap_usable _ _ R m R []); [by rewrite app_nil_r|exact Hc|lia|done]. }
      specialize (Hp Hu). destruct (Map.push_region _ m1) as [m'|]; [|lia]. destruct Hp. split_and!; auto; lia.
    + assert (cursor = rd_end d) as -> by lia. destruct Hc. split_and!; auto; lia.
  - pose proof (push_region_spec hi (MkRegion (rd_start d) (rd_end d) Reserved) m Hm) as Hp. cbn in Hp.
    specialize (Hp ltac:(lia) ltac:(lia) H3 H4). destruct (Map.push_region _ m) as [m'|]; [|lia].
    destruct Hp as (Ha & Hb & Hc). split_and!; [done| |lia]. intros k a. rewrite Hb. unfold in_region. cbn.
    naive_solver.
Qed.

Lemma add_descriptors_spec ds hi m :
  map_ok hi m → 0 ≤ hi < 2 ^ 64 → Forall raw_good ds → Forall (λ d, hi ≤ rd_start d) ds →
  StronglySorted (λ d e, rd_end d ≤ rd_start e) ds →
  match try_fold (add_descriptor R) ds m with
  | Ok m' => map_ok (2 ^ 64 - 1) m' ∧ (∀ k a, covers m' k a ↔ covers m k a ∨ ∃ d, d ∈ ds ∧ raw_kind R d k a)
  | Err _ => (MAX_MEMORY_REGIONS < length ds * (2 * length R + 1) + length (regions m))%nat
  end.
Proof.
  revert hi m. induction ds as [|d ds IH]; intros hi m Hm Hhi Hg Hlo Hs; cbn [try_fold length].
  { split; [eapply map_ok_le; [|done]; lia|]. intros k a. split; [by left|]. intros [?|(d & ?%elem_of_nil & _)]; done. }
  apply Forall_cons in Hg as [Hd Hg]. apply Forall_cons in Hlo as [Hld _]. apply StronglySorted_cons in Hs as [Hb Hs].
  pose proof (add_descriptor_spec hi d m Hm ltac:(lia) Hd) as Ha.
  destruct (add_descriptor R d m) as [m1|]; [|lia]. destruct Ha as (Hm1 & Hc1 & Hn1).
  destruct Hd as (Hd1 & Hd2 & _). specialize (IH (rd_end d) m1 Hm1 ltac:(lia) Hg Hb Hs).
  destruct (try_fold _ ds m1) as [m'|]; [|nia]. destruct IH as [IH1 IH2]. split; [done|]. intros k a.
  rewrite IH2, Hc1. set_solver.
Qed.
End normalize.

(** ** The firmware's promises

    Descriptors are page aligned and non-empty, stay within the address space, and do
    not overlap (UEFI specification, GetMemoryMap). *)

Definition desc_end (d : MemoryDescriptor) : Z := phys_start d + page_count d * PAGE_SIZE.

Definition desc_ok (d : MemoryDescriptor) : Prop :=
  0 ≤ phys_start d ∧ phys_start d mod 4096 = 0 ∧ 0 < page_count d ∧ desc_end d < 2 ^ 64.

Record firmware_ok (ds : list MemoryDescriptor) : Prop := {
  fw_ok : Forall desc_ok ds;
  fw_starts : NoDup (phys_start <$> ds);
  fw_disjoint : ∀ d e, d ∈ ds → e ∈ ds → phys_start d < phys_start e → desc_end d ≤ phys_start e
}.

(** What physical address [a] is, given the firmware's map and the reservations. *)
Definition memory_kind (ds : list MemoryDescriptor) (rs : list ReservedRange) (k : MemoryRegionKind) (a : Z) : Prop :=
  ∃ d, d ∈ ds ∧ phys_start d ≤ a < desc_end d ∧
    match k with
    | Usable => ty d = CONVENTIONAL ∧ ¬ reserved_at rs a
    | Reserved => ty d ≠ CONVENTIONAL ∨ reserved_at rs a
    end.

Lemma raw_of_ok d : desc_ok d → raw_of d = MkRaw (phys_start d) (desc_end d) (ty d) ∧ raw_good (raw_of d).
Proof.
  intros (H1 & H2 & H3 & H4). unfold raw_of, saturating_add64, saturating_mul64, u64_max, max_of.
  unfold desc_end, PAGE_SIZE in *. rewrite !Z.min_r by lia. split; [done|]. unfold raw_good. cbn.
  rewrite Z.add_mod, Z.mod_mul, H2 by done. split_and!; auto; lia.
Qed.

Lemma raw_sorted l ds :
  firmware_ok ds → l ≡ₚ raw_of <$> ds → StronglySorted (by_key rd_start) l →
  Forall raw_good l ∧ StronglySorted (λ d e, rd_end d ≤ rd_start e) l.
Proof.
  intros [Hok Hnd Hdis] Hp Hs. rewrite Forall_forall in Hok. split.
  { apply Forall_forall. intros r Hr. rewrite Hp in Hr. apply list_elem_of_fmap in Hr as (d & -> & Hd).
    by apply raw_of_ok, Hok. }
  assert (NoDup (rd_start <$> l)) as Hnd'.
  { rewrite Hp, <- list_fmap_compose. done. }
  assert (∀ x y, x ∈ l → y ∈ l → rd_start x < rd_start y → rd_end x ≤ rd_start y) as Hlt.
  { intros x y Hx Hy. rewrite Hp in Hx, Hy. apply list_elem_of_fmap in Hx as (d & -> & Hd), Hy as (e & -> & He).
    destruct (raw_of_ok d) as [-> _]; [by apply Hok|]. destruct (raw_of_ok e) as [-> _]; [by apply Hok|]. cbn. auto. }
  clear Hp Hdis Hnd Hok ds. induction l as [|x l IH]; [constructor|].
  apply StronglySorted_cons in Hs as [Hx Hs]. cbn in Hnd'. apply NoDup_cons in Hnd' as [Hni Hnd].
  constructor; [apply IH; auto; intros; apply Hlt; auto; by right|].
  apply Forall_forall. intros y Hy. rewrite Forall_forall in Hx. specialize (Hx y Hy). unfold by_key in Hx.
  apply Hlt; [by left|by right|]. enough (rd_start x ≠ rd_start y) by lia. intros E. apply Hni. rewrite E.
  by apply list_elem_of_fmap_2.
Qed.

(** * The map is exact *)

Lemma normalize_spec (ds : list MemoryDescriptor) (rs : list ReservedRange) (m0 : NormalizedMemoryMap) :
  firmware_ok ds → Forall range_ok rs →
  match normalize_memory_map ds rs m0 with
  | Ok m => map_ok (2 ^ 64 - 1) m ∧ ∀ k a, covers m k a ↔ memory_kind ds rs k a
  | Err _ => (MAX_MEMORY_REGIONS < length ds * (2 * length rs + 3) ∨ MAX_MEMORY_REGIONS < length rs)%nat
  end.
Proof.
  intros Hfw Hrs. unfold normalize_memory_map. rewrite collect_descriptors_spec. case_decide as Hlen; [|left; nia].
  pose proof (collect_reserved_spec rs Hrs) as Hcr. destruct (collect_reserved_ranges rs) as [c|]; [|by right].
  destruct Hcr as (R & [= _ ->] & HRcap & HRlen & HRgood & HRin).
  unfold sort_descriptors, sort_reserved_ranges.
  destruct (flatten_sort rr_start R (MAX_RESERVED_RANGES - length R)) as [HRp HRs].
  destruct (flatten_sort rd_start (raw_of <$> ds) (MAX_MEMORY_REGIONS - length ds)) as [Hdp Hds].
  set (R' := flatten _) in HRp, HRs |- *. set (D := flatten _) in Hdp, Hds |- *.
  assert (Forall range_good R') as HRg by by rewrite HRp.
  destruct (raw_sorted D ds Hfw Hdp Hds) as [HDg HDs].
  pose proof (add_descriptors_spec R' HRg HRs D 0 (Map.clear m0)) as Ha.
  assert (map_ok 0 (Map.clear m0)) as Hm0 by by repeat constructor.
  assert (Forall (λ d, 0 ≤ rd_start d) D) as HD0.
  { eapply Forall_impl; [exact HDg|]. intros d (? & _). lia. }
  specialize (Ha Hm0 ltac:(lia) HDg HD0 HDs).
  apply Permutation_length in HRp as HRl. apply Permutation_length in Hdp as Hdl. rewrite length_fmap in Hdl.
  destruct (try_fold _ D _) as [m|]; [|left; cbn in Ha; nia].
  destruct Ha as [Hok Hcov]. split; [done|]. intros k a. rewrite Hcov.
  assert (∀ b, (∃ r, r ∈ R' ∧ in_range b r) ↔ reserved_at rs b) as Hin.
  { intros b. rewrite <- HRin. by setoid_rewrite HRp. }
  pose proof (fw_ok _ Hfw) as Hd. rewrite Forall_forall in Hd.
  assert (∀ d, d ∈ ds → raw_kind R' (raw_of d) k a ↔ phys_start d ≤ a < desc_end d ∧
    match k with Usable => ty d = CONVENTIONAL ∧ ¬ reserved_at rs a | Reserved => ty d ≠ CONVENTIONAL ∨ reserved_at rs a end) as Hk.
  { intros d Hdd. destruct (raw_of_ok d (Hd d Hdd)) as [-> _]. unfold raw_kind, is_usable_memory_type. cbn.
    destruct k; cbn [carved_kind]; rewrite <- ?Hin; case_bool_decide; naive_solver. }
  split.
  - intros [(r & ?%elem_of_nil & _)|(x & Hx & Hxk)]; [done|]. rewrite Hdp in Hx.
    apply list_elem_of_fmap in Hx as (d & -> & Hdd). exists d. by rewrite <- Hk.
  - intros (d & Hdd & Ha). right. exists (raw_of d). rewrite Hdp, Hk by done. split; [by apply list_elem_of_fmap_2|done].
Qed.

(** On a firmware map of page-aligned, non-overlapping descriptors and reservations
    below the last page, a successful [normalize_memory_map] yields page-aligned,
    non-empty regions in strictly increasing address order whose byte totals are exact,
    and classifies every address: an address is in a usable region exactly when some
    CONVENTIONAL descriptor holds it and neither page zero nor any page touched by a
    reservation does, and in a reserved region exactly when a descriptor holds it and it
    is not usable. It can only fail for lack of room: within the fixed capacities it
    always returns a map. *)
Theorem normalize_exact (ds : list MemoryDescriptor) (rs : list ReservedRange) (m0 : NormalizedMemoryMap) :
  firmware_ok ds → Forall range_ok rs →
  match normalize_memory_map ds rs m0 with
  | Ok m => map_ok (2 ^ 64 - 1) m ∧ ∀ k a, covers m k a ↔ memory_kind ds rs k a
  | Err _ => (MAX_MEMORY_REGIONS < length ds * (2 * length rs + 3) ∨ MAX_MEMORY_REGIONS < length rs)%nat
  end.
Proof. apply normalize_spec. Qed.

(** A small machine: low memory, a firmware hole, and 16 pages of RAM with a reservation. *)
Module SmallMachine.
Definition descriptors : list MemoryDescriptor :=
  [MkDescriptor CONVENTIONAL 0x100000 16; MkDescriptor CONVENTIONAL 0 8; MkDescriptor 0 0xa000 2].

Definition reservations : list ReservedRange := [MkRange 0x103800 0x104800; MkRange 0x102000 0x104000].

Lemma firmware : firmware_ok descriptors.
Proof.
  split.
  - repeat constructor; cbn; lia.
  - cbn. repeat (constructor; [set_solver by lia|]). constructor.
  - intros d e Hd He. set_unfold. unfold desc_end, PAGE_SIZE. naive_solver lia.
Qed.

Lemma reservations_ok : Forall range_ok reservations.
Proof. repeat constructor; cbn; lia. Qed.

Definition map : NormalizedMemoryMap :=
  MkMap [MkRegion 0 0x1000 Reserved; MkRegion 0x1000 0x8000 Usable; MkRegion 0xa000 0xc000 Reserved;
         MkRegion 0x100000 0x102000 Usable; MkRegion 0x102000 0x105000 Reserved; MkRegion 0x105000 0x110000 Usable]
    0x14000 0x6000.

Lemma normalized : normalize_memory_map descriptors reservations Map.empty = Ok map.
Proof. vm_compute. reflexivity. Qed.
End SmallMachine.

Lemma normalize_exact_witness :
  map_ok (2 ^ 64 - 1) SmallMachine.map ∧
  ∀ k a, covers SmallMachine.map k a ↔ memory_kind SmallMachine.descriptors SmallMachine.reservations k a.
Proof.
  pose proof (normalize_exact SmallMachine.descriptors SmallMachine.reservations Map.empty
    SmallMachine.firmware SmallMachine.reservations_ok) as H.
  rewrite SmallMachine.normalized in H. exact H.
Defined.
