(* ===== verification/FrameAllocator.v ===== *)
(** The physical page allocator (kernel/src/mm/frame_allocator.rs).

    The allocator hands out frames from a table of usable regions: first from an
    intrusive free list threaded through the freed frames themselves, then by bumping
    [next_page] through the regions. Physical memory is a map from frame addresses to
    the 4096 bytes of the frame, so the list's nodes share the store with whatever the
    owners of allocated frames write.

    [debug_assertions] selects the profile: without it freed frames are pushed at the
    list's head; with it they are poisoned and queued at its tail, and a popped frame
    whose poison was overwritten stops the kernel ([fatal_kernel_error]), which is the
    [Err] of the operations that pop. The byte layout of [Option<u64>] in a node is the
    compiler's; the class [NodeLayout] states what the code relies on. *)

From Stdlib Require Import ZArith Lia String.
From stdpp Require Import base list gmap sets tactics decidable numbers sorting.
From S2P Require Import Prelude Bytes MemoryMap.

Local Open Scope Z_scope.

(** ** Physical memory *)

Abbreviation PhysMem := (gmap Z (list Z)).

Definition zero_frame : list Z := replicate 4096 0.

Definition frame_bytes (mem : PhysMem) (frame : Z) : list Z := default zero_frame (mem !! frame).

Definition FREE_NODE_BYTES : nat := 16.
Definition FRAME_POISON_QWORD : Z := 0xDEADBEEFDEADBEEF.

(** [FreePageNode { next: Option<u64> }] as bytes. *)
Class NodeLayout : Type := {
  encode_node : option Z → list Z;
  decode_node : list Z → option Z;
  encode_node_length : ∀ next, length (encode_node next) = FREE_NODE_BYTES;
  decode_encode_node : ∀ next, from_option (in_width 64) True next → decode_node (encode_node next) = next
}.

Definition read_node `{NodeLayout} (mem : PhysMem) (frame : Z) : option Z :=
  decode_node (slice 0 FREE_NODE_BYTES (frame_bytes mem frame)).

Definition write_node `{NodeLayout} (frame : Z) (next : option Z) (mem : PhysMem) : PhysMem :=
  <[frame := blit 0 (encode_node next) (frame_bytes mem frame)]> mem.

(** [offset = FREE_NODE_BYTES + 8 * i] *)
Definition poison_offset (i : nat) : nat := (FREE_NODE_BYTES + 8 * i)%nat.
Definition POISON_QWORDS : nat := 510.

Definition poison_freed_frame (frame : Z) (mem : PhysMem) : PhysMem :=
  for_range 0 POISON_QWORDS
    (λ i mem, <[frame := blit (poison_offset i) (le_encode 8 FRAME_POISON_QWORD) (frame_bytes mem frame)]> mem) mem.

Definition assert_frame_poison_intact (frame : Z) (mem : PhysMem) : result string unit :=
  try_range 0 POISON_QWORDS
    (λ i _, if decide (u64_at (poison_offset i) (frame_bytes mem frame) = FRAME_POISON_QWORD) then Ok ()
            else Err "physical page allocator detected frame reuse before poison check"%string) ().

(** ** The allocator *)

Record PageAllocator : Type := MkAllocator {
  usable_regions : list MemoryRegion;
  current_region : nat;
  next_page : Z;
  free_list_head : option Z;
  free_list_tail : option Z;
  total_pages : Z;
  available_pages : Z
}.

Record PageAllocatorStats : Type := MkStats { st_total : Z; st_allocated : Z; st_free : Z }.

Module Alloc.
Definition set_position (region : nat) (next : Z) (a : PageAllocator) : PageAllocator :=
  MkAllocator (usable_regions a) region next (free_list_head a) (free_list_tail a) (total_pages a) (available_pages a).

Definition set_list (head tail : option Z) (a : PageAllocator) : PageAllocator :=
  MkAllocator (usable_regions a) (current_region a) (next_page a) head tail (total_pages a) (available_pages a).

Definition set_available (n : Z) (a : PageAllocator) : PageAllocator :=
  MkAllocator (usable_regions a) (current_region a) (next_page a) (free_list_head a) (free_list_tail a) (total_pages a) n.

(** [self.available_pages -= n] and [+= n] *)
Definition take_available (n : Z) (a : PageAllocator) : PageAllocator :=
  set_available (wrap 64 (available_pages a - n)) a.

Definition give_available (n : Z) (a : PageAllocator) : PageAllocator :=
  set_available (wrap 64 (available_pages a + n)) a.

(** ** Construction *)

(** One region of the memory map. *)
Definition add_region (region : MemoryRegion) (a : PageAllocator) : result string PageAllocator :=
  if decide (rg_kind region = Usable) then
    let start := Z.max (rg_start region) PAGE_SIZE in
    if decide (rg_end region ≤ start) then Ok a
    else if decide (length (usable_regions a) = MAX_MEMORY_REGIONS)
    then Err "allocator usable-region capacity exceeded"%string
    else Ok (MkAllocator (usable_regions a ++ [MkRegion start (rg_end region) Usable]) (current_region a) (next_page a)
               (free_list_head a) (free_list_tail a)
               (wrapping_add 64 (total_pages a) ((rg_end region - start) / PAGE_SIZE)) (available_pages a))
  else Ok a.

(** The region table is a global that one allocator claims for good; [claimed] is its flag. *)
Definition claim_usable_region_table (claimed : bool) : bool * result string unit :=
  if claimed then (true, Err "page allocator region table is already owned by an allocator"%string)
  else (true, Ok ()).

Definition new (claimed : bool) (memory_map : NormalizedMemoryMap) : bool * result string PageAllocator :=
  let?+ claimed, _ := claim_usable_region_table claimed in
  (claimed,
   let? a := try_fold add_region (regions memory_map) (MkAllocator [] 0 0 None None 0 0) in
   match usable_regions a with
   | [] => Err "no usable physical memory regions available"%string
   | first :: _ => Ok (set_available (total_pages a) (set_position (current_region a) (rg_start first) a))
   end).

Definition stats (a : PageAllocator) : PageAllocatorStats :=
  MkStats (total_pages a) (wrap 64 (total_pages a - available_pages a)) (available_pages a).

Definition region_index_containing (frame : Z) (a : PageAllocator) : option nat :=
  position (λ r, bool_decide (rg_start r ≤ frame) && bool_decide (frame < rg_end r)) (usable_regions a).

Definition was_ever_allocated (frame : Z) (a : PageAllocator) : bool :=
  match region_index_containing frame a with
  | None => false
  | Some region_index =>
      if decide (region_index < current_region a)%nat then true
      else bool_decide (region_index = current_region a) && bool_decide (frame < next_page a)
  end.

(** ** The free list *)

Section ops.
Context `{NodeLayout} (debug_assertions : bool).

Definition push_free_page_fifo (frame : Z) (mem : PhysMem) (a : PageAllocator) : PhysMem * PageAllocator :=
  let mem := write_node frame None mem in
  match free_list_tail a with
  | Some tail => (write_node tail (Some frame) mem, set_list (free_list_head a) (Some frame) a)
  | None => (mem, set_list (Some frame) (Some frame) a)
  end.

Definition push_free_page (frame : Z) (mem : PhysMem) (a : PageAllocator) : PhysMem * PageAllocator :=
  if debug_assertions then push_free_page_fifo frame (poison_freed_frame frame mem) a
  else (write_node frame (free_list_head a) mem, set_list (Some frame) (free_list_tail a) a).

Definition pop_free_page (mem : PhysMem) (a : PageAllocator) : result string (PageAllocator * option Z) :=
  match free_list_head a with
  | None => Ok (a, None)
  | Some frame =>
      let? _ := (if debug_assertions then assert_frame_poison_intact frame mem else Ok ()) in
      let head := read_node mem frame in
      let tail := if debug_assertions && bool_decide (head = None) then None else free_list_tail a in
      Ok (set_list head tail a, Some frame)
  end.

(** [while let Some(candidate) = current]; [fuel] bounds the walk. *)
Fixpoint walk_intersects (fuel : nat) (mem : PhysMem) (current : option Z) (lo hi : Z) : bool :=
  match fuel with
  | O => false
  | S fuel =>
      match current with
      | None => false
      | Some candidate =>
          if decide (lo ≤ candidate < hi) then true
          else walk_intersects fuel mem (read_node mem candidate) lo hi
      end
  end.

Definition free_list_intersects (mem : PhysMem) (a : PageAllocator) (lo hi : Z) : bool :=
  walk_intersects (Z.to_nat (total_pages a)) mem (free_list_head a) lo hi.

(** ** Single frames *)

(** The loop over the regions; each iteration without a frame advances [current_region]. *)
Fixpoint bump (fuel : nat) (a : PageAllocator) : PageAllocator * option Z :=
  match fuel with
  | O => (a, None)
  | S fuel =>
      match usable_regions a !! current_region a with
      | None => (a, None)
      | Some region =>
          if decide (next_page a < rg_end region) then
            let frame := next_page a in
            (take_available 1 (set_position (current_region a) (saturating_add64 frame PAGE_SIZE) a), Some frame)
          else
            let current := S (current_region a) in
            match usable_regions a !! current with
            | Some following => bump fuel (set_position current (rg_start following) a)
            | None => bump fuel (set_position current (next_page a) a)
            end
      end
  end.

Definition allocate_page (mem : PhysMem) (a : PageAllocator) : result string (PageAllocator * option Z) :=
  let? popped := pop_free_page mem a in
  let '(a, frame) := popped in
  match frame with
  | Some frame => Ok (take_available 1 a, Some frame)
  | None => Ok (bump (length (usable_regions a) - current_region a) a)
  end.

(** ** Runs *)

(** [while frame < end { push; frame += PAGE_SIZE }], [n] pages from [base]. *)
Definition push_pages (base : Z) (n : nat) (st : PhysMem * PageAllocator) : PhysMem * PageAllocator :=
  for_range 0 n (λ i '(mem, a), push_free_page (base + Z.of_nat i * PAGE_SIZE) mem a) st.

Definition free_run (base pages : Z) (mem : PhysMem) (a : PageAllocator) : (PhysMem * PageAllocator) * result string unit :=
  let st := (mem, a) in
  if decide (base mod PAGE_SIZE ≠ 0) then (st, Err "attempted to free a non-page-aligned frame"%string)
  else
    match bytes ← checked_mul 64 pages PAGE_SIZE; stop ← checked_add 64 base bytes; if decide (stop > base) then Some stop else None with
    | None => (st, Err "attempted to free an empty or overflowing frame run"%string)
    | Some stop =>
        match region_index_containing base a ≫= λ i, usable_regions a !! i with
        | None => (st, Err "attempted to free a frame outside usable memory"%string)
        | Some region =>
            if decide (stop > rg_end region)
            then (st, Err "attempted to free a frame run crossing a usable region"%string)
            else if negb (was_ever_allocated (stop - PAGE_SIZE) a)
            then (st, Err "attempted to free a frame that was never allocated"%string)
            else if free_list_intersects mem a base stop
            then (st, Err "attempted to free an already-free frame"%string)
            else
              let '(mem, a) := push_pages base (Z.to_nat ((stop - base) / PAGE_SIZE)) st in
              ((mem, give_available pages a), Ok ())
        end
    end.

Definition free_page (frame : Z) : PhysMem → PageAllocator → (PhysMem * PageAllocator) * result string unit :=
  free_run frame 1.

(** The search for a region with [min_bytes] left: its index and where the run starts. *)
Fixpoint find_region (l : list MemoryRegion) (region_index current : nat) (start min_bytes : Z) : nat * Z :=
  match l with
  | [] => (region_index, start)
  | region :: l =>
      let start := if decide (region_index ≠ current) then rg_start region else start in
      if decide (min_bytes ≤ saturating_sub (rg_end region) start) then (region_index, start)
      else find_region l (S region_index) current start min_bytes
  end.

(** Releases the skipped pages from [frame] to the end of one region. *)
Definition release_tail (frame stop : Z) (st : PhysMem * PageAllocator) : PhysMem * PageAllocator :=
  for_range 0 (Z.to_nat ((stop - frame + (PAGE_SIZE - 1)) / PAGE_SIZE))
    (λ i '(mem, a), fst (free_page (frame + Z.of_nat i * PAGE_SIZE) mem (take_available 1 a))) st.

Definition release_skipped (from : nat) (skipped_from : Z) (upto : nat) (st : PhysMem * PageAllocator)
  : PhysMem * PageAllocator :=
  for_range from upto
    (λ index '(mem, a),
       match usable_regions a !! index with
       | Some region =>
           release_tail (if decide (index = from) then Z.max skipped_from (rg_start region) else rg_start region)
             (rg_end region) (mem, a)
       | None => (mem, a)
       end) st.

Definition allocate_run (min_pages max_pages : Z) (mem : PhysMem) (a : PageAllocator)
  : result string ((PhysMem * PageAllocator) * option (Z * Z)) :=
  if decide (min_pages = 0 ∨ min_pages > max_pages) then Ok ((mem, a), None)
  else
    match checked_mul 64 min_pages PAGE_SIZE with
    | None => Ok ((mem, a), None)
    | Some min_bytes =>
        let '(region_index, start) :=
          find_region (drop (current_region a) (usable_regions a)) (current_region a) (current_region a)
            (next_page a) min_bytes in
        match usable_regions a !! region_index with
        | None =>
            if decide (min_pages ≠ 1) then Ok ((mem, a), None)
            else
              let? popped := pop_free_page mem a in
              let '(a, frame) := popped in
              match frame with
              | Some frame => Ok ((mem, take_available 1 a), Some (frame, 1))
              | None => Ok ((mem, a), None)
              end
        | Some region =>
            let pages := Z.min ((rg_end region - start) / PAGE_SIZE) max_pages in
            let a' := take_available pages (set_position region_index (start + pages * PAGE_SIZE) a) in
            Ok (release_skipped (current_region a) (next_page a) region_index (mem, a'), Some (start, pages))
        end
    end.
End ops.
End Alloc.
