(* ===== verification/FrameSpec.v ===== *)
(** The page allocator as a set of frames: invariant, exact effect of every operation,
    and refinement of an abstract frame set.

    A well-formed allocator splits the frames of its regions into three groups: those the
    bump pointer has not reached ([untouched]), those on the free list, and those held by
    callers. [alloc_core] states this together with the shape of the intrusive list in
    physical memory; every operation moves frames between the groups and leaves the bytes
    of held frames alone. *)

From Stdlib Require Import ZArith Lia String.
From stdpp Require Import base list gmap sets tactics decidable numbers sorting.
From S2P Require Import Prelude Bytes MemoryMap FrameAllocator.

Local Open Scope Z_scope.

(** ** Frames of an address range *)

Definition aligned (a : Z) : Prop := a mod 4096 = 0.

#[export] Instance aligned_dec a : Decision (aligned a).
Proof. unfold aligned. apply _. Defined.

Definition frames (lo hi : Z) : list Z := (λ i, lo + i * 4096) <$> seqZ 0 ((hi - lo) / 4096).

Lemma aligned_spec a : aligned a ↔ ∃ q, a = q * 4096.
Proof.
  unfold aligned. split.
  - intros H. exists (a / 4096). pose proof (Z.div_mod a 4096). lia.
  - intros [q ->]. by apply Z.mod_mul.
Qed.

Lemma aligned_add a n : aligned a → aligned (a + n * 4096).
Proof. rewrite !aligned_spec. intros [q ->]. exists (q + n). lia. Qed.

Lemma pages_between lo hi : aligned lo → aligned hi → hi - lo = (hi - lo) / 4096 * 4096.
Proof.
  rewrite !aligned_spec. intros [q ->] [p ->]. replace (p * 4096 - q * 4096) with ((p - q) * 4096) by lia.
  by rewrite Z.div_mul.
Qed.

Lemma elem_of_frames lo hi f :
  aligned lo → aligned hi → f ∈ frames lo hi ↔ lo ≤ f < hi ∧ aligned f.
Proof.
  intros Hlo Hhi. pose proof (pages_between lo hi Hlo Hhi) as Hn. unfold frames.
  rewrite list_elem_of_fmap. setoid_rewrite elem_of_seqZ. split.
  - intros (i & -> & Hi). split; [nia|by apply aligned_add].
  - intros [Hf Ha]. apply aligned_spec in Hlo as [q ->], Ha as [p ->]. exists (p - q). split; [lia|]. nia.
Qed.

Lemma NoDup_frames lo hi : NoDup (frames lo hi).
Proof. apply NoDup_fmap; [intros i j; lia|]. apply NoDup_seqZ. Qed.

Lemma length_frames lo hi : length (frames lo hi) = Z.to_nat ((hi - lo) / 4096).
Proof. unfold frames. by rewrite length_fmap, length_seqZ. Qed.

Lemma frames_nil lo hi : hi ≤ lo → frames lo hi = [].
Proof.
  intros H. unfold frames. rewrite seqZ_nil; [done|].
  destruct (decide (hi = lo)) as [->|]; [by rewrite Z.sub_diag|].
  assert ((hi - lo) / 4096 < 0) by (apply Z.div_lt_upper_bound; lia). lia.
Qed.

Lemma frames_app lo mid hi :
  aligned lo → aligned mid → aligned hi → lo ≤ mid ≤ hi → frames lo hi = frames lo mid ++ frames mid hi.
Proof.
  intros [q ->]%aligned_spec [p ->]%aligned_spec [r ->]%aligned_spec H. unfold frames.
  rewrite <- !Z.mul_sub_distr_r, !Z.div_mul by done.
  replace (r - q) with ((p - q) + (r - p)) by lia. rewrite seqZ_app, fmap_app by lia. f_equal.
  rewrite Z.add_0_l, <- (Z.add_0_r (p - q)) at 1. rewrite <- fmap_add_seqZ, <- list_fmap_compose.
  apply list_fmap_ext. intros _ i _. cbn. lia.
Qed.

Lemma frames_one lo : frames lo (lo + 4096) = [lo].
Proof. unfold frames. replace (lo + 4096 - lo) with 4096 by lia. change ([lo + 0] = [lo]). by rewrite Z.add_0_r. Qed.

Lemma frames_cons lo hi : aligned lo → aligned hi → lo < hi → frames lo hi = lo :: frames (lo + 4096) hi.
Proof.
  intros Hlo Hhi H. pose proof (pages_between lo hi Hlo Hhi) as Hn.
  rewrite (frames_app lo (lo + 4096) hi), frames_one; auto; [by apply (aligned_add lo 1)|lia].
Qed.

Lemma frames_snoc lo hi : aligned lo → aligned hi → lo ≤ hi → frames lo (hi + 4096) = frames lo hi ++ [hi].
Proof.
  intros Hlo Hhi H. rewrite (frames_app lo hi (hi + 4096)), frames_one; auto; [by apply (aligned_add hi 1)|lia].
Qed.

(** ** Frames of a region table *)

Definition all_frames (l : list MemoryRegion) : list Z := l ≫= λ r, frames (rg_start r) (rg_end r).

Record regions_ok (l : list MemoryRegion) : Prop := {
  rok_good : Forall (region_good (2 ^ 64 - 1)) l;
  rok_low : Forall (λ r, PAGE_SIZE ≤ rg_start r) l;
  rok_usable : Forall (λ r, rg_kind r = Usable) l;
  rok_sorted : StronglySorted before l
}.

Lemma rok_lookup l i r :
  regions_ok l → l !! i = Some r →
  PAGE_SIZE ≤ rg_start r < rg_end r ∧ rg_end r < 2 ^ 64 ∧ aligned (rg_start r) ∧ aligned (rg_end r).
Proof.
  intros [Hg Hl _ _] Hr. rewrite Forall_lookup in Hg, Hl. destruct (Hg _ _ Hr) as (H1 & H2 & H3 & H4).
  specialize (Hl _ _ Hr). cbn in Hl. split_and!; auto; lia.
Qed.

Lemma rok_before l i j r s : regions_ok l → l !! i = Some r → l !! j = Some s → (i < j)%nat → rg_end r ≤ rg_start s.
Proof.
  intros [_ _ _ Hs]. revert i j. induction Hs as [|x l Hs IH Hx]; intros i j Hi Hj Hij; [done|].
  destruct j as [|j]; [lia|]. destruct i as [|i].
  - cbn in Hi, Hj. simplify_eq. rewrite Forall_lookup in Hx. apply (Hx j s Hj).
  - apply (IH i j); auto. lia.
Qed.

(** An address lies in at most one region. *)
Lemma rok_unique l i j r s f :
  regions_ok l → l !! i = Some r → l !! j = Some s →
  rg_start r ≤ f < rg_end r → rg_start s ≤ f < rg_end s → i = j.
Proof.
  intros Hok Hi Hj Hr Hs. destruct (decide (i < j)%nat) as [Hlt|].
  { pose proof (rok_before l i j r s Hok Hi Hj Hlt). lia. }
  destruct (decide (j < i)%nat) as [Hlt|]; [|lia]. pose proof (rok_before l j i s r Hok Hj Hi Hlt). lia.
Qed.

Lemma elem_of_all_frames l f :
  regions_ok l → f ∈ all_frames l ↔ aligned f ∧ ∃ i r, l !! i = Some r ∧ rg_start r ≤ f < rg_end r.
Proof.
  intros Hok. unfold all_frames. rewrite list_elem_of_bind. split.
  - intros (r & Hf & [i Hi]%list_elem_of_lookup). destruct (rok_lookup l i r Hok Hi) as (_ & _ & H1 & H2).
    apply elem_of_frames in Hf as [? ?]; eauto.
  - intros (Ha & i & r & Hi & Hf). exists r. split; [|by eapply list_elem_of_lookup_2].
    destruct (rok_lookup l i r Hok Hi) as (_ & _ & H1 & H2). by apply elem_of_frames.
Qed.

Lemma rok_cons r l : regions_ok (r :: l) → regions_ok l.
Proof.
  intros [H1 H2 H3 H4]. apply Forall_cons in H1 as [_ ?], H2 as [_ ?], H3 as [_ ?]. apply StronglySorted_cons in H4 as [_ ?].
  by split.
Qed.

Lemma NoDup_all_frames l : regions_ok l → NoDup (all_frames l).
Proof.
  induction l as [|r l IH]; intros Hok; [constructor|]. cbn. apply NoDup_app. split_and!.
  - apply NoDup_frames.
  - intros f Hf Hf'. destruct (rok_lookup (r :: l) 0 r Hok eq_refl) as (_ & _ & H1 & H2).
    apply elem_of_frames in Hf as [Hf _]; [|done|done].
    apply elem_of_all_frames in Hf' as (_ & i & s & Hi & Hs); [|by eapply rok_cons].
    pose proof (rok_unique (r :: l) 0 (S i) r s f Hok eq_refl Hi Hf Hs). lia.
  - eapply IH, rok_cons, Hok.
Qed.

Lemma length_all_frames l : regions_ok l → Z.of_nat (length (all_frames l)) * 4096 = total Usable l.
Proof.
  induction l as [|r l IH]; intros Hok; [done|]. specialize (IH (rok_cons _ _ Hok)).
  destruct (rok_lookup (r :: l) 0 r Hok eq_refl) as (H0 & _ & H1 & H2).
  pose proof (pages_between _ _ H1 H2) as Hp. pose proof (rok_usable _ Hok) as [Hk _]%Forall_cons.
  cbn [all_frames mbind list_bind total]. unfold kind_len. rewrite decide_True by done.
  rewrite length_app, length_frames. change (_ ≫= _) with (all_frames l). nia.
Qed.

Lemma all_frames_bound l : regions_ok l → Z.of_nat (length (all_frames l)) < 2 ^ 64.
Proof.
  intros Hok. pose proof (length_all_frames l Hok) as Hl. destruct Hok as [H1 H2 H3 H4].
  assert (Forall (λ r, 0 ≤ rg_start r) l) as Hz by (eapply Forall_impl; [exact H2|]; unfold PAGE_SIZE; lia).
  pose proof (total_bound (2 ^ 64 - 1) 0 l ltac:(lia) H1 Hz H4). lia.
Qed.

(** ** The three groups of frames *)

(** The bump pointer stands in the current region. *)
Record pos_ok (a : PageAllocator) : Prop := {
  pos_current : (current_region a ≤ length (usable_regions a))%nat;
  pos_next : ∀ r, usable_regions a !! current_region a = Some r →
             rg_start r ≤ next_page a ≤ rg_end r ∧ aligned (next_page a)
}.

Definition untouched (a : PageAllocator) : list Z :=
  match drop (current_region a) (usable_regions a) with
  | [] => []
  | r :: rest => frames (next_page a) (rg_end r) ++ all_frames rest
  end.

Definition touched (a : PageAllocator) : list Z :=
  all_frames (take (current_region a) (usable_regions a)) ++
  match usable_regions a !! current_region a with
  | Some r => frames (rg_start r) (next_page a)
  | None => []
  end.

Lemma all_frames_app l1 l2 : all_frames (l1 ++ l2) = all_frames l1 ++ all_frames l2.
Proof. apply bind_app. Qed.

Lemma all_frames_cons r l : all_frames (r :: l) = frames (rg_start r) (rg_end r) ++ all_frames l.
Proof. done. Qed.

Lemma drop_lookup {A : Type} (l : list A) i x : l !! i = Some x → drop i l = x :: drop (S i) l.
Proof. intros H. by apply drop_S. Qed.

Lemma touched_untouched a :
  regions_ok (usable_regions a) → pos_ok a → touched a ++ untouched a = all_frames (usable_regions a).
Proof.
  intros Hok [Hc Hn]. unfold touched, untouched. destruct (usable_regions a !! current_region a) as [r|] eqn:Er.
  - destruct (Hn r eq_refl) as [Hr Ha]. destruct (rok_lookup _ _ _ Hok Er) as (_ & _ & Hs & He).
    rewrite (drop_lookup _ _ _ Er). rewrite <- (take_drop (current_region a) (usable_regions a)) at 3.
    rewrite all_frames_app, (drop_lookup _ _ _ Er), all_frames_cons, (frames_app (rg_start r) (next_page a) (rg_end r)) by done.
    by rewrite <- !app_assoc.
  - apply lookup_ge_None in Er. rewrite drop_ge, take_ge, !app_nil_r by done. done.
Qed.

Lemma elem_of_touched a f :
  regions_ok (usable_regions a) → pos_ok a →
  f ∈ touched a ↔ aligned f ∧ ∃ i r, usable_regions a !! i = Some r ∧ rg_start r ≤ f < rg_end r ∧
    ((i < current_region a)%nat ∨ (i = current_region a ∧ f < next_page a)).
Proof.
  intros Hok [Hc Hn]. unfold touched, all_frames. rewrite elem_of_app, list_elem_of_bind. split.
  - intros [(r & Hf & [i Hi]%list_elem_of_lookup)|Hf].
    + apply lookup_take_Some in Hi as [Hi Hlt]. destruct (rok_lookup _ _ _ Hok Hi) as (_ & _ & H1 & H2).
      apply elem_of_frames in Hf as [? ?]; eauto 10.
    + destruct (_ !! current_region a) as [r|] eqn:Er; [|by apply elem_of_nil in Hf].
      destruct (Hn r eq_refl) as [Hr Ha]. destruct (rok_lookup _ _ _ Hok Er) as (_ & _ & H1 & H2).
      apply elem_of_frames in Hf as [? ?]; [|done|done]. split; [done|]. exists (current_region a), r.
      split_and!; auto; lia.
  - intros (Ha & i & r & Hi & Hf & Hor). destruct (rok_lookup _ _ _ Hok Hi) as (_ & _ & H1 & H2).
    destruct Hor as [Hlt|[-> Hlt]].
    + left. exists r. split; [by apply elem_of_frames|]. apply list_elem_of_lookup. exists i.
      by rewrite lookup_take_lt.
    + right. rewrite Hi. destruct (Hn r Hi) as [Hr Han]. apply elem_of_frames; auto. split; [lia|done].
Qed.

(** ** The intrusive free list *)

Section allocator.
Context `{NodeLayout} (dbg : bool).

(** The nodes in memory spell the list [fl] from [head]. *)
Fixpoint chain (mem : PhysMem) (head : option Z) (fl : list Z) : Prop :=
  match fl with
  | [] => head = None
  | f :: fl => head = Some f ∧ chain mem (read_node mem f) fl
  end.

Definition poisoned (mem : PhysMem) (f : Z) : Prop := assert_frame_poison_intact f mem = Ok ().

Record list_ok (mem : PhysMem) (a : PageAllocator) (fl : list Z) : Prop := {
  lo_chain : chain mem (free_list_head a) fl;
  lo_tail : dbg = true → free_list_tail a = last fl;
  lo_poison : dbg = true → Forall (poisoned mem) fl
}.

(** Frames are 4096 bytes. *)
Definition mem_ok (mem : PhysMem) : Prop := ∀ f, length (frame_bytes mem f) = 4096%nat.

Record alloc_core (mem : PhysMem) (a : PageAllocator) (fl held : list Z) : Prop := {
  ac_regions : regions_ok (usable_regions a);
  ac_pos : pos_ok a;
  ac_total : total_pages a = Z.of_nat (length (all_frames (usable_regions a)));
  ac_split : fl ++ held ≡ₚ touched a;
  ac_list : list_ok mem a fl;
  ac_mem : mem_ok mem
}.

Lemma frame_bytes_insert mem f g bs :
  frame_bytes (<[f := bs]> mem) g = if decide (f = g) then bs else frame_bytes mem g.
Proof.
  unfold frame_bytes. case_decide as E; [subst; by rewrite lookup_insert_eq|by rewrite lookup_insert_ne].
Qed.

Lemma mem_ok_insert mem f bs : mem_ok mem → length bs = 4096%nat → mem_ok (<[f := bs]> mem).
Proof. intros Hm Hb g. rewrite frame_bytes_insert. by case_decide. Qed.

Lemma write_node_bytes mem f g next :
  frame_bytes (write_node f next mem) g
  = if decide (f = g) then blit 0 (encode_node next) (frame_bytes mem f) else frame_bytes mem g.
Proof. apply frame_bytes_insert. Qed.

Lemma write_node_ok mem f next : mem_ok mem → mem_ok (write_node f next mem).
Proof. intros Hm. apply mem_ok_insert; [done|]. by rewrite length_blit. Qed.

Lemma read_write_node mem f next :
  mem_ok mem → from_option (in_width 64) True next → read_node (write_node f next mem) f = next.
Proof.
  intros Hm Hn. unfold read_node. rewrite write_node_bytes, decide_True by done.
  rewrite slice_blit_eq, decode_encode_node; [done|done| |]; rewrite ?encode_node_length, ?(Hm f); unfold FREE_NODE_BYTES; lia.
Qed.

Lemma read_node_same mem mem' f : frame_bytes mem' f = frame_bytes mem f → read_node mem' f = read_node mem f.
Proof. unfold read_node. by intros ->. Qed.

Lemma poisoned_same mem mem' f :
  (∀ i, (i < POISON_QWORDS)%nat → u64_at (poison_offset i) (frame_bytes mem' f) = u64_at (poison_offset i) (frame_bytes mem f)) →
  poisoned mem f → poisoned mem' f.
Proof.
  intros Hs Hp. unfold poisoned, assert_frame_poison_intact, try_range in *. rewrite Nat.sub_0_r in *.
  assert (∀ n lo, (lo + n ≤ POISON_QWORDS)%nat →
    try_fold (λ i _, if decide (u64_at (poison_offset i) (frame_bytes mem' f) = FRAME_POISON_QWORD) then Ok ()
       else Err "physical page allocator detected frame reuse before poison check"%string) (seq lo n) ()
    = try_fold (λ i _, if decide (u64_at (poison_offset i) (frame_bytes mem f) = FRAME_POISON_QWORD) then Ok ()
       else Err "physical page allocator detected frame reuse before poison check"%string) (seq lo n) ()) as E.
  { induction n as [|n IH]; intros lo Hlo; [done|]. cbn [seq try_fold]. rewrite (Hs lo) by lia.
    case_decide; [|done]. apply IH. lia. }
  by rewrite E.
Qed.

(** Writing a node leaves the poison in place. *)
Lemma poisoned_write_node mem f g next : mem_ok mem → poisoned mem g → poisoned (write_node f next mem) g.
Proof.
  intros Hm. apply poisoned_same. intros i Hi. rewrite write_node_bytes. case_decide as E; [|done]. subst g.
  unfold u64_at. rewrite slice_blit_ne; [done| |]; rewrite encode_node_length, ?(Hm f); unfold poison_offset, FREE_NODE_BYTES; lia.
Qed.

Lemma poison_freed_frame_spec mem f :
  mem_ok mem →
  mem_ok (poison_freed_frame f mem) ∧ poisoned (poison_freed_frame f mem) f ∧
  ∀ g, g ≠ f → frame_bytes (poison_freed_frame f mem) g = frame_bytes mem g.
Proof.
  intros Hm. unfold poison_freed_frame. set (body := λ (i : nat) (mem : PhysMem), _).
  pose proof (for_range_ind (λ n mem', mem_ok mem' ∧ (∀ g, g ≠ f → frame_bytes mem' g = frame_bytes mem g) ∧
    ∀ i, (i < n)%nat → u64_at (poison_offset i) (frame_bytes mem' f) = FRAME_POISON_QWORD) body 0 POISON_QWORDS mem) as Hi.
  destruct Hi as (H1 & H2 & H3).
  - unfold POISON_QWORDS. lia.
  - split_and!; [done|done|lia].
  - intros i mem' Hi (Hm' & Hg & Hp). unfold body.
    assert (poison_offset i + length (le_encode 8 FRAME_POISON_QWORD) ≤ length (frame_bytes mem' f))%nat as Hlen.
    { rewrite length_le_encode, (Hm' f). unfold poison_offset, FREE_NODE_BYTES, POISON_QWORDS in *. lia. }
    split_and!.
    + apply mem_ok_insert; [done|]. by rewrite length_blit.
    + intros g Hgf. rewrite frame_bytes_insert, decide_False by done. auto.
    + intros j Hj. rewrite frame_bytes_insert, decide_True by done. unfold u64_at.
      destruct (decide (j = i)) as [->|Hne].
      * rewrite slice_blit_eq by (rewrite ?length_le_encode in *; lia). apply le_u64. by vm_compute.
      * rewrite slice_blit_ne; [apply Hp; lia|done|]. rewrite length_le_encode. unfold poison_offset. lia.
  - split_and!; auto. unfold poisoned, assert_frame_poison_intact.
    edestruct (try_range_ind (E := string) (St := unit) (λ _ _, True)) as ([] & E & _); [| | |exact E]; [unfold POISON_QWORDS; lia|done|].
    intros i [] Hi _. exists (). rewrite H3 by lia. by rewrite decide_True.
Qed.

#[local] Opaque poison_freed_frame assert_frame_poison_intact write_node read_node zero_frame.

Lemma chain_same mem mem' head fl :
  (∀ f, f ∈ fl → frame_bytes mem' f = frame_bytes mem f) → chain mem head fl → chain mem' head fl.
Proof.
  revert head. induction fl as [|f fl IH]; intros head Hs; [done|]. cbn. intros [-> Hc]. split; [done|].
  rewrite (read_node_same mem mem' f) by (apply Hs; by left). apply IH; [|done]. intros g Hg. apply Hs. by right.
Qed.

(** Linking a frame behind the last node. *)
Lemma chain_snoc mem mem' head fl t f :
  chain mem head (fl ++ [t]) → (∀ g, g ∈ fl → frame_bytes mem' g = frame_bytes mem g) →
  read_node mem' t = Some f → read_node mem' f = None → chain mem' head ((fl ++ [t]) ++ [f]).
Proof.
  revert head. induction fl as [|x fl IH]; intros head Hc Hs Ht Hf; cbn in *.
  - destruct Hc as [-> _]. by rewrite Ht, Hf.
  - destruct Hc as [-> Hc]. split; [done|]. rewrite (read_node_same mem mem' x) by (apply Hs; by left).
    apply IH; auto. intros g Hg. apply Hs. by right.
Qed.

(** The bump position and the region table are the same. *)
Definition same_pos (a a' : PageAllocator) : Prop :=
  usable_regions a' = usable_regions a ∧ current_region a' = current_region a ∧ next_page a' = next_page a
  ∧ total_pages a' = total_pages a.

Lemma same_pos_touched a a' : same_pos a a' → touched a' = touched a ∧ untouched a' = untouched a.
Proof. intros (H1 & H2 & H3 & H4). unfold touched, untouched. by rewrite H1, H2, H3. Qed.

Lemma core_move mem a fl held mem' a' fl' held' :
  alloc_core mem a fl held → same_pos a a' → fl' ++ held' ≡ₚ fl ++ held → list_ok mem' a' fl' → mem_ok mem' →
  alloc_core mem' a' fl' held'.
Proof.
  intros [H1 H2 H3 H4 H5 H6] Hp Hl Hlist Hmem. pose proof (same_pos_touched a a' Hp) as [Ht _].
  destruct Hp as (E1 & E2 & E3 & E4). split; rewrite ?E1, ?E4; auto.
  - destruct H2 as [Hc Hn]. split; rewrite ?E1, ?E2, ?E3; auto.
  - by rewrite Hl, Ht.
Qed.

Lemma core_NoDup mem a fl held : alloc_core mem a fl held → NoDup (fl ++ held ++ untouched a).
Proof.
  intros [H1 H2 _ H4 _ _]. rewrite app_assoc, H4, touched_untouched by done. by apply NoDup_all_frames.
Qed.

Lemma core_touched mem a fl held f : alloc_core mem a fl held → f ∈ fl ++ held ↔ f ∈ touched a.
Proof. intros [_ _ _ H4 _ _]. by rewrite H4. Qed.

Lemma core_frame mem a fl held f :
  alloc_core mem a fl held → f ∈ fl ++ held → in_width 64 f ∧ aligned f.
Proof.
  intros Hc Hf. rewrite (core_touched _ _ _ _ _ Hc) in Hf. destruct Hc as [H1 H2 _ _ _ _].
  apply elem_of_touched in Hf as (Ha & i & r & Hi & Hf & _); [|done|done]. split; [|done].
  destruct (rok_lookup _ _ _ H1 Hi) as (H3 & H4 & _). unfold in_width, PAGE_SIZE in *. lia.
Qed.

(** Held frames other than [f] keep their bytes. *)
Definition keeps (held : list Z) (mem mem' : PhysMem) : Prop :=
  ∀ g, g ∈ held → frame_bytes mem' g = frame_bytes mem g.

(** A held frame is on no other list. *)
Lemma core_apart mem a fl held held' f :
  alloc_core mem a fl held → held ≡ₚ f :: held' →
  (f ∉ fl) ∧ (f ∉ held') ∧ (∀ g, g ∈ held' → g ∉ fl) ∧ NoDup fl.
Proof.
  intros Hc Hh. pose proof (core_NoDup _ _ _ _ Hc) as Hnd. rewrite Hh in Hnd.
  apply NoDup_app in Hnd as (Hnd1 & Hnd2 & [Hnd3 _]%NoDup_cons). set_solver.
Qed.

Lemma push_lifo_spec mem a fl held held' f :
  dbg = false → alloc_core mem a fl held → held ≡ₚ f :: held' →
  alloc_core (write_node f (free_list_head a) mem) (Alloc.set_list (Some f) (free_list_tail a) a) (f :: fl) held'
  ∧ keeps held' mem (write_node f (free_list_head a) mem).
Proof.
  intros Hd Hc Hh. destruct (core_apart _ _ _ _ _ _ Hc Hh) as (Hf1 & Hf2 & Hd3 & _).
  pose proof (ac_mem _ _ _ _ Hc) as Hm.
  assert (∀ g, g ≠ f → frame_bytes (write_node f (free_list_head a) mem) g = frame_bytes mem g) as Hk.
  { intros g Hg. by rewrite write_node_bytes, decide_False. }
  split; [|intros g Hg; apply Hk; congruence].
  apply (core_move mem a fl held); [done|done| | |by apply write_node_ok].
  { rewrite Hh. cbn. by rewrite Permutation_middle. }
  pose proof (lo_chain _ _ _ (ac_list _ _ _ _ Hc)) as Hch.
  split; [|congruence|congruence]. cbn. split; [done|]. rewrite read_write_node; [|done|].
  - eapply chain_same; [|exact Hch]. intros g Hg. apply Hk. congruence.
  - destruct fl as [|h fl]; cbn in Hch; [by rewrite Hch|]. destruct Hch as [-> _]. cbn.
    apply (core_frame _ _ _ _ h Hc). by left.
Qed.

Lemma push_fifo_spec mem a fl held held' f :
  dbg = true → alloc_core mem a fl held → held ≡ₚ f :: held' →
  let '(mem', a') := Alloc.push_free_page_fifo f (poison_freed_frame f mem) a in
  alloc_core mem' a' (fl ++ [f]) held' ∧ keeps held' mem mem' ∧ same_pos a a' ∧ available_pages a' = available_pages a.
Proof.
  intros Hd Hc Hh. destruct (core_apart _ _ _ _ _ _ Hc Hh) as (Hf1 & Hf2 & Hd3 & Hnd).
  destruct (poison_freed_frame_spec mem f (ac_mem _ _ _ _ Hc)) as (Hm1 & Hp1 & Hk1).
  set (mem1 := poison_freed_frame f mem) in *. pose proof (ac_list _ _ _ _ Hc) as [Hch Ht Hpo].
  specialize (Ht Hd). specialize (Hpo Hd). unfold Alloc.push_free_page_fifo. rewrite Ht.
  assert (∀ g, g ≠ f → frame_bytes (write_node f None mem1) g = frame_bytes mem g) as Hk2.
  { intros g Hg. rewrite write_node_bytes, decide_False by done. auto. }
  assert (Forall (poisoned (write_node f None mem1)) (fl ++ [f])) as Hpo2.
  { apply Forall_app. split; [|constructor; [by apply poisoned_write_node|done]].
    rewrite Forall_forall in Hpo |- *. intros g Hg. apply (poisoned_same mem); [|auto].
    intros i _. rewrite Hk2; [done|congruence]. }
  assert ((fl ++ [f]) ++ held' ≡ₚ fl ++ held) as Hperm by (rewrite Hh, <- app_assoc; done).
  assert (in_width 64 f) as Hw by (apply (core_frame _ _ _ _ f Hc); rewrite Hh; apply elem_of_app; right; by left).
  destruct fl as [|t fl0 _] using rev_ind.
  - cbn [last]. split_and!; [|intros g Hg; apply Hk2; congruence|done|done].
    apply (core_move mem a [] held); [done|done|exact Hperm| |by apply write_node_ok].
    split; [|done|done]. cbn. split; [done|]. by apply read_write_node.
  - rewrite last_snoc. assert (t ∈ fl0 ++ [t]) as Htin by (apply elem_of_app; right; by left).
    assert (t ≠ f) as Htf by congruence.
    assert (∀ g, g ≠ f → g ≠ t → frame_bytes (write_node t (Some f) (write_node f None mem1)) g = frame_bytes mem g) as Hk3.
    { intros g Hg1 Hg2. rewrite write_node_bytes, decide_False by done. auto. }
    apply NoDup_app in Hnd as (_ & Hnd & _).
    split_and!; [|intros g Hg; apply Hk3; [congruence|]; intros ->; by apply (Hd3 t)|done|done].
    apply (core_move mem a (fl0 ++ [t]) held); [done|done|exact Hperm| |by apply write_node_ok, write_node_ok].
    split; cbn [free_list_head free_list_tail Alloc.set_list].
    + apply (chain_snoc mem); [done| |apply read_write_node; [by apply write_node_ok|done]|].
      * intros g Hg. apply Hk3; [intros ->; apply Hf1; apply elem_of_app; by left|].
        intros ->. apply (Hnd t Hg). by left.
      * rewrite (read_node_same (write_node f None mem1)); [by apply read_write_node|].
        by rewrite write_node_bytes, decide_False.
    + intros _. by rewrite last_snoc.
    + intros _. eapply Forall_impl; [exact Hpo2|]. intros g. apply poisoned_write_node. by apply write_node_ok.
Qed.

(** The list after freeing [f]. *)
Definition push_list (f : Z) (fl : list Z) : list Z := if dbg then fl ++ [f] else f :: fl.

Lemma push_list_perm f fl : push_list f fl ≡ₚ f :: fl.
Proof. unfold push_list. destruct dbg; [|done]. by rewrite Permutation_app_comm. Qed.

Lemma push_spec mem a fl held held' f :
  alloc_core mem a fl held → held ≡ₚ f :: held' →
  let '(mem', a') := Alloc.push_free_page dbg f mem a in
  alloc_core mem' a' (push_list f fl) held' ∧ keeps held' mem mem' ∧ same_pos a a' ∧ available_pages a' = available_pages a.
Proof.
  intros Hc Hh. pose proof (push_fifo_spec mem a fl held held' f) as Ht. pose proof (push_lifo_spec mem a fl held held' f) as Hf.
  unfold Alloc.push_free_page, push_list. destruct dbg; [by apply Ht|]. destruct Hf as [? ?]; done.
Qed.
(** Popping takes the head of the list; it never finds a frame's poison overwritten. *)
Lemma pop_spec mem a fl held :
  alloc_core mem a fl held →
  match fl with
  | [] => Alloc.pop_free_page dbg mem a = Ok (a, None)
  | f :: fl' => ∃ a', Alloc.pop_free_page dbg mem a = Ok (a', Some f) ∧ alloc_core mem a' fl' (f :: held)
                      ∧ same_pos a a' ∧ available_pages a' = available_pages a
  end.
Proof.
  intros Hc. pose proof (ac_list _ _ _ _ Hc) as [Hch Ht Hpo]. unfold Alloc.pop_free_page.
  destruct fl as [|f fl]; cbn in Hch; [by rewrite Hch|]. destruct Hch as [-> Hch].
  assert ((if dbg then assert_frame_poison_intact f mem else Ok ()) = Ok ()) as ->.
  { destruct dbg; [|done]. specialize (Hpo eq_refl). by apply Forall_cons in Hpo as [Hf _]. }
  eexists. split; [done|]. split_and!; [|done|done].
  apply (core_move mem a (f :: fl) held); [done|done| | |apply (ac_mem _ _ _ _ Hc)].
  { by rewrite <- Permutation_middle. }
  split; cbn; [done| |].
  - intros Hd. specialize (Ht Hd). rewrite Hd in *. destruct fl as [|g fl]; cbn in Hch.
    + by rewrite Hch.
    + destruct Hch as [-> _]. cbn. rewrite Ht. by destruct fl.
  - intros Hd. specialize (Hpo Hd). by apply Forall_cons in Hpo as [_ ?].
Qed.

(** A walk with fuel for the whole list decides whether it meets the range. *)
Lemma walk_spec mem head fl fuel lo hi :
  chain mem head fl → (length fl ≤ fuel)%nat →
  Alloc.walk_intersects fuel mem head lo hi = true ↔ ∃ f, f ∈ fl ∧ lo ≤ f < hi.
Proof.
  revert head fuel. induction fl as [|f fl IH]; intros head fuel Hc Hf.
  - cbn in Hc. subst. destruct fuel; cbn; split; try done; intros (f & Hn & _); by apply elem_of_nil in Hn.
  - destruct Hc as [-> Hc]. destruct fuel as [|fuel]; cbn [length] in Hf; [lia|]. cbn. case_decide as Hd.
    + split; [|done]. intros _. exists f. split; [by left|done].
    + rewrite (IH _ _ Hc) by lia. split; intros (g & Hg & Hr); exists g; (split; [|done]); [by right|].
      apply elem_of_cons in Hg as [->|Hg]; [done|done].
Qed.

(** The list fits the fuel of [free_list_intersects]: the scan always runs to its end. *)
Lemma free_list_intersects_spec mem a fl held lo hi :
  alloc_core mem a fl held →
  Alloc.free_list_intersects mem a lo hi = true ↔ ∃ f, f ∈ fl ∧ lo ≤ f < hi.
Proof.
  intros Hc. apply walk_spec; [apply (lo_chain _ _ _ (ac_list _ _ _ _ Hc))|].
  rewrite (ac_total _ _ _ _ Hc), Nat2Z.id.
  rewrite <- (touched_untouched a), length_app by apply Hc. pose proof (ac_split _ _ _ _ Hc) as Hp.
  apply Permutation_length in Hp. rewrite length_app in Hp. lia.
Qed.

Lemma region_index_containing_Some a f i r :
  regions_ok (usable_regions a) → usable_regions a !! i = Some r → rg_start r ≤ f < rg_end r →
  Alloc.region_index_containing f a = Some i.
Proof.
  intros Hok Hi Hf. unfold Alloc.region_index_containing.
  set (p := λ r, _). destruct (position p (usable_regions a)) as [j|] eqn:Ej.
  - apply position_Some in Ej as ((s & Hj & Hp) & _). f_equal. unfold p in Hp.
    apply andb_true_iff in Hp as [H1%bool_decide_eq_true H2%bool_decide_eq_true]. by eapply rok_unique.
  - rewrite position_None in Ej. specialize (Ej r ltac:(by eapply list_elem_of_lookup_2)). unfold p in Ej.
    rewrite !bool_decide_eq_true_2 in Ej by lia. done.
Qed.

Lemma region_index_containing_inv a f i :
  Alloc.region_index_containing f a = Some i →
  ∃ r, usable_regions a !! i = Some r ∧ rg_start r ≤ f < rg_end r.
Proof.
  unfold Alloc.region_index_containing. intros ((s & Hj & Hp) & _)%position_Some. exists s. split; [done|].
  apply andb_true_iff in Hp as [H1%bool_decide_eq_true H2%bool_decide_eq_true]. done.
Qed.

Lemma was_ever_allocated_spec mem a fl held f :
  alloc_core mem a fl held → aligned f → Alloc.was_ever_allocated f a = true ↔ f ∈ touched a.
Proof.
  intros [Hok Hp _ _ _ _] Ha. rewrite elem_of_touched by done. unfold Alloc.was_ever_allocated. split.
  - destruct (Alloc.region_index_containing f a) as [i|] eqn:Ei; [|done].
    apply region_index_containing_inv in Ei as (r & Hi & Hf). intros Hd. split; [done|]. exists i, r.
    split; [done|]. split; [done|]. case_decide; [by left|]. right.
    by apply andb_true_iff in Hd as [?%bool_decide_eq_true ?%bool_decide_eq_true].
  - intros (_ & i & r & Hi & Hf & Hor). rewrite (region_index_containing_Some a f i r) by done.
    case_decide; [done|]. destruct Hor as [?|[-> ?]]; [done|]. by rewrite !bool_decide_eq_true_2.
Qed.
(** ** Freeing a run *)

Definition run (base pages : Z) : list Z := frames base (base + pages * 4096).

(** [[base, base + pages)] lies in one region. *)
Definition in_one_region (l : list MemoryRegion) (base pages : Z) : Prop :=
  ∃ i r, l !! i = Some r ∧ rg_start r ≤ base ∧ base + pages * 4096 ≤ rg_end r.

Lemma same_pos_trans a b c : same_pos a b → same_pos b c → same_pos a c.
Proof. intros (? & ? & ? & ?) (? & ? & ? & ?). split_and!; congruence. Qed.

Lemma push_pages_spec mem a fl held' base n :
  aligned base → alloc_core mem a fl (run base (Z.of_nat n) ++ held') →
  let '(mem', a') := Alloc.push_pages dbg base n (mem, a) in
  ∃ fl', alloc_core mem' a' fl' held' ∧ keeps held' mem mem' ∧ same_pos a a'
         ∧ available_pages a' = available_pages a ∧ fl' ≡ₚ run base (Z.of_nat n) ++ fl.
Proof.
  intros Ha Hc. unfold Alloc.push_pages. set (body := λ (i : nat) '(mem, a), _).
  set (P := λ (i : nat) (st : PhysMem * PageAllocator), ∃ fl',
    alloc_core st.1 st.2 fl' (frames (base + Z.of_nat i * 4096) (base + Z.of_nat n * 4096) ++ held') ∧ keeps held' mem st.1
    ∧ same_pos a st.2 ∧ available_pages st.2 = available_pages a ∧ fl' ≡ₚ run base (Z.of_nat i) ++ fl).
  assert (P n (for_range 0 n body (mem, a))) as HP.
  { apply for_range_ind; [lia| |].
    - exists fl. unfold run in *. rewrite Z.mul_0_l, Z.add_0_r, (frames_nil base base) by lia. done.
    - intros i [m b] Hi (fl1 & H1 & H2 & H3 & H4 & H5). cbn [fst snd] in *.
      rewrite frames_cons in H1 by first [apply aligned_add; done|lia]. rewrite <- app_comm_cons in H1.
      pose proof (push_spec m b fl1 _ _ _ H1 (Permutation_refl _)) as Hp. unfold body.
      change (Z.of_nat i * PAGE_SIZE) with (Z.of_nat i * 4096).
      destruct (Alloc.push_free_page dbg _ m b) as [m' b']. destruct Hp as (Hp1 & Hp2 & Hp3 & Hp4).
      exists (push_list (base + Z.of_nat i * 4096) fl1). cbn [fst snd].
      replace (base + Z.of_nat (S i) * 4096) with (base + Z.of_nat i * 4096 + 4096) by lia. split_and!.
      + exact Hp1.
      + intros g Hg. rewrite Hp2 by (apply elem_of_app; by right). by apply H2.
      + by eapply same_pos_trans.
      + congruence.
      + rewrite push_list_perm, H5. unfold run.
        replace (base + Z.of_nat (S i) * 4096) with (base + Z.of_nat i * 4096 + 4096) by lia.
        rewrite frames_snoc by first [apply aligned_add; done|done|lia].
        rewrite <- app_assoc. cbn. by rewrite Permutation_middle. }
  destruct (for_range 0 n body (mem, a)) as [m b]. destruct HP as (fl' & H1 & HP). exists fl'. cbn [fst snd] in *.
  rewrite frames_nil in H1 by lia. done.
Qed.

Lemma elem_of_run base pages f :
  aligned base → f ∈ run base pages ↔ aligned f ∧ base ≤ f < base + pages * 4096.
Proof. intros Ha. unfold run. rewrite elem_of_frames by (try apply aligned_add; done). tauto. Qed.

Lemma length_run base pages : 0 ≤ pages → length (run base pages) = Z.to_nat pages.
Proof.
  intros Hp. unfold run. rewrite length_frames. f_equal.
  replace (base + pages * 4096 - base) with (pages * 4096) by lia. by apply Z.div_mul.
Qed.

(** What [free_run] accepts. *)
Definition run_freeable (a : PageAllocator) (held : list Z) (base pages : Z) : Prop :=
  0 < pages ∧ in_one_region (usable_regions a) base pages ∧ ∀ f, f ∈ run base pages → f ∈ held.

Lemma run_freeable_aligned mem a fl held base pages :
  alloc_core mem a fl held → run_freeable a held base pages → aligned base.
Proof.
  intros Hc (Hp & _ & Hr). apply (core_frame _ _ _ _ base Hc), elem_of_app. right. apply Hr.
  unfold run, frames. apply list_elem_of_fmap. exists 0. split; [lia|]. apply elem_of_seqZ.
  replace (base + pages * 4096 - base) with (pages * 4096) by lia. rewrite Z.div_mul by done. lia.
Qed.

(** Within one region everything up to an allocated frame was allocated: the last frame
    of a run decides for the whole run. *)
Lemma run_touched mem a fl held base pages :
  alloc_core mem a fl held → aligned base → 0 < pages → in_one_region (usable_regions a) base pages →
  base + pages * 4096 - 4096 ∈ touched a → ∀ f, f ∈ run base pages → f ∈ touched a.
Proof.
  intros Hc Ha Hp (i & r & Hi & Hr1 & Hr2) Hlast f [Hf Hfr]%elem_of_run; [|done].
  pose proof (ac_regions _ _ _ _ Hc) as Hok. rewrite elem_of_touched in Hlast |- * by apply Hc.
  destruct Hlast as (_ & j & s & Hj & Hs & Hor). split; [done|]. exists i, r.
  assert (j = i) as -> by (eapply (rok_unique _ j i s r (base + pages * 4096 - 4096)); eauto; lia).
  split; [done|]. split; [lia|]. destruct Hor as [?|[-> ?]]; [by left|]. right. split; [done|].
  apply aligned_spec in Ha as [q ->], Hf as [p ->]. lia.
Qed.

(** The decision of [free_run]: the run is held, or the state is returned unchanged with
    an error. *)
Lemma free_run_decides mem a fl held base pages :
  alloc_core mem a fl held → 0 ≤ base → 0 ≤ pages →
  (run_freeable a held base pages ∧
   Alloc.free_run dbg base pages mem a =
     (let '(mem', a') := Alloc.push_pages dbg base (Z.to_nat pages) (mem, a) in
      ((mem', Alloc.give_available pages a'), Ok ())))
  ∨ (¬ run_freeable a held base pages ∧ ∃ e, Alloc.free_run dbg base pages mem a = ((mem, a), Err e)).
Proof.
  intros Hc Hb Hpg. pose proof (ac_regions _ _ _ _ Hc) as Hok. unfold Alloc.free_run. change PAGE_SIZE with 4096.
  destruct (decide (base mod 4096 ≠ 0)) as [Hal|Hal%dec_stable].
  { right. split; [|eauto]. intros Hf. by apply Hal, (run_freeable_aligned mem a fl held base pages). }
  destruct (checked_mul 64 pages 4096) as [bytes|] eqn:Em; cbn [mbind option_bind].
  2: { right. split; [|eauto]. intros (Hp & (i & r & Hi & Hr) & _). destruct (rok_lookup _ _ _ Hok Hi) as (_ & Hhi & _).
       unfold checked_mul in Em. case_decide; [done|]. lia. }
  apply checked_mul_Some in Em as [-> Hm].
  destruct (checked_add 64 base (pages * 4096)) as [stop|] eqn:Ea; cbn [mbind option_bind].
  2: { right. split; [|eauto]. intros (Hp & (i & r & Hi & Hr) & _). destruct (rok_lookup _ _ _ Hok Hi) as (_ & Hhi & _).
       apply checked_add_None in Ea. lia. }
  apply checked_add_Some in Ea as [-> Hs].
  destruct (decide (base + pages * 4096 > base)) as [Hpos|Hpos]; [|right; split; [intros (? & _); lia|eauto]].
  destruct (Alloc.region_index_containing base a) as [i|] eqn:Ei; cbn [mbind option_bind].
  2: { right. split; [|eauto]. intros (Hp & (i & r & Hi & Hr) & _).
       rewrite (region_index_containing_Some a base i r) in Ei; auto; [done|lia]. }
  apply region_index_containing_inv in Ei as (r & Hi & Hr). rewrite Hi.
  destruct (decide (base + pages * 4096 > rg_end r)) as [Hend|Hend].
  { right. split; [|eauto]. intros (Hp & (j & s & Hj & Hr') & _).
    assert (i = j) as -> by (eapply (rok_unique _ i j r s base); eauto; lia). simplify_eq. lia. }
  assert (in_one_region (usable_regions a) base pages) as Hone by (exists i, r; split; [done|lia]).
  assert (aligned (base + pages * 4096 - 4096)) as Hlal.
  { replace (base + pages * 4096 - 4096) with (base + (pages - 1) * 4096) by lia. by apply aligned_add. }
  pose proof (was_ever_allocated_spec mem a fl held _ Hc Hlal) as Hwas.
  assert (base + pages * 4096 - 4096 ∈ run base pages) as Hlast by (apply elem_of_run; [done|split; [done|lia]]).
  destruct (Alloc.was_ever_allocated _ a) eqn:Ew; cbn [negb].
  2: { right. split; [|eauto]. intros (Hp & _ & Hh). enough (false = true) by done. apply Hwas.
       rewrite <- (core_touched mem a fl held) by done. apply elem_of_app. right. by apply Hh. }
  pose proof (free_list_intersects_spec mem a fl held base (base + pages * 4096) Hc) as Hint.
  pose proof (core_NoDup _ _ _ _ Hc) as Hnd. rewrite app_assoc in Hnd. apply NoDup_app in Hnd as (Hnd & _).
  apply NoDup_app in Hnd as (_ & Hnd & _).
  destruct (Alloc.free_list_intersects mem a _ _) eqn:Ef.
  { right. split; [|eauto]. intros (Hp & _ & Hh). destruct Hint as [(f & Hf & Hfr) _]; [done|].
    apply (Hnd f Hf), Hh, elem_of_run; [done|]. split; [|done].
    apply (core_frame _ _ _ _ f Hc), elem_of_app. by left. }
  left. split.
  - split; [lia|]. split; [done|]. intros f Hf.
    assert (f ∈ touched a) as Ht by (eapply (run_touched mem a fl held base pages); [done|done|lia|done|by apply Hwas|done]).
    rewrite <- (core_touched mem a fl held) in Ht by done. apply elem_of_app in Ht as [Ht|Ht]; [|done].
    apply elem_of_run in Hf as [_ Hf]; [|done]. enough (false = true) by done. apply Hint. eauto.
  - replace ((base + pages * 4096 - base) / 4096) with pages; [done|].
    replace (base + pages * 4096 - base) with (pages * 4096) by lia. by rewrite Z.div_mul.
Qed.

(** ** Counting *)

(** [available_pages] counts the free frames, and [k] more that are about to be freed. *)
Definition counted (k : Z) (a : PageAllocator) (fl : list Z) : Prop :=
  available_pages a = Z.of_nat (length fl) + Z.of_nat (length (untouched a)) + k.

Lemma core_lengths mem a fl held :
  alloc_core mem a fl held →
  Z.of_nat (length fl) + Z.of_nat (length held) + Z.of_nat (length (untouched a)) = total_pages a ∧ total_pages a < 2 ^ 64.
Proof.
  intros [H1 H2 H3 H4 _ _]. rewrite H3. split; [|by apply all_frames_bound].
  rewrite <- (touched_untouched a) by done. apply Permutation_length in H4. rewrite length_app in *. lia.
Qed.

Lemma core_set_available mem a fl held n : alloc_core mem a fl held → alloc_core mem (Alloc.set_available n a) fl held.
Proof. intros Hc. apply (core_move mem a fl held); [done|done|done|split; apply Hc|apply Hc]. Qed.

Lemma take_available_spec mem a fl held k n :
  alloc_core mem a fl held → counted k a fl → 0 ≤ n ≤ available_pages a → 0 ≤ k ≤ Z.of_nat (length held) →
  alloc_core mem (Alloc.take_available n a) fl held ∧ counted (k - n) (Alloc.take_available n a) fl.
Proof.
  intros Hc Hk Hn Hkh. split; [by apply core_set_available|]. pose proof (core_lengths _ _ _ _ Hc) as [Hl Ht].
  unfold counted, Alloc.take_available in *. change (untouched (Alloc.set_available _ a)) with (untouched a).
  cbn [Alloc.set_available available_pages]. rewrite wrap_small by (unfold in_width; lia). lia.
Qed.

(** Freeing a held run. *)
Lemma free_run_accepts mem a fl held held' base pages k :
  alloc_core mem a fl held → counted k a fl → 0 ≤ k → k + pages ≤ Z.of_nat (length held) →
  0 < pages → aligned base → in_one_region (usable_regions a) base pages → held ≡ₚ run base pages ++ held' →
  ∃ mem' a' fl', Alloc.free_run dbg base pages mem a = ((mem', a'), Ok ())
    ∧ alloc_core mem' a' fl' held' ∧ counted k a' fl' ∧ keeps held' mem mem' ∧ same_pos a a' ∧ fl' ≡ₚ run base pages ++ fl.
Proof.
  intros Hc Hk Hk0 Hkh Hp Ha Hone Hh. pose proof (core_lengths _ _ _ _ Hc) as [Hl Ht].
  assert (0 ≤ base) as Hb.
  { destruct Hone as (i & r & Hi & Hr & _). destruct (rok_lookup _ _ _ (ac_regions _ _ _ _ Hc) Hi) as (? & _).
    unfold PAGE_SIZE in *. lia. }
  assert (run_freeable a held base pages) as Hfree.
  { split; [done|]. split; [done|]. intros f Hf. rewrite Hh. apply elem_of_app. by left. }
  destruct (free_run_decides mem a fl held base pages Hc Hb ltac:(lia)) as [[_ E]|[Hno _]]; [|done]. rewrite E.
  assert (alloc_core mem a fl (run base (Z.of_nat (Z.to_nat pages)) ++ held')) as Hc'.
  { rewrite Z2Nat.id by lia. apply (core_move mem a fl held); [done|done|by rewrite Hh|apply Hc|apply Hc]. }
  pose proof (push_pages_spec mem a fl held' base (Z.to_nat pages) Ha Hc') as Hpush.
  destruct (Alloc.push_pages dbg base _ (mem, a)) as [mem' a']. rewrite Z2Nat.id in Hpush by lia.
  destruct Hpush as (fl' & H1 & H2 & H3 & H4 & H5). exists mem', (Alloc.give_available pages a'), fl'.
  split; [done|]. split; [by apply core_set_available|]. split; [|split; [done|split; [|done]]].
  - apply Permutation_length in H5. rewrite length_app, length_run in H5 by lia.
    pose proof (same_pos_touched a a' H3) as [_ Hu].
    unfold counted, Alloc.give_available in *. change (untouched (Alloc.set_available _ a')) with (untouched a').
    cbn [Alloc.set_available available_pages]. rewrite H4, Hu, wrap_small by (unfold in_width; lia). lia.
  - destruct H3 as (? & ? & ? & ?). by split_and!.
Qed.

(** ** Single frames *)

(** Bumping hands out the first untouched frame. *)
Lemma bump_spec fuel a :
  regions_ok (usable_regions a) → pos_ok a → fuel = (length (usable_regions a) - current_region a)%nat →
  match Alloc.bump fuel a with
  | (a', Some f) => ∃ b, a' = Alloc.take_available 1 b ∧ pos_ok b ∧ untouched a = f :: untouched b ∧ touched b = touched a ++ [f]
                    ∧ usable_regions b = usable_regions a ∧ total_pages b = total_pages a ∧ available_pages b = available_pages a
                    ∧ free_list_head b = free_list_head a ∧ free_list_tail b = free_list_tail a
  | (a', None) => pos_ok a' ∧ untouched a = [] ∧ untouched a' = [] ∧ touched a' = touched a
                  ∧ usable_regions a' = usable_regions a ∧ total_pages a' = total_pages a ∧ available_pages a' = available_pages a
                  ∧ free_list_head a' = free_list_head a ∧ free_list_tail a' = free_list_tail a
  end.
Proof.
  revert a. induction fuel as [|fuel IH]; intros a Hok Hp Hf; cbn [Alloc.bump].
  { assert (untouched a = []) as Hu by (unfold untouched; by rewrite drop_ge by lia). done. }
  destruct Hp as [Hc Hn]. destruct (usable_regions a !! current_region a) as [r|] eqn:Er.
  2: { apply lookup_ge_None in Er. lia. }
  destruct (Hn r eq_refl) as [Hr Hal]. destruct (rok_lookup _ _ _ Hok Er) as (_ & Hhi & Hs & He).
  case_decide as Hlt.
  - assert (next_page a + 4096 ≤ rg_end r) as Hle.
    { apply aligned_spec in Hal as [q Eq], He as [p Ep]. lia. }
    unfold saturating_add64, PAGE_SIZE. rewrite Z.min_r by (unfold u64_max, max_of; lia).
    eexists. split; [done|]. split_and!; try done.
    + split; [done|]. cbn. rewrite Er. intros ? [= <-]. split; [lia|by apply (aligned_add _ 1)].
    + unfold untouched. cbn. rewrite (drop_lookup _ _ _ Er), frames_cons by done. done.
    + unfold touched. cbn. rewrite Er, frames_snoc by first [done|lia]. by rewrite app_assoc.
  - assert (next_page a = rg_end r) as Enp by lia.
    assert (∀ np, (∀ s, usable_regions a !! S (current_region a) = Some s → np = rg_start s) →
      let b := Alloc.set_position (S (current_region a)) np a in
      pos_ok b ∧ untouched b = untouched a ∧ touched b = touched a) as Hadv.
    { intros np Hnp b. apply lookup_lt_Some in Er as Hlt'. split_and!.
      - split; cbn; [lia|]. intros s Hs'. rewrite (Hnp s Hs'). destruct (rok_lookup _ _ _ Hok Hs') as (? & ? & ? & ?).
        split; [lia|done].
      - unfold untouched. cbn. rewrite (drop_lookup _ _ _ Er), (frames_nil (next_page a)) by lia. cbn.
        destruct (drop (S (current_region a)) (usable_regions a)) as [|s rest] eqn:Ed; [done|].
        rewrite all_frames_cons, (Hnp s); [done|]. rewrite <- (Nat.add_0_r (S _)), <- lookup_drop, Ed. done.
      - unfold touched. cbn. rewrite Er, (take_S_r _ _ _ Er), all_frames_app, Enp, <- !app_assoc. f_equal.
        cbn. rewrite app_nil_r. destruct (usable_regions a !! S (current_region a)) as [s|] eqn:Es; [|by rewrite app_nil_r].
        rewrite (Hnp s eq_refl), (frames_nil (rg_start s)) by lia. by rewrite app_nil_r. }
    destruct (usable_regions a !! S (current_region a)) as [s|] eqn:Es.
    + destruct (Hadv (rg_start s)) as (Hb1 & Hb2 & Hb3); [by intros ? [= <-]|].
      specialize (IH (Alloc.set_position (S (current_region a)) (rg_start s) a) Hok Hb1 ltac:(cbn; lia)).
      rewrite Hb2, Hb3 in IH. exact IH.
    + destruct (Hadv (next_page a)) as (Hb1 & Hb2 & Hb3); [done|].
      specialize (IH (Alloc.set_position (S (current_region a)) (next_page a) a) Hok Hb1 ltac:(cbn; lia)).
      rewrite Hb2, Hb3 in IH. exact IH.
Qed.

(** Moving the bump position forward over [fs]: the frames become held. *)
Lemma core_advance mem a b fl held fs :
  alloc_core mem a fl held → pos_ok b → touched b = touched a ++ fs →
  usable_regions b = usable_regions a → total_pages b = total_pages a →
  free_list_head b = free_list_head a → free_list_tail b = free_list_tail a →
  alloc_core mem b fl (fs ++ held).
Proof.
  intros [H1 H2 H3 H4 [H5 H6 H7] H8] Hp Ht Er Et Eh El. split; rewrite ?Er, ?Et, ?Ht; auto.
  - by rewrite (Permutation_app_comm fs), app_assoc, H4.
  - split; rewrite ?Eh, ?El; auto.
Qed.

(** [allocate_page] hands out a free frame, and fails only when there is none. *)
Lemma allocate_page_spec mem a fl held :
  alloc_core mem a fl held → counted 0 a fl →
  match Alloc.allocate_page dbg mem a with
  | Ok (a', Some f) => ∃ fl', alloc_core mem a' fl' (f :: held) ∧ counted 0 a' fl' ∧ usable_regions a' = usable_regions a
  | Ok (a', None) => fl = [] ∧ untouched a = [] ∧ alloc_core mem a' [] held ∧ counted 0 a' [] ∧ usable_regions a' = usable_regions a
  | Err _ => False
  end.
Proof.
  intros Hc Hk. unfold Alloc.allocate_page. pose proof (pop_spec mem a fl held Hc) as Hpop. destruct fl as [|f fl].
  - rewrite Hpop. pose proof (bump_spec _ a (ac_regions _ _ _ _ Hc) (ac_pos _ _ _ _ Hc) eq_refl) as Hb.
    destruct (Alloc.bump _ a) as [a' [f|]].
    + destruct Hb as (b & -> & Hpb & Hu & Ht & Er & Et & Eav & Eh & El). exists [].
      pose proof (core_advance mem a b [] held [f] Hc Hpb Ht Er Et Eh El) as Hcb.
      assert (counted 1 b []) as Hkb by (unfold counted in *; rewrite Eav, Hk, Hu; cbn [length]; lia).
      destruct (take_available_spec mem b [] ([f] ++ held) 1 1 Hcb Hkb) as [H1 H2]; [|cbn; lia|done].
      unfold counted in Hkb. lia.
    + destruct Hb as (Hpb & Hu & Hu' & Ht & Er & Et & Eav & Eh & El). split; [done|]. split; [done|].
      split; [|split; [|done]].
      * rewrite <- (app_nil_l held). apply (core_advance mem a); auto. by rewrite app_nil_r.
      * unfold counted in *. rewrite Hu', Eav, Hk, Hu. done.
  - destruct Hpop as (a' & -> & Hc' & Hp & Eav). cbn. exists fl.
    assert (counted 1 a' fl) as Hk'.
    { unfold counted in *. destruct (same_pos_touched a a' Hp) as [_ ->]. rewrite Eav, Hk. cbn [length]. lia. }
    destruct (take_available_spec mem a' fl (f :: held) 1 1 Hc' Hk') as [H1 H2]; [|cbn; lia|].
    { unfold counted in Hk'. lia. }
    destruct Hp as (Er & _). done.
Qed.

(** ** Runs *)

(** The search stops at the first region with room, or at the end of the table. *)
Lemma find_region_spec l idx cur start min_bytes :
  (cur ≤ idx)%nat →
  let '(i, st) := Alloc.find_region l idx cur start min_bytes in
  (idx ≤ i ≤ idx + length l)%nat ∧
  match l !! (i - idx)%nat with
  | Some r => st = (if decide (i = cur) then start else rg_start r) ∧ min_bytes ≤ saturating_sub (rg_end r) st
  | None => ∀ j r, l !! j = Some r → saturating_sub (rg_end r) (if decide ((idx + j)%nat = cur) then start else rg_start r) < min_bytes
  end.
Proof.
  revert idx start. induction l as [|r l IH]; intros idx start Hcur; cbn [Alloc.find_region length].
  { split; [lia|]. by intros j r. }
  assert ((if decide (idx ≠ cur) then rg_start r else start) = (if decide (idx = cur) then start else rg_start r)) as ->
    by (repeat case_decide; try done; lia).
  case_decide as Hfit.
  { split; [lia|]. rewrite Nat.sub_diag. cbn. done. }
  set (st1 := if decide (idx = cur) then start else rg_start r) in *.
  specialize (IH (S idx) st1 ltac:(lia)). destruct (Alloc.find_region l (S idx) cur st1 min_bytes) as [i st].
  destruct IH as [Hi IH]. split; [lia|]. replace (i - idx)%nat with (S (i - S idx)) by lia. cbn.
  destruct (l !! (i - S idx)%nat) as [s|].
  - rewrite !decide_False in * by lia. done.
  - intros [|j] s; cbn.
    + intros [= <-]. rewrite Nat.add_0_r. fold st1. lia.
    + intros Hj. specialize (IH j s Hj). rewrite decide_False in IH by lia. by rewrite decide_False by lia.
Qed.

(** The frames skipped when the bump position moves from the current region to region [i]:
    the tails of the regions in between. *)
Definition tail_start (a : PageAllocator) (j : nat) (r : MemoryRegion) : Z :=
  if decide (j = current_region a) then Z.max (next_page a) (rg_start r) else rg_start r.

Definition tail_frames (a : PageAllocator) (j : nat) : list Z :=
  match usable_regions a !! j with
  | Some r => frames (tail_start a j r) (rg_end r)
  | None => []
  end.

Definition skipped (a : PageAllocator) (j i : nat) : list Z := seq j (i - j) ≫= tail_frames a.

Lemma skipped_cons a j i : (j < i)%nat → skipped a j i = tail_frames a j ++ skipped a (S j) i.
Proof. intros H'. unfold skipped. replace (i - j)%nat with (S (i - S j)) by lia. done. Qed.

Lemma skipped_snoc a j i : (j ≤ i)%nat → skipped a j (S i) = skipped a j i ++ tail_frames a i.
Proof.
  intros H'. unfold skipped. replace (S i - j)%nat with (S (i - j)) by lia. rewrite seq_S, bind_app. cbn.
  rewrite app_nil_r. f_equal. f_equal. lia.
Qed.

Lemma tail_frames_later a j r :
  usable_regions a !! j = Some r → (current_region a < j)%nat → tail_frames a j = frames (rg_start r) (rg_end r).
Proof. intros Hj Hlt. unfold tail_frames, tail_start. rewrite Hj, decide_False by lia. done. Qed.

Lemma tail_frames_current a r :
  pos_ok a → usable_regions a !! current_region a = Some r →
  tail_frames a (current_region a) = frames (next_page a) (rg_end r).
Proof.
  intros [_ Hn] Hr. unfold tail_frames, tail_start. rewrite Hr, decide_True by done.
  destruct (Hn r Hr) as [? _]. by rewrite Z.max_l by lia.
Qed.

(** Everything touched once the bump position is [np] in region [i]. *)
Lemma touched_at a i r np :
  regions_ok (usable_regions a) → pos_ok a → (current_region a ≤ i)%nat → usable_regions a !! i = Some r →
  let start := if decide (i = current_region a) then next_page a else rg_start r in
  start ≤ np ≤ rg_end r → aligned np →
  let b := Alloc.set_position i np a in
  pos_ok b ∧ touched b = touched a ++ skipped a (current_region a) i ++ frames start np.
Proof.
  intros Hok Hp Hle Hi start Hnp Hal b.
  destruct (rok_lookup _ _ _ Hok Hi) as (_ & _ & Hs & He).
  assert (rg_start r ≤ start ∧ aligned start) as [Hst Hsal].
  { unfold start. case_decide as E; [|split; [lia|done]]. subst i. destruct (pos_next _ Hp r Hi) as [? ?]. split; [lia|done]. }
  split.
  { split; cbn; [apply lookup_lt_Some in Hi; lia|]. rewrite Hi. intros ? [= <-]. split; [lia|done]. }
  assert (∀ d, (current_region a + d ≤ i)%nat → all_frames (take (current_region a + d) (usable_regions a)) ++
     (match usable_regions a !! (current_region a + d)%nat with
      | Some s => frames (rg_start s) (if decide (d = 0%nat) then next_page a else rg_start s) | None => [] end)
     = touched a ++ skipped a (current_region a) (current_region a + d)) as Hd.
  { induction d as [|d IH]; intros Hd.
    - rewrite Nat.add_0_r. unfold skipped. rewrite Nat.sub_diag. cbn. by rewrite app_nil_r.
    - specialize (IH ltac:(lia)). apply lookup_lt_Some in Hi as Hlen.
      destruct (lookup_lt_is_Some_2 (usable_regions a) (current_region a + d)) as [s Hs']; [lia|].
      destruct (rok_lookup _ _ _ Hok Hs') as (_ & _ & Hss & Hse).
      rewrite Hs' in IH. rewrite Nat.add_succ_r, skipped_snoc, app_assoc, <- IH, (take_S_r _ _ _ Hs'), all_frames_app by lia.
      cbn. rewrite app_nil_r, <- !app_assoc. f_equal.
      replace (match usable_regions a !! S (current_region a + d) with Some s0 => frames (rg_start s0) (rg_start s0) | None => [] end)
        with (@nil Z) by (destruct (_ !! S _); [by rewrite frames_nil by lia|done]).
      rewrite app_nil_r. case_decide as E.
      + subst d. rewrite Nat.add_0_r in *. rewrite (tail_frames_current a s) by done.
        destruct (pos_next _ Hp s Hs') as [? ?]. by apply frames_app.
      + rewrite (tail_frames_later a _ s) by first [done|lia]. by rewrite (frames_nil (rg_start s) (rg_start s)) by lia. }
  specialize (Hd (i - current_region a)%nat ltac:(lia)). replace (current_region a + (i - current_region a))%nat with i in Hd by lia.
  rewrite app_assoc, <- Hd, Hi. unfold touched. cbn. rewrite Hi, <- app_assoc. f_equal.
  destruct (decide (i = current_region a)) as [->|Hne]; unfold start in *.
  - rewrite Nat.sub_diag in *. cbn in *. rewrite decide_True in * by done. apply frames_app; [done|done|done|lia].
  - rewrite !decide_False in * by lia. by rewrite (frames_nil (rg_start r) (rg_start r)) by lia.
Qed.

(** Releasing the tail of one region: its frames go from limbo to the free list. *)
Lemma release_tail_spec mem b fl held' k i r lo :
  usable_regions b !! i = Some r → rg_start r ≤ lo ≤ rg_end r → aligned lo →
  alloc_core mem b fl (frames lo (rg_end r) ++ held') →
  counted (Z.of_nat (length (frames lo (rg_end r))) + k) b fl → 0 ≤ k ≤ Z.of_nat (length held') →
  let '(mem', b') := Alloc.release_tail dbg lo (rg_end r) (mem, b) in
  ∃ fl', alloc_core mem' b' fl' held' ∧ counted k b' fl' ∧ keeps held' mem mem' ∧ same_pos b b'.
Proof.
  intros Hi Hlo Hal Hc Hk Hk0. destruct (rok_lookup _ _ _ (ac_regions _ _ _ _ Hc) Hi) as (_ & _ & _ & He).
  pose proof (pages_between lo (rg_end r) Hal He) as Hpb. set (n := (rg_end r - lo) / 4096) in *.
  unfold Alloc.release_tail, PAGE_SIZE.
  replace ((rg_end r - lo + (4096 - 1)) / 4096) with n by (rewrite Hpb; apply (Z.div_unique _ _ _ 4095); lia).
  set (body := λ (i : nat) '(mem, a), _).
  set (P := λ (j : nat) (st : PhysMem * PageAllocator), ∃ fl',
    let fs := frames (lo + Z.of_nat j * 4096) (rg_end r) in
    alloc_core st.1 st.2 fl' (fs ++ held') ∧ counted (Z.of_nat (length fs) + k) st.2 fl' ∧ keeps held' mem st.1 ∧ same_pos b st.2).
  assert (P (Z.to_nat n) (for_range 0 (Z.to_nat n) body (mem, b))) as HP.
  { apply for_range_ind; [lia| |].
    - exists fl. rewrite Z.mul_0_l, Z.add_0_r. done.
    - intros j [m c] Hj (fl1 & H1 & H2 & H3 & H4). cbn [fst snd] in *. set (f := lo + Z.of_nat j * 4096) in *.
      assert (aligned f) as Haf by by apply aligned_add.
      rewrite frames_cons in H1, H2 by first [done|lia]. cbn [length app] in H1, H2.
      destruct (take_available_spec m c fl1 _ _ 1 H1 H2) as [H5 H6];
        [unfold counted in H2; lia|cbn [length]; rewrite length_app; lia|].
      edestruct (free_run_accepts m _ fl1 _ (frames (f + 4096) (rg_end r) ++ held') f 1 _ H5 H6) as (m' & c' & fl2 & E & H7 & H8 & H9 & H10 & _).
      + lia.
      + cbn [length]. rewrite length_app. lia.
      + lia.
      + done.
      + exists i, r. cbn. destruct H4 as (-> & _). split; [done|lia].
      + unfold run. rewrite Z.mul_1_l, frames_one. done.
      + unfold body, Alloc.free_page. fold f. rewrite E. exists fl2. cbn [fst snd].
        replace (lo + Z.of_nat (S j) * 4096) with (f + 4096) by lia. split_and!; [done| | |].
        * replace (Z.of_nat (length (frames (f + 4096) (rg_end r))) + k)
            with (Z.of_nat (S (length (frames (f + 4096) (rg_end r)))) + k - 1) by lia. done.
        * intros g Hg. rewrite H9 by (apply elem_of_app; by right). by apply H3.
        * eapply same_pos_trans; [exact H4|]. exact H10. }
  destruct (for_range 0 (Z.to_nat n) body (mem, b)) as [m c]. destruct HP as (fl' & HP). exists fl'. cbn [fst snd] in HP.
  rewrite frames_nil in HP by lia. exact HP.
Qed.

(** Releasing all skipped tails, from region [from] up to region [i]. *)
Lemma release_skipped_spec mem a b fl held' i :
  regions_ok (usable_regions a) → pos_ok a → (current_region a ≤ i < length (usable_regions a))%nat →
  usable_regions b = usable_regions a →
  alloc_core mem b fl (skipped a (current_region a) i ++ held') →
  counted (Z.of_nat (length (skipped a (current_region a) i))) b fl →
  let '(mem', b') := Alloc.release_skipped dbg (current_region a) (next_page a) i (mem, b) in
  ∃ fl', alloc_core mem' b' fl' held' ∧ counted 0 b' fl' ∧ keeps held' mem mem' ∧ same_pos b b'.
Proof.
  intros Hok Hp Hi Er Hc Hk. unfold Alloc.release_skipped. set (body := λ (i : nat) '(mem, a), _).
  set (P := λ (j : nat) (st : PhysMem * PageAllocator), ∃ fl',
    alloc_core st.1 st.2 fl' (skipped a j i ++ held') ∧ counted (Z.of_nat (length (skipped a j i))) st.2 fl'
    ∧ keeps held' mem st.1 ∧ same_pos b st.2).
  assert (P i (for_range (current_region a) i body (mem, b))) as HP.
  { apply for_range_ind; [lia|by exists fl|]. intros j [m c] Hj (fl1 & H1 & H2 & H3 & H4). cbn [fst snd] in *.
    destruct (lookup_lt_is_Some_2 (usable_regions a) j) as [r Hr]; [lia|].
    destruct (rok_lookup _ _ _ Hok Hr) as (Hr1 & _ & Hr2 & Hr3). pose proof H4 as (Erc & _).
    unfold body. rewrite Erc, Er, Hr. change (if decide (j = current_region a) then _ else _) with (tail_start a j r).
    assert (rg_start r ≤ tail_start a j r ≤ rg_end r ∧ aligned (tail_start a j r)) as [Ht1 Ht2].
    { unfold tail_start. case_decide as E; [|split; [lia|done]]. subst j. destruct (pos_next _ Hp r Hr) as [? ?].
      rewrite Z.max_l by lia. split; [lia|done]. }
    rewrite skipped_cons in H1, H2 by lia. unfold tail_frames in H1, H2. rewrite Hr in H1, H2.
    rewrite length_app, Nat2Z.inj_add in H2. rewrite <- app_assoc in H1.
    pose proof (release_tail_spec m c fl1 _ _ j r (tail_start a j r) ltac:(by rewrite Erc, Er) Ht1 Ht2 H1 H2) as Hrel.
    destruct (Alloc.release_tail dbg (tail_start a j r) (rg_end r) (m, c)) as [m' c'].
    destruct Hrel as (fl2 & H5 & H6 & H7 & H8); [rewrite length_app; lia|]. exists fl2. cbn [fst snd]. split_and!; [done|done| |].
    - intros g Hg. rewrite H7 by (apply elem_of_app; by right). by apply H3.
    - by eapply same_pos_trans. }
  destruct (for_range _ i body (mem, b)) as [m c]. destruct HP as (fl' & HP). exists fl'. cbn [fst snd] in HP.
  unfold skipped in HP. rewrite Nat.sub_diag in HP. exact HP.
Qed.

Lemma frame_in_region mem a fl held f :
  alloc_core mem a fl held → f ∈ fl ++ held → in_one_region (usable_regions a) f 1.
Proof.
  intros Hc Hf. rewrite (core_touched _ _ _ _ _ Hc) in Hf. rewrite elem_of_touched in Hf by apply Hc.
  destruct Hf as (Ha & i & r & Hi & Hr & _). exists i, r. split; [done|]. split; [lia|].
  destruct (rok_lookup _ _ _ (ac_regions _ _ _ _ Hc) Hi) as (_ & _ & _ & He).
  apply aligned_spec in Ha as [q ->], He as [p Ep]. lia.
Qed.

(** No run of [n] frames beyond the bump position lies in one region. *)
Definition no_fresh_run (a : PageAllocator) (n : Z) : Prop :=
  ∀ base, in_one_region (usable_regions a) base n → ¬ (∀ f, f ∈ run base n → f ∈ untouched a).

Lemma elem_of_untouched mem a fl held f :
  alloc_core mem a fl held → f ∈ untouched a → f ∈ all_frames (usable_regions a) ∧ f ∉ touched a.
Proof.
  intros Hc Hf. destruct Hc as [Hok Hp _ _ _ _]. rewrite <- (touched_untouched a) by done.
  split; [apply elem_of_app; by right|]. intros Ht. pose proof (NoDup_all_frames _ Hok) as Hnd.
  rewrite <- (touched_untouched a) in Hnd by done. apply NoDup_app in Hnd as (_ & Hnd & _). by apply (Hnd f).
Qed.

(** A failed search means no run of that size is left beyond the bump position. *)
Lemma find_region_none mem a fl held n :
  alloc_core mem a fl held → 0 < n →
  (∀ j r, drop (current_region a) (usable_regions a) !! j = Some r →
    saturating_sub (rg_end r) (if decide ((current_region a + j)%nat = current_region a) then next_page a else rg_start r) < n * 4096) →
  no_fresh_run a n.
Proof.
  intros Hc Hn Hsmall base (i & r & Hi & Hr1 & Hr2) Hun. pose proof (ac_regions _ _ _ _ Hc) as Hok.
  assert (base ∈ run base n) as Hbr.
  { unfold run, frames. apply list_elem_of_fmap. exists 0. split; [lia|]. apply elem_of_seqZ.
    replace (base + n * 4096 - base) with (n * 4096) by lia. rewrite Z.div_mul by done. lia. }
  destruct (elem_of_untouched mem a fl held base Hc (Hun base Hbr)) as [Hall Hnt].
  apply elem_of_all_frames in Hall as [Hal _]; [|done]. rewrite elem_of_touched in Hnt by apply Hc.
  destruct (decide (i < current_region a)%nat) as [Hlt|Hge].
  { apply Hnt. split; [done|]. exists i, r. split; [done|]. split; [lia|by left]. }
  specialize (Hsmall (i - current_region a)%nat r). rewrite lookup_drop in Hsmall.
  replace (current_region a + (i - current_region a))%nat with i in Hsmall by lia. specialize (Hsmall Hi).
  unfold saturating_sub in Hsmall. case_decide as E; [|lia]. subst i.
  destruct (decide (base < next_page a)); [|lia]. apply Hnt. split; [done|]. exists (current_region a), r.
  split; [done|]. split; [lia|]. by right.
Qed.

(** The run at the bump position: the frames skipped on the way are freed. *)
Lemma take_run_spec mem a fl held i r start pages :
  alloc_core mem a fl held → counted 0 a fl → (current_region a ≤ i)%nat → usable_regions a !! i = Some r →
  start = (if decide (i = current_region a) then next_page a else rg_start r) → 0 < pages → start + pages * 4096 ≤ rg_end r →
  let a1 := Alloc.take_available pages (Alloc.set_position i (start + pages * 4096) a) in
  let '(mem', a') := Alloc.release_skipped dbg (current_region a) (next_page a) i (mem, a1) in
  ∃ fl', alloc_core mem' a' fl' (run start pages ++ held) ∧ counted 0 a' fl' ∧ keeps held mem mem'
         ∧ usable_regions a' = usable_regions a ∧ in_one_region (usable_regions a) start pages.
Proof.
  intros Hc Hk Hle Hi Est Hpg Hfit a1. pose proof (ac_regions _ _ _ _ Hc) as Hok. pose proof (ac_pos _ _ _ _ Hc) as Hp.
  destruct (rok_lookup _ _ _ Hok Hi) as (Hr1 & Hr2 & Hr3 & Hr4).
  assert (rg_start r ≤ start ∧ aligned start) as [Hst Hal].
  { rewrite Est. case_decide as E; [|split; [lia|done]]. subst i. destruct (pos_next _ Hp r Hi) as [? ?]. split; [lia|done]. }
  set (b := Alloc.set_position i (start + pages * 4096) a) in *.
  destruct (touched_at a i r (start + pages * 4096) Hok Hp Hle Hi) as [Hpb Ht]; [rewrite <- Est; lia|by apply aligned_add|].
  fold b in Hpb, Ht. rewrite <- Est in Ht. fold (run start pages) in Ht.
  pose proof (core_advance mem a b fl held _ Hc Hpb Ht eq_refl eq_refl eq_refl eq_refl) as Hcb.
  pose proof (core_lengths _ _ _ _ Hc) as [Hla _]. pose proof (core_lengths _ _ _ _ Hcb) as [Hlb _].
  change (total_pages b) with (total_pages a) in Hlb. rewrite !length_app, length_run in Hlb by lia.
  set (sk := skipped a (current_region a) i) in *.
  assert (counted (Z.of_nat (length sk) + pages) b fl) as Hkb.
  { unfold counted in *. change (available_pages b) with (available_pages a). lia. }
  destruct (take_available_spec mem b fl _ _ pages Hcb Hkb) as [Hc1 Hk1].
  { unfold counted in Hkb. change (available_pages b) with (available_pages a) in *. lia. }
  { rewrite !length_app, length_run by lia. lia. }
  replace (Z.of_nat (length sk) + pages - pages) with (Z.of_nat (length sk)) in Hk1 by lia. rewrite <- app_assoc in Hc1.
  pose proof (release_skipped_spec mem a a1 fl (run start pages ++ held) i Hok Hp) as Hrel.
  apply lookup_lt_Some in Hi as Hlen. specialize (Hrel ltac:(lia) eq_refl Hc1 Hk1).
  destruct (Alloc.release_skipped dbg _ _ i (mem, a1)) as [mem' a']. destruct Hrel as (fl' & H1 & H2 & H3 & H4).
  exists fl'. split_and!; [done|done| |by destruct H4 as (-> & _)|exists i, r; split; [done|lia]].
  intros g Hg. apply H3. apply elem_of_app. by right.
Qed.

(** [allocate_run] hands out between [min] and [max] adjacent free frames of one region;
    a refusal changes nothing and means there was no such run beyond the bump position,
    and for a single frame that none was free at all. *)
Lemma allocate_run_spec mem a fl held min_pages max_pages :
  alloc_core mem a fl held → counted 0 a fl → 0 ≤ min_pages →
  match Alloc.allocate_run dbg min_pages max_pages mem a with
  | Ok ((mem', a'), Some (base, n)) =>
      0 < min_pages ≤ n ∧ n ≤ max_pages ∧
      ∃ fl', alloc_core mem' a' fl' (run base n ++ held) ∧ counted 0 a' fl' ∧ keeps held mem mem'
             ∧ usable_regions a' = usable_regions a ∧ in_one_region (usable_regions a) base n
  | Ok ((mem', a'), None) =>
      mem' = mem ∧ a' = a ∧ (0 < min_pages ≤ max_pages → no_fresh_run a min_pages ∧ (min_pages = 1 → fl = [] ∧ untouched a = []))
  | Err _ => False
  end.
Proof.
  intros Hc Hk Hmin. pose proof (ac_regions _ _ _ _ Hc) as Hok. unfold Alloc.allocate_run.
  destruct (decide (min_pages = 0 ∨ min_pages > max_pages)) as [Hbad|Hgood].
  { split; [done|]. split; [done|]. lia. }
  destruct (checked_mul 64 min_pages PAGE_SIZE) as [mb|] eqn:Em.
  2: { split; [done|]. split; [done|]. intros _. unfold checked_mul, PAGE_SIZE in Em. case_decide as Hov; [done|]. split.
       - intros base (i & r & Hi & Hr) _. destruct (rok_lookup _ _ _ Hok Hi) as (? & ? & _). unfold PAGE_SIZE in *. lia.
       - intros ->. lia. }
  apply checked_mul_Some in Em as [-> _]. unfold PAGE_SIZE.
  pose proof (find_region_spec (drop (current_region a) (usable_regions a)) (current_region a) (current_region a)
    (next_page a) (min_pages * 4096) ltac:(lia)) as Hfind.
  destruct (Alloc.find_region _ _ _ _ _) as [i start]. destruct Hfind as [Hi Hfind].
  rewrite lookup_drop in Hfind. replace (current_region a + (i - current_region a))%nat with i in Hfind by lia.
  destruct (usable_regions a !! i) as [r|] eqn:Er.
  - destruct Hfind as [Est Hroom]. unfold saturating_sub in Hroom.
    assert (min_pages ≤ (rg_end r - start) / 4096) as Hdiv by (apply Z.div_le_lower_bound; lia).
    pose proof (Z.mul_div_le (rg_end r - start) 4096 ltac:(lia)) as Hmul.
    set (pages := Z.min ((rg_end r - start) / 4096) max_pages) in *.
    pose proof (take_run_spec mem a fl held i r start pages Hc Hk ltac:(lia) Er Est ltac:(lia) ltac:(lia)) as Ht.
    cbv zeta in Ht. destruct (Alloc.release_skipped dbg _ _ i _) as [mem' a']. split; [lia|]. split; [lia|]. exact Ht.
  - pose proof (find_region_none mem a fl held min_pages Hc ltac:(lia) Hfind) as Hnone.
    case_decide as H1; [split; [done|]; split; [done|]; intros _; split; [done|lia]|].
    assert (min_pages = 1) as -> by lia. pose proof (pop_spec mem a fl held Hc) as Hpop. destruct fl as [|f fl].
    + rewrite Hpop. split; [done|]. split; [done|]. intros _. split; [done|]. intros _. split; [done|].
      destruct (untouched a) as [|f l] eqn:Eu; [done|]. exfalso.
      assert (f ∈ untouched a) as Hf by (rewrite Eu; by left).
      destruct (elem_of_untouched mem a [] held f Hc Hf) as [(Ha & j & s & Hj & Hs)%elem_of_all_frames _]; [|done].
      destruct (rok_lookup _ _ _ Hok Hj) as (_ & _ & _ & He). apply (Hnone f).
      * exists j, s. split; [done|]. apply aligned_spec in Ha as [q ->], He as [p Ep]. lia.
      * unfold run. rewrite Z.mul_1_l, frames_one. by intros g ->%list_elem_of_singleton.
    + destruct Hpop as (a' & -> & Hc' & Hp & Eav). split; [lia|]. split; [lia|]. exists fl.
      assert (counted 1 a' fl) as Hk'.
      { unfold counted in *. destruct (same_pos_touched a a' Hp) as [_ ->]. rewrite Eav, Hk. cbn [length]. lia. }
      destruct (take_available_spec mem a' fl (f :: held) 1 1 Hc' Hk') as [H2 H3]; [unfold counted in Hk'; lia|cbn; lia|].
      destruct Hp as (Er' & _). unfold run. rewrite Z.mul_1_l, frames_one. split_and!; [done|done|done|done|].
      apply (frame_in_region mem a (f :: fl) held); [done|]. by left.
Qed.
End allocator.
