(* ===== verification/FrameRefine.v ===== *)
(** The page allocator refines a heap of owned frames, and starts from the firmware's map.

    The abstract state is the finite map of frames that callers hold, with their bytes.
    Its transitions ([spec_step]) say only what a caller may rely on: an allocated frame
    is a usable frame nobody holds, a refusal means there is none, freeing requires the
    whole run to be held, and nothing a caller holds changes except by its own writes. *)

From Stdlib Require Import ZArith Lia String.
From stdpp Require Import base list gmap sets tactics decidable numbers sorting.
From S2P Require Import Prelude Bytes MemoryMap FrameAllocator FrameSpec.

Local Open Scope Z_scope.

(** ** Calls *)

(** The allocator's interface, and the writes its callers make to their frames. *)
Inductive Call : Type :=
  | AllocatePage
  | FreeRun (base pages : Z)
  | AllocateRun (min_pages max_pages : Z)
  | WriteFrame (frame : Z) (bytes : list Z).

Inductive Reply : Type :=
  | GotPage (frame : option Z)
  | Freed (ok : bool)
  | GotRun (found : option (Z * Z))
  | Written.

Definition serve `{NodeLayout} (dbg : bool) (call : Call) (mem : PhysMem) (a : PageAllocator)
  : result string ((PhysMem * PageAllocator) * Reply) :=
  match call with
  | AllocatePage =>
      let? r := Alloc.allocate_page dbg mem a in
      Ok ((mem, r.1), GotPage r.2)
  | FreeRun base pages =>
      let r := Alloc.free_run dbg base pages mem a in
      Ok (r.1, Freed (is_ok r.2))
  | AllocateRun min_pages max_pages =>
      let? r := Alloc.allocate_run dbg min_pages max_pages mem a in
      Ok (r.1, GotRun r.2)
  | WriteFrame frame bytes => Ok ((<[frame := bytes]> mem, a), Written)
  end.

(** ** The abstract heap *)

Abbreviation Heap := (gmap Z (list Z)).

Definition is_free (l : list MemoryRegion) (σ : Heap) (f : Z) : Prop := f ∈ all_frames l ∧ σ !! f = None.

(** A run callers may free: held as a whole, within one region. *)
Definition held_run (l : list MemoryRegion) (σ : Heap) (base pages : Z) : Prop :=
  0 < pages ∧ in_one_region l base pages ∧ ∀ f, f ∈ run base pages → is_Some (σ !! f).

(** [σ'] is [σ] with the frames [fs] added. *)
Definition adds (fs : list Z) (σ σ' : Heap) : Prop :=
  ∀ f, if decide (f ∈ fs) then is_Some (σ' !! f) else σ' !! f = σ !! f.

Definition removes (fs : list Z) (σ σ' : Heap) : Prop :=
  ∀ f, σ' !! f = if decide (f ∈ fs) then None else σ !! f.

Inductive spec_step (l : list MemoryRegion) (σ : Heap) : Call → Reply → Heap → Prop :=
  | spec_page f σ' :
      is_free l σ f → adds [f] σ σ' → spec_step l σ AllocatePage (GotPage (Some f)) σ'
  | spec_no_page :
      (∀ f, ¬ is_free l σ f) → spec_step l σ AllocatePage (GotPage None) σ
  | spec_free base pages σ' :
      held_run l σ base pages → removes (run base pages) σ σ' → spec_step l σ (FreeRun base pages) (Freed true) σ'
  | spec_refuse base pages :
      ¬ held_run l σ base pages → spec_step l σ (FreeRun base pages) (Freed false) σ
  | spec_run min_pages max_pages base n σ' :
      0 < min_pages ≤ n → n ≤ max_pages → in_one_region l base n →
      (∀ f, f ∈ run base n → is_free l σ f) → adds (run base n) σ σ' →
      spec_step l σ (AllocateRun min_pages max_pages) (GotRun (Some (base, n))) σ'
  | spec_no_run min_pages max_pages :
      (min_pages = 1 → 1 ≤ max_pages → ∀ f, ¬ is_free l σ f) →
      spec_step l σ (AllocateRun min_pages max_pages) (GotRun None) σ
  | spec_write f bytes :
      spec_step l σ (WriteFrame f bytes) Written (<[f := bytes]> σ).

(** Callers pass unsigned arguments and write only whole frames that they hold. *)
Definition disciplined (σ : Heap) (call : Call) : Prop :=
  match call with
  | AllocatePage => True
  | FreeRun base pages => 0 ≤ base ∧ 0 ≤ pages
  | AllocateRun min_pages _ => 0 ≤ min_pages
  | WriteFrame f bytes => is_Some (σ !! f) ∧ length bytes = 4096%nat
  end.

Section refinement.
Context `{NodeLayout} (dbg : bool).

(** The concrete state implements the heap [σ] over the region table [l]. *)
Definition implements (l : list MemoryRegion) (σ : Heap) (mem : PhysMem) (a : PageAllocator) : Prop :=
  ∃ fl held, alloc_core dbg mem a fl held ∧ counted 0 a fl ∧ usable_regions a = l ∧
    ∀ f, σ !! f = if decide (f ∈ held) then Some (frame_bytes mem f) else None.

Definition exact_stats (l : list MemoryRegion) (σ : Heap) (a : PageAllocator) : Prop :=
  Alloc.stats a = MkStats (Z.of_nat (length (all_frames l))) (Z.of_nat (size σ))
                    (Z.of_nat (length (all_frames l)) - Z.of_nat (size σ)).

Lemma core_free mem a fl held σ f :
  alloc_core dbg mem a fl held → (∀ f, σ !! f = if decide (f ∈ held) then Some (frame_bytes mem f) else None) →
  is_free (usable_regions a) σ f ↔ f ∈ fl ∨ f ∈ untouched a.
Proof.
  intros Hc Hσ. unfold is_free. rewrite Hσ. pose proof (core_NoDup _ _ _ _ _ Hc) as Hnd.
  destruct Hc as [Hok Hp _ Hs _ _]. rewrite <- (touched_untouched a), <- Hs, !elem_of_app by done.
  apply NoDup_app in Hnd as (_ & Hn1 & Hnd). apply NoDup_app in Hnd as (_ & Hn2 & _).
  case_decide; set_solver.
Qed.

Lemma implements_stats l σ mem a : implements l σ mem a → exact_stats l σ a.
Proof.
  intros (fl & held & Hc & Hk & <- & Hσ). unfold exact_stats, Alloc.stats.
  pose proof (core_lengths _ _ _ _ _ Hc) as [Hl Ht]. rewrite <- (ac_total _ _ _ _ _ Hc).
  assert (size σ = length held) as ->.
  { pose proof (core_NoDup _ _ _ _ _ Hc) as Hnd. apply NoDup_app in Hnd as (_ & _ & [Hnd _]%NoDup_app).
    rewrite <- size_dom, <- (size_list_to_set (C := gset Z) held) by done. f_equal. apply leibniz_equiv.
    intros f. rewrite elem_of_dom, elem_of_list_to_set, Hσ. case_decide; [|by rewrite is_Some_alt].
    split; [done|]. eauto. }
  unfold counted in Hk. rewrite wrap_small by (unfold in_width; lia). f_equal; lia.
Qed.

(** The heap a concrete state implements, given what is held. *)
Definition heap_of (mem : PhysMem) (held : list Z) : Heap := list_to_map ((λ f, (f, frame_bytes mem f)) <$> held).

Lemma heap_of_lookup mem held f :
  heap_of mem held !! f = if decide (f ∈ held) then Some (frame_bytes mem f) else None.
Proof.
  unfold heap_of. case_decide as Hf.
  - apply elem_of_list_to_map_1'; [|by apply list_elem_of_fmap; exists f].
    intros y (g & [= -> ->] & _)%list_elem_of_fmap. done.
  - apply not_elem_of_list_to_map_1. rewrite <- list_fmap_compose. cbn. by rewrite list_fmap_id.
Qed.

Lemma implements_heap_of mem a fl held :
  alloc_core dbg mem a fl held → counted 0 a fl → implements (usable_regions a) (heap_of mem held) mem a.
Proof. intros Hc Hk. exists fl, held. split_and!; auto. apply heap_of_lookup. Qed.

(** Growing the held frames by [fs]. *)
Lemma heap_adds mem mem' held fs σ :
  (∀ f, σ !! f = if decide (f ∈ held) then Some (frame_bytes mem f) else None) → keeps held mem mem' →
  adds fs σ (heap_of mem' (fs ++ held)).
Proof.
  intros Hσ Hk f. rewrite heap_of_lookup, Hσ. case_decide as H1.
  - rewrite decide_True by (apply elem_of_app; by left). eauto.
  - destruct (decide (f ∈ held)) as [H2|H2].
    + rewrite decide_True by (apply elem_of_app; by right). by rewrite Hk.
    + rewrite decide_False; [done|]. rewrite elem_of_app. tauto.
Qed.

Lemma serve_allocate_page l σ mem a :
  implements l σ mem a →
  match serve dbg AllocatePage mem a with
  | Ok ((mem', a'), reply) => ∃ σ', spec_step l σ AllocatePage reply σ' ∧ implements l σ' mem' a'
  | Err _ => False
  end.
Proof.
  intros (fl & held & Hc & Hk & <- & Hσ). cbn [serve]. pose proof (allocate_page_spec dbg mem a fl held Hc Hk) as Ha.
  destruct (Alloc.allocate_page dbg mem a) as [[a' [f|]]|]; [| |done].
  - destruct Ha as (fl' & Hc' & Hk' & Er). exists (heap_of mem (f :: held)). split.
    + constructor; [|by apply (heap_adds mem mem held [f])].
      rewrite (core_free mem a fl held) by done. pose proof (core_NoDup _ _ _ _ _ Hc') as Hnd.
      pose proof (ac_split _ _ _ _ _ Hc') as Hs'. destruct (ac_pos _ _ _ _ _ Hc') as [? ?].
      assert (f ∈ all_frames (usable_regions a)) as Hall.
      { rewrite <- Er, <- (touched_untouched a'), <- Hs' by apply Hc'. rewrite !elem_of_app. left. right. by left. }
      rewrite <- (touched_untouched a), <- (ac_split _ _ _ _ _ Hc), !elem_of_app in Hall by apply Hc.
      apply NoDup_app in Hnd as (_ & _ & [Hnf _]%NoDup_cons). rewrite elem_of_app in Hnf. tauto.
    + cbn [fst snd]. rewrite <- Er. by apply (implements_heap_of mem a' fl').
  - destruct Ha as (-> & Hu & Hc' & Hk' & Er). exists σ. split.
    + constructor. intros f. rewrite (core_free mem a [] held) by done. rewrite Hu. by intros [?%elem_of_nil|?%elem_of_nil].
    + exists [], held. done.
Qed.

Lemma serve_free_run l σ mem a base pages :
  implements l σ mem a → 0 ≤ base → 0 ≤ pages →
  let '((mem', a'), r) := Alloc.free_run dbg base pages mem a in
  ∃ σ', spec_step l σ (FreeRun base pages) (Freed (is_ok r)) σ' ∧ implements l σ' mem' a'.
Proof.
  intros (fl & held & Hc & Hk & <- & Hσ) Hb Hp.
  assert (held_run (usable_regions a) σ base pages ↔ run_freeable a held base pages) as Hiff.
  { unfold held_run, run_freeable. apply and_iff_compat_l, and_iff_compat_l. apply forall_proper. intros f.
    rewrite Hσ. case_decide as Hd; split; intros Hx Hy; [done|eauto|by destruct (Hx Hy)|by destruct Hd; apply Hx]. }
  destruct (free_run_decides dbg mem a fl held base pages Hc Hb Hp) as [[Hf _]|[Hn [e ->]]].
  2: { exists σ. split; [constructor; by rewrite Hiff|]. by exists fl, held. }
  pose proof (run_freeable_aligned dbg _ _ _ _ _ _ Hc Hf) as Hal. pose proof Hf as (Hpos & Hone & Hin).
  pose proof (core_NoDup _ _ _ _ _ Hc) as Hnd. apply NoDup_app in Hnd as (_ & _ & [Hnd _]%NoDup_app).
  destruct (submseteq_Permutation (run base pages) held) as [held' Hh].
  { apply NoDup_submseteq; [apply NoDup_frames|done]. }
  destruct (free_run_accepts dbg mem a fl held held' base pages 0 Hc Hk) as (mem' & a' & fl' & -> & Hc' & Hk' & Hkeep & Hp' & _); auto; [lia| |].
  { apply Permutation_length in Hh. rewrite Hh, length_app, length_run by lia. lia. }
  exists (heap_of mem' held'). destruct Hp' as (Er & _). split; [|rewrite <- Er; by apply (implements_heap_of mem' a' fl')].
  apply spec_free; [by apply Hiff|]. intros f. rewrite heap_of_lookup, Hσ. rewrite Hh in Hnd.
  apply NoDup_app in Hnd as (_ & Hdis & _). assert (f ∈ held ↔ f ∈ run base pages ∨ f ∈ held') as Hfh by (rewrite Hh; apply elem_of_app).
  destruct (decide (f ∈ run base pages)) as [H1|H1].
  - by rewrite decide_False by (by apply Hdis).
  - destruct (decide (f ∈ held')) as [H2|H2].
    + rewrite decide_True by tauto. by rewrite Hkeep.
    + by rewrite decide_False by tauto.
Qed.

Lemma serve_allocate_run l σ mem a min_pages max_pages :
  implements l σ mem a → 0 ≤ min_pages →
  match Alloc.allocate_run dbg min_pages max_pages mem a with
  | Ok ((mem', a'), r) => ∃ σ', spec_step l σ (AllocateRun min_pages max_pages) (GotRun r) σ' ∧ implements l σ' mem' a'
  | Err _ => False
  end.
Proof.
  intros (fl & held & Hc & Hk & <- & Hσ) Hmin. pose proof (allocate_run_spec dbg mem a fl held min_pages max_pages Hc Hk Hmin) as Ha.
  destruct (Alloc.allocate_run dbg min_pages max_pages mem a) as [[[mem' a'] [[base n]|]]|]; [| |done].
  - destruct Ha as (H1 & H2 & fl' & Hc' & Hk' & Hkeep & Er & Hone). exists (heap_of mem' (run base n ++ held)).
    split; [|rewrite <- Er; by apply (implements_heap_of mem' a' fl')].
    constructor; [done|done|done| |by apply (heap_adds mem)]. intros f Hf. split.
    + rewrite <- Er, <- (touched_untouched a'), <- (ac_split _ _ _ _ _ Hc'), !elem_of_app by apply Hc'. tauto.
    + rewrite Hσ, decide_False; [done|]. intros Hh. pose proof (core_NoDup _ _ _ _ _ Hc') as Hnd.
      apply NoDup_app in Hnd as (_ & _ & [Hnd _]%NoDup_app). apply NoDup_app in Hnd as (_ & Hnd & _). by apply (Hnd f).
  - destruct Ha as (-> & -> & Hnone). exists σ. split; [|by exists fl, held]. constructor. intros -> Hmax f.
    destruct Hnone as [_ Hall]; [lia|]. destruct (Hall eq_refl) as [-> Hu]. rewrite (core_free mem a [] held) by done.
    rewrite Hu. by intros [?%elem_of_nil|?%elem_of_nil].
Qed.

(** A write to a held frame does not touch the allocator's list. *)
Lemma serve_write l σ mem a f bytes :
  implements l σ mem a → is_Some (σ !! f) → length bytes = 4096%nat → implements l (<[f := bytes]> σ) (<[f := bytes]> mem) a.
Proof.
  intros (fl & held & Hc & Hk & <- & Hσ) Hf Hb. exists fl, held. rewrite Hσ in Hf.
  case_decide as Hin; [|by destruct Hf]. pose proof (core_NoDup _ _ _ _ _ Hc) as Hnd.
  apply NoDup_app in Hnd as (_ & Hdis & _).
  assert (∀ g, g ∈ fl → frame_bytes (<[f := bytes]> mem) g = frame_bytes mem g) as Hsame.
  { intros g Hg. rewrite frame_bytes_insert, decide_False; [done|]. intros ->. apply (Hdis g Hg), elem_of_app. by left. }
  split_and!; [|done|done|].
  - pose proof (ac_list _ _ _ _ _ Hc) as [H1 H2 H3].
    apply (core_move dbg mem a fl held); [done|done|done| |by apply mem_ok_insert; [apply Hc|]]. split; [|done|].
    + by eapply chain_same.
    + intros Hd. specialize (H3 Hd). rewrite Forall_forall in H3 |- *. intros g Hg.
      apply (poisoned_same mem); [|auto]. intros i _. by rewrite Hsame.
  - intros g. rewrite frame_bytes_insert. destruct (decide (f = g)) as [->|Hne].
    + by rewrite lookup_insert_eq, decide_True.
    + by rewrite lookup_insert_ne.
Qed.
End refinement.

(** ** Construction from the memory map *)

(** What [PageAllocator::new] keeps of a region. *)
Definition clip (r : MemoryRegion) : option MemoryRegion :=
  let start := Z.max (rg_start r) PAGE_SIZE in
  if decide (rg_kind r = Usable ∧ start < rg_end r) then Some (MkRegion start (rg_end r) Usable) else None.

Definition pages_of (l : list MemoryRegion) : Z := Z.of_nat (length (all_frames l)).

Lemma clip_Some r s : clip r = Some s ↔ rg_kind r = Usable ∧ Z.max (rg_start r) PAGE_SIZE < rg_end r ∧ s = MkRegion (Z.max (rg_start r) PAGE_SIZE) (rg_end r) Usable.
Proof.
  unfold clip. case_decide as Hd; split.
  - intros [= <-]. tauto.
  - by intros (_ & _ & ->).
  - done.
  - intros (? & ? & _). by destruct Hd.
Qed.

Lemma add_region_clip r a :
  Alloc.add_region r a =
    match clip r with
    | Some s =>
        if decide (length (usable_regions a) = MAX_MEMORY_REGIONS) then Err "allocator usable-region capacity exceeded"%string
        else Ok (MkAllocator (usable_regions a ++ [s]) (current_region a) (next_page a) (free_list_head a) (free_list_tail a)
                   (wrapping_add 64 (total_pages a) ((rg_end s - rg_start s) / PAGE_SIZE)) (available_pages a))
    | None => Ok a
    end.
Proof.
  unfold Alloc.add_region, clip. destruct (decide (rg_kind r = Usable)) as [Hk|Hk]; [|by rewrite decide_False by tauto].
  case_decide as He; [by rewrite decide_False by lia|].
  destruct (decide (rg_kind r = Usable ∧ _)) as [_|[]]; [done|split; [done|lia]].
Qed.

Lemma add_regions_spec l u t :
  (length u + length l ≤ MAX_MEMORY_REGIONS)%nat → regions_ok (omap clip l) → 0 ≤ t → t + pages_of (omap clip l) < 2 ^ 64 →
  try_fold Alloc.add_region l (MkAllocator u 0 0 None None t 0)
  = Ok (MkAllocator (u ++ omap clip l) 0 0 None None (t + pages_of (omap clip l)) 0).
Proof.
  revert u t. induction l as [|r l IH]; intros u t Hlen Hok Ht Hb; cbn [try_fold].
  { cbn. by rewrite app_nil_r, Z.add_0_r. }
  cbn [length] in Hlen. rewrite add_region_clip. cbn [omap list_omap] in *. destruct (clip r) as [s|]; [|apply IH; auto; lia].
  cbn [usable_regions]. rewrite decide_False by lia.
  cbn [current_region next_page free_list_head free_list_tail total_pages available_pages].
  destruct (rok_lookup _ 0 s Hok eq_refl) as (H1 & H2 & H3 & H4). pose proof (pages_between _ _ H3 H4) as Hpb.
  assert (pages_of (s :: omap clip l) = (rg_end s - rg_start s) / PAGE_SIZE + pages_of (omap clip l)) as Ep.
  { unfold pages_of. rewrite all_frames_cons, length_app, length_frames. unfold PAGE_SIZE in *. lia. }
  assert (0 ≤ pages_of (omap clip l)) by (unfold pages_of; lia). unfold wrapping_add, PAGE_SIZE in *.
  rewrite wrap_small by (unfold in_width; lia).
  rewrite IH; [|rewrite length_app; cbn; lia|by eapply rok_cons|lia|lia].
  rewrite <- app_assoc, Ep. cbn. do 2 f_equal. lia.
Qed.

Lemma clip_ok m : map_ok (2 ^ 64 - 1) m → regions_ok (omap clip (regions m)).
Proof.
  intros [_ Hg Hs _ _].
  assert (∀ s, s ∈ omap clip (regions m) → ∃ r, r ∈ regions m ∧ clip r = Some s) as Hin by (intros s; by apply list_elem_of_omap).
  split; [apply Forall_forall..|].
  - intros s (r & Hr & (Hk & Hlt & ->)%clip_Some)%Hin. rewrite Forall_forall in Hg. destruct (Hg r Hr) as (H1 & H2 & H3 & H4).
    unfold region_good, PAGE_SIZE in *. cbn. split; [lia|]. split; [lia|]. split; [|done].
    destruct (Z.max_spec (rg_start r) 4096) as [[_ ->]|[_ ->]]; done.
  - intros s (r & Hr & (Hk & Hlt & ->)%clip_Some)%Hin. cbn. lia.
  - intros s (r & Hr & (Hk & Hlt & ->)%clip_Some)%Hin. done.
  - clear Hin Hg. induction (regions m) as [|r l IH]; [constructor|]. apply StronglySorted_cons in Hs as [Hb Hs]. cbn.
    destruct (clip r) as [s|] eqn:Es; [|auto]. apply clip_Some in Es as (_ & _ & ->). constructor; [auto|].
    apply Forall_forall. intros s (q & Hq & (_ & _ & ->)%clip_Some)%list_elem_of_omap. rewrite Forall_forall in Hb.
    specialize (Hb q Hq). unfold before in *. cbn. lia.
Qed.

Lemma elem_of_clip_frames m f :
  map_ok (2 ^ 64 - 1) m → f ∈ all_frames (omap clip (regions m)) ↔ aligned f ∧ PAGE_SIZE ≤ f ∧ covers m Usable f.
Proof.
  intros Hm. rewrite elem_of_all_frames by by apply clip_ok. apply and_iff_compat_l. split.
  - intros (i & s & Hi & Hf). apply list_elem_of_lookup_2, list_elem_of_omap in Hi as (r & Hr & (Hk & Hlt & ->)%clip_Some).
    cbn in Hf. split; [lia|]. exists r. split; [done|]. split; [done|lia].
  - intros (Hlo & r & Hr & Hk & Hf). assert (clip r = Some (MkRegion (Z.max (rg_start r) PAGE_SIZE) (rg_end r) Usable)) as Hc.
    { apply clip_Some. split_and!; auto. lia. }
    assert (MkRegion (Z.max (rg_start r) PAGE_SIZE) (rg_end r) Usable ∈ omap clip (regions m)) as [i Hi]%list_elem_of_lookup.
    { apply list_elem_of_omap. eauto. }
    exists i. eexists. split; [exact Hi|]. cbn. lia.
Qed.

(** A fresh allocator holds nothing and owns exactly the usable frames. *)
Lemma new_spec `{NodeLayout} dbg mem m :
  map_ok (2 ^ 64 - 1) m → mem_ok mem →
  match Alloc.new false m with
  | (_, Ok a) => implements dbg (usable_regions a) ∅ mem a ∧
                 ∀ f, f ∈ all_frames (usable_regions a) ↔ aligned f ∧ PAGE_SIZE ≤ f ∧ covers m Usable f
  | (_, Err _) => ∀ f, aligned f → PAGE_SIZE ≤ f → ¬ covers m Usable f
  end.
Proof.
  intros Hm Hmem. pose proof (clip_ok m Hm) as Hok. pose proof (all_frames_bound _ Hok) as Hb.
  pose proof (map_room _ _ Hm) as Hroom. unfold Alloc.new. cbn [Alloc.claim_usable_region_table].
  rewrite add_regions_spec; [|cbn; lia|done|lia|unfold pages_of; lia]. cbn [usable_regions app].
  pose proof (elem_of_clip_frames m) as Hel. destruct (omap clip (regions m)) as [|r l] eqn:El.
  { intros f Ha Hlo Hcov. assert (f ∈ all_frames []) as Hf by (by apply Hel). by apply elem_of_nil in Hf. }
  set (a := Alloc.set_available _ _). assert (usable_regions a = r :: l) as Er by done. rewrite Er.
  split; [|intros f; by apply Hel]. destruct (rok_lookup _ 0 r Hok eq_refl) as (H1 & H2 & H3 & H4).
  assert (pos_ok a) as Hpos.
  { split; cbn; [lia|]. intros ? [= <-]. split; [lia|done]. }
  assert (touched a = []) as Ht by (unfold touched; cbn; by rewrite frames_nil by lia).
  exists [], []. split_and!; [| |done|intros f; by rewrite decide_False by apply not_elem_of_nil].
  - split; rewrite ?Er, ?Ht; auto; [split; [done|done|by constructor]].
  - unfold counted. cbn [length]. change (available_pages a) with (pages_of (r :: l)). unfold pages_of.
    rewrite <- Er, <- (touched_untouched a), Ht by (rewrite ?Er; done). cbn [app]. lia.
Qed.

(** C11: The page allocator refines the heap of owned frames, in both build profiles.
    From a state that implements a heap, every disciplined call returns (the poison check
    never stops the kernel), its reply is one the specification allows, and the new state
    implements the resulting heap: an allocated frame or run was usable and held by
    nobody, allocation of a page fails only when every usable frame is held, a run is
    freed exactly when the caller holds all of it, held frames keep their bytes except
    for their owners' writes, and the statistics count the held frames exactly. *)
Theorem allocator_refines `{NodeLayout} (dbg : bool) (l : list MemoryRegion) (σ : Heap) (mem : PhysMem)
    (a : PageAllocator) (call : Call) :
  implements dbg l σ mem a → disciplined σ call →
  match serve dbg call mem a with
  | Ok ((mem', a'), reply) => ∃ σ', spec_step l σ call reply σ' ∧ implements dbg l σ' mem' a' ∧ exact_stats l σ' a'
  | Err _ => False
  end.
Proof.
  intros Hi Hd. assert (match serve dbg call mem a with
    | Ok ((mem', a'), reply) => ∃ σ', spec_step l σ call reply σ' ∧ implements dbg l σ' mem' a'
    | Err _ => False end) as Hs.
  { destruct call as [|base pages|min_pages max_pages|f bytes]; cbn [serve disciplined] in *.
    - by apply serve_allocate_page.
    - destruct Hd as [Hb Hp]. pose proof (serve_free_run dbg l σ mem a base pages Hi Hb Hp) as Hf.
      destruct (Alloc.free_run dbg base pages mem a) as [[mem' a'] r]. exact Hf.
    - pose proof (serve_allocate_run dbg l σ mem a min_pages max_pages Hi Hd) as Hr.
      destruct (Alloc.allocate_run dbg min_pages max_pages mem a) as [[[mem' a'] r]|]; exact Hr.
    - destruct Hd as [Hf Hb]. eexists. split; [constructor|]. by apply serve_write. }
  destruct (serve dbg call mem a) as [[[mem' a'] reply]|]; [|done]. destruct Hs as (σ' & H1 & H2). exists σ'.
  split; [done|]. split; [done|]. by eapply implements_stats.
Qed.

(** C34: From firmware to allocator. On a firmware map of page-aligned, non-overlapping
    descriptors, when [normalize_memory_map] returns a map and [PageAllocator::new] an
    allocator on it, the allocator implements the empty heap, and the frames it can ever
    hand out are exactly the page-aligned addresses in CONVENTIONAL memory outside page
    zero and outside every page touched by a boot reservation. *)
Theorem boot_allocator_exact `{NodeLayout} (dbg : bool) (ds : list MemoryDescriptor) (rs : list ReservedRange)
    (m0 m : NormalizedMemoryMap) (mem : PhysMem) (claimed : bool) (a : PageAllocator) :
  firmware_ok ds → Forall range_ok rs → mem_ok mem →
  normalize_memory_map ds rs m0 = Ok m → Alloc.new false m = (claimed, Ok a) →
  implements dbg (usable_regions a) ∅ mem a ∧
  ∀ f, f ∈ all_frames (usable_regions a) ↔
       aligned f ∧ ¬ reserved_at rs f ∧ ∃ d, d ∈ ds ∧ ty d = CONVENTIONAL ∧ phys_start d ≤ f < desc_end d.
Proof.
  intros Hfw Hrs Hmem Hn Hnew. pose proof (normalize_spec ds rs m0 Hfw Hrs) as Hm. rewrite Hn in Hm. destruct Hm as [Hm Hcov].
  pose proof (new_spec dbg mem m Hm Hmem) as Ha. rewrite Hnew in Ha. destruct Ha as [Hi Hf]. split; [done|].
  intros f. rewrite Hf, Hcov. unfold memory_kind. split.
  - intros (Hal & Hlo & d & Hd & Hr & Hk & Hnr). eauto 10.
  - intros (Hal & Hnr & d & Hd & Hk & Hr). split; [done|]. split; [|by exists d].
    destruct (decide (PAGE_SIZE ≤ f)) as [|Hlt]; [done|]. destruct Hnr. left. split; [|lia].
    pose proof (fw_ok _ Hfw) as Hok. rewrite Forall_forall in Hok. destruct (Hok d Hd) as (? & _). lia.
Qed.

(** ** A concrete layout and machine *)

(** The layout rustc uses: a 64-bit tag, then the payload. *)
Module RustNode.
Definition encode (next : option Z) : list Z :=
  match next with
  | Some frame => le_encode 8 1 ++ le_encode 8 frame
  | None => replicate 16 0
  end.

Definition decode (bytes : list Z) : option Z :=
  if decide (u64_at 0 bytes = 0) then None else Some (u64_at 8 bytes).
End RustNode.

#[export] Instance rust_node_layout : NodeLayout.
Proof.
  refine {| encode_node := RustNode.encode; decode_node := RustNode.decode |}.
  - intros [f|]; [|done]. unfold RustNode.encode. by rewrite length_app, !length_le_encode.
  - intros [f|] Hf; [|done]. cbn in Hf. unfold RustNode.encode, RustNode.decode, u64_at, slice.
    rewrite drop_0, take_app_length' by by rewrite length_le_encode. rewrite decide_False by done. f_equal.
    rewrite drop_app_length' by by rewrite length_le_encode. rewrite take_ge by by rewrite length_le_encode.
    by apply le_u64.
Defined.

Module SmallAllocator.
(** The allocator of [SmallMachine]: 20 usable pages in three regions. *)
Definition allocator : PageAllocator :=
  MkAllocator
    [MkRegion 0x1000 0x8000 Usable; MkRegion 0x100000 0x102000 Usable; MkRegion 0x105000 0x110000 Usable]
    0 0x1000 None None 20 20.

Lemma created : Alloc.new false SmallMachine.map = (true, Ok allocator).
Proof. vm_compute. reflexivity. Qed.

Lemma blank_memory : mem_ok ∅.
Proof. intros f. unfold frame_bytes. by rewrite lookup_empty. Qed.

Lemma ready dbg : implements dbg (usable_regions allocator) ∅ ∅ allocator.
Proof.
  pose proof (normalize_spec _ _ Map.empty SmallMachine.firmware SmallMachine.reservations_ok) as Hm.
  rewrite SmallMachine.normalized in Hm. destruct Hm as [Hm _].
  pose proof (new_spec dbg ∅ SmallMachine.map Hm blank_memory) as H. rewrite created in H. by destruct H.
Qed.
End SmallAllocator.

Lemma boot_allocator_exact_witness :
  implements true (usable_regions SmallAllocator.allocator) ∅ ∅ SmallAllocator.allocator ∧
  ∀ f, f ∈ all_frames (usable_regions SmallAllocator.allocator) ↔
       aligned f ∧ ¬ reserved_at SmallMachine.reservations f ∧
       ∃ d, d ∈ SmallMachine.descriptors ∧ ty d = CONVENTIONAL ∧ phys_start d ≤ f < desc_end d.
Proof.
  exact (boot_allocator_exact true _ _ Map.empty SmallMachine.map ∅ true _ SmallMachine.firmware SmallMachine.reservations_ok
    SmallAllocator.blank_memory SmallMachine.normalized SmallAllocator.created).
Defined.

(** A run of eight pages fits only the third region; the nine pages skipped on the way
    are pushed on the free list. *)
Lemma allocator_refines_witness :
  ∃ mem' a' σ', serve false (AllocateRun 8 8) ∅ SmallAllocator.allocator = Ok ((mem', a'), GotRun (Some (0x105000, 8)))
    ∧ free_list_head a' = Some 0x101000 ∧ free_list_tail a' = None ∧ available_pages a' = 12
    ∧ spec_step (usable_regions SmallAllocator.allocator) ∅ (AllocateRun 8 8) (GotRun (Some (0x105000, 8))) σ'
    ∧ implements false (usable_regions SmallAllocator.allocator) σ' mem' a'.
Proof.
  pose proof (allocator_refines false (usable_regions SmallAllocator.allocator) ∅ ∅ SmallAllocator.allocator
    (AllocateRun 8 8) (SmallAllocator.ready false) ltac:(cbn; lia)) as H.
  destruct (serve false (AllocateRun 8 8) ∅ SmallAllocator.allocator) as [[[mem' a'] reply]|e] eqn:E; [|done].
  assert (result_map (λ r, (r.2, free_list_head r.1.2, free_list_tail r.1.2, available_pages r.1.2))
    (serve false (AllocateRun 8 8) ∅ SmallAllocator.allocator)
    = Ok (GotRun (Some (0x105000, 8)), Some 0x101000, None, 12)) as Hr by (vm_compute; reflexivity).
  rewrite E in Hr. cbn in Hr. injection Hr as -> H1 H2 H3. destruct H as (σ' & Hs & Hi & _).
  exists mem', a', σ'. split; [exact eq_refl|]. exact (conj H1 (conj H2 (conj H3 (conj Hs Hi)))).
Defined.
