(* ===== verification/AddressSpace.v ===== *)
(** Process address spaces (kernel/src/mm/address_space.rs).

    An address space owns the frames of its page tables and of its user mappings. Page
    tables themselves are edited by the x86_64 crate's [OffsetPageTable]; the class
    [PageTables] states the documented behaviour of its [map_to], [unmap] and
    [translate] that this code relies on: the intermediate tables on the way to a page
    are created first, from frames the caller's allocator provides, and an entry is
    written only when it was unused.

    Operations act on a [World]: physical memory, the page allocator, the address space
    and its page tables. [Halt] is a stopped kernel (a panic or [fatal_kernel_error]),
    [Raise] an error returned to the caller. The capacities of the tracking tables
    depend on the build's features and are parameters. *)

From Stdlib Require Import ZArith Lia String.
From stdpp Require Import base list gmap sets tactics decidable numbers sorting.
From S2P Require Import NativeAbi.
From S2P Require Import Prelude Bytes MemoryMap FrameAllocator FrameSpec FrameRefine.

Local Open Scope Z_scope.

(** ** Page tables *)

(** [PageTableFlags], as far as this code sets them. *)
Record PageFlags : Type := MkFlags { pf_present : bool; pf_writable : bool; pf_user : bool; pf_no_execute : bool }.

#[export] Instance PageFlags_eq_dec : EqDecision PageFlags.
Proof. solve_decision. Defined.

Class PageTables (T : Type) : Type := {
  (** The frame and flags of a mapped 4 KiB page. *)
  pt_lookup : T → Z → option (Z * PageFlags);
  (** How many intermediate tables are missing above a page; [None] below a huge page. *)
  pt_missing : T → Z → option nat;
  (** Installing a fresh intermediate table, and writing and clearing a leaf. *)
  pt_add_table : T → Z → Z → T;
  pt_set : T → Z → Z → PageFlags → T;
  pt_clear : T → Z → T;
  (** What an address translates to by a huge page. *)
  pt_huge : T → Z → option Z;
  (** The page's leaf table is one of the kernel's shared carve-out tables. *)
  pt_shared : T → Z → bool;
  pt_lookup_add_table : ∀ t page f q n,
    pt_missing t page = Some (S n) → pt_lookup (pt_add_table t page f) q = pt_lookup t q;
  pt_missing_add_table : ∀ t page f n,
    pt_missing t page = Some (S n) → pt_missing (pt_add_table t page f) page = Some n;
  pt_lookup_set : ∀ t page f flags q,
    pt_missing t page = Some O → pt_lookup (pt_set t page f flags) q = if decide (q = page) then Some (f, flags) else pt_lookup t q;
  pt_lookup_clear : ∀ t page q,
    is_Some (pt_lookup t page) → pt_lookup (pt_clear t page) q = if decide (q = page) then None else pt_lookup t q
}.

Inductive MapToError : Type := FrameAllocationFailed | ParentEntryHugePage | PageAlreadyMapped.

(** ** The address space *)

Record OwnedUserMapping : Type := MkMapping { virtual_address : Z; frame_address : Z }.

#[export] Instance OwnedUserMapping_eq_dec : EqDecision OwnedUserMapping.
Proof. solve_decision. Defined.

(** The arrays with their counts are the lists of their live entries. *)
Record ProcessAddressSpace : Type := MkSpace {
  root_frame : Z;
  page_table_frames : list Z;
  user_mappings : list OwnedUserMapping
}.

Record World (T : Type) : Type := MkWorld {
  w_mem : PhysMem;
  w_alloc : PageAllocator;
  w_space : ProcessAddressSpace;
  w_pt : T
}.

Arguments MkWorld {T}.
Arguments w_mem {T}.
Arguments w_alloc {T}.
Arguments w_space {T}.
Arguments w_pt {T}.

Definition USER_CANONICAL_TOP_EXCLUSIVE : Z := Z.shiftl 1 47.

Record VaRange : Type := MkVaRange { va_start : Z; va_end : Z }.

Module Va.
Definition overlaps (r : VaRange) (start stop_ : Z) : bool :=
  bool_decide (va_start r < stop_) && bool_decide (start < va_end r).
End Va.

Definition overlaps_shared_window (start stop_ : Z) : bool :=
  let window_end := SHARED_WINDOW_BASE + Z.shiftl 1 39 in
  bool_decide (start < window_end) && bool_decide (SHARED_WINDOW_BASE < stop_).

(** The address [VirtAddr::new] accepts: bits 48..64 repeat bit 47. *)
Definition is_canonical (va : Z) : bool :=
  bool_decide (va < USER_CANONICAL_TOP_EXCLUSIVE) || bool_decide (2 ^ 64 - USER_CANONICAL_TOP_EXCLUSIVE ≤ va).

Definition VIRT_ADDR_PANIC : string := "virtual address must be sign extended in bits 48 to 64".

Module Space.
Section ops.
Context `{NodeLayout} {T : Type} `{PageTables T} (dbg : bool).
Context (MAX_ADDRESS_SPACE_PAGE_TABLE_FRAMES MAX_ADDRESS_SPACE_USER_MAPPINGS : nat).
(** The ranges of [KERNEL_LOW_USER_EXCLUSION_2M], fixed at boot, and the frames of the
    kernel's shared carve-out tables. *)
Context (kernel_low_user_exclusion : list VaRange) (shared_carve_out_page_table_frame : Z → bool).

Implicit Types w : World T.

Definition set_alloc (mem : PhysMem) (a : PageAllocator) w : World T := MkWorld mem a (w_space w) (w_pt w).
Definition set_space (s : ProcessAddressSpace) w : World T := MkWorld (w_mem w) (w_alloc w) s (w_pt w).
Definition set_pt (t : T) w : World T := MkWorld (w_mem w) (w_alloc w) (w_space w) t.

(** The allocator's operations on the world. *)
Definition allocate_page {E : Type} w : World T * result (stop E) (option Z) :=
  match Alloc.allocate_page dbg (w_mem w) (w_alloc w) with
  | Ok (a, frame) => (set_alloc (w_mem w) a w, Ok frame)
  | Err message => (w, Err (Halt message))
  end.

Definition free_frame (frame : Z) w : World T * result string unit :=
  let '((mem, a), r) := Alloc.free_page dbg frame (w_mem w) (w_alloc w) in (set_alloc mem a w, r).

Definition record_page_table_frame (frame : Z) (s : ProcessAddressSpace) : result string ProcessAddressSpace :=
  if decide (length (page_table_frames s) = MAX_ADDRESS_SPACE_PAGE_TABLE_FRAMES)
  then Err "process address-space page-table tracking capacity exceeded"%string
  else Ok (MkSpace (root_frame s) (page_table_frames s ++ [frame]) (user_mappings s)).

Definition record_user_mapping (va frame : Z) (s : ProcessAddressSpace) : result string ProcessAddressSpace :=
  if decide (length (user_mappings s) = MAX_ADDRESS_SPACE_USER_MAPPINGS)
  then Err "process address-space mapping tracking capacity exceeded"%string
  else Ok (MkSpace (root_frame s) (page_table_frames s) (user_mappings s ++ [MkMapping va frame])).

Definition without_last_mapping (s : ProcessAddressSpace) : ProcessAddressSpace :=
  MkSpace (root_frame s) (page_table_frames s) (take (length (user_mappings s) - 1) (user_mappings s)).

(** [AddressSpaceFrameAllocator::allocate_frame] *)
Definition allocate_frame w : World T * result (stop MapToError) (option Z) :=
  let?+ w, frame := allocate_page w in
  match frame with
  | None => (w, Ok None)
  | Some frame =>
      match record_page_table_frame frame (w_space w) with
      | Err _ => let '(w, _) := free_frame frame w in (w, Ok None)
      | Ok s => (set_space s w, Ok (Some frame))
      end
  end.

(** [Mapper::map_to]: the missing tables, then the leaf. *)
Fixpoint create_tables (n : nat) (page : Z) w : World T * result (stop MapToError) unit :=
  match n with
  | O => (w, Ok ())
  | S n =>
      let?+ w, frame := allocate_frame w in
      match frame with
      | None => (w, Err (Raise FrameAllocationFailed))
      | Some frame => create_tables n page (set_pt (pt_add_table (w_pt w) page frame) w)
      end
  end.

Definition map_to (page frame : Z) (flags : PageFlags) w : World T * result (stop MapToError) unit :=
  match pt_missing (w_pt w) page with
  | None => (w, Err (Raise ParentEntryHugePage))
  | Some n =>
      let?+ w, _ := create_tables n page w in
      match pt_lookup (w_pt w) page with
      | Some _ => (w, Err (Raise PageAlreadyMapped))
      | None => (set_pt (pt_set (w_pt w) page frame flags) w, Ok ())
      end
  end.

Definition va_overlaps_kernel_low_reserved (start stop_ : Z) : bool :=
  existsb (λ r, Va.overlaps r start stop_) kernel_low_user_exclusion.

Definition pd_entry_points_at_shared_carve_out_pt (va : Z) w : bool :=
  if decide (USER_CANONICAL_TOP_EXCLUSIVE ≤ va) then false else pt_shared (w_pt w) va.

Definition map_process_page (va frame : Z) (flags : PageFlags) w : World T * result (stop string) unit :=
  match checked_add 64 va PAGE_SIZE with
  | None => (w, Err (Raise "user mapping virtual address overflow"%string))
  | Some page_end =>
      if va_overlaps_kernel_low_reserved va page_end
      then (w, Err (Raise "user mapping overlaps kernel low carve-out"%string))
      else if overlaps_shared_window va page_end
      then (w, Err (Raise "user mapping overlaps the shared-buffer window"%string))
      else if pd_entry_points_at_shared_carve_out_pt va w
      then (w, Err (Raise "user mapping targets shared carve-out page table"%string))
      else if negb (is_canonical va) then (w, Err (Halt VIRT_ADDR_PANIC))
      else
        let?+ w, _ := map_raise (λ _, "failed to map an address-space page"%string)
                        (map_to (Mm.align_down va PAGE_SIZE) frame flags w) in
        match record_user_mapping va frame (w_space w) with
        | Ok s => (set_space s w, Ok ())
        | Err message => (w, Err (Raise message))
        end
  end.

(** [unmap_userspace_page]: clears the leaf and returns its frame. *)
Definition unmap_userspace_page (page : Z) (t : T) : result string (T * Z) :=
  match pt_lookup t page with
  | Some (frame, _) => Ok (pt_clear t page, frame)
  | None => Err "failed to unmap userspace page"%string
  end.

(** The shared core of the unmapping operations: clear the leaf of a recorded mapping,
    check that it held the recorded frame, and free the frame. *)
Definition release_mapping (m : OwnedUserMapping) (mismatch : string) w : World T * result string unit :=
  match unmap_userspace_page (Mm.align_down (virtual_address m) PAGE_SIZE) (w_pt w) with
  | Err message => (w, Err message)
  | Ok (t, frame) =>
      let w := set_pt t w in
      if decide (frame ≠ frame_address m) then (w, Err mismatch) else free_frame (frame_address m) w
  end.

Definition unmap_process_page_at (va : Z) w : World T * result string unit :=
  let aligned := Mm.align_down va PAGE_SIZE in
  match position (λ m, bool_decide (virtual_address m = aligned)) (user_mappings (w_space w)) with
  | None => (w, Err "unmap target was not tracked"%string)
  | Some index =>
      match user_mappings (w_space w) !! index with
      | None => (w, Err "index out of bounds"%string)
      | Some m =>
          let?+ w, _ := release_mapping m "unmap removed an unexpected frame"%string w in
          let s := w_space w in
          (set_space (MkSpace (root_frame s) (page_table_frames s)
             (take index (user_mappings s) ++ drop (S index) (user_mappings s))) w, Ok ())
      end
  end.

Definition unmap_last_user_mapping w : World T * result string unit :=
  match last (user_mappings (w_space w)) with
  | None => (w, Err "no user mapping available to roll back"%string)
  | Some m =>
      let?+ w, _ := release_mapping m "rollback unmapped an unexpected frame"%string w in
      (set_space (without_last_mapping (w_space w)) w, Ok ())
  end.

Definition translate_address_in_root (va : Z) w : result string Z :=
  match pt_lookup (w_pt w) (Mm.align_down va PAGE_SIZE) with
  | Some (frame, _) => Ok (frame + va mod PAGE_SIZE)
  | None => ok_or (pt_huge (w_pt w) va) "virtual address was not translated in the target address space"%string
  end.

(** Teardown: the mappings in reverse, then the page-table frames in reverse.
    [window_live]: the root's shared-window entry is in use. *)
Definition destroy_process_address_space (window_live : T → bool) w : World T * result string unit :=
  if window_live (w_pt w) then (w, Err "address-space teardown found a live shared window"%string)
  else
    let?+ w, _ := try_each (λ m w, release_mapping m "address-space teardown unmapped an unexpected frame"%string w)
                    (reverse (user_mappings (w_space w))) w in
    try_each (λ f w, if shared_carve_out_page_table_frame f then (w, Ok ()) else free_frame f w)
      (reverse (page_table_frames (w_space w))) w.
End ops.
End Space.

(** * Ownership *)

Section ownership.
Context `{NodeLayout} {T : Type} `{PageTables T} (dbg : bool).
Context (max_tables max_mappings : nat) (exclusion : list VaRange).
Context (l : list MemoryRegion).

Implicit Types (w : World T) (σ : Heap).

(** The frames an address space owns. *)
Definition owned (s : ProcessAddressSpace) : list Z := page_table_frames s ++ (frame_address <$> user_mappings s).

(** The address space owns distinct held frames; every recorded mapping is in the page
    tables, and every page user code can reach is a recorded mapping. *)
Record space_ok (σ : Heap) (s : ProcessAddressSpace) (t : T) : Prop := {
  so_nodup : NoDup (owned s);
  so_held : ∀ f, f ∈ owned s → is_Some (σ !! f);
  so_pages : NoDup (virtual_address <$> user_mappings s);
  so_aligned : ∀ m, m ∈ user_mappings s → aligned (virtual_address m);
  so_mapped : ∀ m, m ∈ user_mappings s → ∃ flags, pt_lookup t (virtual_address m) = Some (frame_address m, flags);
  so_exact : ∀ page f flags, pt_lookup t page = Some (f, flags) → pf_user flags = true → MkMapping page f ∈ user_mappings s
}.

Definition world_ok (σ : Heap) w : Prop :=
  implements dbg l σ (w_mem w) (w_alloc w) ∧ space_ok σ (w_space w) (w_pt w).

(** ** The allocator's promises, on the world *)

Lemma allocate_page_world {E : Type} σ w :
  implements dbg l σ (w_mem w) (w_alloc w) →
  let '(w', r) := Space.allocate_page (E := E) dbg w in
  w_space w' = w_space w ∧ w_pt w' = w_pt w ∧
  match r with
  | Ok (Some f) => is_free l σ f ∧ ∃ σ', adds [f] σ σ' ∧ implements dbg l σ' (w_mem w') (w_alloc w')
  | Ok None => implements dbg l σ (w_mem w') (w_alloc w')
  | Err _ => False
  end.
Proof.
  intros Hi. pose proof (serve_allocate_page dbg l σ _ _ Hi) as Hs. cbn [serve] in Hs. unfold Space.allocate_page.
  destruct (Alloc.allocate_page dbg (w_mem w) (w_alloc w)) as [[a r]|]; [|done]. cbn [fst snd] in Hs.
  destruct Hs as (σ' & Hs & Hi'). split; [done|]. split; [done|]. inversion Hs; subst; [eauto|done].
Qed.

Lemma held_frame σ mem a f : implements dbg l σ mem a → is_Some (σ !! f) → held_run l σ f 1 ∧ 0 ≤ f ∧ aligned f.
Proof.
  intros (fl & held & Hc & _ & <- & Hσ) Hf. rewrite Hσ in Hf. case_decide as Hin; [|by destruct Hf].
  assert (f ∈ fl ++ held) as Hfl by (apply elem_of_app; by right).
  destruct (core_frame _ _ _ _ _ _ Hc Hfl) as [Hw Ha]. unfold in_width in Hw. split_and!; [|lia|done].
  split; [lia|]. split; [by eapply frame_in_region|]. unfold run. rewrite Z.mul_1_l, frames_one.
  intros g ->%list_elem_of_singleton. rewrite Hσ, decide_True by done. done.
Qed.

Lemma free_frame_world σ w f :
  implements dbg l σ (w_mem w) (w_alloc w) → is_Some (σ !! f) →
  ∃ w' σ', Space.free_frame dbg f w = (w', Ok ()) ∧ w_space w' = w_space w ∧ w_pt w' = w_pt w
    ∧ removes [f] σ σ' ∧ implements dbg l σ' (w_mem w') (w_alloc w').
Proof.
  intros Hi Hf. destruct (held_frame σ _ _ f Hi Hf) as (Hrun & Hf0 & _).
  pose proof (serve_free_run dbg l σ _ _ f 1 Hi Hf0 ltac:(lia)) as Hs. unfold Space.free_frame, Alloc.free_page.
  destruct (Alloc.free_run dbg f 1 (w_mem w) (w_alloc w)) as [[mem a] r]. destruct Hs as (σ' & Hs & Hi').
  destruct r as [[]|e]; cbn in Hs; inversion Hs as [| |? ? ? ? Hrm| | | |]; subst; [|done].
  eexists _, σ'. split; [done|]. split_and!; [done|done| |done].
  unfold run in Hrm. by rewrite Z.mul_1_l, frames_one in Hrm.
Qed.

Lemma adds_removes f σ σ1 σ2 : σ !! f = None → adds [f] σ σ1 → removes [f] σ1 σ2 → σ2 = σ.
Proof.
  intros Hf Ha Hr. apply map_eq. intros g. rewrite Hr. specialize (Ha g). case_decide as Hg.
  - apply list_elem_of_singleton in Hg as ->. done.
  - done.
Qed.

Lemma adds_app fs gs σ σ1 σ2 : adds fs σ σ1 → adds gs σ1 σ2 → adds (fs ++ gs) σ σ2.
Proof.
  intros H1 H2 f. specialize (H1 f). specialize (H2 f).
  destruct (decide (f ∈ gs)) as [Hg|Hg]; [by rewrite decide_True by (apply elem_of_app; by right)|].
  rewrite H2. destruct (decide (f ∈ fs)) as [Hf|Hf]; [by rewrite decide_True by (apply elem_of_app; by left)|].
  by rewrite decide_False by (rewrite elem_of_app; tauto).
Qed.

Lemma adds_nil σ : adds [] σ σ.
Proof. intros f. by rewrite decide_False by apply not_elem_of_nil. Qed.

Lemma adds_mono fs σ σ' f : adds fs σ σ' → is_Some (σ !! f) → is_Some (σ' !! f).
Proof. intros Ha Hf. specialize (Ha f). case_decide; [done|]. by rewrite Ha. Qed.

(** ** Growing the page tables *)

(** The address space gained the page-table frames [new], and nothing else changed. *)
Record grown (σ : Heap) w (σ' : Heap) w' (new : list Z) : Prop := {
  gr_impl : implements dbg l σ' (w_mem w') (w_alloc w');
  gr_adds : adds new σ σ';
  gr_free : ∀ f, f ∈ new → σ !! f = None;
  gr_nodup : NoDup new;
  gr_tables : page_table_frames (w_space w') = page_table_frames (w_space w) ++ new;
  gr_mappings : user_mappings (w_space w') = user_mappings (w_space w);
  gr_lookup : ∀ q, pt_lookup (w_pt w') q = pt_lookup (w_pt w) q
}.

Lemma grown_refl σ w : implements dbg l σ (w_mem w) (w_alloc w) → grown σ w σ w [].
Proof. intros Hi. split; auto using adds_nil, NoDup_nil_2; [by intros f ?%elem_of_nil|by rewrite app_nil_r]. Qed.

Lemma grown_trans σ0 w0 σ1 w1 σ2 w2 n1 n2 :
  grown σ0 w0 σ1 w1 n1 → grown σ1 w1 σ2 w2 n2 → grown σ0 w0 σ2 w2 (n1 ++ n2).
Proof.
  intros G1 G2. assert (∀ f, f ∈ n2 → (f ∉ n1) ∧ σ0 !! f = None) as Hd.
  { intros f Hf. pose proof (gr_free _ _ _ _ _ G2 f Hf) as Hn. pose proof (gr_adds _ _ _ _ _ G1 f) as Ha.
    case_decide; [rewrite Hn in Ha; by destruct Ha|]. by rewrite <- Ha. }
  split.
  - apply G2.
  - eapply adds_app; [apply G1|apply G2].
  - intros f [Hf|Hf]%elem_of_app; [by apply G1|by apply Hd].
  - apply NoDup_app. split_and!; [apply G1| |apply G2]. intros f Hf1 Hf2. by destruct (Hd f Hf2).
  - by rewrite (gr_tables _ _ _ _ _ G2), (gr_tables _ _ _ _ _ G1), app_assoc.
  - by rewrite (gr_mappings _ _ _ _ _ G2), (gr_mappings _ _ _ _ _ G1).
  - intros q. by rewrite (gr_lookup _ _ _ _ _ G2), (gr_lookup _ _ _ _ _ G1).
Qed.

Lemma allocate_frame_spec σ w :
  implements dbg l σ (w_mem w) (w_alloc w) →
  let '(w', r) := Space.allocate_frame dbg max_tables w in
  w_pt w' = w_pt w ∧
  match r with
  | Ok (Some f) => ∃ σ', grown σ w σ' w' [f]
  | Ok None => grown σ w σ w' []
  | Err _ => False
  end.
Proof.
  intros Hi. unfold Space.allocate_frame. pose proof (allocate_page_world (E := MapToError) σ w Hi) as Ha.
  destruct (Space.allocate_page dbg w) as [w1 [[f|]|]]; destruct Ha as (Es & Et & Ha); [| |done].
  2: { split; [done|]. split; rewrite ?Es, ?Et; auto using adds_nil, NoDup_nil_2; [by intros f ?%elem_of_nil|by rewrite app_nil_r]. }
  destruct Ha as [[Hall Hf] (σ1 & Hadd & Hi1)].
  unfold Space.record_page_table_frame. case_decide as Hfull.
  - destruct (free_frame_world σ1 w1 f Hi1) as (w2 & σ2 & -> & Es2 & Et2 & Hrem & Hi2).
    { specialize (Hadd f). by rewrite decide_True in Hadd by by left. }
    rewrite (adds_removes f σ σ1 σ2) in Hi2 by done. split; [congruence|].
    split; rewrite ?Es2, ?Et2, ?Es, ?Et; auto using adds_nil, NoDup_nil_2; [by intros g ?%elem_of_nil|by rewrite app_nil_r].
  - split; [done|]. exists σ1. split; cbn; rewrite ?Es, ?Et; auto using NoDup_singleton.
    by intros g ->%list_elem_of_singleton.
Qed.

Lemma create_tables_spec n page σ w :
  implements dbg l σ (w_mem w) (w_alloc w) → pt_missing (w_pt w) page = Some n →
  let '(w', r) := Space.create_tables dbg max_tables n page w in
  ∃ σ' new, grown σ w σ' w' new ∧
  match r with
  | Ok _ => pt_missing (w_pt w') page = Some O
  | Err (Raise _) => True
  | Err (Halt _) => False
  end.
Proof.
  revert σ w. induction n as [|n IH]; intros σ w Hi Hm; cbn [Space.create_tables].
  { exists σ, []. split; [by apply grown_refl|done]. }
  pose proof (allocate_frame_spec σ w Hi) as Ha. destruct (Space.allocate_frame dbg max_tables w) as [w1 [[f|]|]]; destruct Ha as [Et Ha]; [| |done].
  2: { exists σ, []. done. }
  destruct Ha as (σ1 & G1). set (w2 := Space.set_pt _ w1).
  assert (grown σ w σ1 w2 [f]) as G2.
  { destruct G1. split; auto. intros q. cbn. rewrite Et. by eapply pt_lookup_add_table. }
  assert (pt_missing (w_pt w2) page = Some n) as Hm2 by (cbn; rewrite Et; by apply pt_missing_add_table).
  specialize (IH σ1 w2 (gr_impl _ _ _ _ _ G2) Hm2). destruct (Space.create_tables dbg max_tables n page w2) as [w3 r].
  destruct IH as (σ3 & new & G3 & Hr). exists σ3, ([f] ++ new). split; [by eapply grown_trans|done].
Qed.

(** Growing the tables keeps the address space well formed. *)
Lemma grown_ok σ w σ' w' new : grown σ w σ' w' new → space_ok σ (w_space w) (w_pt w) → space_ok σ' (w_space w') (w_pt w').
Proof.
  intros [Hi Ha Hf Hn Ht Hu Hl] [H1 H2 H3 H4 H5 H6].
  assert (owned (w_space w') ≡ₚ owned (w_space w) ++ new) as Ho.
  { unfold owned. rewrite Ht, Hu, <- !app_assoc. apply Permutation_app_head, Permutation_app_comm. }
  split; rewrite ?Hu; auto.
  - rewrite Ho. apply NoDup_app. split_and!; auto. intros f Hf1 Hf2. specialize (H2 f Hf1). rewrite (Hf f Hf2) in H2. by destruct H2.
  - intros f Hfo. rewrite Ho in Hfo. apply elem_of_app in Hfo as [Hfo|Hfo].
    + by eapply adds_mono, H2.
    + specialize (Ha f). by rewrite decide_True in Ha.
  - intros m Hm. destruct (H5 m Hm) as [flags Hfl]. exists flags. by rewrite Hl.
  - intros page f flags. rewrite Hl. apply H6.
Qed.

Lemma map_to_spec page f flags σ w :
  implements dbg l σ (w_mem w) (w_alloc w) →
  let '(w', r) := Space.map_to dbg max_tables page f flags w in
  match r with
  | Ok _ => ∃ σ' new w1, grown σ w σ' w1 new ∧ w' = Space.set_pt (pt_set (w_pt w1) page f flags) w1
            ∧ pt_lookup (w_pt w) page = None ∧ pt_missing (w_pt w1) page = Some O
  | Err (Raise _) => ∃ σ' new, grown σ w σ' w' new
  | Err (Halt _) => False
  end.
Proof.
  intros Hi. unfold Space.map_to. destruct (pt_missing (w_pt w) page) as [n|] eqn:Em.
  2: { exists σ, []. by apply grown_refl. }
  pose proof (create_tables_spec n page σ w Hi Em) as Hc.
  destruct (Space.create_tables dbg max_tables n page w) as [w1 [[]|[m|e]]]; destruct Hc as (σ' & new & G & Hr); [|done|eauto].
  destruct (pt_lookup (w_pt w1) page) as [x|] eqn:El; [eauto|]. exists σ', new, w1.
  rewrite (gr_lookup _ _ _ _ _ G) in El. done.
Qed.

(** Recording a new mapping of a held frame that is not yet owned. *)
Lemma record_ok σ s t page f flags :
  space_ok σ s t → is_Some (σ !! f) → f ∉ owned s → aligned page → pt_lookup t page = None → pt_missing t page = Some O →
  space_ok σ (MkSpace (root_frame s) (page_table_frames s) (user_mappings s ++ [MkMapping page f])) (pt_set t page f flags).
Proof.
  intros [H1 H2 H3 H4 H5 H6] Hf Hn Ha Hl Hm.
  assert (∀ m, m ∈ user_mappings s → virtual_address m ≠ page) as Hne.
  { intros m Hm' E. destruct (H5 m Hm') as [fl Hfl]. congruence. }
  assert (∀ m, m ∈ user_mappings s ++ [MkMapping page f] → m ∈ user_mappings s ∨ m = MkMapping page f) as Hin.
  { intros m [?|?%list_elem_of_singleton]%elem_of_app; auto. }
  assert (owned (MkSpace (root_frame s) (page_table_frames s) (user_mappings s ++ [MkMapping page f])) = owned s ++ [f]) as Ho.
  { unfold owned. cbn. by rewrite fmap_app, app_assoc. }
  split; rewrite ?Ho; cbn [user_mappings].
  - apply NoDup_app. split_and!; [done| |apply NoDup_singleton]. intros g Hg ->%list_elem_of_singleton. done.
  - intros g [Hg|Hg%list_elem_of_singleton]%elem_of_app; subst; auto.
  - rewrite fmap_app. apply NoDup_app. split_and!; [done| |apply NoDup_singleton].
    intros q (m & -> & Hm')%list_elem_of_fmap Hq. apply list_elem_of_singleton in Hq. by apply (Hne m).
  - intros m [Hm'| ->]%Hin; auto.
  - intros m [Hm'| ->]%Hin.
    + rewrite pt_lookup_set, decide_False by auto. auto.
    + exists flags. rewrite pt_lookup_set, decide_True by done. done.
  - intros q g fl. rewrite pt_lookup_set by done. case_decide as Eq.
    + intros [= <- <-] _. subst. apply elem_of_app. right. by left.
    + intros Hq Hu. apply elem_of_app. left. eauto.
Qed.

(** [map_process_page] with room in the tracking table: on success exactly this page is
    added, on an error no translation changes; either way only page-table frames are
    taken from the allocator. *)
Lemma map_process_page_spec va f flags σ w :
  world_ok σ w → aligned va → is_Some (σ !! f) → f ∉ owned (w_space w) → (length (user_mappings (w_space w)) < max_mappings)%nat →
  let '(w', r) := Space.map_process_page dbg max_tables max_mappings exclusion va f flags w in
  ∃ σ' new, world_ok σ' w' ∧ adds new σ σ' ∧ (∀ g, g ∈ new → σ !! g = None)
    ∧ page_table_frames (w_space w') = page_table_frames (w_space w) ++ new
    ∧ match r with
      | Ok _ => user_mappings (w_space w') = user_mappings (w_space w) ++ [MkMapping va f] ∧ pt_lookup (w_pt w) va = None
                ∧ (∀ q, pt_lookup (w_pt w') q = if decide (q = va) then Some (f, flags) else pt_lookup (w_pt w) q)
      | Err (Raise _) => user_mappings (w_space w') = user_mappings (w_space w) ∧ ∀ q, pt_lookup (w_pt w') q = pt_lookup (w_pt w) q
      | Err (Halt _) => is_canonical va = false ∧ w' = w
      end.
Proof.
  intros [Hi Hs] Ha Hf Hn Hroom. unfold Space.map_process_page.
  assert (∃ σ' new, world_ok σ' w ∧ adds new σ σ' ∧ (∀ g, g ∈ new → σ !! g = None)
     ∧ page_table_frames (w_space w) = page_table_frames (w_space w) ++ new
     ∧ user_mappings (w_space w) = user_mappings (w_space w) ∧ ∀ q, pt_lookup (w_pt w) q = pt_lookup (w_pt w) q) as Hsame.
  { exists σ, []. split_and!; [done..|apply adds_nil|by intros g ?%elem_of_nil|by rewrite app_nil_r|done|done]. }
  destruct (checked_add 64 va PAGE_SIZE) as [pe|]; [|exact Hsame].
  destruct (Space.va_overlaps_kernel_low_reserved exclusion va pe); [exact Hsame|].
  destruct (overlaps_shared_window va pe); [exact Hsame|].
  destruct (Space.pd_entry_points_at_shared_carve_out_pt va w); [exact Hsame|].
  destruct (is_canonical va) eqn:Hcan; cbn [negb].
  2: { exists σ, []. split_and!; [done|apply adds_nil|by intros g ?%elem_of_nil|by rewrite app_nil_r|done|done]. }
  rewrite align_down_aligned by done. pose proof (map_to_spec va f flags σ w Hi) as Hm. unfold map_raise.
  destruct (Space.map_to dbg max_tables va f flags w) as [w1 [[]|[m|e]]]; cbn [fst snd map_err lift_err]; [|done|].
  - destruct Hm as (σ' & new & w0 & G & -> & Hl & Hmiss). pose proof (grown_ok _ _ _ _ _ G Hs) as Hs0.
    unfold Space.record_user_mapping. cbn [Space.set_pt w_space]. rewrite (gr_mappings _ _ _ _ _ G), decide_False by lia.
    exists σ', new. split; [split; [apply G|]|split_and!].
    + cbn. rewrite <- (gr_mappings _ _ _ _ _ G). apply record_ok; auto.
      * eapply adds_mono; [apply G|done].
      * unfold owned. rewrite (gr_tables _ _ _ _ _ G), (gr_mappings _ _ _ _ _ G), !elem_of_app.
        unfold owned in Hn. rewrite elem_of_app in Hn. intros [[?|Hnew]|?]; [tauto| |tauto].
        rewrite (gr_free _ _ _ _ _ G f Hnew) in Hf. by destruct Hf.
      * by rewrite (gr_lookup _ _ _ _ _ G).
    + apply G.
    + apply G.
    + apply G.
    + done.
    + done.
    + intros q. cbn. rewrite pt_lookup_set by done. case_decide; [done|]. apply G.
  - destruct Hm as (σ' & new & G). exists σ', new.
    split; [split; [apply G|by eapply grown_ok]|]. split_and!; apply G.
Qed.

(** With the tracking table full, a fresh page ends up mapped although the call fails:
    the translation outlives the error. *)
Lemma map_process_page_full va f flags σ w :
  world_ok σ w → aligned va → length (user_mappings (w_space w)) = max_mappings →
  let '(w', r) := Space.map_process_page dbg max_tables max_mappings exclusion va f flags w in
  match r with
  | Ok _ => False
  | Err (Raise e) => e = "process address-space mapping tracking capacity exceeded"%string →
                     pt_lookup (w_pt w') va = Some (f, flags) ∧ user_mappings (w_space w') = user_mappings (w_space w)
  | Err (Halt _) => is_canonical va = false
  end.
Proof.
  intros [Hi Hs] Ha Hfull. unfold Space.map_process_page.
  destruct (checked_add 64 va PAGE_SIZE) as [pe|]; [|done].
  destruct (Space.va_overlaps_kernel_low_reserved exclusion va pe); [done|].
  destruct (overlaps_shared_window va pe); [done|].
  destruct (Space.pd_entry_points_at_shared_carve_out_pt va w); [done|].
  destruct (is_canonical va) eqn:Ec; cbn [negb]; [|done].
  rewrite align_down_aligned by done. pose proof (map_to_spec va f flags σ w Hi) as Hm. unfold map_raise.
  destruct (Space.map_to dbg max_tables va f flags w) as [w1 [[]|[m|e]]]; cbn [fst snd map_err lift_err]; [|done|done].
  destruct Hm as (σ' & new & w0 & G & -> & Hl & Hmiss).
  unfold Space.record_user_mapping. cbn [Space.set_pt w_space]. rewrite (gr_mappings _ _ _ _ _ G), decide_True by done.
  intros _. cbn. rewrite pt_lookup_set, decide_True by done. split; [done|apply G].
Qed.

(** ** Releasing mappings *)

(** The page a recorded mapping stands for. *)
Definition page_of (m : OwnedUserMapping) : Z := Mm.align_down (virtual_address m) PAGE_SIZE.

(** A mapping whose page is in the tables can always be released: its page is unmapped and
    its frame freed. *)
Lemma release_page_spec m msg σ w :
  implements dbg l σ (w_mem w) (w_alloc w) → is_Some (σ !! frame_address m) →
  (∃ flags, pt_lookup (w_pt w) (page_of m) = Some (frame_address m, flags)) →
  ∃ w' σ', Space.release_mapping dbg m msg w = (w', Ok ()) ∧ w_space w' = w_space w ∧ removes [frame_address m] σ σ'
    ∧ implements dbg l σ' (w_mem w') (w_alloc w')
    ∧ ∀ q, pt_lookup (w_pt w') q = if decide (q = page_of m) then None else pt_lookup (w_pt w) q.
Proof.
  intros Hi Hf [flags Hl]. unfold Space.release_mapping, Space.unmap_userspace_page. fold (page_of m).
  rewrite Hl, decide_False by tauto. set (w1 := Space.set_pt _ w).
  destruct (free_frame_world σ w1 (frame_address m) Hi Hf) as (w' & σ' & -> & Es & Et & Hr & Hi').
  exists w', σ'. split_and!; auto. intros q. rewrite Et. cbn. apply pt_lookup_clear. rewrite Hl. eauto.
Qed.

Lemma release_mapping_spec m msg σ w :
  implements dbg l σ (w_mem w) (w_alloc w) → is_Some (σ !! frame_address m) → aligned (virtual_address m) →
  (∃ flags, pt_lookup (w_pt w) (virtual_address m) = Some (frame_address m, flags)) →
  ∃ w' σ', Space.release_mapping dbg m msg w = (w', Ok ()) ∧ w_space w' = w_space w ∧ removes [frame_address m] σ σ'
    ∧ implements dbg l σ' (w_mem w') (w_alloc w')
    ∧ ∀ q, pt_lookup (w_pt w') q = if decide (q = virtual_address m) then None else pt_lookup (w_pt w) q.
Proof.
  intros Hi Hf Ha Hl. pose proof (release_page_spec m msg σ w Hi Hf) as Hr. unfold page_of in Hr.
  rewrite align_down_aligned in Hr by done. by apply Hr.
Qed.

(** Dropping the entry [m] at a split of the table. *)
Lemma unrecord_ok σ σ' s t t' pre m post :
  space_ok σ s t → user_mappings s = pre ++ m :: post → removes [frame_address m] σ σ' →
  (∀ q, pt_lookup t' q = if decide (q = virtual_address m) then None else pt_lookup t q) →
  space_ok σ' (MkSpace (root_frame s) (page_table_frames s) (pre ++ post)) t'.
Proof.
  intros [H1 H2 H3 H4 H5 H6] Eu Hr Hl.
  assert (owned s ≡ₚ frame_address m :: owned (MkSpace (root_frame s) (page_table_frames s) (pre ++ post))) as Ho.
  { unfold owned. cbn. rewrite Eu, !fmap_app. cbn. rewrite <- !Permutation_middle. done. }
  rewrite Ho in H1. apply NoDup_cons in H1 as [Hni H1].
  rewrite Eu, fmap_app in H3. cbn in H3. rewrite <- Permutation_middle, <- fmap_app in H3. apply NoDup_cons in H3 as [Hvi H3].
  assert (∀ x, x ∈ pre ++ post → x ∈ user_mappings s ∧ virtual_address x ≠ virtual_address m) as Hin.
  { intros x Hx. split; [rewrite Eu; set_solver|]. intros E. apply Hvi. rewrite <- E. by apply list_elem_of_fmap_2. }
  split; cbn [user_mappings].
  - done.
  - intros f Hf. rewrite Hr, decide_False; [apply H2; rewrite Ho; by right|].
    intros ->%list_elem_of_singleton. done.
  - done.
  - intros x Hx. apply H4, Hin, Hx.
  - intros x Hx. destruct (Hin x Hx) as [Hx1 Hx2]. rewrite Hl, decide_False by done. by apply H5.
  - intros page f flags. rewrite Hl. case_decide as E; [done|]. intros Hq Hu. specialize (H6 _ _ _ Hq Hu).
    rewrite Eu in H6. apply elem_of_app in H6 as [?|[?|?]%elem_of_cons]; [apply elem_of_app; by left| |apply elem_of_app; by right].
    subst m. done.
Qed.

(** [unmap_last_user_mapping] undoes the last mapping. *)
Lemma unmap_last_spec σ w ms m :
  world_ok σ w → user_mappings (w_space w) = ms ++ [m] →
  ∃ w' σ', Space.unmap_last_user_mapping dbg w = (w', Ok ()) ∧ world_ok σ' w' ∧ removes [frame_address m] σ σ'
    ∧ user_mappings (w_space w') = ms ∧ page_table_frames (w_space w') = page_table_frames (w_space w)
    ∧ ∀ q, pt_lookup (w_pt w') q = if decide (q = virtual_address m) then None else pt_lookup (w_pt w) q.
Proof.
  intros [Hi Hs] Eu. unfold Space.unmap_last_user_mapping. rewrite Eu, last_snoc.
  assert (m ∈ user_mappings (w_space w)) as Hm by (rewrite Eu; apply elem_of_app; right; by left).
  destruct (release_mapping_spec m "rollback unmapped an unexpected frame" σ w Hi) as (w' & σ' & -> & Es & Hr & Hi' & Hl).
  { apply (so_held _ _ _ Hs). unfold owned. apply elem_of_app. right. by apply list_elem_of_fmap_2. }
  { by apply (so_aligned _ _ _ Hs). }
  { by apply (so_mapped _ _ _ Hs). }
  eexists _, σ'. split; [done|]. unfold Space.without_last_mapping. rewrite Es, Eu, length_app, Nat.add_sub, take_app_length.
  split_and!; [split; [exact Hi'|]|done|done|done|exact Hl]. cbn. rewrite <- (app_nil_r ms).
  eapply unrecord_ok; [exact Hs|by rewrite Eu|done|done].
Qed.

(** [unmap_process_page_at] releases exactly the mapping of its page. *)
Lemma unmap_at_spec va σ w :
  world_ok σ w →
  let page := Mm.align_down va PAGE_SIZE in
  match find_first (λ m, bool_decide (virtual_address m = page)) (user_mappings (w_space w)) with
  | Some m =>
      ∃ w' σ', Space.unmap_process_page_at dbg va w = (w', Ok ()) ∧ world_ok σ' w' ∧ virtual_address m = page
        ∧ removes [frame_address m] σ σ' ∧ user_mappings (w_space w) ≡ₚ m :: user_mappings (w_space w')
        ∧ page_table_frames (w_space w') = page_table_frames (w_space w)
        ∧ ∀ q, pt_lookup (w_pt w') q = if decide (q = page) then None else pt_lookup (w_pt w) q
  | None => Space.unmap_process_page_at dbg va w = (w, Err "unmap target was not tracked"%string)
  end.
Proof.
  intros [Hi Hs] page. unfold Space.unmap_process_page_at. fold page. set (p := λ m, bool_decide (virtual_address m = page)).
  destruct (position p (user_mappings (w_space w))) as [i|] eqn:Ep.
  - apply position_Some in Ep as ((m & Hm & Hp) & Hbefore). rewrite Hm. pose proof Hp as Hp'. unfold p in Hp'.
    apply bool_decide_eq_true in Hp'.
    assert (m ∈ user_mappings (w_space w)) as Hin by by eapply list_elem_of_lookup_2.
    assert (find_first p (user_mappings (w_space w)) = Some m) as ->.
    { destruct (find_first p (user_mappings (w_space w))) as [m'|] eqn:Ef.
      - apply find_first_Some in Ef as [Hin' Hp2]. unfold p in Hp2. apply bool_decide_eq_true in Hp2. f_equal.
        destruct (so_mapped _ _ _ Hs m Hin) as [fl1 E1], (so_mapped _ _ _ Hs m' Hin') as [fl2 E2].
        destruct m, m'. cbn in *. congruence.
      - rewrite find_first_None in Ef. by rewrite (Ef m Hin) in Hp. }
    destruct (release_mapping_spec m "unmap removed an unexpected frame" σ w Hi) as (w' & σ' & -> & Es & Hr & Hi' & Hl).
    { apply (so_held _ _ _ Hs). unfold owned. apply elem_of_app. right. by apply list_elem_of_fmap_2. }
    { by apply (so_aligned _ _ _ Hs). }
    { by apply (so_mapped _ _ _ Hs). }
    pose proof (take_drop_middle _ _ _ Hm) as Esplit.
    eexists _, σ'. split; [done|]. rewrite Es, <- Hp'. split_and!; [split; [exact Hi'|]|done|done| |done|exact Hl].
    + cbn. eapply unrecord_ok; [exact Hs|by rewrite Esplit|done|done].
    + cbn. rewrite <- Esplit at 1. by rewrite Permutation_middle.
  - rewrite position_None in Ep. assert (find_first p (user_mappings (w_space w)) = None) as -> by by apply find_first_None. done.
Qed.

(** ** Teardown *)

Lemma removes_nil σ : removes [] σ σ.
Proof. intros f. by rewrite decide_False by apply not_elem_of_nil. Qed.

Lemma removes_app fs gs σ σ1 σ2 : removes fs σ σ1 → removes gs σ1 σ2 → removes (fs ++ gs) σ σ2.
Proof.
  intros H1 H2 f. rewrite H2, H1. destruct (decide (f ∈ fs)) as [Hf|Hf], (decide (f ∈ gs)) as [Hg|Hg];
    rewrite ?decide_True by (apply elem_of_app; tauto); rewrite ?decide_False by (rewrite elem_of_app; tauto); done.
Qed.

Lemma removes_other f σ σ' g : removes [f] σ σ' → g ≠ f → σ' !! g = σ !! g.
Proof. intros Hr Hg. rewrite Hr, decide_False; [done|]. by intros ?%list_elem_of_singleton. Qed.

Lemma release_all_spec ms msg σ w :
  implements dbg l σ (w_mem w) (w_alloc w) →
  NoDup (frame_address <$> ms) → NoDup (page_of <$> ms) →
  (∀ m, m ∈ ms → is_Some (σ !! frame_address m)
                 ∧ ∃ flags, pt_lookup (w_pt w) (page_of m) = Some (frame_address m, flags)) →
  ∃ w' σ', try_each (λ m w, Space.release_mapping dbg m msg w) ms w = (w', Ok ()) ∧ w_space w' = w_space w
    ∧ removes (frame_address <$> ms) σ σ' ∧ implements dbg l σ' (w_mem w') (w_alloc w').
Proof.
  revert σ w. induction ms as [|m ms IH]; intros σ w Hi Hnf Hnv Hall.
  { exists w, σ. split_and!; auto using removes_nil. }
  cbn in Hnf, Hnv. apply NoDup_cons in Hnf as [Hmf Hnf], Hnv as [Hmv Hnv].
  destruct (Hall m ltac:(by left)) as (Hf & Hl).
  destruct (release_page_spec m msg σ w Hi Hf Hl) as (w1 & σ1 & E1 & Es1 & Hr1 & Hi1 & Hl1).
  destruct (IH σ1 w1 Hi1 Hnf Hnv) as (w2 & σ2 & E2 & Es2 & Hr2 & Hi2).
  { intros x Hx. destruct (Hall x ltac:(by right)) as (Hxf & Hxl). split.
    - rewrite (removes_other _ _ _ _ Hr1); [done|]. intros E. apply Hmf. rewrite <- E. by apply list_elem_of_fmap_2.
    - rewrite Hl1, decide_False; [done|]. intros E. apply Hmv. rewrite <- E. by apply list_elem_of_fmap_2. }
  exists w2, σ2. cbn [try_each]. rewrite E1. split_and!; [done|congruence| |done].
  by apply (removes_app [frame_address m] _ σ σ1).
Qed.

Lemma free_all_spec fs shared σ w :
  implements dbg l σ (w_mem w) (w_alloc w) → NoDup fs → (∀ f, f ∈ fs → is_Some (σ !! f) ∧ shared f = false) →
  ∃ w' σ', try_each (λ f w, if shared f : bool then (w, Ok ()) else Space.free_frame dbg f w) fs w = (w', Ok ())
    ∧ removes fs σ σ' ∧ implements dbg l σ' (w_mem w') (w_alloc w').
Proof.
  revert σ w. induction fs as [|f fs IH]; intros σ w Hi Hn Hall.
  { exists w, σ. split_and!; auto using removes_nil. }
  apply NoDup_cons in Hn as [Hf Hn]. destruct (Hall f ltac:(by left)) as [Hh Hs].
  destruct (free_frame_world σ w f Hi Hh) as (w1 & σ1 & E1 & _ & _ & Hr1 & Hi1).
  destruct (IH σ1 w1 Hi1 Hn) as (w2 & σ2 & E2 & Hr2 & Hi2).
  { intros g Hg. destruct (Hall g ltac:(by right)) as [Hgh Hgs]. split; [|done].
    rewrite (removes_other _ _ _ _ Hr1); [done|]. congruence. }
  exists w2, σ2. cbn [try_each]. rewrite Hs, E1. split_and!; [done| |done]. by apply (removes_app [f] _ σ σ1).
Qed.

(** What teardown needs to succeed: distinct held frames, and recorded mappings that are in
    the tables, at distinct pages. *)
Record recorded (σ : Heap) (s : ProcessAddressSpace) (t : T) : Prop := {
  rc_nodup : NoDup (owned s);
  rc_held : ∀ f, f ∈ owned s → is_Some (σ !! f);
  rc_pages : NoDup (page_of <$> user_mappings s);
  rc_mapped : ∀ m, m ∈ user_mappings s → ∃ flags, pt_lookup t (page_of m) = Some (frame_address m, flags)
}.

Lemma space_recorded σ s t : space_ok σ s t → recorded σ s t.
Proof.
  intros [H1 H2 H3 H4 H5 H6].
  assert (∀ m, m ∈ user_mappings s → page_of m = virtual_address m) as Hp.
  { intros m Hm. unfold page_of. by apply align_down_aligned, H4. }
  split; [done|done| |intros m Hm; rewrite Hp by done; auto].
  assert (page_of <$> user_mappings s = virtual_address <$> user_mappings s) as ->; [|done].
  apply list_fmap_ext. intros i m Hm. apply Hp. by eapply list_elem_of_lookup_2.
Qed.

Lemma destroy_spec shared window_live σ w :
  implements dbg l σ (w_mem w) (w_alloc w) → recorded σ (w_space w) (w_pt w) → window_live (w_pt w) = false → (∀ f, f ∈ page_table_frames (w_space w) → shared f = false) →
  ∃ w' σ', Space.destroy_process_address_space dbg shared window_live w = (w', Ok ())
    ∧ implements dbg l σ' (w_mem w') (w_alloc w') ∧ removes (owned (w_space w)) σ σ'.
Proof.
  intros Hi Hs Hw Hsh. unfold Space.destroy_process_address_space. rewrite Hw.
  pose proof (rc_nodup _ _ _ Hs) as Hn. unfold owned in Hn. apply NoDup_app in Hn as (Hn1 & Hn2 & Hn3).
  set (s := w_space w) in *. set (msg := "address-space teardown unmapped an unexpected frame"%string).
  destruct (release_all_spec (reverse (user_mappings s)) msg σ w Hi) as (w1 & σ1 & E1 & Es1 & Hr1 & Hi1).
  { by rewrite fmap_reverse, reverse_Permutation. }
  { rewrite fmap_reverse, reverse_Permutation. apply Hs. }
  { intros m Hm. rewrite reverse_Permutation in Hm. split; [|by apply (rc_mapped _ _ _ Hs)].
    apply (rc_held _ _ _ Hs). unfold owned. apply elem_of_app. right. by apply list_elem_of_fmap_2. }
  rewrite E1, Es1. fold s.
  destruct (free_all_spec (reverse (page_table_frames s)) shared σ1 w1 Hi1) as (w2 & σ2 & E2 & Hr2 & Hi2).
  { by rewrite reverse_Permutation. }
  { intros f Hf. rewrite reverse_Permutation in Hf. split; [|by apply Hsh].
    rewrite Hr1, decide_False; [apply (rc_held _ _ _ Hs); apply elem_of_app; by left|].
    rewrite fmap_reverse, reverse_Permutation. by apply Hn2. }
  exists w2, σ2. split_and!; [done|done|]. intros f. rewrite (removes_app _ _ _ _ _ Hr1 Hr2 f).
  apply decide_ext. unfold owned. rewrite !elem_of_app, fmap_reverse, !reverse_Permutation. tauto.
Qed.
End ownership.

(** ** Concrete page tables *)

(** Four-level tables as the leaves they hold and the intermediate tables present, each
    named by its level's shift and the address prefix it serves. No huge pages and no
    carve-outs. *)
Record SoftTables : Type := MkSoft { leaves : gmap Z (Z * PageFlags); tables : list (Z * Z) }.

Module Soft.
Definition missing (t : SoftTables) (page : Z) : list Z :=
  base.filter (λ shift, (shift, Z.shiftr page shift) ∉ tables t) [39; 30; 21].

Definition add_table (t : SoftTables) (page : Z) : SoftTables :=
  match missing t page with
  | [] => t
  | shift :: _ => MkSoft (leaves t) ((shift, Z.shiftr page shift) :: tables t)
  end.

Lemma missing_add t page n : length (missing t page) = S n → length (missing (add_table t page) page) = n.
Proof.
  unfold add_table. destruct (missing t page) as [|s rest] eqn:E; [done|]. intros [= <-].
  assert (missing (MkSoft (leaves t) ((s, Z.shiftr page s) :: tables t)) page = base.filter (λ x, x ≠ s) (missing t page)) as ->.
  { unfold missing. rewrite list_filter_filter. apply list_filter_iff. intros x. cbn [tables]. rewrite elem_of_cons.
    split; [intros Hn; split; intros Hx; apply Hn; first [by right|left; by subst]|intros [H1 H2] [[= ->]|]; by auto]. }
  assert (NoDup (missing t page)) as Hnd by (apply NoDup_filter, (bool_decide_unpack _); by vm_compute).
  rewrite E in *. apply NoDup_cons in Hnd as [Hs _]. rewrite filter_cons_False by (intros Hn; by apply Hn).
  clear E. induction rest as [|x rest IH]; [done|]. apply not_elem_of_cons in Hs as [Hx Hs].
  rewrite filter_cons_True by done. cbn. f_equal. by apply IH.
Qed.
End Soft.

#[export] Instance soft_page_tables : PageTables SoftTables.
Proof.
  refine {|
    pt_lookup t page := leaves t !! page;
    pt_missing t page := Some (length (Soft.missing t page));
    pt_add_table t page _ := Soft.add_table t page;
    pt_set t page f flags := MkSoft (<[page := (f, flags)]> (leaves t)) (tables t);
    pt_clear t page := MkSoft (delete page (leaves t)) (tables t);
    pt_huge _ _ := None;
    pt_shared _ _ := false |}.
  - intros t page f q n _. unfold Soft.add_table. by destruct (Soft.missing t page).
  - intros t page f n [= E]. f_equal. by apply Soft.missing_add.
  - intros t page f flags q _. cbn. case_decide as E; [subst; by rewrite lookup_insert_eq|by rewrite lookup_insert_ne by congruence].
  - intros t page q _. cbn. case_decide as E; [subst; by rewrite lookup_delete_eq|by rewrite lookup_delete_ne by congruence].
Defined.
