(* ===== verification/ImageLoader.v ===== *)
(** The userspace image loader (kernel/src/mm/image_loader.rs).

    Segments are merged into a plan of unique pages with the union of their permissions;
    each page gets a fresh zeroed frame, the file bytes of every segment that reaches it,
    and a mapping; on an error the pages mapped so far are unmapped and freed again.
    Operations act on the [World] of [AddressSpace]. The 384-entry page plan is the list
    of its live entries. *)

From Stdlib Require Import ZArith Lia String.
From stdpp Require Import base list gmap sets tactics decidable numbers sorting.
From S2P Require Import Prelude Bytes MemoryMap FrameAllocator FrameSpec FrameRefine AddressSpace Elf.

Local Open Scope Z_scope.

Definition MAX_IMAGE_MAP_PAGES : nat := 384.

Record EmbeddedSegment : Type := MkEmbedded {
  offset_from_base : Z;
  em_filesz : Z;
  em_memsz : Z;
  em_file_offset : Z;
  em_flags : Z
}.

Definition permissions (s : EmbeddedSegment) : SegmentPermissions :=
  MkPerms (bool_decide (Z.land (em_flags s) PF_R ≠ 0)) (bool_decide (Z.land (em_flags s) PF_W ≠ 0))
    (bool_decide (Z.land (em_flags s) PF_X ≠ 0)).

Definition page_flags_for_segment_perms (p : SegmentPermissions) : result string PageFlags :=
  if Perms.is_write_execute p then Err "refusing to map a write+execute userspace page"%string
  else Ok (MkFlags true (perm_write p) true (negb (perm_execute p))).

Record PagePlan : Type := MkPagePlan { page_vaddr : Z; page_perms : SegmentPermissions }.

Definition merge_perms (p q : SegmentPermissions) : SegmentPermissions :=
  MkPerms (perm_read p || perm_read q) (perm_write p || perm_write q) (perm_execute p || perm_execute q).

Module Image.
Definition align_up (value align : Z) : result string Z :=
  if decide (Z.land value (align - 1) = 0) then Ok value
  else ok_or (checked_add 64 value (align - Z.land value (align - 1))) "align_up overflow"%string.

Definition segment_mapped_pages (va size : Z) : result string Z :=
  if decide (size = 0) then Ok 0
  else
    let? stop_ := ok_or (checked_add 64 va size) "segment memsz overflow"%string in
    let first := Z.ldiff va (PAGE_SIZE - 1) in
    let? last_exclusive := align_up stop_ PAGE_SIZE in
    let? bytes := ok_or (checked_sub last_exclusive first) "segment page span underflow"%string in
    Ok (bytes / PAGE_SIZE).

(** One page of one segment: merged into its entry, or a new entry. *)
Definition merge_page (page : Z) (perms : SegmentPermissions) (pages : list PagePlan) : result string (list PagePlan) :=
  match position (λ p, bool_decide (page_vaddr p = page)) pages with
  | Some i => Ok (alter (λ p, MkPagePlan (page_vaddr p) (merge_perms (page_perms p) perms)) i pages)
  | None =>
      if decide (MAX_IMAGE_MAP_PAGES ≤ length pages)%nat then Err "image page plan capacity exceeded"%string
      else Ok (pages ++ [MkPagePlan page perms])
  end.

Definition collect_segment (load_base : Z) (s : EmbeddedSegment) (pages : list PagePlan) : result string (list PagePlan) :=
  if decide (em_memsz s = 0) then Ok pages
  else if decide (em_memsz s < em_filesz s) then Err "embedded segment filesz exceeds memsz"%string
  else
    let? va := ok_or (checked_add 64 load_base (offset_from_base s)) "segment load address overflow"%string in
    let? page_count := segment_mapped_pages va (em_memsz s) in
    let first_page := Z.ldiff va (PAGE_SIZE - 1) in
    try_range 0 (Z.to_nat page_count)
      (λ i pages,
         let? off := ok_or (checked_mul 64 (Z.of_nat i) PAGE_SIZE) "page index overflow"%string in
         let? page := ok_or (checked_add 64 first_page off) "page vaddr overflow"%string in
         merge_page page (permissions s) pages) pages.

Definition collect_unique_pages (load_base : Z) (segs : list EmbeddedSegment) : result string (list PagePlan) :=
  let? pages := try_fold (collect_segment load_base) segs [] in
  if existsb (λ p, Perms.is_write_execute (page_perms p)) pages
  then Err "image page would be writable and executable"%string
  else Ok pages.

Definition embedded_mapped_page_count (segs : list EmbeddedSegment) : result string nat :=
  result_map length (collect_unique_pages 0 segs).

(** ** Page contents *)

Record PageFileSpan : Type := MkSpan { page_offset : Z; file_rel : Z; span_len : Z }.

Definition page_file_span (page va size : Z) : result string (option PageFileSpan) :=
  if decide (size = 0) then Ok None
  else
    let? file_end := ok_or (checked_add 64 va size) "segment filesz overflow"%string in
    let? page_end := ok_or (checked_add 64 page PAGE_SIZE) "page end overflow"%string in
    let copy_start := Z.max page va in
    let copy_end := Z.min page_end file_end in
    if decide (copy_end ≤ copy_start) then Ok None
    else Ok (Some (MkSpan (copy_start - page) (copy_start - va) (copy_end - copy_start))).

(** What is copied where: the offset in the page and the bytes. *)
Definition page_copy (page va : Z) (s : EmbeddedSegment) (file : list Z) : result string (option (nat * list Z)) :=
  let? span := page_file_span page va (em_filesz s) in
  match span with
  | None => Ok None
  | Some sp =>
      let? blob_off := ok_or (checked_add 64 (em_file_offset s) (file_rel sp)) "file blob offset overflow"%string in
      let? blob_end := ok_or (checked_add 64 blob_off (span_len sp)) "file blob end overflow"%string in
      if decide (blob_end > Z.of_nat (length file)) then Err "embedded segment file range exceeded image blob"%string
      else Ok (Some (Z.to_nat (page_offset sp), slice (Z.to_nat blob_off) (Z.to_nat blob_end) file))
  end.

Definition fill_page_from_segment (frame page va : Z) (s : EmbeddedSegment) (file : list Z) (mem : PhysMem)
  : result string PhysMem :=
  let? copy := page_copy page va s file in
  match copy with
  | None => Ok mem
  | Some (off, bytes) => Ok (<[frame := blit off bytes (frame_bytes mem frame)]> mem)
  end.

(** The contribution of one segment to a page; an error leaves the memory as it is. *)
Definition fill_one (load_base page frame : Z) (file : list Z) (s : EmbeddedSegment) (mem : PhysMem) : PhysMem * result string unit :=
  let r :=
    if decide (em_memsz s = 0) then Ok mem
    else
      let? va := ok_or (checked_add 64 load_base (offset_from_base s)) "segment load address overflow"%string in
      let? seg_end := ok_or (checked_add 64 va (em_memsz s)) "segment memsz overflow"%string in
      let? page_end := ok_or (checked_add 64 page PAGE_SIZE) "page end overflow"%string in
      if decide (page_end ≤ va ∨ seg_end ≤ page) then Ok mem
      else fill_page_from_segment frame page va s file mem in
  match r with
  | Ok mem => (mem, Ok ())
  | Err e => (mem, Err e)
  end.

(** ** Mapping *)

Section ops.
Context `{NodeLayout} {T : Type} `{PageTables T} (dbg : bool).
Context (max_tables max_mappings : nat) (exclusion : list VaRange).

Implicit Types w : World T.

Definition set_mem (mem : PhysMem) w : World T := MkWorld mem (w_alloc w) (w_space w) (w_pt w).

Definition zero_page (frame : Z) w : World T := set_mem (<[frame := zero_frame]> (w_mem w)) w.

(** One iteration of [map_unique_pages]; the second component is [*mapped]. *)
Definition map_one_page (load_base : Z) (file : list Z) (segs : list EmbeddedSegment) (p : PagePlan) (st : World T * nat)
  : (World T * nat) * result (stop string) unit :=
  let '(w, mapped) := st in
  if decide (page_vaddr p < PAGE_SIZE) then (st, Err (Raise "refusing to map userspace page zero"%string))
  else
    match page_flags_for_segment_perms (page_perms p) with
    | Err e => (st, Err (Raise e))
    | Ok flags =>
        match Space.allocate_page dbg w with
        | (w, Err e) => ((w, mapped), Err e)
        | (w, Ok None) => ((w, mapped), Err (Raise "allocator could not provide an image page"%string))
        | (w, Ok (Some frame)) =>
            let w := zero_page frame w in
            match try_each (fill_one load_base (page_vaddr p) frame file) segs (w_mem w) with
            | (mem, Err e) => ((set_mem mem w, mapped), Err (Raise e))
            | (mem, Ok _) =>
                let w := set_mem mem w in
                match Space.map_process_page dbg max_tables max_mappings exclusion (page_vaddr p) frame flags w with
                | (w, Ok _) => ((w, S mapped), Ok ())
                | (w, Err (Halt m)) => ((w, mapped), Err (Halt m))
                | (w, Err (Raise message)) =>
                    let '(w, _) := Space.free_frame dbg frame w in ((w, mapped), Err (Raise message))
                end
            end
        end
    end.

Definition map_unique_pages (load_base : Z) (file : list Z) (segs : list EmbeddedSegment) (pages : list PagePlan)
    (st : World T * nat) : (World T * nat) * result (stop string) unit :=
  try_each (map_one_page load_base file segs) pages st.

(** [while mapped > 0 { unmap_last_user_mapping(..)?; mapped -= 1; }] *)
Fixpoint roll_back (mapped : nat) w : World T * result string unit :=
  match mapped with
  | O => (w, Ok ())
  | S mapped => let?+ w, _ := Space.unmap_last_user_mapping dbg w in roll_back mapped w
  end.

Definition map_embedded_segments (load_base : Z) (file : list Z) (segs : list EmbeddedSegment) w
  : World T * result (stop string) nat :=
  match collect_unique_pages load_base segs with
  | Err e => (w, Err (Raise e))
  | Ok pages =>
      match map_unique_pages load_base file segs pages (w, O) with
      | ((w, mapped), Ok _) => (w, Ok mapped)
      | ((w, mapped), Err (Halt m)) => (w, Err (Halt m))
      | ((w, mapped), Err (Raise e)) =>
          match roll_back mapped w with
          | (w, Ok _) => (w, Err (Raise e))
          | (w, Err e') => (w, Err (Raise e'))
          end
      end
  end.

(** ** Load plans *)

Definition perm_flags (p : SegmentPermissions) : Z :=
  Z.lor (if perm_read p then PF_R else 0) (Z.lor (if perm_write p then PF_W else 0) (if perm_execute p then PF_X else 0)).

Definition embed (image_base : Z) (s : LoadSegment) : result string EmbeddedSegment :=
  let? off := ok_or (checked_sub (vaddr s) image_base) "load-plan segment below image base"%string in
  Ok (MkEmbedded off (filesz s) (memsz s) (file_offset s) (perm_flags (perms s))).

Definition embed_all (image_base : Z) (segs : list LoadSegment) : result string (list EmbeddedSegment) :=
  try_fold (λ s acc, let? e := embed image_base s in Ok (acc ++ [e])) segs [].

Definition map_load_plan_segments (elf : list Z) (plan : LoadPlan) w : World T * result (stop string) nat :=
  match Plan.image_base plan with
  | None => (w, Err (Raise "load plan has no segments"%string))
  | Some image_base =>
      match embed_all image_base (Plan.iter_segments plan) with
      | Err e => (w, Err (Raise e))
      | Ok embedded => map_embedded_segments image_base elf embedded w
      end
  end.

(** ** Stacks *)

Definition STACK_FLAGS : PageFlags := MkFlags true true true true.

Definition map_stack_page (stack_base : Z) (i : nat) (st : World T * nat) : (World T * nat) * result (stop string) unit :=
  let '(w, mapped) := st in
  let fail w e :=
    match roll_back mapped w with
    | (w, Ok _) => ((w, O), Err (Raise e))
    | (w, Err e') => ((w, O), Err (Raise e'))
    end in
  match Space.allocate_page dbg w with
  | (w, Err e) => ((w, mapped), Err e)
  | (w, Ok None) => fail w "allocator could not provide a stack page"%string
  | (w, Ok (Some frame)) =>
      let w := zero_page frame w in
      match checked_add 64 stack_base (wrap 64 (Z.of_nat i * PAGE_SIZE)) with
      | None => ((w, mapped), Err (Raise "stack page address overflow"%string))
      | Some va =>
          match Space.map_process_page dbg max_tables max_mappings exclusion va frame STACK_FLAGS w with
          | (w, Ok _) => ((w, S mapped), Ok ())
          | (w, Err (Halt m)) => ((w, mapped), Err (Halt m))
          | (w, Err (Raise message)) =>
              let '(w, _) := Space.free_frame dbg frame w in fail w message
          end
      end
  end.

Definition map_user_stack_pages (stack_base : Z) (page_count : nat) w : World T * result (stop string) nat :=
  match try_each (map_stack_page stack_base) (seq 0 page_count) (w, O) with
  | ((w, mapped), Ok _) => (w, Ok mapped)
  | ((w, _), Err e) => (w, Err e)
  end.
End ops.
End Image.
