(* ===== verification/ImageSpec.v ===== *)
(** What the image loader maps: the merged page plan, the bytes of every page, and the
    all-or-nothing mapping of the image into an address space. *)

From Stdlib Require Import ZArith Lia String.
From stdpp Require Import base list gmap sets tactics decidable numbers sorting.
From S2P Require Import Prelude Bytes MemoryMap FrameAllocator FrameSpec FrameRefine AddressSpace Elf ImageLoader.

Local Open Scope Z_scope.

(** ** The page plan *)

(** The pages of the segments with their permissions, one entry per segment and page. *)
Abbreviation Contribution := (Z * SegmentPermissions)%type.

(** [u] is the union of the permissions contributed to page [q]. *)
Record perms_union (cs : list Contribution) (q : Z) (u : SegmentPermissions) : Prop := {
  pu_read : perm_read u = true ↔ ∃ pr, (q, pr) ∈ cs ∧ perm_read pr = true;
  pu_write : perm_write u = true ↔ ∃ pr, (q, pr) ∈ cs ∧ perm_write pr = true;
  pu_execute : perm_execute u = true ↔ ∃ pr, (q, pr) ∈ cs ∧ perm_execute pr = true
}.

(** The plan lists every contributed page once, with the union of its permissions. *)
Record summary (cs : list Contribution) (pages : list PagePlan) : Prop := {
  sm_nodup : NoDup (page_vaddr <$> pages);
  sm_pages : ∀ q, q ∈ page_vaddr <$> pages ↔ ∃ pr, (q, pr) ∈ cs;
  sm_perms : ∀ p, p ∈ pages → perms_union cs (page_vaddr p) (page_perms p)
}.

Lemma exists_contribution (cs : list Contribution) (q : Z) pr x (b : SegmentPermissions → bool) :
  (∃ p, (x, p) ∈ cs ++ [(q, pr)] ∧ b p = true) ↔ (∃ p, (x, p) ∈ cs ∧ b p = true) ∨ (x = q ∧ b pr = true).
Proof.
  split.
  - intros (p & [Hp|Hp]%elem_of_app & Hb); [left; eauto|]. apply list_elem_of_singleton in Hp as [= -> ->]. by right.
  - intros [(p & Hp & Hb)|[-> Hb]]; [exists p|exists pr]; (split; [|done]); apply elem_of_app; [by left|right; by left].
Qed.

Lemma perms_union_other (cs : list Contribution) q pr x u : x ≠ q → perms_union cs x u → perms_union (cs ++ [(q, pr)]) x u.
Proof. intros Hx [H1 H2 H3]. split; rewrite exists_contribution; tauto. Qed.

Lemma perms_union_merge cs q pr u : perms_union cs q u → perms_union (cs ++ [(q, pr)]) q (merge_perms u pr).
Proof. intros [H1 H2 H3]. split; rewrite exists_contribution; cbn; rewrite orb_true_iff; tauto. Qed.

Lemma perms_union_first (cs : list Contribution) q pr : (∀ p, (q, p) ∉ cs) → perms_union (cs ++ [(q, pr)]) q pr.
Proof. intros Hn. split; rewrite exists_contribution; split; intros; destruct_or?; try tauto; naive_solver. Qed.

Lemma merge_page_spec cs pages q pr :
  summary cs pages →
  match Image.merge_page q pr pages with
  | Ok pages' => summary (cs ++ [(q, pr)]) pages'
  | Err _ => (MAX_IMAGE_MAP_PAGES ≤ length pages)%nat
  end.
Proof.
  intros [Hnd Hpg Hpm]. unfold Image.merge_page.
  assert (∀ x, (∃ p, (x, p) ∈ cs ++ [(q, pr)]) ↔ (∃ p, (x, p) ∈ cs) ∨ x = q) as Hex.
  { intros x. split.
    - intros (p & [Hp|Hp]%elem_of_app); [left; eauto|]. apply list_elem_of_singleton in Hp as [= -> ->]. by right.
    - intros [[p Hp]| ->]; eexists; apply elem_of_app; [by left|right; by left]. }
  destruct (position _ pages) as [i|] eqn:Ei.
  - apply position_Some in Ei as ((p & Hp & Hq) & _). apply bool_decide_eq_true in Hq. set (f := λ p : PagePlan, _).
    assert (page_vaddr <$> alter f i pages = page_vaddr <$> pages) as Ev.
    { apply list_eq. intros j. rewrite !list_lookup_fmap. destruct (decide (j = i)) as [->|].
      - by rewrite list_lookup_alter_eq, Hp.
      - by rewrite list_lookup_alter_ne. }
    split; rewrite ?Ev; auto.
    + intros x. rewrite Hex, <- Hpg. split; [by left|]. intros [?| ->]; [done|].
      rewrite <- Hq. apply list_elem_of_fmap_2. by eapply list_elem_of_lookup_2.
    + intros p' [j Hj]%list_elem_of_lookup. destruct (decide (j = i)) as [->|Hji].
      * rewrite list_lookup_alter_eq, Hp in Hj. cbn in Hj. injection Hj as <-. cbn [page_vaddr page_perms f].
        rewrite Hq. apply perms_union_merge. rewrite <- Hq. apply Hpm. by eapply list_elem_of_lookup_2.
      * rewrite list_lookup_alter_ne in Hj by done. apply perms_union_other.
        -- intros E. apply Hji. eapply (NoDup_lookup (page_vaddr <$> pages)); [done| |]; rewrite list_lookup_fmap; [by rewrite Hj|].
           rewrite Hp. cbn. congruence.
        -- apply Hpm. by eapply list_elem_of_lookup_2.
  - rewrite position_None in Ei. case_decide as Hcap; [done|].
    assert (q ∉ page_vaddr <$> pages) as Hq.
    { intros (p & -> & Hp)%list_elem_of_fmap. specialize (Ei p Hp). by apply bool_decide_eq_false in Ei. }
    split.
    + rewrite fmap_app. apply NoDup_app. split_and!; [done| |apply NoDup_singleton]. intros x Hx ->%list_elem_of_singleton. done.
    + intros x. rewrite Hex, <- Hpg, fmap_app, elem_of_app. cbn. by rewrite list_elem_of_singleton.
    + intros p [Hp|Hp]%elem_of_app.
      * apply perms_union_other; [|by apply Hpm]. intros E. apply Hq. rewrite <- E. by apply list_elem_of_fmap_2.
      * apply list_elem_of_singleton in Hp as ->. cbn. apply perms_union_first. intros p Hp. apply Hq, Hpg. eauto.
Qed.

(** ** Segments *)

Section image.
Context (load_base : Z) (file : list Z).

Definition seg_va (s : EmbeddedSegment) : Z := load_base + offset_from_base s.

(** A segment in the user half whose file bytes are inside the file. *)
Record seg_ok (s : EmbeddedSegment) : Prop := {
  sk_offset : 0 ≤ offset_from_base s;
  sk_sizes : 0 ≤ em_filesz s ≤ em_memsz s;
  sk_va : 0 ≤ load_base ∧ seg_va s + em_memsz s ≤ 2 ^ 47;
  sk_file : 0 ≤ em_file_offset s ∧ em_file_offset s + em_filesz s ≤ Z.of_nat (length file) < 2 ^ 64
}.

(** The segment has bytes in the page. *)
Definition touches (s : EmbeddedSegment) (q : Z) : Prop :=
  aligned q ∧ 0 < em_memsz s ∧ seg_va s < q + 4096 ∧ q < seg_va s + em_memsz s.

Definition seg_pages (s : EmbeddedSegment) : list Z :=
  frames (4096 * (seg_va s / 4096)) (4096 * ((seg_va s + em_memsz s + 4095) / 4096)).

Definition seg_contributions (s : EmbeddedSegment) : list Contribution :=
  if decide (em_memsz s = 0) then [] else (λ q, (q, permissions s)) <$> seg_pages s.

Lemma aligned_page q : aligned (4096 * q).
Proof. apply aligned_spec. exists q. lia. Qed.

Lemma elem_of_seg_pages s q : em_memsz s ≠ 0 → 0 ≤ em_memsz s → q ∈ seg_pages s ↔ touches s q.
Proof.
  intros Hm Hm0. unfold seg_pages, touches. rewrite elem_of_frames by apply aligned_page.
  pose proof (Z.div_mod (seg_va s) 4096 ltac:(lia)). pose proof (Z.mod_pos_bound (seg_va s) 4096 ltac:(lia)).
  pose proof (Z.div_mod (seg_va s + em_memsz s + 4095) 4096 ltac:(lia)).
  pose proof (Z.mod_pos_bound (seg_va s + em_memsz s + 4095) 4096 ltac:(lia)).
  rewrite aligned_spec. split.
  - intros ([Ha Hb] & k & ->). split; [by exists k|]. lia.
  - intros ((k & ->) & _ & Ha & Hb). split; [lia|by exists k].
Qed.

Lemma elem_of_seg_contributions s q pr :
  seg_ok s → (q, pr) ∈ seg_contributions s ↔ touches s q ∧ pr = permissions s.
Proof.
  intros [H1 H2 H3 H4]. unfold seg_contributions. case_decide as Hm.
  - split; [by intros ?%elem_of_nil|]. unfold touches. lia.
  - rewrite list_elem_of_fmap. split.
    + intros (x & [= -> ->] & Hx). split; [|done]. by apply elem_of_seg_pages in Hx; [| |lia].
    + intros [Ht ->]. exists q. split; [done|]. apply elem_of_seg_pages; [done|lia|done].
Qed.

Lemma image_align_up v : 0 ≤ v → v + 4096 < 2 ^ 64 → Image.align_up v PAGE_SIZE = Ok (4096 * ((v + 4095) / 4096)).
Proof.
  intros Hv Hb. unfold Image.align_up, PAGE_SIZE. change (4096 - 1) with (2 ^ 12 - 1). rewrite land_pow2 by lia.
  change (2 ^ 12) with 4096. pose proof (Z.div_mod v 4096 ltac:(lia)) as Hd. pose proof (Z.mod_pos_bound v 4096 ltac:(lia)) as Hm.
  case_decide as E.
  - rewrite <- (Z.div_unique (v + 4095) 4096 (v / 4096) 4095) by lia. f_equal. lia.
  - rewrite <- (Z.div_unique (v + 4095) 4096 (v / 4096 + 1) (v mod 4096 - 1)) by lia.
    unfold checked_add. case_decide; [|lia]. cbn. f_equal. lia.
Qed.

(** One segment's pages are merged one after the other. *)
Lemma collect_segment_spec s cs pages :
  seg_ok s → summary cs pages →
  match Image.collect_segment load_base s pages with
  | Ok pages' => summary (cs ++ seg_contributions s) pages'
  | Err _ => True
  end.
Proof.
  intros Hok Hs. pose proof Hok as [H1 H2 H3 H4]. unfold Image.collect_segment, seg_contributions.
  case_decide as Hm; [by rewrite app_nil_r|]. case_decide; [done|].
  unfold checked_add at 1. case_decide; [|done]. cbn [ok_or]. fold (seg_va s).
  unfold Image.segment_mapped_pages. rewrite decide_False by done. unfold checked_add at 1. case_decide; [|done]. cbn [ok_or].
  rewrite image_align_up by (unfold seg_va in *; lia). change PAGE_SIZE with 4096. change (4096 - 1) with (2 ^ 12 - 1).
  rewrite ldiff_pow2 by lia. change (2 ^ 12) with 4096.
  unfold checked_sub. case_decide; [|done]. cbn [ok_or].
  set (first := 4096 * (seg_va s / 4096)). set (last_ := 4096 * ((seg_va s + em_memsz s + 4095) / 4096)).
  pose proof (pages_between first last_ (aligned_page _) (aligned_page _)) as Hpb.
  set (n := (last_ - first) / 4096) in *. set (body := λ (i : nat) (pages : list PagePlan), _).
  destruct (try_range 0 (Z.to_nat n) body pages) as [pages'|e] eqn:E; [|done].
  assert (summary (cs ++ ((λ q, (q, permissions s)) <$> frames first (first + Z.of_nat (Z.to_nat n) * 4096))) pages') as Hf.
  { eapply (try_range_inv (λ i ps, summary (cs ++ ((λ q, (q, permissions s)) <$> frames first (first + Z.of_nat i * 4096))) ps)
      body 0 (Z.to_nat n) pages pages'); [lia| | |exact E].
    - rewrite Z.mul_0_l, Z.add_0_r, frames_nil by lia. cbn. by rewrite app_nil_r.
    - intros i ps ps' Hi Hps. unfold body. checked_op. checked_op. intros Emp.
      pose proof (merge_page_spec _ ps (first + Z.of_nat i * 4096) (permissions s) Hps) as Hmp. rewrite Emp in Hmp.
      replace (first + Z.of_nat (S i) * 4096) with (first + Z.of_nat i * 4096 + 4096) by lia.
      rewrite frames_snoc, fmap_app, app_assoc; [exact Hmp|apply aligned_page|apply aligned_add, aligned_page|lia]. }
  unfold seg_pages. fold first last_. replace last_ with (first + Z.of_nat (Z.to_nat n) * 4096); [done|].
  rewrite Z2Nat.id by (apply Z.div_pos; lia). lia.
Qed.

(** The plan of all segments: their pages, once each, with united permissions, and no
    page both writable and executable. *)
Lemma collect_unique_pages_spec segs pages :
  Forall seg_ok segs → Image.collect_unique_pages load_base segs = Ok pages →
  summary (segs ≫= seg_contributions) pages ∧ ∀ p, p ∈ pages → Perms.is_write_execute (page_perms p) = false.
Proof.
  intros Hok. unfold Image.collect_unique_pages.
  assert (∀ todo done_ ps, Forall seg_ok todo → summary (done_ ≫= seg_contributions) ps →
    ∀ ps', try_fold (Image.collect_segment load_base) todo ps = Ok ps' → summary ((done_ ++ todo) ≫= seg_contributions) ps') as Hfold.
  { induction todo as [|s todo IH]; intros done_ ps Ht Hs ps'; cbn [try_fold].
    - intros [= <-]. by rewrite app_nil_r.
    - apply Forall_cons in Ht as [Hsk Ht]. pose proof (collect_segment_spec s _ ps Hsk Hs) as Hc.
      destruct (Image.collect_segment load_base s ps) as [ps1|]; [|done]. intros E.
      rewrite (cons_middle s done_ todo), app_assoc. apply (IH (done_ ++ [s]) ps1); auto.
      rewrite bind_app. cbn. by rewrite app_nil_r. }
  destruct (try_fold _ segs []) as [ps|] eqn:E; [|done].
  destruct (existsb _ ps) eqn:Ex; [done|]. intros [= <-]. split.
  - apply (Hfold segs [] []); auto. split; [constructor| |by intros p ?%elem_of_nil].
    intros q. split; [by intros ?%elem_of_nil|]. by intros [pr ?%elem_of_nil].
  - intros p Hp. destruct (Perms.is_write_execute (page_perms p)) eqn:Ew; [|done].
    enough (existsb (λ p, Perms.is_write_execute (page_perms p)) ps = true) by congruence.
    apply existsb_exists. exists p. split; [by apply list_elem_of_In|done].
Qed.

(** ** Page contents *)

(** The file byte of a segment at an address, if it has one there. *)
Definition file_byte (s : EmbeddedSegment) (va : Z) : option Z :=
  if decide (0 < em_memsz s ∧ seg_va s ≤ va < seg_va s + em_filesz s)
  then file !! Z.to_nat (em_file_offset s + (va - seg_va s)) else None.

(** The byte of the image at an address: the last segment with a file byte there, else
    zero. *)
Fixpoint image_byte (segs : list EmbeddedSegment) (va acc : Z) : Z :=
  match segs with
  | [] => acc
  | s :: segs => image_byte segs va (default acc (file_byte s va))
  end.

Definition render (g : Z → Z) : list Z := g <$> seqZ 0 4096.

Definition page_bytes (segs : list EmbeddedSegment) (page : Z) : list Z := render (λ i, image_byte segs (page + i) 0).

Lemma length_render g : length (render g) = 4096%nat.
Proof. unfold render. by rewrite length_fmap, length_seqZ. Qed.

Lemma render_lookup g i : (i < 4096)%nat → render g !! i = Some (g (Z.of_nat i)).
Proof.
  intros Hi. unfold render. rewrite list_lookup_fmap. rewrite (proj2 (lookup_seqZ 0 4096 i (Z.of_nat i))); [done|]. lia.
Qed.

Lemma render_eq g bs : length bs = 4096%nat → (∀ i, (i < 4096)%nat → bs !! i = Some (g (Z.of_nat i))) → bs = render g.
Proof.
  intros Hl H. apply list_eq. intros i. destruct (decide (i < 4096)%nat) as [Hi|Hi].
  - by rewrite H, render_lookup.
  - rewrite !lookup_ge_None_2; [done|rewrite length_render; lia|lia].
Qed.

Lemma zero_frame_render : zero_frame = render (λ _, 0).
Proof.
  apply render_eq; [by unfold zero_frame; rewrite length_replicate|]. intros i Hi.
  apply lookup_replicate. split; [done|]. lia.
Qed.

Lemma page_copy_spec s page :
  seg_ok s → aligned page → 0 ≤ page < 2 ^ 47 → 0 < em_memsz s →
  (Image.page_copy page (seg_va s) s file = Ok None ∧ (∀ i, (i < 4096)%nat → file_byte s (page + Z.of_nat i) = None)) ∨
  ∃ off bs, Image.page_copy page (seg_va s) s file = Ok (Some (off, bs)) ∧ (off + length bs ≤ 4096)%nat ∧
    ∀ i, (i < 4096)%nat → file_byte s (page + Z.of_nat i) = if decide (off ≤ i < off + length bs)%nat then bs !! (i - off)%nat else None.
Proof.
  intros [H1 H2 H3 H4] Hal Hp Hm. unfold Image.page_copy, Image.page_file_span, file_byte.
  assert (0 ≤ seg_va s) as Hv by (unfold seg_va; lia). destruct (decide (em_filesz s = 0)) as [Hz|Hz].
  { left. split; [done|]. intros i Hi. rewrite decide_False by lia. done. }
  unfold PAGE_SIZE. rewrite !(proj2 (checked_add_Some 64 _ _ _)) by (split; [done|lia]). cbn [ok_or].
  case_decide as Hempty.
  { left. split; [done|]. intros i Hi. rewrite decide_False by lia. done. }
  right. cbn [Image.page_offset Image.file_rel Image.span_len]. set (cs := Z.max page (seg_va s)) in *. set (ce := Z.min (page + 4096) (seg_va s + em_filesz s)) in *.
  rewrite (proj2 (checked_add_Some 64 (em_file_offset s) (cs - seg_va s) _)) by (split; [done|lia]). cbn [ok_or].
  rewrite (proj2 (checked_add_Some 64 _ (ce - cs) _)) by (split; [done|lia]). cbn [ok_or].
  rewrite decide_False by lia. eexists _, _. split; [done|].
  assert (length (slice (Z.to_nat (em_file_offset s + (cs - seg_va s))) (Z.to_nat (em_file_offset s + (cs - seg_va s) + (ce - cs))) file)
    = Z.to_nat (ce - cs)) as Hl by (rewrite length_slice; lia).
  rewrite Hl. split; [lia|]. intros i Hi. case_decide as Hin.
  - rewrite decide_True by lia. rewrite slice_lookup, decide_True by lia. f_equal. lia.
  - rewrite decide_False by lia. done.
Qed.

Lemma fill_one_spec s page frame g mem0 :
  seg_ok s → aligned page → 0 ≤ page < 2 ^ 47 →
  Image.fill_one load_base page frame file s (<[frame := render g]> mem0)
  = (<[frame := render (λ i, default (g i) (file_byte s (page + i)))]> mem0, Ok ()).
Proof.
  intros Hok Hal Hp. pose proof Hok as [H1 H2 H3 H4]. unfold Image.fill_one.
  set (gg := λ i, default (g i) (file_byte s (page + i))).
  assert ((∀ i, (i < 4096)%nat → file_byte s (page + Z.of_nat i) = None) → render gg = render g) as Hext.
  { intros Hgg. apply render_eq; [apply length_render|]. intros i Hi. rewrite render_lookup by done. unfold gg. by rewrite Hgg. }
  case_decide as Hm.
  { rewrite Hext; [done|]. intros i Hi. unfold file_byte. rewrite decide_False by lia. done. }
  unfold PAGE_SIZE. fold (seg_va s).
  rewrite (proj2 (checked_add_Some 64 load_base (offset_from_base s) _)) by (split; [done|unfold seg_va in *; lia]). cbn [ok_or].
  fold (seg_va s). rewrite !(proj2 (checked_add_Some 64 _ _ _)) by (split; [done|lia]). cbn [ok_or].
  case_decide as Hout.
  { rewrite Hext; [done|]. intros i Hi. unfold file_byte. rewrite decide_False by lia. done. }
  unfold Image.fill_page_from_segment.
  destruct (page_copy_spec s page Hok Hal Hp ltac:(lia)) as [[-> Hn]|(off & bs & -> & Hlen & Hb)].
  { rewrite Hext; [done|]. exact Hn. }
  f_equal. rewrite frame_bytes_insert, decide_True, insert_insert_eq by done. f_equal.
  apply render_eq; [by rewrite length_blit, length_render|]. intros i Hi.
  unfold gg. rewrite blit_lookup, Hb by (rewrite ?length_render; done). case_decide as Hin.
  - destruct (lookup_lt_is_Some_2 bs (i - off)) as [b Eb]; [lia|]. by rewrite Eb.
  - by rewrite render_lookup.
Qed.

(** A zeroed frame filled from all segments holds the image's page. *)
Lemma fill_all_spec segs page frame g mem0 :
  Forall seg_ok segs → aligned page → 0 ≤ page < 2 ^ 47 →
  try_each (Image.fill_one load_base page frame file) segs (<[frame := render g]> mem0)
  = (<[frame := render (λ i, image_byte segs (page + i) (g i))]> mem0, Ok ()).
Proof.
  intros Hok Hal Hp. revert g. induction Hok as [|s segs Hs Hok IH]; intros g; cbn [try_each image_byte]; [done|].
  rewrite fill_one_spec by done. apply (IH (λ i, default (g i) (file_byte s (page + i)))).
Qed.
End image.
