(* ===== verification/ImageMap.v ===== *)
(** Mapping an image is all or nothing, and what is mapped is the image.

    [loaded] relates the world before the loader ran to the world after some pages of the
    plan: those pages are mapped to fresh frames that hold the image's bytes, nothing
    else is reachable that was not before, and the only other frames taken are page
    tables. *)

From Stdlib Require Import ZArith Lia String.
From stdpp Require Import base list gmap sets tactics decidable numbers sorting.
From S2P Require Import Prelude Bytes MemoryMap FrameAllocator FrameSpec FrameRefine AddressSpace Elf ImageLoader ImageSpec.

Local Open Scope Z_scope.

Section mapping.
Context `{NodeLayout} {T : Type} `{PageTables T} (dbg : bool).
Context (max_tables max_mappings : nat) (exclusion : list VaRange) (l : list MemoryRegion).
Context (load_base : Z) (file : list Z) (segs : list EmbeddedSegment).
Hypothesis Hsegs : Forall (seg_ok load_base file) segs.

Implicit Types (w : World T) (σ : Heap).

Definition flags_of (p : PagePlan) : PageFlags :=
  MkFlags true (perm_write (page_perms p)) true (negb (perm_execute (page_perms p))).

Definition mapping_of (d : PagePlan * Z) : OwnedUserMapping := MkMapping (page_vaddr d.1) d.2.

Definition bytes_of (p : PagePlan) : list Z := page_bytes load_base file segs (page_vaddr p).

(** The pages [ds] of the plan, with their frames, were added to the world [w0]. *)
Record loaded (σ0 : Heap) (w0 : World T) (ds : list (PagePlan * Z)) (σ : Heap) (w : World T) : Prop := {
  ld_ok : world_ok dbg l σ w;
  ld_mappings : user_mappings (w_space w) = user_mappings (w_space w0) ++ (mapping_of <$> ds);
  ld_heap : ∃ new, page_table_frames (w_space w) = page_table_frames (w_space w0) ++ new
    ∧ (∀ g, g ∈ new → σ0 !! g = None)
    ∧ ∀ g, g ∉ ds.*2 → if decide (g ∈ new) then is_Some (σ !! g) else σ !! g = σ0 !! g;
  ld_pages : ∀ p f, (p, f) ∈ ds → σ !! f = Some (bytes_of p) ∧ σ0 !! f = None ∧ pt_lookup (w_pt w0) (page_vaddr p) = None;
  ld_lookup : ∀ q, pt_lookup (w_pt w) q =
    match find_first (λ d, bool_decide (page_vaddr d.1 = q)) ds with
    | Some d => Some (d.2, flags_of d.1)
    | None => pt_lookup (w_pt w0) q
    end
}.

Lemma loaded_nil σ w : world_ok dbg l σ w → loaded σ w [] σ w.
Proof.
  intros Hok. split; [done|by rewrite app_nil_r| |by intros p f ?%elem_of_nil|done].
  exists []. split; [by rewrite app_nil_r|]. split; [by intros g ?%elem_of_nil|].
  intros g _. by rewrite decide_False by apply not_elem_of_nil.
Qed.

(** What is free now was free before. *)
Lemma loaded_free σ0 w0 ds σ w g : loaded σ0 w0 ds σ w → σ !! g = None → σ0 !! g = None.
Proof.
  intros [_ _ (new & _ & _ & Hh) Hp _] Hg. destruct (decide (g ∈ ds.*2)) as [Hd|Hd].
  - apply list_elem_of_fmap in Hd as ([p f] & -> & Hd). destruct (Hp p f Hd) as (E & _). cbn in Hg. congruence.
  - specialize (Hh g Hd). case_decide; [rewrite Hg in Hh; by destruct Hh|]. congruence.
Qed.

Lemma space_ok_mono σ σ' s (t : T) : (∀ g, g ∈ owned s → is_Some (σ !! g) → is_Some (σ' !! g)) → space_ok σ s t → space_ok σ' s t.
Proof. intros Hm [H1 H2 H3 H4 H5 H6]. split; auto. Qed.

Lemma adds_keeps fs σ σ' g b : adds fs σ σ' → (∀ f, f ∈ fs → σ !! f = None) → σ !! g = Some b → σ' !! g = Some b.
Proof.
  intros Ha Hf Hg. specialize (Ha g). case_decide as Hin; [|by rewrite Ha]. specialize (Hf g Hin). congruence.
Qed.

(** A fresh frame, zeroed and filled. *)
Lemma fill_fresh σ w p :
  world_ok dbg l σ w → aligned (page_vaddr p) → 0 ≤ page_vaddr p < 2 ^ 47 →
  match Space.allocate_page (E := string) dbg w with
  | (w1, Ok (Some f)) =>
      let w2 := Image.zero_page f w1 in
      σ !! f = None ∧ ∃ σ' mem, try_each (Image.fill_one load_base (page_vaddr p) f file) segs (w_mem w2) = (mem, Ok ())
        ∧ world_ok dbg l σ' (Image.set_mem mem w2) ∧ σ' !! f = Some (bytes_of p) ∧ (∀ g, g ≠ f → σ' !! g = σ !! g)
        ∧ w_space w1 = w_space w ∧ w_pt w1 = w_pt w
  | (w1, Ok None) => world_ok dbg l σ w1 ∧ w_space w1 = w_space w ∧ w_pt w1 = w_pt w
  | (_, Err _) => False
  end.
Proof.
  intros [Hi Hs] Hal Hp. pose proof (allocate_page_world (E := string) dbg l σ w Hi) as Ha.
  destruct (Space.allocate_page dbg w) as [w1 [[f|]|]]; destruct Ha as (Es & Et & Ha); [| |done].
  2: { split; [|done]. split; [done|]. by rewrite Es, Et. }
  destruct Ha as [[_ Hf] (σ1 & Hadd & Hi1)]. cbv zeta. split; [done|].
  assert (is_Some (σ1 !! f)) as Hf1 by (specialize (Hadd f); by rewrite decide_True in Hadd by by left).
  assert (∀ g, g ≠ f → σ1 !! g = σ !! g) as Hother.
  { intros g Hg. specialize (Hadd g). rewrite decide_False in Hadd; [done|]. by intros ?%list_elem_of_singleton. }
  exists (<[f := bytes_of p]> σ1). eexists. cbn [w_mem Image.zero_page Image.set_mem].
  rewrite zero_frame_render, fill_all_spec by done. split; [done|]. split; [split|split_and!].
  - cbn. apply serve_write; [done|done|apply length_render].
  - cbn. rewrite Es, Et. apply (space_ok_mono σ); [|done]. intros g Hg Hgs.
    rewrite lookup_insert_ne by (intros ->; rewrite Hf in Hgs; by destruct Hgs).
    rewrite Hother; [done|]. intros ->. rewrite Hf in Hgs. by destruct Hgs.
  - apply lookup_insert_eq.
  - intros g Hg. rewrite lookup_insert_ne by done. auto.
  - done.
  - done.
Qed.

Lemma find_snoc {A : Type} (P : A → bool) xs x :
  find_first P (xs ++ [x]) = match find_first P xs with Some y => Some y | None => if P x then Some x else None end.
Proof. induction xs as [|y xs IH]; cbn; [by destruct (P x)|]. by destruct (P y). Qed.

(** Mapping a page to a fresh frame [f] that already holds its bytes: added on success; on
    an error, once the frame is freed again, only page tables were added. *)
Lemma map_fresh_spec σ0 w0 ds σ w p f σ2 w2 :
  loaded σ0 w0 ds σ w → aligned (page_vaddr p) → 0 ≤ page_vaddr p < 2 ^ 47 →
  (length (user_mappings (w_space w)) < max_mappings)%nat → σ !! f = None →
  world_ok dbg l σ2 w2 → σ2 !! f = Some (bytes_of p) → (∀ g, g ≠ f → σ2 !! g = σ !! g) →
  w_space w2 = w_space w → w_pt w2 = w_pt w →
  match Space.map_process_page dbg max_tables max_mappings exclusion (page_vaddr p) f (flags_of p) w2 with
  | (w3, Ok _) => ∃ σ', loaded σ0 w0 (ds ++ [(p, f)]) σ' w3
  | (w3, Err (Raise _)) => ∃ w4 σ', Space.free_frame dbg f w3 = (w4, Ok ()) ∧ loaded σ0 w0 ds σ' w4
  | (_, Err (Halt _)) => False
  end.
Proof.
  intros Hld Hal Hp Hroom Hf Hok2 Hf2 Hother Es2 Et2.
  assert (f ∉ owned (w_space w2)) as Hfo.
  { rewrite Es2. intros Ho. destruct (ld_ok _ _ _ _ _ Hld) as [_ Hs]. apply (so_held _ _ _ Hs) in Ho. rewrite Hf in Ho. by destruct Ho. }
  pose proof (map_process_page_spec dbg max_tables max_mappings exclusion l (page_vaddr p) f (flags_of p) σ2 w2 Hok2 Hal
    ltac:(rewrite Hf2; eauto) Hfo ltac:(by rewrite Es2)) as Hm.
  destruct (Space.map_process_page _ _ _ _ _ _ _ w2) as [w3 r]. destruct Hm as (σ3 & new & Hok3 & Hadd & Hnew & Htab & Hm).
  rewrite Es2 in Htab, Hm. rewrite Et2 in Hm.
  assert (∀ g b, σ !! g = Some b → σ3 !! g = Some b) as Hkeep.
  { intros g b Hg. eapply adds_keeps; [done|done|]. rewrite Hother; [done|]. intros ->. congruence. }
  assert (σ3 !! f = Some (bytes_of p)) as Hf3 by (eapply adds_keeps; done).
  pose proof (loaded_free _ _ _ _ _ f Hld Hf) as Hf0.
  destruct (ld_heap _ _ _ _ _ Hld) as (new0 & Htab0 & Hnew0 & Hheap0).
  assert (∀ g, g ∈ new0 ++ new → σ0 !! g = None) as Hnew1.
  { intros g [Hg|Hg]%elem_of_app; [auto|]. specialize (Hnew g Hg). rewrite Hother in Hnew by congruence.
    by eapply loaded_free. }
  assert (∀ g, g ∉ ds.*2 → g ≠ f → if decide (g ∈ new0 ++ new) then is_Some (σ3 !! g) else σ3 !! g = σ0 !! g) as Hheap3.
  { intros g Hg Hgf. specialize (Hheap0 g Hg). specialize (Hadd g). destruct (decide (g ∈ new)) as [Hn|Hn].
    - rewrite decide_True by (apply elem_of_app; by right). done.
    - rewrite Hadd, Hother by done. destruct (decide (g ∈ new0)) as [Hn0|Hn0].
      + by rewrite decide_True by (apply elem_of_app; by left).
      + by rewrite decide_False by (rewrite elem_of_app; tauto). }
  destruct r as [[]|[m|e]].
  - destruct Hm as (Hum & Hl0 & Hlk). exists σ3.
    assert (∀ d, d ∈ ds → page_vaddr d.1 ≠ page_vaddr p) as Hne.
    { intros d Hd E. destruct (ld_ok _ _ _ _ _ Hld) as [_ Hs].
      destruct (so_mapped _ _ _ Hs (mapping_of d)) as [fl Hfl].
      { rewrite (ld_mappings _ _ _ _ _ Hld). apply elem_of_app. right. by apply list_elem_of_fmap_2. }
      cbn in Hfl. congruence. }
    split.
    + done.
    + rewrite Hum, (ld_mappings _ _ _ _ _ Hld), fmap_app, app_assoc. done.
    + exists (new0 ++ new). rewrite Htab, Htab0, app_assoc. split; [done|]. split; [done|]. intros g Hg.
      rewrite fmap_app, elem_of_app in Hg. cbn in Hg. rewrite list_elem_of_singleton in Hg. apply Hheap3; tauto.
    + intros p' f' [Hd|Hd]%elem_of_app.
      * destruct (ld_pages _ _ _ _ _ Hld p' f' Hd) as (E1 & E2 & E3). auto.
      * apply list_elem_of_singleton in Hd as [= -> ->]. split; [done|]. split; [done|].
        rewrite (ld_lookup _ _ _ _ _ Hld) in Hl0. by destruct (find_first _ ds).
    + intros q. rewrite Hlk, find_snoc, (ld_lookup _ _ _ _ _ Hld). cbn [fst snd]. case_decide as Eq.
      * subst q. assert (find_first (λ d, bool_decide (page_vaddr d.1 = page_vaddr p)) ds = None) as ->.
        { apply find_first_None. intros d Hd. apply bool_decide_eq_false. by apply Hne. }
        by rewrite bool_decide_eq_true_2.
      * rewrite bool_decide_eq_false_2 by congruence. by destruct (find_first _ ds).
  - destruct Hm as [Hcan _]. unfold is_canonical, USER_CANONICAL_TOP_EXCLUSIVE in Hcan.
    rewrite bool_decide_eq_true_2 in Hcan; [done|]. change (Z.shiftl 1 47) with (2 ^ 47). lia.
  - destruct Hm as (Hum & Hlk). destruct Hok3 as [Hi3 Hs3].
    destruct (free_frame_world dbg l σ3 w3 f Hi3) as (w4 & σ4 & Efree & Es4 & Et4 & Hrem & Hi4); [rewrite Hf3; eauto|].
    assert (f ∉ owned (w_space w3)) as Hfo3.
    { unfold owned in *. rewrite Htab, Hum, Es2, !elem_of_app in *. intros [[?|Hn]|?]; [tauto| |tauto].
      specialize (Hnew f Hn). congruence. }
    assert (∀ g, g ≠ f → σ4 !! g = σ3 !! g) as H4 by (intros g Hg; by apply (removes_other f)).
    exists w4, σ4. split; [done|]. split; rewrite ?Es4, ?Et4.
    + split; [done|]. rewrite Es4, Et4. apply (space_ok_mono σ3); [|done]. intros g Hg. rewrite H4; [done|]. congruence.
    + rewrite Hum. apply Hld.
    + exists (new0 ++ new). rewrite Htab, Htab0, app_assoc. split; [done|]. split; [done|]. intros g Hg.
      destruct (decide (g = f)) as [->|Hgf].
      * assert (f ∉ new0 ++ new) as Hnf.
        { intros Hn. apply Hfo3. unfold owned. rewrite Htab, Htab0, !elem_of_app. rewrite elem_of_app in Hn. tauto. }
        rewrite decide_False by done. rewrite Hf0, Hrem, decide_True; [done|by left].
      * rewrite H4 by done. by apply Hheap3.
    + intros p' f' Hd. destruct (ld_pages _ _ _ _ _ Hld p' f' Hd) as (E1 & E2 & E3). split; [|done].
      rewrite H4; [auto|]. congruence.
    + intros q. rewrite Hlk. apply Hld.
Qed.

(** One page: added on success, nothing but page tables on an error. *)
Lemma map_one_page_spec σ0 w0 ds σ w p :
  loaded σ0 w0 ds σ w → aligned (page_vaddr p) → 0 ≤ page_vaddr p < 2 ^ 47 → Perms.is_write_execute (page_perms p) = false →
  (length (user_mappings (w_space w)) < max_mappings)%nat →
  match Image.map_one_page dbg max_tables max_mappings exclusion load_base file segs p (w, length ds) with
  | ((w', n), Ok _) => ∃ f σ', loaded σ0 w0 (ds ++ [(p, f)]) σ' w' ∧ n = S (length ds)
  | ((w', n), Err (Raise _)) => ∃ σ', loaded σ0 w0 ds σ' w' ∧ n = length ds
  | (_, Err (Halt _)) => False
  end.
Proof.
  intros Hld Hal Hp Hwx Hroom. unfold Image.map_one_page.
  case_decide; [by exists σ|]. unfold page_flags_for_segment_perms. rewrite Hwx. fold (flags_of p).
  pose proof (fill_fresh σ w p (ld_ok _ _ _ _ _ Hld) Hal Hp) as Hff.
  destruct (Space.allocate_page dbg w) as [w1 [[f|]|]]; [| |done].
  2: { destruct Hff as (Hok1 & Es & Et). exists σ. split; [|done]. destruct Hld. split; rewrite ?Es, ?Et; auto. }
  cbv zeta in Hff. destruct Hff as (Hf & σ2 & mem & -> & Hok2 & Hf2 & Hother & Es & Et).
  pose proof (map_fresh_spec σ0 w0 ds σ w p f σ2 (Image.set_mem mem (Image.zero_page f w1)) Hld Hal Hp Hroom Hf Hok2 Hf2 Hother Es Et) as Hm.
  destruct (Space.map_process_page _ _ _ _ _ _ _ _) as [w3 [[]|[m|e]]]; [|done|].
  - destruct Hm as (σ' & Hm). eauto.
  - destruct Hm as (w4 & σ' & -> & Hm). eauto.
Qed.

Definition page_ok (p : PagePlan) : Prop :=
  aligned (page_vaddr p) ∧ 0 ≤ page_vaddr p < 2 ^ 47 ∧ Perms.is_write_execute (page_perms p) = false.

Lemma map_unique_pages_spec σ0 w0 pages ds σ w :
  loaded σ0 w0 ds σ w → Forall page_ok pages →
  (length (user_mappings (w_space w0)) + length ds + length pages ≤ max_mappings)%nat →
  match Image.map_unique_pages dbg max_tables max_mappings exclusion load_base file segs pages (w, length ds) with
  | ((w', n), Ok _) => ∃ ds' σ', loaded σ0 w0 ds' σ' w' ∧ ds'.*1 = ds.*1 ++ pages ∧ n = length ds'
  | ((w', n), Err (Raise _)) => ∃ ds' σ', loaded σ0 w0 ds' σ' w' ∧ n = length ds'
  | (_, Err (Halt _)) => False
  end.
Proof.
  intros Hld Hp. revert ds σ w Hld. induction Hp as [|p pages (Hal & Hr & Hwx) Hp IH]; intros ds σ w Hld Hroom; cbn [length] in Hroom.
  { exists ds, σ. by rewrite app_nil_r. }
  unfold Image.map_unique_pages in *. cbn [try_each].
  pose proof (map_one_page_spec σ0 w0 ds σ w p Hld Hal Hr Hwx) as Hone.
  rewrite (ld_mappings _ _ _ _ _ Hld), length_app, length_fmap in Hone. specialize (Hone ltac:(lia)).
  destruct (Image.map_one_page _ _ _ _ _ _ _ p (w, length ds)) as [[w1 n1] [[]|[m|e]]]; [|done|].
  - destruct Hone as (f & σ1 & Hld1 & ->). specialize (IH _ _ _ Hld1). rewrite length_app in IH. cbn [length] in IH.
    rewrite Nat.add_1_r in IH. specialize (IH ltac:(lia)).
    destruct (try_each _ pages (w1, S (length ds))) as [[w2 n2] [[]|[m|e]]]; auto.
    destruct IH as (ds' & σ2 & H1 & H2 & H3). exists ds', σ2. rewrite H2, fmap_app, <- app_assoc. done.
  - destruct Hone as (σ1 & Hld1 & ->). eauto.
Qed.

(** Rolling back removes exactly the pages that were added. *)
Lemma roll_back_spec σ0 w0 ds σ w :
  loaded σ0 w0 ds σ w → ∃ w' σ', Image.roll_back dbg (length ds) w = (w', Ok ()) ∧ loaded σ0 w0 [] σ' w'.
Proof.
  revert σ w. induction ds as [|[p f] ds IH] using rev_ind; intros σ w Hld; [by exists w, σ|].
  rewrite length_app, Nat.add_1_r. cbn [Image.roll_back].
  pose proof (ld_mappings _ _ _ _ _ Hld) as Hum. rewrite fmap_app, app_assoc in Hum.
  destruct (unmap_last_spec dbg l σ w _ _ (ld_ok _ _ _ _ _ Hld) Hum) as (w1 & σ1 & -> & Hok1 & Hrem & Hum1 & Htab1 & Hlk1).
  cbn [mapping_of fst snd frame_address virtual_address] in *. apply (IH σ1 w1).
  destruct (ld_ok _ _ _ _ _ Hld) as [_ Hs]. destruct (ld_heap _ _ _ _ _ Hld) as (new & Htab & Hnew & Hheap).
  destruct (ld_pages _ _ _ _ _ Hld p f ltac:(apply elem_of_app; right; by left)) as (_ & Hf0 & Hl0).
  pose proof (so_nodup _ _ _ Hs) as Hnd. unfold owned in Hnd. rewrite Hum, Htab, !fmap_app in Hnd. cbn in Hnd.
  apply NoDup_app in Hnd as (_ & Hnd1 & Hnd2). apply NoDup_app in Hnd2 as (_ & Hnd2 & _).
  assert (f ∉ new) as Hfn by (intros Hn; apply (Hnd1 f); [apply elem_of_app; by right|]; apply elem_of_app; right; by left).
  assert (∀ p' f', (p', f') ∈ ds → f' ≠ f) as Hfd.
  { intros p' f' Hd ->. apply (Hnd2 f); [|by left]. apply elem_of_app. right. rewrite <- list_fmap_compose.
    apply list_elem_of_fmap. by exists (p', f). }
  assert (∀ g, g ≠ f → σ1 !! g = σ !! g) as Hother by (intros g Hg; by apply (removes_other f)).
  split.
  - done.
  - done.
  - exists new. rewrite Htab1. split; [done|]. split; [done|]. intros g Hg. destruct (decide (g = f)) as [->|Hgf].
    + rewrite decide_False by done. rewrite Hrem, decide_True by by left. done.
    + rewrite Hother by done. apply Hheap. rewrite fmap_app, elem_of_app. cbn. rewrite list_elem_of_singleton. tauto.
  - intros p' f' Hd. destruct (ld_pages _ _ _ _ _ Hld p' f' ltac:(apply elem_of_app; by left)) as (E1 & E2 & E3).
    rewrite Hother by (by eapply Hfd). done.
  - intros q. rewrite Hlk1, (ld_lookup _ _ _ _ _ Hld), find_snoc. cbn [fst snd].
    pose proof (so_pages _ _ _ Hs) as Hnv. rewrite Hum, !fmap_app in Hnv. apply NoDup_app in Hnv as (_ & Hnv & _).
    case_decide as Eq.
    + subst q. assert (find_first (λ d, bool_decide (page_vaddr d.1 = page_vaddr p)) ds = None) as ->; [|by rewrite Hl0].
      apply find_first_None. intros d Hd. apply bool_decide_eq_false. intros E. apply (Hnv (page_vaddr p)); [|by left].
      apply elem_of_app. right. rewrite <- list_fmap_compose. apply list_elem_of_fmap. by exists d.
    + rewrite bool_decide_eq_false_2 by congruence. by destruct (find_first _ ds).
Qed.

(** The pages of a plan can be mapped. *)
Lemma collected_pages_ok pages :
  Image.collect_unique_pages load_base segs = Ok pages → Forall page_ok pages.
Proof.
  intros Hc. destruct (collect_unique_pages_spec load_base file segs pages Hsegs Hc) as [[_ Hpg _] Hwx].
  apply Forall_forall. intros p Hp. assert (∃ pr, (page_vaddr p, pr) ∈ segs ≫= seg_contributions load_base) as (pr & Hin).
  { apply Hpg. by apply list_elem_of_fmap_2. }
  apply list_elem_of_bind in Hin as (s & Hin & Hs). rewrite Forall_forall in Hsegs. specialize (Hsegs s Hs).
  apply (elem_of_seg_contributions load_base file) in Hin as [(Hal & Hm & H1 & H2) _]; [|done]. destruct Hsegs as [K1 K2 K3 K4].
  split; [done|]. split; [|by apply Hwx]. apply aligned_spec in Hal as [k Ek]. unfold seg_va in *. rewrite Ek in *. lia.
Qed.

Lemma map_embedded_segments_spec σ w :
  world_ok dbg l σ w →
  (∀ pages, Image.collect_unique_pages load_base segs = Ok pages →
            (length (user_mappings (w_space w)) + length pages ≤ max_mappings)%nat) →
  match Image.map_embedded_segments dbg max_tables max_mappings exclusion load_base file segs w with
  | (w', Ok n) => ∃ ds σ', Image.collect_unique_pages load_base segs = Ok ds.*1 ∧ loaded σ w ds σ' w' ∧ n = length ds
  | (w', Err (Raise _)) => ∃ σ', loaded σ w [] σ' w'
  | (_, Err (Halt _)) => False
  end.
Proof.
  intros Hok Hroom. unfold Image.map_embedded_segments.
  destruct (Image.collect_unique_pages load_base segs) as [pages|e] eqn:Ec; [|exists σ; by apply loaded_nil].
  pose proof (map_unique_pages_spec σ w pages [] σ w (loaded_nil σ w Hok) (collected_pages_ok pages Ec)) as Hm.
  cbn [length] in Hm. rewrite Nat.add_0_r in Hm. specialize (Hm (Hroom pages eq_refl)).
  destruct (Image.map_unique_pages _ _ _ _ _ _ _ pages (w, 0%nat)) as [[w1 n1] [[]|[m|e]]]; [|done|].
  - destruct Hm as (ds & σ1 & Hld & Hds & ->). exists ds, σ1. rewrite Hds. done.
  - destruct Hm as (ds & σ1 & Hld & ->). destruct (roll_back_spec σ w ds σ1 w1 Hld) as (w2 & σ2 & -> & Hld2). eauto.
Qed.
End mapping.

(** ** Stacks *)

Section stack.
Context `{NodeLayout} {T : Type} `{PageTables T} (dbg : bool).
Context (max_tables max_mappings : nat) (exclusion : list VaRange) (l : list MemoryRegion).
Context (stack_base : Z) (page_count : nat).
Hypothesis Hbase : aligned stack_base ∧ 0 ≤ stack_base ∧ stack_base + Z.of_nat page_count * 4096 ≤ 2 ^ 47.

Implicit Types (w : World T) (σ : Heap).

(** Stack pages are pages of an image without segments: zero, writable, not executable. *)
Definition stack_page (i : nat) : PagePlan := MkPagePlan (stack_base + Z.of_nat i * 4096) (MkPerms true true false).

#[local] Abbreviation loaded := (loaded dbg l 0 [] []).

Lemma map_stack_page_spec σ0 w0 ds σ w i :
  loaded σ0 w0 ds σ w → (i < page_count)%nat → (length (user_mappings (w_space w)) < max_mappings)%nat →
  match Image.map_stack_page dbg max_tables max_mappings exclusion stack_base i (w, length ds) with
  | ((w', n), Ok _) => ∃ f σ', loaded σ0 w0 (ds ++ [(stack_page i, f)]) σ' w' ∧ n = S (length ds)
  | ((w', n), Err (Raise _)) => ∃ σ', loaded σ0 w0 [] σ' w'
  | (_, Err (Halt _)) => False
  end.
Proof.
  intros Hld Hi Hroom. destruct Hbase as (Hb1 & Hb2 & Hb3). unfold Image.map_stack_page.
  assert (aligned (page_vaddr (stack_page i))) as Hal.
  { apply aligned_spec in Hb1 as [k ->]. apply aligned_spec. exists (k + Z.of_nat i). cbn. lia. }
  assert (0 ≤ page_vaddr (stack_page i) < 2 ^ 47) as Hr by (cbn; lia).
  pose proof (fill_fresh dbg l 0 [] [] ltac:(constructor) σ w (stack_page i) (ld_ok _ _ _ _ _ _ _ _ _ _ Hld) Hal Hr) as Hff.
  destruct (Space.allocate_page dbg w) as [w1 [[f|]|]]; [| |done].
  2: { destruct Hff as (Hok1 & Es & Et). assert (loaded σ0 w0 ds σ w1) as Hld1.
       { destruct Hld. split; rewrite ?Es, ?Et; auto. }
       destruct (roll_back_spec dbg l 0 [] [] σ0 w0 ds σ w1 Hld1) as (w2 & σ2 & -> & Hld2). eauto. }
  cbv zeta in Hff. destruct Hff as (Hf & σ2 & mem & Efill & Hok2 & Hf2 & Hother & Es & Et). injection Efill as <-.
  unfold PAGE_SIZE. rewrite wrap_small by (unfold in_width; lia). rewrite (proj2 (checked_add_Some 64 stack_base (Z.of_nat i * 4096) _)) by (split; [done|lia]).
  pose proof (map_fresh_spec dbg max_tables max_mappings exclusion l 0 [] [] σ0 w0 ds σ w (stack_page i) f σ2 _
    Hld Hal Hr Hroom Hf Hok2 Hf2 Hother Es Et) as Hm.
  change (Image.set_mem (w_mem (Image.zero_page f w1)) (Image.zero_page f w1)) with (Image.zero_page f w1) in Hm.
  change (page_vaddr (stack_page i)) with (stack_base + Z.of_nat i * 4096) in Hm. change (flags_of (stack_page i)) with Image.STACK_FLAGS in Hm.
  destruct (Space.map_process_page _ _ _ _ _ _ _ _) as [w3 [[]|[m|e]]]; [|done|].
  - destruct Hm as (σ' & Hm). eauto.
  - destruct Hm as (w4 & σ4 & -> & Hld4).
    destruct (roll_back_spec dbg l 0 [] [] σ0 w0 ds σ4 w4 Hld4) as (w5 & σ5 & -> & Hld5). eauto.
Qed.

(** The whole stack, or nothing. *)
Lemma map_user_stack_pages_spec σ w :
  world_ok dbg l σ w → (length (user_mappings (w_space w)) + page_count ≤ max_mappings)%nat →
  match Image.map_user_stack_pages dbg max_tables max_mappings exclusion stack_base page_count w with
  | (w', Ok n) => ∃ ds σ', loaded σ w ds σ' w' ∧ ds.*1 = stack_page <$> seq 0 page_count ∧ n = page_count
  | (w', Err (Raise _)) => ∃ σ', loaded σ w [] σ' w'
  | (_, Err (Halt _)) => False
  end.
Proof.
  intros Hok Hroom. unfold Image.map_user_stack_pages.
  assert (∀ n i ds σ1 w1, (i + n = page_count)%nat → loaded σ w ds σ1 w1 → ds.*1 = stack_page <$> seq 0 i →
    match try_each (Image.map_stack_page dbg max_tables max_mappings exclusion stack_base) (seq i n) (w1, length ds) with
    | ((w', m), Ok _) => ∃ ds' σ', loaded σ w ds' σ' w' ∧ ds'.*1 = stack_page <$> seq 0 page_count ∧ m = page_count
    | ((w', _), Err (Raise _)) => ∃ σ', loaded σ w [] σ' w'
    | (_, Err (Halt _)) => False
    end) as Hloop.
  { intros n. induction n as [|n IH]; intros i ds σ1 w1 Hn Hld Hds; cbn [seq try_each].
    - exists ds, σ1. replace page_count with i by lia. split_and!; [done|done|].
      by rewrite <- (length_fmap fst ds), Hds, length_fmap, length_seq.
    - pose proof (map_stack_page_spec σ w ds σ1 w1 i Hld ltac:(lia)) as Hone.
      assert (length ds = i) as El by by rewrite <- (length_fmap fst ds), Hds, length_fmap, length_seq.
      rewrite (ld_mappings _ _ _ _ _ _ _ _ _ _ Hld), length_app, length_fmap in Hone. specialize (Hone ltac:(lia)).
      destruct (Image.map_stack_page _ _ _ _ _ _ _) as [[w2 m] [[]|[]]]; [|done|done].
      destruct Hone as (f & σ2 & Hld2 & ->). specialize (IH (S i) _ _ _ ltac:(lia) Hld2).
      rewrite length_app, Nat.add_1_r in IH. apply IH. rewrite fmap_app, Hds, seq_S, fmap_app. done. }
  specialize (Hloop page_count O [] σ w ltac:(lia) (loaded_nil dbg l 0 [] [] σ w Hok) eq_refl). cbn [length] in Hloop.
  destruct (try_each _ _ _) as [[w' m] [[]|[]]]; [|done|done]. destruct Hloop as (ds & σ' & H1 & H2 & ->). eauto.
Qed.
End stack.
