(* ===== verification/ImagePlan.v ===== *)
(** From a load plan to a loaded image: [map_load_plan_segments] of
    kernel/src/mm/image_loader.rs composed with [parse_load_plan] of elf/src/plan.rs, on
    top of the address space and the frame allocator. *)

From Stdlib Require Import ZArith Lia String.
From stdpp Require Import base list gmap sets tactics decidable numbers sorting.
From S2P Require Import Prelude Bytes MemoryMap FrameAllocator FrameSpec FrameRefine AddressSpace.
From S2P Require Import Elf ElfPlan ElfPages ImageLoader ImageSpec ImageMap.

Local Open Scope Z_scope.

(** ** What a plan describes *)

(** The segment has an address on the page. *)
Definition on_page (s : LoadSegment) (q : Z) : Prop := ∃ a, ElfPlan.covers s a ∧ q ≤ a < q + PAGE_SIZE.

(** The byte a plan puts at an address: the file byte of the segment that covers it, zero
    in the segment's tail and between segments. *)
Definition plan_byte (bytes : list Z) (segs : list LoadSegment) (a : Z) : Z :=
  match find_first (λ s, bool_decide (vaddr s ≤ a < vaddr s + memsz s)) segs with
  | Some s => if decide (a < vaddr s + filesz s) then default 0 (bytes !! Z.to_nat (file_offset s + (a - vaddr s))) else 0
  | None => 0
  end.

(** Page [q] of the plan, mapped to a frame that was free before. *)
Record page_loaded (bytes : list Z) (segs : list LoadSegment) (σ σ' : Heap) (q f : Z) (flags : PageFlags) : Prop := {
  pl_fresh : σ !! f = None;
  pl_user : pf_present flags = true ∧ pf_user flags = true;
  pl_write : pf_writable flags = true ↔ ∃ s, s ∈ segs ∧ on_page s q ∧ perm_write (perms s) = true;
  pl_execute : pf_no_execute flags = false ↔ ∃ s, s ∈ segs ∧ on_page s q ∧ perm_execute (perms s) = true;
  pl_wx : pf_writable flags = true → pf_no_execute flags = true;
  pl_bytes : ∃ bs, σ' !! f = Some bs ∧ ∀ a, q ≤ a < q + PAGE_SIZE → bs !! Z.to_nat (a - q) = Some (plan_byte bytes segs a)
}.

(** ** Embedding *)

Definition embedded (base : Z) (s : LoadSegment) : EmbeddedSegment :=
  MkEmbedded (vaddr s - base) (filesz s) (memsz s) (file_offset s) (Image.perm_flags (perms s)).

Lemma permissions_embedded base s : permissions (embedded base s) = perms s.
Proof. unfold permissions. cbn [embedded em_flags]. by destruct (perms s) as [[] [] []]. Qed.

Lemma seg_va_embedded base s : seg_va base (embedded base s) = vaddr s.
Proof. unfold seg_va. cbn. lia. Qed.

Lemma image_base_spec plan :
  match Plan.image_base plan with
  | None => Plan.iter_segments plan = []
  | Some base => (∀ s, s ∈ Plan.iter_segments plan → base ≤ vaddr s) ∧ ∃ s, s ∈ Plan.iter_segments plan ∧ base = vaddr s
  end.
Proof.
  unfold Plan.image_base. destruct (Plan.iter_segments plan) as [|s segs]; [done|].
  induction segs as [|x segs [IH1 (y & Hy & IH2)]] using rev_ind.
  - split; [by intros s' ->%list_elem_of_singleton|]. exists s. split; [by left|done].
  - rewrite foldl_snoc. set (m := foldl _ _ _) in *. split.
    + intros s'. rewrite app_comm_cons, elem_of_app, list_elem_of_singleton. intros [Hs| ->]; [specialize (IH1 s' Hs)|]; lia.
    + rewrite app_comm_cons. setoid_rewrite elem_of_app. destruct (decide (m ≤ vaddr x)).
      * exists y. split; [by left|lia].
      * exists x. split; [right; by left|lia].
Qed.

Lemma embed_all_spec base segs :
  0 ≤ base → (∀ s, s ∈ segs → base ≤ vaddr s) → Image.embed_all base segs = Ok (embedded base <$> segs).
Proof.
  intros Hb Hs. unfold Image.embed_all. set (step := λ s acc, _).
  assert (∀ acc, try_fold step segs acc = Ok (acc ++ (embedded base <$> segs))) as Hall; [|by rewrite Hall].
  induction segs as [|s segs IH]; intros acc; cbn [try_fold fmap list_fmap]; [by rewrite app_nil_r|].
  unfold step at 1, Image.embed. rewrite (proj2 (checked_sub_Some _ _ (vaddr s - base))).
  - cbn [ok_or]. rewrite IH by (intros; apply Hs; by right). by rewrite <- app_assoc.
  - split; [done|]. specialize (Hs s ltac:(by left)). lia.
Qed.

(** ** The embedded segments describe the plan *)

Lemma image_byte_outside bytes policy base rest a acc :
  (∀ s, s ∈ rest → ¬ ElfPlan.covers s a) → Forall (segment_ok (Z.of_nat (length bytes)) policy) rest →
  image_byte base bytes (embedded base <$> rest) a acc = acc.
Proof.
  intros Hn Hr. revert acc. induction Hr as [|s rest Hs Hr IH]; intros acc; [done|]. cbn [fmap list_fmap image_byte].
  unfold file_byte. rewrite seg_va_embedded, decide_False; [by apply IH; set_solver|].
  intros [_ H]. apply (Hn s); [by left|]. unfold ElfPlan.covers. cbn in H. destruct Hs. lia.
Qed.

(** Segments that do not overlap: the byte of the image is the byte of the plan. *)
Lemma image_byte_plan bytes policy base segs a :
  Forall (segment_ok (Z.of_nat (length bytes)) policy) segs → ForallOrdPairs apart_from segs →
  image_byte base bytes (embedded base <$> segs) a 0 = plan_byte bytes segs a.
Proof.
  intros Hok Hap. unfold plan_byte. revert Hok. induction Hap as [|s rest Hs Hr IH]; intros Hok; [done|].
  apply Forall_cons in Hok as [Hok1 Hok]. cbn [fmap list_fmap image_byte find_first]. unfold file_byte at 1.
  rewrite seg_va_embedded. cbn [em_memsz em_filesz em_file_offset embedded]. destruct Hok1 as [[T1 T2 T3 T4 T5] H1 H2 _ _ _ _ _].
  unfold in_width in *. case_bool_decide as Hc.
  - rewrite (image_byte_outside bytes policy); [|..|done].
    + by repeat case_decide; try lia.
    + intros s' Hs' Hc'. rewrite Forall_forall in Hs. by apply (Hs s' Hs' a).
  - rewrite decide_False by lia. cbn. by apply IH.
Qed.
Section plan.
Context (bytes : list Z) (policy : LoadPlanPolicy) (segs : list LoadSegment) (base : Z).
Hypothesis Hlen : Z.of_nat (length bytes) < 2 ^ 64.
Hypothesis Hsegs : Forall (segment_ok (Z.of_nat (length bytes)) policy) segs.
Hypothesis Hbase : 0 ≤ base ∧ ∀ s, s ∈ segs → base ≤ vaddr s.

Lemma embedded_ok : Forall (seg_ok base bytes) (embedded base <$> segs).
Proof.
  apply Forall_fmap, Forall_forall. intros s Hs. rewrite Forall_forall in Hsegs. destruct (Hsegs s Hs) as [[T1 T2 T3 T4 T5] H1 H2 _ H3 _ _ _].
  destruct Hbase as [Hb1 Hb2]. specialize (Hb2 s Hs). unfold in_width in *.
  split; rewrite ?seg_va_embedded; cbn; lia.
Qed.

Lemma touches_embedded s q : touches base (embedded base s) q ↔ aligned q ∧ on_page s q.
Proof.
  unfold touches, on_page, ElfPlan.covers, PAGE_SIZE. rewrite seg_va_embedded. cbn [em_memsz embedded]. split.
  - intros (Hal & H1 & H2 & H3). split; [done|]. exists (Z.max q (vaddr s)). lia.
  - intros (Hal & a & H1 & H2). split; [done|]. lia.
Qed.

Lemma contributions_plan q pr :
  (q, pr) ∈ (embedded base <$> segs) ≫= seg_contributions base ↔ aligned q ∧ ∃ s, s ∈ segs ∧ on_page s q ∧ pr = perms s.
Proof.
  pose proof embedded_ok as Hok. rewrite Forall_fmap, Forall_forall in Hok. rewrite list_elem_of_bind. split.
  - intros (e & He & (s & -> & Hs)%list_elem_of_fmap). apply (elem_of_seg_contributions base bytes) in He as [He ->]; [|by apply Hok].
    apply touches_embedded in He as [Hal Hp]. rewrite permissions_embedded. eauto 6.
  - intros (Hal & s & Hs & Hp & ->). exists (embedded base s). split; [|by apply list_elem_of_fmap_2].
    apply (elem_of_seg_contributions base bytes); [by apply Hok|]. by rewrite permissions_embedded, touches_embedded.
Qed.

Lemma contributions_exist q (b : SegmentPermissions → bool) :
  aligned q →
  (∃ pr, (q, pr) ∈ (embedded base <$> segs) ≫= seg_contributions base ∧ b pr = true) ↔
  ∃ s, s ∈ segs ∧ on_page s q ∧ b (perms s) = true.
Proof.
  intros Hal. setoid_rewrite contributions_plan. split.
  - intros (pr & (_ & s & Hs & Hp & ->) & Hb). eauto.
  - intros (s & Hs & Hp & Hb). eauto 8.
Qed.
End plan.

(** ** Loading *)

Section loading.
Context `{NodeLayout} {T : Type} `{PageTables T} (dbg : bool).
Context (max_tables max_mappings : nat) (exclusion : list VaRange) (l : list MemoryRegion).

Implicit Types (w : World T) (σ : Heap).

(** Nothing that was held changes while pages are loaded. *)
Lemma loaded_keeps base bytes segs σ0 w0 ds σ w g bs :
  loaded dbg l base bytes segs σ0 w0 ds σ w → σ0 !! g = Some bs → σ !! g = Some bs.
Proof.
  intros [_ _ (new & _ & Hn & Hh) Hp _] Hg. specialize (Hh g). rewrite decide_False in Hh.
  - rewrite Hh; [done|]. intros ([p f] & -> & Hd)%list_elem_of_fmap. destruct (Hp p f Hd) as (_ & E & _). cbn in Hg. congruence.
  - intros Hin. rewrite (Hn g Hin) in Hg. done.
Qed.

(** The plan's distinct pages are what [total_mapped_pages] counts. *)
Lemma plan_page_count bytes p plan base pages :
  Forall is_byte bytes → Z.of_nat (length bytes) < 2 ^ 64 → parse_load_plan bytes p = Ok plan →
  Forall (segment_ok (Z.of_nat (length bytes)) p) (Plan.iter_segments plan) →
  0 ≤ base ∧ (∀ s, s ∈ Plan.iter_segments plan → base ≤ vaddr s) →
  summary ((embedded base <$> Plan.iter_segments plan) ≫= seg_contributions base) pages →
  Plan.total_mapped_pages plan PAGE_SIZE = Ok (Z.of_nat (length pages)).
Proof.
  intros Hb Hlen Hparse Hok Hbase [Hnd Hpg _].
  destruct (total_mapped_pages_spec bytes p plan 12 Hb Hlen Hparse ltac:(lia)) as (X & Hc & HX).
  change (2 ^ 12) with PAGE_SIZE in *. rewrite Hc. do 2 f_equal.
  assert (∀ q, q ∈ page_vaddr <$> pages ↔ aligned q ∧ ∃ s, s ∈ Plan.iter_segments plan ∧ on_page s q) as Hq.
  { intros q. rewrite Hpg. setoid_rewrite (contributions_plan bytes p _ base Hlen Hok Hbase). naive_solver. }
  assert (X = list_to_set ((λ q, q / PAGE_SIZE) <$> (page_vaddr <$> pages))) as ->.
  { apply set_eq. intros x. rewrite HX, elem_of_list_to_set, list_elem_of_fmap. setoid_rewrite Hq. split.
    - intros (s & a & Hs & Ha & <-). exists (PAGE_SIZE * (a / PAGE_SIZE)). unfold PAGE_SIZE.
      split; [by rewrite Z.mul_comm, Z.div_mul|]. split; [apply aligned_page|]. exists s. split; [done|].
      exists a. split; [done|]. unfold PAGE_SIZE. pose proof (Z.mul_div_le a 4096). pose proof (Z.mul_succ_div_gt a 4096). lia.
    - intros (q & -> & [k ->]%aligned_spec & s & Hs & a & Ha & Hr). exists s, a. split_and!; [done|done|]. unfold PAGE_SIZE in *.
      rewrite Z.div_mul by lia. symmetry. apply (Z.div_unique a 4096 k (a - k * 4096)); lia. }
  rewrite size_list_to_set, !length_fmap; [done|]. apply NoDup_fmap_2_strong; [|done].
  intros x y [[k ->]%aligned_spec _]%Hq [[k' ->]%aligned_spec _]%Hq. unfold PAGE_SIZE. rewrite !Z.div_mul by lia. by intros ->.
Qed.

(** What a successful load leaves behind. *)
Record image_loaded (bytes : list Z) (segs : list LoadSegment) (σ : Heap) w (σ' : Heap) w' : Prop := {
  il_ok : world_ok dbg l σ' w';
  il_pages : ∀ q, aligned q → (∃ s, s ∈ segs ∧ on_page s q) →
    pt_lookup (w_pt w) q = None ∧ ∃ f flags, pt_lookup (w_pt w') q = Some (f, flags) ∧ page_loaded bytes segs σ σ' q f flags;
  il_rest : ∀ q, ¬ (aligned q ∧ ∃ s, s ∈ segs ∧ on_page s q) → pt_lookup (w_pt w') q = pt_lookup (w_pt w) q;
  il_kept : ∀ g bs, σ !! g = Some bs → σ' !! g = Some bs
}.

(** A failed load: no translation and no held frame changed; only page-table frames were
    added. *)
Record load_undone (σ : Heap) w (σ' : Heap) w' : Prop := {
  lu_ok : world_ok dbg l σ' w';
  lu_mappings : user_mappings (w_space w') = user_mappings (w_space w);
  lu_lookup : ∀ q, pt_lookup (w_pt w') q = pt_lookup (w_pt w) q;
  lu_kept : ∀ g bs, σ !! g = Some bs → σ' !! g = Some bs;
  lu_taken : ∀ g, is_Some (σ' !! g) → is_Some (σ !! g) ∨ g ∈ page_table_frames (w_space w')
}.

Lemma loaded_undone base bytes segs σ w σ' w' : loaded dbg l base bytes segs σ w [] σ' w' → load_undone σ w σ' w'.
Proof.
  intros Hld. split.
  - apply Hld.
  - by rewrite (ld_mappings _ _ _ _ _ _ _ _ _ _ Hld), app_nil_r.
  - apply (ld_lookup _ _ _ _ _ _ _ _ _ _ Hld).
  - intros g bs. eapply loaded_keeps, Hld.
  - intros g Hg. destruct (ld_heap _ _ _ _ _ _ _ _ _ _ Hld) as (new & -> & _ & Hh). specialize (Hh g ltac:(by intros ?%elem_of_nil)).
    case_decide; [right; apply elem_of_app; by right|]. left. by rewrite <- Hh.
Qed.

Section image.
Context (bytes : list Z) (policy : LoadPlanPolicy) (segs : list LoadSegment) (base : Z).
Hypothesis Hlen : Z.of_nat (length bytes) < 2 ^ 64.
Hypothesis Hsegs : Forall (segment_ok (Z.of_nat (length bytes)) policy) segs.
Hypothesis Hapart : ForallOrdPairs apart_from segs.
Hypothesis Hbase : 0 ≤ base ∧ ∀ s, s ∈ segs → base ≤ vaddr s.

#[local] Abbreviation cs := ((embedded base <$> segs) ≫= seg_contributions base).

Lemma page_loaded_intro σ σ' p f :
  aligned (page_vaddr p) → perms_union cs (page_vaddr p) (page_perms p) → Perms.is_write_execute (page_perms p) = false →
  σ !! f = None → σ' !! f = Some (bytes_of base bytes (embedded base <$> segs) p) →
  page_loaded bytes segs σ σ' (page_vaddr p) f (flags_of p).
Proof.
  intros Hal [_ Hw Hx] Hwx Hfree Hbs. rewrite (contributions_exist bytes policy) in Hw, Hx by done. split; cbn [flags_of pf_present pf_user pf_writable pf_no_execute].
  - done.
  - done.
  - done.
  - by rewrite negb_false_iff.
  - intros E. unfold Perms.is_write_execute in Hwx. rewrite E in Hwx. by rewrite negb_true_iff.
  - eexists. split; [exact Hbs|]. intros a Ha. unfold PAGE_SIZE in Ha. unfold bytes_of, page_bytes.
    rewrite render_lookup by lia. rewrite Z2Nat.id by lia. f_equal. replace (page_vaddr p + (a - page_vaddr p)) with a by lia.
    by apply (image_byte_plan bytes policy).
Qed.

Lemma image_loaded_intro σ w ds σ' w' :
  Image.collect_unique_pages base (embedded base <$> segs) = Ok ds.*1 →
  loaded dbg l base bytes (embedded base <$> segs) σ w ds σ' w' → image_loaded bytes segs σ w σ' w'.
Proof.
  intros Hc Hld. pose proof (embedded_ok bytes policy segs base Hlen Hsegs Hbase) as Hok.
  destruct (collect_unique_pages_spec base bytes _ _ Hok Hc) as [[Hnd Hpg Hpm] Hwx].
  assert (∀ q, q ∈ page_vaddr <$> ds.*1 ↔ aligned q ∧ ∃ s, s ∈ segs ∧ on_page s q) as Hq.
  { intros q. rewrite Hpg. setoid_rewrite (contributions_plan bytes policy _ base Hlen Hsegs Hbase). naive_solver. }
  split.
  - apply Hld.
  - intros q Hal Hs. pose proof (proj2 (Hq q) (conj Hal Hs)) as Hin. rewrite <- list_fmap_compose in Hin.
    apply list_elem_of_fmap in Hin as (d0 & Eq & Hd0). rewrite (ld_lookup _ _ _ _ _ _ _ _ _ _ Hld).
    destruct (find_first _ ds) as [[p f]|] eqn:Ef.
    + apply find_first_Some in Ef as [Hd Ep]. apply bool_decide_eq_true in Ep. cbn [fst snd] in *.
      destruct (ld_pages _ _ _ _ _ _ _ _ _ _ Hld p f Hd) as (E1 & E2 & E3). rewrite <- Ep. split; [done|].
      exists f, (flags_of p). split; [done|]. assert (p ∈ ds.*1) as Hp by (apply list_elem_of_fmap; by exists (p, f)).
      apply page_loaded_intro; auto. by rewrite Ep.
    + rewrite find_first_None in Ef. specialize (Ef d0 Hd0). by apply bool_decide_eq_false in Ef.
  - intros q Hn. rewrite (ld_lookup _ _ _ _ _ _ _ _ _ _ Hld). destruct (find_first _ ds) as [d|] eqn:Ef; [|done]. exfalso.
    apply find_first_Some in Ef as [Hd Ep]. apply bool_decide_eq_true in Ep. apply Hn, Hq. rewrite <- list_fmap_compose, <- Ep.
    by apply list_elem_of_fmap; exists d.
  - intros g bs. eapply loaded_keeps, Hld.
Qed.
End image.

(** [map_load_plan_segments] on an accepted plan: the plan's pages are loaded, or nothing. *)
Lemma map_load_plan_spec bytes p plan σ w :
  Forall is_byte bytes → Z.of_nat (length bytes) < 2 ^ 64 → parse_load_plan bytes p = Ok plan → world_ok dbg l σ w →
  (∀ n, Plan.total_mapped_pages plan PAGE_SIZE = Ok n →
        Z.of_nat (length (user_mappings (w_space w))) + n ≤ Z.of_nat max_mappings) →
  ∃ base es, match Image.map_load_plan_segments dbg max_tables max_mappings exclusion bytes plan w with
  | (w', Ok n) => ∃ ds σ', loaded dbg l base bytes es σ w ds σ' w' ∧ n = length ds
      ∧ Plan.total_mapped_pages plan PAGE_SIZE = Ok (Z.of_nat n) ∧ image_loaded bytes (Plan.iter_segments plan) σ w σ' w'
  | (w', Err (Raise _)) => ∃ σ', loaded dbg l base bytes es σ w [] σ' w'
  | (_, Err (Halt _)) => False
  end.
Proof.
  intros Hb Hlen Hparse Hok Hroom.
  destruct (parse_load_plan_Ok bytes p plan Hb Hlen Hparse) as (h & _ & [_ _ _ _ Hsegs Hapart _] & _ & _ & E).
  rewrite <- E in *. unfold Image.map_load_plan_segments. pose proof (image_base_spec plan) as Hbase.
  destruct (Plan.image_base plan) as [base|]; [|exists 0, [], σ; apply loaded_nil, Hok].
  destruct Hbase as [Hmin (s0 & Hs0 & Eb)]. assert (0 ≤ base) as Hb0.
  { rewrite Forall_forall in Hsegs. destruct (Hsegs s0 Hs0) as [[[? ?] _ _ _ _] _ _ _ _ _ _ _]. lia. }
  exists base, (embedded base <$> Plan.iter_segments plan).
  rewrite embed_all_spec by done. set (es := embedded base <$> Plan.iter_segments plan).
  pose proof (embedded_ok bytes p _ base Hlen Hsegs (conj Hb0 Hmin)) as Hes.
  assert (∀ pages, Image.collect_unique_pages base es = Ok pages → Plan.total_mapped_pages plan PAGE_SIZE = Ok (Z.of_nat (length pages))) as Hcnt.
  { intros pages Hc. destruct (collect_unique_pages_spec base bytes _ _ Hes Hc) as [Hsum _].
    by eapply (plan_page_count bytes p plan base). }
  pose proof (map_embedded_segments_spec dbg max_tables max_mappings exclusion l base bytes es Hes σ w Hok) as Hm.
  specialize (Hm ltac:(intros pages Hc; specialize (Hroom _ (Hcnt pages Hc)); lia)).
  destruct (Image.map_embedded_segments _ _ _ _ _ _ _ w) as [w' [n|[m|e]]]; [|done|done].
  destruct Hm as (ds & σ' & Hc & Hld & ->). exists ds, σ'. split_and!; [done|done|by rewrite (Hcnt _ Hc), length_fmap|].
  by eapply image_loaded_intro.
Qed.

(** C12: Loading an image is exact, and all or nothing. For a plan that [parse_load_plan] accepted,
    in a well-formed address space whose mapping table has room for the pages
    [total_mapped_pages] counts, [map_load_plan_segments] never stops the kernel. When it
    succeeds it returns exactly that count; every page of the plan, unmapped before, is
    mapped for the user to a fresh frame, writable or executable iff a segment on the page
    is, never both, and each of its 4096 bytes is the file byte of the segment that covers
    the address, or zero. No other page changes. When it fails no page changes at all and
    the only frames kept are page tables of the address space. Either way every frame that
    was held before keeps its contents and the address space is well formed. *)
Theorem image_loaded_exactly bytes p plan σ w :
  Forall is_byte bytes → Z.of_nat (length bytes) < 2 ^ 64 → parse_load_plan bytes p = Ok plan → world_ok dbg l σ w →
  (∀ n, Plan.total_mapped_pages plan PAGE_SIZE = Ok n →
        Z.of_nat (length (user_mappings (w_space w))) + n ≤ Z.of_nat max_mappings) →
  match Image.map_load_plan_segments dbg max_tables max_mappings exclusion bytes plan w with
  | (w', Ok n) => ∃ σ', Plan.total_mapped_pages plan PAGE_SIZE = Ok (Z.of_nat n)
      ∧ length (user_mappings (w_space w')) = (length (user_mappings (w_space w)) + n)%nat
      ∧ image_loaded bytes (Plan.iter_segments plan) σ w σ' w'
  | (w', Err (Raise _)) => ∃ σ', load_undone σ w σ' w'
  | (_, Err (Halt _)) => False
  end.
Proof.
  intros Hb Hlen Hparse Hok Hroom. destruct (map_load_plan_spec bytes p plan σ w Hb Hlen Hparse Hok Hroom) as (base & es & Hm).
  destruct (Image.map_load_plan_segments _ _ _ _ _ _ w) as [w' [n|[m|e]]]; [|done|].
  - destruct Hm as (ds & σ' & Hld & -> & Hn & Hi). exists σ'. split_and!; [done| |done].
    by rewrite (ld_mappings _ _ _ _ _ _ _ _ _ _ Hld), length_app, length_fmap.
  - destruct Hm as (σ' & Hld). exists σ'. by eapply loaded_undone.
Qed.
End loading.

(** ** An image on a small machine *)

Module SmallSpace.
(** The address space of a process that was just created: its root table, the first frame
    of [SmallAllocator], and nothing mapped. *)
Definition fresh : World SoftTables :=
  match Alloc.allocate_page false ∅ SmallAllocator.allocator with
  | Ok (a, Some f) => MkWorld ∅ a (MkSpace f [f] []) (MkSoft ∅ [])
  | _ => MkWorld ∅ SmallAllocator.allocator (MkSpace 0 [] []) (MkSoft ∅ [])
  end.

Lemma root : page_table_frames (w_space fresh) = [0x1000].
Proof. by vm_compute. Qed.

Lemma fresh_ok : ∃ σ, adds [0x1000] ∅ σ ∧ world_ok false (usable_regions SmallAllocator.allocator) σ fresh.
Proof.
  pose proof (serve_allocate_page false _ ∅ _ _ (SmallAllocator.ready false)) as Hs. cbn [serve] in Hs.
  assert (result_map snd (Alloc.allocate_page false ∅ SmallAllocator.allocator) = Ok (Some 0x1000)) as Er by by vm_compute.
  unfold fresh. destruct (Alloc.allocate_page false ∅ SmallAllocator.allocator) as [[a r]|e]; [|done].
  cbn in Er. injection Er as ->. cbn [fst snd] in Hs. destruct Hs as (σ & Hs & Hi). inversion Hs as [? ? _ Ha| | | | | |]; subst.
  exists σ. split; [done|]. split; [done|]. cbn. split; cbn; try done.
  - apply NoDup_singleton.
  - intros g ->%list_elem_of_singleton. specialize (Ha 0x1000). by rewrite decide_True in Ha by by left.
  - constructor.
  - by intros m ?%elem_of_nil.
  - by intros m ?%elem_of_nil.
Qed.
End SmallSpace.

(** The program of [Hello] is loaded into the fresh address space: three pages and their
    tables. *)
Lemma image_loaded_exactly_witness :
  ∃ σ w' σ', Image.map_load_plan_segments false 32 32 [] Hello.file Hello.plan SmallSpace.fresh = (w', Ok 3%nat)
    ∧ image_loaded false (usable_regions SmallAllocator.allocator) Hello.file (Plan.iter_segments Hello.plan) σ SmallSpace.fresh σ' w'.
Proof.
  destruct SmallSpace.fresh_ok as (σ & _ & Hok). exists σ.
  pose proof (image_loaded_exactly false 32 32 [] _ Hello.file _ Hello.plan σ SmallSpace.fresh Hello.file_bytes Hello.file_len Hello.parsed Hok) as Hm.
  assert (snd (Image.map_load_plan_segments false 32 32 [] Hello.file Hello.plan SmallSpace.fresh) = Ok 3%nat) as E by (vm_compute; reflexivity).
  assert (Plan.total_mapped_pages Hello.plan PAGE_SIZE = Ok 3) as Ec by (vm_compute; reflexivity).
  destruct (Image.map_load_plan_segments _ _ _ _ _ _ _) as [w' r]. cbn in E. subst r. exists w'.
  destruct Hm as (σ' & _ & _ & Hi); [rewrite Ec; intros n [= <-]; by vm_compute|]. exists σ'. by split.
Defined.
