(* ===== verification/SpaceLife.v ===== *)
(** The life of an address space: whatever image, stack and unmap requests it served,
    tearing it down leaves the frame allocator exactly as if it had never existed.

    The requests may fail at any point. A page that cannot be recorded because the mapping
    table is full stays in the page tables although its frame is freed; so this file follows
    who holds each frame, with an invariant weaker than [space_ok], in which every page user
    code reaches is recorded. *)

From Stdlib Require Import ZArith Lia String.
From stdpp Require Import base list gmap sets tactics decidable numbers sorting relations.
From S2P Require Import Prelude Bytes MemoryMap FrameAllocator FrameSpec FrameRefine AddressSpace.
From S2P Require Import Elf ElfPlan ElfPages ImageLoader ImageSpec ImageMap ImagePlan.

Local Open Scope Z_scope.

Section life.
Context `{NodeLayout} {T : Type} `{PageTables T} (dbg : bool).
Context (max_tables max_mappings : nat) (exclusion : list VaRange) (l : list MemoryRegion).

Implicit Types (w : World T) (σ : Heap).

(** * Accounting for frames *)

(** The heap is [σ] plus the frames of the address space and the frames [hand] that the
    running operation has in hand, all distinct and free in [σ]; every recorded mapping is in
    the page tables, at a page of its own. *)
Record accounts (σ : Heap) (hand : list Z) (σ' : Heap) w : Prop := {
  ac_impl : implements dbg l σ' (w_mem w) (w_alloc w);
  ac_nodup : NoDup (hand ++ owned (w_space w));
  ac_taken : ∀ g, g ∈ hand ++ owned (w_space w) → σ !! g = None ∧ is_Some (σ' !! g);
  ac_rest : ∀ g, g ∉ hand ++ owned (w_space w) → σ' !! g = σ !! g;
  ac_pages : NoDup (page_of <$> user_mappings (w_space w));
  ac_mapped : ∀ m, m ∈ user_mappings (w_space w) → ∃ flags, pt_lookup (w_pt w) (page_of m) = Some (frame_address m, flags)
}.

Definition keeps (σ : Heap) (hand : list Z) w : Prop := ∃ σ', accounts σ hand σ' w.

Lemma accounts_recorded σ σ' w : accounts σ [] σ' w → recorded σ' (w_space w) (w_pt w).
Proof. intros [Hi Hn Ht Hr Hp Hm]. split; [done|by intros f Hf; apply (Ht f Hf)|done|done]. Qed.

(** Frames that change hands within the same heap. *)
Lemma accounts_move σ hand hand' σ1 w w' :
  accounts σ hand σ1 w → w_mem w' = w_mem w → w_alloc w' = w_alloc w →
  hand' ++ owned (w_space w') ≡ₚ hand ++ owned (w_space w) →
  NoDup (page_of <$> user_mappings (w_space w')) →
  (∀ m, m ∈ user_mappings (w_space w') → ∃ flags, pt_lookup (w_pt w') (page_of m) = Some (frame_address m, flags)) →
  accounts σ hand' σ1 w'.
Proof.
  intros [Hi Hn Ht Hr Hp Hm] Em Ea Hperm Hp' Hm'. split; [by rewrite Em, Ea|by rewrite Hperm|..|done|done].
  - intros g Hg. rewrite Hperm in Hg. auto.
  - intros g Hg. rewrite Hperm in Hg. auto.
Qed.

(** A new frame. *)
Lemma accounts_add σ hand hand' σ1 σ2 w w' new :
  accounts σ hand σ1 w → implements dbg l σ2 (w_mem w') (w_alloc w') →
  adds new σ1 σ2 → (∀ g, g ∈ new → σ1 !! g = None) → NoDup new →
  hand' ++ owned (w_space w') ≡ₚ new ++ hand ++ owned (w_space w) →
  user_mappings (w_space w') = user_mappings (w_space w) → (∀ q, pt_lookup (w_pt w') q = pt_lookup (w_pt w) q) →
  accounts σ hand' σ2 w'.
Proof.
  intros [Hi Hn Ht Hr Hp Hm] Hi2 Hadd Hfree Hnd Hperm Eu El.
  assert (∀ g, g ∈ new → g ∉ hand ++ owned (w_space w)) as Hdis.
  { intros g Hg Hin. destruct (Ht g Hin) as [_ [b Hb]]. rewrite (Hfree g Hg) in Hb. done. }
  split; [done|..|by rewrite Eu|].
  - rewrite Hperm. apply NoDup_app. split_and!; auto.
  - intros g Hg. rewrite Hperm in Hg. specialize (Hadd g). apply elem_of_app in Hg as [Hg|Hg].
    + rewrite decide_True in Hadd by done. split; [|done]. rewrite <- Hr; auto.
    + split; [by apply Ht|]. destruct (Ht g Hg) as [_ Hs]. case_decide; [done|]. by rewrite Hadd.
  - intros g Hg. rewrite Hperm in Hg. specialize (Hadd g). rewrite decide_False in Hadd by (intros ?; apply Hg, elem_of_app; auto).
    rewrite Hadd. apply Hr. intros Hin. apply Hg, elem_of_app. auto.
  - intros m Hin. rewrite Eu in Hin. destruct (Hm m Hin) as [fl Hfl]. exists fl. by rewrite El.
Qed.

(** A frame given back. *)
Lemma accounts_drop σ hand hand' σ1 σ2 w w' f :
  accounts σ hand σ1 w → implements dbg l σ2 (w_mem w') (w_alloc w') → removes [f] σ1 σ2 →
  hand ++ owned (w_space w) ≡ₚ f :: hand' ++ owned (w_space w') →
  NoDup (page_of <$> user_mappings (w_space w')) →
  (∀ m, m ∈ user_mappings (w_space w') → ∃ flags, pt_lookup (w_pt w') (page_of m) = Some (frame_address m, flags)) →
  accounts σ hand' σ2 w'.
Proof.
  intros [Hi Hn Ht Hr Hp Hm] Hi2 Hrem Hperm Hp' Hm'. rewrite Hperm in Hn. apply NoDup_cons in Hn as [Hf Hn].
  split; [done|done|..|done|done].
  - intros g Hg. destruct (Ht g) as [H1 H2]; [rewrite Hperm; by right|]. split; [done|].
    rewrite (removes_other f _ _ _ Hrem); [done|]. by intros ->.
  - intros g Hg. destruct (decide (g = f)) as [->|Hne].
    + rewrite Hrem, decide_True by by left. symmetry. apply Ht. rewrite Hperm. by left.
    + rewrite (removes_other f _ _ _ Hrem) by done. apply Hr. rewrite Hperm. by intros [->|?]%elem_of_cons.
Qed.

(** * The steps of the operations *)

Lemma keeps_allocate {E : Type} σ hand w :
  keeps σ hand w →
  match Space.allocate_page (E := E) dbg w with
  | (w', Ok (Some f)) => keeps σ (f :: hand) w'
  | (w', Ok None) => keeps σ hand w'
  | (_, Err _) => False
  end.
Proof.
  intros (σ1 & Hac). pose proof (allocate_page_world (E := E) dbg l σ1 w (ac_impl _ _ _ _ Hac)) as Ha.
  destruct (Space.allocate_page dbg w) as [w' [[f|]|]]; destruct Ha as (Es & Et & Ha); [| |done].
  - destruct Ha as ([_ Hf] & σ2 & Hadd & Hi). exists σ2.
    eapply (accounts_add σ hand _ σ1 σ2 w w' [f]); [done|done|done|..]; rewrite ?Es, ?Et; auto using NoDup_singleton.
    by intros g ->%list_elem_of_singleton.
  - exists σ1. destruct Hac. by split; rewrite ?Es, ?Et.
Qed.

Lemma keeps_write σ hand w f bs :
  keeps σ hand w → f ∈ hand → length bs = 4096%nat → keeps σ hand (Image.set_mem (<[f := bs]> (w_mem w)) w).
Proof.
  intros (σ1 & [Hi Hn Ht Hr Hp Hm]) Hf Hlen. exists (<[f := bs]> σ1).
  assert (f ∈ hand ++ owned (w_space w)) as Hin by (apply elem_of_app; by left). destruct (Ht f Hin) as [Hf0 Hfs].
  split; [by apply serve_write|done|..|done|done].
  - intros g Hg. destruct (Ht g Hg). split; [done|]. destruct (decide (g = f)) as [->|]; [by rewrite lookup_insert_eq|].
    by rewrite lookup_insert_ne.
  - intros g Hg. rewrite lookup_insert_ne by (intros ->; done). auto.
Qed.

Lemma keeps_free σ hand w f :
  keeps σ (f :: hand) w → ∃ w', Space.free_frame dbg f w = (w', Ok ()) ∧ keeps σ hand w'.
Proof.
  intros (σ1 & Hac). pose proof Hac as [Hi Hn Ht Hr Hp Hm].
  destruct (free_frame_world dbg l σ1 w f Hi) as (w' & σ2 & -> & Es & Et & Hrem & Hi2); [apply Ht; by left|].
  exists w'. split; [done|]. exists σ2. eapply accounts_drop; [done|done|done|by rewrite Es|by rewrite Es|by rewrite Es, Et].
Qed.

(** New tables are accounted to the address space. *)
Lemma accounts_grown σ hand σ1 w σ2 w2 new :
  accounts σ hand σ1 w → grown dbg l σ1 w σ2 w2 new → accounts σ hand σ2 w2.
Proof.
  intros Hac [Hi Hadd Hf Hn Ht Hu Hl]. eapply accounts_add; [done|done|done|done|done| |done|done].
  unfold owned. rewrite Ht, Hu. solve_Permutation.
Qed.

(** [map_process_page] of a frame in hand: recorded on success, still in hand on an error,
    also on the one that leaves the page in the tables. *)
Lemma keeps_map σ hand w va f flags :
  keeps σ (f :: hand) w →
  match Space.map_process_page dbg max_tables max_mappings exclusion va f flags w with
  | (w', Ok _) => keeps σ hand w'
  | (w', Err (Raise _)) => keeps σ (f :: hand) w'
  | (_, Err (Halt _)) => is_canonical va = false
  end.
Proof.
  intros Hk. unfold Space.map_process_page. destruct (checked_add 64 va PAGE_SIZE) as [pe|]; [|done].
  destruct (Space.va_overlaps_kernel_low_reserved exclusion va pe); [done|].
  destruct (overlaps_shared_window va pe); [done|].
  destruct (Space.pd_entry_points_at_shared_carve_out_pt va w); [done|].
  destruct (is_canonical va) eqn:Hcan; cbn [negb]; [|done]. set (page := Mm.align_down va PAGE_SIZE).
  destruct Hk as (σ1 & Hac). pose proof (map_to_spec dbg max_tables l page f flags σ1 w (ac_impl _ _ _ _ Hac)) as Hm.
  unfold map_raise. destruct (Space.map_to dbg max_tables page f flags w) as [w1 [[]|[m|e]]]; cbn [fst snd map_err lift_err]; [|done|].
  2: { destruct Hm as (σ2 & new & G). exists σ2. by eapply accounts_grown. }
  destruct Hm as (σ2 & new & w0 & G & -> & Hl & Hmiss). pose proof (accounts_grown _ _ _ _ _ _ _ Hac G) as Hac0.
  rewrite <- (gr_lookup _ _ _ _ _ _ _ G) in Hl. pose proof Hac0 as [_ _ _ _ Hp0 Hm0].
  assert (∀ m, m ∈ user_mappings (w_space w0) → page_of m ≠ page) as Hne.
  { intros m Hm E. destruct (Hm0 m Hm) as [fl Hfl]. congruence. }
  assert (∀ m, m ∈ user_mappings (w_space w0) → ∃ fl, pt_lookup (pt_set (w_pt w0) page f flags) (page_of m) = Some (frame_address m, fl)) as Hold.
  { intros m Hm. rewrite pt_lookup_set, decide_False by auto. auto. }
  unfold Space.record_user_mapping. cbn [Space.set_pt w_space]. destruct (decide _) as [Hfull|Hroom].
  - exists σ2. eapply accounts_move; [exact Hac0|done..|exact Hold].
  - exists σ2. eapply accounts_move; [exact Hac0|done|done|..]; cbn [Space.set_space w_space w_pt user_mappings].
    + unfold owned. cbn. rewrite fmap_app. cbn. solve_Permutation.
    + rewrite fmap_app. apply NoDup_app. split_and!; [done| |apply NoDup_singleton].
      intros q (m & -> & Hm)%list_elem_of_fmap Hq%list_elem_of_singleton. by apply (Hne m).
    + intros m [Hm| ->%list_elem_of_singleton]%elem_of_app; [auto|]. exists flags. cbn. rewrite pt_lookup_set, decide_True by done. done.
Qed.

(** Releasing the recorded mapping [m]. *)
Lemma keeps_release σ hand w pre m post msg :
  keeps σ hand w → user_mappings (w_space w) = pre ++ m :: post →
  ∃ w', Space.release_mapping dbg m msg w = (w', Ok ()) ∧ w_space w' = w_space w ∧
    keeps σ hand (Space.set_space (MkSpace (root_frame (w_space w)) (page_table_frames (w_space w)) (pre ++ post)) w').
Proof.
  intros (σ1 & Hac) Eu. pose proof Hac as [Hi Hn Ht Hr Hp Hm].
  assert (m ∈ user_mappings (w_space w)) as Hin by (rewrite Eu; apply elem_of_app; right; by left).
  destruct (release_page_spec dbg l m msg σ1 w Hi) as (w' & σ2 & -> & Es & Hrem & Hi2 & Hl); [|auto|].
  { apply Ht. unfold owned. rewrite !elem_of_app. right. right. by apply list_elem_of_fmap_2. }
  exists w'. split_and!; [done|done|]. exists σ2.
  rewrite Eu, fmap_app in Hp. cbn in Hp. rewrite <- Permutation_middle, <- fmap_app in Hp. apply NoDup_cons in Hp as [Hpi Hp].
  eapply accounts_drop; [exact Hac|done|done|..]; cbn.
  - unfold owned. cbn. rewrite Eu, !fmap_app. cbn. solve_Permutation.
  - done.
  - intros x Hx. rewrite Hl, decide_False; [apply Hm; rewrite Eu; apply elem_of_app in Hx as [?|?]; apply elem_of_app; [by left|right; by right]|]. intros E. apply Hpi. rewrite <- E. by apply list_elem_of_fmap_2.
Qed.

Lemma keeps_unmap_last σ hand w : keeps σ hand w → keeps σ hand (Space.unmap_last_user_mapping dbg w).1.
Proof.
  intros Hk. unfold Space.unmap_last_user_mapping. destruct (user_mappings (w_space w)) as [|m ms _] eqn:Eu using rev_ind; [done|].
  rewrite last_snoc. destruct (keeps_release σ hand w ms m [] "rollback unmapped an unexpected frame" Hk Eu) as (w' & -> & Es & Hk').
  cbn. unfold Space.without_last_mapping. by rewrite Es, Eu, length_app, Nat.add_sub, take_app_length, <- (app_nil_r ms).
Qed.

Lemma keeps_unmap_at σ hand w va : keeps σ hand w → keeps σ hand (Space.unmap_process_page_at dbg va w).1.
Proof.
  intros Hk. unfold Space.unmap_process_page_at. destruct (position _ _) as [i|] eqn:Ep; [|done].
  apply position_Some in Ep as ((m & Hm & _) & _). rewrite Hm. pose proof (take_drop_middle _ _ _ Hm) as Es.
  destruct (keeps_release σ hand w _ m _ "unmap removed an unexpected frame" Hk (eq_sym Es)) as (w' & -> & Ew & Hk'). cbn. by rewrite Ew.
Qed.

Lemma keeps_roll_back σ hand n w : keeps σ hand w → keeps σ hand (Image.roll_back dbg n w).1.
Proof.
  revert w. induction n as [|n IH]; intros w Hk; [done|]. cbn [Image.roll_back]. pose proof (keeps_unmap_last _ _ _ Hk) as Hk1.
  destruct (Space.unmap_last_user_mapping dbg w) as [w1 [[]|]]; [by apply IH|done].
Qed.

(** * Images *)

Section image.
Context (load_base : Z) (file : list Z) (segs : list EmbeddedSegment).
Hypothesis Hsegs : Forall (seg_ok load_base file) segs.

Lemma keeps_one_page σ p w n :
  page_ok p → keeps σ [] w →
  match Image.map_one_page dbg max_tables max_mappings exclusion load_base file segs p (w, n) with
  | (_, Err (Halt _)) => False
  | ((w', _), _) => keeps σ [] w'
  end.
Proof.
  intros (Hal & Hr & _) Hk. unfold Image.map_one_page. case_decide; [done|].
  destruct (page_flags_for_segment_perms _) as [flags|]; [|done].
  pose proof (keeps_allocate (E := string) σ [] w Hk) as Ha.
  destruct (Space.allocate_page dbg w) as [w1 [[f|]|]]; [|done|done]. cbn [w_mem Image.zero_page Image.set_mem].
  rewrite zero_frame_render, (fill_all_spec load_base file) by (done || lia).
  pose proof (keeps_write σ [f] w1 f (render (λ i, image_byte load_base file segs (page_vaddr p + i) 0)) Ha ltac:(by left)
    (length_render _)) as Hk2.
  match goal with |- context [Space.map_process_page _ _ _ _ ?va ?f ?fl ?w] =>
    pose proof (keeps_map σ [] w va f fl) as Hm end.
  specialize (Hm Hk2). destruct (Space.map_process_page _ _ _ _ _ _ _ _) as [w3 [[]|[h|e]]]; [done| |].
  - unfold is_canonical, USER_CANONICAL_TOP_EXCLUSIVE in Hm. change (Z.shiftl 1 47) with (2 ^ 47) in Hm.
    rewrite bool_decide_eq_true_2 in Hm by lia. done.
  - destruct (keeps_free σ [] w3 f Hm) as (w4 & -> & Hk4). done.
Qed.

Lemma keeps_unique_pages σ pages w n :
  Forall page_ok pages → keeps σ [] w →
  match Image.map_unique_pages dbg max_tables max_mappings exclusion load_base file segs pages (w, n) with
  | (_, Err (Halt _)) => False
  | ((w', _), _) => keeps σ [] w'
  end.
Proof.
  intros Hp. revert w n. unfold Image.map_unique_pages. induction Hp as [|p pages Hp _ IH]; intros w n Hk; [done|]. cbn [try_each].
  pose proof (keeps_one_page σ p w n Hp Hk) as Hone.
  destruct (Image.map_one_page _ _ _ _ _ _ _ _ _) as [[w1 n1] [[]|[h|e]]]; [by apply IH|done|done].
Qed.

Lemma keeps_embedded σ w :
  keeps σ [] w →
  match Image.map_embedded_segments dbg max_tables max_mappings exclusion load_base file segs w with
  | (_, Err (Halt _)) => False
  | (w', _) => keeps σ [] w'
  end.
Proof.
  intros Hk. unfold Image.map_embedded_segments. destruct (Image.collect_unique_pages load_base segs) as [pages|] eqn:Ec; [|done].
  pose proof (keeps_unique_pages σ pages w 0 (collected_pages_ok load_base file segs Hsegs pages Ec) Hk) as Hm.
  destruct (Image.map_unique_pages _ _ _ _ _ _ _ _ _) as [[w1 n1] [[]|[h|e]]]; [done|done|].
  pose proof (keeps_roll_back σ [] n1 w1 Hm) as Hb. by destruct (Image.roll_back dbg n1 w1) as [w2 []].
Qed.
End image.

Lemma keeps_load_plan σ bytes p plan w :
  Forall is_byte bytes → Z.of_nat (length bytes) < 2 ^ 64 → parse_load_plan bytes p = Ok plan → keeps σ [] w →
  match Image.map_load_plan_segments dbg max_tables max_mappings exclusion bytes plan w with
  | (_, Err (Halt _)) => False
  | (w', _) => keeps σ [] w'
  end.
Proof.
  intros Hb Hlen Hparse Hk. destruct (parse_load_plan_Ok bytes p plan Hb Hlen Hparse) as (h & _ & [_ _ _ _ Hsegs Hapart _] & _ & _ & E).
  rewrite <- E in *. unfold Image.map_load_plan_segments. pose proof (image_base_spec plan) as Hbase.
  destruct (Plan.image_base plan) as [base|]; [|done]. destruct Hbase as [Hmin (s0 & Hs0 & Eb)].
  assert (0 ≤ base) as Hb0.
  { rewrite Forall_forall in Hsegs. destruct (Hsegs s0 Hs0) as [[[? ?] _ _ _ _] _ _ _ _ _ _ _]. lia. }
  rewrite embed_all_spec by done. apply keeps_embedded; [|done]. by eapply (embedded_ok bytes p _ base Hlen Hsegs (conj Hb0 Hmin)).
Qed.

(** * Stacks *)

Lemma keeps_stack_page σ base i w n :
  0 ≤ base → base + Z.of_nat i * 4096 < 2 ^ 64 → keeps σ [] w →
  match Image.map_stack_page dbg max_tables max_mappings exclusion base i (w, n) with
  | (_, Err (Halt _)) => True
  | ((w', _), _) => keeps σ [] w'
  end.
Proof.
  intros Hb Hi Hk. unfold Image.map_stack_page. pose proof (keeps_allocate (E := string) σ [] w Hk) as Ha.
  assert (∀ w e, keeps σ [] w → match (match Image.roll_back dbg n w with
    | (w, Ok _) => ((w, O), Err (Raise e)) | (w, Err e') => ((w, O), Err (Raise e')) end : (World T * nat) * result (stop string) unit) with
    | (_, Err (Halt _)) => True | ((w', _), _) => keeps σ [] w' end) as Hfail.
  { intros w' e Hk'. pose proof (keeps_roll_back σ [] n w' Hk'). by destruct (Image.roll_back dbg n w') as [w'' []]. }
  destruct (Space.allocate_page dbg w) as [w1 [[f|]|]]; [|by apply Hfail|done].
  unfold PAGE_SIZE. rewrite wrap_small by (unfold in_width; lia). rewrite (proj2 (checked_add_Some 64 base (Z.of_nat i * 4096) _)) by (split; [done|lia]).
  pose proof (keeps_write σ [f] w1 f zero_frame Ha ltac:(by left) ltac:(by rewrite zero_frame_render, length_render)) as Hk2.
  pose proof (keeps_map σ [] (Image.zero_page f w1) (base + Z.of_nat i * 4096) f Image.STACK_FLAGS Hk2) as Hm.
  destruct (Space.map_process_page _ _ _ _ _ _ _ _) as [w3 [[]|[h|e]]]; [done|done|].
  destruct (keeps_free σ [] w3 f Hm) as (w4 & -> & Hk4). by apply Hfail.
Qed.

Lemma keeps_stack σ base count w :
  0 ≤ base → base + Z.of_nat count * 4096 ≤ 2 ^ 64 → keeps σ [] w →
  match Image.map_user_stack_pages dbg max_tables max_mappings exclusion base count w with
  | (_, Err (Halt _)) => True
  | (w', _) => keeps σ [] w'
  end.
Proof.
  intros Hb Hc Hk. unfold Image.map_user_stack_pages.
  assert (∀ k i w n, (i + k = count)%nat → keeps σ [] w →
    match try_each (Image.map_stack_page dbg max_tables max_mappings exclusion base) (seq i k) (w, n) with
    | (_, Err (Halt _)) => True
    | ((w', _), _) => keeps σ [] w'
    end) as Hloop.
  { intros k. induction k as [|k IH]; intros i w1 n Hi Hk1; [done|]. cbn [seq try_each].
    pose proof (keeps_stack_page σ base i w1 n Hb ltac:(lia) Hk1) as Hone.
    destruct (Image.map_stack_page _ _ _ _ _ _ _) as [[w2 n2] [[]|[]]]; [apply IH; [lia|done]|done|done]. }
  specialize (Hloop count O w O eq_refl Hk). by destruct (try_each _ _ _) as [[w' n] [[]|[]]].
Qed.

(** * Whole lives *)

(** One request served by the address space, whatever its result: to load the image of a plan
    [parse_load_plan] accepted, to map a stack at an address from which it does not run past
    2^64, to unmap a page, to take back the last mapping. A request that stops the kernel is
    not served. *)
Inductive life_step : World T → World T → Prop :=
  | life_image bytes p plan w w' r :
      Forall is_byte bytes → Z.of_nat (length bytes) < 2 ^ 64 → parse_load_plan bytes p = Ok plan →
      Image.map_load_plan_segments dbg max_tables max_mappings exclusion bytes plan w = (w', r) →
      life_step w w'
  | life_stack stack_base page_count w w' r :
      0 ≤ stack_base → stack_base + Z.of_nat page_count * 4096 ≤ 2 ^ 64 →
      Image.map_user_stack_pages dbg max_tables max_mappings exclusion stack_base page_count w = (w', r) →
      (∀ h, r ≠ Err (Halt h)) → life_step w w'
  | life_unmap va w w' r : Space.unmap_process_page_at dbg va w = (w', r) → life_step w w'
  | life_unmap_last w w' r : Space.unmap_last_user_mapping dbg w = (w', r) → life_step w w'.

Lemma life_step_keeps σ w w' : keeps σ [] w → life_step w w' → keeps σ [] w'.
Proof.
  intros Hk Hst. inversion Hst as [bytes p plan ? ? r Hb Hlen Hp E|base n ? ? r Hlo Hhi E Hr|va ? ? r E|? ? r E]; subst.
  - pose proof (keeps_load_plan σ bytes p plan w Hb Hlen Hp Hk) as Hm. rewrite E in Hm. by destruct r as [|[]].
  - pose proof (keeps_stack σ base n w Hlo Hhi Hk) as Hm. rewrite E in Hm. destruct r as [|[h|]]; [done| |done]. by destruct (Hr h).
  - pose proof (keeps_unmap_at σ [] w va Hk) as Hm. by rewrite E in Hm.
  - pose proof (keeps_unmap_last σ [] w Hk) as Hm. by rewrite E in Hm.
Qed.

(** The heap is [σ], in which the address space holds nothing, plus what it owns. *)
Definition holds_only (σ σ' : Heap) (s : ProcessAddressSpace) : Prop :=
  (∀ g, g ∈ owned s → σ !! g = None) ∧ ∀ g, g ∉ owned s → σ' !! g = σ !! g.

Lemma holds_keeps σ σ0 w : world_ok dbg l σ0 w → holds_only σ σ0 (w_space w) → keeps σ [] w.
Proof.
  intros [Hi Hs] [Ho Hr]. destruct (space_recorded _ _ _ Hs) as [H1 H2 H3 H4]. exists σ0. by split; auto.
Qed.

(** C13: An address space leaks nothing. Let an address space own some frames on top of a heap
    [σ], and let it serve any sequence of requests to load images (of plans the parser
    accepted), map stacks (at addresses from which they do not run past 2^64) and unmap pages,
    successful or not: also requests that run out of frames, out of page-table frames or out
    of room in the mapping table. Unless its shared-buffer window is live or one of its tables
    is a shared carve-out table of the kernel, tearing it down then succeeds, and the
    allocator's heap is exactly [σ] again: every frame it ever took is free, every frame of
    others still holds its bytes. *)
Theorem teardown_returns_everything shared window_live σ σ0 w w' :
  world_ok dbg l σ0 w → holds_only σ σ0 (w_space w) → rtc life_step w w' → window_live (w_pt w') = false →
  (∀ f, f ∈ page_table_frames (w_space w') → shared f = false) →
  ∃ w'', Space.destroy_process_address_space dbg shared window_live w' = (w'', Ok ())
    ∧ implements dbg l σ (w_mem w'') (w_alloc w'').
Proof.
  intros Hok Ho Hrun Hwin Hsh. assert (keeps σ [] w') as (σ1 & Hac).
  { pose proof (holds_keeps σ σ0 w Hok Ho) as Hk. clear Hok Ho. induction Hrun; eauto using life_step_keeps. }
  pose proof Hac as [Hi _ Ht Hr _ _].
  destruct (destroy_spec dbg l shared window_live σ1 w' Hi (accounts_recorded _ _ _ Hac) Hwin Hsh) as (w2 & σ2 & E & Hi2 & Hrem).
  exists w2. split; [done|]. assert (σ2 = σ) as <-; [|done]. apply map_eq. intros g. rewrite Hrem.
  case_decide as Hg; [symmetry; by apply Ht|by apply Hr].
Qed.
End life.

(** In a mapping table of four entries: load the program of [Hello] (three pages), ask for a
    stack of two pages, which fails on the full table, drop the text page, and tear the process
    down: the heap is empty again. *)
Lemma teardown_returns_everything_witness :
  ∃ w1 w2 w3 w4, Image.map_load_plan_segments false 32 4 [] Hello.file Hello.plan SmallSpace.fresh = (w1, Ok 3%nat)
    ∧ Image.map_user_stack_pages false 32 4 [] 0x7fff0000 2 w1
      = (w2, Err (Raise "process address-space mapping tracking capacity exceeded"%string))
    ∧ Space.unmap_process_page_at false 0x400000 w2 = (w3, Ok ())
    ∧ Space.destroy_process_address_space false (λ _, false) (λ _, false) w3 = (w4, Ok ())
    ∧ implements false (usable_regions SmallAllocator.allocator) ∅ (w_mem w4) (w_alloc w4).
Proof.
  destruct SmallSpace.fresh_ok as (σ & Ha & Hok).
  destruct (Image.map_load_plan_segments false 32 4 [] Hello.file Hello.plan SmallSpace.fresh) as [w1 r1] eqn:E1.
  destruct (Image.map_user_stack_pages false 32 4 [] 0x7fff0000 2 w1) as [w2 r2] eqn:E2.
  destruct (Space.unmap_process_page_at false 0x400000 w2) as [w3 r3] eqn:E3.
  assert (r1 = Ok 3%nat) as ->. { change r1 with (snd (w1, r1)). rewrite <- E1. clear; by vm_compute. }
  assert (r2 = Err (Raise "process address-space mapping tracking capacity exceeded"%string)) as ->.
  { change r2 with (snd (w2, r2)). rewrite <- E2. change w1 with (fst (w1, Ok (E := stop string) 3%nat)). rewrite <- E1. clear; by vm_compute. }
  assert (r3 = Ok ()) as ->.
  { change r3 with (snd (w3, r3)). rewrite <- E3.
    change w2 with (fst (w2, Err (A := nat) (Raise "process address-space mapping tracking capacity exceeded"%string))). rewrite <- E2.
    change w1 with (fst (w1, Ok (E := stop string) 3%nat)). rewrite <- E1. clear; by vm_compute. }
  assert (rtc (life_step false 32 4 []) SmallSpace.fresh w3) as Hrun.
  { eapply rtc_l; [eapply life_image; [exact Hello.file_bytes|exact Hello.file_len|exact Hello.parsed|exact E1]|].
    eapply rtc_l; [eapply (life_stack _ _ _ _ 0x7fff0000 2 w1 w2); [lia|lia|exact E2|discriminate]|].
    eapply rtc_once, life_unmap, E3. }
  destruct (teardown_returns_everything false 32 4 [] _ (λ _, false) (λ _, false) ∅ σ SmallSpace.fresh w3 Hok) as (w4 & E4 & Hi).
  - split; [by intros g; rewrite lookup_empty|]. intros g Hg. specialize (Ha g). rewrite decide_False in Ha; [done|].
    intros ->%list_elem_of_singleton. apply Hg. apply elem_of_app. left. rewrite SmallSpace.root. by left.
  - exact Hrun.
  - reflexivity.
  - by intros.
  - exists w1, w2, w3, w4. exact (conj eq_refl (conj E2 (conj E3 (conj E4 Hi)))).
Defined.
