(* ===== verification/BlockDev.v ===== *)
(** Block devices: the transport-independent contract ([block/src/lib.rs]), the in-memory backend
    ([fake.rs]) and the fault-injecting one ([fault.rs]).

    A device image is a [list Z] of bytes; requests are checked by [validate_transfer]. The
    [BlockDevice] trait is a type class; the two backends are its instances. [usize] is 64 bits
    wide, so the conversions to it never fail. The [Rc<RefCell<FaultState>>] a test shares with
    a fault-injecting device is part of the device's state. *)

From Stdlib Require Import ZArith Lia.
From stdpp Require Import base list tactics decidable numbers.
From S2P Require Import Prelude Bytes.

Local Open Scope Z_scope.

(** * Geometry (lib.rs) *)

Record BlockGeometry : Type := MkGeometry {
  device_id : Z;
  logical_block_size : Z;
  block_count : Z;
  max_transfer_blocks : Z;
  read_only : bool;
  capacity_bytes : Z;
}.

#[export] Instance BlockGeometry_eq_dec : EqDecision BlockGeometry.
Proof. solve_decision. Defined.

Inductive BlockGeometryError : Type :=
| ZeroBlockSize
| ZeroBlockCount
| ZeroMaxTransferBlocks
| CapacityOverflow.

Inductive BlockRequestError : Type :=
| ZeroBlocks
| TransferTooLarge (requested_blocks max_blocks : Z)
| BufferLengthNotAligned (buffer_len block_size : Z)
| BufferLengthMismatch (buffer_len expected_len : Z)
| RangeOutOfBounds (lba blocks block_count : Z)
| BufferLengthOverflow.

Inductive BlockUnsupportedError : Type :=
| WriteProtected
| FlushUnsupported.

Inductive BlockTransportError : Type :=
| DeviceFault
| Timeout_err
| ResetRequired.

Inductive BlockIoError : Type :=
| InvalidRequest (e : BlockRequestError)
| Unsupported (e : BlockUnsupportedError)
| Transport (e : BlockTransportError).

#[export] Instance BlockRequestError_eq_dec : EqDecision BlockRequestError.
Proof. solve_decision. Defined.

#[export] Instance BlockUnsupportedError_eq_dec : EqDecision BlockUnsupportedError.
Proof. solve_decision. Defined.

#[export] Instance BlockTransportError_eq_dec : EqDecision BlockTransportError.
Proof. solve_decision. Defined.

#[export] Instance BlockIoError_eq_dec : EqDecision BlockIoError.
Proof. solve_decision. Defined.

Module Geometry.
Definition new (device logical_block_size block_count max_transfer_blocks : Z) (read_only : bool)
  : result BlockGeometryError BlockGeometry :=
  if decide (logical_block_size = 0) then Err ZeroBlockSize
  else if decide (block_count = 0) then Err ZeroBlockCount
  else if decide (max_transfer_blocks = 0) then Err ZeroMaxTransferBlocks
  else
    let? capacity := ok_or (checked_mul 64 logical_block_size block_count) CapacityOverflow in
    Ok (MkGeometry device logical_block_size block_count max_transfer_blocks read_only capacity).

(** The byte range [start..end] of a request. *)
Definition validate_transfer (g : BlockGeometry) (lba blocks buffer_len : Z) (is_write : bool)
  : result BlockIoError (Z * Z) :=
  if decide (blocks = 0) then Err (InvalidRequest ZeroBlocks)
  else if decide (max_transfer_blocks g < blocks)
  then Err (InvalidRequest (TransferTooLarge blocks (max_transfer_blocks g)))
  else
    let block_size := logical_block_size g in
    if decide (buffer_len mod block_size ≠ 0)
    then Err (InvalidRequest (BufferLengthNotAligned buffer_len block_size))
    else
      let? expected_len := ok_or (checked_mul 64 block_size blocks)
                             (InvalidRequest BufferLengthOverflow) in
      if decide (buffer_len ≠ expected_len)
      then Err (InvalidRequest (BufferLengthMismatch buffer_len expected_len))
      else
        let out_of_bounds := InvalidRequest (RangeOutOfBounds lba blocks (block_count g)) in
        let? end_lba := ok_or (checked_add 64 lba blocks) out_of_bounds in
        if decide (block_count g < end_lba) then Err out_of_bounds
        else if is_write && read_only g then Err (Unsupported WriteProtected)
        else
          let? byte_start := ok_or (checked_mul 64 lba (logical_block_size g))
                               (InvalidRequest BufferLengthOverflow) in
          let? byte_end := ok_or (checked_add 64 byte_start expected_len)
                             (InvalidRequest BufferLengthOverflow) in
          Ok (byte_start, byte_end).

Definition validate_read (g : BlockGeometry) (lba blocks buffer_len : Z) : result BlockIoError (Z * Z) :=
  validate_transfer g lba blocks buffer_len false.

Definition validate_write (g : BlockGeometry) (lba blocks buffer_len : Z) : result BlockIoError (Z * Z) :=
  validate_transfer g lba blocks buffer_len true.
End Geometry.

(** * The device contract *)

(** [read_blocks lba blocks n d] fills a buffer of [n] bytes. *)
Class BlockDevice (D : Type) : Type := {
  geometry : D → BlockGeometry;
  read_blocks : Z → Z → nat → D → D * result BlockIoError (list Z);
  write_blocks : Z → Z → list Z → D → D * result BlockIoError unit;
  flush : D → D * result BlockIoError unit;
}.

(** * The in-memory backend (fake.rs) *)

Record FakeBlockDevice : Type := MkFake {
  fk_geometry : BlockGeometry;
  live_bytes : list Z;
  durable_bytes : list Z;
  fk_flush_count : Z;
}.

Inductive FakeBlockDeviceError : Type :=
| CapacityExceedsHostAddressSpace
| DurableBytesLengthMismatch (expected actual : nat).

Module Fake.
Definition new (g : BlockGeometry) : result FakeBlockDeviceError FakeBlockDevice :=
  if decide (u64_max < capacity_bytes g) then Err CapacityExceedsHostAddressSpace
  else
    let bytes := replicate (Z.to_nat (capacity_bytes g)) 0 in
    Ok (MkFake g bytes bytes 0).

Definition from_durable_bytes (g : BlockGeometry) (bytes : list Z)
  : result FakeBlockDeviceError FakeBlockDevice :=
  let? device := new g in
  if decide (length (durable_bytes device) ≠ length bytes)
  then Err (DurableBytesLengthMismatch (length (durable_bytes device)) (length bytes))
  else Ok (MkFake g bytes bytes (fk_flush_count device)).

Definition persist_blocks (lba blocks : Z) (d : FakeBlockDevice)
  : FakeBlockDevice * result BlockIoError unit :=
  let byte_len := blocks * logical_block_size (fk_geometry d) in
  match Geometry.validate_read (fk_geometry d) lba blocks byte_len with
  | Err e => (d, Err e)
  | Ok (a, b) =>
      (MkFake (fk_geometry d) (live_bytes d)
         (blit (Z.to_nat a) (slice (Z.to_nat a) (Z.to_nat b) (live_bytes d)) (durable_bytes d))
         (fk_flush_count d), Ok ())
  end.

Definition rebooted (d : FakeBlockDevice) : result FakeBlockDeviceError FakeBlockDevice :=
  from_durable_bytes (fk_geometry d) (durable_bytes d).

Definition read_blocks (lba blocks : Z) (n : nat) (d : FakeBlockDevice)
  : FakeBlockDevice * result BlockIoError (list Z) :=
  match Geometry.validate_read (fk_geometry d) lba blocks (Z.of_nat n) with
  | Err e => (d, Err e)
  | Ok (a, b) => (d, Ok (slice (Z.to_nat a) (Z.to_nat b) (live_bytes d)))
  end.

Definition write_blocks (lba blocks : Z) (buffer : list Z) (d : FakeBlockDevice)
  : FakeBlockDevice * result BlockIoError unit :=
  match Geometry.validate_write (fk_geometry d) lba blocks (Z.of_nat (length buffer)) with
  | Err e => (d, Err e)
  | Ok (a, _) =>
      (MkFake (fk_geometry d) (blit (Z.to_nat a) buffer (live_bytes d)) (durable_bytes d)
         (fk_flush_count d), Ok ())
  end.

Definition flush (d : FakeBlockDevice) : FakeBlockDevice * result BlockIoError unit :=
  (MkFake (fk_geometry d) (live_bytes d) (live_bytes d) (fk_flush_count d + 1), Ok ()).
End Fake.

#[export] Instance FakeBlockDevice_device : BlockDevice FakeBlockDevice := {
  geometry := fk_geometry;
  read_blocks := Fake.read_blocks;
  write_blocks := Fake.write_blocks;
  flush := Fake.flush;
}.

(** * The fault-injecting backend (fault.rs) *)

Inductive FaultTrigger : Type :=
| AfterWrite (n : Z)
| AfterFlush (n : Z).

#[export] Instance FaultTrigger_eq_dec : EqDecision FaultTrigger.
Proof. solve_decision. Defined.

Inductive FaultAction : Type :=
| PowerLoss
| IoError (e : BlockIoError).

Record FaultPlan : Type := MkPlan { trigger : FaultTrigger; action : FaultAction }.

Record FaultState : Type := MkFault {
  write_count : Z;
  fault_flush_count : Z;
  plan : option FaultPlan;
  powered_off : bool;
  early_persist_writes : list Z;
}.

Definition power_loss_error : BlockIoError := Transport DeviceFault.

Module Controller.
Definition new : FaultState := MkFault 0 0 None false [].

Definition arm (p : FaultPlan) (s : FaultState) : FaultState :=
  MkFault (write_count s) (fault_flush_count s) (Some p) false (early_persist_writes s).

Definition set_early_persist_writes (writes : list Z) (s : FaultState) : FaultState :=
  MkFault (write_count s) (fault_flush_count s) (plan s) (powered_off s) writes.

Definition ensure_online (s : FaultState) : result BlockIoError unit :=
  if powered_off s then Err power_loss_error else Ok ().

(** The number of the write, whether it persists early, and the fault that fires on it. *)
Definition next_write_plan (s : FaultState)
  : FaultState * result BlockIoError (Z * bool * option FaultAction) :=
  if powered_off s then (s, Err power_loss_error)
  else
    let n := write_count s + 1 in
    let persist_early := bool_decide (n ∈ early_persist_writes s) in
    let counted p := MkFault n (fault_flush_count s) p (powered_off s) (early_persist_writes s) in
    match plan s with
    | None => (counted None, Ok (n, persist_early, None))
    | Some p =>
        if decide (trigger p ≠ AfterWrite n) then (counted (Some p), Ok (n, persist_early, None))
        else (counted None, Ok (n, persist_early, Some (action p)))
    end.

Definition next_flush_plan (s : FaultState) : FaultState * result BlockIoError (option FaultAction) :=
  if powered_off s then (s, Err power_loss_error)
  else
    let n := fault_flush_count s + 1 in
    let counted p := MkFault (write_count s) n p (powered_off s) (early_persist_writes s) in
    match plan s with
    | None => (counted None, Ok None)
    | Some p =>
        if decide (trigger p ≠ AfterFlush n) then (counted (Some p), Ok None)
        else (counted None, Ok (Some (action p)))
    end.

Definition power_off (s : FaultState) : FaultState :=
  MkFault (write_count s) (fault_flush_count s) (plan s) true (early_persist_writes s).
End Controller.

Record FaultInjectingBlockDevice : Type := MkFaulty {
  inner : FakeBlockDevice;
  controller : FaultState;
}.

Module Faulty.
Definition new (d : FakeBlockDevice) : FaultInjectingBlockDevice := MkFaulty d Controller.new.

Definition rebooted_from_durable (d : FaultInjectingBlockDevice)
  : result FakeBlockDeviceError FaultInjectingBlockDevice :=
  let? d := Fake.rebooted (inner d) in Ok (new d).

Definition read_blocks (lba blocks : Z) (n : nat) (d : FaultInjectingBlockDevice)
  : FaultInjectingBlockDevice * result BlockIoError (list Z) :=
  match Controller.ensure_online (controller d) with
  | Err e => (d, Err e)
  | Ok _ =>
      let '(i, r) := Fake.read_blocks lba blocks n (inner d) in
      (MkFaulty i (controller d), r)
  end.

(** The write itself, persisted at once when the schedule says so. *)
Definition write_through (persist_early : bool) (lba blocks : Z) (buffer : list Z) (d : FakeBlockDevice)
  : FakeBlockDevice * result BlockIoError unit :=
  let?+ d, _ := Fake.write_blocks lba blocks buffer d in
  if persist_early then Fake.persist_blocks lba blocks d else (d, Ok ()).

Definition write_blocks (lba blocks : Z) (buffer : list Z) (d : FaultInjectingBlockDevice)
  : FaultInjectingBlockDevice * result BlockIoError unit :=
  match Controller.next_write_plan (controller d) with
  | (s, Err e) => (MkFaulty (inner d) s, Err e)
  | (s, Ok (_, _, Some (IoError e))) => (MkFaulty (inner d) s, Err e)
  | (s, Ok (_, persist_early, Some PowerLoss)) =>
      match write_through persist_early lba blocks buffer (inner d) with
      | (i, Err e) => (MkFaulty i s, Err e)
      | (i, Ok _) => (MkFaulty i (Controller.power_off s), Err power_loss_error)
      end
  | (s, Ok (_, persist_early, None)) =>
      let '(i, r) := write_through persist_early lba blocks buffer (inner d) in
      (MkFaulty i s, r)
  end.

Definition flush (d : FaultInjectingBlockDevice)
  : FaultInjectingBlockDevice * result BlockIoError unit :=
  match Controller.next_flush_plan (controller d) with
  | (s, Err e) => (MkFaulty (inner d) s, Err e)
  | (s, Ok (Some (IoError e))) => (MkFaulty (inner d) s, Err e)
  | (s, Ok (Some PowerLoss)) =>
      match Fake.flush (inner d) with
      | (i, Err e) => (MkFaulty i s, Err e)
      | (i, Ok _) => (MkFaulty i (Controller.power_off s), Err power_loss_error)
      end
  | (s, Ok None) => let '(i, r) := Fake.flush (inner d) in (MkFaulty i s, r)
  end.
End Faulty.

#[export] Instance FaultInjectingBlockDevice_device : BlockDevice FaultInjectingBlockDevice := {
  geometry := λ d, fk_geometry (inner d);
  read_blocks := Faulty.read_blocks;
  write_blocks := Faulty.write_blocks;
  flush := Faulty.flush;
}.

(** * Requests *)

(** What [BlockGeometry::new] returns. *)
Record geometry_typed (g : BlockGeometry) : Prop := {
  gt_size : 1 ≤ logical_block_size g < 2 ^ 32;
  gt_count : 1 ≤ block_count g < 2 ^ 64;
  gt_transfer : 1 ≤ max_transfer_blocks g < 2 ^ 32;
  gt_capacity : capacity_bytes g = logical_block_size g * block_count g;
  gt_fits : capacity_bytes g < 2 ^ 64;
}.

Lemma geometry_new_typed dev bs bc mt ro g :
  in_width 32 bs → in_width 64 bc → in_width 32 mt →
  Geometry.new dev bs bc mt ro = Ok g → geometry_typed g.
Proof.
  intros Hbs Hbc Hmt. unfold Geometry.new. repeat (case_decide; [done|]).
  destruct (checked_mul 64 bs bc) as [cap|] eqn:Hc; [simpl|done].
  apply checked_mul_Some in Hc as [-> Hc]. intros [= <-]. unfold in_width in *.
  constructor; simpl; lia.
Qed.

Definition request_ok (g : BlockGeometry) (lba blocks len : Z) (is_write : bool) : Prop :=
  1 ≤ blocks ≤ max_transfer_blocks g ∧ len = blocks * logical_block_size g ∧
  lba + blocks ≤ block_count g ∧ (is_write && read_only g = false).

Lemma validate_transfer_iff g lba blocks len is_write a b :
  geometry_typed g → in_width 64 lba → in_width 32 blocks →
  Geometry.validate_transfer g lba blocks len is_write = Ok (a, b) ↔
  request_ok g lba blocks len is_write ∧ a = lba * logical_block_size g ∧ b = a + len.
Proof.
  intros [Hbs Hbc Hmt Hcap Hfit] Hl Hb. unfold in_width in *. unfold Geometry.validate_transfer, request_ok.
  assert (Hmul : ∀ x, 0 ≤ x ≤ block_count g → x * logical_block_size g ≤ capacity_bytes g) by (intros; nia).
  case_decide; [split; [done|lia]|]. case_decide; [split; [done|lia]|].
  case_decide as Hmod.
  { split; [done|]. intros ((_ & -> & _) & _). by rewrite Z.mod_mul in Hmod by lia. }
  unfold ok_or at 1. destruct (checked_mul 64 (logical_block_size g) blocks) as [el|] eqn:Hc.
  2: { unfold checked_mul in Hc. case_decide as Hc'; [done|]. split; [done|].
       intros ((_ & _ & Hr & _) & _). pose proof (Hmul blocks ltac:(lia)). lia. }
  apply checked_mul_Some in Hc as [-> Hc]. case_decide as Hlen; [split; [done|lia]|].
  unfold ok_or at 1. destruct (checked_add 64 lba blocks) as [e|] eqn:Ha.
  2: { apply checked_add_None in Ha. split; [done|lia]. }
  apply checked_add_Some in Ha as [-> Ha]. case_decide; [split; [done|lia]|].
  destruct (is_write && read_only g) eqn:Hw; [split; [done|]; by intros ((_ & _ & _ & ?) & _)|].
  assert (lba * logical_block_size g + len ≤ capacity_bytes g) as Hend
    by (pose proof (Hmul (lba + blocks) ltac:(lia)); lia).
  unfold ok_or, checked_mul, checked_add. rewrite decide_True by nia. rewrite decide_True by lia.
  split; [intros [= <- <-]; split_and!; auto; lia|]. intros (_ & -> & ->). do 2 f_equal. lia.
Qed.

(** Every request that is accepted stays inside the device, and only bad requests are
    refused. With a geometry [BlockGeometry::new] returned, [validate_transfer] accepts a
    request exactly if it moves between one and [max_transfer_blocks] whole blocks, the buffer
    has their length, the range is on the device, and a write is not to a read-only device; the
    byte range it returns is the exact one and ends inside the capacity. No overflow error is
    possible. *)
Theorem validate_transfer_exact g lba blocks len is_write :
  geometry_typed g → in_width 64 lba → in_width 32 blocks →
  Geometry.validate_transfer g lba blocks len is_write ≠ Err (InvalidRequest BufferLengthOverflow) ∧
  ∀ a b, Geometry.validate_transfer g lba blocks len is_write = Ok (a, b) ↔
    request_ok g lba blocks len is_write ∧ a = lba * logical_block_size g ∧ b = a + len ∧
    0 ≤ a ∧ b ≤ capacity_bytes g.
Proof.
  intros Hg Hl Hb. split.
  - pose proof Hg as [Hbs Hbc Hmt Hcap Hfit]. unfold in_width in *. unfold Geometry.validate_transfer.
    repeat (case_decide; [done|]).
    destruct (checked_mul 64 (logical_block_size g) blocks) as [el|] eqn:Hc; cbn [ok_or].
    2: { exfalso. unfold checked_mul in Hc. case_decide as Hc'; [done|]. nia. }
    apply checked_mul_Some in Hc as [-> _]. case_decide; [done|].
    destruct (checked_add 64 lba blocks) as [e|] eqn:Ha; cbn [ok_or]; [|done].
    apply checked_add_Some in Ha as [-> _]. case_decide; [done|]. destruct (is_write && read_only g); [done|].
    unfold checked_mul, checked_add, ok_or. rewrite decide_True by nia. rewrite decide_True by nia. done.
  - intros a b. rewrite (validate_transfer_iff g lba blocks len is_write a b Hg Hl Hb). split.
    + intros ((Hr & Hlen & Hend & Hw) & -> & ->). destruct Hg. unfold in_width in *.
      assert ((lba + blocks) * logical_block_size g ≤ block_count g * logical_block_size g)
        by (apply Z.mul_le_mono_nonneg_r; lia).
      split; [done|]. split_and!; [done|done|apply Z.mul_nonneg_nonneg; lia|lia].
    + intros (Hr & -> & -> & _). done.
Qed.

Lemma validate_transfer_exact_witness :
  let g := unwrap_or (Geometry.new 11 512 32 2 false) (MkGeometry 0 0 0 0 false 0) in
  Geometry.validate_transfer g 30 2 1024 true = Ok (15360, 16384) ∧
  request_ok g 30 2 1024 true ∧ 15360 = 30 * logical_block_size g ∧ 16384 = 15360 + 1024 ∧
  0 ≤ 15360 ∧ 16384 ≤ capacity_bytes g.
Proof.
  intros g. assert (geometry_typed g) as Hg.
  { apply (geometry_new_typed 11 512 32 2 false); [by split..|reflexivity]. }
  split; [reflexivity|].
  apply (validate_transfer_exact g 30 2 1024 true Hg); [by split..|reflexivity].
Defined.
