(* ===== verification/Store.v ===== *)
(** The persistent object store ([store/src/lib.rs]), over any block device.

    Two superblock slots (LBA 0 and 1) alternate; each selects one of two data arenas. Names are
    Rust [String]s: lists of bytes that are valid UTF-8 ([from_utf8] is the standard library's
    check). Superblocks are encoded in one block, object data in whole blocks of an arena. *)

From Stdlib Require Import ZArith Lia.
From stdpp Require Import base list sorting tactics decidable numbers.
From S2P Require Import Prelude Bytes BlockDev.

Local Open Scope Z_scope.

Definition STORE_MAGIC : Z := 0x43534F31.
Definition STORE_VERSION : Z := 1.
Definition SUPERBLOCK_SLOTS : Z := 2.
Definition DATA_START_LBA : Z := SUPERBLOCK_SLOTS.
Definition MAX_OBJECTS : nat := 7.
Definition MAX_OBJECT_NAME_BYTES : nat := 32.
Definition HEADER_BYTES : nat := 48.
Definition ENTRY_BYTES : nat := 64.
(** [CHECKSUM_RANGE]: bytes 8..12. *)
Definition CHECKSUM_START : nat := 8.
Definition CHECKSUM_END : nat := 12.
Definition ENTRY_PRESENT_FLAG : Z := 1.

(** * Data *)

Record StoredObject : Type := MkObject {
  so_id : Z;
  so_name : list Z;
  so_data : list Z;
}.

#[export] Instance StoredObject_eq_dec : EqDecision StoredObject.
Proof. solve_decision. Defined.

Inductive IncompatibleFormatError : Type :=
| BadMagic
| UnsupportedVersion (v : Z).

Inductive CorruptFormatError : Type :=
| ChecksumMismatch
| InvalidHeader
| InvalidObjectCount (count : Z)
| InvalidNameEncoding
| DuplicateObjectId (i : Z)
| DuplicateObjectName
| InvalidObjectLength
| InvalidObjectExtent
| OverlappingObjectExtents
| ObjectChecksumMismatch.

Inductive StoreError : Type :=
| Block (e : BlockIoError)
| UnsupportedGeometry (logical_block_size block_count : Z)
| InvalidObjectName
| ObjectNameTooLong (len max : nat)
| ObjectTooLarge (len max : Z)
| ObjectTableFull (max_objects : nat)
| StorageFull (required_blocks available_blocks : Z)
| NotFound
| IdentityConflict
| GenerationExhausted
| Incompatible (e : IncompatibleFormatError)
| Corrupt (e : CorruptFormatError).

Record ObjectStore (D : Type) : Type := MkStore {
  st_device : D;
  st_geometry : BlockGeometry;
  st_generation : Z;
  active_slot : Z;
  objects : list StoredObject;
}.
Arguments MkStore {D}.
Arguments st_device {D}.
Arguments st_geometry {D}.
Arguments st_generation {D}.
Arguments active_slot {D}.
Arguments objects {D}.

Record ObjectLayout : Type := MkLayout {
  ol_id : Z;
  ol_name : list Z;
  ol_data : list Z;
  data_len : Z;
  start_lba : Z;
  ol_block_count : Z;
  data_checksum : Z;
}.

Record Superblock : Type := MkSuperblock {
  sb_generation : Z;
  object_count : Z;
  sb_objects : list ObjectLayout;
}.

Inductive SlotDecodeError : Type :=
| DecodeIncompatible (e : IncompatibleFormatError)
| DecodeCorrupt (e : CorruptFormatError).

Inductive SlotLoadError : Type :=
| LoadBlock (e : BlockIoError)
| LoadDecode (e : SlotDecodeError).

(** * Helpers *)

Definition write_u16 (bytes : list Z) (off : nat) (v : Z) : list Z := blit off (le_encode 2 v) bytes.
Definition write_u32 (bytes : list Z) (off : nat) (v : Z) : list Z := blit off (le_encode 4 v) bytes.
Definition write_u64 (bytes : list Z) (off : nat) (v : Z) : list Z := blit off (le_encode 8 v) bytes.

Fixpoint checksum_from (index : nat) (bytes : list Z) (sum : Z) : Z :=
  match bytes with
  | [] => sum
  | b :: bytes =>
      checksum_from (S index) bytes
        (if decide (CHECKSUM_START ≤ index < CHECKSUM_END)%nat then sum else wrapping_add 32 sum b)
  end.

Definition checksum (bytes : list Z) : Z := checksum_from 0 bytes 0.

(** [core::str::from_utf8]: well-formed UTF-8. *)
Definition is_continuation (b : Z) : bool := bool_decide (128 ≤ b ≤ 191).

Definition second_of_three (a b : Z) : bool :=
  bool_decide (a = 224 ∧ 160 ≤ b ≤ 191 ∨ 225 ≤ a ≤ 236 ∧ 128 ≤ b ≤ 191 ∨
               a = 237 ∧ 128 ≤ b ≤ 159 ∨ 238 ≤ a ≤ 239 ∧ 128 ≤ b ≤ 191).

Definition second_of_four (a b : Z) : bool :=
  bool_decide (a = 240 ∧ 144 ≤ b ≤ 191 ∨ 241 ≤ a ≤ 243 ∧ 128 ≤ b ≤ 191 ∨ a = 244 ∧ 128 ≤ b ≤ 143).

Fixpoint utf8_valid (l : list Z) : bool :=
  match l with
  | [] => true
  | a :: l =>
      if decide (a < 128) then utf8_valid l
      else if decide (194 ≤ a ≤ 223) then
        match l with b :: l => is_continuation b && utf8_valid l | _ => false end
      else if decide (224 ≤ a ≤ 239) then
        match l with
        | b :: c :: l => second_of_three a b && is_continuation c && utf8_valid l
        | _ => false
        end
      else if decide (240 ≤ a ≤ 244) then
        match l with
        | b :: c :: d :: l =>
            second_of_four a b && is_continuation c && is_continuation d && utf8_valid l
        | _ => false
        end
      else false
  end.

Definition block_size_bytes (g : BlockGeometry) : nat := Z.to_nat (logical_block_size g).

Definition data_arena_blocks (g : BlockGeometry) : Z :=
  saturating_sub (block_count g) DATA_START_LBA / SUPERBLOCK_SLOTS.

Definition slot_data_arena (g : BlockGeometry) (slot : Z) : Z * Z :=
  let arena_blocks := data_arena_blocks g in
  let start := DATA_START_LBA + slot * arena_blocks in
  (start, start + arena_blocks).

Definition validate_geometry (g : BlockGeometry) : result StoreError BlockGeometry :=
  let unsupported := UnsupportedGeometry (logical_block_size g) (block_count g) in
  let min_block_size := Z.of_nat (HEADER_BYTES + ENTRY_BYTES * MAX_OBJECTS) in
  if decide (logical_block_size g < min_block_size ∨ max_transfer_blocks g = 0) then Err unsupported
  else if decide (data_arena_blocks g = 0) then Err unsupported
  else Ok g.

Definition validate_object_name (name : list Z) : result StoreError unit :=
  if decide (name = []) then Err InvalidObjectName
  else if decide (MAX_OBJECT_NAME_BYTES < length name)%nat
  then Err (ObjectNameTooLong (length name) MAX_OBJECT_NAME_BYTES)
  else Ok ().

(** * Superblocks *)

Definition write_entry (bytes : list Z) (index : nat) (o : ObjectLayout) : list Z :=
  let start := (HEADER_BYTES + ENTRY_BYTES * index)%nat in
  let bytes := <[start := ENTRY_PRESENT_FLAG]> bytes in
  let bytes := write_u16 bytes (start + 2) (Z.of_nat (length (ol_name o))) in
  let bytes := write_u32 bytes (start + 4) (data_len o) in
  let bytes := write_u64 bytes (start + 8) (start_lba o) in
  let bytes := write_u32 bytes (start + 16) (ol_block_count o) in
  let bytes := write_u32 bytes (start + 20) (data_checksum o) in
  let bytes := write_u64 bytes (start + 24) (ol_id o) in
  blit (start + 32) (ol_name o) bytes.

Fixpoint write_entries (index : nat) (os : list ObjectLayout) (bytes : list Z) : list Z :=
  match os with
  | [] => bytes
  | o :: os => write_entries (S index) os (write_entry bytes index o)
  end.

Definition encode_header (g : BlockGeometry) (sb : Superblock) : list Z :=
  let bytes := replicate (block_size_bytes g) 0 in
  let bytes := write_u32 bytes 0 STORE_MAGIC in
  let bytes := write_u16 bytes 4 STORE_VERSION in
  let bytes := write_u64 bytes 12 (sb_generation sb) in
  let bytes := write_u32 bytes 20 (logical_block_size g) in
  let bytes := write_u64 bytes 24 (block_count g) in
  let bytes := write_u32 bytes 32 (Z.of_nat MAX_OBJECTS) in
  let bytes := write_u32 bytes 36 (object_count sb) in
  write_u64 bytes 40 DATA_START_LBA.

Definition encode_superblock (g : BlockGeometry) (sb : Superblock) : list Z :=
  let bytes := write_entries 0 (sb_objects sb) (encode_header g sb) in
  write_u32 bytes CHECKSUM_START (checksum bytes).

(** One turn of the entry loop of [decode_superblock]. *)
Definition decode_entry (bytes : list Z) (index : nat) (os : list ObjectLayout)
  : result SlotDecodeError (list ObjectLayout) :=
  let start := (HEADER_BYTES + ENTRY_BYTES * index)%nat in
  let flags := nth start bytes 0 in
  if decide (Z.land flags (Z.lxor 255 ENTRY_PRESENT_FLAG) ≠ 0) then Err (DecodeCorrupt InvalidHeader)
  else if decide (Z.land flags ENTRY_PRESENT_FLAG = 0) then Ok os
  else
    let name_len := Z.to_nat (u16_at (start + 2) bytes) in
    if decide (name_len = 0 ∨ MAX_OBJECT_NAME_BYTES < name_len)%nat
    then Err (DecodeCorrupt InvalidNameEncoding)
    else
      let name_bytes := slice (start + 32) (start + 32 + MAX_OBJECT_NAME_BYTES) bytes in
      if existsb (λ b, negb (bool_decide (b = 0))) (drop name_len name_bytes)
      then Err (DecodeCorrupt InvalidNameEncoding)
      else
        let name := take name_len name_bytes in
        if negb (utf8_valid name) then Err (DecodeCorrupt InvalidNameEncoding)
        else
          Ok (os ++ [MkLayout (u64_at (start + 24) bytes) name [] (u32_at (start + 4) bytes)
                       (u64_at (start + 8) bytes) (u32_at (start + 16) bytes)
                       (u32_at (start + 20) bytes)]).

(** One turn of the first loop of [validate_layouts]. *)
Definition validate_layout (g : BlockGeometry) (slot : Z) (earlier : list ObjectLayout) (o : ObjectLayout)
  : result CorruptFormatError unit :=
  let '(arena_start, arena_end) := slot_data_arena g slot in
  if existsb (λ other, bool_decide (ol_id other = ol_id o)) earlier
  then Err (DuplicateObjectId (ol_id o))
  else if existsb (λ other, bool_decide (ol_name other = ol_name o)) earlier
  then Err DuplicateObjectName
  else if decide (data_len o = 0) then
    if decide (ol_block_count o ≠ 0 ∨ start_lba o < arena_start ∨ arena_end < start_lba o)
    then Err InvalidObjectExtent else Ok ()
  else if decide (ol_block_count o = 0) then Err InvalidObjectExtent
  else if decide (ol_block_count o * logical_block_size g < data_len o) then Err InvalidObjectLength
  else
    let? end_lba := ok_or (checked_add 64 (start_lba o) (ol_block_count o)) InvalidObjectExtent in
    if decide (start_lba o < arena_start ∨ arena_end < end_lba) then Err InvalidObjectExtent
    else Ok ().

(** [windows(2)] *)
Fixpoint windows_ok (ranges : list (Z * Z)) : bool :=
  match ranges with
  | r0 :: (r1 :: _) as rest => bool_decide (snd r0 ≤ fst r1) && windows_ok rest
  | _ => true
  end.

(** Ranges with equal starts come in any order in the source; both orders overlap. *)
Definition starts_before (a b : Z * Z) : Prop := fst a ≤ fst b.

#[export] Instance starts_before_dec a b : Decision (starts_before a b).
Proof. unfold starts_before. apply _. Defined.

Definition sort_ranges (ranges : list (Z * Z)) : list (Z * Z) := merge_sort starts_before ranges.

Definition extents (os : list ObjectLayout) : list (Z * Z) :=
  (λ o, (start_lba o, start_lba o + ol_block_count o)) <$>
    List.filter (λ o, negb (bool_decide (ol_block_count o = 0))) os.

Definition validate_layouts (g : BlockGeometry) (slot : Z) (os : list ObjectLayout)
  : result CorruptFormatError unit :=
  let? _ := try_range 0 (length os) (λ i (_ : unit),
              match os !! i with
              | Some o => validate_layout g slot (take i os) o
              | None => Ok ()
              end) () in
  if windows_ok (sort_ranges (extents os)) then Ok () else Err OverlappingObjectExtents.

Definition decode_superblock (g : BlockGeometry) (slot : Z) (bytes : list Z)
  : result SlotDecodeError Superblock :=
  if decide (u32_at 0 bytes ≠ STORE_MAGIC) then Err (DecodeIncompatible BadMagic)
  else if decide (u16_at 4 bytes ≠ STORE_VERSION)
  then Err (DecodeIncompatible (UnsupportedVersion (u16_at 4 bytes)))
  else if decide (checksum bytes ≠ u32_at CHECKSUM_START bytes)
  then Err (DecodeCorrupt ChecksumMismatch)
  else
    let expected_block_size := u32_at 20 bytes in
    let expected_block_count := u64_at 24 bytes in
    let max_objects := u32_at 32 bytes in
    let count := u32_at 36 bytes in
    let data_start_lba := u64_at 40 bytes in
    if decide (expected_block_size ≠ logical_block_size g ∨ expected_block_count ≠ block_count g ∨
               max_objects ≠ Z.of_nat MAX_OBJECTS ∨ data_start_lba ≠ DATA_START_LBA ∨
               Z.of_nat MAX_OBJECTS < count)
    then Err (DecodeCorrupt InvalidHeader)
    else
      let generation := u64_at 12 bytes in
      let? os := try_range 0 MAX_OBJECTS (decode_entry bytes) [] in
      if decide (Z.of_nat (length os) ≠ count) then Err (DecodeCorrupt (InvalidObjectCount count))
      else
        let? _ := map_err DecodeCorrupt (validate_layouts g slot os) in
        Ok (MkSuperblock generation count os).

(** * Object data and layout *)

Definition build_layout (g : BlockGeometry) (o : StoredObject) (s : Z * list ObjectLayout)
  : result StoreError (Z * list ObjectLayout) :=
  let '(next_lba, layouts) := s in
  let block_size := logical_block_size g in
  let? _ := validate_object_name (so_name o) in
  let len := Z.of_nat (length (so_data o)) in
  if decide (u32_max < len) then Err (ObjectTooLarge len u32_max)
  else
    let blocks := if decide (so_data o = []) then 0 else (len + (block_size - 1)) / block_size in
    let? next := ok_or (checked_add 64 next_lba blocks) (StorageFull u64_max (data_arena_blocks g)) in
    Ok (next, layouts ++ [MkLayout (so_id o) (so_name o) (so_data o) len next_lba blocks
                            (checksum (so_data o))]).

Definition build_object_layout (g : BlockGeometry) (slot : Z) (os : list StoredObject)
  : result StoreError (list ObjectLayout) :=
  let '(arena_start, arena_end) := slot_data_arena g slot in
  let? (next_lba, layouts) := try_fold (build_layout g) os (arena_start, []) in
  if decide (arena_end < next_lba)
  then Err (StorageFull (saturating_sub next_lba arena_start) (data_arena_blocks g))
  else Ok layouts.

(** Rounds of at most [max_transfer_blocks] blocks. *)
Definition chunk_count (g : BlockGeometry) (total_blocks : Z) : nat :=
  Z.to_nat ((total_blocks + (max_transfer_blocks g - 1)) / max_transfer_blocks g).

Section device.
Context {D : Type} `{BlockDevice D}.

Definition block_error {A : Type} (r : D * result BlockIoError A) : D * result StoreError A :=
  (fst r, map_err Block (snd r)).

Definition write_superblock (g : BlockGeometry) (slot : Z) (sb : Superblock) (d : D)
  : D * result StoreError unit :=
  block_error (write_blocks slot 1 (encode_superblock g sb) d).

Definition write_chunk (g : BlockGeometry) (o : ObjectLayout) (chunk_index : nat) (d : D)
  : D * result StoreError unit :=
  let max_blocks := Z.to_nat (max_transfer_blocks g) in
  let total_blocks := Z.to_nat (ol_block_count o) in
  let chunk_start_block := (chunk_index * max_blocks)%nat in
  let chunk_blocks := Nat.min max_blocks (total_blocks - chunk_start_block) in
  let buffer := replicate (chunk_blocks * block_size_bytes g) 0 in
  let data_start := (chunk_start_block * block_size_bytes g)%nat in
  let data_end := Nat.min (length (ol_data o)) (data_start + length buffer) in
  let buffer := if decide (data_start < data_end)%nat
                then blit 0 (slice data_start data_end (ol_data o)) buffer else buffer in
  block_error (write_blocks (start_lba o + Z.of_nat chunk_start_block) (Z.of_nat chunk_blocks) buffer d).

Definition write_object_data (g : BlockGeometry) (o : ObjectLayout) (d : D)
  : D * result StoreError unit :=
  if decide (ol_block_count o = 0) then (d, Ok ())
  else try_each (write_chunk g o) (seq 0 (chunk_count g (ol_block_count o))) d.

Definition read_chunk (g : BlockGeometry) (start : Z) (total_blocks : Z) (chunk_index : nat)
    (s : D * list Z) : (D * list Z) * result StoreError unit :=
  let '(d, buffer) := s in
  let max_blocks := Z.to_nat (max_transfer_blocks g) in
  let chunk_start_block := (chunk_index * max_blocks)%nat in
  let chunk_blocks := Nat.min max_blocks (Z.to_nat total_blocks - chunk_start_block) in
  let byte_start := (chunk_start_block * block_size_bytes g)%nat in
  let byte_end := (byte_start + chunk_blocks * block_size_bytes g)%nat in
  match read_blocks (start + Z.of_nat chunk_start_block) (Z.of_nat chunk_blocks)
          (byte_end - byte_start) d with
  | (d, Ok bytes) => ((d, blit byte_start bytes buffer), Ok ())
  | (d, Err e) => ((d, buffer), Err (Block e))
  end.

Definition read_blocks_chunked (g : BlockGeometry) (start total_blocks : Z) (buffer : list Z) (d : D)
  : (D * list Z) * result StoreError unit :=
  try_each (read_chunk g start total_blocks) (seq 0 (chunk_count g total_blocks)) (d, buffer).

Definition read_object_data (g : BlockGeometry) (o : ObjectLayout) (d : D)
  : D * result StoreError (list Z) :=
  if decide (ol_block_count o = 0) then (d, Ok [])
  else
    let total_len := (Z.to_nat (ol_block_count o) * block_size_bytes g)%nat in
    match read_blocks_chunked g (start_lba o) (ol_block_count o) (replicate total_len 0) d with
    | ((d, _), Err e) => (d, Err e)
    | ((d, bytes), Ok _) =>
        let bytes := take (Z.to_nat (data_len o)) bytes in
        if decide (checksum bytes ≠ data_checksum o)
        then (d, Err (Corrupt ObjectChecksumMismatch)) else (d, Ok bytes)
    end.

Fixpoint load_objects (g : BlockGeometry) (layouts : list ObjectLayout) (d : D)
  : D * result StoreError (list StoredObject) :=
  match layouts with
  | [] => (d, Ok [])
  | o :: layouts =>
      let?+ d, data := read_object_data g o d in
      let?+ d, os := load_objects g layouts d in
      (d, Ok (MkObject (ol_id o) (ol_name o) data :: os))
  end.

Definition read_superblock_slot (g : BlockGeometry) (slot : Z) (d : D)
  : D * result SlotLoadError Superblock :=
  match read_blocks slot 1 (block_size_bytes g) d with
  | (d, Err e) => (d, Err (LoadBlock e))
  | (d, Ok bytes) => (d, map_err LoadDecode (decode_superblock g slot bytes))
  end.

(** * Mounting *)

(** The last error of each kind. *)
Record SlotErrors : Type := MkErrors {
  block_err : option BlockIoError;
  incompatible_err : option IncompatibleFormatError;
  corrupt_err : option CorruptFormatError;
}.

Definition note_slot (slot : Z) (r : result SlotLoadError Superblock)
    (s : list (Z * Superblock) * SlotErrors) : list (Z * Superblock) * SlotErrors :=
  let '(candidates, e) := s in
  match r with
  | Ok sb => (candidates ++ [(slot, sb)], e)
  | Err (LoadBlock x) => (candidates, MkErrors (Some x) (incompatible_err e) (corrupt_err e))
  | Err (LoadDecode (DecodeIncompatible x)) => (candidates, MkErrors (block_err e) (Some x) (corrupt_err e))
  | Err (LoadDecode (DecodeCorrupt x)) => (candidates, MkErrors (block_err e) (incompatible_err e) (Some x))
  end.

(** Newest first; the lower slot first among equals. *)
Definition newer_first (a b : Z * Superblock) : Prop :=
  sb_generation (snd b) < sb_generation (snd a) ∨
  sb_generation (snd b) = sb_generation (snd a) ∧ fst a ≤ fst b.

#[export] Instance newer_first_dec a b : Decision (newer_first a b).
Proof. unfold newer_first. apply _. Defined.

Fixpoint try_candidates (g : BlockGeometry) (candidates : list (Z * Superblock)) (e : SlotErrors) (d : D)
  : D * result StoreError (Z * Superblock * list StoredObject) :=
  match candidates with
  | [] =>
      (d, Err match e with
              | MkErrors (Some x) _ _ => Block x
              | MkErrors None (Some x) _ => Incompatible x
              | MkErrors None None (Some x) => Corrupt x
              | MkErrors None None None => Incompatible BadMagic
              end)
  | (slot, sb) :: candidates =>
      match load_objects g (sb_objects sb) d with
      | (d, Ok os) => (d, Ok (slot, sb, os))
      | (d, Err (Corrupt x)) =>
          try_candidates g candidates (MkErrors (block_err e) (incompatible_err e) (Some x)) d
      | (d, Err (Block x)) =>
          try_candidates g candidates (MkErrors (Some x) (incompatible_err e) (corrupt_err e)) d
      | (d, Err (Incompatible x)) =>
          try_candidates g candidates (MkErrors (block_err e) (Some x) (corrupt_err e)) d
      | (d, Err other) => (d, Err other)
      end
  end.

Definition select_committed_state (g : BlockGeometry) (d : D)
  : D * result StoreError (Z * Superblock * list StoredObject) :=
  let '(d, slot0) := read_superblock_slot g 0 d in
  let '(d, slot1) := read_superblock_slot g 1 d in
  let '(candidates, e) := note_slot 1 slot1 (note_slot 0 slot0 ([], MkErrors None None None)) in
  try_candidates g (merge_sort newer_first candidates) e d.

(** * The store *)

Definition format (d : D) : result StoreError (ObjectStore D) :=
  let? g := validate_geometry (geometry d) in
  let sb := MkSuperblock 0 0 [] in
  match write_superblock g 0 sb d with
  | (_, Err e) => Err e
  | (d, Ok _) =>
      match write_superblock g 1 sb d with
      | (_, Err e) => Err e
      | (d, Ok _) =>
          match flush d with
          | (_, Err e) => Err (Block e)
          | (d, Ok _) => Ok (MkStore d g 0 0 [])
          end
      end
  end.

Definition mount (d : D) : result StoreError (ObjectStore D) :=
  let? g := validate_geometry (geometry d) in
  match select_committed_state g d with
  | (_, Err e) => Err e
  | (d, Ok (slot, sb, os)) => Ok (MkStore d g (sb_generation sb) slot os)
  end.

Definition with_objects (os : list StoredObject) (s : ObjectStore D) : ObjectStore D :=
  MkStore (st_device s) (st_geometry s) (st_generation s) (active_slot s) os.

Definition write_object (i : Z) (name data : list Z) (s : ObjectStore D)
  : ObjectStore D * result StoreError unit :=
  match validate_object_name name with
  | Err e => (s, Err e)
  | Ok _ =>
      let len := Z.of_nat (length data) in
      if decide (u32_max < len) then (s, Err (ObjectTooLarge len u32_max))
      else
        let id_index := position (λ o, bool_decide (so_id o = i)) (objects s) in
        let name_index := position (λ o, bool_decide (so_name o = name)) (objects s) in
        let put index := (with_objects (<[index := MkObject i name data]> (objects s)) s, Ok ()) in
        match id_index, name_index with
        | Some i1, Some i2 => if decide (i1 = i2) then put i1 else (s, Err IdentityConflict)
        | Some index, None | None, Some index => put index
        | None, None =>
            if decide (length (objects s) = MAX_OBJECTS) then (s, Err (ObjectTableFull MAX_OBJECTS))
            else (with_objects (objects s ++ [MkObject i name data]) s, Ok ())
        end
  end.

Definition read_object_by_id (i : Z) (s : ObjectStore D) : result StoreError (list Z) :=
  ok_or (so_data <$> find_first (λ o, bool_decide (so_id o = i)) (objects s)) NotFound.

Definition read_object_by_name (name : list Z) (s : ObjectStore D) : result StoreError (list Z) :=
  ok_or (so_data <$> find_first (λ o, bool_decide (so_name o = name)) (objects s)) NotFound.

Definition with_device (d : D) (s : ObjectStore D) : ObjectStore D :=
  MkStore d (st_geometry s) (st_generation s) (active_slot s) (objects s).

Definition commit (s : ObjectStore D) : ObjectStore D * result StoreError unit :=
  let next_slot := (active_slot s + 1) mod SUPERBLOCK_SLOTS in
  match checked_add 64 (st_generation s) 1 with
  | None => (s, Err GenerationExhausted)
  | Some next_generation =>
      match build_object_layout (st_geometry s) next_slot (objects s) with
      | Err e => (s, Err e)
      | Ok layout =>
          match try_each (write_object_data (st_geometry s)) layout (st_device s) with
          | (d, Err e) => (with_device d s, Err e)
          | (d, Ok _) =>
              let sb := MkSuperblock next_generation (Z.of_nat (length layout)) layout in
              match write_superblock (st_geometry s) next_slot sb d with
              | (d, Err e) => (with_device d s, Err e)
              | (d, Ok _) =>
                  match flush d with
                  | (d, Err e) => (with_device d s, Err (Block e))
                  | (d, Ok _) => (MkStore d (st_geometry s) next_generation next_slot (objects s), Ok ())
                  end
              end
          end
      end
  end.
End device.
