(* ===== verification/StoreCodec.v ===== *)
(** The superblock format of [store/src/lib.rs]: what is encoded decodes to itself, and what
    decodes is well formed. *)

From Stdlib Require Import ZArith Lia.
From stdpp Require Import base list sorting tactics decidable numbers.
From S2P Require Import Prelude Bytes BlockDev Store.

Local Open Scope Z_scope.

(** * Checksums *)

Lemma checksum_from_width i l s : in_width 32 s → in_width 32 (checksum_from i l s).
Proof.
  revert i s. induction l as [|b l IH]; intros i s Hs; [done|]. simpl. apply IH. case_decide; [done|].
  by apply wrap_in_width.
Qed.

Lemma checksum_width l : in_width 32 (checksum l).
Proof. by apply checksum_from_width. Qed.

Lemma checksum_from_ext i l l' s :
  length l = length l' →
  (∀ k, ¬ (CHECKSUM_START ≤ i + k < CHECKSUM_END)%nat → l !! k = l' !! k) →
  checksum_from i l s = checksum_from i l' s.
Proof.
  revert i l' s. induction l as [|b l IH]; intros i [|b' l'] s Hlen Hk; simplify_eq/=; [done|].
  rewrite (IH (S i) l'); [|done|].
  - case_decide as Hi; [done|]. pose proof (Hk 0%nat) as H0. rewrite Nat.add_0_r in H0.
    specialize (H0 Hi). by simplify_eq/=.
  - intros k Hn. apply (Hk (S k)). by rewrite Nat.add_succ_r.
Qed.

Lemma checksum_field l v :
  (CHECKSUM_END ≤ length l)%nat → checksum (write_u32 l CHECKSUM_START v) = checksum l.
Proof.
  intros Hl. apply checksum_from_ext; [apply length_blit|]. intros k Hk. unfold write_u32.
  unfold CHECKSUM_START, CHECKSUM_END in *.
  rewrite blit_lookup, length_le_encode, decide_False by (rewrite ?length_le_encode; lia). done.
Qed.

(** * Entries *)

(** [write_entry] at an arbitrary offset. *)
Definition put_entry (start : nat) (o : ObjectLayout) (bytes : list Z) : list Z :=
  blit (start + 32) (ol_name o)
    (write_u64 (write_u32 (write_u32 (write_u64 (write_u32 (write_u16 (blit start [ENTRY_PRESENT_FLAG] bytes)
      (start + 2) (Z.of_nat (length (ol_name o)))) (start + 4) (data_len o)) (start + 8) (start_lba o))
      (start + 16) (ol_block_count o)) (start + 20) (data_checksum o)) (start + 24) (ol_id o)).

Lemma insert_blit {A} (l : list A) i x : (i < length l)%nat → <[i := x]> l = blit i [x] l.
Proof.
  intros Hi. apply list_eq. intros k. rewrite blit_lookup by (simpl; lia). simpl.
  destruct (decide (k = i)) as [->|Hk].
  - rewrite list_lookup_insert_eq, decide_True, Nat.sub_diag by lia. done.
  - rewrite list_lookup_insert_ne, decide_False by lia. done.
Qed.

Lemma write_entry_put bytes k o :
  (HEADER_BYTES + ENTRY_BYTES * k < length bytes)%nat →
  write_entry bytes k o = put_entry (HEADER_BYTES + ENTRY_BYTES * k) o bytes.
Proof. intros H. unfold write_entry, put_entry. by rewrite insert_blit. Qed.

Lemma slice_blit_shift {A} s e off (v l : list A) :
  (s + off + length v ≤ e)%nat → (e ≤ length l)%nat →
  slice s e (blit (s + off) v l) = blit off v (slice s e l).
Proof.
  intros H1 H2. apply list_eq. intros i.
  rewrite slice_lookup, blit_lookup, blit_lookup by (rewrite ?length_slice; lia).
  rewrite slice_lookup. repeat case_decide; try done; try lia. f_equal. lia.
Qed.

Ltac solve_len' :=
  unfold write_u16, write_u32, write_u64;
  rewrite ?length_blit, ?length_le_encode, ?length_replicate; cbn [length]; lia.

Lemma length_put_entry s o l : length (put_entry s o l) = length l.
Proof. unfold put_entry, write_u16, write_u32, write_u64. by rewrite !length_blit. Qed.

Lemma slice_put_same s o l :
  (s + 64 ≤ length l)%nat → (length (ol_name o) ≤ 32)%nat →
  slice s (s + 64) (put_entry s o l) = put_entry 0 o (slice s (s + 64) l).
Proof.
  intros Hl Hn. unfold put_entry, write_u16, write_u32, write_u64. simpl Nat.add.
  rewrite !slice_blit_shift by solve_len'. do 7 f_equal.
  pose proof (slice_blit_shift s (s + 64) 0 [ENTRY_PRESENT_FLAG] l) as H0.
  rewrite Nat.add_0_r in H0. apply H0; simpl; lia.
Qed.

Lemma slice_put_other s o l a b :
  (s + 64 ≤ length l)%nat → (length (ol_name o) ≤ 32)%nat → (b ≤ s ∨ s + 64 ≤ a)%nat →
  slice a b (put_entry s o l) = slice a b l.
Proof.
  intros Hl Hn Hd. unfold put_entry, write_u16, write_u32, write_u64.
  by rewrite !slice_blit_ne by solve_len'.
Qed.

(** What a present entry looks like. *)
Definition entry_bytes (o : ObjectLayout) : list Z := put_entry 0 o (replicate 64 0).

Definition entry_start (k : nat) : nat := (HEADER_BYTES + ENTRY_BYTES * k)%nat.

Definition entry (k : nat) (bytes : list Z) : list Z := slice (entry_start k) (entry_start k + 64) bytes.

Lemma write_entries_spec k os bytes :
  (entry_start (k + length os) ≤ length bytes)%nat →
  Forall (λ o, (length (ol_name o) ≤ 32)%nat) os →
  (∀ i, (k ≤ i < k + length os)%nat → entry i bytes = replicate 64 0) →
  let bytes' := write_entries k os bytes in
  length bytes' = length bytes ∧
  (∀ i o, os !! i = Some o → entry (k + i) bytes' = entry_bytes o) ∧
  (∀ a b, (b ≤ entry_start k ∨ entry_start (k + length os) ≤ a)%nat → slice a b bytes' = slice a b bytes).
Proof.
  revert k bytes. induction os as [|o os IH]; intros k bytes Hl Hn Hz; [done|].
  apply Forall_cons_1 in Hn as [Hno Hn]. unfold entry_start, HEADER_BYTES, ENTRY_BYTES in *. cbn [length] in *.
  assert (48 + 64 * k + 64 ≤ length bytes)%nat as Hk by lia.
  cbn [write_entries]. rewrite write_entry_put by (unfold HEADER_BYTES, ENTRY_BYTES; lia).
  unfold HEADER_BYTES, ENTRY_BYTES.
  destruct (IH (S k) (put_entry (48 + 64 * k) o bytes)) as (H1 & H2 & H3).
  - rewrite length_put_entry. lia.
  - done.
  - intros i Hi. unfold entry, entry_start, HEADER_BYTES, ENTRY_BYTES. rewrite slice_put_other by lia.
    apply Hz. lia.
  - rewrite length_put_entry in H1. split_and!; [done|..].
    + intros [|i] o' Ho; [change (Some o = Some o') in Ho; injection Ho as <-|change (os !! i = Some o') in Ho].
      * rewrite Nat.add_0_r. unfold entry, entry_start, HEADER_BYTES, ENTRY_BYTES.
        rewrite H3 by lia. rewrite slice_put_same by lia. unfold entry_bytes. f_equal. apply Hz. lia.
      * rewrite Nat.add_succ_r, <- Nat.add_succ_l. by apply H2.
    + intros a b Hab. rewrite H3 by lia. apply slice_put_other; lia.
Qed.

(** A layout that fits its fields. *)
Record layout_typed (o : ObjectLayout) : Prop := {
  lt_id : in_width 64 (ol_id o);
  lt_name : (1 ≤ length (ol_name o) ≤ 32)%nat;
  lt_utf8 : utf8_valid (ol_name o) = true;
  lt_len : in_width 32 (data_len o);
  lt_start : in_width 64 (start_lba o);
  lt_blocks : in_width 32 (ol_block_count o);
  lt_checksum : in_width 32 (data_checksum o);
}.

(** The layout without its data, as a decoder returns it. *)
Definition erase (o : ObjectLayout) : ObjectLayout :=
  MkLayout (ol_id o) (ol_name o) [] (data_len o) (start_lba o) (ol_block_count o) (data_checksum o).

Lemma nth_slice (l : list Z) a b i : (a + i < b)%nat → nth (a + i) l 0 = nth i (slice a b l) 0.
Proof.
  intros H. rewrite !nth_lookup. by rewrite slice_lookup, decide_True by lia.
Qed.

(** Reading a field of an entry is reading a field of its 64 bytes. *)
Lemma decode_entry_slice bytes bytes' k k' os :
  entry k bytes = entry k' bytes' → decode_entry bytes k os = decode_entry bytes' k' os.
Proof.
  intros E. unfold entry, entry_start in E. unfold decode_entry.
  set (s := (HEADER_BYTES + ENTRY_BYTES * k)%nat) in *. set (s' := (HEADER_BYTES + ENTRY_BYTES * k')%nat) in *.
  clearbody s s'.
  assert (∀ a b, (b ≤ 64)%nat → slice (s + a) (s + b) bytes = slice (s' + a) (s' + b) bytes') as Hf.
  { intros a b Hb. rewrite <- (slice_slice s (s + 64)), <- (slice_slice s' (s' + 64)) by lia. by rewrite E. }
  assert (nth s bytes 0 = nth s' bytes' 0) as ->.
  { rewrite <- (Nat.add_0_r s), <- (Nat.add_0_r s') at 1.
    rewrite (nth_slice _ s (s + 64)), (nth_slice _ s' (s' + 64)) by lia. by rewrite E. }
  unfold u16_at, u32_at, u64_at, MAX_OBJECT_NAME_BYTES.
  rewrite <- !Nat.add_assoc. simpl Nat.add. by rewrite !Hf by lia.
Qed.

Lemma entry_name_bytes o :
  (length (ol_name o) ≤ 32)%nat →
  slice 32 64 (entry_bytes o) = ol_name o ++ replicate (32 - length (ol_name o)) 0.
Proof.
  intros Hn. unfold entry_bytes, put_entry, write_u16, write_u32, write_u64. simpl Nat.add.
  rewrite (slice_split 32 (32 + length (ol_name o)) 64) by lia. f_equal.
  - by rewrite slice_blit_eq by solve_len'.
  - rewrite !slice_blit_ne by solve_len'. by rewrite slice_replicate by lia.
Qed.

Lemma decode_entry_present bytes k o os :
  layout_typed o → entry k bytes = entry_bytes o → decode_entry bytes k os = Ok (os ++ [erase o]).
Proof.
  intros [Hid Hname Hutf Hlen Hst Hbl Hck] E. unfold entry, entry_start in E. unfold decode_entry.
  set (s := (HEADER_BYTES + ENTRY_BYTES * k)%nat) in *. clearbody s.
  assert (∀ a b, (b ≤ 64)%nat → slice (s + a) (s + b) bytes = slice a b (entry_bytes o)) as Hf.
  { intros a b Hb. rewrite <- (slice_slice s (s + 64)) by lia. by rewrite E. }
  assert (nth s bytes 0 = 1) as ->.
  { rewrite <- (Nat.add_0_r s). rewrite (nth_slice _ s (s + 64)) by lia. rewrite E.
    pose proof (nth_slice (entry_bytes o) 0 1 0 ltac:(lia)) as H0. simpl Nat.add in H0. rewrite H0.
    unfold entry_bytes, put_entry, write_u16, write_u32, write_u64.
    simpl Nat.add. by read_field. }
  unfold u16_at, u32_at, u64_at, MAX_OBJECT_NAME_BYTES.
  rewrite <- !Nat.add_assoc. simpl Nat.add. rewrite !Hf, entry_name_bytes by lia.
  change (Z.land 1 (Z.lxor 255 ENTRY_PRESENT_FLAG)) with 0. change (Z.land 1 ENTRY_PRESENT_FLAG) with 1.
  rewrite decide_False, decide_False by lia.
  assert (slice 2 4 (entry_bytes o) = le_encode 2 (Z.of_nat (length (ol_name o)))) as ->.
  { unfold entry_bytes, put_entry, write_u16, write_u32, write_u64. simpl Nat.add. by read_field. }
  rewrite le_u16, Nat2Z.id by (unfold in_width; lia). rewrite decide_False by lia.
  rewrite drop_app_length, take_app_length.
  assert (existsb (λ b, negb (bool_decide (b = 0))) (replicate (32 - length (ol_name o)) 0) = false) as ->.
  { apply not_true_iff_false. rewrite existsb_exists. intros (x & Hx%list_elem_of_In & Hne).
    apply elem_of_replicate in Hx as [-> _]. done. }
  rewrite Hutf. cbn [negb]. do 4 f_equal. unfold erase, entry_bytes, put_entry, write_u16, write_u32, write_u64.
  simpl Nat.add. f_equal; read_field; by rewrite ?le_u32, ?le_u64.
Qed.

Lemma decode_entry_absent bytes k os :
  entry k bytes = replicate 64 0 → decode_entry bytes k os = Ok os.
Proof.
  intros E. unfold entry, entry_start in E. unfold decode_entry.
  assert (nth (HEADER_BYTES + ENTRY_BYTES * k) bytes 0 = 0) as ->; [|done].
  rewrite <- (Nat.add_0_r (HEADER_BYTES + ENTRY_BYTES * k)).
  rewrite (nth_slice _ _ (HEADER_BYTES + ENTRY_BYTES * k + 64)) by lia. by rewrite E.
Qed.

(** The entry loop on a table of [length os] entries. *)
Lemma decode_entries bytes os :
  (length os ≤ MAX_OBJECTS)%nat → Forall layout_typed os →
  (∀ i o, os !! i = Some o → entry i bytes = entry_bytes o) →
  (∀ i, (length os ≤ i < MAX_OBJECTS)%nat → entry i bytes = replicate 64 0) →
  try_range 0 MAX_OBJECTS (decode_entry bytes) [] = Ok (erase <$> os).
Proof.
  intros Hlen Htyped Hpresent Habsent.
  destruct (try_range_ind (λ i l, l = erase <$> take i os) (decode_entry bytes) 0 MAX_OBJECTS [])
    as (l & -> & ->); [lia|done| |by rewrite take_ge].
  intros i l Hi ->. destruct (os !! i) as [o|] eqn:Ho.
  - exists (erase <$> take (S i) os). split; [|done].
    rewrite (take_S_r _ _ _ Ho), fmap_app. apply decode_entry_present; [by eapply Forall_lookup|by apply Hpresent].
  - apply lookup_ge_None in Ho. exists (erase <$> take i os). rewrite !take_ge by lia.
    split; [|done]. apply decode_entry_absent, Habsent. lia.
Qed.

(** * Layouts *)

Definition disjoint (a b : Z * Z) : Prop := snd a ≤ fst b ∨ snd b ≤ fst a.

Definition apart (l : list (Z * Z)) : Prop := ForallOrdPairs disjoint l.

Lemma apart_perm l l' : l ≡ₚ l' → apart l → apart l'.
Proof.
  induction 1 as [|x l l' Hp IH|x y l|l1 l2 l3 _ IH1 _ IH2]; intros H; auto.
  - inversion H as [|? ? Hx Hl]; subst. constructor; [by rewrite <- Hp|exact (IH Hl)].
  - inversion H as [|? ? Hy Hl]; subst. inversion Hl as [|? ? Hx Hl']; subst.
    inversion Hy as [|? ? Hyx Hyl]; subst. constructor; [constructor|constructor]; auto.
    unfold disjoint in *. tauto.
Qed.

Lemma windows_apart l : Forall (λ r, fst r < snd r) l → windows_ok l = true → apart l.
Proof.
  intros Hne. induction l as [|a l IH]; [constructor|]. apply Forall_cons_1 in Hne as [Ha Hne].
  intros Hw. assert (windows_ok l = true ∧ ∀ b l', l = b :: l' → snd a ≤ fst b) as [Hw' Hab].
  { destruct l as [|b l]; [done|]. simpl in Hw.
    apply andb_true_iff in Hw as [H1%bool_decide_eq_true H2]. split; [done|]. by intros ?? [= <- _]. }
  specialize (IH Hne Hw'). constructor; [|done]. clear Hw IH.
  assert (∀ m, snd a ≤ m → (∀ b l', l = b :: l' → m ≤ fst b) → Forall (disjoint a) l) as Hall;
    [|by apply (Hall (snd a))].
  clear Hab. induction l as [|b l IH]; intros m Hm Hb; [constructor|].
  apply Forall_cons_1 in Hne as [Hbne Hne]. specialize (Hb b l eq_refl).
  constructor; [left; lia|]. destruct l as [|c l]; [constructor|]. simpl in Hw'.
  apply andb_true_iff in Hw' as [H1%bool_decide_eq_true H2]. apply (IH Hne H2 (fst c)); [lia|].
  by intros ?? [= <- _].
Qed.

Lemma apart_windows l :
  Sorted starts_before l → Forall (λ r, fst r < snd r) l → apart l → windows_ok l = true.
Proof.
  induction l as [|a l IH]; [done|]. intros Hs Hne Ha.
  apply Sorted_inv in Hs as [Hs Hh]. apply Forall_cons_1 in Hne as [Hane Hne].
  inversion Ha as [|? ? Hal Hl]; subst. specialize (IH Hs Hne Hl).
  destruct l as [|b l]; [done|]. simpl. apply andb_true_iff. split; [|done].
  apply bool_decide_eq_true. apply Forall_cons_1 in Hal as [Hab _]. apply Forall_cons_1 in Hne as [Hb _].
  inversion Hh; subst. unfold starts_before, disjoint in *. lia.
Qed.

#[global] Instance starts_before_total : Total starts_before.
Proof. intros a b. unfold starts_before. lia. Qed.

#[global] Instance starts_before_trans : Transitive starts_before.
Proof. intros a b c. unfold starts_before. lia. Qed.

Lemma windows_sorted l :
  Forall (λ r, fst r < snd r) l → windows_ok (sort_ranges l) = true ↔ apart l.
Proof.
  intros Hne. pose proof (merge_sort_Permutation starts_before l) as Hp. split.
  - intros Hw. eapply apart_perm; [exact Hp|]. apply windows_apart; [by rewrite Hp|done].
  - intros Ha. apply apart_windows; [apply Sorted_merge_sort, _|by rewrite Hp|].
    eapply apart_perm; [symmetry; exact Hp|done].
Qed.

(** One layout, in the arena of its slot. *)
Definition extent_ok (g : BlockGeometry) (slot : Z) (o : ObjectLayout) : Prop :=
  let '(arena_start, arena_end) := slot_data_arena g slot in
  arena_start ≤ start_lba o ∧ start_lba o + ol_block_count o ≤ arena_end ∧
  start_lba o + ol_block_count o < 2 ^ 64 ∧
  (data_len o = 0 ∧ ol_block_count o = 0 ∨
   data_len o ≠ 0 ∧ ol_block_count o ≠ 0 ∧ data_len o ≤ ol_block_count o * logical_block_size g).

Lemma existsb_named {A : Type} `{EqDecision A} (f : ObjectLayout → A) earlier o :
  existsb (λ x, bool_decide (f x = f o)) earlier = false ↔ f o ∉ (f <$> earlier).
Proof.
  rewrite <- not_true_iff_false, existsb_exists, list_elem_of_fmap. f_equiv.
  setoid_rewrite bool_decide_eq_true. setoid_rewrite <- list_elem_of_In. naive_solver.
Qed.

Lemma validate_layout_Ok g slot earlier o :
  in_width 64 (start_lba o) →
  validate_layout g slot earlier o = Ok () ↔
  (ol_id o ∉ (ol_id <$> earlier)) ∧ (ol_name o ∉ (ol_name <$> earlier)) ∧ extent_ok g slot o.
Proof.
  intros Hw. unfold validate_layout, extent_ok. destruct (slot_data_arena g slot) as [a b].
  destruct (existsb (λ x, bool_decide (ol_id x = ol_id o)) earlier) eqn:E1.
  { split; [done|]. intros (H1 & _). apply existsb_named in H1. congruence. }
  apply existsb_named in E1. destruct (existsb (λ x, bool_decide (ol_name x = ol_name o)) earlier) eqn:E2.
  { split; [done|]. intros (_ & H1 & _). apply existsb_named in H1. congruence. }
  apply existsb_named in E2. unfold in_width in Hw. case_decide as Hz.
  - case_decide; [split; [done|]; lia|]. split; [|done]. intros _. split_and!; auto; lia.
  - case_decide; [split; [done|]; lia|]. case_decide; [split; [done|]; lia|].
    destruct (checked_add 64 _ _) as [e|] eqn:Hc; simpl.
    + apply checked_add_Some in Hc as [-> Hc]. case_decide; [split; [done|]; lia|].
      split; [|done]. intros _. split_and!; auto; lia.
    + apply checked_add_None in Hc. split; [done|]. lia.
Qed.

Lemma try_fold_unit {E A : Type} (body : A → unit → result E unit) l :
  try_fold body l () = Ok () ↔ ∀ x, x ∈ l → body x () = Ok ().
Proof.
  induction l as [|x l IH]; simpl; [split; [by intros _ x Hx%elem_of_nil|done]|].
  destruct (body x ()) as [[]|e] eqn:E1.
  - rewrite IH. split; intros H y; [intros [->|Hy]%elem_of_cons; auto|]. intros Hy. apply H. by right.
  - split; [done|]. intros H. specialize (H x). rewrite E1 in H. by apply H; left.
Qed.

Lemma NoDup_prefixes {A : Type} (f : ObjectLayout → A) os :
  NoDup (f <$> os) ↔ ∀ i o, os !! i = Some o → f o ∉ (f <$> take i os).
Proof.
  induction os as [|o os IH] using rev_ind; [split; [done|constructor]|].
  rewrite fmap_app, list.NoDup_app, IH. split.
  - intros (H1 & H2 & _) i o' Ho. destruct (decide (i < length os)%nat) as [Hi|Hi].
    + rewrite lookup_app_l in Ho by done. rewrite take_app_le by lia. by apply H1.
    + rewrite lookup_app_r in Ho by lia. apply list_lookup_singleton_Some in Ho as [Hz <-].
      rewrite take_app_le, take_ge by lia. intros Hin. eapply H2; [exact Hin|]. by apply list_elem_of_singleton.
  - intros H. split_and!; [|intros x Hx Hs|apply NoDup_singleton].
    + intros i o' Ho. pose proof (lookup_lt_Some _ _ _ Ho). specialize (H i o').
      rewrite lookup_app_l, take_app_le in H by lia. auto.
    + apply list_elem_of_singleton in Hs as ->. specialize (H (length os) o).
      rewrite lookup_app_r, Nat.sub_diag, take_app_length in H by lia. by apply H.
Qed.

Lemma extents_ne os :
  Forall (λ o, 0 ≤ ol_block_count o) os → Forall (λ r, fst r < snd r) (extents os).
Proof.
  intros Hos. unfold extents. apply Forall_fmap, Forall_forall. intros o Ho.
  apply List.filter_In in Ho as [Ho Hb%negb_true_iff%bool_decide_eq_false].
  rewrite Forall_forall in Hos. specialize (Hos o Ho). simpl. lia.
Qed.

Lemma validate_layouts_Ok g slot os :
  Forall (λ o, in_width 64 (start_lba o) ∧ 0 ≤ ol_block_count o) os →
  validate_layouts g slot os = Ok () ↔
  NoDup (ol_id <$> os) ∧ NoDup (ol_name <$> os) ∧ Forall (extent_ok g slot) os ∧ apart (extents os).
Proof.
  intros Hos. unfold validate_layouts.
  assert (try_range 0 (length os) (λ i (_ : unit), match os !! i with
    | Some o => validate_layout g slot (take i os) o | None => Ok () end) () = Ok () ↔
    NoDup (ol_id <$> os) ∧ NoDup (ol_name <$> os) ∧ Forall (extent_ok g slot) os) as Hloop.
  { unfold try_range. rewrite try_fold_unit, !NoDup_prefixes, Forall_lookup. split.
    - intros H. assert (∀ i o, os !! i = Some o → validate_layout g slot (take i os) o = Ok ()) as Hv.
      { intros i o Ho. specialize (H i). rewrite Ho in H. apply H, elem_of_seq.
        apply lookup_lt_Some in Ho. lia. }
      rewrite Forall_lookup in Hos.
      split_and!; intros i o Ho; pose proof (Hv i o Ho) as Hvi; apply validate_layout_Ok in Hvi;
        first [by apply Hvi|by eapply Hos].
    - intros (H1 & H2 & H3) i _. destruct (os !! i) as [o|] eqn:Ho; [|done].
      apply validate_layout_Ok; [by rewrite Forall_lookup in Hos; eapply Hos|].
      split_and!; [by apply H1|by apply H2|by eapply H3]. }
  assert (Forall (λ r, fst r < snd r) (extents os)) as Hne.
  { apply extents_ne. eapply Forall_impl; [|exact Hos]. by intros o [_ ?]. }
  pose proof (windows_sorted _ Hne) as Hw.
  destruct (try_range _ _ _ _) as [[]|e]; [|split; [done|]].
  - destruct (windows_ok _); [|split; [done|]]; intuition congruence.
  - intros (H1 & H2 & H3 & _). destruct Hloop as [_ Hl]. specialize (Hl (conj H1 (conj H2 H3))). done.
Qed.

(** * The codec *)

(** The geometries [validate_geometry] accepts, with fields that fit their types. *)
Record geometry_ok (g : BlockGeometry) : Prop := {
  go_size : 496 ≤ logical_block_size g < 2 ^ 32;
  go_count : 0 ≤ block_count g < 2 ^ 64;
  go_transfer : 1 ≤ max_transfer_blocks g < 2 ^ 32;
  go_capacity : capacity_bytes g = logical_block_size g * block_count g;
  go_fits : capacity_bytes g < 2 ^ 64;
  go_arena : data_arena_blocks g ≠ 0;
}.

Definition superblock_ok (g : BlockGeometry) (slot : Z) (sb : Superblock) : Prop :=
  in_width 64 (sb_generation sb) ∧ object_count sb = Z.of_nat (length (sb_objects sb)) ∧
  (length (sb_objects sb) ≤ MAX_OBJECTS)%nat ∧ Forall layout_typed (sb_objects sb) ∧
  NoDup (ol_id <$> sb_objects sb) ∧ NoDup (ol_name <$> sb_objects sb) ∧
  Forall (extent_ok g slot) (sb_objects sb) ∧ apart (extents (sb_objects sb)).

Definition erased (sb : Superblock) : Superblock :=
  MkSuperblock (sb_generation sb) (object_count sb) (erase <$> sb_objects sb).

Lemma length_encode_header g sb : length (encode_header g sb) = block_size_bytes g.
Proof. unfold encode_header, write_u16, write_u32, write_u64. by rewrite !length_blit, length_replicate. Qed.

Lemma block_size_ge g : geometry_ok g → (496 ≤ block_size_bytes g)%nat.
Proof. intros []. unfold block_size_bytes. lia. Qed.

Lemma header_slice g sb a b :
  geometry_ok g → (48 ≤ a)%nat → (a ≤ b ≤ block_size_bytes g)%nat →
  slice a b (encode_header g sb) = replicate (b - a) 0.
Proof.
  intros Hg%block_size_ge Ha Hb. unfold encode_header, write_u16, write_u32, write_u64.
  rewrite !slice_blit_ne by solve_len'. by apply slice_replicate.
Qed.

(** The block an encoder produces, field by field. *)
Lemma encode_spec g sb :
  geometry_ok g → (length (sb_objects sb) ≤ MAX_OBJECTS)%nat →
  Forall (λ o, (length (ol_name o) ≤ 32)%nat) (sb_objects sb) →
  let bytes := encode_superblock g sb in
  length bytes = block_size_bytes g ∧ checksum bytes = u32_at CHECKSUM_START bytes ∧
  (∀ a b, (b ≤ 8 ∨ 12 ≤ a)%nat → (b ≤ 48)%nat → slice a b bytes = slice a b (encode_header g sb)) ∧
  (∀ i o, sb_objects sb !! i = Some o → entry i bytes = entry_bytes o) ∧
  (∀ i, (length (sb_objects sb) ≤ i < MAX_OBJECTS)%nat → entry i bytes = replicate 64 0).
Proof.
  intros Hg Hlen Hn. pose proof (block_size_ge g Hg) as Hbs. unfold MAX_OBJECTS in *.
  pose proof (length_encode_header g sb) as Hlh.
  destruct (write_entries_spec 0 (sb_objects sb) (encode_header g sb)) as (H1 & H2 & H3);
    [unfold entry_start, HEADER_BYTES, ENTRY_BYTES; lia|done| |].
  { intros i Hi. unfold entry. rewrite header_slice;
      [f_equal; lia|done|unfold entry_start, HEADER_BYTES, ENTRY_BYTES; lia..]. }
  unfold encode_superblock. set (bytes := write_entries 0 _ _) in *. clearbody bytes.
  assert (12 ≤ length bytes)%nat as Hl12 by lia.
  assert (∀ a b, (b ≤ 8 ∨ 12 ≤ a)%nat →
    slice a b (write_u32 bytes CHECKSUM_START (checksum bytes)) = slice a b bytes) as Hck.
  { intros a b Hab. unfold write_u32, CHECKSUM_START. apply slice_blit_ne; rewrite ?length_le_encode; lia. }
  split_and!.
  - unfold write_u32. rewrite length_blit. lia.
  - rewrite checksum_field by done. unfold u32_at, write_u32, CHECKSUM_START.
    rewrite slice_blit_eq by (rewrite ?length_le_encode; lia). by rewrite le_u32 by apply checksum_width.
  - intros a b Hab Hb. rewrite Hck by done. apply H3.
    unfold entry_start, HEADER_BYTES, ENTRY_BYTES. lia.
  - intros i o Ho. unfold entry. rewrite Hck by (unfold entry_start, HEADER_BYTES; lia). by apply (H2 i).
  - intros i Hi. unfold entry. rewrite Hck by (unfold entry_start, HEADER_BYTES; lia).
    rewrite H3 by (unfold entry_start, HEADER_BYTES, ENTRY_BYTES; lia).
    rewrite header_slice; [f_equal; lia|done|unfold entry_start, HEADER_BYTES, ENTRY_BYTES; lia..].
Qed.

Lemma typed_fits os : Forall layout_typed os → Forall (λ o, (length (ol_name o) ≤ 32)%nat) os.
Proof. apply Forall_impl. intros o [_ [_ ?] _ _ _ _ _]. done. Qed.

Lemma erase_extents os : extents (erase <$> os) = extents os.
Proof.
  unfold extents. induction os as [|o os IH]; [done|]. rewrite fmap_cons. simpl.
  destruct (negb _); [rewrite !fmap_cons; by f_equal|done].
Qed.

Lemma erase_valid g slot sb :
  superblock_ok g slot sb → validate_layouts g slot (erase <$> sb_objects sb) = Ok ().
Proof.
  intros (_ & _ & _ & Ht & H1 & H2 & H3 & H4). apply validate_layouts_Ok.
  - apply Forall_fmap. eapply Forall_impl; [|exact Ht]. intros o [_ _ _ _ ? [? _] _]. done.
  - rewrite erase_extents, <- !list_fmap_compose. split_and!; [done..| |done].
    apply Forall_fmap. eapply Forall_impl; [|exact H3]. done.
Qed.

Lemma encode_decode g slot sb :
  geometry_ok g → superblock_ok g slot sb →
  decode_superblock g slot (encode_superblock g sb) = Ok (erased sb).
Proof.
  intros Hg Hsb. pose proof (erase_valid _ _ _ Hsb) as Hv.
  destruct Hsb as (Hgen & Hcnt & Hlen & Ht & _). pose proof (block_size_ge g Hg) as Hbs.
  destruct (encode_spec g sb Hg Hlen (typed_fits _ Ht)) as (Hl & Hck & Hhd & Hpr & Hab).
  set (bytes := encode_superblock g sb) in *. clearbody bytes.
  assert (∀ a b, (b ≤ 8 ∨ 12 ≤ a)%nat → (b ≤ 48)%nat → slice a b bytes = slice a b (encode_header g sb)) as Hh
    by done.
  assert (u32_at 0 bytes = STORE_MAGIC ∧ u16_at 4 bytes = STORE_VERSION ∧
    u64_at 12 bytes = sb_generation sb ∧ u32_at 20 bytes = logical_block_size g ∧
    u64_at 24 bytes = block_count g ∧ u32_at 32 bytes = Z.of_nat MAX_OBJECTS ∧
    u32_at 36 bytes = object_count sb ∧ u64_at 40 bytes = DATA_START_LBA) as (F1 & F2 & F3 & F4 & F5 & F6 & F7 & F8).
  { unfold u16_at, u32_at, u64_at. rewrite !Hh by lia. destruct Hg.
    unfold encode_header, write_u16, write_u32, write_u64. unfold MAX_OBJECTS in *.
    split_and!; read_field; first [rewrite le_u32|rewrite le_u16|rewrite le_u64]; unfold in_width in *; done || lia. }
  unfold decode_superblock. rewrite F1, F2, F3, F4, F5, F6, F7, F8, Hck.
  rewrite !decide_False by (unfold MAX_OBJECTS in *; naive_solver lia).
  rewrite (decode_entries _ (sb_objects sb) Hlen Ht Hpr Hab), length_fmap.
  rewrite decide_False by lia. by rewrite Hv.
Qed.

Lemma decode_entry_Ok bytes k os os' :
  Forall is_byte bytes → (entry_start k + 64 ≤ length bytes)%nat → decode_entry bytes k os = Ok os' →
  os' = os ∨ ∃ o, os' = os ++ [o] ∧ layout_typed o ∧ ol_data o = [] ∧ Forall is_byte (ol_name o).
Proof.
  intros Hb Hlen. unfold decode_entry. fold (entry_start k). cbv zeta.
  revert Hlen. generalize (entry_start k). intros s Hlen.
  case_decide; [done|]. case_decide; [intros [= <-]; by left|].
  set (n := Z.to_nat (u16_at (s + 2) bytes)).
  case_decide as Hl; [done|]. destruct (existsb _ _); [done|]. destruct (utf8_valid _) eqn:Hu; [|done].
  intros [= <-]. right. eexists. split; [done|]. split; [|split; [done|by apply Forall_take, slice_bytes]].
  unfold u16_at, u32_at, u64_at, MAX_OBJECT_NAME_BYTES in *.
  constructor; cbn [ol_id ol_name data_len start_lba ol_block_count data_checksum]; auto.
  2: { rewrite length_take, length_slice by lia. lia. }
  all: by first [apply (field_width 8); [|lia]|apply (field_width 4); [|lia]].
Qed.

Lemma decoded_starts os :
  Forall layout_typed os → Forall (λ o, in_width 64 (start_lba o) ∧ 0 ≤ ol_block_count o) os.
Proof. apply Forall_impl. intros o [_ _ _ _ ? [? _] _]. done. Qed.

Lemma decode_Ok g slot bytes sb :
  geometry_ok g → Forall is_byte bytes → length bytes = block_size_bytes g →
  decode_superblock g slot bytes = Ok sb →
  superblock_ok g slot sb ∧ erased sb = sb ∧ checksum bytes = u32_at CHECKSUM_START bytes ∧
  Forall (λ o, Forall is_byte (ol_name o)) (sb_objects sb).
Proof.
  intros Hg Hb Hlen. pose proof (block_size_ge g Hg) as Hbs. unfold decode_superblock.
  case_decide; [done|]. case_decide; [done|]. case_decide as Hck; [done|]. case_decide as Hh; [done|].
  destruct (try_range _ _ _ _) as [os|] eqn:Hr; [|done]. case_decide as Hc; [done|].
  destruct (validate_layouts g slot os) as [[]|] eqn:Hv; [|done]. intros [= <-].
  assert (Forall (λ o, layout_typed o ∧ ol_data o = [] ∧ Forall is_byte (ol_name o)) os) as Hall.
  { revert Hr. eapply (try_range_inv (λ _, Forall _)); [lia|constructor|].
    intros i s s' Hi Hs [->|(o & -> & Ho & Hd & Hn)]%decode_entry_Ok; auto using Forall_app_2.
    unfold entry_start, HEADER_BYTES, ENTRY_BYTES, MAX_OBJECTS in *. lia. }
  assert (Forall layout_typed os ∧ Forall (λ o, ol_data o = []) os ∧ Forall (λ o, Forall is_byte (ol_name o)) os)
    as (Ht & He & Hb') by (split_and!; (eapply Forall_impl; [|exact Hall]); by intros ? (? & ? & ?)).
  apply validate_layouts_Ok in Hv as (H1 & H2 & H3 & H4); [|by apply decoded_starts].
  split_and!.
  - unfold superblock_ok. cbn [sb_generation object_count sb_objects]. split_and!; auto; try lia.
    by apply (field_width 8); [|lia].
  - unfold erased. cbn. f_equal. clear -He. induction He as [|[] os E _ IH]; [done|]. cbn in *. by rewrite E, IH.
  - by destruct (decide (checksum bytes = u32_at CHECKSUM_START bytes)).
  - done.
Qed.

Lemma encode_length g slot sb :
  geometry_ok g → superblock_ok g slot sb → length (encode_superblock g sb) = block_size_bytes g.
Proof. intros Hg (_ & _ & Hlen & Ht & _). by destruct (encode_spec g sb Hg Hlen (typed_fits _ Ht)). Qed.

Lemma write_entry_bytes l k o :
  Forall is_byte (ol_name o) → Forall is_byte l → Forall is_byte (write_entry l k o).
Proof.
  intros Hn Hl. unfold write_entry, write_u16, write_u32, write_u64.
  repeat (apply blit_bytes; [by auto with cs|]). by apply Forall_insert.
Qed.

Lemma encode_bytes g sb :
  Forall (λ o, Forall is_byte (ol_name o)) (sb_objects sb) → Forall is_byte (encode_superblock g sb).
Proof.
  intros Hn. unfold encode_superblock, write_u32. apply blit_bytes; [by auto with cs|].
  assert (Forall is_byte (encode_header g sb)) as Hh.
  { unfold encode_header, write_u16, write_u32, write_u64. repeat (apply blit_bytes; [by auto with cs|]).
    by apply Forall_replicate. }
  revert Hh. generalize (encode_header g sb) 0%nat. induction Hn as [|o os Ho _ IH]; intros l k Hl; [done|].
  cbn [write_entries]. by apply IH, write_entry_bytes.
Qed.

(** * Correctness of the format *)

(** The superblock format round-trips. For any geometry the store accepts and any superblock
    whose layouts fit their fields, are unique by id and by name, and lie apart in the arena of
    their slot, the encoder fills exactly one block, and decoding that block gives back the
    generation, the count and every entry (the payload itself is not part of the block). *)
Theorem superblock_codec g slot sb :
  geometry_ok g → superblock_ok g slot sb →
  length (encode_superblock g sb) = block_size_bytes g ∧
  decode_superblock g slot (encode_superblock g sb) = Ok (erased sb).
Proof. eauto using encode_length, encode_decode. Qed.

(** C33: What mounts is well formed. Whatever bytes are on the disk, a block that decodes carries
    its own checksum, counts its entries, and has at most seven of them, with distinct ids and
    distinct names of 1 to 32 bytes of UTF-8; every extent lies in the data arena of the slot
    and is long enough for its object, and no two extents overlap. Encoding what was decoded
    gives a block that decodes to the same superblock. *)
Theorem decode_well_formed g slot bytes sb :
  geometry_ok g → Forall is_byte bytes → length bytes = block_size_bytes g →
  decode_superblock g slot bytes = Ok sb →
  superblock_ok g slot sb ∧ checksum bytes = u32_at CHECKSUM_START bytes ∧
  decode_superblock g slot (encode_superblock g sb) = Ok sb.
Proof.
  intros Hg Hb Hl Hd. destruct (decode_Ok g slot bytes sb Hg Hb Hl Hd) as (Hok & He & Hck & _).
  split_and!; [done|done|]. rewrite (encode_decode g slot sb Hg Hok). by rewrite He.
Qed.

(** * A disk of six blocks *)

Module SmallDisk.
Definition geometry : BlockGeometry := MkGeometry 7 512 6 2 false 3072.

Definition superblock : Superblock :=
  MkSuperblock 5 2 [MkLayout 9 [97; 98] [] 600 4 2 1234; MkLayout 4 [195; 169] [] 0 6 0 0].

Lemma geometry_is_ok : geometry_ok geometry.
Proof. by constructor. Qed.

Lemma superblock_is_ok : superblock_ok geometry 1 superblock.
Proof.
  unfold superblock_ok. split; [by vm_compute|]. split; [by vm_compute|]. split; [vm_compute; lia|].
  split.
  { do 2 (constructor; [constructor; first [by vm_compute|vm_compute; lia]|]). constructor. }
  split; [by eapply bool_decide_unpack; vm_compute|].
  split; [by eapply bool_decide_unpack; vm_compute|]. split.
  - constructor; [|constructor; [|constructor]].
    + vm_compute. repeat split; try done. by right.
    + vm_compute. repeat split; try done. by left.
  - apply windows_apart; [|done]. constructor; [|constructor]. by vm_compute.
Qed.
End SmallDisk.

Lemma superblock_codec_witness :
  length (encode_superblock SmallDisk.geometry SmallDisk.superblock) = block_size_bytes SmallDisk.geometry ∧
  decode_superblock SmallDisk.geometry 1 (encode_superblock SmallDisk.geometry SmallDisk.superblock) =
    Ok (erased SmallDisk.superblock).
Proof. apply superblock_codec; [apply SmallDisk.geometry_is_ok|apply SmallDisk.superblock_is_ok]. Defined.

Lemma decode_well_formed_witness :
  superblock_ok SmallDisk.geometry 1 SmallDisk.superblock ∧
  checksum (encode_superblock SmallDisk.geometry SmallDisk.superblock) =
    u32_at CHECKSUM_START (encode_superblock SmallDisk.geometry SmallDisk.superblock) ∧
  decode_superblock SmallDisk.geometry 1 (encode_superblock SmallDisk.geometry SmallDisk.superblock) =
    Ok SmallDisk.superblock.
Proof.
  apply decode_well_formed.
  - apply SmallDisk.geometry_is_ok.
  - apply encode_bytes. repeat constructor; by vm_compute.
  - by vm_compute.
  - by vm_compute.
Defined.
