(* ===== verification/StoreLayout.v ===== *)
(** The object table and its layout on disk ([write_object], [build_object_layout] of
    [store/src/lib.rs]). *)

From Stdlib Require Import ZArith Lia.
From stdpp Require Import base list sorting tactics decidable numbers.
From S2P Require Import Prelude Bytes BlockDev Store StoreCodec.

Local Open Scope Z_scope.

(** * The table of objects *)

(** What the table holds: at most seven objects, unique by id and by name, with names of 1 to 32
    bytes of UTF-8. *)
Record table_ok (os : list StoredObject) : Prop := {
  to_len : (length os ≤ MAX_OBJECTS)%nat;
  to_ids : NoDup (so_id <$> os);
  to_names : NoDup (so_name <$> os);
  to_each : Forall (λ o, in_width 64 (so_id o) ∧ (1 ≤ length (so_name o) ≤ 32)%nat ∧
                         utf8_valid (so_name o) = true) os;
}.

Lemma validate_object_name_Ok name :
  validate_object_name name = Ok () ↔ (1 ≤ length name ≤ 32)%nat.
Proof.
  unfold validate_object_name, MAX_OBJECT_NAME_BYTES. case_decide as Hn.
  - subst. simpl. split; [done|lia].
  - assert (length name ≠ 0%nat) by (by destruct name). case_decide; split; try done; lia.
Qed.

Lemma NoDup_replace {A} (f : StoredObject → A) os i o o' :
  os !! i = Some o → NoDup (f <$> os) →
  (∀ j x, os !! j = Some x → f x = f o' → j = i) → NoDup (f <$> <[i := o']> os).
Proof.
  intros Hi Hn Hj. apply NoDup_alt. intros j k x. rewrite !list_lookup_fmap.
  intros (y & Hy & ->)%fmap_Some (z & Hz & E)%fmap_Some.
  apply list_lookup_insert_Some in Hy as [(<- & <- & _)|[Hne Hy]];
    apply list_lookup_insert_Some in Hz as [(<- & <- & _)|[Hne' Hz]]; auto.
  - by destruct (Hj k z).
  - by destruct (Hj j y).
  - rewrite NoDup_alt in Hn. apply (Hn j k (f y)); rewrite list_lookup_fmap; [by rewrite Hy|by rewrite Hz, E].
Qed.

Section table.
Context {D : Type} `{BlockDevice D}.
Implicit Types (s : ObjectStore D).

Lemma named_by {A} `{EqDecision A} (f : StoredObject → A) os k i o :
  NoDup (f <$> os) → position (λ o, bool_decide (f o = k)) os = Some i → os !! i = Some o →
  f o = k ∧ ∀ j x, os !! j = Some x → f x = k → j = i.
Proof.
  intros Hn [(o' & Ho' & E%bool_decide_eq_true) _]%position_Some Ho. assert (o' = o) as -> by congruence.
  split; [done|]. intros j x Hx Hk. rewrite NoDup_alt in Hn.
  apply (Hn j i k); rewrite list_lookup_fmap; [by rewrite Hx, <- Hk|by rewrite Ho, <- E].
Qed.

Lemma unnamed_by {A} `{EqDecision A} (f : StoredObject → A) os k :
  position (λ o, bool_decide (f o = k)) os = None → ∀ j x, os !! j = Some x → f x ≠ k.
Proof.
  rewrite position_None. intros Hp j x Hx E. specialize (Hp x (list_elem_of_lookup_2 _ _ _ Hx)).
  by rewrite bool_decide_true in Hp.
Qed.

(** What [write_object] does to the table, on every branch. *)
Lemma write_object_cases i name data s :
  table_ok (objects s) → in_width 64 i → utf8_valid name = true →
  let '(s', r) := write_object i name data s in
  st_device s' = st_device s ∧ st_geometry s' = st_geometry s ∧ st_generation s' = st_generation s ∧
  active_slot s' = active_slot s ∧
  match r with
  | Err e => objects s' = objects s
  | Ok _ =>
      table_ok (objects s') ∧
      MkObject i name data ∈ objects s' ∧
      (∀ o, o ∈ objects s → so_id o ≠ i → so_name o ≠ name → o ∈ objects s') ∧
      (∀ o, o ∈ objects s' → o = MkObject i name data ∨ o ∈ objects s)
  end.
Proof.
  intros [Hlen Hids Hnames Heach] Hi Hu. unfold write_object.
  destruct (validate_object_name name) as [[]|] eqn:Hn; [|done]. apply validate_object_name_Ok in Hn.
  case_decide; [done|]. set (new := MkObject i name data).
  assert (Hput : ∀ k o, objects s !! k = Some o →
    (∀ j x, objects s !! j = Some x → so_id x = i → j = k) →
    (∀ j x, objects s !! j = Some x → so_name x = name → j = k) →
    (so_id o = i ∨ so_name o = name) →
    table_ok (<[k := new]> (objects s)) ∧ new ∈ <[k := new]> (objects s) ∧
    (∀ x, x ∈ objects s → so_id x ≠ i → so_name x ≠ name → x ∈ <[k := new]> (objects s)) ∧
    ∀ x, x ∈ <[k := new]> (objects s) → x = new ∨ x ∈ objects s).
  { intros k o Hk H1 H2 Ho. split_and!.
    - constructor; [by rewrite length_insert|by eapply NoDup_replace|by eapply NoDup_replace|].
      apply Forall_insert; [done|]. by cbn.
    - apply list_elem_of_lookup. exists k. apply list_lookup_insert_eq. by eapply lookup_lt_Some.
    - intros x [j Hj]%list_elem_of_lookup Hx1 Hx2. apply list_elem_of_lookup. exists j.
      rewrite list_lookup_insert_ne; [done|]. intros <-. destruct Ho; congruence.
    - intros x [j Hj]%list_elem_of_lookup. apply list_lookup_insert_Some in Hj as [(_ & <- & _)|[_ Hj]];
        [by left|]. right. by eapply list_elem_of_lookup_2. }
  destruct (position (λ o, bool_decide (so_id o = i)) (objects s)) as [k1|] eqn:E1;
    destruct (position (λ o, bool_decide (so_name o = name)) (objects s)) as [k2|] eqn:E2.
  - pose proof E1 as [(o & Ho & _) _]%position_Some.
    destruct (named_by _ _ _ _ _ Hids E1 Ho) as [Hoi Hu1]. case_decide; [subst k2|done].
    destruct (named_by _ _ _ _ _ Hnames E2 Ho) as [_ Hu2]. cbn. do 4 (split; [done|]). apply (Hput k1 o); auto.
  - pose proof E1 as [(o & Ho & _) _]%position_Some.
    destruct (named_by _ _ _ _ _ Hids E1 Ho) as [Hoi Hu1]. pose proof (unnamed_by _ _ _ E2) as Hu2.
    cbn. do 4 (split; [done|]). apply (Hput k1 o); auto; intros j x Hx Hxn; by destruct (Hu2 j x Hx).
  - pose proof E2 as [(o & Ho & _) _]%position_Some.
    destruct (named_by _ _ _ _ _ Hnames E2 Ho) as [Hoi Hu2]. pose proof (unnamed_by _ _ _ E1) as Hu1.
    cbn. do 4 (split; [done|]). apply (Hput k2 o); auto; intros j x Hx Hxn; by destruct (Hu1 j x Hx).
  - case_decide as Hmax; [done|]. pose proof (unnamed_by _ _ _ E1) as Hu1. pose proof (unnamed_by _ _ _ E2) as Hu2.
    assert (Hfresh : ∀ {A} (f : StoredObject → A), (∀ j x, objects s !! j = Some x → f x ≠ f new) →
      NoDup (f <$> objects s) → NoDup (f <$> objects s ++ [new])).
    { intros A f Hf Hnd. rewrite fmap_app. apply list.NoDup_app. split_and!; [done| |apply NoDup_singleton].
      intros y (x & -> & [j Hj]%list_elem_of_lookup)%list_elem_of_fmap Hy%list_elem_of_singleton.
      by apply (Hf j x). }
    cbn. split_and!; auto.
    + constructor; [rewrite length_app; simpl; unfold MAX_OBJECTS in *; lia|by apply Hfresh|by apply Hfresh|].
      apply Forall_app. split; [done|]. constructor; [by cbn|done].
    + apply elem_of_app. right. by apply list_elem_of_singleton.
    + intros o Ho _ _. apply elem_of_app. by left.
    + intros o [Ho|Ho%list_elem_of_singleton]%elem_of_app; auto.
Qed.

Lemma find_by {A} `{EqDecision A} (f : StoredObject → A) os k :
  NoDup (f <$> os) →
  match find_first (λ o, bool_decide (f o = k)) os with
  | Some o => o ∈ os ∧ f o = k
  | None => ∀ o, o ∈ os → f o ≠ k
  end ∧
  ∀ o, o ∈ os → f o = k → find_first (λ o, bool_decide (f o = k)) os = Some o.
Proof.
  induction os as [|x os IH]; simpl; [split; intros o Ho; by apply elem_of_nil in Ho|].
  intros [Hx Hn]%list.NoDup_cons. destruct (IH Hn) as [IH1 IH2]. case_bool_decide as E.
  - split; [split; [by left|done]|]. intros o [->|Ho]%elem_of_cons Hk; [done|]. destruct Hx.
    rewrite E, <- Hk. by apply list_elem_of_fmap_2.
  - split.
    + destruct (find_first _ os) as [o|]; [by destruct IH1; split; [right|]|].
      intros o [->|Ho]%elem_of_cons; auto.
    + intros o [->|Ho]%elem_of_cons Hk; [done|]. auto.
Qed.

Lemma read_same (s s' : ObjectStore D) {A} `{EqDecision A} (f : StoredObject → A) k :
  NoDup (f <$> objects s) → NoDup (f <$> objects s') →
  (∀ o, f o = k → o ∈ objects s' ↔ o ∈ objects s) →
  find_first (λ o, bool_decide (f o = k)) (objects s') = find_first (λ o, bool_decide (f o = k)) (objects s).
Proof.
  intros H1 H2 Hs. destruct (find_by f _ k H1) as [F1 G1], (find_by f _ k H2) as [F2 G2].
  destruct (find_first _ (objects s')) as [o|] eqn:E.
  - destruct F2 as [Ho Hk]. symmetry. apply G1; [by apply Hs|done].
  - destruct (find_first _ (objects s)) as [o|] eqn:E'; [|done]. destruct F1 as [Ho Hk].
    exfalso. eapply F2; [by apply Hs|done].
Qed.

(** Reading what was written. A [write_object] that succeeds keeps the table well formed, is
    seen by both reads, and leaves every object with another id and another name readable as
    it was; one that fails changes nothing. Nothing reaches the device before [commit]. *)
Theorem write_object_correct i name data s s' r :
  table_ok (objects s) → in_width 64 i → utf8_valid name = true →
  write_object i name data s = (s', r) →
  st_device s' = st_device s ∧ st_generation s' = st_generation s ∧ active_slot s' = active_slot s ∧
  match r with
  | Err _ => objects s' = objects s
  | Ok _ =>
      table_ok (objects s') ∧ read_object_by_id i s' = Ok data ∧ read_object_by_name name s' = Ok data ∧
      (∀ i', i' ≠ i → (∀ o, o ∈ objects s → so_id o = i' → so_name o ≠ name) →
         read_object_by_id i' s' = read_object_by_id i' s) ∧
      (∀ name', name' ≠ name → (∀ o, o ∈ objects s → so_name o = name' → so_id o ≠ i) →
         read_object_by_name name' s' = read_object_by_name name' s)
  end.
Proof.
  intros Hok Hi Hu E. pose proof (write_object_cases i name data s Hok Hi Hu) as Hc. rewrite E in Hc.
  destruct Hc as (H1 & _ & H3 & H4 & Hc). split_and!; [done..|]. destruct r as [[]|e]; [|done].
  destruct Hc as (Hok' & Hnew & Hkeep & Hold). split; [done|]. destruct Hok as [_ Hids Hnames _].
  destruct Hok' as [_ Hids' Hnames' _]. unfold read_object_by_id, read_object_by_name. split_and!.
  - by rewrite (proj2 (find_by so_id _ i Hids') (MkObject i name data)).
  - by rewrite (proj2 (find_by so_name _ name Hnames') (MkObject i name data)).
  - intros i' Hne Hnm. do 2 f_equal. apply read_same; [done..|]. intros o Ho. split; intros Hin.
    + destruct (Hold o Hin) as [->|]; [done|done].
    + apply Hkeep; [done|congruence|by apply Hnm].
  - intros name' Hne Hnm. do 2 f_equal. apply read_same; [done..|]. intros o Ho. split; intros Hin.
    + destruct (Hold o Hin) as [->|]; [done|done].
    + apply Hkeep; [done|by apply Hnm|congruence].
Qed.
End table.

Module SmallTable.
Definition store : ObjectStore FakeBlockDevice :=
  MkStore (MkFake SmallDisk.geometry [] [] 0) SmallDisk.geometry 3 0
    [MkObject 9 [97; 98] [1; 2; 3]; MkObject 4 [195; 169] []].

Definition written : ObjectStore FakeBlockDevice :=
  MkStore (MkFake SmallDisk.geometry [] [] 0) SmallDisk.geometry 3 0
    [MkObject 9 [97; 98] [7; 8]; MkObject 4 [195; 169] []].

Lemma store_is_ok : table_ok (objects store).
Proof.
  constructor; [vm_compute; lia|by eapply bool_decide_unpack; vm_compute..|].
  do 2 (constructor; [split_and!; first [by vm_compute|vm_compute; lia]|]). constructor.
Qed.
End SmallTable.

Lemma write_object_correct_witness :
  write_object 9 [97; 98] [7; 8] SmallTable.store = (SmallTable.written, Ok ()) ∧
  table_ok (objects SmallTable.written) ∧
  read_object_by_id 9 SmallTable.written = Ok [7; 8] ∧
  read_object_by_name [97; 98] SmallTable.written = Ok [7; 8].
Proof.
  assert (write_object 9 [97; 98] [7; 8] SmallTable.store = (SmallTable.written, Ok ())) as E
    by (by vm_compute).
  assert (in_width 64 9) as Hw by (by vm_compute). split; [exact E|].
  destruct (write_object_correct 9 [97; 98] [7; 8] _ _ _ SmallTable.store_is_ok Hw eq_refl E) as (_ & _ & _ & H1 & H2 & H3 & _).
  split; [exact H1|]. split; [exact H2|exact H3].
Defined.

(** * The layout of a commit *)

Definition blocks_for (g : BlockGeometry) (o : StoredObject) : Z :=
  if decide (so_data o = []) then 0
  else (Z.of_nat (length (so_data o)) + (logical_block_size g - 1)) / logical_block_size g.

Definition layout_of (g : BlockGeometry) (start : Z) (o : StoredObject) : ObjectLayout :=
  MkLayout (so_id o) (so_name o) (so_data o) (Z.of_nat (length (so_data o))) start (blocks_for g o)
    (checksum (so_data o)).

(** Objects one after the other. *)
Fixpoint lay (g : BlockGeometry) (start : Z) (os : list StoredObject) : list ObjectLayout :=
  match os with
  | [] => []
  | o :: os => layout_of g start o :: lay g (start + blocks_for g o) os
  end.

Fixpoint lay_end (g : BlockGeometry) (start : Z) (os : list StoredObject) : Z :=
  match os with
  | [] => start
  | o :: os => lay_end g (start + blocks_for g o) os
  end.

Definition storable (o : StoredObject) : Prop := Z.of_nat (length (so_data o)) ≤ u32_max.

Lemma build_fold g os s acc next ls :
  try_fold (build_layout g) os (s, acc) = Ok (next, ls) →
  ls = acc ++ lay g s os ∧ next = lay_end g s os ∧ Forall storable os.
Proof.
  revert s acc. induction os as [|o os IH]; intros s acc; cbn [try_fold lay lay_end].
  { intros [= <- <-]. by rewrite app_nil_r. }
  unfold build_layout at 1. destruct (validate_object_name _); [|done].
  case_decide as Hlen; [done|]. fold (blocks_for g o).
  destruct (checked_add 64 s (blocks_for g o)) as [n|] eqn:Hc; cbn [ok_or]; [|done].
  apply checked_add_Some in Hc as [-> _]. intros (-> & -> & Hos)%IH.
  rewrite <- app_assoc. split_and!; [done|done|]. constructor; [unfold storable; lia|done].
Qed.

Section layout.
Context (g : BlockGeometry) (Hg : geometry_ok g).

Lemma blocks_for_spec o :
  storable o →
  0 ≤ blocks_for g o < 2 ^ 32 ∧
  (so_data o = [] ∧ blocks_for g o = 0 ∨
   so_data o ≠ [] ∧ 1 ≤ blocks_for g o ∧
     Z.of_nat (length (so_data o)) ≤ blocks_for g o * logical_block_size g).
Proof.
  unfold storable, u32_max, max_of, blocks_for. intros Hs. destruct Hg as [Hbs _ _ _ _ _].
  case_decide as Hd; [split; [lia|by left]|].
  assert (1 ≤ Z.of_nat (length (so_data o))) as Hl by (destruct (so_data o); [done|simpl; lia]).
  set (len := Z.of_nat (length (so_data o))) in *. set (bs := logical_block_size g) in *.
  pose proof (Z.div_mod (len + (bs - 1)) bs ltac:(lia)) as Hdm.
  pose proof (Z.mod_pos_bound (len + (bs - 1)) bs ltac:(lia)) as Hm.
  set (q := (len + (bs - 1)) / bs) in *.
  assert (1 ≤ q) by (apply Z.div_le_lower_bound; lia).
  assert (q ≤ len) by (apply Z.div_le_upper_bound; nia).
  split; [lia|]. right. split_and!; [done|done|]. nia.
Qed.

Lemma lay_end_ge s os : Forall storable os → s ≤ lay_end g s os.
Proof.
  revert s. induction os as [|o os IH]; intros s Hos; cbn [lay_end]; [done|].
  apply Forall_cons_1 in Hos as [Ho Hos]. destruct (blocks_for_spec o Ho) as [? _].
  specialize (IH (s + blocks_for g o) Hos). lia.
Qed.

Lemma lay_bounds s os l :
  Forall storable os → l ∈ lay g s os →
  ∃ o, o ∈ os ∧ l = layout_of g (start_lba l) o ∧ s ≤ start_lba l ∧
    start_lba l + ol_block_count l ≤ lay_end g s os.
Proof.
  revert s. induction os as [|o os IH]; intros s Hos; cbn [lay lay_end]; [by intros ?%elem_of_nil|].
  apply Forall_cons_1 in Hos as [Ho Hos]. destruct (blocks_for_spec o Ho) as [? _].
  pose proof (lay_end_ge (s + blocks_for g o) os Hos). intros [->|Hl]%elem_of_cons.
  - exists o. cbn. split_and!; [by left|done|lia|lia].
  - destruct (IH _ Hos Hl) as (o' & Ho' & El & H1 & H2). exists o'. split_and!; [by right|done|lia|lia].
Qed.

Lemma lay_apart s os : Forall storable os → apart (extents (lay g s os)).
Proof.
  revert s. induction os as [|o os IH]; intros s Hos; cbn [lay]; [constructor|].
  apply Forall_cons_1 in Hos as [Ho Hos]. unfold extents. cbn [List.filter].
  destruct (negb _); [|by apply IH]. rewrite fmap_cons. constructor; [|by apply IH].
  apply Forall_fmap, Forall_forall. intros l Hl%List.filter_In. cbn. left. cbn.
  destruct Hl as [Hl%list_elem_of_In _]. destruct (lay_bounds _ _ _ Hos Hl) as (_ & _ & _ & ? & _). lia.
Qed.

Lemma lay_fmap {A} (f : StoredObject → A) (h : ObjectLayout → A) s os :
  (∀ s o, h (layout_of g s o) = f o) → h <$> lay g s os = f <$> os.
Proof. intros Hf. revert s. induction os as [|o os IH]; intros s; [done|]. cbn. by rewrite Hf, IH. Qed.

Lemma arena_bounds slot :
  slot = 0 ∨ slot = 1 →
  let '(a, b) := slot_data_arena g slot in
  2 ≤ a ∧ a ≤ b ∧ b ≤ block_count g ∧ b = a + data_arena_blocks g ∧ a = 2 + slot * data_arena_blocks g ∧
  1 ≤ data_arena_blocks g.
Proof.
  destruct Hg as [_ Hc _ _ _ Ha]. unfold slot_data_arena, data_arena_blocks, saturating_sub,
    DATA_START_LBA, SUPERBLOCK_SLOTS in *. intros Hs.
  pose proof (Z.div_mod (Z.max 0 (block_count g - 2)) 2 ltac:(lia)) as Hdm.
  pose proof (Z.mod_pos_bound (Z.max 0 (block_count g - 2)) 2 ltac:(lia)) as Hm.
  assert (0 ≤ Z.max 0 (block_count g - 2) / 2) by (apply Z.div_pos; lia).
  set (q := Z.max 0 (block_count g - 2) / 2) in *. destruct Hs as [-> | ->]; split_and!; lia.
Qed.

(** A layout that was built is one the decoder accepts. *)
Lemma build_object_layout_Ok slot os ls :
  slot = 0 ∨ slot = 1 → table_ok os → build_object_layout g slot os = Ok ls →
  ls = lay g (fst (slot_data_arena g slot)) os ∧ Forall storable os ∧
  ∀ gen, in_width 64 gen → superblock_ok g slot (MkSuperblock gen (Z.of_nat (length ls)) ls).
Proof.
  intros Hslot [Hlen Hids Hnames Heach] Hb. pose proof (arena_bounds slot Hslot) as Ha.
  unfold build_object_layout in Hb. destruct (slot_data_arena g slot) as [a b] eqn:Ear. cbn [fst].
  destruct (try_fold _ _ _) as [[next l]|] eqn:Hf; [|done].
  apply build_fold in Hf as (-> & -> & Hst). simpl in Hb. case_decide as Hend; [done|].
  injection Hb as <-. split_and!; [done..|]. intros gen Hgen. destruct Hg as [_ Hbc _ _ _ _].
  pose proof (λ l, lay_bounds a os l Hst) as Hin. rewrite Forall_forall in Hst, Heach.
  assert (length (lay g a os) = length os) as Hl.
  { pose proof (lay_fmap so_id ol_id a os) as Hm. rewrite <- (length_fmap ol_id), Hm by done. apply length_fmap. }
  unfold superblock_ok. cbn [sb_generation object_count sb_objects]. split_and!; auto.
  - lia.
  - apply Forall_forall. intros l (o & Ho & El & H1 & H2)%list_elem_of_In%Hin.
    apply list_elem_of_In in Ho. destruct (Heach o Ho) as (E1 & E2 & E3). pose proof (Hst o Ho) as Hso.
    destruct (blocks_for_spec o Hso) as [Hbl _]. unfold storable, u32_max, max_of in Hso.
    rewrite El. constructor; cbn; auto; try apply checksum_width; unfold in_width in *.
    + lia.
    + rewrite El in H2. cbn in H2. lia.
  - by rewrite (lay_fmap so_id).
  - by rewrite (lay_fmap so_name).
  - apply Forall_forall. intros l (o & Ho & El & H1 & H2)%list_elem_of_In%Hin.
    apply list_elem_of_In in Ho. pose proof (Hst o Ho) as Hso. unfold extent_ok. rewrite Ear.
    destruct (blocks_for_spec o Hso) as [Hbl Hcase]. rewrite El in H2. cbn in H2. rewrite El. cbn.
    split_and!; [lia|lia|lia|]. destruct Hcase as [[Hd ->]|(Hd & Hb1 & Hb2)].
    + left. by rewrite Hd.
    + right. split_and!; [destruct (so_data o); [done|simpl; lia]|lia|done].
  - apply lay_apart. by apply Forall_forall.
Qed.
End layout.

(** Objects that fit the arena are laid out. *)
Lemma build_fold_Ok g os s acc :
  geometry_ok g → Forall storable os → Forall (λ o, (1 ≤ length (so_name o) ≤ 32)%nat) os →
  0 ≤ s → lay_end g s os < 2 ^ 64 →
  try_fold (build_layout g) os (s, acc) = Ok (lay_end g s os, acc ++ lay g s os).
Proof.
  intros Hg Hst. revert s acc. induction Hst as [|o os Ho Hst IH]; intros s acc Hn Hs He; cbn [try_fold lay lay_end].
  { by rewrite app_nil_r. }
  apply Forall_cons_1 in Hn as [Hno Hn]. cbn [lay_end] in He.
  destruct (blocks_for_spec g Hg o Ho) as [Hb _]. pose proof (lay_end_ge g Hg (s + blocks_for g o) os Hst) as Hge.
  unfold build_layout at 1. apply validate_object_name_Ok in Hno as ->. unfold storable in Ho.
  rewrite decide_False by lia. fold (blocks_for g o). unfold checked_add. rewrite decide_True by lia. cbn [ok_or].
  rewrite IH by (done || lia). by rewrite <- app_assoc.
Qed.
