(* ===== verification/StoreDevice.v ===== *)
(** What the store's reads and writes do to a fault-injecting device ([store/src/lib.rs] over
    [block/src/fault.rs]): which bytes of its live and durable images a write can touch, whatever
    fault is planned, and what a read returns while the device is powered. *)

From Stdlib Require Import ZArith Lia.
From stdpp Require Import base list sorting tactics decidable numbers.
From S2P Require Import Prelude Bytes BlockDev Store StoreCodec StoreLayout.

Local Open Scope Z_scope.

(** The byte offset of a block. *)
Definition off (g : BlockGeometry) (lba : Z) : nat := Z.to_nat (lba * logical_block_size g).

(** The bytes of the blocks [a..b]. *)
Definition blocks_of (g : BlockGeometry) (a b : Z) (img : list Z) : list Z := slice (off g a) (off g b) img.

Definition img_ok (g : BlockGeometry) (img : list Z) : Prop :=
  length img = Z.to_nat (capacity_bytes g) ∧ Forall is_byte img.

Record dev_ok (g : BlockGeometry) (d : FaultInjectingBlockDevice) : Prop := {
  dk_geometry : fk_geometry (inner d) = g;
  dk_live : img_ok g (live_bytes (inner d));
  dk_durable : img_ok g (durable_bytes (inner d));
}.

(** A write of one buffer happened or did not. *)
Definition wrote (g : BlockGeometry) (lba blocks : Z) (buf img img' : list Z) : Prop :=
  img' = img ∨
  0 ≤ lba ∧ 0 ≤ blocks ∧ lba + blocks ≤ block_count g ∧ length buf = off g blocks ∧
    img' = blit (off g lba) buf img.

(** Only the blocks [a..b] may differ. *)
Definition same_outside (g : BlockGeometry) (a b : Z) (img img' : list Z) : Prop :=
  ∀ x y, (y ≤ off g a ∨ off g b ≤ x)%nat → slice x y img' = slice x y img.

Record touches (g : BlockGeometry) (a b : Z) (d d' : FaultInjectingBlockDevice) : Prop := {
  th_ok : dev_ok g d';
  th_live : same_outside g a b (live_bytes (inner d)) (live_bytes (inner d'));
  th_durable : same_outside g a b (durable_bytes (inner d)) (durable_bytes (inner d'));
}.

Section device.
Context (g : BlockGeometry) (Hg : geometry_ok g).
Implicit Types (d : FaultInjectingBlockDevice).

Lemma geometry_is_typed : geometry_typed g.
Proof.
  destruct Hg as [Hs Hc Ht Hcap Hf Ha]. constructor; try done; [lia|].
  split; [|lia]. destruct (decide (block_count g = 0)) as [E|]; [|lia]. exfalso. apply Ha.
  unfold data_arena_blocks, saturating_sub, DATA_START_LBA, SUPERBLOCK_SLOTS. rewrite E. done.
Qed.

Lemma off_mono a b : a ≤ b → (off g a ≤ off g b)%nat.
Proof. intros H. destruct Hg. unfold off. assert (a * logical_block_size g ≤ b * logical_block_size g) by nia. lia. Qed.

Lemma off_add a b : 0 ≤ a → 0 ≤ b → off g (a + b) = (off g a + off g b)%nat.
Proof. intros Ha Hb. destruct Hg. unfold off. rewrite Z.mul_add_distr_r. apply Z2Nat.inj_add; nia. Qed.

Lemma off_end img b : img_ok g img → b ≤ block_count g → (off g b ≤ length img)%nat.
Proof.
  intros [-> _] Hb. destruct Hg as [_ _ _ -> _ _]. rewrite Z.mul_comm. by apply (off_mono b).
Qed.

Lemma off_one : off g 1 = block_size_bytes g.
Proof. unfold off, block_size_bytes. by rewrite Z.mul_1_l. Qed.

Lemma off_nat n : off g (Z.of_nat n) = (n * block_size_bytes g)%nat.
Proof. destruct Hg. unfold off, block_size_bytes. rewrite Z2Nat.inj_mul, Nat2Z.id by lia. done. Qed.

Lemma same_outside_refl a b img : same_outside g a b img img.
Proof. by intros x y _. Qed.

Lemma same_outside_trans a b i1 i2 i3 :
  same_outside g a b i1 i2 → same_outside g a b i2 i3 → same_outside g a b i1 i3.
Proof. intros H1 H2 x y H. by rewrite H2, H1. Qed.

Lemma same_outside_weaken a b a' b' i1 i2 :
  a' ≤ a → b ≤ b' → same_outside g a b i1 i2 → same_outside g a' b' i1 i2.
Proof.
  intros Ha%off_mono Hb%off_mono H x y Hxy. apply H. destruct Hxy; [left|right]; lia.
Qed.

Lemma same_blocks a b x y i1 i2 :
  same_outside g a b i1 i2 → y ≤ a ∨ b ≤ x → blocks_of g x y i2 = blocks_of g x y i1.
Proof. intros H [Hy%off_mono|Hx%off_mono]; apply H; auto. Qed.

Lemma touches_refl a b d : dev_ok g d → touches g a b d d.
Proof. by constructor; [|apply same_outside_refl..]. Qed.

Lemma touches_trans a b d1 d2 d3 : touches g a b d1 d2 → touches g a b d2 d3 → touches g a b d1 d3.
Proof. intros [] []. constructor; [done|by eapply same_outside_trans..]. Qed.

Lemma touches_weaken a b a' b' d1 d2 : a' ≤ a → b ≤ b' → touches g a b d1 d2 → touches g a' b' d1 d2.
Proof. intros Ha Hb []. constructor; [done|by eapply same_outside_weaken..]. Qed.

(** ** Writes *)

Lemma wrote_outside lba blocks buf img img' :
  img_ok g img → wrote g lba blocks buf img img' → same_outside g lba (lba + blocks) img img'.
Proof.
  intros Hi [->|(H1 & H2 & H3 & H4 & ->)]; [apply same_outside_refl|]. intros x y Hxy.
  pose proof (off_end img (lba + blocks) Hi H3) as He. rewrite off_add in He, Hxy by done.
  apply slice_blit_ne; lia.
Qed.

Lemma wrote_ok lba blocks buf img img' :
  Forall is_byte buf → img_ok g img → wrote g lba blocks buf img img' → img_ok g img'.
Proof.
  intros Hb [Hl Hi] [->|(_ & _ & _ & _ & ->)]; [done|]. split; [by rewrite length_blit|].
  by apply blit_bytes.
Qed.

Lemma request_off lba blocks len w a b :
  in_width 64 lba → in_width 32 blocks →
  Geometry.validate_transfer g lba blocks len w = Ok (a, b) →
  request_ok g lba blocks len w ∧ Z.to_nat a = off g lba ∧ Z.to_nat b = off g (lba + blocks) ∧
  Z.to_nat len = off g blocks.
Proof.
  intros Hl Hb H. apply (validate_transfer_iff g lba blocks len w a b geometry_is_typed Hl Hb) in H as (Hr & -> & ->).
  split; [done|]. destruct Hr as (_ & -> & _). unfold off. split_and!; [done| |done]. f_equal. lia.
Qed.

Lemma write_through_effect early lba blocks buf (d d' : FakeBlockDevice) r :
  in_width 64 lba → in_width 32 blocks → Forall is_byte buf →
  fk_geometry d = g → img_ok g (live_bytes d) → img_ok g (durable_bytes d) →
  Faulty.write_through early lba blocks buf d = (d', r) →
  fk_geometry d' = g ∧ wrote g lba blocks buf (live_bytes d) (live_bytes d') ∧
  wrote g lba blocks buf (durable_bytes d) (durable_bytes d') ∧
  (r = Ok () → 0 ≤ lba ∧ lba + blocks ≤ block_count g ∧ length buf = off g blocks ∧
               live_bytes d' = blit (off g lba) buf (live_bytes d)).
Proof.
  intros Hl Hb Hbuf Hgd Hlive Hdur. unfold Faulty.write_through, Fake.write_blocks, Geometry.validate_write.
  rewrite Hgd. destruct (Geometry.validate_transfer _ _ _ _ _) as [[a b]|e] eqn:E; simpl.
  2: { intros [= <- <-]. split_and!; [done|by left|by left|done]. }
  apply request_off in E as (Hr & Ea & Eb & El); [|done..]. rewrite Nat2Z.id in El.
  destruct Hr as (H1 & _ & H3 & _). unfold in_width in *.
  assert (wrote g lba blocks buf (live_bytes d) (blit (Z.to_nat a) buf (live_bytes d))) as Hw.
  { right. rewrite Ea. split_and!; [lia|lia|done|done|done]. }
  destruct early.
  2: { intros [= <- <-]. cbn. split_and!; [done|done|by left|]. intros _. rewrite Ea. split_and!; [lia|done|done|done]. }
  unfold Fake.persist_blocks, Geometry.validate_read. cbn [fk_geometry live_bytes durable_bytes fk_flush_count].
  destruct (Geometry.validate_transfer g lba blocks _ false) as [[a' b']|e] eqn:E2; intros [= <- <-]; cbn.
  - apply request_off in E2 as (_ & Ea' & Eb' & _); [|done..].
    split_and!; [done|done| |intros _; rewrite Ea; split_and!; [lia|done|done|done]].
    right. split_and!; [lia|lia|done|done|]. rewrite Ea', Eb', Ea. f_equal.
    pose proof (off_end _ _ Hlive H3) as He. rewrite off_add in He |- * by lia. by apply slice_blit_eq; lia.
  - split_and!; [done|done|by left|done].
Qed.

Lemma write_blocks_effect lba blocks buf d d' r :
  in_width 64 lba → in_width 32 blocks → Forall is_byte buf → dev_ok g d →
  Faulty.write_blocks lba blocks buf d = (d', r) →
  dev_ok g d' ∧
  wrote g lba blocks buf (live_bytes (inner d)) (live_bytes (inner d')) ∧
  wrote g lba blocks buf (durable_bytes (inner d)) (durable_bytes (inner d')) ∧
  (r = Ok () → 0 ≤ lba ∧ lba + blocks ≤ block_count g ∧ length buf = off g blocks ∧
               live_bytes (inner d') = blit (off g lba) buf (live_bytes (inner d))).
Proof.
  intros Hl Hb Hbuf [Hgd Hlive Hdur] E.
  enough (fk_geometry (inner d') = g ∧
    wrote g lba blocks buf (live_bytes (inner d)) (live_bytes (inner d')) ∧
    wrote g lba blocks buf (durable_bytes (inner d)) (durable_bytes (inner d')) ∧
    (r = Ok () → 0 ≤ lba ∧ lba + blocks ≤ block_count g ∧ length buf = off g blocks ∧
               live_bytes (inner d') = blit (off g lba) buf (live_bytes (inner d)))) as (H1 & H2 & H3 & H4).
  { split_and!; try done. constructor; [done| |].
    - exact (wrote_ok _ _ _ _ _ Hbuf Hlive H2).
    - exact (wrote_ok _ _ _ _ _ Hbuf Hdur H3). }
  unfold Faulty.write_blocks in E.
  assert (∀ s r', (MkFaulty (inner d) s, Err r') = (d', r) → fk_geometry (inner d') = g ∧
    wrote g lba blocks buf (live_bytes (inner d)) (live_bytes (inner d')) ∧
    wrote g lba blocks buf (durable_bytes (inner d)) (durable_bytes (inner d')) ∧ r ≠ Ok ()) as Hkeep.
  { intros s r' [= <- <-]. split_and!; [done|by left|by left|done]. }
  destruct (Controller.next_write_plan (controller d)) as [s [[[n early] [[|e]|]]|e]].
  - destruct (Faulty.write_through early lba blocks buf (inner d)) as [i [[]|e]] eqn:Ew; injection E as <- <-;
      destruct (write_through_effect _ _ _ _ _ _ _ Hl Hb Hbuf Hgd Hlive Hdur Ew) as (H1 & H2 & H3 & _); split_and!; done.
  - destruct (Hkeep _ _ E) as (? & ? & ? & ?). split_and!; done.
  - destruct (Faulty.write_through early lba blocks buf (inner d)) as [i r'] eqn:Ew; injection E as <- <-.
    by apply (write_through_effect early).
  - destruct (Hkeep _ _ E) as (? & ? & ? & ?). split_and!; done.
Qed.

Lemma flush_effect d d' r :
  dev_ok g d → Faulty.flush d = (d', r) →
  dev_ok g d' ∧ live_bytes (inner d') = live_bytes (inner d) ∧
  (durable_bytes (inner d') = durable_bytes (inner d) ∨ durable_bytes (inner d') = live_bytes (inner d)) ∧
  (r = Ok () → durable_bytes (inner d') = live_bytes (inner d)).
Proof.
  intros [Hgd Hlive Hdur]. unfold Faulty.flush.
  destruct (Controller.next_flush_plan (controller d)) as [s [[[|e]|]|e]]; cbn; intros [= <- <-]; cbn;
    (split_and!; [by constructor|done|by auto|done]).
Qed.

Lemma write_superblock_effect slot sb d d' r :
  slot = 0 ∨ slot = 1 → Forall (λ o, Forall is_byte (ol_name o)) (sb_objects sb) → dev_ok g d →
  write_superblock g slot sb d = (d', r) →
  dev_ok g d' ∧
  wrote g slot 1 (encode_superblock g sb) (live_bytes (inner d)) (live_bytes (inner d')) ∧
  wrote g slot 1 (encode_superblock g sb) (durable_bytes (inner d)) (durable_bytes (inner d')) ∧
  (r = Ok () → length (encode_superblock g sb) = off g 1 ∧
               live_bytes (inner d') = blit (off g slot) (encode_superblock g sb) (live_bytes (inner d))).
Proof.
  intros Hslot Hn Hd. unfold write_superblock, block_error. intros E.
  destruct (write_blocks slot 1 (encode_superblock g sb) d) as [d1 r1] eqn:Ew.
  apply write_blocks_effect in Ew as (H1 & H2 & H3 & H4); [|unfold in_width; lia..|by apply encode_bytes|done].
  cbn in E. injection E as <- <-. split_and!; [done..|]. destruct r1 as [[]|]; [|done]. intros _.
  by destruct (H4 eq_refl) as (_ & _ & ? & ?).
Qed.

(** ** Object data *)

(** What the extent of an object holds: its data, then zeros. *)
Definition padded (l : ObjectLayout) : list Z :=
  ol_data l ++ replicate (off g (ol_block_count l) - length (ol_data l)) 0.

(** A layout that can be written: its extent is on the device and long enough. *)
Record writable (l : ObjectLayout) : Prop := {
  wr_start : 0 ≤ start_lba l;
  wr_blocks : 0 ≤ ol_block_count l < 2 ^ 32;
  wr_end : start_lba l + ol_block_count l ≤ block_count g;
  wr_bytes : Forall is_byte (ol_data l);
  wr_len : (length (ol_data l) ≤ off g (ol_block_count l))%nat;
}.

Lemma length_padded l : writable l → length (padded l) = off g (ol_block_count l).
Proof. intros []. unfold padded. rewrite length_app, length_replicate. lia. Qed.

(** The end of the chunks before [k]. *)
Definition chunk_end (total : Z) (k : nat) : nat := Nat.min (k * Z.to_nat (max_transfer_blocks g)) (Z.to_nat total).

Lemma chunk_count_end total : 0 ≤ total → chunk_end total (chunk_count g total) = Z.to_nat total.
Proof.
  intros Ht. destruct Hg as [_ _ Hm _ _ _]. unfold chunk_end, chunk_count. set (m := max_transfer_blocks g) in *.
  pose proof (Z.div_mod (total + (m - 1)) m ltac:(lia)). pose proof (Z.mod_pos_bound (total + (m - 1)) m ltac:(lia)).
  set (q := (total + (m - 1)) / m) in *. assert (0 ≤ q) by (apply Z.div_pos; lia).
  apply Nat.min_r. apply Nat2Z.inj_le. rewrite Nat2Z.inj_mul, !Z2Nat.id by lia. nia.
Qed.

Lemma chunk_count_lt total k :
  0 ≤ total → (k < chunk_count g total)%nat → (k * Z.to_nat (max_transfer_blocks g) < Z.to_nat total)%nat.
Proof.
  intros Ht. destruct Hg as [_ _ Hm _ _ _]. unfold chunk_count. set (m := max_transfer_blocks g) in *.
  pose proof (Z.div_mod (total + (m - 1)) m ltac:(lia)). pose proof (Z.mod_pos_bound (total + (m - 1)) m ltac:(lia)).
  set (q := (total + (m - 1)) / m) in *. assert (0 ≤ q) by (apply Z.div_pos; lia). intros Hk.
  apply Nat2Z.inj_lt. rewrite Nat2Z.inj_mul, !Z2Nat.id by lia. nia.
Qed.

(** One chunk: where it is and how long. *)
Lemma chunk_bounds total k :
  0 ≤ total → (k < chunk_count g total)%nat →
  let m := Z.to_nat (max_transfer_blocks g) in
  chunk_end total k = (k * m)%nat ∧
  chunk_end total (S k) = (k * m + Nat.min m (Z.to_nat total - k * m))%nat ∧
  (1 ≤ Nat.min m (Z.to_nat total - k * m))%nat ∧ (chunk_end total (S k) ≤ Z.to_nat total)%nat.
Proof.
  intros Ht Hk%chunk_count_lt; [|done]. destruct Hg as [_ _ Hm _ _ _]. unfold chunk_end. lia.
Qed.

Lemma chunk_buffer (data : list Z) lo n m :
  (lo + n ≤ length data + m)%nat →
  (if decide (lo < Nat.min (length data) (lo + n))%nat
   then blit 0 (slice lo (Nat.min (length data) (lo + n)) data) (replicate n 0) else replicate n 0) =
  slice lo (lo + n) (data ++ replicate m 0).
Proof.
  intros H. apply list_eq. intros i. rewrite slice_lookup.
  assert (Hr : (data ++ replicate m 0) !! (lo + i)%nat = if decide (lo + i < length data)%nat then data !! (lo + i)%nat
    else replicate m 0 !! (lo + i - length data)%nat).
  { case_decide; [by apply lookup_app_l|]. apply lookup_app_r. lia. }
  rewrite Hr. clear Hr. case_decide as Hlo.
  - rewrite blit_lookup by (rewrite length_slice, length_replicate; lia).
    rewrite length_slice by lia. rewrite slice_lookup.
    repeat case_decide; try lia; first [f_equal; lia|rewrite lookup_replicate_2 by lia; by rewrite lookup_replicate_2 by lia|idtac].
    rewrite lookup_ge_None_2 by (rewrite length_replicate; lia). done.
  - repeat case_decide; try lia; first [rewrite lookup_replicate_2 by lia; by rewrite lookup_replicate_2 by lia|idtac].
    by rewrite lookup_ge_None_2 by (rewrite length_replicate; lia).
Qed.

Lemma write_chunk_effect l k d d' r :
  writable l → (k < chunk_count g (ol_block_count l))%nat → dev_ok g d →
  write_chunk g l k d = (d', r) →
  touches g (start_lba l) (start_lba l + ol_block_count l) d d' ∧
  (r = Ok () →
     live_bytes (inner d') =
       blit (off g (start_lba l) + chunk_end (ol_block_count l) k * block_size_bytes g)
         (slice (chunk_end (ol_block_count l) k * block_size_bytes g)
            (chunk_end (ol_block_count l) (S k) * block_size_bytes g) (padded l)) (live_bytes (inner d))).
Proof.
  intros Hl Hk Hd. pose proof Hl as [H1 H2 H3 H4 H5].
  destruct (chunk_bounds (ol_block_count l) k ltac:(lia) Hk) as (C1 & C2 & C3 & C4).
  unfold write_chunk. cbv zeta. rewrite length_replicate, <- C1.
  set (m := Nat.min (Z.to_nat (max_transfer_blocks g)) (Z.to_nat (ol_block_count l) - chunk_end (ol_block_count l) k)).
  rewrite <- C1 in C2, C3. fold m in C2, C3.
  set (b := block_size_bytes g). set (c := chunk_end (ol_block_count l) k) in *.
  assert (off g (ol_block_count l) = Z.to_nat (ol_block_count l) * b)%nat as Eo.
  { rewrite <- (Z2Nat.id (ol_block_count l)) at 1 by lia. apply off_nat. }
  assert ((c + m) * b ≤ Z.to_nat (ol_block_count l) * b)%nat as Hcm by (apply Nat.mul_le_mono_r; lia).
  rewrite (chunk_buffer (ol_data l) (c * b) (m * b) (off g (ol_block_count l) - length (ol_data l))) by lia.
  fold (padded l). rewrite C2. replace ((c + m) * b)%nat with (c * b + m * b)%nat by lia.
  set (buf := slice (c * b) (c * b + m * b) (padded l)).
  assert (Forall is_byte buf) as Hbuf.
  { apply slice_bytes. unfold padded. apply Forall_app. split; [done|]. by apply Forall_replicate. }
  destruct Hg as [_ Hbc Hmt _ _ _]. unfold block_error.
  destruct (write_blocks (start_lba l + Z.of_nat c) (Z.of_nat m) buf d) as [d1 r1] eqn:Ew.
  cbn. intros [= <- <-].
  apply write_blocks_effect in Ew as (W1 & W2 & W3 & W4); [|unfold in_width; lia..|done|done].
  pose proof Hd as [Hd1 Hd2 Hd3]. split.
  - apply (touches_weaken (start_lba l + Z.of_nat c) (start_lba l + Z.of_nat c + Z.of_nat m)); [lia|lia|].
    constructor; [done|by eapply wrote_outside..].
  - destruct r1 as [[]|]; [|done]. intros _. destruct (W4 eq_refl) as (_ & _ & _ & ->).
    rewrite off_add by lia. by rewrite off_nat.
Qed.

Lemma write_object_data_effect l d d' r :
  writable l → dev_ok g d → write_object_data g l d = (d', r) →
  touches g (start_lba l) (start_lba l + ol_block_count l) d d' ∧
  (r = Ok () → blocks_of g (start_lba l) (start_lba l + ol_block_count l) (live_bytes (inner d')) = padded l).
Proof.
  intros Hl Hd. pose proof Hl as [H1 H2 H3 H4 H5]. unfold write_object_data, blocks_of.
  rewrite off_add by lia. set (o := off g (start_lba l)). set (b := block_size_bytes g).
  assert (off g (ol_block_count l) = Z.to_nat (ol_block_count l) * b)%nat as Eo.
  { rewrite <- (Z2Nat.id (ol_block_count l)) at 1 by lia. apply off_nat. }
  case_decide as Hz.
  { intros [= <- <-]. split; [by apply touches_refl|]. intros _.
    apply list_eq. intros i. rewrite slice_lookup, decide_False by (rewrite Eo, Hz; simpl; lia).
    symmetry. apply lookup_ge_None. rewrite length_padded, Eo, Hz by done. simpl. lia. }
  set (T := touches g (start_lba l) (start_lba l + ol_block_count l) d). intros E.
  apply (try_each_inv (λ k d1, T d1 ∧ (k ≤ chunk_count g (ol_block_count l))%nat ∧
    slice o (o + chunk_end (ol_block_count l) k * b) (live_bytes (inner d1)) =
      slice 0 (chunk_end (ol_block_count l) k * b) (padded l)) T) in E.
  - destruct r as [[]|]; [|by split]. destruct E as (E1 & _ & E2). split; [done|]. intros _.
    rewrite length_seq, chunk_count_end, <- Eo in E2 by lia. rewrite E2.
    rewrite <- (length_padded l) by done. apply slice_full.
  - split; [by apply touches_refl|]. split; [lia|]. unfold slice, chunk_end. cbn [Nat.mul Nat.min].
    by rewrite Nat.add_0_r, Nat.sub_diag.
  - intros k x d1 d2 r1 Hx%lookup_seq [HT [_ HP]] Ew. destruct Hx as [-> Hk].
    pose proof HT as [Hd1 _ _]. apply write_chunk_effect in Ew as [HT2 HL]; [|done..].
    destruct (chunk_bounds (ol_block_count l) (0 + k) ltac:(lia) Hk) as (_ & C2 & C3 & C4).
    destruct r1 as [[]|]; [|by eapply touches_trans]. split; [by eapply touches_trans|]. split; [lia|].
    rewrite (HL eq_refl). cbn [Nat.add] in *. fold o b.
    set (c := chunk_end (ol_block_count l) k) in *. set (c' := chunk_end (ol_block_count l) (S k)) in *.
    assert (c ≤ c')%nat as Hcc by (unfold c, c', chunk_end; lia).
    assert (c * b ≤ c' * b)%nat by (by apply Nat.mul_le_mono_r).
    assert (c' * b ≤ off g (ol_block_count l))%nat as Hc' by (rewrite Eo; by apply Nat.mul_le_mono_r).
    assert (length (slice (c * b) (c' * b) (padded l)) = c' * b - c * b)%nat as Hls.
    { apply length_slice. by rewrite length_padded. }
    pose proof (off_end _ _ (dk_live _ _ Hd1) H3) as He. rewrite off_add in He by lia. fold o in He.
    rewrite (slice_split o (o + c * b)), (slice_split 0 (c * b) (c' * b)) by lia. f_equal.
    + rewrite slice_blit_ne by lia. exact HP.
    + apply slice_blit_eq; lia.
Qed.

Lemma layout_writable s o :
  storable o → Forall is_byte (so_data o) → 0 ≤ s → s + blocks_for g o ≤ block_count g →
  writable (layout_of g s o).
Proof.
  intros Ho Hbo Hs He. destruct (blocks_for_spec g Hg o Ho) as [Hb Hcase]. constructor; cbn; [done|done|lia|done|].
  destruct Hcase as [[-> _]|(_ & _ & H)]; [simpl; lia|]. unfold off. lia.
Qed.

(** All the objects of a commit. *)
Lemma write_all_effect s os d d' r :
  Forall storable os → Forall (λ o, Forall is_byte (so_data o)) os →
  0 ≤ s → lay_end g s os ≤ block_count g → dev_ok g d →
  try_each (write_object_data g) (lay g s os) d = (d', r) →
  touches g s (lay_end g s os) d d' ∧
  (r = Ok () → ∀ l, l ∈ lay g s os →
     blocks_of g (start_lba l) (start_lba l + ol_block_count l) (live_bytes (inner d')) = padded l).
Proof.
  revert s d. induction os as [|o os IH]; intros s d Hst Hby Hs He Hd; cbn [lay lay_end try_each] in *.
  { intros [= <- <-]. split; [by apply touches_refl|]. by intros _ l ?%elem_of_nil. }
  apply Forall_cons_1 in Hst as [Ho Hst]. apply Forall_cons_1 in Hby as [Hbo Hby].
  destruct (blocks_for_spec g Hg o Ho) as [Hb _]. pose proof (lay_end_ge g Hg (s + blocks_for g o) os Hst) as Hge.
  assert (writable (layout_of g s o)) as Hw by (by apply layout_writable; [..|lia]).
  destruct (write_object_data g (layout_of g s o) d) as [d1 r1] eqn:E1.
  apply write_object_data_effect in E1 as [T1 D1]; [|done..]. cbn [start_lba ol_block_count layout_of] in T1, D1.
  assert (touches g s (lay_end g (s + blocks_for g o) os) d d1) as T1'.
  { apply (touches_weaken s (s + blocks_for g o)); [lia|lia|done]. }
  destruct r1 as [[]|e]; [|by intros [= <- <-]].
  intros [T2 D2]%IH; [|done|done|lia|done|by destruct T1]. split.
  - eapply touches_trans; [done|]. eapply touches_weaken; [| |done]; lia.
  - intros Hr l [->|Hl]%elem_of_cons; [|by apply D2]. cbn [start_lba ol_block_count layout_of].
    rewrite <- (D1 eq_refl). eapply same_blocks; [by destruct T2|]. left. lia.
Qed.

(** ** A healthy device *)

Record healthy (d : FaultInjectingBlockDevice) : Prop := {
  hl_on : powered_off (controller d) = false;
  hl_plan : plan (controller d) = None;
  hl_write : read_only g = false;
}.

Lemma request_accepted lba blocks w :
  read_only g = false → 0 ≤ lba → 1 ≤ blocks ≤ max_transfer_blocks g → lba + blocks ≤ block_count g →
  Geometry.validate_transfer g lba blocks (blocks * logical_block_size g) w =
    Ok (lba * logical_block_size g, lba * logical_block_size g + blocks * logical_block_size g).
Proof.
  intros Hr Hl Hb He. pose proof geometry_is_typed as Hty. destruct Hg as [_ Hbc Hmt _ _ _].
  apply validate_transfer_iff; [done|unfold in_width; lia..|]. split; [|done]. unfold request_ok.
  rewrite Hr, andb_false_r. split_and!; done || lia.
Qed.

Lemma write_blocks_ok lba blocks buf d :
  healthy d → dev_ok g d → 0 ≤ lba → 1 ≤ blocks ≤ max_transfer_blocks g → lba + blocks ≤ block_count g →
  length buf = off g blocks → ∃ d', Faulty.write_blocks lba blocks buf d = (d', Ok ()) ∧ healthy d'.
Proof.
  intros [Hon Hpl Hro] [Hgd _ _] Hl Hb He Hlen. destruct Hg as [Hbs _ _ _ _ _].
  unfold Faulty.write_blocks, Controller.next_write_plan. rewrite Hon, Hpl. unfold Faulty.write_through, Fake.write_blocks.
  assert (Z.of_nat (length buf) = blocks * logical_block_size g) as ->.
  { rewrite Hlen. unfold off. apply Z2Nat.id, Z.mul_nonneg_nonneg; lia. }
  unfold Geometry.validate_write. rewrite Hgd, request_accepted by done. cbn.
  case_bool_decide.
  - unfold Fake.persist_blocks, Geometry.validate_read. cbn [fk_geometry live_bytes durable_bytes fk_flush_count].
    rewrite request_accepted by done. eexists. split; [done|]. by constructor.
  - eexists. split; [done|]. by constructor.
Qed.

Lemma write_object_data_ok l d :
  writable l → healthy d → dev_ok g d → ∃ d', write_object_data g l d = (d', Ok ()) ∧ healthy d'.
Proof.
  intros Hl Hh Hd. pose proof Hl as [H1 H2 H3 H4 H5]. unfold write_object_data. case_decide as Hz; [by exists d|].
  destruct (try_each_ok (λ _ d, healthy d ∧ dev_ok g d) (write_chunk g l) (seq 0 (chunk_count g (ol_block_count l))) d)
    as (d' & E & Hh' & _); [done| |by exists d'].
  intros k x d1 Hx%lookup_seq [Hh1 Hd1]. destruct Hx as [-> Hk]. cbn [Nat.add] in *.
  destruct (write_chunk g l k d1) as [d2 r] eqn:E. pose proof E as E'.
  apply write_chunk_effect in E' as [[Hd2 _ _] _]; [|done..].
  enough (∃ d', write_chunk g l k d1 = (d', Ok ()) ∧ healthy d') as (d' & Ed & Hh').
  { rewrite E in Ed. injection Ed as -> ->. by exists d'. }
  clear E Hd2 d2 r. destruct (chunk_bounds (ol_block_count l) k ltac:(lia) Hk) as (C1 & C2 & C3 & C4).
  unfold write_chunk. cbv zeta. rewrite length_replicate, <- C1 in *.
  set (c := chunk_end (ol_block_count l) k) in *.
  set (m := Nat.min (Z.to_nat (max_transfer_blocks g)) (Z.to_nat (ol_block_count l) - c)) in *.
  assert (off g (ol_block_count l) = Z.to_nat (ol_block_count l) * block_size_bytes g)%nat as Eo.
  { rewrite <- (Z2Nat.id (ol_block_count l)) at 1 by lia. apply off_nat. }
  assert ((c + m) * block_size_bytes g ≤ Z.to_nat (ol_block_count l) * block_size_bytes g)%nat as Hcm
    by (apply Nat.mul_le_mono_r; lia).
  rewrite (chunk_buffer (ol_data l) _ _ (off g (ol_block_count l) - length (ol_data l))) by lia. fold (padded l).
  destruct Hg as [_ _ Hmt _ _ _].
  destruct (write_blocks_ok (start_lba l + Z.of_nat c) (Z.of_nat m)
    (slice (c * block_size_bytes g) (c * block_size_bytes g + m * block_size_bytes g) (padded l)) d1)
    as (d' & E & Hh'); [done|done|lia|lia|lia| |].
  - rewrite length_slice, off_nat by (rewrite length_padded by done; lia). lia.
  - exists d'. split; [|done]. unfold block_error. cbn [write_blocks FaultInjectingBlockDevice_device]. by rewrite E.
Qed.

Lemma write_all_ok s os d :
  Forall storable os → Forall (λ o, Forall is_byte (so_data o)) os →
  0 ≤ s → lay_end g s os ≤ block_count g → dev_ok g d → healthy d →
  ∃ d', try_each (write_object_data g) (lay g s os) d = (d', Ok ()) ∧ healthy d'.
Proof.
  revert s d. induction os as [|o os IH]; intros s d Hst Hby Hs He Hd Hh; cbn [lay lay_end try_each] in *; [by exists d|].
  apply Forall_cons_1 in Hst as [Ho Hst]. apply Forall_cons_1 in Hby as [Hbo Hby].
  destruct (blocks_for_spec g Hg o Ho) as [Hb _]. pose proof (lay_end_ge g Hg (s + blocks_for g o) os Hst) as Hge.
  assert (writable (layout_of g s o)) as Hw by (by apply layout_writable; [..|lia]).
  destruct (write_object_data_ok _ d Hw Hh Hd) as (d1 & E & Hh1). rewrite E.
  apply write_object_data_effect in E as [[Hd1 _ _] _]; [|done..]. apply IH; done || lia.
Qed.

(** ** Reads *)

Definition powered (d : FaultInjectingBlockDevice) : Prop := powered_off (controller d) = false.

(** What the store reads, as functions of the image. *)
Definition slot_image (img : list Z) (slot : Z) : result SlotDecodeError Superblock :=
  decode_superblock g slot (blocks_of g slot (slot + 1) img).

Definition data_image (img : list Z) (l : ObjectLayout) : result StoreError (list Z) :=
  if decide (ol_block_count l = 0) then Ok []
  else
    let bytes := take (Z.to_nat (data_len l)) (blocks_of g (start_lba l) (start_lba l + ol_block_count l) img) in
    if decide (checksum bytes ≠ data_checksum l) then Err (Corrupt ObjectChecksumMismatch) else Ok bytes.

Fixpoint load_image (img : list Z) (ls : list ObjectLayout) : result StoreError (list StoredObject) :=
  match ls with
  | [] => Ok []
  | l :: ls =>
      let? data := data_image img l in
      let? os := load_image img ls in
      Ok (MkObject (ol_id l) (ol_name l) data :: os)
  end.

Lemma read_blocks_image lba blocks n d :
  dev_ok g d → powered d → 0 ≤ lba → 1 ≤ blocks ≤ max_transfer_blocks g → lba + blocks ≤ block_count g →
  n = off g blocks →
  Faulty.read_blocks lba blocks n d = (d, Ok (blocks_of g lba (lba + blocks) (live_bytes (inner d)))).
Proof.
  intros [Hgd _ _] Hp Hl Hb He ->. pose proof geometry_is_typed as Hty. destruct Hg as [Hbs Hbc Hmt _ _ _].
  unfold Faulty.read_blocks, Controller.ensure_online, Fake.read_blocks, Geometry.validate_read.
  rewrite Hp, Hgd.
  assert (Geometry.validate_transfer g lba blocks (Z.of_nat (off g blocks)) false =
    Ok (lba * logical_block_size g, lba * logical_block_size g + Z.of_nat (off g blocks))) as ->.
  { apply validate_transfer_iff; [done|unfold in_width; lia..|]. split; [|done].
    unfold request_ok, off. split_and!; [lia|lia| |done|done]. rewrite Z2Nat.id; [done|]. apply Z.mul_nonneg_nonneg; lia. }
  destruct d as [i c]. cbn. do 3 f_equal. unfold blocks_of. f_equal. unfold off.
  rewrite Z2Nat.id by (apply Z.mul_nonneg_nonneg; lia). f_equal. lia.
Qed.

Lemma read_chunked_image start total d :
  dev_ok g d → powered d → 0 ≤ start → 0 ≤ total → start + total ≤ block_count g →
  read_blocks_chunked g start total (replicate (off g total) 0) d =
    ((d, blocks_of g start (start + total) (live_bytes (inner d))), Ok ()).
Proof.
  intros Hd Hp Hs Ht He. unfold read_blocks_chunked, blocks_of. rewrite off_add by done.
  set (o := off g start). set (b := block_size_bytes g). set (img := live_bytes (inner d)).
  assert (off g total = Z.to_nat total * b)%nat as Eo.
  { rewrite <- (Z2Nat.id total) at 1 by lia. apply off_nat. }
  pose proof (off_end _ _ (dk_live _ _ Hd) He) as Hend. rewrite off_add in Hend by lia. fold o img in Hend.
  destruct (try_each_ok (λ k (s : FaultInjectingBlockDevice * list Z), fst s = d ∧ length (snd s) = off g total ∧
    slice 0 (chunk_end total k * b) (snd s) = slice o (o + chunk_end total k * b) img)
    (read_chunk g start total) (seq 0 (chunk_count g total)) (d, replicate (off g total) 0)) as (s & -> & H1 & H2 & H3).
  - cbn [fst snd]. split; [done|]. split; [by rewrite length_replicate|]. unfold slice, chunk_end.
    cbn [Nat.mul Nat.min]. by rewrite Nat.add_0_r, !Nat.sub_diag.
  - intros k x [d1 buf] Hx%lookup_seq (H1 & H2 & H3). destruct Hx as [-> Hk]. cbn [fst snd] in *. subst d1.
    destruct (chunk_bounds total (0 + k) ltac:(lia) Hk) as (C1 & C2 & C3 & C4). cbn [Nat.add] in *.
    unfold read_chunk. cbv zeta. rewrite <- C1 in *.
    set (c := chunk_end total k) in *. set (c' := chunk_end total (S k)) in *.
    set (m := Nat.min (Z.to_nat (max_transfer_blocks g)) (Z.to_nat total - c)) in *. fold b.
    replace (c * b + m * b - c * b)%nat with (off g (Z.of_nat m)) by (rewrite off_nat; lia).
    destruct Hg as [_ _ Hmt _ _ _]. cbn [read_blocks FaultInjectingBlockDevice_device].
    rewrite read_blocks_image by (done || lia). eexists. split; [done|]. cbn [fst snd].
    split; [done|]. split; [by rewrite length_blit|]. unfold blocks_of.
    rewrite !off_add, !off_nat by lia. fold o b img.
    assert ((c + m) * b ≤ Z.to_nat total * b)%nat by (apply Nat.mul_le_mono_r; lia).
    replace c' with (c + m)%nat by done. replace ((c + m) * b)%nat with (c * b + m * b)%nat by lia.
    assert (length (slice (o + c * b) (o + c * b + m * b) img) = m * b)%nat as Hls by (rewrite length_slice; lia).
    rewrite (slice_split 0 (c * b)), (slice_split o (o + c * b)) by lia. f_equal.
    + rewrite slice_blit_ne by lia. exact H3.
    + rewrite slice_blit_eq by lia. f_equal. lia.
  - rewrite length_seq, chunk_count_end, <- Eo in H3 by done. rewrite <- H2 in H3 at 1. rewrite slice_full in H3.
    destruct s as [d1 buf]. cbn in *. by subst.
Qed.

Lemma read_object_data_image l d :
  dev_ok g d → powered d → 0 ≤ start_lba l → 0 ≤ ol_block_count l → start_lba l + ol_block_count l ≤ block_count g →
  read_object_data g l d = (d, data_image (live_bytes (inner d)) l).
Proof.
  intros Hd Hp Hs Hb He. unfold read_object_data, data_image. case_decide; [done|].
  replace (Z.to_nat (ol_block_count l) * block_size_bytes g)%nat with (off g (ol_block_count l)).
  2: { rewrite <- (Z2Nat.id (ol_block_count l)) at 1 by lia. apply off_nat. }
  rewrite read_chunked_image by done. by case_decide.
Qed.

Lemma load_objects_image ls d :
  dev_ok g d → powered d →
  Forall (λ l, 0 ≤ start_lba l ∧ 0 ≤ ol_block_count l ∧ start_lba l + ol_block_count l ≤ block_count g) ls →
  load_objects g ls d = (d, load_image (live_bytes (inner d)) ls).
Proof.
  intros Hd Hp Hls. induction Hls as [|l ls (H1 & H2 & H3) _ IH]; [done|]. cbn [load_objects load_image].
  rewrite read_object_data_image by done. destruct (data_image _ l); [|done]. rewrite IH.
  by destruct (load_image _ ls).
Qed.

Lemma superblocks_fit : 2 ≤ block_count g.
Proof. pose proof (arena_bounds g Hg 0 (or_introl eq_refl)) as Ha. destruct (slot_data_arena g 0). lia. Qed.

Lemma read_superblock_image slot d :
  dev_ok g d → powered d → slot = 0 ∨ slot = 1 →
  read_superblock_slot g slot d = (d, map_err LoadDecode (slot_image (live_bytes (inner d)) slot)).
Proof.
  intros Hd Hp Hs. pose proof superblocks_fit. destruct Hg as [_ _ Hmt _ _ _]. unfold read_superblock_slot.
  cbn [read_blocks FaultInjectingBlockDevice_device]. rewrite read_blocks_image by (done || lia || by rewrite off_one).
  done.
Qed.

(** ** Loading *)

(** What identifies an object on disk: id, name, length and checksum of its data. *)
Definition digest (o : StoredObject) : Z * list Z * Z * Z :=
  (so_id o, so_name o, Z.of_nat (length (so_data o)), checksum (so_data o)).

Lemma slot_image_Ok img slot sb :
  img_ok g img → slot = 0 ∨ slot = 1 → slot_image img slot = Ok sb →
  superblock_ok g slot sb ∧ Forall (λ o, Forall is_byte (ol_name o)) (sb_objects sb).
Proof.
  intros Hi Hs E. pose proof superblocks_fit. apply decode_Ok in E as (? & _ & _ & ?); [done|done| |].
  - apply slice_bytes. by destruct Hi.
  - unfold blocks_of. rewrite length_slice by (apply off_end; [done|lia]). rewrite off_add, off_one by lia. lia.
Qed.

Lemma superblock_extents slot sb :
  slot = 0 ∨ slot = 1 → superblock_ok g slot sb →
  Forall (λ l, fst (slot_data_arena g slot) ≤ start_lba l ∧ 0 ≤ start_lba l ∧ 0 ≤ ol_block_count l ∧
               start_lba l + ol_block_count l ≤ snd (slot_data_arena g slot) ∧
               start_lba l + ol_block_count l ≤ block_count g) (sb_objects sb).
Proof.
  intros Hs (_ & _ & _ & Ht & _ & _ & He & _). pose proof (arena_bounds g Hg slot Hs) as Ha.
  rewrite Forall_forall in Ht, He |- *. intros l Hl. specialize (He l Hl). specialize (Ht l Hl) as [_ _ _ _ _ Hb _].
  unfold extent_ok, in_width in *. destruct (slot_data_arena g slot) as [a b]. cbn. lia.
Qed.

Lemma load_image_err img ls e : load_image img ls = Err e → e = Corrupt ObjectChecksumMismatch.
Proof.
  induction ls as [|l ls IH]; cbn [load_image]; [done|]. unfold data_image. case_decide.
  - destruct (load_image img ls); [done|]. auto.
  - cbv zeta. case_decide; [by intros [= <-]|]. destruct (load_image img ls); [done|]. auto.
Qed.

Lemma load_image_ext img img' a b ls :
  same_outside g a b img img' →
  Forall (λ l, start_lba l + ol_block_count l ≤ a ∨ b ≤ start_lba l) ls →
  load_image img' ls = load_image img ls.
Proof.
  intros Hs Hls. induction Hls as [|l ls Hl _ IH]; [done|]. cbn [load_image]. unfold data_image.
  by rewrite (same_blocks a b _ _ img img' Hs Hl), IH.
Qed.

(** The data of a commit that was written out loads as it was. *)
Lemma load_image_lay img s os :
  Forall storable os →
  (∀ l, l ∈ lay g s os → blocks_of g (start_lba l) (start_lba l + ol_block_count l) img = padded l) →
  load_image img (erase <$> lay g s os) = Ok os.
Proof.
  revert s. induction os as [|o os IH]; intros s Hst Hl; [done|]. apply Forall_cons_1 in Hst as [Ho Hst].
  cbn [lay fmap list_fmap load_image].
  assert (data_image img (erase (layout_of g s o)) = Ok (so_data o)) as ->.
  { specialize (Hl (layout_of g s o) ltac:(by left)). cbn in Hl. unfold data_image. cbn. rewrite Hl. unfold padded. cbn.
    destruct (blocks_for_spec g Hg o Ho) as [_ [[-> ->]|(Hne & Hb & _)]]; [done|].
    rewrite decide_False by lia. rewrite Nat2Z.id, take_app_length. by rewrite decide_False by tauto. }
  cbn. rewrite (IH (s + blocks_for g o)); [by destruct o|done|]. intros l Hin. apply Hl. by right.
Qed.

(** Whatever loads under the superblock of a commit agrees with that commit up to checksums. *)
Lemma load_image_digest img s os os' :
  img_ok g img → Forall storable os → 0 ≤ s → lay_end g s os ≤ block_count g →
  load_image img (erase <$> lay g s os) = Ok os' → digest <$> os' = digest <$> os.
Proof.
  intros Hi. revert s os'. induction os as [|o os IH]; intros s os' Hst Hs He; cbn [lay fmap list_fmap load_image].
  { by intros [= <-]. }
  apply Forall_cons_1 in Hst as [Ho Hst]. cbn [lay_end] in He.
  destruct (blocks_for_spec g Hg o Ho) as [Hb Hcase]. pose proof (lay_end_ge g Hg (s + blocks_for g o) os Hst) as Hge.
  destruct (data_image img (erase (layout_of g s o))) as [data|] eqn:Ed; [|done]. cbn [erase layout_of].
  destruct (load_image img _) as [os''|] eqn:El; [|done]. intros [= <-]. apply IH in El; [|done|lia|done].
  rewrite fmap_cons, El. f_equal. revert Ed. unfold data_image. cbn. unfold digest. cbn.
  destruct Hcase as [[-> ->]|(Hne & Hb1 & Hb2)]; [by intros [= <-]|].
  rewrite decide_False by lia. case_decide as Hck; [done|]. intros [= <-].
  f_equal; [|exact Hck]. f_equal. rewrite Nat2Z.id, length_take. unfold blocks_of.
  rewrite length_slice by (apply off_end; [done|lia]). rewrite off_add by lia.
  unfold off at 2. lia.
Qed.
End device.
