(* ===== verification/StoreCrash.v ===== *)
(** Crash safety of the object store ([store/src/lib.rs]) over the fault-injecting device
    ([block/src/fault.rs]).

    A run is a sequence of staged writes, commits, changes of the fault plan and power cycles.
    Beside the store it tracks what must survive: the objects of the last commit that returned
    [Ok], and those of the commits that failed since then. *)

From Stdlib Require Import ZArith Lia.
From stdpp Require Import base list sorting tactics decidable numbers.
From S2P Require Import Prelude Bytes BlockDev Store StoreCodec StoreLayout StoreDevice.

Local Open Scope Z_scope.

(** * Runs *)

Definition FaultyStore : Type := ObjectStore FaultInjectingBlockDevice.

(** Power cycle: only the durable image is left. *)
Definition recover (d : FaultInjectingBlockDevice) : option FaultyStore :=
  match Faulty.rebooted_from_durable d with
  | Err _ => None
  | Ok d => match mount d with Ok s => Some s | Err _ => None end
  end.

Inductive StoreOp : Type :=
| WriteObject (i : Z) (name data : list Z)
| Commit
| Inject (faults : FaultState)
| PowerCycle.

Record Tracked : Type := MkTracked {
  tr_store : FaultyStore;
  committed : list StoredObject;
  attempted : list (list StoredObject);
}.

Definition set_faults (c : FaultState) (s : FaultyStore) : FaultyStore :=
  with_device (MkFaulty (inner (st_device s)) c) s.

Definition store_step (t : Tracked) (op : StoreOp) : Tracked :=
  let s := tr_store t in
  match op with
  | WriteObject i name data => MkTracked (fst (write_object i name data s)) (committed t) (attempted t)
  | Commit =>
      match commit s with
      | (s', Ok _) => MkTracked s' (objects s) []
      | (s', Err _) => MkTracked s' (committed t) (objects s :: attempted t)
      end
  | Inject c => MkTracked (set_faults c s) (committed t) (attempted t)
  | PowerCycle =>
      match recover (st_device s) with
      | Some s' =>
          if decide (st_generation s' = st_generation s) then MkTracked s' (committed t) (attempted t)
          else MkTracked s' (objects s') []
      | None => t
      end
  end.

Definition store_run (t : Tracked) (ops : list StoreOp) : Tracked := foldl store_step t ops.

(** Operations a caller can make: ids and data of their types, names that are [str]s. *)
Definition op_ok (op : StoreOp) : Prop :=
  match op with
  | WriteObject i name data =>
      in_width 64 i ∧ utf8_valid name = true ∧ Forall is_byte name ∧ Forall is_byte data
  | _ => True
  end.

(** * The invariant *)

Definition other (slot : Z) : Z := (slot + 1) mod SUPERBLOCK_SLOTS.

Definition bytes_ok (os : list StoredObject) : Prop :=
  Forall (λ o, Forall is_byte (so_name o) ∧ Forall is_byte (so_data o)) os.

(** The superblock of a commit of [os] in [slot]. *)
Definition commit_of (g : BlockGeometry) (slot gen : Z) (os : list StoredObject) : Superblock :=
  let ls := lay g (fst (slot_data_arena g slot)) os in MkSuperblock gen (Z.of_nat (length ls)) ls.

Record fits (g : BlockGeometry) (slot : Z) (os : list StoredObject) : Prop := {
  ft_storable : Forall storable os;
  ft_end : lay_end g (fst (slot_data_arena g slot)) os ≤ snd (slot_data_arena g slot);
}.

(** The other slot holds nothing that mounts before the active one, or an attempted commit. *)
Definition rival_ok (g : BlockGeometry) (slot : Z) (A : list (list StoredObject)) (sb sb' : Superblock) : Prop :=
  newer_first (slot, sb) (other slot, sb') ∨
  ∃ os, os ∈ A ∧ fits g (other slot) os ∧ sb' = erased (commit_of g (other slot) (sb_generation sb + 1) os).

Definition image_inv (g : BlockGeometry) (slot gen : Z) (C : list StoredObject) (A : list (list StoredObject))
    (img : list Z) : Prop :=
  ∃ sb, slot_image g img slot = Ok sb ∧ sb_generation sb = gen ∧ load_image g img (sb_objects sb) = Ok C ∧
    ∀ sb', slot_image g img (other slot) = Ok sb' → rival_ok g slot A sb sb'.

Record store_inv (t : Tracked) : Prop := {
  si_geometry : geometry_ok (st_geometry (tr_store t));
  si_device : dev_ok (st_geometry (tr_store t)) (st_device (tr_store t));
  si_slot : active_slot (tr_store t) = 0 ∨ active_slot (tr_store t) = 1;
  si_generation : in_width 64 (st_generation (tr_store t));
  si_table : table_ok (objects (tr_store t));
  si_bytes : bytes_ok (objects (tr_store t));
  si_live : image_inv (st_geometry (tr_store t)) (active_slot (tr_store t)) (st_generation (tr_store t))
              (committed t) (attempted t) (live_bytes (inner (st_device (tr_store t))));
  si_durable : image_inv (st_geometry (tr_store t)) (active_slot (tr_store t)) (st_generation (tr_store t))
              (committed t) (attempted t) (durable_bytes (inner (st_device (tr_store t))));
}.

Section crash.
Context (g : BlockGeometry) (Hg : geometry_ok g).
Implicit Types (d : FaultInjectingBlockDevice) (img : list Z).

Lemma other_slot slot : slot = 0 ∨ slot = 1 → other slot = 0 ∨ other slot = 1.
Proof. intros [-> | ->]; [by right|by left]. Qed.

Lemma other_other slot : slot = 0 ∨ slot = 1 → other (other slot) = slot.
Proof. by intros [-> | ->]. Qed.

Lemma arenas_apart slot :
  slot = 0 ∨ slot = 1 →
  snd (slot_data_arena g slot) ≤ fst (slot_data_arena g (other slot)) ∨
  snd (slot_data_arena g (other slot)) ≤ fst (slot_data_arena g slot).
Proof.
  intros [-> | ->]; change (other 0) with 1; change (other 1) with 0;
    unfold slot_data_arena, DATA_START_LBA, SUPERBLOCK_SLOTS; cbn [fst snd]; lia.
Qed.

Lemma image_inv_mono slot gen C A A' img :
  (∀ os, os ∈ A → os ∈ A') → image_inv g slot gen C A img → image_inv g slot gen C A' img.
Proof.
  intros HA (sb & H1 & H2 & H3 & H4). exists sb. split_and!; [done..|]. intros sb' E.
  destruct (H4 sb' E) as [?|(os & ? & ? & ?)]; [by left|]. right. exists os. auto.
Qed.

(** ** Choosing the slot *)

Lemma merge_sort_two {A : Type} (R : A → A → Prop) `{∀ x y, Decision (R x y)} x y :
  merge_sort R [x; y] = if decide (R x y) then [x; y] else [y; x].
Proof. unfold merge_sort. simpl. by case_decide. Qed.

Lemma newer_first_or a b : fst a ≠ fst b → ¬ newer_first a b → newer_first b a.
Proof. unfold newer_first. lia. Qed.

Lemma newer_first_anti a b : fst a ≠ fst b → newer_first a b → ¬ newer_first b a.
Proof. unfold newer_first. lia. Qed.

(** Both slots decode: the one that comes first is tried first. *)
Lemma select_two slot sb sb' d :
  slot = 0 ∨ slot = 1 → dev_ok g d → powered d →
  slot_image g (live_bytes (inner d)) slot = Ok sb →
  slot_image g (live_bytes (inner d)) (other slot) = Ok sb' →
  newer_first (slot, sb) (other slot, sb') →
  select_committed_state g d =
    try_candidates g [(slot, sb); (other slot, sb')] (MkErrors None None None) d.
Proof.
  intros Hslot Hd Hp E E' Hn. unfold select_committed_state.
  rewrite (read_superblock_image g Hg 0 d), (read_superblock_image g Hg 1 d) by auto.
  destruct Hslot as [-> | ->]; change (other 0) with 1 in *; change (other 1) with 0 in *;
    rewrite E, E'; cbn [map_err note_slot app]; rewrite merge_sort_two.
  - by rewrite decide_True.
  - rewrite decide_False; [done|]. by apply newer_first_anti.
Qed.

Lemma select_one slot sb d :
  slot = 0 ∨ slot = 1 → dev_ok g d → powered d →
  slot_image g (live_bytes (inner d)) slot = Ok sb →
  (∀ sb', slot_image g (live_bytes (inner d)) (other slot) ≠ Ok sb') →
  ∃ e, select_committed_state g d = try_candidates g [(slot, sb)] e d.
Proof.
  intros Hslot Hd Hp E E'. unfold select_committed_state.
  rewrite (read_superblock_image g Hg 0 d), (read_superblock_image g Hg 1 d) by auto.
  destruct Hslot as [-> | ->]; change (other 0) with 1 in *; change (other 1) with 0 in *; rewrite E;
    (destruct (slot_image g _ _) as [sb'|[x|x]]; [by destruct (E' sb')|eexists; done..]).
Qed.

Lemma load_objects_slot slot sb d :
  slot = 0 ∨ slot = 1 → dev_ok g d → powered d → slot_image g (live_bytes (inner d)) slot = Ok sb →
  load_objects g (sb_objects sb) d = (d, load_image g (live_bytes (inner d)) (sb_objects sb)).
Proof.
  intros Hs Hd Hp E. apply load_objects_image; [done..|].
  apply (slot_image_Ok g Hg) in E as [E _]; [|by destruct Hd|done].
  apply superblock_extents in E; [|done..]. eapply Forall_impl; [|exact E]. naive_solver.
Qed.

(** What a device that satisfies the invariant mounts. *)
Lemma select_inv slot gen C A d :
  slot = 0 ∨ slot = 1 → dev_ok g d → powered d → image_inv g slot gen C A (live_bytes (inner d)) →
  (∃ sb, select_committed_state g d = (d, Ok (slot, sb, C)) ∧ sb_generation sb = gen ∧
     slot_image g (live_bytes (inner d)) slot = Ok sb) ∨
  (∃ sb sb' os os', select_committed_state g d = (d, Ok (other slot, sb', os')) ∧
     slot_image g (live_bytes (inner d)) slot = Ok sb ∧ sb_generation sb = gen ∧
     slot_image g (live_bytes (inner d)) (other slot) = Ok sb' ∧ sb_generation sb' = gen + 1 ∧
     load_image g (live_bytes (inner d)) (sb_objects sb') = Ok os' ∧
     os ∈ A ∧ digest <$> os' = digest <$> os).
Proof.
  intros Hs Hd Hp (sb & E & Hgen & Hload & Hriv). pose proof (load_objects_slot slot sb d Hs Hd Hp E) as Hl.
  rewrite Hload in Hl. destruct (slot_image g (live_bytes (inner d)) (other slot)) as [sb'|e] eqn:E'.
  2: { left. destruct (select_one slot sb d Hs Hd Hp E) as [x ->]; [by rewrite E'|].
       exists sb. cbn [try_candidates]. by rewrite Hl. }
  destruct (Hriv sb' eq_refl) as [Hn|(os & Hin & [Hst Hend] & Hsb')].
  - left. rewrite (select_two slot sb sb') by done. exists sb. cbn [try_candidates]. by rewrite Hl.
  - pose proof (other_slot slot Hs) as Ho. pose proof (load_objects_slot (other slot) sb' d Ho Hd Hp E') as Hl'.
    assert (sb_generation sb' = gen + 1) as Hgen' by (by rewrite Hsb', <- Hgen).
    assert (other slot ≠ slot) as Hne by (destruct Hs as [-> | ->]; done).
    rewrite (select_two (other slot) sb' sb); [|done..|by rewrite other_other|by left; cbn; lia].
    rewrite (other_other slot Hs). cbn [try_candidates]. rewrite Hl'.
    destruct (load_image g _ (sb_objects sb')) as [os'|x] eqn:El.
    + right. exists sb, sb', os, os'. split_and!; try done. rewrite Hsb' in El.
      pose proof (arena_bounds g Hg (other slot) Ho) as Ha. destruct Hd as [_ Hlive _].
      destruct (slot_data_arena g (other slot)) as [a b] eqn:Ear. cbn in Hend.
      apply (load_image_digest g Hg (live_bytes (inner d)) a); [done|done|lia|lia|]. 
      unfold erased, commit_of in El. by rewrite Ear in El.
    + left. exists sb. apply load_image_err in El as ->. rewrite Hl. done.
Qed.

(** ** What the writes of a commit do to an image *)

Lemma arena_after slot : slot = 0 ∨ slot = 1 → 2 ≤ fst (slot_data_arena g slot).
Proof. intros Hs. pose proof (arena_bounds g Hg slot Hs) as Ha. destruct (slot_data_arena g slot). by destruct Ha. Qed.

(** The objects of the active slot lie outside the arena of the other one. *)
Lemma active_apart slot sb :
  slot = 0 ∨ slot = 1 → superblock_ok g slot sb →
  Forall (λ l, start_lba l + ol_block_count l ≤ fst (slot_data_arena g (other slot)) ∨
               snd (slot_data_arena g (other slot)) ≤ start_lba l) (sb_objects sb).
Proof.
  intros Hs Hsb%superblock_extents; [|done..]. eapply Forall_impl; [|exact Hsb]. cbv beta.
  intros l (H1 & _ & _ & H2 & _). destruct (arenas_apart slot Hs); [left|right]; lia.
Qed.

Lemma image_inv_data slot gen C A img img' :
  slot = 0 ∨ slot = 1 → img_ok g img → image_inv g slot gen C A img →
  same_outside g (fst (slot_data_arena g (other slot))) (snd (slot_data_arena g (other slot))) img img' →
  image_inv g slot gen C A img'.
Proof.
  intros Hs Hi (sb & E & Hgen & Hload & Hriv) Hsame. pose proof (other_slot slot Hs) as Ho.
  pose proof (arena_after (other slot) Ho) as Ha.
  assert (∀ k, k = 0 ∨ k = 1 → slot_image g img' k = slot_image g img k) as Hk.
  { intros k Hk. unfold slot_image. rewrite (same_blocks g Hg _ _ _ _ _ _ Hsame); [done|]. left. lia. }
  exists sb. rewrite !Hk by done. split_and!; [done|done| |done]. rewrite <- Hload.
  eapply load_image_ext; [done|exact Hsame|]. apply active_apart; [done|].
  by apply (slot_image_Ok g Hg) in E as [].
Qed.

Lemma slot_image_wrote k img buf :
  img_ok g img → k = 0 ∨ k = 1 → length buf = off g 1 →
  slot_image g (blit (off g k) buf img) k = decode_superblock g k buf.
Proof.
  intros Hi Hk Hl. unfold slot_image, blocks_of. rewrite off_add by (done || lia). f_equal.
  pose proof (superblocks_fit g Hg). pose proof (off_end g Hg img (k + 1) Hi ltac:(lia)) as He.
  rewrite off_add in He by (done || lia). apply slice_blit_eq; lia.
Qed.

(** The superblock [sb] of [slot] and its objects are untouched by a write to the other slot. *)
Lemma wrote_other slot sb buf img img' :
  slot = 0 ∨ slot = 1 → img_ok g img → wrote g (other slot) 1 buf img img' →
  slot_image g img slot = Ok sb →
  slot_image g img' slot = Ok sb ∧ load_image g img' (sb_objects sb) = load_image g img (sb_objects sb).
Proof.
  intros Hs Hi Hw%wrote_outside E; [|done..]. split.
  - rewrite <- E. unfold slot_image. rewrite (same_blocks g Hg _ _ _ _ _ _ Hw); [done|].
    destruct Hs as [-> | ->]; change (other 0) with 1; change (other 1) with 0; lia.
  - eapply load_image_ext; [done|exact Hw|]. apply (slot_image_Ok g Hg) in E as [E _]; [|done..].
    apply superblock_extents in E; [|done..]. eapply Forall_impl; [|exact E]. cbv beta. intros l (H1 & _).
    pose proof (arena_after slot Hs). right. destruct (other_slot slot Hs) as [-> | ->]; lia.
Qed.

Lemma image_inv_superblock slot gen C A os img img' :
  slot = 0 ∨ slot = 1 → img_ok g img → image_inv g slot gen C A img → fits g (other slot) os →
  superblock_ok g (other slot) (commit_of g (other slot) (gen + 1) os) →
  wrote g (other slot) 1 (encode_superblock g (commit_of g (other slot) (gen + 1) os)) img img' →
  image_inv g slot gen C (os :: A) img'.
Proof.
  intros Hs Hi Hinv Hfit Hok Hw. pose proof (other_slot slot Hs) as Ho.
  apply (image_inv_mono _ _ _ _ (os :: A)) in Hinv as (sb & E & Hgen & Hload & Hriv); [|by right].
  destruct (wrote_other _ _ _ _ _ Hs Hi Hw E) as [E2 L2].
  exists sb. rewrite E2, L2. split_and!; [done..|]. destruct Hw as [->|(_ & _ & _ & Hl & ->)]; [done|].
  intros sb'. rewrite slot_image_wrote, encode_decode by done. intros [= <-]. right. exists os.
  rewrite Hgen. split_and!; [by left|done|done].
Qed.

(** ** Commit *)

Lemma build_fits slot os ls :
  slot = 0 ∨ slot = 1 → table_ok os → build_object_layout g slot os = Ok ls →
  fits g slot os ∧ ls = lay g (fst (slot_data_arena g slot)) os ∧
  ∀ gen, in_width 64 gen → superblock_ok g slot (commit_of g slot gen os).
Proof.
  intros Hs Ht Hb. destruct (build_object_layout_Ok g Hg slot os ls Hs Ht Hb) as (-> & Hst & Hok).
  split; [|by split]. constructor; [done|]. revert Hb. unfold build_object_layout.
  destruct (slot_data_arena g slot) as [a b]. destruct (try_fold _ _ _) as [[next l]|] eqn:Hf; [|done].
  apply build_fold in Hf as (_ & -> & _). cbn. case_decide; [done|]. lia.
Qed.

Lemma lay_names slot gen os :
  bytes_ok os → Forall (λ o, Forall is_byte (ol_name o)) (sb_objects (commit_of g slot gen os)).
Proof.
  intros Hb. cbn [commit_of sb_objects]. cut (Forall (Forall is_byte) (ol_name <$> lay g (fst (slot_data_arena g slot)) os)).
  { by rewrite Forall_fmap. }
  rewrite (lay_fmap g so_name) by done. rewrite Forall_fmap. eapply Forall_impl; [|exact Hb]. by intros ? [].
Qed.

(** After the writes and the flush of a commit. *)
Lemma image_inv_committed slot gen C A os img img' :
  slot = 0 ∨ slot = 1 → img_ok g img → image_inv g slot gen C A img → fits g (other slot) os →
  superblock_ok g (other slot) (commit_of g (other slot) (gen + 1) os) →
  (∀ l, l ∈ lay g (fst (slot_data_arena g (other slot))) os →
     blocks_of g (start_lba l) (start_lba l + ol_block_count l) img = padded g l) →
  img' = blit (off g (other slot)) (encode_superblock g (commit_of g (other slot) (gen + 1) os)) img →
  image_inv g (other slot) (gen + 1) os [] img'.
Proof.
  intros Hs Hi (sb & E & Hgen & _ & _) [Hst _] Hok Hdata ->. pose proof (other_slot slot Hs) as Ho.
  pose proof (superblocks_fit g Hg) as Hfit.
  set (c := commit_of g (other slot) (gen + 1) os) in *.
  assert (length (encode_superblock g c) = off g 1) as Hl by (rewrite off_one; by eapply encode_length).
  assert (wrote g (other slot) 1 (encode_superblock g c) img (blit (off g (other slot)) (encode_superblock g c) img)) as Hw.
  { right. split_and!; [lia|lia|lia|done|done]. }
  destruct (wrote_other _ _ _ _ _ Hs Hi Hw E) as [E2 _].
  exists (erased c). split_and!.
  - by rewrite slot_image_wrote, encode_decode by done.
  - done.
  - unfold c, erased. cbn [commit_of sb_objects]. apply load_image_lay; [done..|]. intros l Hin.
    rewrite <- (Hdata l Hin). apply wrote_outside in Hw; [|done..]. eapply same_blocks; [done|exact Hw|]. right.
    destruct (lay_bounds g Hg _ _ _ Hst Hin) as (_ & _ & _ & H1 & _). pose proof (arena_after (other slot) Ho). lia.
  - intros sb'. rewrite other_other, E2 by done. intros [= <-]. left. left. cbn. lia.
Qed.
End crash.

Lemma with_device_inv t d A :
  store_inv t → dev_ok (st_geometry (tr_store t)) d → (∀ os, os ∈ attempted t → os ∈ A) →
  let g := st_geometry (tr_store t) in
  let inv := image_inv g (active_slot (tr_store t)) (st_generation (tr_store t)) (committed t) A in
  inv (live_bytes (inner d)) → inv (durable_bytes (inner d)) →
  store_inv (MkTracked (with_device d (tr_store t)) (committed t) A).
Proof. intros [] Hd HA g inv Hl Hdur. by constructor. Qed.

Lemma commit_inv t : store_inv t → store_inv (store_step t Commit).
Proof.
  intros Ht. pose proof Ht as [Hg Hd Hslot Hgen Htab Hby Hlive Hdur]. cbn [store_step].
  set (s := tr_store t) in *. set (g := st_geometry s) in *. set (A := objects s :: attempted t).
  assert (∀ os, os ∈ attempted t → os ∈ A) as HA by (by right).
  assert (store_inv (MkTracked s (committed t) A)) as Hkeep.
  { constructor; try done; by eapply image_inv_mono. }
  unfold commit. fold (other (active_slot s)). pose proof (other_slot _ Hslot) as Ho.
  destruct (checked_add 64 (st_generation s) 1) as [gen'|] eqn:Hc; [|done].
  apply checked_add_Some in Hc as [-> Hgen']. assert (in_width 64 (st_generation s + 1)) as Hw by (unfold in_width in *; lia).
  destruct (build_object_layout (st_geometry s) _ _) as [ls|e] eqn:Hb; [|done].
  apply build_fits in Hb as (Hfit & -> & Hok); [|done..]. specialize (Hok _ Hw). fold g in Hok, Hfit |- *.
  set (slot := other (active_slot s)) in *. pose proof (arena_bounds g Hg _ Ho) as Ha.
  assert (0 ≤ fst (slot_data_arena g slot) ∧ snd (slot_data_arena g slot) ≤ block_count g) as [Ha1 Ha2]
    by (destruct (slot_data_arena g slot); cbn; lia).
  pose proof Hfit as [Hst Hend]. destruct (try_each (write_object_data g) _ (st_device s)) as [d1 r1] eqn:E1.
  apply write_all_effect in E1 as [T1 D1]; [|done|done|by eapply Forall_impl; [|exact Hby]; intros ? []|done|lia|done].
  apply (touches_weaken g Hg _ _ (fst (slot_data_arena g slot)) (snd (slot_data_arena g slot))) in T1 as [Hd1 L1 U1];
    [|done..].
  apply (image_inv_data g Hg _ _ _ _ _ _ Hslot (dk_live _ _ Hd) Hlive) in L1.
  apply (image_inv_data g Hg _ _ _ _ _ _ Hslot (dk_durable _ _ Hd) Hdur) in U1.
  destruct r1 as [[]|e]; [|by apply with_device_inv; [..|eapply image_inv_mono|eapply image_inv_mono]].
  change (MkSuperblock _ _ _) with (commit_of g slot (st_generation s + 1) (objects s)).
  destruct (write_superblock g slot _ d1) as [d2 r2] eqn:E2.
  apply (write_superblock_effect g Hg) in E2 as (Hd2 & W1 & W2 & D2); [|done|by apply lay_names|done].
  pose proof (image_inv_superblock g Hg _ _ _ _ _ _ _ Hslot (dk_live _ _ Hd1) L1 Hfit Hok W1) as L2.
  pose proof (image_inv_superblock g Hg _ _ _ _ _ _ _ Hslot (dk_durable _ _ Hd1) U1 Hfit Hok W2) as U2.
  destruct r2 as [[]|e]; [|by apply with_device_inv].
  destruct (flush d2) as [d3 r3] eqn:E3. apply (flush_effect g) in E3 as (Hd3 & F1 & F2 & F3); [|done].
  destruct r3 as [[]|e].
  - assert (image_inv g slot (st_generation s + 1) (objects s) [] (live_bytes (inner d3))) as Hnew.
    { rewrite F1. exact (image_inv_committed g Hg _ _ _ _ _ _ _ Hslot (dk_live _ _ Hd1) L1 Hfit Hok (D1 eq_refl)
               (proj2 (D2 eq_refl))). }
    constructor; cbn; try done. by rewrite (F3 eq_refl), <- F1.
  - apply with_device_inv; [done|done|done|by rewrite F1|]. destruct F2 as [-> | ->]; done.
Qed.

(** A healthy device with room takes every commit. *)
Lemma commit_healthy t :
  store_inv t →
  let s := tr_store t in
  healthy (st_geometry s) (st_device s) → st_generation s + 1 < 2 ^ 64 →
  fits (st_geometry s) (other (active_slot s)) (objects s) → ∃ s1, commit s = (s1, Ok ()).
Proof.
  cbv zeta. intros [Hg Hd Hslot Hgen Htab Hby _ _] Hh Hmax Hfit. set (s := tr_store t) in *. set (g := st_geometry s) in *.
  pose proof (other_slot _ Hslot) as Ho. pose proof Hfit as [Hst Hend]. pose proof (arena_bounds g Hg _ Ho) as Ha.
  assert (0 ≤ fst (slot_data_arena g (other (active_slot s))) ∧
          snd (slot_data_arena g (other (active_slot s))) ≤ block_count g) as [Ha1 Ha2]
    by (destruct (slot_data_arena g (other (active_slot s))); cbn; lia).
  assert (build_object_layout g (other (active_slot s)) (objects s) =
    Ok (lay g (fst (slot_data_arena g (other (active_slot s)))) (objects s))) as Hb.
  { unfold build_object_layout. destruct (slot_data_arena g (other (active_slot s))) as [a b]. cbn [fst snd] in *.
    rewrite build_fold_Ok; [|done|done| |done|destruct Hg; lia].
    - cbn. by rewrite decide_False by lia.
    - destruct Htab as [_ _ _ Hall]. eapply Forall_impl; [|exact Hall]. by intros ? (_ & ? & _). }
  destruct (build_fits g Hg _ _ _ Ho Htab Hb) as (_ & _ & Hok).
  specialize (Hok (st_generation s + 1) ltac:(unfold in_width in *; lia)).
  assert (Forall (λ o, Forall is_byte (so_data o)) (objects s)) as Hdt
    by (eapply Forall_impl; [|exact Hby]; by intros ? []).
  destruct (write_all_ok g Hg (fst (slot_data_arena g (other (active_slot s)))) (objects s) (st_device s))
    as (d1 & E1 & Hh1); [done..|lia|done|done|].
  pose proof E1 as T1. apply write_all_effect in T1 as [[Hd1 _ _] _]; [|done..|lia|done].
  unfold commit. fold (other (active_slot s)). unfold checked_add. rewrite decide_True by done. fold g. rewrite Hb, E1.
  change (MkSuperblock _ _ _) with (commit_of g (other (active_slot s)) (st_generation s + 1) (objects s)).
  pose proof (superblocks_fit g Hg). unfold write_superblock, block_error.
  destruct (write_blocks_ok g Hg (other (active_slot s)) 1
    (encode_superblock g (commit_of g (other (active_slot s)) (st_generation s + 1) (objects s))) d1)
    as (d2 & E2 & [Hon Hpl _]); [done|done|lia|destruct Hg; lia|lia|rewrite off_one; by eapply encode_length|].
  cbn [write_blocks FaultInjectingBlockDevice_device]. rewrite E2. cbn.
  unfold Faulty.flush, Controller.next_flush_plan. rewrite Hon, Hpl. cbn. by eexists.
Qed.

(** ** Power cycles *)

Section recovery.
Context (g : BlockGeometry) (Hg : geometry_ok g).

Lemma rebooted_image d :
  dev_ok g d →
  Faulty.rebooted_from_durable d =
    Ok (Faulty.new (MkFake g (durable_bytes (inner d)) (durable_bytes (inner d)) 0)).
Proof.
  intros [Hgd _ [Hl _]]. unfold Faulty.rebooted_from_durable, Fake.rebooted, Fake.from_durable_bytes, Fake.new.
  rewrite Hgd. destruct Hg as [_ _ _ _ Hf _]. rewrite decide_False by (unfold u64_max, max_of; lia).
  cbn [durable_bytes fk_flush_count]. by rewrite length_replicate, decide_False by (rewrite Hl; tauto).
Qed.

Lemma validate_geometry_ok : validate_geometry g = Ok g.
Proof.
  destruct Hg as [Hs _ Ht _ _ Ha]. unfold validate_geometry, HEADER_BYTES, ENTRY_BYTES, MAX_OBJECTS.
  cbv zeta. rewrite decide_False by lia. by rewrite decide_False.
Qed.

(** What loads is a table of objects. *)
Lemma load_table img slot sb os :
  img_ok g img → slot = 0 ∨ slot = 1 → slot_image g img slot = Ok sb → load_image g img (sb_objects sb) = Ok os →
  table_ok os ∧ bytes_ok os.
Proof.
  intros Hi Hs E Hload. apply (slot_image_Ok g Hg) in E as [(_ & _ & Hlen & Ht & Hids & Hnames & _) Hby]; [|done..].
  assert (so_id <$> os = ol_id <$> sb_objects sb ∧ so_name <$> os = ol_name <$> sb_objects sb ∧
          Forall (λ o, Forall is_byte (so_data o)) os) as (E1 & E2 & Hd).
  { clear -Hload Hi. revert os Hload. induction (sb_objects sb) as [|l ls IH]; cbn [load_image]; intros os.
    { intros [= <-]. by split_and!. }
    destruct (data_image g img l) as [data|] eqn:Ed; [|done]. destruct (load_image g img ls) as [os'|]; [|done].
    intros [= <-]. destruct (IH os' eq_refl) as (H1 & H2 & H). rewrite !fmap_cons, H1, H2. split_and!; [done..|].
    constructor; [|done]. cbn. revert Ed. unfold data_image. case_decide; [intros [= <-]; constructor|].
    cbv zeta. case_decide; [done|]. intros [= <-]. apply Forall_take, slice_bytes. by destruct Hi. }
  assert (length os = length (sb_objects sb)) as El by (rewrite <- (length_fmap so_id os), E1; apply length_fmap).
  split.
  - constructor; [lia|by rewrite E1|by rewrite E2|].
    assert (Forall (in_width 64) (so_id <$> os)) as F1.
    { rewrite E1. apply Forall_fmap. eapply Forall_impl; [|exact Ht]. by intros ? []. }
    assert (Forall (λ n, (1 ≤ length n ≤ 32)%nat ∧ utf8_valid n = true) (so_name <$> os)) as F2.
    { rewrite E2. apply Forall_fmap. eapply Forall_impl; [|exact Ht]. by intros ? []. }
    apply (Forall_fmap so_id) in F1. apply (Forall_fmap so_name) in F2. rewrite Forall_forall in F1, F2 |- *. intros o Ho. specialize (F1 o Ho). specialize (F2 o Ho). done.
  - assert (Forall (Forall is_byte) (so_name <$> os)) as F1 by (rewrite E2; by apply Forall_fmap).
    apply (Forall_fmap so_name) in F1. unfold bytes_ok. rewrite Forall_forall in F1, Hd |- *. intros o Ho. split; auto.
    by apply F1.
Qed.
End recovery.

(** What a power cycle finds. *)
Definition survives (t : Tracked) (s' : FaultyStore) : Prop :=
  (st_generation s' = st_generation (tr_store t) ∧ objects s' = committed t) ∨
  (st_generation s' = st_generation (tr_store t) + 1 ∧
   ∃ os, os ∈ attempted t ∧ digest <$> objects s' = digest <$> os).

Lemma recover_inv t :
  store_inv t →
  ∃ s', recover (st_device (tr_store t)) = Some s' ∧ survives t s' ∧
    st_geometry s' = st_geometry (tr_store t) ∧ store_inv (store_step t PowerCycle).
Proof.
  intros [Hg Hd Hslot Hgen Htab Hby Hlive Hdur]. set (s := tr_store t) in *. set (g := st_geometry s) in *.
  unfold recover. rewrite (rebooted_image g Hg _ Hd).
  set (img := durable_bytes (inner (st_device s))) in *. set (d := Faulty.new (MkFake g img img 0)).
  assert (dev_ok g d) as Hd' by (destruct Hd; by constructor).
  pose proof (dk_live _ _ Hd') as Hi. change (live_bytes (inner d)) with img in Hi.
  unfold mount. change (geometry d) with g. rewrite (validate_geometry_ok g Hg).
  pose proof (select_inv g Hg _ _ _ _ d Hslot Hd' eq_refl Hdur) as Hsel.
  change (live_bytes (inner d)) with img in Hsel.
  assert (recover (st_device s) = match mount d with Ok s => Some s | Err _ => None end) as Er
    by (unfold recover; by rewrite (rebooted_image g Hg _ Hd)).
  unfold mount in Er. change (geometry d) with g in Er. rewrite (validate_geometry_ok g Hg) in Er.
  destruct Hsel as [(sb & E & Hsg & Esb)|(sb & sb' & os & os' & E & Esb & Hsg & Esb' & Hsg' & El & Hin & Hdig)];
    rewrite E in Er |- *; eexists; (split; [done|]); (split; [|split; [done|]]).
  - left. by rewrite Hsg.
  - cbn [store_step]. fold s. rewrite Er. cbn [st_generation]. rewrite Hsg, decide_True by done.
    pose proof Hdur as (sb0 & E0 & _ & Hl0 & _). destruct (load_table g Hg img _ _ _ Hi Hslot E0 Hl0).
    by constructor.
  - right. rewrite Hsg'. split; [done|]. by exists os.
  - cbn [store_step]. fold s. rewrite Er. cbn [st_generation objects]. rewrite Hsg', decide_False by lia.
    pose proof (other_slot _ Hslot) as Ho. destruct (load_table g Hg img _ _ _ Hi Ho Esb' El).
    assert (in_width 64 (st_generation s + 1)) as Hw.
    { rewrite <- Hsg'. apply (slot_image_Ok g Hg) in Esb' as [[? _] _]; done. }
    assert (image_inv g (other (active_slot s)) (st_generation s + 1) os' [] img) as Hnew.
    { exists sb'. split_and!; [done..|]. rewrite other_other by done. intros sb0. rewrite Esb. intros [= <-].
      left. left. cbn. lia. }
    by constructor.
Qed.

Lemma store_step_inv t op : op_ok op → store_inv t → store_inv (store_step t op).
Proof.
  intros Hop Ht. destruct op as [i name data| |c|].
  - pose proof Ht as [Hg Hd Hslot Hgen Htab Hby Hlive Hdur]. destruct Hop as (Hi & Hu & Hn & Hdt).
    pose proof (write_object_cases i name data (tr_store t) Htab Hi Hu) as Hc. cbn [store_step].
    destruct (write_object i name data (tr_store t)) as [s' r]. destruct Hc as (E1 & E2 & E3 & E4 & Hc). cbn [fst].
    assert (table_ok (objects s') ∧ bytes_ok (objects s')) as [].
    { destruct r; [|by rewrite Hc]. destruct Hc as (Ht' & _ & _ & Hall). split; [done|].
      unfold bytes_ok in *. rewrite Forall_forall in Hby |- *. intros o Ho%list_elem_of_In.
      destruct (Hall o Ho) as [->|Ho']; [done|]. by apply Hby, list_elem_of_In. }
    constructor; cbn [tr_store committed attempted]; rewrite ?E1, ?E2, ?E3, ?E4; done.
  - by apply commit_inv.
  - destruct Ht as [Hg [] Hslot Hgen Htab Hby Hlive Hdur]. by constructor; try done; constructor.
  - by destruct (recover_inv t Ht) as (? & _ & _ & _ & ?).
Qed.

Lemma store_run_inv t ops : Forall op_ok ops → store_inv t → store_inv (store_run t ops).
Proof.
  unfold store_run. revert t. induction ops as [|op ops IH]; intros t Ho Ht; [done|].
  apply Forall_cons_1 in Ho as [Hop Ho]. cbn. by apply IH, store_step_inv.
Qed.

(** ** Formatting *)

Lemma validated_geometry g g' : geometry_typed g → validate_geometry g = Ok g' → geometry_ok g ∧ g' = g.
Proof.
  intros [] . unfold validate_geometry, HEADER_BYTES, ENTRY_BYTES, MAX_OBJECTS. cbv zeta. case_decide; [done|].
  case_decide; [done|]. intros [= <-]. split; [|done]. constructor; lia || done.
Qed.

Lemma empty_superblock g slot : superblock_ok g slot (MkSuperblock 0 0 []).
Proof. unfold superblock_ok. cbn. split_and!; try done; try constructor. lia. Qed.

Lemma format_inv d s :
  geometry_typed (geometry d) → dev_ok (geometry d) d → format d = Ok s →
  store_inv (MkTracked s [] []) ∧ st_geometry s = geometry d.
Proof.
  intros Hty Hd. unfold format. destruct (validate_geometry _) as [g|] eqn:Hv; [|done].
  apply validated_geometry in Hv as [Hg ->]; [|done]. set (g := geometry d) in *.
  set (sb := MkSuperblock 0 0 []). set (enc := encode_superblock g sb).
  destruct (write_superblock g 0 sb d) as [d1 [[]|]] eqn:E1; [|done].
  apply (write_superblock_effect g Hg) in E1 as (Hd1 & _ & _ & L1); [|by left|done|done].
  destruct (write_superblock g 1 sb d1) as [d2 [[]|]] eqn:E2; [|done].
  apply (write_superblock_effect g Hg) in E2 as (Hd2 & W2 & _ & L2); [|by right|done|done].
  destruct (flush d2) as [d3 [[]|]] eqn:E3; [|done]. apply (flush_effect g) in E3 as (Hd3 & F1 & _ & F3); [|done].
  intros [= <-]. split; [|done]. destruct (L1 eq_refl) as [Hl El1], (L2 eq_refl) as [_ El2].
  assert (decode_superblock g 0 enc = Ok sb ∧ decode_superblock g 1 enc = Ok sb) as [D0 D1]
    by (unfold enc; split; by rewrite (encode_decode g) by (done || apply empty_superblock)).
  assert (image_inv g 0 0 [] [] (live_bytes (inner d2))) as Hinv.
  { exists sb. assert (slot_image g (live_bytes (inner d1)) 0 = Ok sb) as S0.
    { rewrite El1, slot_image_wrote; [exact D0|done|by destruct Hd|by left|exact Hl]. }
    destruct (wrote_other g Hg 0 sb _ _ _ (or_introl eq_refl) (dk_live _ _ Hd1) W2 S0) as [S0' _].
    split; [exact S0'|]. split; [done|]. split; [done|]. intros sb'. change (other 0) with 1.
    rewrite El2, slot_image_wrote; [|done|by destruct Hd1|by right|exact Hl]. fold enc. rewrite D1. intros [= <-].
    left. right. by split. }
  constructor; cbn; [done|done|by left|done| |by constructor|rewrite F1; exact Hinv|rewrite (F3 eq_refl); exact Hinv].
  constructor; cbn; [lia|by constructor..].
Qed.

Lemma commit_generation (s s' : FaultyStore) : commit s = (s', Ok ()) → st_generation s' = st_generation s + 1.
Proof.
  unfold commit. destruct (checked_add _ _ _) as [gen|] eqn:Hc; [|done]. apply checked_add_Some in Hc as [-> _].
  destruct (build_object_layout _ _ _); [|done]. destruct (try_each _ _ _) as [d1 [|]]; [|done].
  destruct (write_superblock _ _ _ d1) as [d2 [|]]; [|done]. destruct (flush d2) as [d3 [|]]; [|done].
  by intros [= <-].
Qed.

(** * Crash safety *)

(** C2: Power loss never loses a commit. Format a device, then run any sequence of staged writes,
    commits, fault plans (power loss or an I/O error after any write or flush, with any writes
    persisted early) and power cycles. Whenever the power is cut, the store mounts again. It
    mounts the objects of the last commit that returned [Ok], bit for bit; or, one generation
    later, a commit that failed since then, with its ids, names, lengths and checksums. *)
Theorem store_crash_safe d s ops :
  geometry_typed (geometry d) → dev_ok (geometry d) d → format d = Ok s → Forall op_ok ops →
  let t := store_run (MkTracked s [] []) ops in
  ∃ s', recover (st_device (tr_store t)) = Some s' ∧ survives t s'.
Proof.
  intros Hty Hd Hf Hops t. destruct (format_inv d s Hty Hd Hf) as [Hinv _].
  destruct (recover_inv t (store_run_inv _ _ Hops Hinv)) as (s' & H1 & H2 & _). eauto.
Qed.

(** C8: A commit that returns [Ok] is durable, and a healthy device takes every commit that fits.
    After any run, if [commit] returns [Ok], a power cycle mounts exactly the staged objects,
    one generation later. If no fault is planned, the device is powered and writable, the
    generation is not exhausted and the objects fit the arena, [commit] returns [Ok]. *)
Theorem commit_durable d s ops :
  geometry_typed (geometry d) → dev_ok (geometry d) d → format d = Ok s → Forall op_ok ops →
  let s := tr_store (store_run (MkTracked s [] []) ops) in
  (∀ s1, commit s = (s1, Ok ()) →
     ∃ s', recover (st_device s1) = Some s' ∧ objects s' = objects s ∧
           st_generation s' = st_generation s + 1 ∧ st_generation s1 = st_generation s + 1) ∧
  (healthy (st_geometry s) (st_device s) → st_generation s + 1 < 2 ^ 64 →
   fits (st_geometry s) (other (active_slot s)) (objects s) → ∃ s1, commit s = (s1, Ok ())).
Proof.
  intros Hty Hd Hf Hops. destruct (format_inv d s Hty Hd Hf) as [Hinv _].
  apply (store_run_inv _ ops) in Hinv; [|done]. set (t := store_run _ ops) in *. cbv zeta. split.
  - intros s1 E. pose proof (commit_inv t Hinv) as Hc. cbn [store_step] in Hc. rewrite E in Hc.
    destruct (recover_inv _ Hc) as (s' & H1 & H2 & _). exists s'. cbn [tr_store] in *.
    pose proof (commit_generation _ _ E) as Hg1.
    destruct H2 as [[H2 H3]|[_ (os & Hos & _)]]; [|by apply elem_of_nil in Hos].
    cbn [tr_store committed] in H2, H3. rewrite Hg1 in H2. done.
  - by apply commit_healthy.
Qed.

(** * A torn payload *)

(** Three commits of one object on a disk of six blocks. The power goes after the superblock of
    the third one, which the device persisted before the data. *)
Module TornDisk.
Definition device : FaultInjectingBlockDevice :=
  Faulty.new (MkFake SmallDisk.geometry (replicate 3072 0) (replicate 3072 0) 0).

Definition data_a : list Z := replicate 16 1.
Definition data_b : list Z := replicate 16 2.
Definition data_c : list Z := replicate 8 1 ++ replicate 4 9 ++ replicate 4 1.

Definition power_cut : FaultState := MkFault 0 0 (Some (MkPlan (AfterWrite 2) PowerLoss)) false [2].

Definition ops : list StoreOp :=
  [WriteObject 1 [97] data_a; Commit; WriteObject 1 [97] data_b; Commit;
   WriteObject 1 [97] data_c; Inject power_cut; Commit].

Definition formatted : FaultyStore :=
  match format device with Ok s => s | Err _ => MkStore device SmallDisk.geometry 0 0 [] end.

Definition final : Tracked := store_run (MkTracked formatted [] []) ops.

Lemma device_typed : geometry_typed (geometry device).
Proof. by constructor. Qed.

Lemma device_ok : dev_ok (geometry device) device.
Proof.
  assert (img_ok SmallDisk.geometry (replicate 3072 0)) as Hi.
  { split; [vm_compute; reflexivity|]. apply Forall_replicate. by vm_compute. }
  constructor; [reflexivity|exact Hi|exact Hi].
Qed.

Lemma format_ok : format device = Ok formatted.
Proof. by vm_compute. Qed.

Lemma ops_ok : Forall op_ok ops.
Proof.
  repeat (constructor; [first [exact I|split_and!; [by vm_compute|done|by repeat constructor|]]|]); [..|constructor].
  all: unfold data_a, data_b, data_c; rewrite ?Forall_app; split_and?; by apply Forall_replicate.
Qed.
End TornDisk.

(** Why [survives] compares the objects of a failed commit by digest only: on this disk the
    superblock of the third commit became durable and its data did not, and the stale data of
    the first one passes its checksum. *)
Example torn_commit_example :
  let t := TornDisk.final in
  ∃ s', recover (st_device (tr_store t)) = Some s' ∧
    st_generation s' = st_generation (tr_store t) + 1 ∧
    committed t = [MkObject 1 [97] TornDisk.data_b] ∧ attempted t = [[MkObject 1 [97] TornDisk.data_c]] ∧
    objects s' = [MkObject 1 [97] TornDisk.data_a].
Proof. vm_compute. eexists. repeat split. Qed.

Lemma store_crash_safe_witness :
  ∃ s', recover (st_device (tr_store TornDisk.final)) = Some s' ∧ survives TornDisk.final s'.
Proof.
  exact (store_crash_safe TornDisk.device TornDisk.formatted TornDisk.ops TornDisk.device_typed
           TornDisk.device_ok TornDisk.format_ok TornDisk.ops_ok).
Defined.

Lemma commit_durable_witness :
  let s := tr_store (store_run (MkTracked TornDisk.formatted [] []) (take 3 TornDisk.ops)) in
  (∃ s1, commit s = (s1, Ok ())) ∧
  (∀ s1, commit s = (s1, Ok ()) →
     ∃ s', recover (st_device s1) = Some s' ∧ objects s' = objects s ∧
           st_generation s' = st_generation s + 1 ∧ st_generation s1 = st_generation s + 1).
Proof.
  pose proof (commit_durable TornDisk.device TornDisk.formatted (take 3 TornDisk.ops) TornDisk.device_typed
    TornDisk.device_ok TornDisk.format_ok (Forall_take _ _ _ TornDisk.ops_ok)) as H.
  cbv zeta in H |- *. destruct H as [H1 H2]. split; [|exact H1]. apply H2.
  - constructor; by vm_compute.
  - by vm_compute.
  - assert (objects (tr_store (store_run (MkTracked TornDisk.formatted [] []) (take 3 TornDisk.ops))) =
            [MkObject 1 [97] TornDisk.data_b]) as -> by (vm_compute; reflexivity).
    constructor; [constructor; [by vm_compute|constructor]|by vm_compute].
Defined.
