(* ===== verification/StoreChecksum.v ===== *)
(** What the payload checksum does not see.

    [checksum] of [store/src/lib.rs] skips the bytes 8..12 of its input, the place where a
    superblock keeps its own checksum, and [read_object_data] applies it to object payloads
    too. The theorem of this file follows those four bytes from the disk to the mounted
    store. *)

From Stdlib Require Import ZArith Lia.
From stdpp Require Import base list tactics decidable numbers sorting.
From S2P Require Import Prelude Bytes BlockDev Store StoreCodec StoreLayout StoreDevice StoreCrash.

Local Open Scope Z_scope.

Lemma checksum_blit four l :
  length four = 4%nat → (CHECKSUM_END ≤ length l)%nat →
  checksum (blit CHECKSUM_START four l) = checksum l.
Proof.
  unfold CHECKSUM_START, CHECKSUM_END. intros Hf Hl. apply checksum_from_ext; [apply length_blit|].
  unfold CHECKSUM_START, CHECKSUM_END. intros k Hk. by rewrite blit_lookup, decide_False by lia.
Qed.

Lemma slice_blit_inside a b c (bs l : list Z) :
  (c + length bs ≤ b)%nat → (a ≤ c)%nat → (b ≤ length l)%nat →
  slice a b (blit c bs l) = blit (c - a) bs (slice a b l).
Proof.
  intros H Ha Hb. apply list_eq. intros i. rewrite slice_lookup, blit_lookup by lia.
  rewrite blit_lookup by (rewrite length_slice; lia). rewrite slice_lookup.
  repeat case_decide; try done; try lia.
  - f_equal. lia.
Qed.

Lemma take_blit n c (bs l : list Z) :
  (c + length bs ≤ n)%nat → (n ≤ length l)%nat → take n (blit c bs l) = blit c bs (take n l).
Proof.
  intros H Hn. pose proof (slice_blit_inside 0 n c bs l H ltac:(lia) Hn) as E.
  unfold slice in E. rewrite !drop_0, Nat.sub_0_r, Nat.sub_0_r in E. exact E.
Qed.

(** An object with four bytes of its data replaced. *)
Definition patch (four : list Z) (o : StoredObject) : StoredObject :=
  MkObject (so_id o) (so_name o) (blit CHECKSUM_START four (so_data o)).

Section patched.
Context (g : BlockGeometry) (Hg : geometry_ok g).
Context (slot : Z) (Hslot : slot = 0 ∨ slot = 1) (img : list Z) (Himg : img_ok g img).
Context (sb : Superblock) (Hsb : slot_image g img slot = Ok sb).
Context (k : nat) (l : ObjectLayout) (Hl : sb_objects sb !! k = Some l) (Hlen : 12 ≤ data_len l).
Context (four : list Z) (Hfour : length four = 4%nat) (Hbytes : Forall is_byte four).

(** The image with the bytes 8..12 of the object's first block replaced. *)
Definition patched : list Z := blit (off g (start_lba l) + CHECKSUM_START) four img.

Lemma patched_extent :
  superblock_ok g slot sb ∧ 2 ≤ start_lba l ∧ 0 < ol_block_count l ∧
  fst (slot_data_arena g slot) ≤ start_lba l ∧
  start_lba l + ol_block_count l ≤ snd (slot_data_arena g slot) ∧
  start_lba l + ol_block_count l ≤ block_count g ∧
  (12 ≤ Z.to_nat (data_len l) ≤ off g (ol_block_count l))%nat.
Proof.
  destruct (slot_image_Ok g Hg img slot sb Himg Hslot Hsb) as [Hok _].
  pose proof (arena_bounds g Hg slot Hslot) as Ha.
  pose proof (superblock_extents g Hg slot sb Hslot Hok) as Hext. rewrite Forall_forall in Hext.
  pose proof (list_elem_of_lookup_2 _ _ _ Hl) as Hin. destruct (Hext l Hin) as (E1 & E2 & E3 & E4 & E5).
  destruct Hok as (? & ? & ? & Ht & ? & ? & He & Hap). pose proof He as He'. rewrite Forall_forall in He'.
  specialize (He' l Hin). unfold extent_ok in He'. destruct (slot_data_arena g slot) as [a b]. cbn in *.
  split; [done|]. unfold off. split_and!; lia.
Qed.

Lemma patched_ok : img_ok g patched.
Proof. destruct Himg. split; [by rewrite <- H; apply length_blit|by apply blit_bytes]. Qed.

Lemma patched_outside : same_outside g (start_lba l) (start_lba l + ol_block_count l) img patched.
Proof.
  destruct patched_extent as (_ & H2 & H0 & _ & _ & He & Hd). intros x y Hxy.
  pose proof (off_end g Hg img _ Himg He) as Hend. rewrite off_add in Hxy, Hend by (done || lia).
  apply slice_blit_ne; unfold CHECKSUM_START in *; lia.
Qed.

Lemma patched_superblock j : j = 0 ∨ j = 1 → slot_image g patched j = slot_image g img j.
Proof.
  intros Hj. unfold slot_image. f_equal. destruct patched_extent as (_ & H2 & _).
  apply (same_blocks g Hg _ _ _ _ _ _ patched_outside). lia.
Qed.

(** The object itself: same checksum, patched data. *)
Lemma patched_data :
  data_image g patched l = result_map (blit CHECKSUM_START four) (data_image g img l).
Proof.
  destruct patched_extent as (_ & H2 & H0 & _ & _ & He & Hd).
  pose proof (off_end g Hg img _ Himg He) as Hend. rewrite off_add in Hend by (done || lia).
  unfold data_image. rewrite !(decide_False (P := ol_block_count l = 0)) by lia. cbv zeta.
  assert (blocks_of g (start_lba l) (start_lba l + ol_block_count l) patched =
    blit CHECKSUM_START four (blocks_of g (start_lba l) (start_lba l + ol_block_count l) img)) as ->.
  { unfold blocks_of, patched. rewrite off_add by (done || lia).
    rewrite slice_blit_inside by (unfold CHECKSUM_START; lia). f_equal. lia. }
  assert (length (blocks_of g (start_lba l) (start_lba l + ol_block_count l) img) =
    off g (ol_block_count l)) as Hbl.
  { unfold blocks_of. rewrite off_add by (done || lia). rewrite length_slice; lia. }
  rewrite take_blit by (rewrite ?Hbl; unfold CHECKSUM_START; lia).
  rewrite checksum_blit by (done || rewrite length_take, Hbl; unfold CHECKSUM_END; lia).
  by case_decide.
Qed.

Lemma patched_data_len data : data_image g img l = Ok data → Z.of_nat (length data) = data_len l.
Proof.
  destruct patched_extent as (_ & H2 & H0 & _ & _ & He & Hd).
  pose proof (off_end g Hg img _ Himg He) as Hend. rewrite off_add in Hend by (done || lia).
  unfold data_image. rewrite (decide_False (P := ol_block_count l = 0)) by lia. cbv zeta.
  case_decide; [done|]. intros [= <-]. unfold blocks_of.
  rewrite length_take, off_add, length_slice by (done || lia). lia.
Qed.

(** Another object of the same superblock: same data. *)
Definition elsewhere (o : ObjectLayout) : Prop :=
  ol_block_count o = 0 ∨
  disjoint (start_lba l, start_lba l + ol_block_count l) (start_lba o, start_lba o + ol_block_count o).

Lemma patched_other o : elsewhere o → data_image g patched o = data_image g img o.
Proof.
  intros [Ho|Ho]; unfold data_image; [by rewrite !decide_True|].
  rewrite (same_blocks g Hg _ _ _ _ _ _ patched_outside); [done|]. unfold disjoint in Ho. cbn in Ho. lia.
Qed.

Lemma extents_app a b : extents (a ++ b) = extents a ++ extents b.
Proof. unfold extents. by rewrite List.filter_app, fmap_app. Qed.

Lemma extents_elem o ls :
  o ∈ ls → ol_block_count o = 0 ∨ (start_lba o, start_lba o + ol_block_count o) ∈ extents ls.
Proof.
  intros Ho. destruct (decide (ol_block_count o = 0)); [by left|]. right. unfold extents.
  apply list_elem_of_fmap. exists o. split; [done|]. apply list_elem_of_In, filter_In.
  split; [by apply list_elem_of_In|]. by rewrite bool_decide_eq_false_2.
Qed.

Lemma others_elsewhere pre post :
  sb_objects sb = pre ++ l :: post → Forall elsewhere pre ∧ Forall elsewhere post.
Proof.
  intros E. destruct patched_extent as ((_ & _ & _ & _ & _ & _ & _ & Hap) & _ & H0 & _).
  rewrite E, extents_app in Hap.
  assert (extents (l :: post) = (start_lba l, start_lba l + ol_block_count l) :: extents post) as El.
  { unfold extents. cbn [List.filter]. by rewrite bool_decide_eq_false_2 by lia. }
  rewrite El in Hap. apply (apart_perm _ ((start_lba l, start_lba l + ol_block_count l) ::
    extents pre ++ extents post)) in Hap; [|by rewrite Permutation_middle].
  inversion Hap as [|? ? Hd _]; subst. apply Forall_app in Hd as [Hd1 Hd2].
  rewrite Forall_forall in Hd1, Hd2. split; apply Forall_forall; intros o Ho;
    destruct (extents_elem _ _ Ho) as [?|Hx]; [by left|right; auto|by left|right; auto].
Qed.

Lemma load_elsewhere ls : Forall elsewhere ls → load_image g patched ls = load_image g img ls.
Proof.
  induction 1 as [|o ls Ho _ IH]; [done|]. cbn [load_image]. by rewrite patched_other, IH.
Qed.

Lemma load_patched_at pre post :
  Forall elsewhere pre → Forall elsewhere post →
  load_image g patched (pre ++ l :: post) =
  result_map (alter (patch four) (length pre)) (load_image g img (pre ++ l :: post)).
Proof.
  intros Hpre Hpost. induction Hpre as [|o pre Ho _ IH].
  - cbn [app load_image length]. rewrite patched_data, load_elsewhere by done.
    destruct (data_image g img l); [|done]. by destruct (load_image g img post).
  - cbn [app load_image length]. rewrite patched_other by done. destruct (data_image g img o); [|done].
    cbn. rewrite IH. by destruct (load_image g img _).
Qed.

(** What loads under the superblock of the patched object. *)
Lemma load_patched :
  load_image g patched (sb_objects sb) =
  result_map (alter (patch four) k) (load_image g img (sb_objects sb)).
Proof.
  destruct (list_elem_of_split_length _ _ _ Hl) as (pre & post & E & Hk).
  destruct (others_elsewhere pre post E) as [H1 H2]. rewrite E, Hk. by apply load_patched_at.
Qed.

(** What loads under the other superblock. *)
Lemma load_unpatched sb' :
  slot_image g img (other slot) = Ok sb' →
  load_image g patched (sb_objects sb') = load_image g img (sb_objects sb').
Proof.
  intros E. pose proof (other_slot slot Hslot) as Ho.
  apply (slot_image_Ok g Hg) in E as [Hok _]; [|done..].
  apply (load_image_ext g Hg _ _ (start_lba l) (start_lba l + ol_block_count l)); [apply patched_outside|].
  pose proof (active_apart g Hg (other slot) sb' Ho Hok) as Hap. rewrite other_other in Hap by done.
  destruct patched_extent as (_ & _ & _ & Ha & Hb & _). eapply Forall_impl; [exact Hap|].
  cbv beta. lia.
Qed.
End patched.

(** * Mounting the patched disk *)

Definition on_disk (g : BlockGeometry) (ls : list ObjectLayout) : Prop :=
  Forall (λ l, 0 ≤ start_lba l ∧ 0 ≤ ol_block_count l ∧
    start_lba l + ol_block_count l ≤ block_count g) ls.

(** Two disks whose candidates load in step: what the first selects, the other does. *)
Lemma candidates_step g (f : Z → list StoredObject → list StoredObject) img img' d d' :
  (∀ ls, on_disk g ls → load_objects g ls d = (d, load_image g img ls) ∧
     load_objects g ls d' = (d', load_image g img' ls)) →
  ∀ cs e d1 slot sb os,
  Forall (λ c, on_disk g (sb_objects (snd c)) ∧ load_image g img' (sb_objects (snd c)) =
       result_map (f (fst c)) (load_image g img (sb_objects (snd c)))) cs →
  try_candidates g cs e d = (d1, Ok (slot, sb, os)) →
  (slot, sb) ∈ cs ∧ load_image g img (sb_objects sb) = Ok os ∧
  try_candidates g cs e d' = (d', Ok (slot, sb, f slot os)).
Proof.
  intros Hload cs. induction cs as [|[j sbj] cs IH]; intros e d1 slot sb os Hcs; cbn [try_candidates]; [done|].
  apply Forall_cons_1 in Hcs as [[Hfit Hj] Hcs]. cbn [fst snd] in Hfit, Hj.
  destruct (Hload _ Hfit) as [-> ->]. rewrite Hj.
  destruct (load_image g img (sb_objects sbj)) as [os1|x] eqn:E; cbn.
  - intros [= _ <- <- <-]. split_and!; [by left|done..].
  - apply load_image_err in E as ->. intros H. apply (IH _ _ _ _ _ Hcs) in H as (H1 & H2 & H3).
    split_and!; [by right|done..].
Qed.

(** The slots that decode, in the order the store tries them. *)
Definition candidates_of (g : BlockGeometry) (img : list Z) : list (Z * Superblock) * SlotErrors :=
  note_slot 1 (map_err LoadDecode (slot_image g img 1))
    (note_slot 0 (map_err LoadDecode (slot_image g img 0)) ([], MkErrors None None None)).

Lemma candidates_decode g img j sbj :
  (j, sbj) ∈ (candidates_of g img).1 → (j = 0 ∨ j = 1) ∧ slot_image g img j = Ok sbj.
Proof.
  unfold candidates_of. destruct (slot_image g img 0) as [sb0|[x|x]] eqn:E0,
    (slot_image g img 1) as [sb1|[y|y]] eqn:E1; cbn; intros H.
  all: repeat (apply elem_of_cons in H as [[= -> ->]|H]; [by auto|]); by apply elem_of_nil in H.
Qed.

Lemma select_image g d :
  geometry_ok g → dev_ok g d → powered d →
  select_committed_state g d = let '(cs, e) := candidates_of g (live_bytes (inner d)) in
    try_candidates g (merge_sort newer_first cs) e d.
Proof.
  intros Hg Hd Hp. unfold select_committed_state, candidates_of.
  by rewrite (read_superblock_image g Hg 0 d), (read_superblock_image g Hg 1 d) by auto.
Qed.

Lemma load_lookup g img ls os k l :
  load_image g img ls = Ok os → ls !! k = Some l →
  ∃ o, os !! k = Some o ∧ so_id o = ol_id l ∧ so_name o = ol_name l ∧ data_image g img l = Ok (so_data o).
Proof.
  revert os k. induction ls as [|l0 ls IH]; intros os k; cbn [load_image]; [done|].
  destruct (data_image g img l0) as [data|] eqn:Ed; [|done]. destruct (load_image g img ls) as [os1|]; [|done].
  intros [= <-]. destruct k as [|k]; cbn; [|by apply IH]. intros [= <-]. by eexists.
Qed.

(** Disks with the same superblocks whose objects load in step mount in step. *)
Lemma select_step g (f : Z → list StoredObject → list StoredObject) d d' d1 slot sb os :
  let img := live_bytes (inner d) in let img' := live_bytes (inner d') in
  geometry_ok g → dev_ok g d → powered d → dev_ok g d' → powered d' →
  (∀ j, j = 0 ∨ j = 1 → slot_image g img' j = slot_image g img j) →
  (∀ j sbj, j = 0 ∨ j = 1 → slot_image g img j = Ok sbj →
     load_image g img' (sb_objects sbj) = result_map (f j) (load_image g img (sb_objects sbj))) →
  select_committed_state g d = (d1, Ok (slot, sb, os)) →
  (slot = 0 ∨ slot = 1) ∧ slot_image g img slot = Ok sb ∧ load_image g img (sb_objects sb) = Ok os ∧
  select_committed_state g d' = (d', Ok (slot, sb, f slot os)).
Proof.
  intros img img' Hg Hd Hp Hd' Hp' Hslots Hload Hsel.
  rewrite select_image in Hsel |- * by done. fold img img' in Hsel |- *.
  replace (candidates_of g img') with (candidates_of g img) by (unfold candidates_of; by rewrite !Hslots by auto).
  pose proof (candidates_decode g img) as Hdec. destruct (candidates_of g img) as [cs e]. cbn in Hdec.
  pose proof (merge_sort_Permutation newer_first cs) as Hperm.
  assert (∀ ls, on_disk g ls → load_objects g ls d = (d, load_image g img ls) ∧
    load_objects g ls d' = (d', load_image g img' ls)) as Hlo
    by (intros ls Hls; split; by apply load_objects_image).
  apply (candidates_step g f img img' d d' Hlo) in Hsel as (Hin & Hok & Hsel').
  2: { rewrite Hperm. apply Forall_forall. intros [j sbj] Hin. destruct (Hdec _ _ Hin) as [Hj Esb]. cbn [fst snd].
    split; [|by apply Hload]. pose proof Esb as [Esb' _]%(slot_image_Ok g Hg); [|by destruct Hd|done].
    apply superblock_extents in Esb'; [|done..]. eapply Forall_impl; [exact Esb'|].
    cbv beta. lia. }
  rewrite Hperm in Hin. destruct (Hdec _ _ Hin). by split_and!.
Qed.

(** The disk with the durable image [img]. *)
Definition with_durable (img : list Z) (d : FaultInjectingBlockDevice) : FaultInjectingBlockDevice :=
  MkFaulty (MkFake (fk_geometry (inner d)) (live_bytes (inner d)) img (fk_flush_count (inner d))) (controller d).

(** What [recover] mounts. *)
Definition rebooted (g : BlockGeometry) (img : list Z) : FaultInjectingBlockDevice :=
  Faulty.new (MkFake g img img 0).

Lemma rebooted_ok g img : img_ok g img → dev_ok g (rebooted g img) ∧ powered (rebooted g img).
Proof. intros Hi. by split; [constructor|]. Qed.

Lemma recover_select g d :
  geometry_ok g → dev_ok g d →
  recover d = match select_committed_state g (rebooted g (durable_bytes (inner d))) with
              | (d1, Ok (slot, sb, os)) => Some (MkStore d1 g (sb_generation sb) slot os)
              | (_, Err _) => None
              end.
Proof.
  intros Hg Hd. unfold recover. rewrite (rebooted_image g Hg d Hd). fold (rebooted g (durable_bytes (inner d))).
  unfold mount. change (geometry (rebooted g _)) with g. rewrite (validate_geometry_ok g Hg).
  by destruct (select_committed_state g _) as [d1 [[[slot sb] os]|e]].
Qed.

(** C32: Four bytes of every object are not covered by its checksum. Take any disk a store
    recovers from, any object of the superblock it recovers with that is at least 12 bytes
    long, and overwrite the bytes 8..12 of its payload on the disk with anything (as a torn or
    corrupted write would). The store recovers again, with the same slot and generation, and
    presents the altered object as valid; nothing else differs. *)
Theorem payload_corruption_undetected g d s sb k l four :
  let img := durable_bytes (inner d) in
  geometry_ok g → dev_ok g d → recover d = Some s →
  slot_image g img (active_slot s) = Ok sb → sb_objects sb !! k = Some l → 12 ≤ data_len l →
  length four = 4%nat → Forall is_byte four →
  ∃ o s', objects s !! k = Some o ∧ so_id o = ol_id l ∧ so_name o = ol_name l ∧
    Z.of_nat (length (so_data o)) = data_len l ∧
    recover (with_durable (patched g img l four) d) = Some s' ∧
    st_generation s' = st_generation s ∧ active_slot s' = active_slot s ∧
    objects s' = <[k := MkObject (so_id o) (so_name o) (blit 8 four (so_data o))]> (objects s).
Proof.
  intros img Hg Hd Hrec Hsb Hk Hlen Hfour Hby. pose proof (dk_durable _ _ Hd) as Himg. fold img in Himg.
  rewrite (recover_select g d Hg Hd) in Hrec. fold img in Hrec.
  destruct (select_committed_state g (rebooted g img)) as [d1 [[[slot sel] os]|]] eqn:Hsel; [|done].
  injection Hrec as <-. cbn [active_slot objects st_generation] in *.
  destruct (rebooted_ok g img Himg) as [Hr Hrp].
  destruct (select_step g (λ _ os, os) (rebooted g img) (rebooted g img) d1 slot sel os) as (Hslot & Esel & Hload & _);
    auto. { intros j sbj _ _. by destruct (load_image _ _ _). }
  change (live_bytes (inner (rebooted g img))) with img in Esel, Hload.
  rewrite Hsb in Esel. injection Esel as <-.
  pose proof (patched_ok g img Himg l four Hby) as Hpok.
  destruct (rebooted_ok g _ Hpok) as [Hr' Hrp'].
  set (f := λ (j : Z) (os : list StoredObject), if decide (j = slot) then alter (patch four) k os else os).
  destruct (select_step g f (rebooted g img) (rebooted g (patched g img l four)) d1 slot sb os)
    as (_ & _ & _ & Hsel'); auto.
  { intros j Hj. by apply (patched_superblock g Hg slot Hslot img Himg sb Hsb k). }
  { intros j sbj Hj Esbj. unfold f. destruct (decide (j = slot)) as [->|Hne].
    - assert (sbj = sb) as -> by (cbn in Esbj; congruence).
      by apply (load_patched g Hg slot Hslot img Himg sb Hsb).
    - assert (j = other slot) as -> by (destruct Hj as [-> | ->], Hslot as [-> | ->]; done).
      cbn. rewrite (load_unpatched g Hg slot Hslot img Himg sb Hsb k) by done.
      by destruct (load_image g _ (sb_objects sbj)). }
  destruct (load_lookup g img _ _ _ _ Hload Hk) as (o & Ho & Hid & Hname & Hdata).
  exists o, (MkStore (rebooted g (patched g img l four)) g (sb_generation sb) slot (f slot os)).
  split_and!; [done..| | |done|done|].
  - by apply (patched_data_len g Hg slot Hslot img Himg sb Hsb k l Hk Hlen four Hfour).
  - rewrite (recover_select g) by (done || (destruct Hd; by constructor)). cbn [with_durable inner durable_bytes].
    by rewrite Hsel'.
  - cbn [objects]. unfold f. rewrite decide_True by done. by rewrite (alter_insert _ _ _ _ Ho).
Qed.

(** The disk after the second commit of [TornDisk], whose object is 16 bytes of 2. *)
Definition committed_disk : FaultInjectingBlockDevice :=
  st_device (tr_store (store_run (MkTracked TornDisk.formatted [] []) (take 4 TornDisk.ops))).

Lemma committed_disk_ok : dev_ok SmallDisk.geometry committed_disk.
Proof.
  pose proof (format_inv TornDisk.device TornDisk.formatted TornDisk.device_typed TornDisk.device_ok
    TornDisk.format_ok) as Hf.
  pose proof (store_run_inv _ (take 4 TornDisk.ops) (Forall_take _ _ _ TornDisk.ops_ok) (proj1 Hf)) as [_ Hd _ _ _ _ _ _].
  assert (st_geometry (tr_store (store_run (MkTracked TornDisk.formatted [] []) (take 4 TornDisk.ops))) =
    SmallDisk.geometry) as Hg by (clear; by vm_compute).
  rewrite Hg in Hd. exact Hd.
Qed.

Lemma payload_corruption_undetected_witness :
  ∃ s s', recover committed_disk = Some s ∧
    objects s = [MkObject 1 [97] (replicate 16 2)] ∧
    recover (with_durable (patched SmallDisk.geometry (durable_bytes (inner committed_disk))
      (MkLayout 1 [97] [] 16 2 1 24) [9; 9; 9; 9]) committed_disk) = Some s' ∧
    objects s' = [MkObject 1 [97] (replicate 8 2 ++ replicate 4 9 ++ replicate 4 2)].
Proof.
  destruct (recover committed_disk) as [s|] eqn:E; [|exfalso; revert E; clear; vm_compute; discriminate].
  assert (active_slot s = 0 ∧ objects s = [MkObject 1 [97] (replicate 16 2)]) as [Ha Ho].
  { revert E. clear. vm_compute. intros [= <-]. by split. }
  pose proof (payload_corruption_undetected SmallDisk.geometry committed_disk s
    (MkSuperblock 2 1 [MkLayout 1 [97] [] 16 2 1 24]) 0 (MkLayout 1 [97] [] 16 2 1 24) [9; 9; 9; 9]
    SmallDisk.geometry_is_ok committed_disk_ok E) as H.
  rewrite Ha in H. specialize (H ltac:(clear; vm_compute; reflexivity) eq_refl ltac:(clear; vm_compute; discriminate)
    eq_refl ltac:(clear; repeat constructor; vm_compute; first [reflexivity|discriminate])).
  destruct H as (o & s' & Hk & _ & _ & _ & Hrec & _ & _ & Hobj).
  exists s, s'. split; [reflexivity|]. split; [exact Ho|]. split; [exact Hrec|].
  rewrite Ho in Hk, Hobj. injection Hk as <-. exact Hobj.
Defined.
