(* ===== verification/LinuxMem.v ===== *)
(** The Linux personality's memory calls (kernel/src/process/linux_mem.rs): [brk], [mmap]
    and [munmap] of one process.

    The state of a call is the bookkeeping of the process, [LinuxMemState], and the [World]
    of its address space. The registry that finds both for the calling process is not
    modelled: the calls are given its entry. An error is an errno to return or, as in
    [AddressSpace], a stopped kernel. Loops that count addresses have fuel computed from
    their bounds; running out of it would show as [Halt]. *)

From Stdlib Require Import ZArith Lia String.
From stdpp Require Import base list gmap sets tactics decidable numbers sorting relations.
From S2P Require Import Prelude Bytes MemoryMap FrameAllocator FrameSpec FrameRefine AddressSpace.
From S2P Require Import Elf ImageLoader ImageSpec ImageMap ImagePlan.

Local Open Scope Z_scope.

Definition ENOMEM : Z := 12.
Definition EACCES : Z := 13.
Definition EINVAL : Z := 22.

Definition PROT_READ : Z := 1.
Definition PROT_WRITE : Z := 2.
Definition PROT_EXEC : Z := 4.
Definition PROT_NONE : Z := 0.
Definition MAP_PRIVATE : Z := 0x02.
Definition MAP_FIXED : Z := 0x10.
Definition MAP_ANONYMOUS : Z := 0x20.

Definition LINUX_BRK_MAX_BYTES : Z := 4 * 1024 * 1024.
Definition LINUX_MMAP_MAX_REGIONS : nat := 16.
Definition LINUX_MMAP_MAX_PAGES : Z := 512.
Definition LINUX_MMAP_WINDOW_TOP : Z := 0x600000.
Definition LINUX_MMAP_WINDOW_BASE : Z := 0x200000.

Record MmapRegion : Type := MkMmap { mr_start : Z; mr_end : Z; page_count : Z }.

Definition EMPTY_REGION : MmapRegion := MkMmap 0 0 0.

Definition is_live (r : MmapRegion) : bool := bool_decide (0 < page_count r).

(** The deadlines of pending sleeps and polls belong to other calls and are left out. *)
Record LinuxMemState : Type := MkLinuxMem {
  brk_base : Z;
  brk_end : Z;
  mmap_window_lo : Z;
  mmap_window_hi : Z;
  stack_top : Z;
  stack_base : Z;
  stack_pages : Z;
  mmap_regions : list MmapRegion;
  mmap_region_count : nat;
  mmap_pages : Z;
  fs_base : Z;
  tid_address : Z
}.

Module Linux.
Definition EMPTY : LinuxMemState :=
  MkLinuxMem 0 0 LINUX_MMAP_WINDOW_BASE LINUX_MMAP_WINDOW_TOP 0 0 0 (replicate LINUX_MMAP_MAX_REGIONS EMPTY_REGION) 0 0 0 0.

Definition brk_initial_from_load_plan (plan : LoadPlan) : Z :=
  Mm.align_up (foldl (λ high s, Z.max high (saturating_add64 (vaddr s) (memsz s))) 0 (Plan.iter_segments plan)) PAGE_SIZE.

(** The layout is given by the fields this code reads. *)
Definition init_for_image (window_base stack_reservation_start top base pages brk_initial : Z) (m : LinuxMemState) : LinuxMemState :=
  MkLinuxMem brk_initial brk_initial window_base stack_reservation_start top base pages
    (mmap_regions m) (mmap_region_count m) (mmap_pages m) (fs_base m) (tid_address m).

Definition set_brk_end (e : Z) (m : LinuxMemState) : LinuxMemState :=
  MkLinuxMem (brk_base m) e (mmap_window_lo m) (mmap_window_hi m) (stack_top m) (stack_base m) (stack_pages m)
    (mmap_regions m) (mmap_region_count m) (mmap_pages m) (fs_base m) (tid_address m).

Definition set_regions (rs : list MmapRegion) (n : nat) (pages : Z) (m : LinuxMemState) : LinuxMemState :=
  MkLinuxMem (brk_base m) (brk_end m) (mmap_window_lo m) (mmap_window_hi m) (stack_top m) (stack_base m) (stack_pages m)
    rs n pages (fs_base m) (tid_address m).

Definition overlaps_any (m : LinuxMemState) (start stop_ : Z) : bool :=
  existsb (λ r, bool_decide (start < mr_end r) && bool_decide (mr_start r < stop_)) (List.filter is_live (mmap_regions m)).

(** The search downwards from the top of the window, in strides of the size asked for. *)
Fixpoint search (fuel : nat) (m : LinuxMemState) (bytes candidate : Z) : result (stop Z) Z :=
  match fuel with
  | O => Err (Halt "out of fuel"%string)
  | S fuel =>
      if decide (saturating_add64 (mmap_window_lo m) bytes ≤ candidate) then
        match checked_sub candidate bytes with
        | None => Err (Raise ENOMEM)
        | Some c =>
            let c := Mm.align_down c PAGE_SIZE in
            let stop_ := saturating_add64 c bytes in
            if decide (mmap_window_hi m < stop_) then search fuel m bytes c
            else if negb (overlaps_any m c stop_) && bool_decide (brk_end m ≤ c) then Ok c
            else if decide (c ≤ mmap_window_lo m) then Err (Raise ENOMEM)
            else search fuel m bytes c
        end
      else Err (Raise ENOMEM)
  end.

Definition alloc_mmap_addr (m : LinuxMemState) (pages : Z) : result (stop Z) Z :=
  match checked_mul 64 pages PAGE_SIZE with
  | None => Err (Raise ENOMEM)
  | Some bytes =>
      let lo := mmap_window_lo m in
      let hi := mmap_window_hi m in
      if decide (hi ≤ lo ∨ saturating_sub hi lo < bytes) then Err (Raise ENOMEM)
      else search (S (Z.to_nat (hi / PAGE_SIZE))) m bytes hi
  end.

(** The region is written before the page count is added up. *)
Definition record_region (start stop_ pages : Z) (m : LinuxMemState) : LinuxMemState * result (stop Z) unit :=
  if decide (LINUX_MMAP_MAX_REGIONS ≤ mmap_region_count m)%nat then (m, Err (Raise ENOMEM))
  else
    let rs := <[mmap_region_count m := MkMmap start stop_ pages]> (mmap_regions m) in
    let n := S (mmap_region_count m) in
    match checked_add 64 (mmap_pages m) pages with
    | None => (set_regions rs n (mmap_pages m) m, Err (Raise ENOMEM))
    | Some total => (set_regions rs n total m, Ok ())
    end.

Section calls.
Context `{NodeLayout} {T : Type} `{PageTables T} (dbg : bool).
Context (max_tables max_mappings : nat) (exclusion : list VaRange).

Implicit Types w : World T.

(** [VirtAddr::new] panics on an address that is not canonical. *)
Definition unmap_one_page (va : Z) w : World T * result (stop Z) unit :=
  if negb (is_canonical va) then (w, Err (Halt VIRT_ADDR_PANIC))
  else
    match Space.translate_address_in_root va w with
    | Err _ => (w, Ok ())
    | Ok _ =>
        match Space.unmap_process_page_at dbg va w with
        | (w, Ok _) => (w, Ok ())
        | (w, Err _) => (w, Err (Raise ENOMEM))
        end
    end.

Fixpoint unmap_up (fuel : nat) (va stop_ : Z) w : World T * result (stop Z) unit :=
  match fuel with
  | O => (w, Err (Halt "out of fuel"%string))
  | S fuel =>
      if decide (va < stop_) then
        let?+ w, _ := unmap_one_page va w in
        match checked_add 64 va PAGE_SIZE with
        | None => (w, Err (Raise EINVAL))
        | Some va => unmap_up fuel va stop_ w
        end
      else (w, Ok ())
  end.

Definition unmap_range (start stop_ : Z) w : World T * result (stop Z) unit :=
  let va := Mm.align_down start PAGE_SIZE in
  unmap_up (S (Z.to_nat ((stop_ - va + (PAGE_SIZE - 1)) / PAGE_SIZE))) va stop_ w.

Fixpoint unmap_down (fuel : nat) (cursor base : Z) w : World T * result (stop Z) unit :=
  match fuel with
  | O => (w, Err (Halt "out of fuel"%string))
  | S fuel =>
      if decide (base < cursor) then
        match checked_sub cursor PAGE_SIZE with
        | None => (w, Err (Raise EINVAL))
        | Some cursor => let?+ w, _ := unmap_one_page cursor w in unmap_down fuel cursor base w
        end
      else (w, Ok ())
  end.

Definition shrink_brk_to (base stop_ : Z) w : World T * result (stop Z) unit :=
  let cursor := Mm.align_up stop_ PAGE_SIZE in
  let base := Mm.align_up base PAGE_SIZE in
  unmap_down (S (Z.to_nat ((cursor - base + (PAGE_SIZE - 1)) / PAGE_SIZE))) cursor base w.

Definition unmap_all (m : LinuxMemState) w : World T * result (stop Z) unit :=
  let?+ w, _ := shrink_brk_to (brk_base m) (brk_end m) w in
  try_each (λ r w, unmap_range (mr_start r) (mr_end r) w) (List.filter is_live (mmap_regions m)) w.

(** The slot is taken out of the registry, so the process has no bookkeeping any more; an
    error of the unmapping is ignored. *)
Definition reset_for_exec (m : LinuxMemState) w : World T * result (stop Z) unit :=
  match unmap_all m w with
  | (w, Err (Halt h)) => (w, Err (Halt h))
  | (w, _) => (w, Ok ())
  end.

(** The frame is not given back when the mapping fails. *)
Definition map_zero_page (va : Z) (writable executable : bool) w : World T * result (stop Z) unit :=
  match Space.allocate_page dbg w with
  | (w, Err e) => (w, Err e)
  | (w, Ok None) => (w, Err (Raise ENOMEM))
  | (w, Ok (Some frame)) =>
      let w := Image.zero_page frame w in
      map_raise (λ _, ENOMEM)
        (Space.map_process_page dbg max_tables max_mappings exclusion va frame
           (MkFlags true writable true (negb executable)) w)
  end.

Fixpoint grow (fuel : nat) (va target : Z) w : World T * result (stop Z) unit :=
  match fuel with
  | O => (w, Err (Halt "out of fuel"%string))
  | S fuel =>
      if decide (va < target) then
        let?+ w, _ := map_zero_page va true false w in
        match checked_add 64 va PAGE_SIZE with
        | None => (w, Err (Raise EINVAL))
        | Some va => grow fuel va target w
        end
      else (w, Ok ())
  end.

Definition sys_brk (addr : Z) (st : LinuxMemState * World T) : (LinuxMemState * World T) * result (stop Z) Z :=
  let '(m, w) := st in
  let old_end := brk_end m in
  if decide (addr = 0) then (st, Ok old_end)
  else if decide (addr < brk_base m) then (st, Ok old_end)
  else
    match checked_sub addr (brk_base m) with
    | None => (st, Err (Raise EINVAL))
    | Some new_bytes =>
        if decide (LINUX_BRK_MAX_BYTES < new_bytes) then (st, Err (Raise ENOMEM))
        else if decide (addr = old_end) then (st, Ok old_end)
        else if decide (addr < old_end) then
          match shrink_brk_to (brk_base m) addr w with
          | (w, Err e) => ((m, w), Err e)
          | (w, Ok _) => ((set_brk_end addr m, w), Ok old_end)
          end
        else
          let va := Mm.align_up old_end PAGE_SIZE in
          let target := Mm.align_up addr PAGE_SIZE in
          match grow (S (Z.to_nat ((target - va + (PAGE_SIZE - 1)) / PAGE_SIZE))) va target w with
          | (w, Err e) => ((m, w), Err e)
          | (w, Ok _) => ((set_brk_end addr m, w), Ok addr)
          end
    end.

(** The loop over the pages of a new mapping. *)
Fixpoint map_pages (n : nat) (prot va : Z) w : World T * result (stop Z) unit :=
  match n with
  | O => (w, Ok ())
  | S n =>
      let readable := bool_decide (Z.land prot PROT_READ ≠ 0) in
      let writable := bool_decide (Z.land prot PROT_WRITE ≠ 0) in
      let executable := bool_decide (Z.land prot PROT_EXEC ≠ 0) in
      if negb readable && negb writable && negb executable && negb (bool_decide (prot = PROT_NONE))
      then (w, Err (Raise EINVAL))
      else
        let?+ w, _ := (if decide (prot = PROT_NONE) then map_zero_page va false false w
                       else map_zero_page va writable executable w) in
        match checked_add 64 va PAGE_SIZE with
        | None => (w, Err (Raise EINVAL))
        | Some va => map_pages n prot va w
        end
  end.

Definition choose_addr (addr flags pages : Z) (m : LinuxMemState) : result (stop Z) Z :=
  if decide (Z.land flags MAP_FIXED ≠ 0)
  then if decide (addr mod PAGE_SIZE ≠ 0) then Err (Raise EINVAL) else Ok addr
  else alloc_mmap_addr m pages.

Definition sys_mmap (addr len prot flags fd offset : Z) (st : LinuxMemState * World T) :
    (LinuxMemState * World T) * result (stop Z) Z :=
  let '(m, w) := st in
  if decide (fd ≠ -1 ∨ offset ≠ 0) then (st, Err (Raise EINVAL))
  else if decide (Z.land flags MAP_PRIVATE = 0 ∨ Z.land flags MAP_ANONYMOUS = 0) then (st, Err (Raise EINVAL))
  else if decide (Z.land prot PROT_EXEC ≠ 0 ∧ Z.land prot PROT_WRITE ≠ 0) then (st, Err (Raise EACCES))
  else if decide (len = 0) then (st, Err (Raise EINVAL))
  else
    match checked_add 64 len (PAGE_SIZE - 1) with
    | None => (st, Err (Raise EINVAL))
    | Some rounded =>
        let pages := rounded / PAGE_SIZE in
        if decide (LINUX_MMAP_MAX_PAGES < pages) then (st, Err (Raise ENOMEM))
        else
          match checked_add 64 (mmap_pages m) pages with
          | None => (st, Err (Raise ENOMEM))
          | Some total =>
              if decide (LINUX_MMAP_MAX_PAGES < total) then (st, Err (Raise ENOMEM))
              else
                match choose_addr addr flags pages m with
                | Err e => (st, Err e)
                | Ok map_addr =>
                    match checked_mul 64 pages PAGE_SIZE with
                    | None => (st, Err (Raise EINVAL))
                    | Some bytes =>
                        match checked_add 64 map_addr bytes with
                        | None => (st, Err (Raise EINVAL))
                        | Some map_end =>
                            if decide (map_addr < mmap_window_lo m ∨ mmap_window_hi m < map_end)
                            then (st, Err (Raise ENOMEM))
                            else
                              match map_pages (Z.to_nat pages) prot map_addr w with
                              | (w, Err e) => ((m, w), Err e)
                              | (w, Ok _) =>
                                  match record_region map_addr map_end pages m with
                                  | (m, Err e) => ((m, w), Err e)
                                  | (m, Ok _) => ((m, w), Ok map_addr)
                                  end
                              end
                        end
                    end
                end
          end
    end.

(** The live regions inside the range are dropped. *)
Fixpoint drop_covered (addr stop_ : Z) (rs : list MmapRegion) (pages : Z) : list MmapRegion * Z :=
  match rs with
  | [] => ([], pages)
  | r :: rs =>
      if is_live r && bool_decide (addr ≤ mr_start r) && bool_decide (mr_end r ≤ stop_) then
        let '(rs, pages) := drop_covered addr stop_ rs (saturating_sub pages (page_count r)) in (EMPTY_REGION :: rs, pages)
      else
        let '(rs, pages) := drop_covered addr stop_ rs pages in (r :: rs, pages)
  end.

Definition sys_munmap (addr len : Z) (st : LinuxMemState * World T) : (LinuxMemState * World T) * result (stop Z) Z :=
  let '(m, w) := st in
  if decide (addr mod PAGE_SIZE ≠ 0 ∨ len = 0) then (st, Err (Raise EINVAL))
  else
    match checked_add 64 addr len with
    | None => (st, Err (Raise EINVAL))
    | Some stop_ =>
        match unmap_range addr stop_ w with
        | (w, Err e) => ((m, w), Err e)
        | (w, Ok _) =>
            let '(rs, pages) := drop_covered addr stop_ (mmap_regions m) (mmap_pages m) in
            ((set_regions rs (mmap_region_count m) pages m, w), Ok 0)
        end
    end.
End calls.
End Linux.

(** * Fuel *)

(** The loops stop by themselves: beyond the number of pages between their bounds, fuel makes
    no difference. *)
Section fuel.
Context `{NodeLayout} {T : Type} `{PageTables T} (dbg : bool).
Context (max_tables max_mappings : nat) (exclusion : list VaRange).

Implicit Types w : World T.

Definition enough (fuel : nat) (from to : Z) : Prop := (0 < fuel)%nat ∧ (to - from + (PAGE_SIZE - 1)) / PAGE_SIZE < Z.of_nat fuel.

Lemma enough_given from to : enough (S (Z.to_nat ((to - from + (PAGE_SIZE - 1)) / PAGE_SIZE))) from to.
Proof. split; [lia|]. lia. Qed.

Lemma enough_next fuel from to : enough (S fuel) from to → from < to → enough fuel (from + PAGE_SIZE) to.
Proof.
  unfold enough, PAGE_SIZE. intros [_ Hf] Hlt. replace (to - from + (4096 - 1)) with (to - (from + 4096) + 4095 + 1 * 4096) in Hf by lia.
  rewrite Z.div_add in Hf by lia. pose proof (Z.div_le_mono 0 (to - (from + 4096) + 4095) 4096 ltac:(lia) ltac:(lia)) as Hp.
  change (4096 - 1) with 4095. rewrite Z.div_0_l in Hp by lia. lia.
Qed.

Lemma unmap_up_fuel f1 f2 va stop_ w : enough f1 va stop_ → enough f2 va stop_ → Linux.unmap_up dbg f1 va stop_ w = Linux.unmap_up dbg f2 va stop_ w.
Proof.
  revert f2 va w. induction f1 as [|f1 IH]; intros [|f2] va w H1 H2; [done|by destruct H1; lia|by destruct H2; lia|]. cbn [Linux.unmap_up].
  case_decide; [|done]. destruct (Linux.unmap_one_page dbg va w) as [w1 [[]|e]]; [|done].
  destruct (checked_add 64 va PAGE_SIZE) as [va'|] eqn:E; [|done]. apply checked_add_Some in E as [-> _].
  apply IH; by apply enough_next.
Qed.

Lemma unmap_down_fuel f1 f2 cursor base w :
  enough f1 base cursor → enough f2 base cursor → Linux.unmap_down dbg f1 cursor base w = Linux.unmap_down dbg f2 cursor base w.
Proof.
  revert f2 cursor w. induction f1 as [|f1 IH]; intros [|f2] cursor w H1 H2; [done|by destruct H1; lia|by destruct H2; lia|]. cbn [Linux.unmap_down].
  case_decide as Hlt; [|done]. destruct (checked_sub cursor PAGE_SIZE) as [c'|] eqn:E; [|done]. apply checked_sub_Some in E as [-> _].
  destruct (Linux.unmap_one_page dbg _ w) as [w1 [[]|e]]; [|done].
  apply IH; unfold enough in *; replace (cursor - PAGE_SIZE - base) with (cursor - (base + PAGE_SIZE)) by lia; by apply enough_next.
Qed.

Lemma grow_fuel f1 f2 va target w :
  enough f1 va target → enough f2 va target →
  Linux.grow dbg max_tables max_mappings exclusion f1 va target w = Linux.grow dbg max_tables max_mappings exclusion f2 va target w.
Proof.
  revert f2 va w. induction f1 as [|f1 IH]; intros [|f2] va w H1 H2; [done|by destruct H1; lia|by destruct H2; lia|]. cbn [Linux.grow].
  case_decide; [|done]. destruct (Linux.map_zero_page _ _ _ _ va true false w) as [w1 [[]|e]]; [|done].
  destruct (checked_add 64 va PAGE_SIZE) as [va'|] eqn:E; [|done]. apply checked_add_Some in E as [-> _].
  apply IH; by apply enough_next.
Qed.
End fuel.

(** * Flaws of the calls *)

Section flaws.
Context `{NodeLayout} {T : Type} `{PageTables T} (dbg : bool).
Context (max_tables max_mappings : nat) (exclusion : list VaRange) (l : list MemoryRegion).

Implicit Types (w : World T) (σ : Heap).

(** C38: [munmap] lets a process stop the kernel. Unmapping any page-aligned range that starts at
    a non-canonical address (bits 47 to 63 not all equal) reaches [VirtAddr::new] with that
    address, which panics, in every state of the process. *)
Theorem munmap_stops_kernel m w addr len :
  addr mod PAGE_SIZE = 0 → 2 ^ 47 ≤ addr < 2 ^ 64 - 2 ^ 47 → 0 < len → addr + len < 2 ^ 64 →
  Linux.sys_munmap dbg addr len (m, w) = ((m, w), Err (Halt VIRT_ADDR_PANIC)).
Proof.
  intros Hal Hr Hlen Hend. unfold Linux.sys_munmap. rewrite decide_False by lia.
  rewrite (proj2 (checked_add_Some 64 addr len _)) by (split; [done|lia]).
  unfold Linux.unmap_range. rewrite align_down_aligned by done. cbn [Linux.unmap_up]. rewrite decide_True by lia.
  unfold Linux.unmap_one_page, is_canonical, USER_CANONICAL_TOP_EXCLUSIVE. change (Z.shiftl 1 47) with (2 ^ 47).
  rewrite !bool_decide_eq_false_2 by lia. done.
Qed.

(** ** Shrinking the heap *)

Definition tracked w (q : Z) : Prop := q ∈ virtual_address <$> user_mappings (w_space w).

(** Unmapping a tracked page. *)
Lemma unmap_one_tracked q σ w :
  world_ok dbg l σ w → aligned q → 0 ≤ q < 2 ^ 47 → tracked w q →
  ∃ w' σ' f fl, Linux.unmap_one_page dbg q w = (w', Ok ()) ∧ world_ok dbg l σ' w'
    ∧ pt_lookup (w_pt w) q = Some (f, fl) ∧ removes [f] σ σ'
    ∧ (∀ q', q' ≠ q → tracked w q' → tracked w' q')
    ∧ ∀ q', pt_lookup (w_pt w') q' = if decide (q' = q) then None else pt_lookup (w_pt w) q'.
Proof.
  intros Hok Hal Hr Ht. unfold Linux.unmap_one_page, is_canonical, USER_CANONICAL_TOP_EXCLUSIVE.
  change (Z.shiftl 1 47) with (2 ^ 47). rewrite bool_decide_eq_true_2 by lia. cbn [orb negb].
  pose proof Ht as (m & Em & Hm)%list_elem_of_fmap. destruct (so_mapped _ _ _ (proj2 Hok) m Hm) as [fl Hfl].
  unfold Space.translate_address_in_root. rewrite align_down_aligned, Em, Hfl by done.
  pose proof (unmap_at_spec dbg l q σ w Hok) as Hu. cbv zeta in Hu. rewrite align_down_aligned in Hu by done.
  destruct (find_first _ _) as [m'|] eqn:Ef.
  - destruct Hu as (w' & σ' & E & Hok' & Ev & Hrem & Hp & _ & Hl). rewrite <- Em, E.
    assert (m' ∈ user_mappings (w_space w)) as Hm' by (rewrite Hp; by left).
    destruct (so_mapped _ _ _ (proj2 Hok) m' Hm') as [fl' Hfl']. rewrite Ev in Hfl'.
    exists w', σ', (frame_address m'), fl'. split_and!; [done|done|congruence|done| |exact Hl].
    intros q' Hq' Ht'. unfold tracked in *. rewrite Hp in Ht'. cbn in Ht'. apply elem_of_cons in Ht' as [->|]; [congruence|done].
  - exfalso. rewrite find_first_None in Ef. specialize (Ef m Hm). apply bool_decide_eq_false in Ef. congruence.
Qed.

(** The frame [f] backs a page between [base] and [stop_]. *)
Definition backs w (base stop_ f : Z) : Prop :=
  ∃ q fl, aligned q ∧ base ≤ q < stop_ ∧ pt_lookup (w_pt w) q = Some (f, fl).

Lemma unmap_down_spec k fuel base σ w :
  (k < fuel)%nat → world_ok dbg l σ w → aligned base → 0 ≤ base → base + Z.of_nat k * 4096 ≤ 2 ^ 47 →
  (∀ q, aligned q → base ≤ q < base + Z.of_nat k * 4096 → tracked w q) →
  ∃ w' σ', Linux.unmap_down dbg fuel (base + Z.of_nat k * 4096) base w = (w', Ok ()) ∧ world_ok dbg l σ' w'
    ∧ (∃ fs, removes fs σ σ' ∧ ∀ f, f ∈ fs ↔ backs w base (base + Z.of_nat k * 4096) f)
    ∧ ∀ q, aligned q → pt_lookup (w_pt w') q = if decide (base ≤ q < base + Z.of_nat k * 4096) then None else pt_lookup (w_pt w) q.
Proof.
  revert fuel σ w. induction k as [|k IH]; intros [|fuel] σ w Hf Hok Hal Hb Hmax Ht; [lia| |lia|]; cbn [Linux.unmap_down].
  - rewrite decide_False by lia. exists w, σ. split_and!; [done|done| |].
    + exists []. split; [apply removes_nil|]. intros f. rewrite elem_of_nil. split; [done|]. intros (q & _ & _ & ? & _). lia.
    + intros q _. by rewrite decide_False by lia.
  - rewrite decide_True by lia. rewrite (proj2 (checked_sub_Some _ PAGE_SIZE (base + Z.of_nat k * 4096))) by (unfold PAGE_SIZE; lia).
    assert (aligned (base + Z.of_nat k * 4096)) as Hal'.
    { apply aligned_spec in Hal as [j ->]. apply aligned_spec. exists (j + Z.of_nat k). lia. }
    set (p := base + Z.of_nat k * 4096) in *.
    destruct (unmap_one_tracked p σ w Hok Hal' ltac:(lia)) as (w1 & σ1 & f1 & fl & -> & Hok1 & Hf1 & Hr1 & Ht1 & Hl1); [apply Ht; [done|lia]|].
    destruct (IH fuel σ1 w1) as (w2 & σ2 & -> & Hok2 & (fs & Hr2 & Hfs) & Hl2); [lia|done|done|done|lia| |].
    { intros q Hq Hr. apply Ht1; [lia|]. apply Ht; [done|lia]. }
    assert (∀ q, aligned q → base ≤ q < base + Z.of_nat (S k) * 4096 → q = p ∨ base ≤ q < p) as Hcase.
    { intros q Hq Hr. unfold p in *. apply aligned_spec in Hal' as [j Ej], Hq as [j'' ->]. lia. }
    exists w2, σ2. split_and!; [done|done| |].
    + exists ([f1] ++ fs). split; [by eapply removes_app|]. intros f. rewrite elem_of_app, list_elem_of_singleton, Hfs. split.
      * intros [->|(q & fl' & Hq & Hr & Hlk)]; [by exists p, fl; split_and!; [done|lia|lia|]|].
        rewrite Hl1 in Hlk. case_decide; [done|]. exists q, fl'. split_and!; [done|lia|lia|done].
      * intros (q & fl' & Hq & Hr & Hlk). destruct (Hcase q Hq Hr) as [->|Hr']; [left; congruence|right].
        exists q, fl'. split_and!; [done|lia|lia|]. by rewrite Hl1, decide_False by lia.
    + intros q Hq. rewrite Hl2, Hl1 by done. pose proof (Hcase q Hq). repeat case_decide; try done; lia.
Qed.

(** A tracked page is backed by a frame the process holds. *)
Lemma tracked_held σ w q :
  world_ok dbg l σ w → tracked w q → ∃ f fl, pt_lookup (w_pt w) q = Some (f, fl) ∧ is_Some (σ !! f).
Proof.
  intros [_ Hs] (mp & -> & Hm)%list_elem_of_fmap. destruct (so_mapped _ _ _ Hs mp Hm) as [fl Hfl].
  exists (frame_address mp), fl. split; [done|]. apply (so_held _ _ _ Hs), elem_of_app. right. by apply list_elem_of_fmap_2.
Qed.

(** C39: Shrinking the heap frees the wrong half. Let a process own its whole heap, page by page,
    and lower the break to [addr] inside it. The call succeeds and moves the break, but every
    page below [addr], the part the process keeps using, is unmapped and its frame, which the
    process held, is free again; while every page from [addr] to the old break stays mapped. No
    other frame is freed and no other translation changes. *)
Theorem brk_shrink_unmaps_kept_heap m w σ addr :
  world_ok dbg l σ w → aligned (brk_base m) → aligned addr → 0 ≤ brk_base m < addr → addr < brk_end m →
  brk_end m ≤ 2 ^ 47 → addr - brk_base m ≤ LINUX_BRK_MAX_BYTES →
  (∀ q, aligned q → brk_base m ≤ q < brk_end m → tracked w q) →
  ∃ w' σ', Linux.sys_brk dbg max_tables max_mappings exclusion addr (m, w) = ((Linux.set_brk_end addr m, w'), Ok (brk_end m))
    ∧ world_ok dbg l σ' w'
    ∧ (∀ q, aligned q → brk_base m ≤ q < addr → ∃ f fl, pt_lookup (w_pt w) q = Some (f, fl) ∧ is_Some (σ !! f)
         ∧ pt_lookup (w_pt w') q = None ∧ σ' !! f = None)
    ∧ (∀ q, aligned q → addr ≤ q < brk_end m → is_Some (pt_lookup (w_pt w') q))
    ∧ (∀ q, aligned q → ¬ (brk_base m ≤ q < addr) → pt_lookup (w_pt w') q = pt_lookup (w_pt w) q)
    ∧ (∀ f, ¬ backs w (brk_base m) addr f → σ' !! f = σ !! f).
Proof.
  intros Hok Hab Haa Hb He Hmax Hbytes Ht. unfold Linux.sys_brk. rewrite !decide_False by lia.
  rewrite (proj2 (checked_sub_Some addr (brk_base m) _)) by (split; [done|lia]). rewrite !decide_False by lia. rewrite decide_True by done.
  unfold Linux.shrink_brk_to. rewrite !align_up_aligned by done.
  pose proof Hab as [j Ej]%aligned_spec. pose proof Haa as [j' Ej']%aligned_spec.
  assert (addr = brk_base m + Z.of_nat (Z.to_nat (j' - j)) * 4096) as Ea by lia.
  destruct (unmap_down_spec (Z.to_nat (j' - j)) (S (Z.to_nat ((addr - brk_base m + (PAGE_SIZE - 1)) / PAGE_SIZE))) (brk_base m) σ w)
    as (w' & σ' & E & Hok' & (fs & Hr & Hfs) & Hl); [|done|done|lia|lia| |].
  - unfold PAGE_SIZE. replace (addr - brk_base m + (4096 - 1)) with (4095 + (j' - j) * 4096) by lia.
    rewrite Z.div_add by lia. change (4095 / 4096) with 0. lia.
  - intros q Hq Hq'. apply Ht; [done|lia].
  - rewrite <- Ea in E, Hl, Hfs. rewrite E. exists w', σ'. split_and!; [done|done|..].
    + intros q Hq Hq'. destruct (tracked_held σ w q Hok (Ht q Hq ltac:(lia))) as (f & fl & Hlk & Hf). exists f, fl.
      split_and!; [done|done|by rewrite Hl, decide_True|]. rewrite Hr, decide_True; [done|]. apply Hfs. by exists q, fl.
    + intros q Hq Hq'. rewrite Hl, decide_False by (done || lia).
      destruct (tracked_held σ w q Hok (Ht q Hq ltac:(lia))) as (f & fl & -> & _). by eexists.
    + intros q Hq Hq'. by rewrite Hl, decide_False.
    + intros f Hf. rewrite Hr, decide_False; [done|]. by rewrite Hfs.
Qed.

(** ** The region table *)

(** The memory calls of a process. *)
Inductive linux_call : LinuxMemState * World T → LinuxMemState * World T → Prop :=
  | call_brk addr st st' r : Linux.sys_brk dbg max_tables max_mappings exclusion addr st = (st', r) → linux_call st st'
  | call_mmap addr len prot flags fd offset st st' r :
      Linux.sys_mmap dbg max_tables max_mappings exclusion addr len prot flags fd offset st = (st', r) → linux_call st st'
  | call_munmap addr len st st' r : Linux.sys_munmap dbg addr len st = (st', r) → linux_call st st'.

(** A committed [execve] (linux_exec.rs): [reset_for_exec] gives the bookkeeping of the process
    back, [init_for_image] makes new one, and the address space of the new image, any at all,
    takes the place of the old one. *)
Inductive linux_exec : LinuxMemState * World T → LinuxMemState * World T → Prop :=
  | exec_commit window_base stack_reservation_start top base pages brk_initial m w w1 w' :
      Linux.reset_for_exec dbg m w = (w1, Ok ()) →
      linux_exec (m, w) (Linux.init_for_image window_base stack_reservation_start top base pages brk_initial Linux.EMPTY, w').

Lemma brk_count addr m w : mmap_region_count (Linux.sys_brk dbg max_tables max_mappings exclusion addr (m, w)).1.1 = mmap_region_count m.
Proof.
  unfold Linux.sys_brk. do 2 (case_decide; [done|]). destruct (checked_sub _ _); [|done]. do 2 (case_decide; [done|]).
  case_decide; [by destruct (Linux.shrink_brk_to _ _ _ _) as [? []]|by destruct (Linux.grow _ _ _ _ _ _ _ _) as [? []]].
Qed.

Lemma munmap_count addr len m w : mmap_region_count (Linux.sys_munmap dbg addr len (m, w)).1.1 = mmap_region_count m.
Proof.
  unfold Linux.sys_munmap. case_decide; [done|]. destruct (checked_add _ _ _); [|done].
  destruct (Linux.unmap_range _ _ _ _) as [? []]; [|done]. by destruct (Linux.drop_covered _ _ _ _).
Qed.

(** What a successful [mmap] went through. *)
Lemma mmap_inv addr len prot flags fd offset m w st' a :
  Linux.sys_mmap dbg max_tables max_mappings exclusion addr len prot flags fd offset (m, w) = (st', Ok a) →
  let pages := (len + 4095) / 4096 in
  ¬ (Z.land prot PROT_EXEC ≠ 0 ∧ Z.land prot PROT_WRITE ≠ 0) ∧ len ≠ 0 ∧ pages ≤ LINUX_MMAP_MAX_PAGES
  ∧ Linux.choose_addr addr flags pages m = Ok a
  ∧ mmap_window_lo m ≤ a ∧ a + pages * 4096 ≤ mmap_window_hi m
  ∧ ∃ w' m', Linux.map_pages dbg max_tables max_mappings exclusion (Z.to_nat pages) prot a w = (w', Ok ())
      ∧ Linux.record_region a (a + pages * 4096) pages m = (m', Ok ()) ∧ st' = (m', w').
Proof.
  unfold Linux.sys_mmap. do 2 (case_decide; [done|]). destruct (decide (Z.land prot PROT_EXEC ≠ 0 ∧ _)) as [|Hwx]; [done|]. case_decide; [done|].
  destruct (checked_add 64 len _) as [rounded|] eqn:Er; [|done]. apply checked_add_Some in Er as [-> _].
  change (len + (PAGE_SIZE - 1)) with (len + 4095). change PAGE_SIZE with 4096. case_decide; [done|].
  destruct (checked_add 64 (mmap_pages m) _) as [total|]; [|done]. case_decide; [done|].
  destruct (Linux.choose_addr _ _ _ _) as [a'|] eqn:Ec; [|done].
  destruct (checked_mul _ _ _) as [bytes|] eqn:Em; [|done]. apply checked_mul_Some in Em as [-> _].
  destruct (checked_add 64 a' _) as [e|] eqn:Ee; [|done]. apply checked_add_Some in Ee as [-> _]. case_decide as Hwin; [done|].
  destruct (Linux.map_pages _ _ _ _ _ _ _ _) as [w' [[]|]] eqn:Emap; [|done].
  destruct (Linux.record_region _ _ _ _) as [m' [[]|]] eqn:Erec; [|done]. intros [= <- <-]. cbv zeta.
  split_and!; [done|done|lia|done|lia|lia|]. eauto 6.
Qed.

Lemma record_count start stop_ pages m :
  match Linux.record_region start stop_ pages m with
  | (m', Ok _) => mmap_region_count m' = S (mmap_region_count m) ∧ (mmap_region_count m < LINUX_MMAP_MAX_REGIONS)%nat
  | (m', Err _) => (mmap_region_count m ≤ mmap_region_count m')%nat
  end.
Proof.
  unfold Linux.record_region. case_decide; [done|]. destruct (checked_add _ _ _); cbn; [split; [done|lia]|lia].
Qed.

Lemma mmap_count addr len prot flags fd offset m w :
  (mmap_region_count m ≤ mmap_region_count (Linux.sys_mmap dbg max_tables max_mappings exclusion addr len prot flags fd offset (m, w)).1.1)%nat.
Proof.
  unfold Linux.sys_mmap. do 4 (case_decide; [done|]). destruct (checked_add _ _ _); [|done]. case_decide; [done|].
  destruct (checked_add _ _ _); [|done]. case_decide; [done|]. destruct (Linux.choose_addr _ _ _ _); [|done].
  destruct (checked_mul _ _ _); [|done]. destruct (checked_add _ _ _); [|done]. case_decide; [done|].
  destruct (Linux.map_pages _ _ _ _ _ _ _ _) as [? [[]|]]; [|done]. 
  match goal with |- context [Linux.record_region ?x ?y ?z ?m] => pose proof (record_count x y z m) as Hr end.
  destruct (Linux.record_region _ _ _ _) as [m' [[]|]]; cbn; lia.
Qed.

(** The calls only ever add to the count. *)
Lemma run_count s s' : rtc linux_call s s' → (mmap_region_count s.1 ≤ mmap_region_count s'.1)%nat.
Proof.
  induction 1 as [|s s1 s2 Hst _ IH]; [done|]. etrans; [|exact IH].
  inversion Hst as [a [m w] ? r E|a len p f fd o [m w] ? r E|a len [m w] ? r E]; subst.
  - pose proof (brk_count a m w) as Hc. rewrite E in Hc. cbn in *. lia.
  - pose proof (mmap_count a len p f fd o m w) as Hc. by rewrite E in Hc.
  - pose proof (munmap_count a len m w) as Hc. rewrite E in Hc. cbn in *. lia.
Qed.

(** C40: The table of mappings does not recover before the next [execve]. Unmapping clears a
    region but never its place in the count, so once the count has reached sixteen no [mmap]
    of the process succeeds, however it calls [brk], [mmap] and [munmap] in between; only an
    [execve], which starts over with an empty table, ends this. *)
Theorem mmap_table_never_recovers m w m' w' addr len prot flags fd offset a st :
  mmap_region_count m = LINUX_MMAP_MAX_REGIONS → rtc linux_call (m, w) (m', w') →
  Linux.sys_mmap dbg max_tables max_mappings exclusion addr len prot flags fd offset (m', w') ≠ (st, Ok a)
  ∧ ∀ st', linux_exec (m', w') st' → mmap_region_count st'.1 = 0%nat.
Proof.
  intros Hm Hrun. split; [|by inversion 1]. intros E. apply mmap_inv in E as (_ & _ & _ & _ & _ & _ & w1 & m1 & _ & Er & _).
  pose proof (run_count _ _ Hrun) as Hmono. cbn [fst] in Hmono.
  pose proof (record_count a (a + (len + 4095) / 4096 * 4096) ((len + 4095) / 4096) m') as Hr. rewrite Er in Hr. lia.
Qed.
End flaws.

(** * Fresh memory *)

Section fresh.
Context `{NodeLayout} {T : Type} `{PageTables T} (dbg : bool).
Context (max_tables max_mappings : nat) (exclusion : list VaRange) (l : list MemoryRegion).

Implicit Types (w : World T) (σ : Heap).

(** Anonymous pages are pages of an image without segments. *)
Abbreviation loaded := (loaded dbg l 0 [] []).

Definition anon_page (writable executable : bool) (va : Z) : PagePlan := MkPagePlan va (MkPerms true writable executable).

Definition anon_pages (writable executable : bool) (va : Z) (n : nat) : list PagePlan :=
  (λ i, anon_page writable executable (va + Z.of_nat i * 4096)) <$> seq 0 n.

Lemma anon_pages_S wr ex va n : anon_pages wr ex va (S n) = anon_page wr ex va :: anon_pages wr ex (va + 4096) n.
Proof.
  unfold anon_pages. cbn [seq fmap list_fmap]. f_equal; [f_equal; lia|]. rewrite <- fmap_S_seq, <- list_fmap_compose.
  apply list_fmap_ext. intros i j _. cbn. f_equal. lia.
Qed.

Lemma map_zero_page_spec σ0 w0 ds σ w va wr ex :
  loaded σ0 w0 ds σ w → aligned va → 0 ≤ va < 2 ^ 47 → (length (user_mappings (w_space w)) ≤ max_mappings)%nat →
  match Linux.map_zero_page dbg max_tables max_mappings exclusion va wr ex w with
  | (w', Ok _) => (length (user_mappings (w_space w)) < max_mappings)%nat
      ∧ ∃ f σ', loaded σ0 w0 (ds ++ [(anon_page wr ex va, f)]) σ' w'
  | (w', Err (Raise e)) => e = ENOMEM
  | (_, Err (Halt _)) => False
  end.
Proof.
  intros Hld Hal Hr Hroom. unfold Linux.map_zero_page. set (p := anon_page wr ex va).
  pose proof (fill_fresh dbg l 0 [] [] ltac:(constructor) σ w p (ld_ok _ _ _ _ _ _ _ _ _ _ Hld) Hal Hr) as Hff.
  unfold Space.allocate_page in *. destruct (Alloc.allocate_page dbg (w_mem w) (w_alloc w)) as [[al [f|]]|]; [|done|done].
  cbv zeta in Hff. destruct Hff as (Hf & σ2 & mem & Efill & Hok2 & Hf2 & Hother & Es & Et). injection Efill as <-.
  set (w1 := Space.set_alloc _ _ _) in *.
  destruct (decide (length (user_mappings (w_space w)) = max_mappings)) as [Hfull|Hnot].
  { pose proof (map_process_page_full dbg max_tables max_mappings exclusion l va f (MkFlags true wr true (negb ex)) σ2 (Image.zero_page f w1)
      Hok2 Hal ltac:(change (length (user_mappings (w_space w1)) = max_mappings); by rewrite Es)) as Hm.
    destruct (Space.map_process_page _ _ _ _ _ _ _ _) as [w3 [[]|[m|e]]]; cbn; [done| |done].
    unfold is_canonical, USER_CANONICAL_TOP_EXCLUSIVE in Hm. change (Z.shiftl 1 47) with (2 ^ 47) in Hm.
    by rewrite bool_decide_eq_true_2 in Hm by lia. }
  assert (length (user_mappings (w_space w)) < max_mappings)%nat as Hlt by lia.
  pose proof (map_fresh_spec dbg max_tables max_mappings exclusion l 0 [] [] σ0 w0 ds σ w p f σ2 _
    Hld Hal Hr Hlt Hf Hok2 Hf2 Hother Es Et) as Hm.
  change (Image.set_mem (w_mem (Image.zero_page f w1)) (Image.zero_page f w1)) with (Image.zero_page f w1) in Hm.
  change (page_vaddr p) with va in Hm. change (flags_of p) with (MkFlags true wr true (negb ex)) in Hm.
  destruct (Space.map_process_page _ _ _ _ _ _ _ _) as [w3 [[]|[m|e]]]; cbn; [|done|done].
  split; [done|]. destruct Hm as (σ' & Hm). eauto.
Qed.

(** The flags of the loop do not depend on the special case for [PROT_NONE]. *)
Lemma map_pages_spec n σ0 w0 ds σ w prot va :
  loaded σ0 w0 ds σ w → aligned va → 0 ≤ va → va + Z.of_nat n * 4096 ≤ 2 ^ 47 →
  (length (user_mappings (w_space w)) ≤ max_mappings)%nat →
  match Linux.map_pages dbg max_tables max_mappings exclusion n prot va w with
  | (w', Ok _) => ∃ ds' σ', loaded σ0 w0 (ds ++ ds') σ' w'
      ∧ ds'.*1 = anon_pages (bool_decide (Z.land prot PROT_WRITE ≠ 0)) (bool_decide (Z.land prot PROT_EXEC ≠ 0)) va n
  | (_, Err (Raise _)) => True
  | (_, Err (Halt _)) => False
  end.
Proof.
  set (wr := bool_decide (Z.land prot PROT_WRITE ≠ 0)). set (ex := bool_decide (Z.land prot PROT_EXEC ≠ 0)).
  revert ds σ w va. induction n as [|n IH]; intros ds σ w va Hld Hal Hva Hmax Hroom; cbn [Linux.map_pages].
  { exists [], σ. by rewrite app_nil_r. }
  fold wr ex. destruct (_ && _); [done|].
  assert ((if decide (prot = PROT_NONE) then Linux.map_zero_page dbg max_tables max_mappings exclusion va false false w
           else Linux.map_zero_page dbg max_tables max_mappings exclusion va wr ex w)
          = Linux.map_zero_page dbg max_tables max_mappings exclusion va wr ex w) as ->.
  { case_decide; [|done]. unfold wr, ex. by subst prot. }
  pose proof (map_zero_page_spec σ0 w0 ds σ w va wr ex Hld Hal ltac:(lia) ltac:(lia)) as Hone.
  destruct (Linux.map_zero_page _ _ _ _ _ _ _ _) as [w1 [[]|[m|e]]]; [|done|done]. destruct Hone as (Hlt & f & σ1 & Hld1).
  rewrite (proj2 (checked_add_Some 64 va PAGE_SIZE (va + 4096))) by (unfold PAGE_SIZE; lia).
  assert (aligned (va + 4096)) as Hal'.
  { apply aligned_spec in Hal as [k ->]. apply aligned_spec. exists (k + 1). lia. }
  specialize (IH _ _ _ (va + 4096) Hld1 Hal' ltac:(lia) ltac:(lia)).
  pose proof (ld_mappings _ _ _ _ _ _ _ _ _ _ Hld) as E0. pose proof (ld_mappings _ _ _ _ _ _ _ _ _ _ Hld1) as E1.
  rewrite fmap_app, app_assoc, <- E0 in E1. rewrite E1, length_app in IH. cbn [length fmap list_fmap] in IH. specialize (IH ltac:(lia)).
  destruct (Linux.map_pages _ _ _ _ _ _ _ _) as [w2 [[]|[m|e]]]; [|done|done]. destruct IH as (ds' & σ2 & Hld2 & Hds).
  exists ((anon_page wr ex va, f) :: ds'), σ2. rewrite <- app_assoc in Hld2. split; [done|]. by rewrite anon_pages_S, <- Hds.
Qed.

(** ** Choosing an address *)


(** ** What a mapping call leaves behind *)







End fresh.

(** * A small process *)

Module SmallProcess.
(** An image that ends at 4 MiB, mapped into the address space [SmallSpace.fresh]. *)
Definition memory : LinuxMemState :=
  Linux.init_for_image LINUX_MMAP_WINDOW_BASE LINUX_MMAP_WINDOW_TOP 0x700000 0x6fe000 2 0x400000 Linux.EMPTY.

(** The same process with a heap of two pages. *)
Definition heap : World SoftTables :=
  (Linux.map_pages false 32 384 [] 2 (Z.lor PROT_READ PROT_WRITE) 0x400000 SmallSpace.fresh).1.

Lemma heap_mappings : virtual_address <$> user_mappings (w_space heap) = [0x400000; 0x401000].
Proof. by vm_compute. Qed.

Lemma heap_ok : ∃ σ, world_ok false (usable_regions SmallAllocator.allocator) σ heap.
Proof.
  destruct SmallSpace.fresh_ok as (σ & _ & Hok). unfold heap.
  pose proof (map_pages_spec false 32 384 [] _ 2 σ SmallSpace.fresh [] σ _ (Z.lor PROT_READ PROT_WRITE) 0x400000
    (loaded_nil _ _ _ _ _ _ _ Hok) ltac:(by vm_compute) ltac:(lia) ltac:(lia)) as Hm.
  assert (snd (Linux.map_pages false 32 384 [] 2 (Z.lor PROT_READ PROT_WRITE) 0x400000 SmallSpace.fresh) = Ok ()) as E by (vm_compute; reflexivity).
  destruct (Linux.map_pages _ _ _ _ _ _ _ _) as [w r]. cbn in E. subst r.
  destruct Hm as (ds & σ' & Hld & _); [apply Nat.leb_le; by vm_compute|]. exists σ'. apply Hld.
Qed.

(** The process with every place of its table counted. *)
Definition full : LinuxMemState := Linux.set_regions (mmap_regions memory) LINUX_MMAP_MAX_REGIONS 0 memory.
End SmallProcess.

Lemma munmap_stops_kernel_witness :
  Linux.sys_munmap false 0x800000000000 4096 (SmallProcess.memory, SmallSpace.fresh)
    = ((SmallProcess.memory, SmallSpace.fresh), Err (Halt VIRT_ADDR_PANIC)).
Proof. apply (munmap_stops_kernel false); [done|lia|lia|lia]. Defined.

(** A heap of two pages shrinks to its first page: that page is lost, the second stays. *)
Lemma brk_shrink_unmaps_kept_heap_witness :
  ∃ w', Linux.sys_brk false 32 384 [] 0x401000 (Linux.set_brk_end 0x402000 SmallProcess.memory, SmallProcess.heap)
      = ((Linux.set_brk_end 0x401000 (Linux.set_brk_end 0x402000 SmallProcess.memory), w'), Ok 0x402000)
    ∧ pt_lookup (w_pt w') 0x400000 = None ∧ is_Some (pt_lookup (w_pt w') 0x401000)
    ∧ ∃ σ σ' f fl, pt_lookup (w_pt SmallProcess.heap) 0x400000 = Some (f, fl) ∧ is_Some (σ !! f) ∧ σ' !! f = None
        ∧ world_ok false (usable_regions SmallAllocator.allocator) σ SmallProcess.heap
        ∧ world_ok false (usable_regions SmallAllocator.allocator) σ' w'.
Proof.
  destruct SmallProcess.heap_ok as (σ & Hok).
  destruct (brk_shrink_unmaps_kept_heap false 32 384 [] _ (Linux.set_brk_end 0x402000 SmallProcess.memory) SmallProcess.heap σ 0x401000 Hok)
    as (w' & σ' & E & Hok' & Hlow & Hhigh & _); [done|done|by vm_compute|done|done|by vm_compute| |].
  - intros q [k ->]%aligned_spec Hq. cbn [brk_base brk_end Linux.set_brk_end SmallProcess.memory Linux.init_for_image] in Hq.
    unfold tracked. rewrite SmallProcess.heap_mappings, !elem_of_cons. lia.
  - destruct (Hlow 0x400000 eq_refl ltac:(clear; by vm_compute)) as (f & fl & Hlk & Hf & Hgone & Hfree).
    exists w'. split; [exact E|]. split; [exact Hgone|].
    split; [|exists σ, σ', f, fl; exact (conj Hlk (conj Hf (conj Hfree (conj Hok Hok'))))].
    exact (Hhigh 0x401000 eq_refl ltac:(clear; by vm_compute)).
Defined.

(** The table is counted full and the process unmaps what it likes: mapping a page fails. *)
Lemma mmap_table_never_recovers_witness :
  ∃ m w, Linux.sys_munmap false 0x200000 0x400000 (SmallProcess.full, SmallSpace.fresh) = ((m, w), Ok 0)
    ∧ ∀ st a, Linux.sys_mmap false 32 384 [] 0 4096 PROT_READ (Z.lor MAP_PRIVATE MAP_ANONYMOUS) (-1) 0 (m, w) ≠ (st, Ok a).
Proof.
  assert (snd (Linux.sys_munmap false 0x200000 0x400000 (SmallProcess.full, SmallSpace.fresh)) = Ok 0) as E by (vm_compute; reflexivity).
  destruct (Linux.sys_munmap _ _ _ _) as [[m w] r] eqn:Es. cbn in E. subst r. exists m, w. split; [done|]. intros st a.
  apply (mmap_table_never_recovers false 32 384 [] SmallProcess.full SmallSpace.fresh); [done|].
  eapply rtc_once, call_munmap, Es.
Defined.

