(* ===== verification/Lifecycle.v ===== *)
(** Services and their lifecycle (service-lifecycle/src/identity.rs, control.rs, state.rs,
    tracker.rs, and the registry of supervisor/src/registry.rs that wraps the tracker).

    A logical service has an authoritative generation; an instance is a process that runs
    one generation of it. Control requests and instance events move a service through its
    states; the theorems say which instances have a voice.

    The three registries of the crate (lifecycle, dependencies, health) are arrays of
    optional entries searched by service; [Slots] is that array, used by all three. *)

From Stdlib Require Import ZArith Lia.
From stdpp Require Import base list tactics decidable numbers relations.
From S2P Require Import Prelude.

Local Open Scope Z_scope.

(** ** Identities, requests and events *)

(** [ServiceId] and [InstanceGeneration] are 32-bit, [ProcessId] and [DomainId] 64-bit. *)
Record ServiceInstanceId : Type := MkInstance {
  si_service : Z;
  si_generation : Z;
  si_pid : Z;
  si_domain : Z
}.

#[export] Instance ServiceInstanceId_eq_dec : EqDecision ServiceInstanceId.
Proof. solve_decision. Defined.

Inductive ControlRequestKind : Type := Start | Stop | Terminate | Restart.

#[export] Instance ControlRequestKind_eq_dec : EqDecision ControlRequestKind.
Proof. solve_decision. Defined.

Record ControlRequest : Type := MkControl { cr_service : Z; cr_kind : ControlRequestKind }.

#[export] Instance ControlRequest_eq_dec : EqDecision ControlRequest.
Proof. solve_decision. Defined.

Inductive ServiceLifecycleState : Type :=
  | Declared | Starting | Running | Stopping | Exited | Faulted | RestartPending.

#[export] Instance ServiceLifecycleState_eq_dec : EqDecision ServiceLifecycleState.
Proof. solve_decision. Defined.

Inductive LifecycleEventKind : Type :=
  | InstanceSpawned | Started | Ready | StopAcknowledged | ExitedEvent | FaultedEvent.

#[export] Instance LifecycleEventKind_eq_dec : EqDecision LifecycleEventKind.
Proof. solve_decision. Defined.

Record LifecycleEvent : Type := MkEvent { ev_instance : ServiceInstanceId; ev_kind : LifecycleEventKind; ev_status_code : Z }.

Inductive TransitionInput : Type :=
  | Control (kind : ControlRequestKind)
  | Event (kind : LifecycleEventKind).

Inductive TransitionError : Type :=
  | InvalidTransition (from : ServiceLifecycleState) (input : TransitionInput)
  | StaleInstance (observed authoritative : Z)
  | ActiveInstanceMismatch (expected observed : ServiceInstanceId)
  | GenerationExhausted (current : Z)
  | InstanceMismatch.

(** ** Transitions *)

Module State.
Definition bump_generation (generation : Z) : result TransitionError Z :=
  if decide (generation = u32_max) then Err (GenerationExhausted generation) else Ok (generation + 1).

Definition apply_control (state : ServiceLifecycleState) (generation : Z) (kind : ControlRequestKind) :
    result TransitionError (ServiceLifecycleState * Z) :=
  match state, kind with
  | Declared, Start | Exited, Start | Faulted, Start | RestartPending, Start =>
      let? g := bump_generation generation in Ok (Starting, g)
  | Running, Stop | Running, Terminate => Ok (Stopping, generation)
  | Starting, Terminate => Ok (Stopping, generation)
  | Faulted, Restart | Exited, Restart => Ok (RestartPending, generation)
  | Running, Restart => Ok (RestartPending, generation)
  | _, _ => Err (InvalidTransition state (Control kind))
  end.

Definition apply_event (state : ServiceLifecycleState) (authoritative_generation : Z) (instance : ServiceInstanceId)
    (kind : LifecycleEventKind) : result TransitionError (ServiceLifecycleState * Z) :=
  if decide (si_generation instance < authoritative_generation)
  then Err (StaleInstance (si_generation instance) authoritative_generation)
  else if decide (authoritative_generation < si_generation instance)
  then Err (StaleInstance (si_generation instance) authoritative_generation)
  else
    match state, kind with
    | Starting, InstanceSpawned => Ok (Starting, authoritative_generation)
    | Starting, Started => Ok (Starting, authoritative_generation)
    | Starting, Ready => Ok (Running, authoritative_generation)
    | Running, FaultedEvent => Ok (Faulted, authoritative_generation)
    | Running, ExitedEvent => Ok (Exited, authoritative_generation)
    | Stopping, StopAcknowledged => Ok (Stopping, authoritative_generation)
    | Stopping, ExitedEvent => Ok (Exited, authoritative_generation)
    | Starting, FaultedEvent => Ok (Faulted, authoritative_generation)
    | Starting, ExitedEvent => Ok (Exited, authoritative_generation)
    | _, _ => Err (InvalidTransition state (Event kind))
    end.

Definition apply_transition (state : ServiceLifecycleState) (authoritative_generation : Z) (input : TransitionInput)
    (event_instance : option ServiceInstanceId) : result TransitionError (ServiceLifecycleState * Z) :=
  match input with
  | Control kind => apply_control state authoritative_generation kind
  | Event kind =>
      let? instance := ok_or event_instance InstanceMismatch in
      apply_event state authoritative_generation instance kind
  end.
End State.

(** ** Service records *)

Record ServiceLifecycleRecord : Type := MkRecord {
  lr_service : Z;
  lr_state : ServiceLifecycleState;
  authoritative_generation : Z;
  active_instance : option ServiceInstanceId
}.

Module Rec.
Definition declared (service : Z) : ServiceLifecycleRecord := MkRecord service Declared 0 None.

Definition apply_control (request : ControlRequest) (r : ServiceLifecycleRecord) :
    ServiceLifecycleRecord * result TransitionError unit :=
  if decide (cr_service request ≠ lr_service r) then (r, Err InstanceMismatch)
  else
    match State.apply_transition (lr_state r) (authoritative_generation r) (Control (cr_kind request)) None with
    | Err e => (r, Err e)
    | Ok (next, generation) =>
        let active := match cr_kind request with Start | Restart => None | _ => active_instance r end in
        (MkRecord (lr_service r) next generation active, Ok ())
    end.

(** [is_some_and(|active| active != event.instance)], with the instance that differs. *)
Definition mismatch (instance : ServiceInstanceId) (active : option ServiceInstanceId) : option ServiceInstanceId :=
  match active with
  | Some a => if decide (a ≠ instance) then Some a else None
  | None => None
  end.

Definition apply_event (event : LifecycleEvent) (r : ServiceLifecycleRecord) :
    ServiceLifecycleRecord * result TransitionError unit :=
  let instance := ev_instance event in
  if decide (si_service instance ≠ lr_service r) then (r, Err InstanceMismatch)
  else
    match mismatch instance (active_instance r) with
    | Some active => (r, Err (ActiveInstanceMismatch active instance))
    | None =>
        match State.apply_transition (lr_state r) (authoritative_generation r) (Event (ev_kind event)) (Some instance) with
        | Err e => (r, Err e)
        | Ok (next, generation) =>
            let active :=
              match ev_kind event with
              | InstanceSpawned => Some instance
              | ExitedEvent | FaultedEvent => None
              | _ => active_instance r
              end in
            (MkRecord (lr_service r) next generation active, Ok ())
        end
    end.
End Rec.

(** ** Registries *)

(** An entry that belongs to a service. *)
Class HasService (A : Type) : Type := service_of : A → Z.

#[export] Instance record_has_service : HasService ServiceLifecycleRecord := lr_service.

Inductive SlotError : Type := DuplicateService | UnknownService | CapacityExceeded.

Module Slots.
Section slots.
Context {A : Type} `{HasService A}.

(** [matches!(entry, Some(record) if record.service == service)] *)
Definition holds (service : Z) (entry : option A) : bool :=
  match entry with Some a => bool_decide (service_of a = service) | None => false end.

Definition find (service : Z) (slots : list (option A)) : option nat := position (holds service) slots.

Definition is_vacant (entry : option A) : bool := match entry with None => true | Some _ => false end.

(** The shared body of [declare] and [register]. *)
Definition declare (service : Z) (fresh : A) (slots : list (option A)) : list (option A) * result SlotError unit :=
  match find service slots with
  | Some _ => (slots, Err DuplicateService)
  | None =>
      match position is_vacant slots with
      | None => (slots, Err CapacityExceeded)
      | Some slot => (<[slot := Some fresh]> slots, Ok ())
      end
  end.

Definition record (service : Z) (slots : list (option A)) : result SlotError A :=
  let? index := ok_or (find service slots) UnknownService in
  match slots !! index with Some (Some a) => Ok a | _ => Err UnknownService end.

(** What a caller of [record_mut] does with the entry it borrows. *)
Definition update {B : Type} (service : Z) (f : A → A * B) (slots : list (option A)) :
    list (option A) * result SlotError B :=
  match find service slots with
  | None => (slots, Err UnknownService)
  | Some index =>
      match slots !! index with
      | Some (Some a) => let '(a, b) := f a in (<[index := Some a]> slots, Ok b)
      | _ => (slots, Err UnknownService)
      end
  end.
End slots.
End Slots.

Abbreviation Tracker := (list (option ServiceLifecycleRecord)).

Inductive ServiceRegistryError : Type :=
  | Registry (e : SlotError)
  | Transition (e : TransitionError).

Record ServiceQueryEntry : Type := MkQuery {
  q_service : Z;
  q_state : ServiceLifecycleState;
  q_generation : Z;
  q_active_pid : option Z
}.

Module Registry.
Definition new (N : nat) : Tracker := replicate N None.

Definition declare (service : Z) (t : Tracker) : Tracker * result ServiceRegistryError unit :=
  let '(t, r) := Slots.declare service (Rec.declared service) t in (t, map_err Registry r).

(** [record_mut(..).map_err(Registry)?.apply_*(..).map_err(Transition)] *)
Definition apply_to (service : Z) (f : ServiceLifecycleRecord → ServiceLifecycleRecord * result TransitionError unit)
    (t : Tracker) : Tracker * result ServiceRegistryError unit :=
  match Slots.update service f t with
  | (t, Err e) => (t, Err (Registry e))
  | (t, Ok r) => (t, map_err Transition r)
  end.

Definition apply_control (request : ControlRequest) (t : Tracker) : Tracker * result ServiceRegistryError unit :=
  apply_to (cr_service request) (Rec.apply_control request) t.

Definition apply_event (event : LifecycleEvent) (t : Tracker) : Tracker * result ServiceRegistryError unit :=
  apply_to (si_service (ev_instance event)) (Rec.apply_event event) t.

Definition snapshot_from_record (r : ServiceLifecycleRecord) : ServiceQueryEntry :=
  MkQuery (lr_service r) (lr_state r) (authoritative_generation r) (si_pid <$> active_instance r).

Definition query (service : Z) (t : Tracker) : option ServiceQueryEntry :=
  match Slots.record service t with Ok r => Some (snapshot_from_record r) | Err _ => None end.

Definition entries (t : Tracker) : list (option ServiceQueryEntry) := List.map (option_map snapshot_from_record) t.
End Registry.

(** * Registries as finite maps *)

Section slots.
Context {A : Type} `{HasService A}.

Implicit Types (slots : list (option A)) (a : A) (s : Z).

(** No two entries belong to the same service. *)
Definition unique slots : Prop :=
  ∀ i j a b, slots !! i = Some (Some a) → slots !! j = Some (Some b) → service_of a = service_of b → i = j.

Lemma holds_true s e : Slots.holds s e = true ↔ ∃ a, e = Some a ∧ service_of a = s.
Proof.
  unfold Slots.holds. destruct e as [a|]; [rewrite bool_decide_eq_true|]; split; [by eauto|by intros (? & [= <-] & ?)|done|by intros (? & ? & ?)].
Qed.

Lemma find_Some slots s i :
  unique slots → Slots.find s slots = Some i ↔ ∃ a, slots !! i = Some (Some a) ∧ service_of a = s.
Proof.
  intros Hu. unfold Slots.find. rewrite position_Some. setoid_rewrite holds_true. split.
  - intros [(e & He & a & -> & Ha) _]. eauto.
  - intros (a & Hi & Ha). split; [eauto|]. intros j y Hj Hy. apply not_true_iff_false. rewrite holds_true.
    intros (b & -> & Hb). pose proof (Hu i j a b Hi Hy ltac:(congruence)). lia.
Qed.

Lemma find_None slots s : Slots.find s slots = None ↔ ∀ a, Some a ∈ slots → service_of a ≠ s.
Proof.
  unfold Slots.find. rewrite position_None. split.
  - intros Hn a Ha E. specialize (Hn _ Ha). cbn in Hn. by apply bool_decide_eq_false in Hn.
  - intros Hn [a|] Ha; [|done]. cbn. apply bool_decide_eq_false. by apply Hn.
Qed.

Lemma entry_Ok slots s a : unique slots → Slots.record s slots = Ok a ↔ Some a ∈ slots ∧ service_of a = s.
Proof.
  intros Hu. unfold Slots.record. split.
  - destruct (Slots.find s slots) as [i|] eqn:Ef; [|done]. cbn. apply find_Some in Ef as (b & Hi & Hb); [|done]. rewrite Hi.
    intros [= <-]. split; [|done]. by eapply list_elem_of_lookup_2.
  - intros [[i Hi]%list_elem_of_lookup Ha]. rewrite (proj2 (find_Some slots s i Hu)) by eauto. cbn. by rewrite Hi.
Qed.

Lemma entry_Err slots s e : unique slots → Slots.record s slots = Err e → e = UnknownService ∧ Slots.find s slots = None.
Proof.
  intros Hu. unfold Slots.record. destruct (Slots.find s slots) as [i|] eqn:Ef; [|by intros [= <-]].
  cbn. apply find_Some in Ef as (b & Hi & Hb); [|done]. by rewrite Hi.
Qed.

(** Writing the entry of service [s] into slot [k], the only slot that may hold one. *)
Lemma write_slot_spec slots s k a :
  unique slots → service_of a = s → (k < length slots)%nat →
  (∀ b, slots !! k = Some (Some b) → service_of b = s) → (∀ i b, slots !! i = Some (Some b) → service_of b = s → i = k) →
  unique (<[k := Some a]> slots) ∧
  ∀ s', Slots.record s' (<[k := Some a]> slots) = if decide (s' = s) then Ok a else Slots.record s' slots.
Proof.
  intros Hu Ha Hk Hself Honly.
  assert (∀ i b, <[k := Some a]> slots !! i = Some (Some b) ↔ (i = k ∧ b = a) ∨ (i ≠ k ∧ slots !! i = Some (Some b))) as Hlk.
  { intros i b. rewrite list_lookup_insert_Some. split.
    - intros [(-> & [= ->] & _)|[? ?]]; [by left|right; split; [congruence|done]].
    - intros [[-> ->]|[? ?]]; [left|right; split; [congruence|done]]. done. }
  assert (unique (<[k := Some a]> slots)) as Hu'.
  { intros i j b c [[-> ->]|[? Hi]]%Hlk [[-> ->]|[? Hj]]%Hlk E; [done| | |by eapply Hu].
    - symmetry. eapply Honly; [exact Hj|congruence].
    - eapply Honly; [exact Hi|congruence]. }
  split; [done|]. intros s'. case_decide as Es.
  - subst s'. apply entry_Ok; [done|]. split; [|done]. eapply list_elem_of_lookup_2, Hlk. by left.
  - destruct (Slots.record s' slots) as [b|e] eqn:Er.
    + apply entry_Ok in Er as [[i Hi]%list_elem_of_lookup Hb]; [|done]. apply entry_Ok; [done|]. split; [|done].
      eapply list_elem_of_lookup_2, Hlk. right. split; [|done]. intros ->. apply Hself in Hi. congruence.
    + apply entry_Err in Er as [-> Er]; [|done]. unfold Slots.record.
      assert (Slots.find s' (<[k := Some a]> slots) = None) as ->; [|done]. apply find_None. intros b [i Hi]%list_elem_of_lookup.
      apply Hlk in Hi as [[-> ->]|[_ Hi]]; [congruence|]. rewrite find_None in Er. by eapply Er, list_elem_of_lookup_2.
Qed.

(** A new entry takes a vacant slot. *)
Lemma declare_spec slots s a :
  unique slots → service_of a = s →
  match Slots.declare s a slots with
  | (slots', Ok _) => unique slots' ∧ Slots.find s slots = None ∧ length slots' = length slots
                      ∧ ∀ s', Slots.record s' slots' = if decide (s' = s) then Ok a else Slots.record s' slots
  | (slots', Err _) => slots' = slots
  end.
Proof.
  intros Hu Ha. unfold Slots.declare. destruct (Slots.find s slots) as [|] eqn:Ef; [done|].
  destruct (position _ slots) as [k|] eqn:Ek; [|done]. apply position_Some in Ek as ((e & Hk & He) & _).
  destruct e as [|]; [done|]. pose proof (proj1 (find_None _ _) Ef) as Hn.
  destruct (write_slot_spec slots s k a) as [Hu' Hr]; [done|done|by eapply lookup_lt_Some|congruence| |by rewrite length_insert].
  intros i b Hi Hb. exfalso. by apply (Hn b); [eapply list_elem_of_lookup_2|].
Qed.

(** Changing one entry in place. *)
Lemma update_spec {B : Type} slots s (f : A → A * B) :
  unique slots → (∀ a, service_of (f a).1 = service_of a) →
  match Slots.record s slots with
  | Ok a => ∃ slots', Slots.update s f slots = (slots', Ok (f a).2) ∧ unique slots' ∧ length slots' = length slots
            ∧ (∀ s', Slots.record s' slots' = if decide (s' = s) then Ok (f a).1 else Slots.record s' slots)
            ∧ ((f a).1 = a → slots' = slots)
  | Err e => Slots.update s f slots = (slots, Err e)
  end.
Proof.
  intros Hu Hf. unfold Slots.update. destruct (Slots.record s slots) as [a|e] eqn:Er.
  2: { by apply entry_Err in Er as [-> ->]. }
  pose proof Er as Er'. unfold Slots.record in Er'. destruct (Slots.find s slots) as [k|] eqn:Ek; [|done]. cbn in Er'.
  apply find_Some in Ek as (b & Hk & Hb); [|done]. rewrite Hk in *. injection Er' as ->.
  specialize (Hf a). destruct (f a) as [a' out]. cbn in *.
  destruct (write_slot_spec slots s k a') as [Hu' Hr]; [done|congruence|by eapply lookup_lt_Some|congruence| |].
  { intros i c Hi Hc. eapply Hu; [exact Hi|exact Hk|congruence]. }
  eexists. split; [done|]. split_and!; [done|by rewrite length_insert|done|intros ->; by apply list_insert_id].
Qed.

Lemma unique_new N : unique (replicate N None).
Proof. intros i j a b [? ?]%lookup_replicate. done. Qed.
End slots.

(** * Who has a voice *)

(** The active instance runs the authoritative generation, and there is one only while
    the service is starting, running or stopping. *)
Record record_ok (r : ServiceLifecycleRecord) : Prop := {
  ro_generation : in_width 32 (authoritative_generation r);
  ro_active : ∀ i, active_instance r = Some i →
    si_service i = lr_service r ∧ si_generation i = authoritative_generation r
    ∧ (lr_state r = Starting ∨ lr_state r = Running ∨ lr_state r = Stopping)
}.

Lemma declared_ok s : record_ok (Rec.declared s).
Proof. by split. Qed.

(** A control request: only [Start] changes the generation, and it silences the instance. *)
Lemma control_spec request r :
  record_ok r →
  match Rec.apply_control request r with
  | (r', Ok _) => record_ok r' ∧ lr_service r' = lr_service r ∧ cr_service request = lr_service r
      ∧ if decide (cr_kind request = Start)
        then authoritative_generation r' = authoritative_generation r + 1 ∧ active_instance r' = None ∧ lr_state r' = Starting
        else authoritative_generation r' = authoritative_generation r
  | (r', Err _) => r' = r
  end.
Proof.
  intros [Hg Ha]. unfold Rec.apply_control. case_decide as Hs; [done|].
  destruct request as [cs k]. cbn in *. subst cs.
  destruct (State.apply_control (lr_state r) (authoritative_generation r) k) as [[st g]|e] eqn:E; [|done].
  revert E. unfold State.apply_control, State.bump_generation.
  assert (∀ g', g' = authoritative_generation r + 1 → authoritative_generation r ≠ u32_max → in_width 32 g') as Hbump.
  { intros g' -> Hne. unfold in_width in *. change u32_max with (2 ^ 32 - 1) in Hne. lia. }
  assert (∀ st', (k = Stop ∨ k = Terminate) → st' = Stopping →
    record_ok (MkRecord (lr_service r) st' (authoritative_generation r) (active_instance r))) as Hkeep.
  { intros st' _ ->. split; cbn; [done|]. intros i Hi. destruct (Ha i Hi) as (? & ? & _). eauto. }
  destruct (lr_state r) eqn:Est, k; try done; repeat case_decide; intros [= <- <-]; cbn; split_and!; auto; try done;
    by split; cbn; auto.
Qed.

(** An event: accepted only from the instance that runs the authoritative generation, and
    from the active one if there is one. *)
Lemma event_spec event r :
  record_ok r →
  match Rec.apply_event event r with
  | (r', Ok _) => record_ok r' ∧ lr_service r' = lr_service r ∧ si_service (ev_instance event) = lr_service r
      ∧ si_generation (ev_instance event) = authoritative_generation r
      ∧ (∀ a, active_instance r = Some a → a = ev_instance event) ∧ authoritative_generation r' = authoritative_generation r
  | (r', Err _) => r' = r
  end.
Proof.
  intros [Hg Ha]. unfold Rec.apply_event. case_decide as Hs; [done|].
  destruct event as [i k c]. cbn in *.
  destruct (Rec.mismatch i (active_instance r)) as [a|] eqn:Em; [done|].
  assert (∀ a, active_instance r = Some a → a = i) as Hact.
  { intros a Ea. unfold Rec.mismatch in Em. rewrite Ea in Em. by case_decide. }
  destruct (State.apply_event (lr_state r) (authoritative_generation r) i k) as [[st g]|e] eqn:E; [|done].
  revert E. unfold State.apply_event. do 2 (case_decide; [done|]). assert (si_generation i = authoritative_generation r) as Hgen by lia.
  destruct (lr_state r) eqn:Est, k; try done; intros [= <- <-]; split_and!; try done; split; cbn; try done;
    intros j Hj; [injection Hj as <-; auto|..]; destruct (Ha j Hj) as (? & ? & ?); auto.
Qed.

Inductive reg_step : Tracker → Tracker → Prop :=
  | reg_declare s t t' r : Registry.declare s t = (t', r) → reg_step t t'
  | reg_control request t t' r : Registry.apply_control request t = (t', r) → reg_step t t'
  | reg_event event t t' r : Registry.apply_event event t = (t', r) → reg_step t t'.

Record registry_ok (t : Tracker) : Prop := {
  rg_unique : unique t;
  rg_records : ∀ s r, Slots.record s t = Ok r → record_ok r ∧ lr_service r = s
}.

Lemma new_ok N : registry_ok (Registry.new N).
Proof.
  assert (unique (Registry.new N)) as Hu by apply unique_new. split; [done|]. intros s r [Hr _]%entry_Ok; [|done].
  apply list_elem_of_lookup in Hr as [i [? _]%lookup_replicate]. done.
Qed.

(** One operation on the record of one service. *)
Lemma apply_to_spec s f t :
  registry_ok t → (∀ r, service_of (f r).1 = service_of r) →
  match Slots.record s t with
  | Ok r => ∃ t', Registry.apply_to s f t = (t', map_err Transition (f r).2) ∧ unique t'
            ∧ (∀ s', Slots.record s' t' = if decide (s' = s) then Ok (f r).1 else Slots.record s' t)
            ∧ ((f r).1 = r → t' = t)
  | Err e => Registry.apply_to s f t = (t, Err (Registry e))
  end.
Proof.
  intros [Hu _] Hf. unfold Registry.apply_to. pose proof (update_spec t s f Hu Hf) as H.
  destruct (Slots.record s t) as [r|e]; [|by rewrite H].
  destruct H as (t' & -> & Hu' & _ & Hr & Hsame). exists t'. done.
Qed.

Lemma control_service request r : service_of (Rec.apply_control request r).1 = service_of r.
Proof. unfold Rec.apply_control. case_decide; [done|]. by destruct (State.apply_transition _ _ _ _) as [[]|]. Qed.

Lemma event_service event r : service_of (Rec.apply_event event r).1 = service_of r.
Proof.
  unfold Rec.apply_event. case_decide; [done|]. destruct (Rec.mismatch _ _); [done|].
  by destruct (State.apply_transition _ _ _ _) as [[]|].
Qed.

#[local] Hint Resolve Z.le_refl : core.

(** What one step does to a record: it stays, and its generation never decreases. *)
Lemma reg_step_spec t t' :
  registry_ok t → reg_step t t' →
  registry_ok t' ∧ ∀ s r, Slots.record s t = Ok r → ∃ r', Slots.record s t' = Ok r' ∧ authoritative_generation r ≤ authoritative_generation r'.
Proof.
  intros Hok Hst. pose proof Hok as [Hu Hrec].
  assert (∀ s f, (∀ r, service_of (f r).1 = service_of r) →
    (∀ r, record_ok r → record_ok (f r).1 ∧ authoritative_generation r ≤ authoritative_generation (f r).1) →
    ∀ t2 out, Registry.apply_to s f t = (t2, out) → registry_ok t2 ∧
    ∀ s' r, Slots.record s' t = Ok r → ∃ r', Slots.record s' t2 = Ok r' ∧ authoritative_generation r ≤ authoritative_generation r') as Happly.
  { intros s f Hf Hf2 t2 out E. pose proof (apply_to_spec s f t Hok Hf) as H.
    destruct (Slots.record s t) as [r|e] eqn:Er; [|rewrite H in E; injection E as <- <-; by eauto].
    destruct H as (t3 & E3 & Hu3 & Hr3 & _). rewrite E3 in E. injection E as <- <-. destruct (Hrec s r Er) as [Hro Hrs].
    destruct (Hf2 r Hro) as [Hro' Hge]. split; [split; [done|]|].
    - intros s' r'. rewrite Hr3. case_decide; [|by apply Hrec]. intros [= <-]. split; [done|]. subst s'. rewrite <- Hrs. apply Hf.
    - intros s' r' Er'. rewrite Hr3. case_decide; [|by eauto]. subst s'. rewrite Er in Er'. injection Er' as <-. eauto. }
  inversion Hst as [s ? ? r E|request ? ? r E|event ? ? r E]; subst.
  - unfold Registry.declare in E. pose proof (declare_spec t s (Rec.declared s) Hu eq_refl) as H.
    destruct (Slots.declare s _ t) as [t2 [[]|]]; injection E as <- <-; [|subst; by eauto].
    destruct H as (Hu' & Hf & _ & Hr). split; [split; [done|]|].
    + intros s' r'. rewrite Hr. case_decide; [|by apply Hrec]. intros [= <-]. split; [apply declared_ok|by cbn].
    + intros s' r' Er. rewrite Hr, decide_False; [by eauto|]. intros ->. unfold Slots.record in Er. by rewrite Hf in Er.
  - eapply Happly, E; [apply control_service|]. intros r1 Hr1. pose proof (control_spec request r1 Hr1) as H.
    destruct (Rec.apply_control request r1) as [r2 [[]|]]; cbn; [|subst; by split].
    destruct H as (H1 & _ & _ & H2). split; [done|]. case_decide; lia.
  - eapply Happly, E; [apply event_service|]. intros r1 Hr1. pose proof (event_spec event r1 Hr1) as H.
    destruct (Rec.apply_event event r1) as [r2 [[]|]]; cbn; [|subst; by split]. destruct H as (H1 & _ & _ & _ & _ & H2). split; [done|lia].
Qed.

Lemma reg_run_spec t t' :
  registry_ok t → rtc reg_step t t' →
  registry_ok t' ∧ ∀ s r, Slots.record s t = Ok r → ∃ r', Slots.record s t' = Ok r' ∧ authoritative_generation r ≤ authoritative_generation r'.
Proof.
  intros Hok Hrun. induction Hrun as [t|t t1 t2 Hst _ IH]; [by eauto|].
  destruct (reg_step_spec t t1 Hok Hst) as [Hok1 H1]. destruct (IH Hok1) as [Hok2 H2]. split; [done|].
  intros s r Er. destruct (H1 s r Er) as (r1 & Er1 & ?), (H2 s r1 Er1) as (r2 & Er2 & ?). exists r2. split; [done|lia].
Qed.

(** An event that is not from the authoritative generation changes nothing. *)
Lemma event_of_other_generation t s r event :
  registry_ok t → Slots.record s t = Ok r → si_service (ev_instance event) = s →
  si_generation (ev_instance event) ≠ authoritative_generation r →
  ∃ e, Registry.apply_event event t = (t, Err e).
Proof.
  intros Hok Er Hs Hne. unfold Registry.apply_event. rewrite Hs.
  pose proof (apply_to_spec s (Rec.apply_event event) t Hok (event_service event)) as H. rewrite Er in H.
  destruct H as (t' & -> & _ & _ & Hsame). pose proof (event_spec event r (proj1 (rg_records t Hok s r Er))) as H.
  destruct (Rec.apply_event event r) as [r' [[]|e]]; cbn in *; [by destruct H as (_ & _ & _ & ? & _)|].
  subst r'. rewrite Hsame by done. by eexists.
Qed.

(** C18: Only the current instance of a service has a voice, and a replaced one never gets it
    back. In every state a registry can reach: an event is accepted only if its instance runs
    the authoritative generation of its service and is the active instance when one is known,
    and it changes the record of that service only. Records are never lost and generations
    never go back; once a service was started again, every event of an instance of the
    earlier generations is refused and leaves the whole registry as it was. *)
Theorem only_current_instance_speaks N t :
  rtc reg_step (Registry.new N) t →
  (∀ event t', Registry.apply_event event t = (t', Ok ()) →
     ∃ r r', Slots.record (si_service (ev_instance event)) t = Ok r ∧ Slots.record (si_service (ev_instance event)) t' = Ok r'
       ∧ si_generation (ev_instance event) = authoritative_generation r
       ∧ (∀ a, active_instance r = Some a → a = ev_instance event)
       ∧ authoritative_generation r' = authoritative_generation r
       ∧ ∀ s, s ≠ si_service (ev_instance event) → Slots.record s t' = Slots.record s t) ∧
  (∀ t' s r, rtc reg_step t t' → Slots.record s t = Ok r →
     ∃ r', Slots.record s t' = Ok r' ∧ authoritative_generation r ≤ authoritative_generation r' ∧
       ∀ event, si_service (ev_instance event) = s → si_generation (ev_instance event) ≤ authoritative_generation r →
                authoritative_generation r < authoritative_generation r' → ∃ e, Registry.apply_event event t' = (t', Err e)).
Proof.
  intros Hrun. destruct (reg_run_spec _ _ (new_ok N) Hrun) as [Hok _]. split.
  - intros event t' E. unfold Registry.apply_event in E. set (s := si_service (ev_instance event)) in *.
    pose proof (apply_to_spec s (Rec.apply_event event) t Hok (event_service event)) as H.
    destruct (Slots.record s t) as [r|e] eqn:Er; [|congruence]. destruct H as (t2 & E2 & _ & Hr & _). rewrite E2 in E.
    pose proof (event_spec event r (proj1 (rg_records t Hok s r Er))) as H.
    destruct (Rec.apply_event event r) as [r' [[]|e]]; cbn in *; [|congruence]. injection E as <-.
    destruct H as (_ & _ & _ & H1 & H2 & H3). exists r, r'. split_and!; [done| |done|done|done|].
    + by rewrite Hr, decide_True.
    + intros s' Hs'. by rewrite Hr, decide_False.
  - intros t' s r Hrun' Er. destruct (reg_run_spec t t' Hok Hrun') as [Hok' H]. destruct (H s r Er) as (r' & Er' & Hge).
    exists r'. split_and!; [done|done|]. intros event Hs Hg Hlt. eapply event_of_other_generation; [done|exact Er'|done|lia].
Qed.

(** Service 7 is started, reports ready, is restarted; then its first process exits. *)
Module Restarted.
Definition old : ServiceInstanceId := MkInstance 7 1 100 1.

Definition first : Tracker :=
  (Registry.apply_control (MkControl 7 Start) (Registry.declare 7 (Registry.new 2)).1).1.

Definition second : Tracker :=
  (Registry.apply_control (MkControl 7 Start)
     (Registry.apply_control (MkControl 7 Restart)
        (Registry.apply_event (MkEvent old Ready 0)
           (Registry.apply_event (MkEvent old InstanceSpawned 0) first).1).1).1).1.

Lemma reach_first : rtc reg_step (Registry.new 2) first.
Proof.
  eapply rtc_l; [eapply (reg_declare 7), surjective_pairing|].
  eapply rtc_once, (reg_control (MkControl 7 Start)), surjective_pairing.
Qed.

Lemma reach_second : rtc reg_step first second.
Proof.
  eapply rtc_l; [eapply (reg_event (MkEvent old InstanceSpawned 0)), surjective_pairing|].
  eapply rtc_l; [eapply (reg_event (MkEvent old Ready 0)), surjective_pairing|].
  eapply rtc_l; [eapply (reg_control (MkControl 7 Restart)), surjective_pairing|].
  eapply rtc_once, (reg_control (MkControl 7 Start)), surjective_pairing.
Qed.
End Restarted.

Lemma only_current_instance_speaks_witness :
  ∃ e, Registry.apply_event (MkEvent Restarted.old ExitedEvent 0) Restarted.second = (Restarted.second, Err e).
Proof.
  destruct (only_current_instance_speaks 2 Restarted.first Restarted.reach_first) as [_ H].
  destruct (H Restarted.second 7 (MkRecord 7 Starting 1 None) Restarted.reach_second ltac:(vm_compute; reflexivity))
    as (r' & Er & _ & He).
  assert (r' = MkRecord 7 Starting 2 None) as ->.
  { assert (Slots.record 7 Restarted.second = Ok (MkRecord 7 Starting 2 None)) as E by (vm_compute; reflexivity). congruence. }
  apply He; vm_compute; congruence.
Defined.
