(* ===== verification/LifecycleHealth.v ===== *)
(** Liveness and restarts (service-lifecycle/src/time.rs, health.rs, health_tracker.rs;
    supervisor/src/restart_policy.rs and the recovery slots of convergence.rs).

    A watched instance must report within a period; the tracker turns silence, exits,
    faults and self-reported trouble into failure events. The supervisor answers failures
    with a bounded number of restarts. *)

From Stdlib Require Import ZArith Lia.
From stdpp Require Import base list tactics decidable numbers.
From S2P Require Import Prelude Lifecycle.

Local Open Scope Z_scope.

(** ** Time *)

Record LivenessConfig : Type := MkLiveness { report_period_ticks : Z }.

Definition ticks_add (base delta : Z) : Z :=
  match checked_add 64 base delta with Some value => value | None => u64_max end.

Definition ticks_reached (now deadline : Z) : bool := bool_decide (deadline ≤ now).

Definition div_ceil (a b : Z) : Z := (a + b - 1) / b.

(** The products are 128-bit and cannot overflow. *)
Definition from_millis (report_period_ms tick_period_ns : Z) : LivenessConfig :=
  if decide (report_period_ms = 0) then MkLiveness 1
  else if decide (tick_period_ns = 0) then MkLiveness (Z.max report_period_ms 1)
  else
    let ticks := Z.max (div_ceil (report_period_ms * 1000000) tick_period_ns) 1 in
    MkLiveness (if decide (ticks ≤ u64_max) then ticks else u64_max).

(** ** Reports and failures *)

Inductive HealthStatus : Type := HealthUnknown | HealthOk | HealthDegraded | HealthUnhealthy.

#[export] Instance HealthStatus_eq_dec : EqDecision HealthStatus.
Proof. solve_decision. Defined.

Record HealthReport : Type := MkReport { hp_service : Z; hp_generation : Z; hp_status : HealthStatus; hp_detail_reserved : Z }.

Inductive HealthFailureReason : Type :=
  | LivenessTimeout
  | ProcessExited (status_code : Z)
  | ProcessFaulted (status_code : Z)
  | SelfReportedUnhealthy.

Record HealthFailureEvent : Type := MkFailure {
  hf_service : Z;
  hf_generation : Z;
  hf_reason : HealthFailureReason;
  observed_at : Z
}.

Inductive HealthReportOutcome : Type :=
  | AcceptedHealthy (generation : Z)
  | AcceptedDegraded (generation : Z)
  | MarkedUnhealthy (generation : Z) (reason : HealthFailureReason)
  | IgnoredStale (report_generation active_generation : Z)
  | IgnoredNoActiveInstance
  | IgnoredUnknownService.

Inductive LifecycleFailureOutcome : Type :=
  | FailureMarked (event : HealthFailureEvent)
  | FailureStale (observed active : Z)
  | FailureNoActiveInstance
  | FailureUnknownService.

Inductive WatchState : Type := Healthy | Degraded | Failed (reason : HealthFailureReason).

Record ServiceHealthRecord : Type := MkHealth {
  hr_service : Z;
  hr_active_generation : option Z;
  watch : option WatchState;
  last_report_ticks : option Z;
  deadline_ticks : option Z
}.

#[export] Instance health_has_service : HasService ServiceHealthRecord := hr_service.

Module Health.
Definition new (service : Z) : ServiceHealthRecord := MkHealth service None None None None.

Definition is_healthy (r : ServiceHealthRecord) : bool :=
  match watch r with Some Healthy | Some Degraded => true | _ => false end.

Definition failure_reason (r : ServiceHealthRecord) : option HealthFailureReason :=
  match watch r with Some (Failed reason) => Some reason | _ => None end.

Definition begin_instance (generation now : Z) (config : LivenessConfig) (r : ServiceHealthRecord) : ServiceHealthRecord :=
  MkHealth (hr_service r) (Some generation) None None (Some (ticks_add now (report_period_ticks config))).

Definition clear_active_instance (r : ServiceHealthRecord) : ServiceHealthRecord :=
  MkHealth (hr_service r) None None None None.

Definition report_counts_for_liveness (status : HealthStatus) : bool :=
  match status with HealthOk | HealthDegraded | HealthUnknown => true | HealthUnhealthy => false end.

Definition apply_report (report : HealthReport) (now : Z) (config : LivenessConfig) (r : ServiceHealthRecord) :
    ServiceHealthRecord * HealthReportOutcome :=
  if decide (hp_service report ≠ hr_service r) then (r, IgnoredUnknownService)
  else
    match hr_active_generation r with
    | None => (r, IgnoredNoActiveInstance)
    | Some active =>
        if decide (hp_generation report ≠ active) then (r, IgnoredStale (hp_generation report) active)
        else
          let seen w d := MkHealth (hr_service r) (hr_active_generation r) w (Some now) d in
          match hp_status report with
          | HealthUnhealthy =>
              (seen (Some (Failed SelfReportedUnhealthy)) None, MarkedUnhealthy active SelfReportedUnhealthy)
          | status =>
              if negb (report_counts_for_liveness status) then (seen (watch r) (deadline_ticks r), IgnoredNoActiveInstance)
              else
                let deadline := Some (ticks_add now (report_period_ticks config)) in
                match status with
                | HealthOk => (seen (Some Healthy) deadline, AcceptedHealthy active)
                | HealthDegraded => (seen (Some Degraded) deadline, AcceptedDegraded active)
                | _ => (seen (match watch r with None => Some Healthy | w => w end) deadline, AcceptedHealthy active)
                end
          end
    end.

Definition notify_lifecycle_failure (generation : Z) (kind : LifecycleEventKind) (status_code now : Z) (r : ServiceHealthRecord) :
    ServiceHealthRecord * LifecycleFailureOutcome :=
  match hr_active_generation r with
  | None => (r, FailureNoActiveInstance)
  | Some active =>
      if decide (generation ≠ active) then (r, FailureStale generation active)
      else
        match match kind with
              | ExitedEvent => Some (ProcessExited status_code)
              | FaultedEvent => Some (ProcessFaulted status_code)
              | _ => None
              end with
        | None => (r, FailureNoActiveInstance)
        | Some reason =>
            (MkHealth (hr_service r) (hr_active_generation r) (Some (Failed reason)) (last_report_ticks r) None,
             FailureMarked (MkFailure (hr_service r) active reason now))
        end
  end.

Definition poll_timeout (now : Z) (r : ServiceHealthRecord) : ServiceHealthRecord * option HealthFailureEvent :=
  match watch r, deadline_ticks r, hr_active_generation r with
  | Some (Failed _), _, _ => (r, None)
  | _, None, _ => (r, None)
  | _, Some deadline, active =>
      if negb (ticks_reached now deadline) then (r, None)
      else
        match active with
        | None => (r, None)
        | Some generation =>
            (MkHealth (hr_service r) (hr_active_generation r) (Some (Failed LivenessTimeout)) (last_report_ticks r) None,
             Some (MkFailure (hr_service r) generation LivenessTimeout now))
        end
  end.

Definition register (service : Z) (t : list (option ServiceHealthRecord)) :
    list (option ServiceHealthRecord) * result SlotError unit := Slots.declare service (new service) t.

(** [poll_timeouts]: the entries in slot order, with the events passed to [emit]. *)
Fixpoint poll_timeouts (now : Z) (t : list (option ServiceHealthRecord)) :
    list (option ServiceHealthRecord) * list HealthFailureEvent :=
  match t with
  | [] => ([], [])
  | None :: t => let '(t, events) := poll_timeouts now t in (None :: t, events)
  | Some r :: t =>
      let '(r, event) := poll_timeout now r in
      let '(t, events) := poll_timeouts now t in
      (Some r :: t, option_list event ++ events)
  end.
End Health.

(** ** Restart policy *)

Record BoundedRestart : Type := MkBounded { max_attempts : Z; backoff_base_ticks : Z }.

Inductive RestartPolicy : Type := Never | OnFailure (limits : BoundedRestart).

Inductive RestartSuppressedReason : Type := PolicyNever | RetryExhausted | DependencyBlocked.

Inductive RestartDecision : Type :=
  | Suppressed (reason : RestartSuppressedReason)
  | Scheduled (attempt not_before : Z).

Record RecoveryRuntime : Type := MkRuntime {
  policy : RestartPolicy;
  attempts : Z;
  pending : bool;
  not_before : Z;
  failed_pid : option Z
}.

Definition saturating_add32 (a b : Z) : Z := match checked_add 32 a b with Some v => v | None => u32_max end.

Module Recovery.
Definition new (p : RestartPolicy) : RecoveryRuntime := MkRuntime p 0 false 0 None.

Definition on_failure (pid : option Z) (now : Z) (r : RecoveryRuntime) : RecoveryRuntime * RestartDecision :=
  match policy r with
  | Never => (MkRuntime (policy r) (attempts r) false (not_before r) pid, Suppressed PolicyNever)
  | OnFailure limits =>
      if decide (max_attempts limits ≤ attempts r)
      then (MkRuntime (policy r) (attempts r) false (not_before r) pid, Suppressed RetryExhausted)
      else
        let next_attempt := saturating_add32 (attempts r) 1 in
        let delay := match checked_mul 64 (backoff_base_ticks limits) (saturating_sub next_attempt 1) with
                     | Some v => v
                     | None => u64_max
                     end in
        let at_ := ticks_add now delay in
        (MkRuntime (policy r) (attempts r) true at_ pid, Scheduled next_attempt at_)
  end.

Definition clear_pending_after_attempt (r : RecoveryRuntime) : RecoveryRuntime :=
  MkRuntime (policy r) (attempts r) false (not_before r) (failed_pid r).

Definition record_attempt_started (attempt : Z) (r : RecoveryRuntime) : RecoveryRuntime :=
  MkRuntime (policy r) attempt (pending r) (not_before r) (failed_pid r).

Definition on_healthy_instance (r : RecoveryRuntime) : RecoveryRuntime := MkRuntime (policy r) 0 false 0 None.

Definition suppress_dependency_blocked (r : RecoveryRuntime) : RecoveryRuntime * RestartDecision := (r, Suppressed DependencyBlocked).

Definition set_policy (p : RestartPolicy) (r : RecoveryRuntime) : RecoveryRuntime :=
  MkRuntime p (attempts r) (pending r) (not_before r) (failed_pid r).
End Recovery.

(** The supervisor's slot for a service, and what each of its paths does to it. *)
Record RecoverySlot : Type := MkSlot {
  rs_service : Z;
  runtime : RecoveryRuntime;
  scheduled_attempt : Z;
  restart_old_pid : option Z;
  last_healthy_gen_emitted : Z;
  healthy_reports_since_spawn : Z
}.

Definition STABLE_HEALTH_REPORTS_REQUIRED : Z := 2.

Module Recover.
Definition register (service : Z) (p : RestartPolicy) : RecoverySlot := MkSlot service (Recovery.new p) 0 None 0 0.

(** [on_health_failure]: the decision and the attempt it schedules. *)
Definition fail (pid : option Z) (now : Z) (s : RecoverySlot) : RecoverySlot * RestartDecision :=
  let '(rt, decision) := Recovery.on_failure pid now (runtime s) in
  let scheduled := match decision with Suppressed _ => scheduled_attempt s | Scheduled attempt _ => attempt end in
  (MkSlot (rs_service s) rt scheduled (restart_old_pid s) (last_healthy_gen_emitted s) (healthy_reports_since_spawn s), decision).

(** The guard of [drive_pending_restarts]. *)
Definition due (now : Z) (s : RecoverySlot) : bool := pending (runtime s) && ticks_reached now (not_before (runtime s)).

(** [try_execute_restart], once the dependencies are ready. *)
Definition attempt (n : Z) (s : RecoverySlot) : RecoverySlot :=
  let old_pid := default 0 (failed_pid (runtime s)) in
  let rt := Recovery.clear_pending_after_attempt (Recovery.record_attempt_started n (runtime s)) in
  MkSlot (rs_service s) rt (scheduled_attempt s) (Some old_pid) (last_healthy_gen_emitted s) (healthy_reports_since_spawn s).

(** An accepted health report. *)
Definition report (s : RecoverySlot) : RecoverySlot :=
  let n := saturating_add32 (healthy_reports_since_spawn s) 1 in
  if decide (STABLE_HEALTH_REPORTS_REQUIRED ≤ n)
  then MkSlot (rs_service s) (Recovery.on_healthy_instance (runtime s)) 0 (restart_old_pid s) (last_healthy_gen_emitted s) n
  else MkSlot (rs_service s) (runtime s) (scheduled_attempt s) (restart_old_pid s) (last_healthy_gen_emitted s) n.

(** A spawned instance, and an exit or a fault, before it counts as a failure. *)
Definition spawned (s : RecoverySlot) : RecoverySlot :=
  MkSlot (rs_service s) (runtime s) (scheduled_attempt s) None (last_healthy_gen_emitted s) 0.

Definition ended (s : RecoverySlot) : RecoverySlot :=
  MkSlot (rs_service s) (runtime s) (scheduled_attempt s) (restart_old_pid s) (last_healthy_gen_emitted s) 0.
End Recover.

(** * Failure detection is exact *)

(** What the tracker observes of one service. *)
Inductive Action : Type :=
  | Begin (generation now : Z)
  | Clear
  | Report (report : HealthReport) (now : Z)
  | LifecycleFailure (generation : Z) (kind : LifecycleEventKind) (status_code now : Z)
  | Poll (now : Z).

(** The failure events it raises; a report that marks the instance unhealthy is turned
    into an event by the supervisor. *)
Definition act (config : LivenessConfig) (a : Action) (r : ServiceHealthRecord) : ServiceHealthRecord * list HealthFailureEvent :=
  match a with
  | Begin generation now => (Health.begin_instance generation now config r, [])
  | Clear => (Health.clear_active_instance r, [])
  | Report report now =>
      match Health.apply_report report now config r with
      | (r, MarkedUnhealthy _ reason) => (r, [MkFailure (hp_service report) (hp_generation report) reason now])
      | (r, _) => (r, [])
      end
  | LifecycleFailure generation kind code now =>
      match Health.notify_lifecycle_failure generation kind code now r with
      | (r, FailureMarked event) => (r, [event])
      | (r, _) => (r, [])
      end
  | Poll now => let '(r, event) := Health.poll_timeout now r in (r, option_list event)
  end.

(** The reference: an instance is alive since its last sign of life, or dead. *)
Inductive Watch : Type := Idle | Alive (generation last : Z) | Dead (generation : Z).

Definition observe (period service : Z) (a : Action) (w : Watch) : Watch * list HealthFailureEvent :=
  match a, w with
  | Begin generation now, _ => (Alive generation now, [])
  | Clear, _ => (Idle, [])
  | _, Idle => (Idle, [])
  | Report (MkReport s g status _) now, (Alive g' _ | Dead g') =>
      if decide (s = service ∧ g = g') then
        match status, w with
        | HealthUnhealthy, _ => (Dead g', [MkFailure service g' SelfReportedUnhealthy now])
        | HealthUnknown, Dead _ => (w, [])
        | _, _ => (Alive g' now, [])
        end
      else (w, [])
  | LifecycleFailure g kind code now, (Alive g' _ | Dead g') =>
      if decide (g = g') then
        match kind with
        | ExitedEvent => (Dead g', [MkFailure service g' (ProcessExited code) now])
        | FaultedEvent => (Dead g', [MkFailure service g' (ProcessFaulted code) now])
        | _ => (w, [])
        end
      else (w, [])
  | Poll now, Alive g' last =>
      if decide (Z.min (last + period) u64_max ≤ now) then (Dead g', [MkFailure service g' LivenessTimeout now]) else (w, [])
  | Poll _, Dead _ => (w, [])
  end.

(** Feeding a list of actions to either machine. *)
Fixpoint play {S : Type} (step : Action → S → S * list HealthFailureEvent) (actions : list Action) (s : S) :
    S * list HealthFailureEvent :=
  match actions with
  | [] => (s, [])
  | a :: actions =>
      let '(s, events) := step a s in
      let '(s, rest) := play step actions s in (s, events ++ rest)
  end.

Definition watches (config : LivenessConfig) (service : Z) (w : Watch) (r : ServiceHealthRecord) : Prop :=
  hr_service r = service ∧
  match w with
  | Idle => hr_active_generation r = None ∧ deadline_ticks r = None ∧ Health.failure_reason r = None
  | Alive g last => hr_active_generation r = Some g ∧ Health.failure_reason r = None
                    ∧ deadline_ticks r = Some (Z.min (last + report_period_ticks config) u64_max)
  | Dead g => hr_active_generation r = Some g ∧ is_Some (Health.failure_reason r)
  end.

Lemma ticks_add_min a b : ticks_add a b = Z.min (a + b) u64_max.
Proof. unfold ticks_add, checked_add. change u64_max with (2 ^ 64 - 1). case_decide; lia. Qed.

Lemma act_observe config service a w r :
  watches config service w r →
  watches config service (observe (report_period_ticks config) service a w).1 (act config a r).1
  ∧ (act config a r).2 = (observe (report_period_ticks config) service a w).2.
Proof.
  intros [Hs Hw]. destruct r as [rs ra rw rl rd]. cbn in Hs. subst rs. unfold watches, Health.failure_reason in *. cbn in Hw.
  destruct a as [g now| |[s g status d] now|g kind code now|now]; cbn -[u64_max].
  - rewrite ticks_add_min. by destruct w.
  - by destruct w.
  - destruct w as [|g' last|g']; destruct Hw as (-> & Hw); unfold Health.apply_report; cbn -[u64_max].
    + case_decide; cbn; [by split|]. by split.
    + destruct (decide (s ≠ service)) as [E|E]; cbn -[u64_max]; [rewrite decide_False by tauto; by split|].
      destruct (decide (g ≠ g')) as [E'|E']; cbn -[u64_max]; [rewrite decide_False by tauto; by split|].
      apply dec_stable in E, E'. subst. rewrite decide_True by done. destruct status; cbn -[u64_max]; rewrite ?ticks_add_min; try by eauto 10.
      destruct rw as [[]|]; cbn in *; try by eauto 10. by destruct Hw.
    + destruct (decide (s ≠ service)) as [E|E]; cbn -[u64_max]; [rewrite decide_False by tauto; by split|].
      destruct (decide (g ≠ g')) as [E'|E']; cbn -[u64_max]; [rewrite decide_False by tauto; by split|].
      apply dec_stable in E, E'. subst. rewrite decide_True by done. destruct status; cbn -[u64_max]; rewrite ?ticks_add_min; try by eauto 10.
      destruct rw as [[]|]; cbn in *; try by eauto 10; by destruct Hw.
  - destruct w as [|g' last|g']; destruct Hw as (-> & Hw); unfold Health.notify_lifecycle_failure; cbn -[u64_max]; [by split| |];
      (destruct (decide (g ≠ g')) as [E'|E']; cbn -[u64_max]; [rewrite decide_False by tauto; by split|]);
      apply dec_stable in E'; subst; rewrite decide_True by done; destruct kind; cbn -[u64_max]; by eauto 10.
  - destruct w as [|g' last|g']; destruct Hw as (-> & Hw); unfold Health.poll_timeout; cbn -[u64_max].
    + destruct Hw as [-> Hw]. by destruct rw as [[]|].
    + destruct Hw as [Hw ->]. unfold ticks_reached. destruct rw as [[]|]; cbn -[u64_max] in *; try done;
        (destruct (decide (Z.min (last + report_period_ticks config) u64_max ≤ now)) as [E|E];
         [rewrite bool_decide_eq_true_2 by done|rewrite bool_decide_eq_false_2 by done]); cbn -[u64_max]; by eauto 10.
    + destruct rw as [[]|]; cbn in *; try (by destruct Hw).
Qed.

Lemma play_observe config service actions w r :
  watches config service w r →
  let '(r', events) := play (act config) actions r in
  let '(w', expected) := play (observe (report_period_ticks config) service) actions w in
  events = expected ∧ watches config service w' r'.
Proof.
  revert w r. induction actions as [|a actions IH]; intros w r Hw; [done|]. cbn [play].
  destruct (act_observe config service a w r Hw) as [H1 H2].
  destruct (act config a r) as [r1 e1], (observe _ service a w) as [w1 x1]. cbn in H1, H2. subst x1.
  specialize (IH w1 r1 H1). destruct (play (act config) actions r1), (play (observe _ _) actions w1).
  destruct IH as [-> ?]. done.
Qed.

(** C21: Failure detection is exact. Whatever instances begin, report, exit, fault and are
    polled, in any order and at any times, the health record of a service raises exactly the
    failures of the reference machine: a timeout at the first poll that comes a full period
    after the last sign of life, once; an exit, a fault or a self-reported failure of the
    watched generation; nothing for other services and other generations. *)
Theorem failure_detection_exact config service actions :
  let '(r, events) := play (act config) actions (Health.new service) in
  let '(w, expected) := play (observe (report_period_ticks config) service) actions Idle in
  events = expected ∧ watches config service w r.
Proof. apply play_observe. by split. Qed.

(** * Restarts are bounded *)

(** What happens to the recovery slot of a service. [Drive now ready] is a visit of
    [drive_pending_restarts]; [ready] says whether the dependencies let the restart happen. *)
Inductive SlotOp : Type :=
  | Fail (pid : option Z) (now : Z)
  | Drive (now : Z) (ready : bool)
  | Reported
  | Spawned
  | Ended.

(** The slot, the restarts since it was last declared stable, and when it last failed. *)
Record History : Type := MkHistory { slot : RecoverySlot; restarts : Z; last_failure : Z }.

Definition live (op : SlotOp) (h : History) : History * bool :=
  match op with
  | Fail pid now => (MkHistory (Recover.fail pid now (slot h)).1 (restarts h) now, false)
  | Drive now ready =>
      if Recover.due now (slot h) && ready
      then (MkHistory (Recover.attempt (scheduled_attempt (slot h)) (slot h)) (restarts h + 1) (last_failure h), true)
      else (h, false)
  | Reported =>
      let stable := bool_decide (STABLE_HEALTH_REPORTS_REQUIRED ≤ saturating_add32 (healthy_reports_since_spawn (slot h)) 1) in
      (MkHistory (Recover.report (slot h)) (if stable then 0 else restarts h) (last_failure h), false)
  | Spawned => (MkHistory (Recover.spawned (slot h)) (restarts h) (last_failure h), false)
  | Ended => (MkHistory (Recover.ended (slot h)) (restarts h) (last_failure h), false)
  end.

Definition live_all (ops : list SlotOp) (h : History) : History := foldl (λ h op, (live op h).1) h ops.

Definition limit (p : RestartPolicy) : Z := match p with Never => 0 | OnFailure limits => max_attempts limits end.
Definition backoff (p : RestartPolicy) (k : Z) : Z :=
  match p with Never => 0 | OnFailure limits => Z.min (backoff_base_ticks limits * k) u64_max end.

Record slot_inv (p : RestartPolicy) (h : History) : Prop := {
  sv_policy : policy (runtime (slot h)) = p;
  sv_count : attempts (runtime (slot h)) = restarts h;
  sv_bound : 0 ≤ restarts h ≤ limit p;
  sv_pending : pending (runtime (slot h)) = true →
    restarts h < limit p ∧ scheduled_attempt (slot h) = restarts h + 1
    ∧ not_before (runtime (slot h)) = ticks_add (last_failure h) (backoff p (restarts h))
}.

Lemma live_inv p op h : in_width 32 (limit p) → slot_inv p h → slot_inv p (live op h).1.
Proof.
  intros Hw Hi. pose proof Hi as [Hp Hc Hb Hn]. destruct op as [pid now|now ready| | |]; cbn [live].
  - unfold Recover.fail, Recovery.on_failure. rewrite Hp, Hc. destruct p as [|lim]; [by split|].
    cbn [limit] in *. case_decide as Hmax; [by split|]. unfold saturating_add32, checked_add, in_width in *. rewrite decide_True by lia.
    assert (saturating_sub (restarts h + 1) 1 = restarts h) as -> by (unfold saturating_sub; lia).
    split; cbn -[u64_max ticks_add]; [done|done|lia|]. intros _. split_and!; [lia|done|].
    unfold checked_mul. change u64_max with (2 ^ 64 - 1). f_equal. case_decide; lia.
  - unfold Recover.due. destruct (pending (runtime (slot h))) eqn:Epend; [|done]. destruct (Hn eq_refl) as (H1 & H2 & H3).
    destruct (ticks_reached _ _), ready; try done. split; cbn; [done|lia|lia|done].
  - unfold Recover.report. destruct (decide (STABLE_HEALTH_REPORTS_REQUIRED ≤ _)) as [E|E].
    + rewrite bool_decide_eq_true_2 by done. split; cbn; [done|done|unfold in_width in *; lia|done].
    + rewrite bool_decide_eq_false_2 by done. by split.
  - by split.
  - by split.
Qed.

(** A crash loop ends. Under a bounded policy a service is restarted at most
    [max_attempts] times before it is declared stable again, whatever fails, reports and
    polls come in which order; under [Never] it is never restarted. And the restart after
    [k] others comes no earlier than [k] times the backoff after the last failure, computed
    without wrap-around. *)
Theorem crash_loop_bounded service p ops :
  in_width 32 (limit p) →
  let h := live_all ops (MkHistory (Recover.register service p) 0 0) in
  0 ≤ restarts h ≤ limit p ∧ attempts (runtime (slot h)) = restarts h ∧
  ∀ now ready h', live (Drive now ready) h = (h', true) →
    restarts h < limit p ∧ restarts h' = restarts h + 1 ∧ ticks_add (last_failure h) (backoff p (restarts h)) ≤ now.
Proof.
  intros Hw h. assert (slot_inv p h) as [Hp Hc Hb Hn].
  { unfold h, live_all. assert (slot_inv p (MkHistory (Recover.register service p) 0 0)) as H0 by (split; cbn; [done|done|unfold in_width in Hw; lia|done]).
    revert H0. generalize (MkHistory (Recover.register service p) 0 0). induction ops as [|op ops IH]; intros h0 H0; [done|].
    cbn [foldl]. by apply IH, live_inv. }
  split_and!; [lia|lia|done|]. intros now ready h'. cbn [live]. unfold Recover.due, ticks_reached.
  destruct (pending (runtime (slot h))); [|done]. destruct (Hn eq_refl) as (H1 & H2 & <-). cbn [andb].
  case_bool_decide; [|done]. destruct ready; [|done]. intros [= <-]. done.
Qed.

(** Three failures against a budget of two. *)
Lemma crash_loop_bounded_witness :
  let p := OnFailure (MkBounded 2 10) in
  let h := live_all [Fail (Some 1) 5; Drive 5 true; Spawned; Fail (Some 2) 6; Drive 15 true; Drive 16 true; Fail (Some 3) 20; Drive 99 true]
             (MkHistory (Recover.register 7 p) 0 0) in
  restarts h = 2 ∧ 0 ≤ restarts h ≤ limit p.
Proof.
  intros p h. split; [vm_compute; reflexivity|].
  exact (proj1 (crash_loop_bounded 7 p _ ltac:(vm_compute; split; congruence))).
Defined.
