(* ===== verification/LifecycleDeps.v ===== *)
(** Dependencies between services (service-lifecycle/src/dependency.rs,
    dependency_graph.rs): declaring them, keeping the graph free of cycles, and deciding
    whether a service may start. *)

From Stdlib Require Import ZArith Lia.
From stdpp Require Import base list tactics decidable numbers relations.
From S2P Require Import Prelude Lifecycle LifecycleHealth.

Local Open Scope Z_scope.

Definition MAX_INLINE_DEPENDENCIES : nat := 4.
Definition MAX_DEPENDENCY_WALK_DEPTH : nat := 32.
Definition DEFAULT_REQUIRED_DEPENDENCY_STATE : ServiceLifecycleState := Running.

Record DependencyEdge : Type := MkEdge { depends_on : Z; required_state : ServiceLifecycleState }.

(** The array of four edges with its count. *)
Record DependencyMetadata : Type := MkMeta { dm_service : Z; edges : list DependencyEdge; edge_count : Z }.

#[export] Instance metadata_has_service : HasService DependencyMetadata := dm_service.

Inductive DependencyGraphError : Type :=
  | GraphUnknownService
  | GraphDuplicateService
  | GraphCapacityExceeded
  | UnknownDependency (service depends_on : Z)
  | SelfDependency (service : Z)
  | DuplicateDependencyEdge (service depends_on : Z)
  | CycleDetected (service : Z)
  | EdgeCapacityExceeded (service : Z).

Inductive StartBlockReason : Type :=
  | DependencyNotReady (dependency : Z) (observed required : ServiceLifecycleState)
  | DependencyFailed (dependency : Z) (observed : ServiceLifecycleState)
  | DependencyUnhealthy (dependency : Z) (observed : HealthStatus).

Inductive StartReadiness : Type := ReadyToStart | Blocked (reason : StartBlockReason).

Abbreviation Graph := (list (option DependencyMetadata)).

(** ** Metadata *)

Module Meta.
Definition empty (service : Z) : DependencyMetadata :=
  MkMeta service (replicate MAX_INLINE_DEPENDENCIES (MkEdge 0 Declared)) 0.

Definition push_edge (edge : DependencyEdge) (m : DependencyMetadata) : DependencyMetadata * bool :=
  if decide (Z.of_nat MAX_INLINE_DEPENDENCIES ≤ edge_count m) then (m, false)
  else (MkMeta (dm_service m) (<[Z.to_nat (edge_count m) := edge]> (edges m)) (edge_count m + 1), true).

Definition metadata_edges (m : DependencyMetadata) : list DependencyEdge := take (Z.to_nat (edge_count m)) (edges m).

Definition single_dependency (service depends_on : Z) (required_state : ServiceLifecycleState) : DependencyMetadata :=
  (push_edge (MkEdge depends_on required_state) (empty service)).1.

Definition validate_metadata_shape (m : DependencyMetadata) : result DependencyGraphError unit :=
  if decide (Z.of_nat MAX_INLINE_DEPENDENCIES < edge_count m) then Err (EdgeCapacityExceeded (dm_service m))
  else if existsb (λ e, bool_decide (depends_on e = dm_service m)) (metadata_edges m) then Err (SelfDependency (dm_service m))
  else
    result_map (λ _, ())
      (try_fold (λ e seen, if decide (depends_on e ∈ seen) then Err (DuplicateDependencyEdge (dm_service m) (depends_on e))
                           else Ok (seen ++ [depends_on e])) (metadata_edges m) []).
End Meta.

(** ** Health snapshots *)

Record DependencyHealthSnapshot : Type := MkSnapshot { entries : list (Z * HealthStatus); count : nat }.

Module Snapshot.
Definition empty (N : nat) : DependencyHealthSnapshot := MkSnapshot (replicate N (0, HealthUnknown)) 0.

Definition set (service : Z) (status : HealthStatus) (s : DependencyHealthSnapshot) :
    DependencyHealthSnapshot * result DependencyGraphError unit :=
  match position (λ e, bool_decide (e.1 = service)) (entries s) with
  | Some index => (MkSnapshot (alter (λ e, (e.1, status)) index (entries s)) (count s), Ok ())
  | None =>
      if decide (length (entries s) ≤ count s)%nat then (s, Err GraphCapacityExceeded)
      else (MkSnapshot (<[count s := (service, status)]> (entries s)) (S (count s)), Ok ())
  end.

Definition status (service : Z) (s : DependencyHealthSnapshot) : option HealthStatus :=
  snd <$> find_first (λ e, bool_decide (e.1 = service)) (take (count s) (entries s)).
End Snapshot.

(** ** Readiness of one edge *)

Definition lifecycle_state_satisfies (actual required : ServiceLifecycleState) : bool :=
  match required with
  | Declared => true
  | Starting => match actual with Starting | Running | Stopping => true | _ => false end
  | Running => bool_decide (actual = Running)
  | Stopping => match actual with Stopping | Running => true | _ => false end
  | Exited | Faulted => false
  | RestartPending => match actual with RestartPending | Starting | Running => true | _ => false end
  end.

Definition edge_blocks_start (edge : DependencyEdge) (record : ServiceLifecycleRecord)
    (health : option DependencyHealthSnapshot) : option StartBlockReason :=
  let dependency := depends_on edge in
  let observed := lr_state record in
  if decide (observed = Exited ∨ observed = Faulted) then Some (DependencyFailed dependency observed)
  else if negb (lifecycle_state_satisfies observed (required_state edge))
  then Some (DependencyNotReady dependency observed (required_state edge))
  else
    match health with
    | Some snapshot =>
        if decide (Snapshot.status dependency snapshot = Some HealthUnhealthy)
        then Some (DependencyUnhealthy dependency HealthUnhealthy) else None
    | None => None
    end.

(** ** The graph *)

Module Graph.
Definition new (N : nat) : Graph := replicate N None.

Definition slot_error (e : SlotError) : DependencyGraphError :=
  match e with
  | DuplicateService => GraphDuplicateService
  | UnknownService => GraphUnknownService
  | CapacityExceeded => GraphCapacityExceeded
  end.

Definition declare (service : Z) (g : Graph) : Graph * result DependencyGraphError unit :=
  let '(g, r) := Slots.declare service (Meta.empty service) g in (g, map_err slot_error r).

Definition find_metadata (service : Z) (g : Graph) : option DependencyMetadata :=
  match find_first (Slots.holds service) g with Some entry => entry | None => None end.

(** The walk; [fuel] is [MAX_DEPENDENCY_WALK_DEPTH - depth]. *)
Fixpoint dependency_path_reaches (fuel : nat) (current target : Z) (g : Graph) : bool :=
  if decide (current = target) then true
  else
    match fuel with
    | O => false
    | S fuel =>
        match find_metadata current g with
        | None => false
        | Some m => existsb (λ e, dependency_path_reaches fuel (depends_on e) target g) (Meta.metadata_edges m)
        end
    end.

Definition detect_cycle_involving (service : Z) (g : Graph) : bool :=
  match find_metadata service g with
  | None => false
  | Some m => existsb (λ e, dependency_path_reaches MAX_DEPENDENCY_WALK_DEPTH (depends_on e) service g) (Meta.metadata_edges m)
  end.

Definition set_dependencies (m : DependencyMetadata) (g : Graph) : Graph * result DependencyGraphError unit :=
  match Slots.find (dm_service m) g with
  | None => (g, Err GraphUnknownService)
  | Some index =>
      match Meta.validate_metadata_shape m with
      | Err e => (g, Err e)
      | Ok _ =>
          match find_first (λ e, match Slots.find (depends_on e) g with None => true | Some _ => false end) (Meta.metadata_edges m) with
          | Some edge => (g, Err (UnknownDependency (dm_service m) (depends_on edge)))
          | None =>
              let g' := <[index := Some m]> g in
              if detect_cycle_involving (dm_service m) g' then (g, Err (CycleDetected (dm_service m))) else (g', Ok ())
          end
      end
  end.

Definition metadata (service : Z) (g : Graph) : option DependencyMetadata :=
  match Slots.find service g with
  | Some index => match g !! index with Some entry => entry | None => None end
  | None => None
  end.

Definition has_dependencies (service : Z) (g : Graph) : bool :=
  match metadata service g with Some m => bool_decide (0 < edge_count m) | None => false end.

Fixpoint first_block (service : Z) (lifecycle : Tracker) (health : option DependencyHealthSnapshot)
    (es : list DependencyEdge) : result DependencyGraphError StartReadiness :=
  match es with
  | [] => Ok ReadyToStart
  | edge :: es =>
      match Slots.record (depends_on edge) lifecycle with
      | Err _ => Err (UnknownDependency service (depends_on edge))
      | Ok record =>
          match edge_blocks_start edge record health with
          | Some reason => Ok (Blocked reason)
          | None => first_block service lifecycle health es
          end
      end
  end.

Definition evaluate_start_readiness (service : Z) (lifecycle : Tracker) (health : option DependencyHealthSnapshot) (g : Graph) :
    result DependencyGraphError StartReadiness :=
  let? m := ok_or (metadata service g) GraphUnknownService in
  first_block service lifecycle health (Meta.metadata_edges m).
End Graph.

(** * The graph stays acyclic *)

Implicit Types (g : Graph) (m : DependencyMetadata).

Definition known g (s : Z) : Prop := ∃ m, Slots.record s g = Ok m.

(** Service [a] depends on service [b]. *)
Definition dep g (a b : Z) : Prop := ∃ m e, Slots.record a g = Ok m ∧ e ∈ Meta.metadata_edges m ∧ depends_on e = b.

Definition acyclic g : Prop := ∀ s, ¬ tc (dep g) s s.

Lemma find_metadata_record s g :
  unique g → Graph.find_metadata s g = match Slots.record s g with Ok m => Some m | Err _ => None end.
Proof.
  intros Hu. unfold Graph.find_metadata. destruct (find_first _ g) as [e|] eqn:Ef.
  - apply find_first_Some in Ef as [Hin (m & -> & Hm)%holds_true]. by rewrite (proj2 (entry_Ok g s m Hu)).
  - rewrite find_first_None in Ef. destruct (Slots.record s g) as [m|] eqn:Er; [|done].
    apply entry_Ok in Er as [Hin Hm]; [|done]. specialize (Ef _ Hin). apply not_true_iff_false in Ef. exfalso. apply Ef, holds_true. eauto.
Qed.

Lemma metadata_record s g :
  unique g → Graph.metadata s g = match Slots.record s g with Ok m => Some m | Err _ => None end.
Proof.
  intros Hu. unfold Graph.metadata, Slots.record. destruct (Slots.find s g) as [i|] eqn:Ef; [|done].
  apply find_Some in Ef as (m & Hi & _); [|done]. cbn. by rewrite Hi.
Qed.

(** ** Walks *)

Inductive walk g : list Z → Prop :=
  | walk_one s : walk g [s]
  | walk_cons a b l : dep g a b → walk g (b :: l) → walk g (a :: b :: l).

Lemma walk_suffix g l1 a l2 : walk g (l1 ++ a :: l2) → walk g (a :: l2).
Proof.
  induction l1 as [|x l1 IH]; cbn; [done|]. intros Hw. apply IH.
  destruct l1; by inversion Hw.
Qed.

Lemma last_suffix {A : Type} (l1 : list A) a l2 : last (l1 ++ a :: l2) = last (a :: l2).
Proof. by rewrite last_app_cons. Qed.

(** Every path has one that visits no service twice. *)
Lemma simple_path g a b : rtc (dep g) a b → ∃ l, walk g (a :: l) ∧ last (a :: l) = Some b ∧ NoDup (a :: l).
Proof.
  induction 1 as [a|a c b Hac _ (l & Hw & Hl & Hnd)].
  - exists []. split_and!; [constructor|done|apply NoDup_singleton].
  - destruct (decide (a ∈ c :: l)) as [Hin|Hn].
    + apply list_elem_of_split in Hin as (l1 & l2 & E). exists l2. rewrite E in Hw, Hl, Hnd. split_and!.
      * by eapply walk_suffix.
      * by rewrite last_suffix in Hl.
      * by apply NoDup_app in Hnd as (_ & _ & ?).
    + exists (c :: l). split_and!; [by constructor|done|by apply NoDup_cons].
Qed.

(** A walk visits declared services, the last one apart. *)
Lemma walk_known g l s : walk g l → s ∈ l → known g s ∨ last l = Some s.
Proof.
  induction 1 as [x|a b l (m & e & Hr & _) Hw IH].
  - intros ->%list_elem_of_singleton. by right.
  - intros [->|Hin]%elem_of_cons; [left; by exists m|]. destruct (IH Hin); [by left|right; done].
Qed.

Lemma known_elem g s : unique g → known g s → s ∈ omap (λ e, service_of <$> e) g.
Proof.
  intros Hu [m [Hin Hs]%entry_Ok]; [|done]. apply list_elem_of_omap. exists (Some m). cbn. by rewrite Hs.
Qed.

Lemma length_omap_le {A B : Type} (f : A → option B) l : (length (omap f l) ≤ length l)%nat.
Proof. induction l as [|x l IH]; cbn; [lia|]. destruct (f x); cbn; lia. Qed.

Lemma simple_path_short g l s : unique g → walk g l → last l = Some s → known g s → NoDup l → (length l ≤ length g)%nat.
Proof.
  intros Hu Hw Hl Hs Hnd. transitivity (length (omap (λ e : option DependencyMetadata, service_of <$> e) g)); [|apply length_omap_le].
  apply submseteq_length, NoDup_submseteq; [done|]. intros x Hx. apply known_elem; [done|].
  destruct (walk_known g l x Hw Hx) as [|E]; [done|]. congruence.
Qed.

(** ** The bounded walk of the code *)

Lemma reaches_sound fuel a b g : unique g → Graph.dependency_path_reaches fuel a b g = true → rtc (dep g) a b.
Proof.
  intros Hu. revert a. induction fuel as [|fuel IH]; intros a; cbn [Graph.dependency_path_reaches]; (case_decide; [by subst|]); [done|].
  rewrite find_metadata_record by done. destruct (Slots.record a g) as [m|] eqn:Er; [|done].
  rewrite existsb_exists. intros (e & He & Hr). eapply rtc_l; [|by apply IH]. exists m, e. split_and!; [done| |done]. by apply list_elem_of_In.
Qed.

Lemma reaches_complete fuel g l a b :
  unique g → walk g (a :: l) → last (a :: l) = Some b → (length l ≤ fuel)%nat → Graph.dependency_path_reaches fuel a b g = true.
Proof.
  intros Hu. revert fuel a. induction l as [|c l IH]; intros fuel a Hw Hl Hf.
  - injection Hl as ->. destruct fuel; cbn [Graph.dependency_path_reaches]; by rewrite decide_True.
  - destruct fuel as [|fuel]; [cbn in Hf; lia|]. cbn [Graph.dependency_path_reaches]. case_decide; [done|].
    inversion Hw as [|? ? ? (m & e & Er & He & <-) Hw']; subst. rewrite find_metadata_record, Er by done.
    apply existsb_exists. exists e. split; [by apply list_elem_of_In|]. apply IH; [done|done|cbn in Hf; lia].
Qed.

(** On graphs of up to 33 services the depth bound is no restriction. *)
Lemma detect_cycle_exact s g :
  unique g → (length g ≤ S MAX_DEPENDENCY_WALK_DEPTH)%nat → Graph.detect_cycle_involving s g = true ↔ tc (dep g) s s.
Proof.
  intros Hu Hlen. unfold Graph.detect_cycle_involving. rewrite find_metadata_record by done. split.
  - destruct (Slots.record s g) as [m|] eqn:Er; [|done]. rewrite existsb_exists. intros (e & He & Hr).
    eapply tc_rtc_r; [apply tc_once; exists m, e; split_and!; [done|by apply list_elem_of_In|done]|]. by eapply reaches_sound.
  - intros Htc. assert (∃ c, dep g s c ∧ rtc (dep g) c s) as (c & (m & e & Er & He & <-) & Hr).
    { inversion Htc; subst; eauto using tc_rtc, rtc_refl. }
    rewrite Er. apply existsb_exists. exists e. split; [by apply list_elem_of_In|].
    destruct (simple_path g _ _ Hr) as (l & Hw & Hl & Hnd). eapply reaches_complete; [done|done|done|].
    pose proof (simple_path_short g _ s Hu Hw Hl ltac:(by exists m) Hnd) as Hle. cbn in Hle. lia.
Qed.

(** ** What is accepted *)

Record shape_ok m : Prop := {
  sh_count : edge_count m ≤ Z.of_nat MAX_INLINE_DEPENDENCIES;
  sh_self : ∀ e, e ∈ Meta.metadata_edges m → depends_on e ≠ dm_service m;
  sh_nodup : NoDup (depends_on <$> Meta.metadata_edges m)
}.

Lemma duplicates_spec s es seen :
  NoDup seen →
  match try_fold (λ e seen, if decide (depends_on e ∈ seen) then Err (DuplicateDependencyEdge s (depends_on e))
                            else Ok (seen ++ [depends_on e])) es seen with
  | Ok _ => NoDup (seen ++ (depends_on <$> es))
  | Err _ => ¬ NoDup (seen ++ (depends_on <$> es))
  end.
Proof.
  revert seen. induction es as [|e es IH]; intros seen Hs; cbn [try_fold fmap list_fmap]; [by rewrite app_nil_r|].
  case_decide as Hin.
  - intros (_ & Hd & _)%NoDup_app. apply (Hd _ Hin). by left.
  - specialize (IH (seen ++ [depends_on e])). rewrite <- app_assoc in IH. apply IH.
    apply NoDup_app. split_and!; [done| |apply NoDup_singleton]. by intros x Hx ->%list_elem_of_singleton.
Qed.

Lemma validate_shape_spec m : match Meta.validate_metadata_shape m with Ok _ => shape_ok m | Err _ => ¬ shape_ok m end.
Proof.
  unfold Meta.validate_metadata_shape. case_decide; [intros []; lia|].
  destruct (existsb _ _) eqn:Ex.
  - apply existsb_exists in Ex as (e & He & Hs). apply bool_decide_eq_true in Hs. intros [_ Hself _].
    apply (Hself e); [by apply list_elem_of_In|done].
  - pose proof (duplicates_spec (dm_service m) (Meta.metadata_edges m) [] (NoDup_nil_2)) as Hd.
    destruct (try_fold _ _ _); cbn in *; [|by intros []]. split; [lia| |done]. intros e He Hs.
    assert (existsb (λ e, bool_decide (depends_on e = dm_service m)) (Meta.metadata_edges m) = true) as E; [|congruence].
    apply existsb_exists. exists e. split; [by apply list_elem_of_In|by apply bool_decide_eq_true].
Qed.

(** Replacing the metadata of one service. *)
Section replace.
Context (g g' : Graph) (s : Z).
Hypothesis Hsame : ∀ a, a ≠ s → Slots.record a g' = Slots.record a g.

Lemma dep_other a b : a ≠ s → dep g' a b ↔ dep g a b.
Proof. intros Ha. unfold dep. by rewrite Hsame. Qed.

Lemma reach_replaced a : rtc (dep g) a s ↔ rtc (dep g') a s.
Proof.
  assert (∀ c, c = s → (rtc (dep g) a c → rtc (dep g') a c) ∧ (rtc (dep g') a c → rtc (dep g) a c)) as H; [|by destruct (H s eq_refl)].
  intros c Hc. split; (induction 1 as [|a b c Hd Hr IH]; [done|]); (destruct (decide (a = s)) as [->|Ha]; [by subst|]);
    (eapply rtc_l; [by apply dep_other|by apply IH]).
Qed.

Lemma cycle_replaced a b : tc (dep g') a b → tc (dep g) a b ∨ (rtc (dep g') a s ∧ tc (dep g') s b).
Proof.
  induction 1 as [a b Hd|a c b Hd Ht IH].
  - destruct (decide (a = s)) as [->|Ha]; [right; split; [done|by apply tc_once]|left; by apply tc_once, dep_other].
  - destruct (decide (a = s)) as [->|Ha]; [right; split; [done|by eapply tc_l]|].
    destruct IH as [IH|[IH1 IH2]]; [left; eapply tc_l; [by apply dep_other|done]|right; split; [by eapply rtc_l|done]].
Qed.

Lemma acyclic_replaced : acyclic g → ¬ tc (dep g') s s → acyclic g'.
Proof. intros Hg Hs x Hx. destruct (cycle_replaced x x Hx) as [H|[H1 H2]]; [by eapply Hg|]. apply Hs. by eapply tc_rtc_r. Qed.
End replace.

Record graph_ok g : Prop := {
  gk_unique : unique g;
  gk_acyclic : acyclic g;
  gk_closed : ∀ a b, dep g a b → known g b
}.

(** [set_dependencies] accepts exactly what keeps the graph well formed and acyclic. *)
Record acceptable_edges g m : Prop := {
  ae_known : known g (dm_service m);
  ae_shape : shape_ok m;
  ae_targets : ∀ e, e ∈ Meta.metadata_edges m → known g (depends_on e);
  ae_acyclic : ∀ e, e ∈ Meta.metadata_edges m → ¬ rtc (dep g) (depends_on e) (dm_service m)
}.

Lemma known_find g s : unique g → known g s ↔ is_Some (Slots.find s g).
Proof.
  intros Hu. split.
  - intros [m Hr]. unfold Slots.record in Hr. destruct (Slots.find s g); [by eexists|done].
  - intros [i Hi]. apply find_Some in Hi as (m & Hi & Hs); [|done]. exists m. apply entry_Ok; [done|]. split; [|done]. by eapply list_elem_of_lookup_2.
Qed.

Lemma set_dependencies_spec m g :
  graph_ok g → (length g ≤ S MAX_DEPENDENCY_WALK_DEPTH)%nat →
  match Graph.set_dependencies m g with
  | (g', Ok _) => acceptable_edges g m ∧ graph_ok g' ∧ length g' = length g
      ∧ ∀ s, Slots.record s g' = if decide (s = dm_service m) then Ok m else Slots.record s g
  | (g', Err _) => g' = g ∧ ¬ acceptable_edges g m
  end.
Proof.
  intros [Hu Hac Hcl] Hlen. unfold Graph.set_dependencies. set (s := dm_service m).
  destruct (Slots.find s g) as [k|] eqn:Ek.
  2: { split; [done|]. intros [Hk _ _ _]. apply known_find in Hk; [|done]. fold s in Hk. rewrite Ek in Hk. by destruct Hk. }
  pose proof (validate_shape_spec m) as Hsh. destruct (Meta.validate_metadata_shape m) as [[]|]; [|split; [done|by intros []]].
  destruct (find_first _ _) as [e|] eqn:Ee.
  { split; [done|]. apply find_first_Some in Ee as [He Hn]. intros [_ _ Ht _]. specialize (Ht e He).
    apply known_find in Ht as [i Hi]; [|done]. by rewrite Hi in Hn. }
  assert (∀ e, e ∈ Meta.metadata_edges m → known g (depends_on e)) as Htargets.
  { intros e He. rewrite find_first_None in Ee. specialize (Ee e He). apply known_find; [done|].
    destruct (Slots.find (depends_on e) g); [by eexists|done]. }
  assert (known g s) as Hks by (apply known_find; [done|by rewrite Ek]).
  pose proof Ek as (m0 & Hk & Hm0)%find_Some; [|done].
  destruct (write_slot_spec g s k m Hu eq_refl) as [Hu' Hr].
  { by eapply lookup_lt_Some. }
  { intros b Hb. congruence. }
  { intros i b Hi Hb. eapply Hu; [exact Hi|exact Hk|congruence]. }
  set (g' := <[k := Some m]> g) in *. assert (∀ a, a ≠ s → Slots.record a g' = Slots.record a g) as Hsame.
  { intros a Ha. by rewrite Hr, decide_False. }
  pose proof (detect_cycle_exact s g' Hu' ltac:(unfold g'; by rewrite length_insert)) as Hdet.
  assert (tc (dep g') s s ↔ ∃ e, e ∈ Meta.metadata_edges m ∧ rtc (dep g) (depends_on e) s) as Hcyc.
  { split.
    - intros Htc. assert (∃ c, dep g' s c ∧ rtc (dep g') c s) as (c & (m' & e & Er & He & <-) & Hrt).
      { inversion Htc; subst; eauto using tc_rtc, rtc_refl. }
      rewrite Hr, decide_True in Er by done. injection Er as <-. exists e. split; [done|]. by apply (reach_replaced g g' s Hsame).
    - intros (e & He & Hrt). eapply tc_rtc_r; [apply tc_once|by apply (reach_replaced g g' s Hsame)].
      exists m, e. by rewrite Hr, decide_True. }
  destruct (Graph.detect_cycle_involving s g') eqn:Ed.
  - split; [done|]. intros [_ _ _ Hna]. apply proj1 in Hdet. destruct (proj1 Hcyc (Hdet eq_refl)) as (e & He & Hrt). by apply (Hna e He).
  - assert (¬ tc (dep g') s s) as Hns by (intros Htc; apply Hdet in Htc; congruence). split_and!.
    + split; [done|done|done|]. intros e He Hrt. apply Hns, Hcyc. eauto.
    + split; [done|by eapply acyclic_replaced|]. assert (∀ b, known g b → known g' b) as Hmono.
      { intros b [mb Hb]. unfold known. rewrite Hr. case_decide; eauto. }
      intros a b Hd. destruct (decide (a = s)) as [->|Ha]; [|apply Hmono; eapply Hcl; by apply (dep_other g g' s Hsame)].
      destruct Hd as (m' & e & Er & He & <-). rewrite Hr, decide_True in Er by done. injection Er as <-. by apply Hmono, Htargets.
    + unfold g'. by rewrite length_insert.
    + done.
Qed.

Inductive graph_step : Graph → Graph → Prop :=
  | graph_declare s g g' r : Graph.declare s g = (g', r) → graph_step g g'
  | graph_set m g g' r : Graph.set_dependencies m g = (g', r) → graph_step g g'.

Lemma new_graph_ok N : graph_ok (Graph.new N).
Proof.
  assert (∀ s, ¬ known (Graph.new N) s) as Hn.
  { intros s [m [Hin _]%entry_Ok]; [|apply unique_new]. apply list_elem_of_lookup in Hin as [i [? _]%lookup_replicate]. done. }
  assert (∀ a b, ¬ dep (Graph.new N) a b) as Hd by (intros a b (m & e & Er & _); by apply (Hn a); exists m).
  split; [apply unique_new| |by intros a b ?%Hd]. intros s Hs. inversion Hs; subst; by eapply Hd.
Qed.

Lemma declare_graph_ok s g : graph_ok g → graph_ok (Graph.declare s g).1 ∧ length (Graph.declare s g).1 = length g.
Proof.
  intros Hok. pose proof Hok as [Hu Hac Hcl]. unfold Graph.declare. pose proof (declare_spec g s (Meta.empty s) Hu eq_refl) as H.
  destruct (Slots.declare s (Meta.empty s) g) as [g' [[]|]]; cbn; [|by subst]. destruct H as (Hu' & Hf & Hlen & Hr). split; [|done].
  assert (∀ a b, dep g' a b ↔ dep g a b) as Hd.
  { intros a b. unfold dep. rewrite Hr. case_decide as Ha; [|done]. subst a. split.
    - intros (m & e & [= <-] & He & _). by apply elem_of_nil in He.
    - intros (m & e & Er & _). unfold Slots.record in Er. by rewrite Hf in Er. }
  split; [done| |].
  - intros x Hx. apply (Hac x). revert Hx. generalize x at 2 4. induction 1; [by apply tc_once, Hd|by eapply tc_l; [apply Hd|]].
  - intros a b [m Hb]%Hd%Hcl. unfold known. rewrite Hr. case_decide; eauto.
Qed.

Lemma graph_run_ok g g' :
  graph_ok g → (length g ≤ S MAX_DEPENDENCY_WALK_DEPTH)%nat → rtc graph_step g g' → graph_ok g' ∧ length g' = length g.
Proof.
  intros Hok Hlen Hrun. induction Hrun as [g|g g1 g2 Hst _ IH]; [done|]. assert (graph_ok g1 ∧ length g1 = length g) as [Hok1 Hlen1].
  { inversion Hst as [s ? ? r E|m ? ? r E]; subst.
    - pose proof (declare_graph_ok s g Hok) as H. by rewrite E in H.
    - pose proof (set_dependencies_spec m g Hok Hlen) as H. rewrite E in H. destruct r; [naive_solver|]. destruct H as [-> _]. done. }
  rewrite <- Hlen1. apply IH; [done|by rewrite Hlen1].
Qed.

(** C19: The dependency graph never has a cycle, and nothing else is refused. For up to 33
    services (the depth of the code's search plus one), in every graph that declarations and
    [set_dependencies] can build: no service depends on itself through others, and every
    dependency is declared. New metadata is accepted exactly when its service and its targets
    are declared, it has at most four distinct edges and none to itself, and no target
    already depends on the service; then it replaces the old metadata of that service and no
    other. A refusal leaves the graph as it was. *)
Theorem dependencies_acyclic_exact N g m :
  (N ≤ S MAX_DEPENDENCY_WALK_DEPTH)%nat → rtc graph_step (Graph.new N) g →
  acyclic g ∧ (∀ a b, dep g a b → known g b) ∧
  match Graph.set_dependencies m g with
  | (g', Ok _) => acceptable_edges g m ∧ acyclic g'
      ∧ ∀ s, Slots.record s g' = if decide (s = dm_service m) then Ok m else Slots.record s g
  | (g', Err _) => g' = g ∧ ¬ acceptable_edges g m
  end.
Proof.
  intros HN Hrun. assert (length (Graph.new N) = N) as Hlen by apply length_replicate.
  destruct (graph_run_ok _ g (new_graph_ok N) ltac:(lia) Hrun) as [Hok Hlen']. split_and!; [apply Hok|apply Hok|].
  pose proof (set_dependencies_spec m g Hok ltac:(lia)) as H. destruct (Graph.set_dependencies m g) as [g' [[]|]]; [|done].
  destruct H as (? & [] & _ & ?). done.
Qed.

(** ** Starting everything *)

Lemma dep_finite g a : unique g → acyclic g → (∀ x y, dep g x y → known g y) → sn (dep g) a.
Proof.
  intros Hu Hac Hcl. apply tc_finite_sn; [intros x; apply Hac|].
  exists (omap (λ e : option DependencyMetadata, service_of <$> e) g). intros b Hb. apply known_elem; [done|].
  induction Hb; eauto.
Qed.

(** A running dependency that is not reported unhealthy blocks nobody, unless the edge asks
    for a state nobody can wait for. *)
Lemma running_satisfies edge record health :
  lr_state record = Running → required_state edge ≠ Exited → required_state edge ≠ Faulted →
  (∀ h, health = Some h → Snapshot.status (depends_on edge) h ≠ Some HealthUnhealthy) →
  edge_blocks_start edge record health = None.
Proof.
  intros Hr H1 H2 Hh. unfold edge_blocks_start. rewrite Hr, decide_False by (by intros []).
  assert (lifecycle_state_satisfies Running (required_state edge) = true) as -> by by destruct (required_state edge).
  cbn. destruct health as [h|]; [|done]. by rewrite decide_False by (by apply Hh).
Qed.

Lemma first_block_ready service lifecycle health es :
  (∀ e, e ∈ es → ∃ r, Slots.record (depends_on e) lifecycle = Ok r ∧ edge_blocks_start e r health = None) →
  Graph.first_block service lifecycle health es = Ok ReadyToStart.
Proof.
  induction es as [|e es IH]; intros He; [done|]. cbn [Graph.first_block].
  destruct (He e ltac:(by left)) as (r & -> & ->). apply IH. intros x Hx. apply He. by right.
Qed.

(** C20: Starting in dependency order never gets stuck. In any dependency graph that can be
    built (up to 33 services), with every service known to the lifecycle registry, none
    exited, faulted or reported unhealthy, and no edge asking for an exited or faulted
    dependency: if some service is not running, then some service that is not running is
    ready to start. *)
Theorem start_never_deadlocks N g lifecycle health s :
  (N ≤ S MAX_DEPENDENCY_WALK_DEPTH)%nat → rtc graph_step (Graph.new N) g →
  (∀ x, known g x → ∃ r, Slots.record x lifecycle = Ok r ∧ lr_state r ≠ Exited ∧ lr_state r ≠ Faulted) →
  (∀ x m e, Slots.record x g = Ok m → e ∈ Meta.metadata_edges m → required_state e ≠ Exited ∧ required_state e ≠ Faulted) →
  (∀ h x, health = Some h → Snapshot.status x h ≠ Some HealthUnhealthy) →
  known g s → (∀ r, Slots.record s lifecycle = Ok r → lr_state r ≠ Running) →
  ∃ x r, known g x ∧ Slots.record x lifecycle = Ok r ∧ lr_state r ≠ Running ∧
    Graph.evaluate_start_readiness x lifecycle health g = Ok ReadyToStart.
Proof.
  intros HN Hrun Hlc Hedges Hh Hs Hnr. assert (length (Graph.new N) = N) as Hlen by apply length_replicate.
  destruct (graph_run_ok _ g (new_graph_ok N) ltac:(lia) Hrun) as [[Hu Hac Hcl] _].
  pose proof (dep_finite g s Hu Hac Hcl) as Hsn. induction Hsn as [s _ IH]. unfold flip in IH.
  destruct Hs as [m Hm]. destruct (Hlc s ltac:(by exists m)) as (r & Hr & Hr1 & Hr2).
  set (up e := match Slots.record (depends_on e) lifecycle with Ok r => bool_decide (lr_state r = Running) | Err _ => false end).
  destruct (find_first (λ e, negb (up e)) (Meta.metadata_edges m)) as [e|] eqn:Ef.
  - apply find_first_Some in Ef as [He Hup]. assert (dep g s (depends_on e)) as Hd by (exists m, e; done).
    apply (IH _ Hd); [by eapply Hcl|]. intros r' Er E. unfold up in Hup. rewrite Er, bool_decide_eq_true_2 in Hup by done. done.
  - exists s, r. split_and!; [by exists m|done|by apply Hnr|]. unfold Graph.evaluate_start_readiness. rewrite metadata_record, Hm by done.
    cbn. apply first_block_ready. intros e He. rewrite find_first_None in Ef. specialize (Ef e He). apply negb_false_iff in Ef. unfold up in Ef.
    destruct (Slots.record (depends_on e) lifecycle) as [r'|]; [|done]. apply bool_decide_eq_true in Ef. exists r'. split; [done|].
    destruct (Hedges s m e Hm He). apply running_satisfies; [done|done|done|]. intros h Hhs. by apply Hh.
Qed.

(** Service 2 depends on service 1; both are declared and neither runs. *)
Module Pair.
Definition graph : Graph :=
  (Graph.set_dependencies (Meta.single_dependency 2 1 Running)
     (Graph.declare 2 (Graph.declare 1 (Graph.new 4)).1).1).1.

Definition lifecycle : Tracker := (Registry.declare 2 (Registry.declare 1 (Registry.new 4)).1).1.

Lemma built : rtc graph_step (Graph.new 4) graph.
Proof.
  eapply rtc_l; [eapply (graph_declare 1), surjective_pairing|].
  eapply rtc_l; [eapply (graph_declare 2), surjective_pairing|].
  eapply rtc_once, (graph_set (Meta.single_dependency 2 1 Running)), surjective_pairing.
Qed.

Lemma graph_value :
  graph = [Some (Meta.empty 1); Some (Meta.single_dependency 2 1 Running); None; None].
Proof. vm_compute. reflexivity. Qed.

Lemma services x m :
  Slots.record x graph = Ok m → (x = 1 ∧ m = Meta.empty 1) ∨ (x = 2 ∧ m = Meta.single_dependency 2 1 Running).
Proof.
  rewrite graph_value. unfold Slots.record, Slots.find. cbn [position Slots.holds].
  case_bool_decide as E1; [change (1 = x) in E1; subst; intros [= <-]; by left|].
  case_bool_decide as E2; [change (2 = x) in E2; subst; intros [= <-]; by right|]. done.
Qed.
End Pair.

(** The reverse edge is refused. *)
Lemma dependencies_acyclic_exact_witness :
  Graph.set_dependencies (Meta.single_dependency 1 2 Running) Pair.graph = (Pair.graph, Err (CycleDetected 1))
  ∧ acyclic Pair.graph ∧ ¬ acceptable_edges Pair.graph (Meta.single_dependency 1 2 Running).
Proof.
  pose proof (dependencies_acyclic_exact 4 Pair.graph (Meta.single_dependency 1 2 Running)
    ltac:(vm_compute; lia) Pair.built) as (Hac & _ & H).
  assert (Graph.set_dependencies (Meta.single_dependency 1 2 Running) Pair.graph = (Pair.graph, Err (CycleDetected 1))) as E
    by (vm_compute; reflexivity).
  rewrite E in H. exact (conj E (conj Hac (proj2 H))).
Defined.

Lemma start_never_deadlocks_witness :
  ∃ x r, known Pair.graph x ∧ Slots.record x Pair.lifecycle = Ok r ∧ lr_state r ≠ Running ∧
    Graph.evaluate_start_readiness x Pair.lifecycle None Pair.graph = Ok ReadyToStart.
Proof.
  apply (start_never_deadlocks 4 Pair.graph Pair.lifecycle None 2).
  - vm_compute. lia.
  - exact Pair.built.
  - intros x [m Hx]. apply Pair.services in Hx as [[-> _]|[-> _]]; eexists; (split; [vm_compute; reflexivity|by split]).
  - intros x m e Hx He. apply Pair.services in Hx as [[_ ->]|[_ ->]]; vm_compute in He.
    + by apply elem_of_nil in He.
    + apply list_elem_of_singleton in He as ->. by split.
  - done.
  - exists (Meta.single_dependency 2 1 Running). vm_compute. reflexivity.
  - intros r Hr. vm_compute in Hr. injection Hr as <-. done.
Defined.

(** ** Health snapshots *)

Lemma set_fresh d status n :
  d ≠ 0 → Snapshot.set d status (Snapshot.empty (S n)) = (MkSnapshot ((d, status) :: replicate n (0, HealthUnknown)) 1, Ok ()).
Proof.
  intros Hd. unfold Snapshot.set, Snapshot.empty. cbn [entries count].
  assert (position (λ e : Z * HealthStatus, bool_decide (e.1 = d)) (replicate (S n) (0, HealthUnknown)) = None) as ->.
  { apply position_None. intros e [-> _]%elem_of_replicate. by apply bool_decide_eq_false. }
  rewrite length_replicate, decide_False by lia. done.
Qed.

(** C36: A snapshot forgets the health of service 0. The search for an existing entry runs over
    the unused entries too, and these carry the id 0: recording that service 0 is unhealthy
    in an empty snapshot succeeds, but the snapshot then has no status for it and a service
    that depends on it is not held back. For every other service the entry is recorded and
    blocks its dependents. *)
Theorem snapshot_loses_service_zero n record :
  lr_state record = Running →
  (let '(s, r) := Snapshot.set 0 HealthUnhealthy (Snapshot.empty (S n)) in
   r = Ok () ∧ Snapshot.status 0 s = None ∧ edge_blocks_start (MkEdge 0 Running) record (Some s) = None) ∧
  (∀ d, d ≠ 0 →
   let '(s, r) := Snapshot.set d HealthUnhealthy (Snapshot.empty (S n)) in
   r = Ok () ∧ Snapshot.status d s = Some HealthUnhealthy
   ∧ edge_blocks_start (MkEdge d Running) record (Some s) = Some (DependencyUnhealthy d HealthUnhealthy)).
Proof.
  intros Hr. split.
  - cbn. split_and!; [done|done|]. unfold edge_blocks_start. by rewrite Hr, decide_False by (by intros []).
  - intros d Hd. rewrite set_fresh by done.
    assert (Snapshot.status d (MkSnapshot ((d, HealthUnhealthy) :: replicate n (0, HealthUnknown)) 1) = Some HealthUnhealthy) as E.
    { unfold Snapshot.status. cbn. by rewrite bool_decide_eq_true_2. }
    split_and!; [done|done|]. unfold edge_blocks_start. rewrite Hr, decide_False by (by intros []).
    cbn [required_state depends_on lifecycle_state_satisfies negb]. rewrite bool_decide_eq_true_2 by done. cbn [negb].
    by rewrite E, decide_True.
Qed.

Lemma snapshot_loses_service_zero_witness :
  let s := (Snapshot.set 0 HealthUnhealthy (Snapshot.empty 8)).1 in
  edge_blocks_start (MkEdge 0 Running) (MkRecord 0 Running 1 None) (Some s) = None.
Proof. exact (proj2 (proj2 (proj1 (snapshot_loses_service_zero 7 (MkRecord 0 Running 1 None) eq_refl)))). Defined.
