(* ===== verification/LifecycleWire.v ===== *)
(** Lifecycle messages on the wire (service-lifecycle/src/wire.rs and the discriminants of
    the enums it sends). *)

From Stdlib Require Import ZArith Lia.
From stdpp Require Import base list tactics decidable numbers.
From S2P Require Import Prelude Bytes Lifecycle LifecycleHealth LifecycleDeps.

Local Open Scope Z_scope.

Definition LIFECYCLE_PROTOCOL_VERSION : Z := 1.
Definition LIFECYCLE_WIRE_MAX_BYTES : nat := 64.

(** ** Discriminants *)

Module Repr.
Definition control (k : ControlRequestKind) : Z := match k with Start => 1 | Stop => 2 | Terminate => 3 | Restart => 4 end.

Definition control_from_repr (raw : Z) : option ControlRequestKind :=
  match raw with 1 => Some Start | 2 => Some Stop | 3 => Some Terminate | 4 => Some Restart | _ => None end.

Definition state (s : ServiceLifecycleState) : Z :=
  match s with
  | Declared => 0 | Starting => 1 | Running => 2 | Stopping => 3 | Exited => 4 | Faulted => 5 | RestartPending => 6
  end.

Definition state_from_repr (raw : Z) : option ServiceLifecycleState :=
  match raw with
  | 0 => Some Declared | 1 => Some Starting | 2 => Some Running | 3 => Some Stopping
  | 4 => Some Exited | 5 => Some Faulted | 6 => Some RestartPending | _ => None
  end.

Definition event (k : LifecycleEventKind) : Z :=
  match k with
  | InstanceSpawned => 1 | Started => 2 | Ready => 3 | StopAcknowledged => 4 | ExitedEvent => 5 | FaultedEvent => 6
  end.

Definition event_from_repr (raw : Z) : option LifecycleEventKind :=
  match raw with
  | 1 => Some InstanceSpawned | 2 => Some Started | 3 => Some Ready | 4 => Some StopAcknowledged
  | 5 => Some ExitedEvent | 6 => Some FaultedEvent | _ => None
  end.

Definition health (s : HealthStatus) : Z :=
  match s with HealthUnknown => 0 | HealthOk => 1 | HealthDegraded => 2 | HealthUnhealthy => 3 end.

Definition health_from_repr (raw : Z) : option HealthStatus :=
  match raw with 0 => Some HealthUnknown | 1 => Some HealthOk | 2 => Some HealthDegraded | 3 => Some HealthUnhealthy | _ => None end.
End Repr.

Inductive LifecycleMessage : Type :=
  | MsgControl (request : ControlRequest)
  | MsgEvent (event : LifecycleEvent)
  | MsgHealth (report : HealthReport)
  | MsgDependencies (metadata : DependencyMetadata).

Inductive LifecycleMessageKind : Type := KindControl | KindEvent | KindHealth | KindDependencies.

Inductive DecodeError : Type :=
  | BufferTooShort (actual required : nat)
  | TrailingBytes (length : nat)
  | UnknownProtocolVersion (version : Z)
  | UnknownMessageKind (kind : Z)
  | InvalidEnumDiscriminant
  | InvalidDependencyCount (count : Z).

Definition u8_at (off : nat) (l : list Z) : Z := nth off l 0.

Definition nth_edge (i : nat) (es : list DependencyEdge) : DependencyEdge := nth i es (MkEdge 0 Declared).

Module Wire.
Definition kind (m : LifecycleMessage) : Z :=
  match m with MsgControl _ => 1 | MsgEvent _ => 2 | MsgHealth _ => 3 | MsgDependencies _ => 4 end.

Definition kind_from_repr (raw : Z) : option LifecycleMessageKind :=
  match raw with
  | 1 => Some KindControl | 2 => Some KindEvent | 3 => Some KindHealth | 4 => Some KindDependencies | _ => None
  end.

Definition write_edge (m : DependencyMetadata) (i : nat) (buf : list Z) : list Z :=
  let edge := nth_edge i (edges m) in
  let buf := blit (12 + i * 8) (le_encode 4 (depends_on edge)) buf in
  blit (12 + i * 8 + 4) [Repr.state (required_state edge)] buf.

Definition encode (m : LifecycleMessage) : list Z :=
  let buf := replicate LIFECYCLE_WIRE_MAX_BYTES 0 in
  let buf := blit 0 [LIFECYCLE_PROTOCOL_VERSION] buf in
  let buf := blit 1 [kind m] buf in
  match m with
  | MsgControl request =>
      let buf := blit 4 (le_encode 4 (cr_service request)) buf in
      blit 8 [Repr.control (cr_kind request)] buf
  | MsgEvent event =>
      let buf := blit 4 (le_encode 4 (si_service (ev_instance event))) buf in
      let buf := blit 8 (le_encode 4 (si_generation (ev_instance event))) buf in
      let buf := blit 12 (le_encode 8 (si_pid (ev_instance event))) buf in
      let buf := blit 20 (le_encode 8 (si_domain (ev_instance event))) buf in
      let buf := blit 28 [Repr.event (ev_kind event)] buf in
      blit 29 (le_encode 4 (ev_status_code event)) buf
  | MsgHealth report =>
      let buf := blit 4 (le_encode 4 (hp_service report)) buf in
      let buf := blit 8 (le_encode 4 (hp_generation report)) buf in
      let buf := blit 12 [Repr.health (hp_status report)] buf in
      blit 13 (le_encode 4 (hp_detail_reserved report)) buf
  | MsgDependencies metadata =>
      let buf := blit 4 (le_encode 4 (dm_service metadata)) buf in
      let buf := blit 8 [edge_count metadata] buf in
      for_range 0 MAX_INLINE_DEPENDENCIES (write_edge metadata) buf
  end.

Definition encoded_length (m : LifecycleMessage) : nat :=
  match m with
  | MsgControl _ => 9
  | MsgEvent _ => 33
  | MsgHealth _ => 17
  | MsgDependencies _ => 12 + MAX_INLINE_DEPENDENCIES * 8
  end.

Definition require_len (buffer : list Z) (required : nat) : result DecodeError unit :=
  if decide (length buffer < required)%nat then Err (BufferTooShort (length buffer) required) else Ok ().

Definition read_edge (buffer : list Z) (i : nat) (es : list DependencyEdge) : result DecodeError (list DependencyEdge) :=
  let offset := (12 + i * 8)%nat in
  let? st := ok_or (Repr.state_from_repr (u8_at (offset + 4) buffer)) InvalidEnumDiscriminant in
  Ok (<[i := MkEdge (u32_at offset buffer) st]> es).

Definition decode_body (k : LifecycleMessageKind) (buffer : list Z) : result DecodeError LifecycleMessage :=
  match k with
  | KindControl =>
      let? _ := require_len buffer 9 in
      let? kind := ok_or (Repr.control_from_repr (u8_at 8 buffer)) InvalidEnumDiscriminant in
      Ok (MsgControl (MkControl (u32_at 4 buffer) kind))
  | KindEvent =>
      let? _ := require_len buffer 33 in
      let instance := MkInstance (u32_at 4 buffer) (u32_at 8 buffer) (u64_at 12 buffer) (u64_at 20 buffer) in
      let? kind := ok_or (Repr.event_from_repr (u8_at 28 buffer)) InvalidEnumDiscriminant in
      Ok (MsgEvent (MkEvent instance kind (u32_at 29 buffer)))
  | KindHealth =>
      let? _ := require_len buffer 17 in
      let? status := ok_or (Repr.health_from_repr (u8_at 12 buffer)) InvalidEnumDiscriminant in
      Ok (MsgHealth (MkReport (u32_at 4 buffer) (u32_at 8 buffer) status (u32_at 13 buffer)))
  | KindDependencies =>
      let? _ := require_len buffer (12 + MAX_INLINE_DEPENDENCIES * 8) in
      let edge_count := u8_at 8 buffer in
      if decide (Z.of_nat MAX_INLINE_DEPENDENCIES < edge_count) then Err (InvalidDependencyCount edge_count)
      else
        let? es := try_range 0 MAX_INLINE_DEPENDENCIES (read_edge buffer) (edges (Meta.empty (u32_at 4 buffer))) in
        Ok (MsgDependencies (MkMeta (u32_at 4 buffer) es edge_count))
  end.

Definition decode (buffer : list Z) : result DecodeError (LifecycleMessage * nat) :=
  match buffer with
  | [] => Err (BufferTooShort 0 4)
  | version :: _ =>
      if decide (version ≠ LIFECYCLE_PROTOCOL_VERSION) then Err (UnknownProtocolVersion version)
      else if decide (length buffer < 4)%nat then Err (BufferTooShort (length buffer) 4)
      else
        let? k := ok_or (kind_from_repr (u8_at 1 buffer)) (UnknownMessageKind (u8_at 1 buffer)) in
        let? message := decode_body k buffer in
        let consumed := encoded_length message in
        if bool_decide (consumed < length buffer)%nat && existsb (λ byte, negb (bool_decide (byte = 0))) (drop consumed buffer)
        then Err (TrailingBytes (length buffer))
        else Ok (message, consumed)
  end.
End Wire.

(** * The codec *)

Definition instance_ok (i : ServiceInstanceId) : Prop :=
  in_width 32 (si_service i) ∧ in_width 32 (si_generation i) ∧ in_width 64 (si_pid i) ∧ in_width 64 (si_domain i).

(** What the types of the fields allow: fields of their width; the edge array is full and its count in range. *)
Definition message_fits (m : LifecycleMessage) : Prop :=
  match m with
  | MsgControl r => in_width 32 (cr_service r)
  | MsgEvent e => instance_ok (ev_instance e) ∧ in_width 32 (ev_status_code e)
  | MsgHealth r => in_width 32 (hp_service r) ∧ in_width 32 (hp_generation r) ∧ in_width 32 (hp_detail_reserved r)
  | MsgDependencies d =>
      in_width 32 (dm_service d) ∧ 0 ≤ edge_count d ≤ 4 ∧ length (edges d) = MAX_INLINE_DEPENDENCIES
      ∧ Forall (λ e, in_width 32 (depends_on e)) (edges d)
  end.

(** The messages of the v1 wire: [health.rs] reserves a word of the health report, which must
    be zero. *)
Definition message_v1 (m : LifecycleMessage) : Prop :=
  message_fits m ∧ match m with MsgHealth r => hp_detail_reserved r = 0 | _ => True end.

Lemma control_repr k : Repr.control_from_repr (Repr.control k) = Some k.
Proof. by destruct k. Qed.
Lemma state_repr s : Repr.state_from_repr (Repr.state s) = Some s.
Proof. by destruct s. Qed.
Lemma event_repr k : Repr.event_from_repr (Repr.event k) = Some k.
Proof. by destruct k. Qed.
Lemma health_repr s : Repr.health_from_repr (Repr.health s) = Some s.
Proof. by destruct s. Qed.

Lemma u8_slice off l : (off < length l)%nat → u8_at off l = le_decode (slice off (S off) l).
Proof.
  intros H. unfold u8_at, slice. destruct (lookup_lt_is_Some_2 l off H) as [x Hx]. rewrite (nth_lookup_Some _ _ _ _ Hx).
  rewrite (drop_S _ _ _ Hx). replace (S off - off)%nat with 1%nat by lia. rewrite firstn_cons, take_0. change (le_decode [x]) with (x + 256 * 0). lia.
Qed.

Lemma zeros_ignored l : existsb (λ byte, negb (bool_decide (byte = 0))) l = false ↔ l = replicate (length l) 0.
Proof.
  induction l as [|x l IH]; cbn; [done|]. rewrite orb_false_iff, IH, negb_false_iff, bool_decide_eq_true. split.
  - intros [-> ->]. by rewrite length_replicate.
  - by intros [= -> E].
Qed.

(** Reading a field of a message that was just written. *)
Lemma length_write_edges m n buf : length (for_range 0 n (Wire.write_edge m) buf) = length buf.
Proof.
  apply (for_range_ind (λ _ b, length b = length buf)); [lia|done|]. intros i b _ Hb. unfold Wire.write_edge. by rewrite !length_blit.
Qed.

Lemma length_encode m : length (Wire.encode m) = 64%nat.
Proof. destruct m; unfold Wire.encode; cbv zeta; rewrite ?length_write_edges, ?length_blit; done. Qed.

(** The common part of decoding: version, kind, and the zero tail. *)
Lemma decode_frame m k b :
  length b = 64%nat → slice 0 1 b = [LIFECYCLE_PROTOCOL_VERSION] → slice 1 2 b = [Wire.kind m] →
  Wire.kind_from_repr (Wire.kind m) = Some k → Wire.decode_body k b = Ok m →
  (Wire.encoded_length m ≤ 64)%nat → slice (Wire.encoded_length m) 64 b = replicate (64 - Wire.encoded_length m) 0 →
  Wire.decode b = Ok (m, Wire.encoded_length m).
Proof.
  intros Hl H0 H1 Hk Hb Hle Hz. pose proof (u8_slice 1 b ltac:(lia)) as E1. rewrite H1 in E1.
  assert (u8_at 1 b = Wire.kind m) as E1' by (rewrite E1; by destruct m).
  unfold Wire.decode. destruct b as [|v b'] eqn:Eb; [done|]. rewrite <- Eb in *.
  assert (v = LIFECYCLE_PROTOCOL_VERSION) as ->.
  { rewrite Eb in H0. unfold slice in H0. change (1 - 0)%nat with 1%nat in H0. rewrite drop_0, firstn_cons in H0. by injection H0. }
  rewrite decide_False by tauto. rewrite decide_False by lia. rewrite E1', Hk. cbn [ok_or]. rewrite Hb.
  assert (existsb (λ byte, negb (bool_decide (byte = 0))) (drop (Wire.encoded_length m) b) = false) as ->.
  { apply zeros_ignored. rewrite length_drop, Hl. unfold slice in Hz. rewrite take_ge in Hz by (rewrite length_drop; lia). done. }
  by rewrite andb_false_r.
Qed.

Ltac slice_len := rewrite ?length_blit, ?length_le_encode, ?length_replicate; unfold LIFECYCLE_WIRE_MAX_BYTES; cbn [length]; lia.

Ltac decode_read := repeat first [rewrite slice_blit_eq by slice_len | rewrite slice_blit_ne by slice_len].

(** Version, kind and zero tail of a concrete message; the body is left to prove. *)
Ltac frame m k :=
  apply (decode_frame m k); [apply length_encode|by unfold Wire.encode; cbv zeta; decode_read|by unfold Wire.encode; cbv zeta; decode_read
    |done| |cbn [Wire.encoded_length]; lia
    |unfold Wire.encode; cbv zeta; cbn [Wire.encoded_length]; decode_read; apply slice_replicate; unfold LIFECYCLE_WIRE_MAX_BYTES; lia];
  unfold Wire.decode_body, Wire.require_len; rewrite decide_False by (rewrite length_encode; lia);
  rewrite ?u8_slice by (rewrite length_encode; lia); unfold u32_at, u64_at, Wire.encode; cbv zeta; cbn [Nat.add];
  decode_read; rewrite ?le_u32, ?le_u64 by done.

Lemma encode_control r : message_fits (MsgControl r) → Wire.decode (Wire.encode (MsgControl r)) = Ok (MsgControl r, 9%nat).
Proof. intros H. frame (MsgControl r) KindControl. by destruct r as [s []]. Qed.

Lemma encode_event e : message_fits (MsgEvent e) → Wire.decode (Wire.encode (MsgEvent e)) = Ok (MsgEvent e, 33%nat).
Proof. intros [(H1 & H2 & H3 & H4) H5]. frame (MsgEvent e) KindEvent. by destruct e as [[] [] c]. Qed.

Lemma encode_health r : message_fits (MsgHealth r) → Wire.decode (Wire.encode (MsgHealth r)) = Ok (MsgHealth r, 17%nat).
Proof. intros (H1 & H2 & H3). frame (MsgHealth r) KindHealth. by destruct r as [s g [] d]. Qed.

Lemma encode_dependencies d :
  message_fits (MsgDependencies d) → Wire.decode (Wire.encode (MsgDependencies d)) = Ok (MsgDependencies d, 44%nat).
Proof.
  intros (H1 & H2 & H3 & H4). destruct d as [s es n]. cbn [dm_service edge_count edges] in *.
  destruct es as [|[d1 s1] [|[d2 s2] [|[d3 s3] [|[d4 s4] [|]]]]]; try done.
  apply Forall_cons_1 in H4 as [E1 [E2 [E3 [E4 _]%Forall_cons_1]%Forall_cons_1]%Forall_cons_1]. cbn [depends_on] in *.
  assert (Wire.encode (MsgDependencies (MkMeta s [MkEdge d1 s1; MkEdge d2 s2; MkEdge d3 s3; MkEdge d4 s4] n)) =
    blit 40 [Repr.state s4] (blit 36 (le_encode 4 d4) (blit 32 [Repr.state s3] (blit 28 (le_encode 4 d3)
      (blit 24 [Repr.state s2] (blit 20 (le_encode 4 d2) (blit 16 [Repr.state s1] (blit 12 (le_encode 4 d1)
        (blit 8 [n] (blit 4 (le_encode 4 s) (blit 1 [4] (blit 0 [LIFECYCLE_PROTOCOL_VERSION] (replicate 64 0))))))))))))) as E
    by reflexivity.
  pose proof (length_encode (MsgDependencies (MkMeta s [MkEdge d1 s1; MkEdge d2 s2; MkEdge d3 s3; MkEdge d4 s4] n))) as Hl.
  rewrite E in *. set (b := blit 40 _ _) in *.
  assert (∀ x, le_decode [x] = x) as Hone by (intros x; change (le_decode [x]) with (x + 256 * 0); lia).
  apply (decode_frame (MsgDependencies (MkMeta s [MkEdge d1 s1; MkEdge d2 s2; MkEdge d3 s3; MkEdge d4 s4] n)) KindDependencies);
    [done|by unfold b; decode_read|by unfold b; decode_read|done| |cbn; lia|unfold b; cbn [Wire.encoded_length]; unfold MAX_INLINE_DEPENDENCIES; cbn [Nat.add Nat.mul Nat.sub]; decode_read; by rewrite slice_replicate by lia].
  unfold Wire.decode_body, Wire.require_len. rewrite decide_False by (rewrite Hl; cbn; lia).
  rewrite !u8_slice by (rewrite Hl; lia). assert (slice 8 9 b = [n]) as -> by (unfold b; by decode_read). rewrite Hone. rewrite decide_False by (unfold MAX_INLINE_DEPENDENCIES; lia).
  assert (u32_at 4 b = s) as -> by (unfold u32_at; cbn [Nat.add]; unfold b; decode_read; by apply le_u32).
  unfold try_range. cbn [seq Nat.sub MAX_INLINE_DEPENDENCIES try_fold]. unfold Wire.read_edge.
  cbn [Nat.add Nat.mul]. rewrite !u8_slice by (rewrite Hl; lia). unfold u32_at. cbn [Nat.add].
  assert (slice 16 17 b = [Repr.state s1] ∧ slice 24 25 b = [Repr.state s2] ∧ slice 32 33 b = [Repr.state s3] ∧ slice 40 41 b = [Repr.state s4])
    as (-> & -> & -> & ->) by (split_and!; unfold b; by decode_read).
  assert (slice 12 16 b = le_encode 4 d1 ∧ slice 20 24 b = le_encode 4 d2 ∧ slice 28 32 b = le_encode 4 d3 ∧ slice 36 40 b = le_encode 4 d4)
    as (-> & -> & -> & ->) by (split_and!; unfold b; by decode_read).
  rewrite !Hone, !state_repr, !le_u32 by done. done.
Qed.

Lemma read_edges_ok buffer es es' :
  Forall is_byte buffer → length es = MAX_INLINE_DEPENDENCIES → Forall (λ e, in_width 32 (depends_on e)) es →
  try_range 0 MAX_INLINE_DEPENDENCIES (Wire.read_edge buffer) es = Ok es' →
  length es' = MAX_INLINE_DEPENDENCIES ∧ Forall (λ e, in_width 32 (depends_on e)) es'.
Proof.
  intros Hb Hl Hes E. refine (try_range_inv (λ _ es, length es = MAX_INLINE_DEPENDENCIES ∧ Forall (λ e, in_width 32 (depends_on e)) es)
    (Wire.read_edge buffer) 0 MAX_INLINE_DEPENDENCIES es es' _ _ _ E); [lia|done|].
  intros i s s' _ [Hs1 Hs2]. unfold Wire.read_edge. destruct (Repr.state_from_repr _); [|done]. cbn. intros [= <-].
  split; [by rewrite length_insert|]. apply Forall_insert; [done|]. cbn. apply (field_width 4); [done|lia].
Qed.

(** What decodes is well typed, and only zeros follow it. *)
Lemma decode_ok b m n :
  Forall is_byte b → Wire.decode b = Ok (m, n) →
  message_fits m ∧ n = Wire.encoded_length m ∧ (n ≤ length b)%nat ∧ drop n b = replicate (length b - n) 0.
Proof.
  intros Hb. unfold Wire.decode. destruct b as [|v b'] eqn:Eb; [done|]. rewrite <- Eb in *. do 2 (case_decide; [done|]).
  destruct (Wire.kind_from_repr _) as [k|]; [|done]. cbn [ok_or].
  destruct (Wire.decode_body k b) as [m'|] eqn:Em; [|done]. destruct (_ && _) eqn:Et; [done|]. intros [= <- <-].
  assert (∀ a, in_width 32 (u32_at a b)) as H32 by (intros a; apply (field_width 4); [done|lia]).
  assert (∀ a, in_width 64 (u64_at a b)) as H64 by (intros a; apply (field_width 8); [done|lia]).
  assert (message_fits m' ∧ (Wire.encoded_length m' ≤ length b)%nat) as [Hok Hle].
  { destruct k; revert Em; unfold Wire.decode_body, Wire.require_len; (destruct (decide (length b < _)%nat); [done|]).
    - destruct (Repr.control_from_repr _); [|done]. intros [= <-]. cbn. split; [done|lia].
    - destruct (Repr.event_from_repr _); [|done]. intros [= <-]. cbn. unfold instance_ok. cbn. split; [by auto|lia].
    - destruct (Repr.health_from_repr _); [|done]. intros [= <-]. cbn. split; [by auto|lia].
    - destruct (decide (Z.of_nat _ < _)); [done|]. destruct (try_range _ _ _ _) as [es|] eqn:Ee; [|done]. intros [= <-].
      apply read_edges_ok in Ee as [E1 E2]; [|done|done|apply Forall_replicate; cbn; unfold in_width; lia]. unfold MAX_INLINE_DEPENDENCIES in *.
      split; [|cbn in *; lia]. cbn. split_and!; [done| |lia|done|done].
      pose proof (le_decode_bound _ (slice_bytes 8 9 b Hb)). rewrite u8_slice by lia. lia. }
  split_and!; [done|done|done|]. rewrite <- length_drop. apply zeros_ignored. apply andb_false_iff in Et as [Et|Et]; [|done].
  apply bool_decide_eq_false in Et. by rewrite drop_ge by lia.
Qed.

(** C37: Lifecycle messages survive the wire. Decoding an encoded v1 message gives it back with
    its length; and whatever byte string decodes, it decodes to a message whose fields are in
    range (at most four dependencies, valid states), of the length reported, and nothing but
    zero bytes follow. The decoder does not enforce the zero of the reserved word of a health
    report: a report with any other value there, which is not a v1 message, is accepted and
    comes back with that value. *)
Theorem lifecycle_codec m b n :
  (message_v1 m → Wire.decode (Wire.encode m) = Ok (m, Wire.encoded_length m)) ∧
  (Forall is_byte b → Wire.decode b = Ok (m, n) →
     message_fits m ∧ n = Wire.encoded_length m ∧ (n ≤ length b)%nat ∧ drop n b = replicate (length b - n) 0) ∧
  (message_fits m → ¬ message_v1 m → Wire.decode (Wire.encode m) = Ok (m, Wire.encoded_length m)).
Proof.
  assert (message_fits m → Wire.decode (Wire.encode m) = Ok (m, Wire.encoded_length m)) as H
    by (destruct m; [apply encode_control|apply encode_event|apply encode_health|apply encode_dependencies]).
  split_and!; [|apply decode_ok|auto]. intros [Hf _]. auto.
Qed.

Lemma lifecycle_codec_witness :
  (let m := MsgDependencies (Meta.single_dependency 2 1 Running) in
   Wire.decode (Wire.encode m) = Ok (m, 44%nat)) ∧
  (let m := MsgHealth (MkReport 2 1 HealthOk 7) in
   ¬ message_v1 m ∧ Wire.decode (Wire.encode m) = Ok (m, 17%nat)).
Proof.
  assert (∀ z, 0 ≤ z < 10 → in_width 32 z) as Hw by (unfold in_width; lia).
  split; cbv zeta.
  - apply (proj1 (lifecycle_codec (MsgDependencies (Meta.single_dependency 2 1 Running)) [] 0)).
    split; [|exact I]. unfold message_fits. cbn [dm_service edge_count edges Meta.single_dependency].
    split; [apply (Hw 2); lia|]. split; [change (0 ≤ 1 ≤ 4); lia|]. split; [reflexivity|].
    change (Forall (λ e, in_width 32 (depends_on e)) [MkEdge 1 Running; MkEdge 0 Declared; MkEdge 0 Declared; MkEdge 0 Declared]).
    repeat (apply Forall_cons_2; [apply Hw; cbn; lia|]). apply Forall_nil_2.
  - assert (¬ message_v1 (MsgHealth (MkReport 2 1 HealthOk 7))) as Hn by (intros [_ H]; discriminate H).
    split; [exact Hn|].
    apply (proj2 (proj2 (lifecycle_codec (MsgHealth (MkReport 2 1 HealthOk 7)) [] 0))); [|exact Hn].
    split; [apply (Hw 2); lia|]. split; [apply (Hw 1); lia|apply (Hw 7); lia].
Defined.
