(* ===== verification/Supervisor.v ===== *)
(** The supervisor: registry ownership, control and diagnostics (supervisor/src/runtime.rs,
    control.rs, diagnostics.rs, with the line formats of service-lifecycle/src/diagnostics.rs),
    and the convergence of health, dependencies and restarts (convergence.rs).

    The lifecycle-control transport and the diagnostic sink are traits of the source and
    classes here. Handling an event may restart services, which drains more events: the
    recursion through [handle_lifecycle_event] has fuel. *)

From Stdlib Require Import ZArith Lia String.
From stdpp Require Import base list tactics decidable numbers strings pretty.
From S2P Require Import Prelude Lifecycle LifecycleHealth LifecycleDeps LifecycleWire.

Local Open Scope Z_scope.

(** * Traits *)

Inductive LifecycleControlError : Type := TransportFailed | Unsupported.

Inductive SupervisorError : Type :=
  | RegistryFailed (error : ServiceRegistryError)
  | ControlFailed (error : LifecycleControlError)
  | UnknownSupervised.

Class LifecycleControl (C : Type) : Type := {
  issue_control : ControlRequest → C → C * result LifecycleControlError unit;
  poll_event : Z → C → C * result LifecycleControlError (option LifecycleEvent)
}.

Class DiagnosticSink (D : Type) : Type := emit_line : string → D → D * result SupervisorError unit.

(** ** The transport of the host tests *)

Record FakeLifecycleControl : Type := MkFake {
  issued : list (option ControlRequest);
  issued_len : nat;
  fake_pending : list (option LifecycleEvent);
  pending_count : Z
}.

Module FakeControl.
Definition new (MAX_EVENTS : nat) : FakeLifecycleControl :=
  MkFake (replicate MAX_EVENTS None) 0 (replicate MAX_EVENTS None) 0.

Definition push_pending (event : LifecycleEvent) (f : FakeLifecycleControl) :
    FakeLifecycleControl * result LifecycleControlError unit :=
  if decide (Z.of_nat (length (fake_pending f)) ≤ pending_count f) then (f, Err TransportFailed)
  else
    match position Slots.is_vacant (fake_pending f) with
    | Some slot =>
        (MkFake (issued f) (issued_len f) (<[slot := Some event]> (fake_pending f)) (pending_count f + 1), Ok ())
    | None => (f, Err TransportFailed)
    end.

Definition issue_control (request : ControlRequest) (f : FakeLifecycleControl) :
    FakeLifecycleControl * result LifecycleControlError unit :=
  if decide (length (issued f) ≤ issued_len f)%nat then (f, Err TransportFailed)
  else (MkFake (<[issued_len f := Some request]> (issued f)) (S (issued_len f)) (fake_pending f) (pending_count f), Ok ()).

(** The first queued event of the service, and the queue without it. *)
Fixpoint take_event (service : Z) (q : list (option LifecycleEvent)) : option (LifecycleEvent * list (option LifecycleEvent)) :=
  match q with
  | [] => None
  | entry :: q =>
      match entry with
      | Some event =>
          if decide (si_service (ev_instance event) = service) then Some (event, None :: q)
          else option_map (λ '(e, q), (e, entry :: q)) (take_event service q)
      | None => option_map (λ '(e, q), (e, entry :: q)) (take_event service q)
      end
  end.

Definition poll_event (service : Z) (f : FakeLifecycleControl) :
    FakeLifecycleControl * result LifecycleControlError (option LifecycleEvent) :=
  match take_event service (fake_pending f) with
  | Some (event, q) => (MkFake (issued f) (issued_len f) q (saturating_sub (pending_count f) 1), Ok (Some event))
  | None => (f, Ok None)
  end.
End FakeControl.

#[export] Instance fake_control : LifecycleControl FakeLifecycleControl :=
  {| issue_control := FakeControl.issue_control; poll_event := FakeControl.poll_event |}.

(** ** The transport over system calls *)

(** The two lifecycle system calls: status and reply buffer. *)
Class LifecycleKernel (K : Type) : Type := {
  sys_lifecycle_control : Z → list Z → K → K * (Z * list Z);
  sys_lifecycle_poll : Z → Z → K → K * (Z * list Z)
}.

Record SyscallLifecycleControl (K : Type) : Type := MkSyscall {
  capability : Z;
  sys_pending : list (option LifecycleEvent);
  sys_pending_count : Z;
  kernel : K
}.

Arguments MkSyscall {K}.
Arguments capability {K}.
Arguments sys_pending {K}.
Arguments sys_pending_count {K}.
Arguments kernel {K}.

Module Syscall.
Section syscall.
Context {K : Type} `{LifecycleKernel K}.

Implicit Types c : SyscallLifecycleControl K.

Definition SYSCALL_ESTALE : Z := u64_max - 116.

Definition new (MAX_EVENTS : nat) (cap : Z) (k : K) : SyscallLifecycleControl K := MkSyscall cap (replicate MAX_EVENTS None) 0 k.

Definition set_kernel (k : K) c : SyscallLifecycleControl K := MkSyscall (capability c) (sys_pending c) (sys_pending_count c) k.

Definition push_pending (event : LifecycleEvent) c : SyscallLifecycleControl K * result LifecycleControlError unit :=
  if decide (Z.of_nat (length (sys_pending c)) ≤ sys_pending_count c) then (c, Err TransportFailed)
  else
    match position Slots.is_vacant (sys_pending c) with
    | None => (c, Err TransportFailed)
    | Some slot =>
        (MkSyscall (capability c) (<[slot := Some event]> (sys_pending c)) (sys_pending_count c + 1) (kernel c), Ok ())
    end.

(** The event in a reply of [status] bytes. *)
Definition read_reply (status : Z) (reply : list Z) : result LifecycleControlError (option LifecycleEvent) :=
  if decide (status = 0) then Ok None
  else if decide (Z.of_nat LIFECYCLE_WIRE_MAX_BYTES < status) then Err TransportFailed
  else
    match Wire.decode (take (Z.to_nat status) reply) with
    | Ok (MsgEvent event, _) => Ok (Some event)
    | _ => Err TransportFailed
    end.

Definition syscall_lifecycle (request : ControlRequest) c :
    SyscallLifecycleControl K * result LifecycleControlError (option LifecycleEvent) :=
  let '(k, (status, reply)) := sys_lifecycle_control (capability c) (Wire.encode (MsgControl request)) (kernel c) in
  (set_kernel k c, if decide (status = SYSCALL_ESTALE) then Err TransportFailed else read_reply status reply).

Definition syscall_poll (service : Z) c : SyscallLifecycleControl K * result LifecycleControlError (option LifecycleEvent) :=
  let '(k, (status, reply)) := sys_lifecycle_poll service (capability c) (kernel c) in
  (set_kernel k c, read_reply status reply).

Definition issue_control (request : ControlRequest) c : SyscallLifecycleControl K * result LifecycleControlError unit :=
  let?+ c, event := syscall_lifecycle request c in
  match event with Some event => push_pending event c | None => (c, Ok ()) end.

Definition poll_event (service : Z) c : SyscallLifecycleControl K * result LifecycleControlError (option LifecycleEvent) :=
  match FakeControl.take_event service (sys_pending c) with
  | Some (event, q) => (MkSyscall (capability c) q (saturating_sub (sys_pending_count c) 1) (kernel c), Ok (Some event))
  | None => syscall_poll service c
  end.
End syscall.
End Syscall.

#[export] Instance syscall_control {K : Type} `{LifecycleKernel K} : LifecycleControl (SyscallLifecycleControl K) :=
  {| issue_control := Syscall.issue_control; poll_event := Syscall.poll_event |}.

(** * Diagnostic lines *)

(** Integers are printed in decimal. *)
Definition dec (n : Z) : string := pretty (Z.to_N n).

Definition newline : string := String (Ascii.ascii_of_nat 10) "".

Definition suppressed_token (reason : RestartSuppressedReason) : string :=
  match reason with PolicyNever => "never" | RetryExhausted => "exhausted" | DependencyBlocked => "dependency" end.

Definition failure_token (reason : HealthFailureReason) : string :=
  match reason with
  | LivenessTimeout => "timeout"
  | ProcessExited _ => "exit"
  | ProcessFaulted _ => "fault"
  | SelfReportedUnhealthy => "self_reported"
  end.

(** The pieces that [writeln!] hands to the buffer. *)
Module Format.
Definition started_line (pid : Z) : list string := ["[SUP ] started pid="; dec pid; newline]%string.

Definition registered_line (service : Z) : list string := ["[SUP ] registered service="; dec service; newline]%string.

Definition failure_line (service pid : Z) : list string :=
  ["[SUP ] failure service="; dec service; " pid="; dec pid; newline]%string.

Definition restart_line (service attempt : Z) : list string :=
  ["[SUP ] restart service="; dec service; " attempt="; dec attempt; newline]%string.

Definition restarted_line (service old_pid new_pid : Z) : list string :=
  ["[SUP ] restarted service="; dec service; " old-pid="; dec old_pid; " new-pid="; dec new_pid; newline]%string.

Definition restart_suppressed_line (service : Z) (reason : RestartSuppressedReason) : list string :=
  ["[SUP ] restart suppressed service="; dec service; " reason="; suppressed_token reason; newline]%string.

Definition service_state_line (service : Z) (state : ServiceLifecycleState) (pid : option Z) (generation : Z) : list string :=
  match pid with
  | Some pid =>
      ["[SUP ] service="; dec service; " state="; dec (Repr.state state); " pid="; dec pid; " gen="; dec generation; newline]%string
  | None => ["[SUP ] service="; dec service; " state="; dec (Repr.state state); " pid=- gen="; dec generation; newline]%string
  end.

Definition declared_line (service : Z) : list string := ["[SVC ] declared service="; dec service; newline]%string.

Definition instance_line (instance : ServiceInstanceId) : list string :=
  ["[SVC ] instance service="; dec (si_service instance); " pid="; dec (si_pid instance); " gen="; dec (si_generation instance); newline]%string.

Definition health_healthy_line (service generation : Z) : list string :=
  ["[HLTH] service="; dec service; " healthy gen="; dec generation; newline]%string.

Definition health_unhealthy_line (service : Z) (reason : HealthFailureReason) : list string :=
  ["[HLTH] service="; dec service; " unhealthy reason="; failure_token reason; newline]%string.

Definition dependency_ready_line (service : Z) : list string := ["[DEP ] service="; dec service; " ready"; newline]%string.

Definition dependency_blocked_line (service : Z) (reason : StartBlockReason) : list string :=
  let blocked_by :=
    match reason with
    | DependencyNotReady dependency _ _ | DependencyFailed dependency _ | DependencyUnhealthy dependency _ => dependency
    end in
  ["[DEP ] service="; dec service; " blocked-by="; dec blocked_by; newline]%string.
End Format.

(** A [LineBuffer] of [capacity] bytes. *)
Module Line.
Definition write_str (capacity : nat) (s : string) (buffer : string) : option string :=
  let next := (String.length buffer + String.length s)%nat in
  if decide (capacity < next)%nat then None else Some (buffer +:+ s).

Fixpoint write_all (capacity : nat) (pieces : list string) (buffer : string) : option string :=
  match pieces with
  | [] => Some buffer
  | s :: pieces => match write_str capacity s buffer with Some b => write_all capacity pieces b | None => None end
  end.
End Line.

(** * The runtime *)

Record Supervisor (C D : Type) : Type := MkSup {
  self_pid : Z;
  registry : Tracker;
  control : C;
  diagnostics : D
}.

Arguments MkSup {C D}.
Arguments self_pid {C D}.
Arguments registry {C D}.
Arguments control {C D}.
Arguments diagnostics {C D}.

Module Sup.
Section runtime.
Context {C D : Type} `{LifecycleControl C} `{DiagnosticSink D}.

Abbreviation S := (Supervisor C D).
Abbreviation M A := (S * result SupervisorError A)%type.

Implicit Types s : S.

Definition LINE_BYTES : nat := 96.

Definition new (N : nat) (pid : Z) (c : C) (d : D) : S := MkSup pid (Registry.new N) c d.

Definition emit_diagnostic (line : string) s : M unit :=
  let '(d, r) := emit_line line (diagnostics s) in (MkSup (self_pid s) (registry s) (control s) d, r).

(** A line formatted into the buffer and emitted. *)
Definition log (pieces : list string) s : M unit :=
  match Line.write_all LINE_BYTES pieces "" with
  | None => (s, Err (ControlFailed TransportFailed))
  | Some line => emit_diagnostic line s
  end.

Definition with_registry {A : Type} (f : Tracker → Tracker * result ServiceRegistryError A) s : M A :=
  let '(t, r) := f (registry s) in (MkSup (self_pid s) t (control s) (diagnostics s), map_err RegistryFailed r).

Definition with_control {A : Type} (f : C → C * result LifecycleControlError A) s : M A :=
  let '(c, r) := f (control s) in (MkSup (self_pid s) (registry s) c (diagnostics s), map_err ControlFailed r).

Definition log_service_state (service : Z) s : M unit :=
  match Registry.query service (registry s) with
  | None => (s, Err UnknownSupervised)
  | Some q => log (Format.service_state_line (q_service q) (q_state q) (q_active_pid q) (q_generation q)) s
  end.

Definition start s : M unit := log (Format.started_line (self_pid s)) s.

Definition register_service (service : Z) s : M unit :=
  let?+ s, _ := with_registry (Registry.declare service) s in
  let?+ s, _ := log (Format.registered_line service) s in
  log_service_state service s.

Definition apply_control (request : ControlRequest) s : M unit := with_registry (Registry.apply_control request) s.

Definition issue_control (request : ControlRequest) s : M unit :=
  let?+ s, _ := with_control (issue_control request) s in
  with_registry (Registry.apply_control request) s.

Definition poll_event (service : Z) s : M (option LifecycleEvent) := with_control (poll_event service) s.

Definition handle_lifecycle_event (event : LifecycleEvent) s : M unit :=
  let?+ s, _ := with_registry (Registry.apply_event event) s in
  log_service_state (si_service (ev_instance event)) s.

(** At most eight events. *)
Fixpoint drain (rounds : nat) (service : Z) s : M unit :=
  match rounds with
  | O => (s, Ok ())
  | Datatypes.S rounds =>
      let?+ s, event := poll_event service s in
      match event with
      | None => (s, Ok ())
      | Some event => let?+ s, _ := handle_lifecycle_event event s in drain rounds service s
      end
  end.

Definition drain_events_for (service : Z) s : M unit := drain 8 service s.

Definition request_start (service : Z) s : M unit :=
  let?+ s, _ := issue_control (MkControl service Start) s in
  let?+ s, _ := drain_events_for service s in
  log_service_state service s.

Definition issue_restart_sequence (service : Z) s : M unit :=
  let?+ s, _ := issue_control (MkControl service Restart) s in
  issue_control (MkControl service Start) s.

Definition request_restart (service : Z) s : M unit :=
  let?+ s, _ := issue_restart_sequence service s in
  let?+ s, _ := drain_events_for service s in
  log_service_state service s.
End runtime.
End Sup.

(** * Convergence *)

Inductive ConvergedSupervisorError : Type :=
  | SupervisorFailed (error : SupervisorError)
  | ConvergedRegistry (error : ServiceRegistryError)
  | HealthFailed (error : SlotError)
  | DependenciesFailed (error : DependencyGraphError)
  | StartBlocked (reason : StartBlockReason)
  | UnknownConverged.

#[export] Instance slot_has_service : HasService RecoverySlot := rs_service.

Record ConvergedSupervisor (C D : Type) : Type := MkConverged {
  supervisor : Supervisor C D;
  health : list (option ServiceHealthRecord);
  dependencies : Graph;
  recovery : list (option RecoverySlot);
  default_liveness : LivenessConfig;
  now : Z;
  dep_health : DependencyHealthSnapshot
}.

Arguments MkConverged {C D}.
Arguments supervisor {C D}.
Arguments health {C D}.
Arguments dependencies {C D}.
Arguments recovery {C D}.
Arguments default_liveness {C D}.
Arguments now {C D}.
Arguments dep_health {C D}.

Module Converged.
Section convergence.
Context {C D : Type} `{LifecycleControl C} `{DiagnosticSink D}.

Abbreviation S := (ConvergedSupervisor C D).
Abbreviation M A := (S * result (stop ConvergedSupervisorError) A)%type.

Implicit Types s : S.

Definition LINE_BYTES : nat := 128.

Definition new (N : nat) (pid : Z) (c : C) (d : D) (liveness : LivenessConfig) : S :=
  MkConverged (Sup.new N pid c d) (replicate N None) (Graph.new N) (replicate N None) liveness 0 (Snapshot.empty N).

Definition set_supervisor (x : Supervisor C D) s : S :=
  MkConverged x (health s) (dependencies s) (recovery s) (default_liveness s) (now s) (dep_health s).

Definition set_health (x : list (option ServiceHealthRecord)) s : S :=
  MkConverged (supervisor s) x (dependencies s) (recovery s) (default_liveness s) (now s) (dep_health s).

Definition set_graph (x : Graph) s : S :=
  MkConverged (supervisor s) (health s) x (recovery s) (default_liveness s) (now s) (dep_health s).

Definition set_recovery (x : list (option RecoverySlot)) s : S :=
  MkConverged (supervisor s) (health s) (dependencies s) x (default_liveness s) (now s) (dep_health s).

Definition set_virtual_ticks (x : Z) s : S :=
  MkConverged (supervisor s) (health s) (dependencies s) (recovery s) (default_liveness s) x (dep_health s).

Definition set_dep_health (x : DependencyHealthSnapshot) s : S :=
  MkConverged (supervisor s) (health s) (dependencies s) (recovery s) (default_liveness s) (now s) x.

(** A call of the inner supervisor, its errors wrapped. *)
Definition sup {A : Type} (f : Supervisor C D → Supervisor C D * result SupervisorError A) s : M A :=
  let '(x, r) := f (supervisor s) in (set_supervisor x s, map_err (λ e, Raise (SupervisorFailed e)) r).

(** [self.health.record_mut(service).map_err(Health)?] and what is done with the record. *)
Definition with_health {A : Type} (service : Z) (f : ServiceHealthRecord → ServiceHealthRecord * A) s : M A :=
  let '(x, r) := Slots.update service f (health s) in (set_health x s, map_err (λ e, Raise (HealthFailed e)) r).

(** [self.recovery_slot_mut(service)?] and what is done with the slot. *)
Definition with_slot {A : Type} (service : Z) (f : RecoverySlot → RecoverySlot * A) s : M A :=
  let '(x, r) := Slots.update service f (recovery s) in (set_recovery x s, map_err (λ _, Raise UnknownConverged) r).

(** [if let Ok(slot) = self.recovery_slot_mut(service)] *)
Definition touch_slot (service : Z) (f : RecoverySlot → RecoverySlot) s : S :=
  set_recovery (Slots.update service (λ x, (f x, ())) (recovery s)).1 s.

(** ** Diagnostics *)

Definition emit (pieces : list string) s : M unit :=
  match Line.write_all LINE_BYTES pieces "" with
  | None => (s, Err (Raise (SupervisorFailed UnknownSupervised)))
  | Some line => sup (Sup.emit_diagnostic line) s
  end.

Definition set_healthy_emitted (generation : Z) (x : RecoverySlot) : RecoverySlot :=
  MkSlot (rs_service x) (runtime x) (scheduled_attempt x) (restart_old_pid x) generation (healthy_reports_since_spawn x).

Definition maybe_emit_acceptance_health (service generation : Z) s : M unit :=
  if decide (generation ≠ 1 ∧ generation ≠ 2) then (s, Ok ())
  else
    let?+ s, emitted := with_slot service (λ x, (x, last_healthy_gen_emitted x)) s in
    if decide (emitted = generation) then (s, Ok ())
    else
      let?+ s, _ := emit (Format.health_healthy_line service generation) s in
      with_slot service (λ x, (set_healthy_emitted generation x, ())) s.

(** ** Dependencies *)

Definition health_status (r : ServiceHealthRecord) : HealthStatus :=
  if Health.is_healthy r then HealthOk
  else match Health.failure_reason r with Some _ => HealthUnhealthy | None => HealthUnknown end.

Definition refresh_dependency_health s : S :=
  set_dep_health
    (foldl (λ snapshot slot,
       match slot with
       | None => snapshot
       | Some entry =>
           match Slots.record (rs_service entry) (health s) with
           | Err _ => snapshot
           | Ok record => (Snapshot.set (rs_service entry) (health_status record) snapshot).1
           end
       end) (Snapshot.empty (length (recovery s))) (recovery s)) s.

Definition readiness (service : Z) s : M StartReadiness :=
  (s, map_err (λ e, Raise (DependenciesFailed e))
        (Graph.evaluate_start_readiness service (registry (supervisor s)) (Some (dep_health s)) (dependencies s))).

Definition ensure_start_ready (service : Z) s : M unit :=
  let s := refresh_dependency_health s in
  let?+ s, ready := readiness service s in
  match ready with
  | ReadyToStart =>
      if Graph.has_dependencies service (dependencies s) then emit (Format.dependency_ready_line service) s else (s, Ok ())
  | Blocked reason =>
      let?+ s, _ := emit (Format.dependency_blocked_line service reason) s in
      (s, Err (Raise (StartBlocked reason)))
  end.

(** ** Events and restarts *)

Section recursion.
(** The recursive call of [handle_lifecycle_event]. *)
Variable handle : LifecycleEvent → S → M unit.

Definition is_running (service : Z) s : bool :=
  match Registry.query service (registry (supervisor s)) with
  | Some snapshot => bool_decide (q_state snapshot = Running)
  | None => false
  end.

Fixpoint drain (rounds : nat) (service : Z) s : M unit :=
  match rounds with
  | O => (s, Ok ())
  | Datatypes.S rounds =>
      let?+ s, event := sup (Sup.poll_event service) s in
      match event with
      | None => (s, Ok ())
      | Some event =>
          let?+ s, _ := handle event s in
          if is_running service s then (s, Ok ()) else drain rounds service s
      end
  end.

Definition drain_events (service : Z) s : M unit := drain 8 service s.

Definition try_execute_restart (service attempt : Z) s : M unit :=
  let s := refresh_dependency_health s in
  let?+ s, ready := readiness service s in
  match ready with
  | Blocked reason => emit (Format.dependency_blocked_line service reason) s
  | ReadyToStart =>
      let?+ s, _ := emit (Format.dependency_ready_line service) s in
      let?+ s, _ := with_slot service (λ x, (x, default 0 (failed_pid (runtime x)))) s in
      let?+ s, _ := emit (Format.restart_line service attempt) s in
      let s := touch_slot service (Recover.attempt attempt) s in
      let?+ s, _ := sup (Sup.issue_restart_sequence service) s in
      let?+ s, _ := drain_events service s in
      sup (Sup.log_service_state service) s
  end.

(** One turn of the loop over the slots. *)
Definition drive_slot (index : nat) s : M unit :=
  match recovery s !! index with
  | Some (Some slot) =>
      if Recover.due (now s) slot then try_execute_restart (rs_service slot) (scheduled_attempt slot) s else (s, Ok ())
  | _ => (s, Ok ())
  end.

Definition drive_pending_restarts s : M unit := try_each drive_slot (seq 0 (length (recovery s))) s.

Definition active_pid (service : Z) s : option Z :=
  match Registry.query service (registry (supervisor s)) with Some snapshot => q_active_pid snapshot | None => None end.

Definition on_health_failure (event : HealthFailureEvent) (explicit_pid : option Z) s : M unit :=
  let service := hf_service event in
  let failed := match explicit_pid with Some pid => Some pid | None => active_pid service s end in
  let?+ s, _ := match failed with Some pid => emit (Format.failure_line service pid) s | None => (s, Ok ()) end in
  let?+ s, decision := with_slot service (Recover.fail failed (now s)) s in
  let?+ s, _ := match decision with
                | Suppressed reason => emit (Format.restart_suppressed_line service reason) s
                | Scheduled _ _ => (s, Ok ())
                end in
  drive_pending_restarts s.

(** What an event that the registry accepted does. *)
Definition after_event (event : LifecycleEvent) s : M unit :=
  let service := si_service (ev_instance event) in
  let generation := si_generation (ev_instance event) in
  let pid := si_pid (ev_instance event) in
  match ev_kind event with
  | InstanceSpawned =>
      let?+ s, _ := with_health service (λ r, (Health.begin_instance generation (now s) (default_liveness s) r, ())) s in
      let '(slots, old) := Slots.update service (λ x, (Recover.spawned x, restart_old_pid x)) (recovery s) in
      let s := set_recovery slots s in
      let?+ s, _ := match old with
                    | Ok (Some old_pid) =>
                        if decide (old_pid ≠ pid) then emit (Format.restarted_line service old_pid pid) s else (s, Ok ())
                    | _ => (s, Ok ())
                    end in
      drain_events service s
  | Ready =>
      if decide (generation ≠ 1 ∧ generation ≠ 2) then emit (Format.health_healthy_line service generation) s else (s, Ok ())
  | ExitedEvent | FaultedEvent =>
      let s := touch_slot service Recover.ended s in
      let?+ s, outcome := with_health service (Health.notify_lifecycle_failure generation (ev_kind event) 0 (now s)) s in
      match outcome with
      | FailureMarked failure =>
          let?+ s, _ := emit (Format.health_unhealthy_line service (hf_reason failure)) s in
          on_health_failure failure (Some pid) s
      | _ => (s, Ok ())
      end
  | _ => (s, Ok ())
  end.

(** [Ready] of the instance the registry already runs. *)
Definition repeats_ready (event : LifecycleEvent) s : bool :=
  match ev_kind event, Registry.query (si_service (ev_instance event)) (registry (supervisor s)) with
  | Ready, Some snapshot =>
      bool_decide (q_generation snapshot = si_generation (ev_instance event))
      && bool_decide (q_active_pid snapshot = Some (si_pid (ev_instance event)))
  | _, _ => false
  end.

Definition handle_body (event : LifecycleEvent) s : M unit :=
  let service := si_service (ev_instance event) in
  let generation := si_generation (ev_instance event) in
  let?+ s, _ := match ev_kind event with
                | Ready => maybe_emit_acceptance_health service generation s
                | _ => (s, Ok ())
                end in
  match Sup.handle_lifecycle_event event (supervisor s) with
  | (x, Ok _) =>
      let?+ s, _ := after_event event (set_supervisor x s) in
      drive_pending_restarts s
  | (x, Err (RegistryFailed (Transition _))) =>
      let s := set_supervisor x s in
      if repeats_ready event s then maybe_emit_acceptance_health service generation s else (s, Ok ())
  | (x, Err e) => (set_supervisor x s, Err (Raise (SupervisorFailed e)))
  end.
End recursion.

Fixpoint handle_lifecycle_event (fuel : nat) (event : LifecycleEvent) s : M unit :=
  match fuel with
  | O => (s, Err (Halt "out of fuel"%string))
  | Datatypes.S fuel => handle_body (handle_lifecycle_event fuel) event s
  end.

(** ** The calls of the supervisor's loop *)

Section calls.
Variable fuel : nat.

Definition start s : M unit := sup Sup.start s.

Definition register_service (service : Z) (restart : RestartPolicy) s : M unit :=
  let?+ s, _ := sup (Sup.register_service service) s in
  let '(x, r) := Health.register service (health s) in
  let?+ s, _ := (set_health x s, map_err (λ e, Raise (HealthFailed e)) r) in
  let '(x, r) := Graph.declare service (dependencies s) in
  let?+ s, _ := (set_graph x s, map_err (λ e, Raise (DependenciesFailed e)) r) in
  match position Slots.is_vacant (recovery s) with
  | None => (s, Err (Raise UnknownConverged))
  | Some slot => (set_recovery (<[slot := Some (Recover.register service restart)]> (recovery s)) s, Ok ())
  end.

Definition set_dependencies (m : DependencyMetadata) s : M unit :=
  let '(x, r) := Graph.set_dependencies m (dependencies s) in
  (set_graph x s, map_err (λ e, Raise (DependenciesFailed e)) r).

Definition advance_ticks (t : Z) s : M unit :=
  let s := refresh_dependency_health (set_virtual_ticks t s) in
  let '(x, failures) := Health.poll_timeouts t (health s) in
  let s := set_health x s in
  let?+ s, _ := try_each (λ event, on_health_failure (handle_lifecycle_event fuel) event None)
                  (take (length (recovery s)) failures) s in
  drive_pending_restarts (handle_lifecycle_event fuel) s.

Definition apply_health_report (report : HealthReport) s : M unit :=
  let service := hp_service report in
  let?+ s, outcome := with_health service (Health.apply_report report (now s) (default_liveness s)) s in
  match outcome with
  | MarkedUnhealthy _ reason =>
      let?+ s, _ := emit (Format.health_unhealthy_line service reason) s in
      on_health_failure (handle_lifecycle_event fuel) (MkFailure service (hp_generation report) reason (now s)) None s
  | AcceptedHealthy generation | AcceptedDegraded generation =>
      let?+ s, _ := emit (Format.health_healthy_line service generation) s in
      (touch_slot service Recover.report s, Ok ())
  | _ => (s, Ok ())
  end.

Definition poll_lifecycle_event (service : Z) s : M (option LifecycleEvent) := sup (Sup.poll_event service) s.

Definition request_start (service : Z) s : M unit :=
  let?+ s, _ := ensure_start_ready service s in
  let?+ s, _ := sup (Sup.issue_control (MkControl service Start)) s in
  let?+ s, _ := drain_events (handle_lifecycle_event fuel) service s in
  sup (Sup.log_service_state service) s.
End calls.
End convergence.
End Converged.
