(* ===== verification/SupervisorSafety.v ===== *)
(** The convergence loop of the supervisor terminates and keeps to its restart budget.

    Handling an event can restart services, and a restart delivers more events. The measure
    [budget] counts the events the transport can still deliver: those it holds, and those the
    restarts left to the recovery slots can produce. Every step of the loop moves the state
    along [moves]: the budget does not grow, and what is sent for a service is paid from the
    attempts left in its slot. *)

From Stdlib Require Import ZArith Lia String.
From stdpp Require Import base list tactics decidable numbers strings pretty relations.
From S2P Require Import Prelude Lifecycle LifecycleHealth LifecycleDeps LifecycleWire Supervisor.

Local Open Scope Z_scope.

(** * Sums over slots *)

Lemma sum_insert {A : Type} (f : A → nat) (l : list A) i x y :
  l !! i = Some x → (sum_list_with f (<[i := y]> l) + f x = sum_list_with f l + f y)%nat.
Proof.
  revert i. induction l as [|z l IH]; intros [|i] Hi; [done|done| |]; simpl in *.
  - injection Hi as ->. lia.
  - specialize (IH i Hi). lia.
Qed.

Section loop.
Context {C D : Type} `{LifecycleControl C} `{DiagnosticSink D}.

Abbreviation S := (ConvergedSupervisor C D).

Implicit Types (s : S) (x : RecoverySlot) (service svc : Z).

(** The events the transport holds, at most [K] more for each request, and the restarts
    requested of it. *)
Context (K : nat) (backlog : C → nat) (sent : Z → C → nat).

Hypothesis issue_law : ∀ r c,
  (backlog (issue_control r c).1 ≤ backlog c + K)%nat
  ∧ ∀ svc, (sent svc (issue_control r c).1 ≤ sent svc c + if decide (r = MkControl svc Restart) then 1 else 0)%nat.

Hypothesis poll_law : ∀ service c,
  (∀ svc, (sent svc (poll_event service c).1 ≤ sent svc c)%nat)
  ∧ match (poll_event service c).2 with
    | Ok (Some _) => (backlog (poll_event service c).1 < backlog c)%nat
    | _ => (backlog (poll_event service c).1 ≤ backlog c)%nat
    end.

(** ** The invariant and the measure *)

Definition slot_good x : Prop :=
  in_width 32 (limit (policy (runtime x))) ∧ ∃ t, slot_inv (policy (runtime x)) (MkHistory x (attempts (runtime x)) t).

Definition remaining x : nat := Z.to_nat (limit (policy (runtime x)) - attempts (runtime x)).

Definition slot_remaining (e : option RecoverySlot) : nat := match e with Some x => remaining x | None => 0 end.

Definition left_for svc s : nat := match Slots.record svc (recovery s) with Ok x => remaining x | Err _ => 0 end.

Definition transport s : C := control (supervisor s).

Definition budget s : nat := backlog (transport s) + 2 * K * sum_list_with slot_remaining (recovery s).

Definition registered svc s : Prop := is_ok (Slots.record svc (registry (supervisor s))) = true.

Record good s : Prop := {
  gd_unique : unique (recovery s);
  gd_registry : unique (registry (supervisor s));
  gd_known : ∀ x, Some x ∈ recovery s → registered (rs_service x) s;
  gd_slots : ∀ x, Some x ∈ recovery s → slot_good x
}.

Record moves s s' : Prop := {
  mv_good : good s';
  mv_length : length (recovery s') = length (recovery s);
  mv_known : ∀ svc, registered svc s → registered svc s';
  mv_kept : ∀ svc x, Slots.record svc (recovery s) = Ok x →
    ∃ x', Slots.record svc (recovery s') = Ok x' ∧ policy (runtime x') = policy (runtime x);
  mv_budget : (budget s' ≤ budget s)%nat;
  mv_sent : ∀ svc, (sent svc (transport s') + left_for svc s' ≤ sent svc (transport s) + left_for svc s)%nat
}.

Lemma moves_refl s : good s → moves s s.
Proof. intros Hg. split; eauto. Qed.

Lemma moves_trans s1 s2 s3 : moves s1 s2 → moves s2 s3 → moves s1 s3.
Proof.
  intros [_ L1 K1 P1 B1 S1] [G L2 K2 P2 B2 S2]. split; [done|congruence|eauto| |lia|].
  - intros svc x Hx. destruct (P1 svc x Hx) as (x1 & H1 & E1). destruct (P2 svc x1 H1) as (x2 & H2 & E2). exists x2. split; [done|congruence].
  - intros svc. specialize (S1 svc). specialize (S2 svc). lia.
Qed.

Definition no_halt {A : Type} (r : result (stop ConvergedSupervisorError) A) : Prop :=
  match r with Err (Halt _) => False | _ => True end.

(** A step that moves and does not run out of fuel. *)
Definition runs {A : Type} s (c : S * result (stop ConvergedSupervisorError) A) : Prop := moves s c.1 ∧ no_halt c.2.

Lemma runs_bind {A B : Type} s (c : S * result (stop ConvergedSupervisorError) A) (k : S → A → S * result (stop ConvergedSupervisorError) B) :
  runs s c → (∀ s1 a, c = (s1, Ok a) → moves s s1 → runs s1 (k s1 a)) → runs s (let?+ s1, a := c in k s1 a).
Proof.
  intros [Hm Hn] Hk. destruct c as [s1 [a|e]]; [|by split]. destruct (Hk s1 a eq_refl Hm) as [Hm' Hn'].
  split; [by eapply moves_trans|done].
Qed.

Lemma runs_ok {A : Type} s (a : A) : good s → runs s (s, Ok a).
Proof. intros Hg. split; [by apply moves_refl|done]. Qed.

(** ** Steps that touch neither slots, registry nor transport *)

Definition quiet s s' : Prop :=
  recovery s' = recovery s ∧ registry (supervisor s') = registry (supervisor s) ∧ transport s' = transport s.

Lemma quiet_moves s s' : good s → quiet s s' → moves s s'.
Proof.
  intros [H1 H2 H3 H4] (E1 & E2 & E3). split.
  - split; [by rewrite E1|by rewrite E2| |by rewrite E1]. unfold registered in *. by rewrite E1, E2.
  - by rewrite E1.
  - unfold registered. by rewrite E2.
  - rewrite E1. eauto.
  - unfold budget. by rewrite E1, E3.
  - intros svc. unfold left_for. by rewrite E1, E3.
Qed.

Lemma emit_quiet pieces s : quiet s (Converged.emit pieces s).1 ∧ no_halt (Converged.emit pieces s).2.
Proof.
  unfold Converged.emit. destruct (Line.write_all _ _ _); [|done].
  unfold Converged.sup, Sup.emit_diagnostic. destruct (emit_line _ _) as [d [[]|e]]; done.
Qed.

Lemma emit_runs pieces s : good s → runs s (Converged.emit pieces s).
Proof. intros Hg. destruct (emit_quiet pieces s). split; [by apply quiet_moves|done]. Qed.

(** ** Changing one slot *)

Lemma update_sum {B : Type} svc (f : RecoverySlot → RecoverySlot * B) (slots : list (option RecoverySlot)) x :
  unique slots → Slots.record svc slots = Ok x →
  (sum_list_with slot_remaining (Slots.update svc f slots).1 + remaining x
   = sum_list_with slot_remaining slots + remaining (f x).1)%nat.
Proof.
  intros Hu Hr. unfold Slots.record, Slots.update in *. destruct (Slots.find svc slots) as [i|] eqn:Ef; [|done]. cbn in Hr.
  apply find_Some in Ef as (y & Hi & _); [|done]. rewrite Hi in *. injection Hr as ->. destruct (f x) as [x' b]. cbn.
  apply (sum_insert slot_remaining slots i (Some x) (Some x') Hi).
Qed.

Record slot_changed svc x x' s s' : Prop := {
  sc_good : good s';
  sc_length : length (recovery s') = length (recovery s);
  sc_slot : Slots.record svc (recovery s') = Ok x';
  sc_other : ∀ svc', svc' ≠ svc → Slots.record svc' (recovery s') = Slots.record svc' (recovery s);
  sc_sum : (sum_list_with slot_remaining (recovery s') + remaining x = sum_list_with slot_remaining (recovery s) + remaining x')%nat
}.

Lemma slot_update {B : Type} svc (f : RecoverySlot → RecoverySlot * B) s x :
  good s → Slots.record svc (recovery s) = Ok x → (∀ y, rs_service (f y).1 = rs_service y) → slot_good (f x).1 →
  ∃ slots, Slots.update svc f (recovery s) = (slots, Ok (f x).2)
    ∧ slot_changed svc x (f x).1 s (Converged.set_recovery slots s).
Proof.
  intros [H1 H2 H3 H4] Hx Hf Hgood. pose proof (update_spec (recovery s) svc f H1 Hf) as Hu. rewrite Hx in Hu.
  destruct Hu as (slots & E & Hu' & Hlen & Hrec & _). exists slots. split; [done|].
  pose proof (update_sum svc f (recovery s) x H1 Hx) as Hsum. rewrite E in Hsum. cbn [fst] in Hsum.
  pose proof Hx as [Hin Hsvc]%entry_Ok; [|done].
  assert (∀ y, Some y ∈ slots → y = (f x).1 ∨ Some y ∈ recovery s) as Hcase.
  { intros y Hy. pose proof (proj2 (entry_Ok slots (service_of y) y Hu') (conj Hy eq_refl)) as Er. rewrite Hrec in Er.
    case_decide; [left; congruence|]. right. by apply entry_Ok in Er as [? _]. }
  split; [split|..]; cbn; try done.
  - intros y [->|Hy]%Hcase; [|by apply H3]. rewrite Hf. by apply H3.
  - intros y [->|Hy]%Hcase; [done|by apply H4].
  - by rewrite Hrec, decide_True.
  - intros svc' Hne. by rewrite Hrec, decide_False.
Qed.

(** A change that spends no attempt. *)
Lemma slot_changed_moves svc x x' s s' :
  slot_changed svc x x' s s' → Slots.record svc (recovery s) = Ok x → policy (runtime x') = policy (runtime x) →
  supervisor s' = supervisor s → (remaining x' ≤ remaining x)%nat → moves s s'.
Proof.
  intros [Hg Hl Hx Ho Hs] Hx0 Hp Hsup Hr. split; [done|done| | | |].
  - unfold registered. by rewrite Hsup.
  - intros svc' y Hy. destruct (decide (svc' = svc)) as [->|Hne]; [exists x'|exists y; by rewrite Ho].
    split; [done|congruence].
  - unfold budget, transport. rewrite Hsup. nia.
  - intros svc'. unfold left_for, transport. rewrite Hsup. destruct (decide (svc' = svc)) as [->|Hne]; [rewrite Hx, Hx0; lia|by rewrite Ho].
Qed.

(** The operations on a slot that leave its attempts alone. *)
Lemma slot_step_moves {B : Type} svc (f : RecoverySlot → RecoverySlot * B) s :
  good s → (∀ y, rs_service (f y).1 = rs_service y) →
  (∀ y, slot_good y → slot_good (f y).1 ∧ policy (runtime (f y).1) = policy (runtime y) ∧ attempts (runtime (f y).1) = attempts (runtime y)) →
  moves s (Converged.set_recovery (Slots.update svc f (recovery s)).1 s).
Proof.
  intros Hg Hf Hok. destruct (Slots.record svc (recovery s)) as [x|e] eqn:Ex.
  - pose proof Ex as [Hin _]%entry_Ok; [|apply Hg]. destruct (Hok x (gd_slots _ Hg x Hin)) as (H1 & H2 & H3).
    destruct (slot_update svc f s x Hg Ex Hf H1) as (slots & E & Hc). rewrite E. cbn [fst].
    eapply slot_changed_moves; [exact Hc|done|done|done|]. unfold remaining. rewrite H2, H3. lia.
  - pose proof (update_spec (recovery s) svc f (gd_unique _ Hg) Hf) as Hu. rewrite Ex in Hu. rewrite Hu. by apply quiet_moves.
Qed.

Lemma with_slot_runs {B : Type} svc (f : RecoverySlot → RecoverySlot * B) s :
  good s → (∀ y, rs_service (f y).1 = rs_service y) →
  (∀ y, slot_good y → slot_good (f y).1 ∧ policy (runtime (f y).1) = policy (runtime y) ∧ attempts (runtime (f y).1) = attempts (runtime y)) →
  runs s (Converged.with_slot svc f s).
Proof.
  intros Hg Hf Hok. pose proof (slot_step_moves svc f s Hg Hf Hok) as Hm. unfold Converged.with_slot.
  destruct (Slots.update svc f (recovery s)) as [slots [b|e]]; by split.
Qed.

(** ** The operations on slots *)

Lemma live_good op x r t : slot_good x →
  slot_good (slot (live op (MkHistory x r t)).1) ∧ policy (runtime (slot (live op (MkHistory x r t)).1)) = policy (runtime x).
Proof.
  intros [Hw [t' Hi]]. pose proof (live_inv (policy (runtime x)) op _ Hw Hi) as Hl.
  assert (slot (live op (MkHistory x r t)).1 = slot (live op (MkHistory x (attempts (runtime x)) t')).1) as ->.
  { destruct op as [| now ready| | |]; cbn; try done. by destruct (Recover.due now x && ready). }
  destruct (live op _).1 as [x' r' t'']. pose proof Hl as [Hp Hc _ _]. cbn in Hp, Hc |- *. subst r'.
  split; [|done]. split; [by rewrite Hp|]. exists t''. by rewrite Hp.
Qed.

Lemma slot_good_ext x x' : runtime x' = runtime x → scheduled_attempt x' = scheduled_attempt x → slot_good x → slot_good x'.
Proof.
  intros E1 E2 [Hw [t [Hp Hc Hb Hn]]]. cbn in *. split; [by rewrite E1|]. exists t. split; cbn; rewrite E1; [done..|]. by rewrite E2.
Qed.

Definition harmless {B : Type} (f : RecoverySlot → RecoverySlot * B) : Prop :=
  (∀ y, rs_service (f y).1 = rs_service y) ∧
  ∀ y, slot_good y → slot_good (f y).1 ∧ policy (runtime (f y).1) = policy (runtime y) ∧ attempts (runtime (f y).1) = attempts (runtime y).

Lemma same_runtime_harmless {B : Type} (f : RecoverySlot → RecoverySlot * B) :
  (∀ y, rs_service (f y).1 = rs_service y ∧ runtime (f y).1 = runtime y ∧ scheduled_attempt (f y).1 = scheduled_attempt y) → harmless f.
Proof.
  intros Hf. split; [intros y; apply Hf|]. intros y Hy. destruct (Hf y) as (_ & E1 & E2).
  split; [by eapply slot_good_ext|by rewrite E1].
Qed.

Lemma fail_harmless pid t : harmless (Recover.fail pid t).
Proof.
  split.
  - intros y. unfold Recover.fail. by destruct (Recovery.on_failure _ _ _).
  - intros y Hy. destruct (live_good (Fail pid t) y 0 0 Hy) as [H1 H2]. cbn in H1, H2. split_and!; [done|done|].
    unfold Recover.fail, Recovery.on_failure. destruct (policy (runtime y)); [done|]. by case_decide.
Qed.

(** A due restart spends one attempt. *)
Lemma attempt_spends t x :
  slot_good x → Recover.due t x = true → let x' := Recover.attempt (scheduled_attempt x) x in
  slot_good x' ∧ policy (runtime x') = policy (runtime x) ∧ (remaining x' + 1 = remaining x)%nat.
Proof.
  intros Hx Hdue. destruct (live_good (Drive t true) x 0 0 Hx) as [H1 H2]. cbn [live slot] in H1, H2.
  rewrite Hdue in H1, H2. split_and!; [done|done|]. destruct Hx as [Hw [t' [_ _ Hb Hn]]]. cbn in Hb, Hn.
  apply andb_true_iff in Hdue as [Hp _]. destruct (Hn Hp) as (Hlt & Hs & _). unfold remaining. cbn. lia.
Qed.

(** ** Registry and transport *)

Lemma registry_moves s t :
  good s → unique t → (∀ svc, registered svc s → is_ok (Slots.record svc t) = true) →
  moves s (Converged.set_supervisor (MkSup (self_pid (supervisor s)) t (control (supervisor s)) (diagnostics (supervisor s))) s).
Proof.
  intros [H1 H2 H3 H4] Hu Hk. split; [|done|done|by eauto|done|done]. split; [done|done| |done].
  intros x Hx. by apply Hk, H3.
Qed.

Lemma apply_control_service request r : lr_service (Rec.apply_control request r).1 = lr_service r.
Proof. unfold Rec.apply_control. case_decide; [done|]. by destruct (State.apply_transition _ _ _ _) as [[]|]. Qed.

Lemma apply_event_service event r : lr_service (Rec.apply_event event r).1 = lr_service r.
Proof.
  unfold Rec.apply_event. case_decide; [done|]. destruct (Rec.mismatch _ _); [done|].
  by destruct (State.apply_transition _ _ _ _) as [[]|].
Qed.

Lemma apply_to_known svc f (t : Tracker) : unique t → (∀ r, lr_service (f r).1 = lr_service r) →
  unique (Registry.apply_to svc f t).1 ∧
  ∀ svc', is_ok (Slots.record svc' t) = true → is_ok (Slots.record svc' (Registry.apply_to svc f t).1) = true.
Proof.
  intros Hu Hf. unfold Registry.apply_to. pose proof (update_spec t svc f Hu Hf) as Hs.
  destruct (Slots.record svc t) as [a|e].
  - destruct Hs as (t' & -> & Hu' & _ & Hr & _). destruct (f a) as [a' [u|e]]; cbn; (split; [done|]); intros svc'; rewrite Hr; by case_decide.
  - by rewrite Hs.
Qed.

(** What the calls of the inner supervisor do to its registry. *)
Definition sup_ext (x y : Supervisor C D) : Prop :=
  unique (registry x) → unique (registry y) ∧
  ∀ svc, is_ok (Slots.record svc (registry x)) = true → is_ok (Slots.record svc (registry y)) = true.

Lemma sup_ext_trans (x y z : Supervisor C D) : sup_ext x y → sup_ext y z → sup_ext x z.
Proof. intros H1 H2 Hu. destruct (H1 Hu) as [Hu' K1]. destruct (H2 Hu') as [? K2]. eauto. Qed.

Lemma with_control_ext {A : Type} (f : C → C * result LifecycleControlError A) (x : Supervisor C D) :
  sup_ext x (Sup.with_control f x).1 ∧ control (Sup.with_control f x).1 = (f (control x)).1.
Proof. unfold Sup.with_control. destruct (f (control x)). done. Qed.

Lemma apply_control_ext r (x : Supervisor C D) :
  sup_ext x (Sup.apply_control r x).1 ∧ control (Sup.apply_control r x).1 = control x.
Proof.
  unfold Sup.apply_control, Sup.with_registry.
  assert (unique (registry x) → unique (Registry.apply_control r (registry x)).1 ∧
    ∀ svc', is_ok (Slots.record svc' (registry x)) = true → is_ok (Slots.record svc' (Registry.apply_control r (registry x)).1) = true) as Hk.
  { intros Hu. apply apply_to_known; [done|]. intros y. apply apply_control_service. }
  destruct (Registry.apply_control r (registry x)). done.
Qed.

Lemma log_state_ext svc (x : Supervisor C D) :
  registry (Sup.log_service_state svc x).1 = registry x ∧ control (Sup.log_service_state svc x).1 = control x.
Proof.
  unfold Sup.log_service_state, Sup.log, Sup.emit_diagnostic. destruct (Registry.query _ _); [|done].
  destruct (Line.write_all _ _ _); [|done]. by destruct (emit_line _ _).
Qed.

Lemma handle_ext e (x : Supervisor C D) :
  sup_ext x (Sup.handle_lifecycle_event e x).1 ∧ control (Sup.handle_lifecycle_event e x).1 = control x.
Proof.
  unfold Sup.handle_lifecycle_event, Sup.with_registry.
  assert (unique (registry x) → unique (Registry.apply_event e (registry x)).1 ∧
    ∀ svc', is_ok (Slots.record svc' (registry x)) = true → is_ok (Slots.record svc' (Registry.apply_event e (registry x)).1) = true) as Hk.
  { intros Hu. apply apply_to_known; [done|]. intros y. apply apply_event_service. }
  destruct (Registry.apply_event e (registry x)) as [t [[]|err]]; [|done]. cbn [map_err].
  destruct (log_state_ext (si_service (ev_instance e)) (MkSup (self_pid x) t (control x) (diagnostics x))) as [E1 E2].
  split; [|by rewrite E2]. unfold sup_ext. rewrite E1. exact Hk.
Qed.

Lemma issue_ext r (x : Supervisor C D) :
  sup_ext x (Sup.issue_control r x).1 ∧ control (Sup.issue_control r x).1 = (issue_control r (control x)).1.
Proof.
  unfold Sup.issue_control. destruct (with_control_ext (issue_control r) x) as [H1 E1].
  destruct (Sup.with_control _ _) as [x1 [[]|e]]; [|done]. destruct (apply_control_ext r x1) as [H2 E2]. fold (Sup.apply_control r x1).
  split; [by eapply sup_ext_trans|]. cbn in E1. congruence.
Qed.

Lemma restart_ext svc (x : Supervisor C D) :
  sup_ext x (Sup.issue_restart_sequence svc x).1
  ∧ (backlog (control (Sup.issue_restart_sequence svc x).1) ≤ backlog (control x) + 2 * K)%nat
  ∧ ∀ svc', (sent svc' (control (Sup.issue_restart_sequence svc x).1) ≤ sent svc' (control x) + if decide (svc' = svc) then 1 else 0)%nat.
Proof.
  unfold Sup.issue_restart_sequence. destruct (issue_ext (MkControl svc Restart) x) as [H1 E1].
  destruct (issue_law (MkControl svc Restart) (control x)) as [B1 S1]. rewrite <- E1 in B1, S1.
  assert (∀ svc', ((if decide (MkControl svc Restart = MkControl svc' Restart) then 1 else 0) ≤ if decide (svc' = svc) then 1 else 0)%nat) as Hd.
  { intros svc'. repeat case_decide; try lia. congruence. }
  destruct (Sup.issue_control _ _) as [x1 [[]|e]]; cbn [fst] in *.
  - destruct (issue_ext (MkControl svc Start) x1) as [H2 E2]. destruct (issue_law (MkControl svc Start) (control x1)) as [B2 S2]. rewrite <- E2 in B2, S2.
    split; [by eapply sup_ext_trans|]. split; [lia|]. intros svc'. specialize (S1 svc'). specialize (S2 svc'). specialize (Hd svc').
    rewrite (decide_False (P := MkControl svc Start = _)) in S2 by congruence. lia.
  - split; [done|]. split; [lia|]. intros svc'. specialize (S1 svc'). specialize (Hd svc'). lia.
Qed.

(** A new inner supervisor that cost the transport nothing. *)
Lemma set_sup_moves s y :
  good s → sup_ext (supervisor s) y → (backlog (control y) ≤ backlog (transport s))%nat →
  (∀ svc, (sent svc (control y) ≤ sent svc (transport s))%nat) → moves s (Converged.set_supervisor y s).
Proof.
  intros [H1 H2 H3 H4] He Hb Hs. destruct (He H2) as [Hu Hk]. split; [|done|exact Hk|by eauto| |].
  - split; [done|done| |done]. intros x Hx. by apply Hk, H3.
  - unfold budget. cbn -[Nat.mul]. unfold transport in *. cbn -[Nat.mul]. lia.
  - intros svc. specialize (Hs svc). unfold left_for, transport in *. cbn. lia.
Qed.

Lemma log_state_runs svc s : good s → runs s (Converged.sup (Sup.log_service_state svc) s).
Proof.
  intros Hg. unfold Converged.sup. destruct (log_state_ext svc (supervisor s)) as [E1 E2].
  destruct (Sup.log_service_state _ _) as [y [[]|e]]; (split; [|done]); (apply quiet_moves; [done|]); by split_and!.
Qed.

Lemma poll_runs svc s : good s → runs s (Converged.sup (Sup.poll_event svc) s).
Proof.
  intros Hg. unfold Converged.sup, Sup.poll_event. destruct (with_control_ext (poll_event svc) (supervisor s)) as [H1 E1].
  destruct (poll_law svc (control (supervisor s))) as [HS HB]. rewrite <- E1 in HS.
  assert (backlog (control (Sup.with_control (poll_event svc) (supervisor s)).1) ≤ backlog (transport s))%nat as HB'.
  { rewrite E1. unfold transport. destruct (poll_event svc _).2 as [[]|]; lia. }
  destruct (Sup.with_control _ _) as [y r]. split; [by apply set_sup_moves|]. by destruct r.
Qed.

Lemma poll_spends svc s s1 e : Converged.sup (Sup.poll_event svc) s = (s1, Ok (Some e)) → (budget s1 < budget s)%nat.
Proof.
  unfold Converged.sup, Sup.poll_event, Sup.with_control. destruct (poll_law svc (control (supervisor s))) as [_ HB].
  destruct (poll_event svc (control (supervisor s))) as [c [o|err]]; [|done]. cbn in HB |- *. intros [= <- ->].
  unfold budget, transport. cbn -[Nat.mul]. lia.
Qed.

Section recursion.
Context (n : nat) (handle : LifecycleEvent → S → S * result (stop ConvergedSupervisorError) unit).

Hypothesis handle_ok : ∀ e s, good s → (budget s < n)%nat → runs s (handle e s).

(** Steps that are safe in a good state whose budget the recursion can pay. *)
Definition steps {A : Type} (body : S → S * result (stop ConvergedSupervisorError) A) : Prop :=
  ∀ s, good s → (budget s ≤ n)%nat → runs s (body s).

Lemma steps_bind {A B : Type} (body : S → S * result (stop ConvergedSupervisorError) A) (k : A → S → S * result (stop ConvergedSupervisorError) B) :
  steps body → (∀ a, steps (k a)) → steps (λ s, let?+ s, a := body s in k a s).
Proof.
  intros Hb Hk s Hg Hn. apply runs_bind; [by apply Hb|]. intros s1 a _ Hm. apply Hk; [apply Hm|]. pose proof (mv_budget _ _ Hm). lia.
Qed.

Lemma steps_emit pieces : steps (Converged.emit pieces).
Proof. intros s Hg _. by apply emit_runs. Qed.

Lemma steps_ok {A : Type} (a : A) : steps (λ s, (s, Ok a)).
Proof. intros s Hg _. by apply runs_ok. Qed.

Lemma steps_each {A : Type} (body : A → S → S * result (stop ConvergedSupervisorError) unit) (l : list A) :
  (∀ a, steps (body a)) → steps (try_each body l).
Proof.
  intros Hb. induction l as [|a l IH]; [apply steps_ok|]. cbn [try_each]. by apply steps_bind.
Qed.

Lemma steps_drain rounds svc : steps (Converged.drain handle rounds svc).
Proof.
  induction rounds as [|rounds IH]; cbn [Converged.drain]; [apply steps_ok|]. intros s Hg Hn.
  apply runs_bind; [by apply poll_runs|]. intros s1 [e|] E Hm; [|apply runs_ok, Hm].
  pose proof (poll_spends _ _ _ _ E). apply runs_bind; [apply handle_ok; [apply Hm|lia]|]. intros s2 [] _ Hm2.
  destruct (Converged.is_running _ _); [apply runs_ok, Hm2|]. apply IH; [apply Hm2|]. pose proof (mv_budget _ _ Hm2). lia.
Qed.

(** A due restart: the attempt it spends pays for what is sent. *)
Lemma restart_moves svc t s x :
  good s → Slots.record svc (recovery s) = Ok x → Recover.due t x = true →
  runs s (Converged.sup (Sup.issue_restart_sequence svc) (Converged.touch_slot svc (Recover.attempt (scheduled_attempt x)) s)).
Proof.
  intros Hg Hx Hdue. pose proof Hx as [Hin _]%entry_Ok; [|apply Hg].
  destruct (attempt_spends t x (gd_slots _ Hg x Hin) Hdue) as (H1 & H2 & H3).
  destruct (slot_update svc (λ y, (Recover.attempt (scheduled_attempt x) y, ())) s x Hg Hx) as (slots & E & Hc); [done|done|].
  unfold Converged.touch_slot. rewrite E. cbn [fst snd] in *. set (s1 := Converged.set_recovery slots s) in *.
  unfold Converged.sup. destruct (restart_ext svc (supervisor s1)) as (He & Hb & Hs).
  destruct (Sup.issue_restart_sequence svc (supervisor s1)) as [y r]. cbn [fst] in He, Hb, Hs. split; [|by destruct r].
  destruct Hc as [[G1 G2 G3 G4] Hlen Hslot Hother Hsum]. destruct (He G2) as [Hu Hk]. split.
  - split; [done|done| |done]. intros z Hz. by apply Hk, G3.
  - done.
  - done.
  - intros svc' z Hz. cbn. destruct (decide (svc' = svc)) as [->|Hne]; [exists (Recover.attempt (scheduled_attempt x) x)|exists z; by rewrite Hother].
    split; [done|congruence].
  - unfold budget, transport in *. cbn -[Nat.mul] in *. nia.
  - intros svc'. specialize (Hs svc'). unfold left_for, transport in *. cbn in *. destruct (decide (svc' = svc)) as [->|Hne].
    + rewrite Hslot, Hx. lia.
    + rewrite Hother by done. lia.
Qed.

Lemma refresh_quiet s : quiet s (Converged.refresh_dependency_health s).
Proof. done. Qed.

Lemma emit_bind {B : Type} pieces s (k : S → S * result (stop ConvergedSupervisorError) B) :
  good s → (∀ s1, quiet s s1 → moves s s1 → runs s1 (k s1)) → runs s (let?+ s1, _ := Converged.emit pieces s in k s1).
Proof.
  intros Hg Hk. destruct (emit_quiet pieces s) as [Q N]. apply runs_bind; [by apply emit_runs|].
  intros s1 [] E Hm. rewrite E in Q. by apply Hk.
Qed.

Lemma runs_weaken {A : Type} s s1 (c : S * result (stop ConvergedSupervisorError) A) : moves s s1 → runs s1 c → runs s c.
Proof. intros Hm [H1 H2]. split; [by eapply moves_trans|done]. Qed.

(** Reading a slot changes nothing. *)
Lemma read_slot {B : Type} svc (g : RecoverySlot → B) s x :
  good s → Slots.record svc (recovery s) = Ok x → ∃ s1, Converged.with_slot svc (λ y, (y, g y)) s = (s1, Ok (g x)) ∧ quiet s s1.
Proof.
  intros Hg Hx. unfold Converged.with_slot. pose proof (update_spec (recovery s) svc (λ y, (y, g y)) (gd_unique _ Hg)) as Hu.
  rewrite Hx in Hu. destruct Hu as (slots & -> & _ & _ & _ & Hid); [done|]. rewrite Hid by done.
  eexists. split; [done|]. done.
Qed.

Lemma try_execute_runs svc t s x :
  good s → (budget s ≤ n)%nat → Slots.record svc (recovery s) = Ok x → Recover.due t x = true →
  runs s (Converged.try_execute_restart handle svc (scheduled_attempt x) s).
Proof.
  intros Hg Hn Hx Hdue. unfold Converged.try_execute_restart, Converged.readiness.
  assert (moves s (Converged.refresh_dependency_health s)) as Hm0 by by apply quiet_moves.
  apply (runs_weaken _ _ _ Hm0). pose proof (mv_good _ _ Hm0) as Hg0. pose proof (mv_budget _ _ Hm0) as Hn0.
  destruct (Graph.evaluate_start_readiness _ _ _ _) as [[|reason]|e]; cbn [map_err];
    [|by apply emit_runs|by split; [apply moves_refl|]].
  apply emit_bind; [done|]. intros s1 (R1 & _) Hm1. pose proof (mv_good _ _ Hm1) as Hg1.
  destruct (read_slot svc (λ y, default 0 (failed_pid (runtime y))) s1 x Hg1) as (s2 & -> & Q2); [by rewrite R1|].
  pose proof (quiet_moves _ _ Hg1 Q2) as Hm2. apply (runs_weaken _ _ _ Hm2). destruct Q2 as (R2 & _).
  apply emit_bind; [apply Hm2|]. intros s3 (R3 & _) Hm3.
  apply runs_bind; [apply (restart_moves svc t); [apply Hm3|rewrite R3, R2, R1; done|done]|].
  intros s4 [] _ Hm4. pose proof (mv_budget _ _ Hm1). pose proof (mv_budget _ _ Hm2). pose proof (mv_budget _ _ Hm3).
  pose proof (mv_budget _ _ Hm4).
  apply runs_bind; [apply steps_drain; [apply Hm4|lia]|]. intros s5 [] _ Hm5. apply log_state_runs, Hm5.
Qed.

Lemma steps_drive : steps (Converged.drive_pending_restarts handle).
Proof.
  intros s Hg Hn. unfold Converged.drive_pending_restarts. apply steps_each; [|done|done].
  clear s Hg Hn. intros i s Hg Hn. unfold Converged.drive_slot.
  destruct (recovery s !! i) as [[x|]|] eqn:Ei; [|by apply runs_ok..]. destruct (Recover.due (now s) x) eqn:Ed; [|by apply runs_ok].
  apply (try_execute_runs _ (now s)); [done|done| |done].
  apply entry_Ok; [apply Hg|]. split; [by eapply list_elem_of_lookup_2|done].
Qed.

Lemma steps_with_slot {B : Type} svc (g : S → RecoverySlot → RecoverySlot * B) :
  (∀ s, harmless (g s)) → steps (λ s, Converged.with_slot svc (g s) s).
Proof. intros Hh s Hg _. by apply with_slot_runs; [|apply Hh..]. Qed.

Lemma steps_health_failure event explicit_pid : steps (Converged.on_health_failure handle event explicit_pid).
Proof.
  intros s Hg Hn. unfold Converged.on_health_failure.
  set (failed := match explicit_pid with Some pid => Some pid | None => _ end). clearbody failed. revert s Hg Hn.
  apply (steps_bind (λ s, match failed with Some pid => _ | None => _ end)); [destruct failed; [apply steps_emit|apply steps_ok]|].
  intros []. apply (steps_bind (λ s, Converged.with_slot _ _ s)).
  { apply steps_with_slot. intros s. apply fail_harmless. }
  intros decision. apply (steps_bind (λ s, match decision with Suppressed _ => _ | Scheduled _ _ => _ end)).
  { destruct decision; [apply steps_emit|apply steps_ok]. }
  intros []. apply steps_drive.
Qed.

Lemma steps_with_health {B : Type} svc (g : S → ServiceHealthRecord → ServiceHealthRecord * B) :
  steps (λ s, Converged.with_health svc (g s) s).
Proof.
  intros s Hg _. unfold Converged.with_health. destruct (Slots.update svc (g s) (health s)) as [h [b|e]]; (split; [|done]);
    by apply quiet_moves.
Qed.

Lemma steps_acceptance svc generation : steps (Converged.maybe_emit_acceptance_health svc generation).
Proof.
  unfold Converged.maybe_emit_acceptance_health. case_decide; [apply steps_ok|].
  apply (steps_bind (λ s, Converged.with_slot _ _ s)); [apply steps_with_slot; intros _; by apply same_runtime_harmless|].
  intros emitted. case_decide; [apply steps_ok|].
  apply (steps_bind (Converged.emit _)); [apply steps_emit|]. intros [].
  apply (steps_with_slot svc (λ _, _)). intros _. by apply same_runtime_harmless.
Qed.

Lemma touch_moves svc f s : good s → harmless (λ y, (f y, ())) → moves s (Converged.touch_slot svc f s).
Proof. intros Hg [H1 H2]. by apply (slot_step_moves svc (λ y, (f y, ()))). Qed.

Lemma steps_spawned svc generation pid : steps (λ s,
  let?+ s, _ := Converged.with_health svc (λ r, (Health.begin_instance generation (now s) (default_liveness s) r, ())) s in
  let '(slots, old) := Slots.update svc (λ x, (Recover.spawned x, restart_old_pid x)) (recovery s) in
  let s := Converged.set_recovery slots s in
  let?+ s, _ := match old with
                | Ok (Some old_pid) =>
                    if decide (old_pid ≠ pid) then Converged.emit (Format.restarted_line svc old_pid pid) s else (s, Ok ())
                | _ => (s, Ok ())
                end in
  Converged.drain_events handle svc s).
Proof.
  apply (steps_bind (λ s, Converged.with_health _ _ s)); [apply (steps_with_health svc (λ s, _))|]. intros [] s Hg Hn.
  pose proof (slot_step_moves svc (λ x, (Recover.spawned x, restart_old_pid x)) s Hg) as Hm.
  destruct (same_runtime_harmless (λ x, (Recover.spawned x, restart_old_pid x))) as [H1 H2]; [done|]. specialize (Hm H1 H2).
  destruct (Slots.update _ _ _) as [slots old]. apply (runs_weaken _ _ _ Hm). pose proof (mv_budget _ _ Hm) as Hb. cbn [fst] in *.
  pose proof (mv_good _ _ Hm) as Hg1. apply runs_bind.
  - destruct old as [[old_pid|]|]; [case_decide|..]; by (apply emit_runs || apply runs_ok).
  - intros s1 [] _ Hm1. pose proof (mv_budget _ _ Hm1). apply steps_drain; [apply Hm1|lia].
Qed.

Lemma steps_after event : steps (Converged.after_event handle event).
Proof.
  assert (∀ s, good s → (budget s ≤ n)%nat → runs s (
      let s := Converged.touch_slot (si_service (ev_instance event)) Recover.ended s in
      let?+ s, outcome := Converged.with_health (si_service (ev_instance event))
        (Health.notify_lifecycle_failure (si_generation (ev_instance event)) (ev_kind event) 0 (now s)) s in
      match outcome with
      | FailureMarked failure =>
          let?+ s, _ := Converged.emit (Format.health_unhealthy_line (si_service (ev_instance event)) (hf_reason failure)) s in
          Converged.on_health_failure handle failure (Some (si_pid (ev_instance event))) s
      | _ => (s, Ok ())
      end)) as Hend.
  { intros s Hg Hn. assert (moves s (Converged.touch_slot (si_service (ev_instance event)) Recover.ended s)) as Hm.
    { apply touch_moves; [done|]. by apply same_runtime_harmless. }
    apply (runs_weaken _ _ _ Hm). pose proof (mv_budget _ _ Hm) as Hb. cbv zeta.
    apply (steps_bind (λ s, Converged.with_health _ _ s)); [apply (steps_with_health _ (λ s, _))| |apply Hm|lia].
    intros [failure| | |]; [|apply steps_ok..]. apply (steps_bind (Converged.emit _)); [apply steps_emit|].
    intros []. apply steps_health_failure. }
  intros s Hg Hn. unfold Converged.after_event. destruct (ev_kind event) eqn:Ek; try by apply runs_ok.
  - by apply steps_spawned.
  - case_decide; [by apply emit_runs|by apply runs_ok].
  - by apply Hend.
  - by apply Hend.
Qed.

Lemma steps_handle_body event : steps (Converged.handle_body handle event).
Proof.
  unfold Converged.handle_body. apply (steps_bind (λ s, match ev_kind event with Ready => _ | _ => _ end)).
  { destruct (ev_kind event); (apply steps_acceptance || apply steps_ok). }
  intros [] s Hg Hn. destruct (handle_ext event (supervisor s)) as [He Ec].
  destruct (Sup.handle_lifecycle_event event (supervisor s)) as [y r]. cbn [fst] in He, Ec.
  assert (moves s (Converged.set_supervisor y s)) as Hm by (apply set_sup_moves; [done|done|by rewrite Ec|by rewrite Ec]).
  pose proof (mv_budget _ _ Hm). destruct r as [[]|[[e|e]|e|]]; try by split.
  - apply (runs_weaken _ _ _ Hm). apply (steps_bind (Converged.after_event handle event)); [apply steps_after|intros []; apply steps_drive|apply Hm|lia].
  - apply (runs_weaken _ _ _ Hm). destruct (Converged.repeats_ready _ _); [apply steps_acceptance; [apply Hm|lia]|apply runs_ok, Hm].
Qed.
End recursion.

Lemma handle_runs fuel e s : good s → (budget s < fuel)%nat → runs s (Converged.handle_lifecycle_event fuel e s).
Proof.
  revert e s. induction fuel as [|fuel IH]; intros e s Hg Hb; [lia|]. cbn [Converged.handle_lifecycle_event].
  apply (steps_handle_body fuel); [exact IH|done|lia].
Qed.

(** ** The calls *)

Inductive Call : Type :=
  | StartUp
  | Register (service : Z) (restart : RestartPolicy)
  | SetDependencies (metadata : DependencyMetadata)
  | Tick (t : Z)
  | Advance (t : Z)
  | Report (report : HealthReport)
  | Poll (service : Z)
  | RequestStart (service : Z)
  | Deliver (event : LifecycleEvent).

Definition call (fuel : nat) (c : Call) s : S * result (stop ConvergedSupervisorError) unit :=
  match c with
  | StartUp => Converged.start s
  | Register service restart => Converged.register_service service restart s
  | SetDependencies m => Converged.set_dependencies m s
  | Tick t => (Converged.set_virtual_ticks t s, Ok ())
  | Advance t => Converged.advance_ticks fuel t s
  | Report r => Converged.apply_health_report fuel r s
  | Poll service => let?+ s, _ := Converged.poll_lifecycle_event service s in (s, Ok ())
  | RequestStart service => Converged.request_start fuel service s
  | Deliver e => Converged.handle_lifecycle_event fuel e s
  end.

(** [max_attempts] is a [u32]. *)
Definition call_ok (c : Call) : Prop := match c with Register _ restart => in_width 32 (limit restart) | _ => True end.

Definition reports svc (c : Call) : Prop := match c with Report r => hp_service r = svc | _ => False end.

(** Restarts of [svc] are paid from its slot. *)
Definition spends svc s s' : Prop :=
  ∀ x, Slots.record svc (recovery s) = Ok x →
    ∃ x', Slots.record svc (recovery s') = Ok x' ∧ policy (runtime x') = policy (runtime x)
      ∧ (sent svc (transport s') + remaining x' ≤ sent svc (transport s) + remaining x)%nat.

Lemma moves_spends svc s s' : moves s s' → spends svc s s'.
Proof.
  intros [_ _ _ Hk _ Hs] x Hx. destruct (Hk svc x Hx) as (x' & Hx' & Hp). exists x'. split_and!; [done|done|].
  specialize (Hs svc). unfold left_for in Hs. by rewrite Hx, Hx' in Hs.
Qed.

Lemma spends_trans svc s1 s2 s3 : spends svc s1 s2 → spends svc s2 s3 → spends svc s1 s3.
Proof.
  intros H1 H2 x Hx. destruct (H1 x Hx) as (x2 & Hx2 & E2 & ?). destruct (H2 x2 Hx2) as (x3 & Hx3 & E3 & ?).
  exists x3. split_and!; [done|congruence|lia].
Qed.

Definition call_safe fuel c s : Prop :=
  no_halt (call fuel c s).2 ∧ good (call fuel c s).1 ∧ ∀ svc, ¬ reports svc c → spends svc s (call fuel c s).1.

Lemma runs_safe fuel c s : runs s (call fuel c s) → call_safe fuel c s.
Proof. intros [Hm Hn]. split_and!; [done|apply Hm|]. intros svc _. by apply moves_spends. Qed.

Lemma advance_safe fuel t s : good s → (budget s < fuel)%nat → call_safe fuel (Advance t) s.
Proof.
  intros Hg Hb. apply runs_safe. cbn [call]. unfold Converged.advance_ticks.
  set (s1 := Converged.refresh_dependency_health (Converged.set_virtual_ticks t s)).
  destruct (Health.poll_timeouts t (health s1)) as [h failures].
  assert (moves s (Converged.set_health h s1)) as Hm by by apply quiet_moves. apply (runs_weaken _ _ _ Hm).
  pose proof (mv_budget _ _ Hm). destruct fuel as [|n]; [lia|].
  assert (∀ e s0, good s0 → (budget s0 < Datatypes.S n)%nat → runs s0 (Converged.handle_lifecycle_event (Datatypes.S n) e s0)) as Hh by apply handle_runs.
  apply (steps_bind n (λ s, try_each _ _ s)); [|intros []|apply Hm|lia].
  - apply steps_each. intros e. apply (steps_health_failure n). intros e' s' Hg' Hb'. apply Hh; [done|lia].
  - apply steps_drive. intros e' s' Hg' Hb'. apply Hh; [done|lia].
Qed.

Lemma request_start_safe fuel svc s : good s → (budget s + K < fuel)%nat → call_safe fuel (RequestStart svc) s.
Proof.
  intros Hg Hb. unfold call_safe. cbn [call]. unfold Converged.request_start.
  assert (runs s (Converged.ensure_start_ready svc s)) as [Hm Hn].
  { unfold Converged.ensure_start_ready, Converged.readiness. apply (runs_weaken _ (Converged.refresh_dependency_health s)); [by apply quiet_moves|].
    assert (good (Converged.refresh_dependency_health s)) as Hg0 by by apply (quiet_moves s).
    destruct (Graph.evaluate_start_readiness _ _ _ _) as [[|reason]|e]; cbn [map_err]; [| |by split; [apply moves_refl|]].
    - destruct (Graph.has_dependencies _ _); [by apply emit_runs|by apply runs_ok].
    - apply runs_bind; [by apply emit_runs|]. intros s1 [] _ Hm. split; [apply moves_refl, Hm|done]. }
  destruct (Converged.ensure_start_ready svc s) as [s1 [[]|e]]; cbn [fst snd] in Hm, Hn.
  2: { split_and!; [done|apply Hm|]. intros svc' _. by apply moves_spends. }
  destruct (issue_ext (MkControl svc Start) (supervisor s1)) as [He Ec].
  destruct (issue_law (MkControl svc Start) (control (supervisor s1))) as [HB HS]. rewrite <- Ec in HB, HS.
  destruct (Sup.issue_control (MkControl svc Start) (supervisor s1)) as [y r] eqn:Ei. cbn [fst] in He, Ec, HB, HS. set (s2 := Converged.set_supervisor y s1).
  assert (Converged.sup (Sup.issue_control (MkControl svc Start)) s1 = (s2, map_err (λ e, Raise (SupervisorFailed e)) r)) as -> by (unfold Converged.sup; by rewrite Ei).
  assert (good s2) as Hg2.
  { destruct (mv_good _ _ Hm) as [H1 H2 H3 H4]. destruct (He H2) as [Hu Hk]. split; [done|done| |done]. intros z Hz. by apply Hk, H3. }
  assert (∀ svc', spends svc' s s2) as Hsp.
  { intros svc'. apply (spends_trans _ _ s1); [by apply moves_spends|]. intros x Hx. exists x. split_and!; [done|done|].
    specialize (HS svc'). rewrite decide_False in HS by congruence. unfold transport. cbn. lia. }
  assert (budget s2 ≤ budget s1 + K)%nat as Hb2 by (unfold budget, transport; cbn -[Nat.mul]; lia).
  pose proof (mv_budget _ _ Hm). destruct r as [[]|e]; [|by split_and!]. cbn [map_err].
  assert (runs s2 (let?+ s, _ := Converged.drain_events (Converged.handle_lifecycle_event fuel) svc s2 in
                   Converged.sup (Sup.log_service_state svc) s)) as [Hm3 Hn3].
  { apply runs_bind; [|intros s3 [] _ Hm3; apply log_state_runs, Hm3].
    apply (steps_drain fuel); [apply handle_runs|done|lia]. }
  split_and!; [done|apply Hm3|]. intros svc' _. eapply spends_trans; [apply Hsp|by apply moves_spends].
Qed.

Lemma log_ext pieces (y : Supervisor C D) :
  registry (Sup.log pieces y).1 = registry y ∧ control (Sup.log pieces y).1 = control y.
Proof. unfold Sup.log, Sup.emit_diagnostic. destruct (Line.write_all _ _ _); [|done]. by destruct (emit_line _ _). Qed.

Lemma sup_register_ext svc (y : Supervisor C D) :
  sup_ext y (Sup.register_service svc y).1 ∧ control (Sup.register_service svc y).1 = control y ∧
  (unique (registry y) → is_ok (Sup.register_service svc y).2 = true →
   is_ok (Slots.record svc (registry y)) = false ∧ is_ok (Slots.record svc (registry (Sup.register_service svc y).1)) = true).
Proof.
  unfold Sup.register_service, Sup.with_registry, Registry.declare.
  assert (∀ u, registry u = registry (MkSup (self_pid y) (Slots.declare svc (Rec.declared svc) (registry y)).1 (control y) (diagnostics y)) → control u = control y →
    is_ok (Slots.declare svc (Rec.declared svc) (registry y)).2 = true → sup_ext y u ∧ control u = control y ∧
    (unique (registry y) → is_ok (Slots.record svc (registry y)) = false ∧ is_ok (Slots.record svc (registry u)) = true)) as Hok.
  { intros u E1 E2 Ho. split_and!; [|done|].
    - intros Hu. pose proof (declare_spec (registry y) svc (Rec.declared svc) Hu eq_refl) as Hd. rewrite E1. cbn [registry].
      destruct (Slots.declare _ _ _) as [t [[]|e]]; [|done]. destruct Hd as (Hu' & _ & _ & Hr). split; [done|]. cbn. intros svc'. rewrite Hr. by case_decide.
    - intros Hu. pose proof (declare_spec (registry y) svc (Rec.declared svc) Hu eq_refl) as Hd. rewrite E1. cbn [registry].
      destruct (Slots.declare _ _ _) as [t [[]|e]]; [|done]. destruct Hd as (_ & Hn & _ & Hr). cbn. rewrite Hr, decide_True by done.
      split; [|done]. unfold Slots.record. by rewrite Hn. }
  assert (is_ok (Slots.declare svc (Rec.declared svc) (registry y)).2 = false → unique (registry y) →
    (Slots.declare svc (Rec.declared svc) (registry y)).1 = registry y) as Herr.
  { intros Ho Hu. pose proof (declare_spec (registry y) svc (Rec.declared svc) Hu eq_refl) as Hd. by destruct (Slots.declare _ _ _) as [t [[]|e]]. }
  destruct (Slots.declare svc (Rec.declared svc) (registry y)) as [t [[]|e]]; cbn [map_err fst snd] in *.
  - destruct (log_ext (Format.registered_line svc) (MkSup (self_pid y) t (control y) (diagnostics y))) as [E1 E2].
    destruct (Sup.log _ _) as [y1 [[]|e]]; cbn [fst snd] in *.
    + destruct (log_state_ext svc y1) as [E3 E4]. destruct (Hok (Sup.log_service_state svc y1).1) as (H1 & H2 & H3); [by rewrite E3, E1|by rewrite E4, E2|done|].
      split_and!; [done|done|by intros Hu _; apply H3].
    + destruct (Hok y1 E1 E2 eq_refl) as (H1 & H2 & H3). by split_and!.
  - split_and!; [|done|done]. intros Hu. rewrite (Herr eq_refl Hu). done.
Qed.

Lemma register_slot_good svc restart : in_width 32 (limit restart) → slot_good (Recover.register svc restart).
Proof. intros Hw. split; [done|]. exists 0. unfold in_width in Hw. split; cbn; [done|done|lia|done]. Qed.

Lemma register_safe fuel svc restart s : good s → call_ok (Register svc restart) → call_safe fuel (Register svc restart) s.
Proof.
  intros Hg Hw. unfold call_safe. cbn [call]. unfold Converged.register_service, Converged.sup.
  destruct (sup_register_ext svc (supervisor s)) as (He & Ec & Hnew). specialize (Hnew (gd_registry _ Hg)).
  destruct (Sup.register_service svc (supervisor s)) as [y r]. cbn [fst snd] in He, Ec, Hnew.
  assert (moves s (Converged.set_supervisor y s)) as Hm by (apply set_sup_moves; [done|done|by rewrite Ec|by rewrite Ec]).
  assert (∀ s', quiet (Converged.set_supervisor y s) s' → good s' ∧ ∀ svc', ¬ reports svc' (Register svc restart) → spends svc' s s') as Hq.
  { intros s' Q. pose proof (moves_trans _ _ _ Hm (quiet_moves _ _ (mv_good _ _ Hm) Q)) as Hm'. split; [apply Hm'|]. intros. by apply moves_spends. }
  destruct r as [[]|e]; cbn [map_err]; [|split; [done|by apply Hq]]. destruct (Hnew eq_refl) as [Hno Hyes].
  destruct (Health.register svc _) as [h [[]|e]]; cbn [map_err]; [|split; [done|by apply Hq]].
  destruct (Graph.declare svc _) as [g [[]|e]]; cbn [map_err]; [|split; [done|by apply Hq]].
  cbn [recovery Converged.set_graph Converged.set_health Converged.set_supervisor].
  destruct (position Slots.is_vacant (recovery s)) as [i|] eqn:Ei; [|split; [done|by apply Hq]].
  apply position_Some in Ei as ((e & Hi & Hv) & _). destruct e as [|]; [done|].
  assert (∀ x, Some x ∈ recovery s → rs_service x ≠ svc) as Hfresh.
  { intros x Hx E. pose proof (gd_known _ Hg x Hx) as Hk. unfold registered in Hk. congruence. }
  destruct (write_slot_spec (recovery s) svc i (Recover.register svc restart) (gd_unique _ Hg) eq_refl) as [Hu Hr];
    [by eapply lookup_lt_Some|congruence| |].
  { intros j x Hj E. exfalso. apply (Hfresh x); [by eapply list_elem_of_lookup_2|done]. }
  destruct (He (gd_registry _ Hg)) as [Hur Hk].
  assert (∀ x, Some x ∈ <[i := Some (Recover.register svc restart)]> (recovery s) → x = Recover.register svc restart ∨ Some x ∈ recovery s) as Hcase.
  { intros x [j Hj]%list_elem_of_lookup. apply list_lookup_insert_Some in Hj as [(-> & E & _)|[_ Hj]]; [left; congruence|].
    right. by eapply list_elem_of_lookup_2. }
  split; [done|]. split; [split|].
  - done.
  - done.
  - intros x [->|Hx]%Hcase; [done|]. by apply Hk, Hg.
  - intros x [->|Hx]%Hcase; [by apply register_slot_good|by apply Hg].
  - intros svc' _ x Hx. exists x. cbn [fst recovery Converged.set_recovery]. rewrite Hr. pose proof Hx as [Hin Es]%entry_Ok; [|apply Hg].
    rewrite decide_False by (intros ->; by apply (Hfresh x)). split_and!; [done|done|]. unfold transport. cbn. by rewrite Ec.
Qed.

Lemma report_touch svc s : good s →
  good (Converged.touch_slot svc Recover.report s) ∧ ∀ svc', svc' ≠ svc → spends svc' s (Converged.touch_slot svc Recover.report s).
Proof.
  intros Hg. unfold Converged.touch_slot. assert (∀ y, rs_service (Recover.report y) = rs_service y) as Hs.
  { intros y. unfold Recover.report. by case_decide. }
  destruct (Slots.record svc (recovery s)) as [x|e] eqn:Ex.
  - pose proof Ex as [Hin _]%entry_Ok; [|apply Hg]. destruct (live_good Reported x 0 0 (gd_slots _ Hg x Hin)) as [H1 _].
    destruct (slot_update svc (λ y, (Recover.report y, ())) s x Hg Ex Hs H1) as (slots & -> & Hc). split; [apply Hc|].
    intros svc' Hne z Hz. exists z. split_and!; [|done|done]. by rewrite (sc_other _ _ _ _ _ Hc).
  - pose proof (update_spec (recovery s) svc (λ y, (Recover.report y, ())) (gd_unique _ Hg) Hs) as Hu. rewrite Ex in Hu. rewrite Hu.
    assert (moves s (Converged.set_recovery (recovery s) s)) as Hm by by apply quiet_moves.
    split; [apply Hm|]. intros svc' _. by apply moves_spends.
Qed.

Lemma report_safe fuel r s : good s → (budget s < fuel)%nat → call_safe fuel (Report r) s.
Proof.
  intros Hg Hb. unfold call_safe. cbn [call reports]. unfold Converged.apply_health_report.
  pose proof (steps_with_health (budget s) (hp_service r) (λ s, Health.apply_report r (now s) (default_liveness s)) s Hg ltac:(lia)) as [Hm Hn].
  destruct (Converged.with_health _ _ s) as [s1 o]. cbn [fst snd] in Hm, Hn.
  assert (∀ c : S * result (stop ConvergedSupervisorError) unit, runs s1 c → no_halt c.2 ∧ good c.1 ∧ ∀ svc, hp_service r ≠ svc → spends svc s c.1) as Hruns.
  { intros c [Hm' Hn']. pose proof (moves_trans _ _ _ Hm Hm') as Hm2. split_and!; [done|apply Hm2|]. intros. by apply moves_spends. }
  destruct o as [o|e]; [|split_and!; [done|apply Hm|intros; by apply moves_spends]].
  pose proof (mv_budget _ _ Hm) as Hb1. pose proof (mv_good _ _ Hm) as Hg1.
  assert (∀ generation, let c := (let?+ s, _ := Converged.emit (Format.health_healthy_line (hp_service r) generation) s1 in
                                 (Converged.touch_slot (hp_service r) Recover.report s, Ok ())) in
    no_halt c.2 ∧ good c.1 ∧ ∀ svc, hp_service r ≠ svc → spends svc s c.1) as Hacc.
  { intros generation. pose proof (emit_runs (Format.health_healthy_line (hp_service r) generation) s1 Hg1) as [Hm' Hn'].
    destruct (Converged.emit _ s1) as [s2 [[]|e]]; cbn [fst snd] in Hm', Hn' |- *; [|by apply (Hruns (s2, Err e))].
    destruct (report_touch (hp_service r) s2) as [Hg2 Hsp]; [apply Hm'|]. split_and!; [done|done|]. intros svc Hne.
    eapply spends_trans; [apply moves_spends, (moves_trans _ _ _ Hm Hm')|by apply Hsp]. }
  destruct o as [g|g|g reason| | |]; [apply Hacc|apply Hacc| |by apply (Hruns (s1, Ok ())), runs_ok..].
  apply Hruns, runs_bind; [by apply emit_runs|]. intros s2 [] _ Hm2. pose proof (mv_budget _ _ Hm2).
  apply (steps_health_failure fuel); [apply handle_runs|apply Hm2|lia].
Qed.

(** Every call, with fuel for the events it can see. *)
Lemma call_is_safe fuel c s : good s → call_ok c → (budget s + K < fuel)%nat → call_safe fuel c s.
Proof.
  intros Hg Hc Hb. destruct c as [|svc restart|m|t|t|r|svc|svc|e].
  - apply runs_safe. cbn [call]. unfold Converged.start, Converged.sup, Sup.start.
    destruct (log_ext (Format.started_line (self_pid (supervisor s))) (supervisor s)) as [E1 E2].
    destruct (Sup.log _ _) as [y r]. split; [by apply quiet_moves|by destruct r].
  - by apply register_safe.
  - apply runs_safe. cbn [call]. unfold Converged.set_dependencies. destruct (Graph.set_dependencies _ _) as [g r].
    split; [by apply quiet_moves|by destruct r].
  - apply runs_safe. split; [by apply quiet_moves|done].
  - apply advance_safe; [done|lia].
  - apply report_safe; [done|lia].
  - apply runs_safe. cbn [call]. apply runs_bind; [by apply poll_runs|]. intros s1 o _ Hm. apply runs_ok, Hm.
  - by apply request_start_safe.
  - apply runs_safe, handle_runs; [done|lia].
Qed.

Lemma new_good N pid c d liveness : good (Converged.new N pid c d liveness).
Proof.
  split; cbn; [apply unique_new|apply unique_new|..]; intros x [i Hi]%list_elem_of_lookup; by apply lookup_replicate in Hi as [? _].
Qed.

(** Runs of calls that satisfy [P], each with the fuel it needs. *)
Inductive run (P : Call → Prop) : S → S → Prop :=
  | run_nil s : run P s s
  | run_call fuel c s s' : call_ok c → P c → (budget s + K < fuel)%nat → run P (call fuel c s).1 s' → run P s s'.

Lemma run_good P s s' : run P s s' → good s → good s'.
Proof.
  induction 1 as [|fuel c s s' Hc _ Hb _ IH]; [done|]. intros Hg. apply IH.
  by destruct (call_is_safe fuel c s Hg Hc Hb) as (_ & Hg' & _).
Qed.

Lemma run_spends svc s s' : run (λ c, ¬ reports svc c) s s' → good s → spends svc s s'.
Proof.
  induction 1 as [s|fuel c s s' Hc Hp Hb _ IH]; intros Hg; [intros x Hx; by exists x|].
  destruct (call_is_safe fuel c s Hg Hc Hb) as (_ & Hg' & Hs). eapply spends_trans; [by apply Hs|by apply IH].
Qed.

End loop.

(** * Lines fit their buffers *)

Lemma pretty_go_length k : ∀ (m : N) (acc : string), (m < 10 ^ N.of_nat k)%N →
  (String.length (pretty_N_go m acc) ≤ k + String.length acc)%nat.
Proof.
  induction k as [|k IH]; intros m acc Hm.
  - assert (m = 0)%N as -> by (cbn in Hm; lia). by rewrite pretty_N_go_0.
  - destruct (decide (m = 0)%N) as [->|Hne]; [rewrite pretty_N_go_0; lia|]. rewrite pretty_N_go_step by lia.
    etrans; [apply IH|cbn; lia]. apply N.Div0.div_lt_upper_bound. rewrite Nat2N.inj_succ, N.pow_succ_r' in Hm. lia.
Qed.

Lemma dec_length k m : 0 ≤ m < 10 ^ Z.of_nat (Datatypes.S k) → (String.length (dec m) ≤ Datatypes.S k)%nat.
Proof.
  intros Hm. unfold dec, pretty, pretty_N. case_decide; [cbn; lia|].
  etrans; [apply (pretty_go_length (Datatypes.S k))|cbn; lia].
  apply N2Z.inj_lt. rewrite Z2N.id, N2Z.inj_pow, nat_N_Z by lia. cbn -[Z.pow Z.of_nat]. lia.
Qed.

Lemma dec32 m : in_width 32 m → (String.length (dec m) ≤ 10)%nat.
Proof. intros Hm. apply (dec_length 9). unfold in_width in Hm. cbn -[Z.pow]. lia. Qed.

Lemma dec64 m : in_width 64 m → (String.length (dec m) ≤ 20)%nat.
Proof. intros Hm. apply (dec_length 19). unfold in_width in Hm. cbn -[Z.pow]. lia. Qed.

Lemma string_app_length (a b : string) : String.length (a +:+ b) = (String.length a + String.length b)%nat.
Proof. induction a as [|c a IH]; [done|]. exact (f_equal Datatypes.S IH). Qed.

Lemma write_all_fits cap pieces buffer :
  (String.length buffer + sum_list_with String.length pieces ≤ cap)%nat → is_Some (Line.write_all cap pieces buffer).
Proof.
  revert buffer. induction pieces as [|p pieces IH]; intros buffer Hl; [done|]. cbn [Line.write_all sum_list_with] in *.
  unfold Line.write_str. rewrite decide_False by lia. apply IH. rewrite string_app_length. lia.
Qed.

(** * The theorems *)

(** A transport that delivers finitely many events: those it holds and at most [per_request]
    more for each request. *)
Class FiniteTransport (C : Type) `{LifecycleControl C} : Type := {
  per_request : nat;
  held : C → nat;
  held_issue : ∀ r c, (held (issue_control r c).1 ≤ held c + per_request)%nat;
  held_poll : ∀ service c,
    match poll_event service c with
    | (c', Ok (Some _)) => (held c' < held c)%nat
    | (c', _) => (held c' ≤ held c)%nat
    end
}.

Definition is_queued (e : option LifecycleEvent) : nat := match e with Some _ => 1 | None => 0 end.

Lemma take_event_count service q :
  match FakeControl.take_event service q with
  | Some (_, q') => (sum_list_with is_queued q = Datatypes.S (sum_list_with is_queued q'))%nat
  | None => True
  end.
Proof.
  induction q as [|[e|] q IH]; cbn [FakeControl.take_event]; [done| |].
  - case_decide; [done|]. destruct (FakeControl.take_event service q) as [[e' q']|]; [|done]. cbn in *. lia.
  - by destruct (FakeControl.take_event service q) as [[e' q']|].
Qed.

#[export] Instance fake_finite : FiniteTransport FakeLifecycleControl.
Proof.
  refine {| per_request := 0; held := λ f, sum_list_with is_queued (fake_pending f) |}.
  - intros r c. cbn. unfold FakeControl.issue_control. case_decide; cbn; lia.
  - intros service c. cbn. unfold FakeControl.poll_event. pose proof (take_event_count service (fake_pending c)) as Ht.
    destruct (FakeControl.take_event _ _) as [[e q]|]; cbn; lia.
Defined.

(** The transport over system calls is finite when the kernel's queues are: a poll whose status
    is a reply length has taken an event off a queue; no event (status 0) and an error status,
    which is larger than any length, add none. *)
Class FiniteKernel (K : Type) `{LifecycleKernel K} : Type := {
  kernel_per_request : nat;
  kernel_held : K → nat;
  kernel_control : ∀ cap bytes k, (kernel_held (sys_lifecycle_control cap bytes k).1 ≤ kernel_held k + kernel_per_request)%nat;
  kernel_poll : ∀ service cap k,
    match sys_lifecycle_poll service cap k with
    | (k', (status, _)) =>
        if decide (0 < status ≤ Z.of_nat LIFECYCLE_WIRE_MAX_BYTES) then (kernel_held k' < kernel_held k)%nat
        else (kernel_held k' ≤ kernel_held k)%nat
    end
}.

(** The laws can be met: a kernel that queues one reply per request, refuses the null capability
    with an error status and otherwise answers a poll with the oldest reply. *)
Module QueueKernel.

Record t : Type := Queue { replies : list (list Z) }.

#[export] Instance queue_kernel : LifecycleKernel t := {|
  sys_lifecycle_control := λ cap bytes k,
    if decide (cap = 0) then (k, (Syscall.SYSCALL_ESTALE, [])) else (Queue (replies k ++ [bytes]), (0, []));
  sys_lifecycle_poll := λ _ cap k,
    if decide (cap = 0) then (k, (Syscall.SYSCALL_ESTALE, []))
    else match replies k with
         | [] => (k, (0, []))
         | bytes :: rest => (Queue rest, (Z.of_nat (length bytes), bytes))
         end
|}.

#[export] Instance queue_finite : FiniteKernel t.
Proof.
  refine {| kernel_per_request := 1; kernel_held := λ k, length (replies k) |}.
  - intros cap bytes k. cbn. case_decide; cbn; [lia|]. rewrite length_app. cbn. lia.
  - intros service cap k. cbn. destruct (decide (cap = 0)); [by rewrite decide_False by (vm_compute; intuition congruence)|].
    destruct k as [[|bytes rest]]; cbn; case_decide; lia.
Defined.

End QueueKernel.

Lemma read_reply_length status reply event :
  Syscall.read_reply status reply = Ok (Some event) → 0 < status ≤ Z.of_nat LIFECYCLE_WIRE_MAX_BYTES.
Proof.
  unfold Syscall.read_reply. case_decide; [done|]. case_decide; [done|].
  destruct (decide (0 < status)); [lia|]. replace (Z.to_nat status) with 0%nat by lia. done.
Qed.

#[export] Instance syscall_finite {K : Type} `{FiniteKernel K} : FiniteTransport (SyscallLifecycleControl K).
Proof.
  refine {| per_request := Datatypes.S kernel_per_request;
            held := λ c, (sum_list_with is_queued (sys_pending c) + kernel_held (kernel c))%nat |}.
  - intros r c. cbn. unfold Syscall.issue_control, Syscall.syscall_lifecycle.
    pose proof (kernel_control (capability c) (Wire.encode (MsgControl r)) (kernel c)) as Hk.
    destruct (sys_lifecycle_control _ _ _) as [k [status reply]]. cbn in Hk.
    destruct (if decide (status = Syscall.SYSCALL_ESTALE) then _ else _) as [[e|]|]; cbn; [|lia|lia].
    unfold Syscall.push_pending. case_decide; cbn; [lia|]. destruct (position _ _) as [i|] eqn:Ei; cbn; [|lia].
    apply position_Some in Ei as ((o & Hi & Ho) & _). destruct o; [done|].
    pose proof (sum_insert is_queued _ i None (Some e) Hi) as Hs. cbn in Hs. lia.
  - intros service c. cbn. unfold Syscall.poll_event. pose proof (take_event_count service (sys_pending c)) as Ht.
    destruct (FakeControl.take_event _ _) as [[e q]|]; cbn; [lia|]. unfold Syscall.syscall_poll.
    pose proof (kernel_poll service (capability c) (kernel c)) as Hk. destruct (sys_lifecycle_poll _ _ _) as [k [status reply]].
    destruct (Syscall.read_reply status reply) as [[e|]|] eqn:Er; cbn.
    + rewrite decide_True in Hk by (by eapply read_reply_length). lia.
    + case_decide; lia.
    + case_decide; lia.
Defined.

(** A transport with the list of the requests issued to it. *)
Record Recorder (C : Type) : Type := MkRecorder { recorded : C; requests : list ControlRequest }.

Arguments MkRecorder {C}.
Arguments recorded {C}.
Arguments requests {C}.

#[export] Instance recorder_control {C : Type} `{LifecycleControl C} : LifecycleControl (Recorder C) := {|
  issue_control r c := let '(x, res) := issue_control r (recorded c) in (MkRecorder x (requests c ++ [r]), res);
  poll_event service c := let '(x, res) := poll_event service (recorded c) in (MkRecorder x (requests c), res)
|}.

Definition restarts_requested {C : Type} (svc : Z) (c : Recorder C) : nat :=
  length (List.filter (λ r, bool_decide (r = MkControl svc Restart)) (requests c)).

Section theorems.
Context {C D : Type} `{LifecycleControl C} `{DiagnosticSink D} `{!FiniteTransport C}.

Lemma finite_poll_law (service : Z) (c : C) :
  (∀ svc : Z, (0 ≤ 0)%nat) ∧ match (poll_event service c).2 with
    | Ok (Some _) => (held (poll_event service c).1 < held c)%nat
    | _ => (held (poll_event service c).1 ≤ held c)%nat
    end.
Proof. split; [done|]. pose proof (held_poll service c) as Hp. by destruct (poll_event service c) as [c' [[]|]]. Qed.

Lemma finite_issue_law r (c : C) :
  (held (issue_control r c).1 ≤ held c + per_request)%nat
  ∧ ∀ svc, (0 ≤ 0 + if decide (r = MkControl svc Restart) then 1 else 0)%nat.
Proof. split; [apply held_issue|intros; lia]. Qed.

(** Transports that hold finitely many events keep the invariant. *)
Lemma finite_run_good P N pid (c : C) (d : D) liveness s :
  run per_request held P (Converged.new N pid c d liveness) s → good s.
Proof.
  intros Hrun. exact (run_good per_request held (λ _ _, 0%nat) finite_issue_law finite_poll_law _ _ _ Hrun (new_good N pid c d liveness)).
Qed.

(** C16: Supervision terminates. Handling an event can restart services, which drains further events
    and restarts again; with a transport that delivers finitely many events per request this
    ends: in every state the supervisor reaches, every call returns within a recursion depth
    given by the events at hand and the restarts its slots have left. *)
Theorem supervision_terminates N pid (c : C) (d : D) liveness s a fuel :
  run per_request held (λ _, True) (Converged.new N pid c d liveness) s → call_ok a →
  (budget per_request held s + per_request < fuel)%nat → no_halt (call fuel a s).2.
Proof.
  intros Hrun Ha Hf.
  by destruct (call_is_safe per_request held (λ _ _, 0%nat) finite_issue_law finite_poll_law fuel a s (finite_run_good _ _ _ _ _ _ _ Hrun) Ha Hf) as [? _].
Qed.

Definition recorder_held (c : Recorder C) : nat := held (recorded c).

Lemma recorder_issue_law r (c : Recorder C) :
  (recorder_held (issue_control r c).1 ≤ recorder_held c + per_request)%nat
  ∧ ∀ svc, (restarts_requested svc (issue_control r c).1 ≤ restarts_requested svc c + if decide (r = MkControl svc Restart) then 1 else 0)%nat.
Proof.
  pose proof (held_issue r (recorded c)) as Hh. unfold recorder_held, restarts_requested. cbn.
  destruct (issue_control r (recorded c)) as [x res]. split; [done|]. intros svc. cbn.
  rewrite List.filter_app, length_app. cbn. case_decide; [rewrite bool_decide_eq_true_2 by done; cbn; lia|].
  rewrite bool_decide_eq_false_2 by done. cbn. lia.
Qed.

Lemma recorder_poll_law service (c : Recorder C) :
  (∀ svc, (restarts_requested svc (poll_event service c).1 ≤ restarts_requested svc c)%nat)
  ∧ match (poll_event service c).2 with
    | Ok (Some _) => (recorder_held (poll_event service c).1 < recorder_held c)%nat
    | _ => (recorder_held (poll_event service c).1 ≤ recorder_held c)%nat
    end.
Proof.
  pose proof (held_poll service (recorded c)) as Hp. unfold recorder_held, restarts_requested. cbn.
  destruct (poll_event service (recorded c)) as [x [[]|]]; by split.
Qed.

(** C15: The supervisor keeps to the restart budget. From any state it reaches, whatever events,
    timeouts, failures and calls follow, it asks the transport for at most as many restarts
    of a service as its policy allows beyond the attempts already used, until a health report
    of that very service comes in; the service keeps its recovery slot and policy. *)
Theorem restarts_within_budget N pid (c : C) (d : D) liveness s s' svc x :
  run per_request recorder_held (λ _, True) (Converged.new N pid (MkRecorder c []) d liveness) s →
  Slots.record svc (recovery s) = Ok x → run per_request recorder_held (λ a, ¬ reports svc a) s s' →
  0 ≤ attempts (runtime x) ≤ limit (policy (runtime x)) ∧
  Z.of_nat (restarts_requested svc (transport s')) ≤
    Z.of_nat (restarts_requested svc (transport s)) + (limit (policy (runtime x)) - attempts (runtime x)) ∧
  ∃ x', Slots.record svc (recovery s') = Ok x' ∧ policy (runtime x') = policy (runtime x).
Proof.
  intros Hrun Hx Hrun'.
  pose proof (run_good per_request recorder_held restarts_requested recorder_issue_law recorder_poll_law _ _ _ Hrun
    (new_good N pid (MkRecorder c []) d liveness)) as Hg.
  destruct (run_spends per_request recorder_held restarts_requested recorder_issue_law recorder_poll_law svc _ _ Hrun' Hg x Hx)
    as (x' & Hx' & Hp & Hs).
  pose proof Hx as [Hin _]%entry_Ok; [|apply Hg]. destruct (gd_slots _ Hg x Hin) as [_ [t [_ _ Hb _]]]. cbn in Hb.
  unfold remaining in Hs. split_and!; [lia|lia|lia|by exists x'].
Qed.
End theorems.

(** * A start that hangs *)

Section hung.
Context {C D : Type} `{LifecycleControl C} `{DiagnosticSink D}.

Implicit Types s : ConvergedSupervisor C D.

Lemma emit_fits pieces s :
  (∀ line (d : D), is_ok (emit_line line d).2 = true) → (sum_list_with String.length pieces ≤ Converged.LINE_BYTES)%nat →
  ∃ s1, Converged.emit pieces s = (s1, Ok ()) ∧ quiet s s1.
Proof.
  intros Hsink Hl. destruct (write_all_fits Converged.LINE_BYTES pieces "") as [line El]; [done|].
  unfold Converged.emit, Converged.sup, Sup.emit_diagnostic. rewrite El. specialize (Hsink line (diagnostics (supervisor s))).
  destruct (emit_line line _) as [d [[]|e]]; [|done]. eexists. by split.
Qed.

(** A service that is starting refuses to restart. *)
Lemma restart_refused svc (y : Supervisor C D) r c' :
  unique (registry y) → Slots.record svc (registry y) = Ok r → lr_state r = Starting →
  issue_control (MkControl svc Restart) (control y) = (c', Ok ()) →
  Sup.issue_restart_sequence svc y
    = (MkSup (self_pid y) (registry y) c' (diagnostics y),
       Err (RegistryFailed (Transition (InvalidTransition Starting (Control Restart))))).
Proof.
  intros Hu Hr Hst Hc. unfold Sup.issue_restart_sequence, Sup.issue_control, Sup.with_control. rewrite Hc. cbn [map_err].
  unfold Sup.with_registry, Registry.apply_control, Registry.apply_to. cbn [registry cr_service].
  pose proof Hr as [_ Es]%entry_Ok; [|done]. change (lr_service r = svc) in Es.
  pose proof (update_spec (registry y) svc (Rec.apply_control (MkControl svc Restart)) Hu (apply_control_service _)) as Hup.
  rewrite Hr in Hup. destruct Hup as (t & -> & _ & _ & _ & Hid). unfold Rec.apply_control in *. cbn [cr_service cr_kind] in *.
  rewrite decide_False in * by naive_solver. rewrite Hst in *. cbn in *. by rewrite Hid.
Qed.

(** C35: A start that hangs uses up restarts without one happening. When an instance never becomes
    ready, its liveness timeout leads here with the service still [Starting]. The restart
    request is sent to the transport, but the registry refuses [Restart] in that state: the
    call fails, no new start is sent, the service stays [Starting] under its old instance, and
    the attempt counts as used with no further restart pending. *)
Theorem hung_start_not_restarted handle svc attempt s r x c' :
  (∀ line (d : D), is_ok (emit_line line d).2 = true) → good s → in_width 32 svc → in_width 32 attempt →
  Slots.record svc (registry (supervisor s)) = Ok r → lr_state r = Starting →
  Slots.record svc (recovery s) = Ok x →
  Graph.evaluate_start_readiness svc (registry (supervisor s)) (Some (dep_health (Converged.refresh_dependency_health s)))
    (dependencies s) = Ok ReadyToStart →
  issue_control (MkControl svc Restart) (transport s) = (c', Ok ()) →
  ∃ s' x', Converged.try_execute_restart handle svc attempt s
      = (s', Err (Raise (SupervisorFailed (RegistryFailed (Transition (InvalidTransition Starting (Control Restart)))))))
    ∧ transport s' = c' ∧ Slots.record svc (registry (supervisor s')) = Ok r
    ∧ Slots.record svc (recovery s') = Ok x' ∧ attempts (runtime x') = attempt ∧ pending (runtime x') = false.
Proof.
  intros Hsink Hg Hw Ha Hr Hst Hx Hready Hc. unfold Converged.try_execute_restart, Converged.readiness.
  change (registry (supervisor (Converged.refresh_dependency_health s))) with (registry (supervisor s)).
  change (dependencies (Converged.refresh_dependency_health s)) with (dependencies s). rewrite Hready. cbn [map_err].
  pose proof (dec32 svc Hw) as Hl1. pose proof (dec32 attempt Ha) as Hl2.
  destruct (emit_fits (Format.dependency_ready_line svc) (Converged.refresh_dependency_health s) Hsink) as (s1 & -> & R1 & G1 & T1).
  { unfold Converged.LINE_BYTES. cbn in *. lia. }
  unfold Converged.with_slot. rewrite R1. change (recovery (Converged.refresh_dependency_health s)) with (recovery s).
  pose proof (update_spec (recovery s) svc (λ y, (y, default 0 (failed_pid (runtime y)))) (gd_unique _ Hg)) as Hu.
  rewrite Hx in Hu. destruct Hu as (slots & -> & _ & _ & _ & Hid); [done|]. rewrite Hid by done. cbn [map_err].
  set (s2 := Converged.set_recovery (recovery s) s1).
  destruct (emit_fits (Format.restart_line svc attempt) s2 Hsink) as (s3 & -> & R3 & G3 & T3).
  { unfold Converged.LINE_BYTES. cbn in *. lia. }
  unfold Converged.touch_slot. rewrite R3. cbn [recovery s2 Converged.set_recovery].
  pose proof (update_spec (recovery s) svc (λ y, (Recover.attempt attempt y, ())) (gd_unique _ Hg)) as Hu.
  rewrite Hx in Hu. destruct Hu as (slots' & -> & _ & _ & Hrec & _); [done|]. cbn [fst].
  unfold Converged.sup at 1. cbn [supervisor Converged.set_recovery].
  rewrite (restart_refused svc (supervisor s3) r c').
  - cbn [map_err]. eexists _, (Recover.attempt attempt x). split; [done|]. cbn. rewrite G3. cbn. rewrite G1. cbn.
    split_and!; [done|done| |done|done]. by rewrite Hrec, decide_True.
  - rewrite G3. cbn. rewrite G1. apply Hg.
  - rewrite G3. cbn. by rewrite G1.
  - done.
  - unfold transport in *. rewrite T3. cbn. by rewrite T1.
Qed.
End hung.

(** * A service that never becomes ready *)

#[export] Instance vec_sink : DiagnosticSink (list string) := λ line d, (d ++ [line], Ok ()).

Module Hung.
Definition spawned (generation pid : Z) : LifecycleEvent := MkEvent (MkInstance 7 generation pid 1) InstanceSpawned 0.
Definition exited (generation pid : Z) : LifecycleEvent := MkEvent (MkInstance 7 generation pid 1) ExitedEvent 0.

(** The kernel reports one instance and nothing more. *)
Definition wire : FakeLifecycleControl := (FakeControl.push_pending (spawned 1 200) (FakeControl.new 8)).1.

Definition policy : RestartPolicy := OnFailure (MkBounded 3 5).

Definition boot {C : Type} `{LifecycleControl C} (c : C) : ConvergedSupervisor C (list string) :=
  Converged.new 2 1 c [] (MkLiveness 10).

Definition registered {C : Type} `{LifecycleControl C} (c : C) : ConvergedSupervisor C (list string) := (call 50 (Register 7 policy) (boot c)).1.

Definition started {C : Type} `{LifecycleControl C} (c : C) : ConvergedSupervisor C (list string) := (call 50 (RequestStart 7) (registered c)).1.

Lemma policy_ok : call_ok (Register 7 policy).
Proof. vm_compute. split; congruence. Qed.

Lemma started_run (P : Call → Prop) : P (Register 7 policy) → P (RequestStart 7) → run per_request (held (C := FakeLifecycleControl)) P (boot wire) (started wire).
Proof.
  intros P1 P2. apply (run_call _ _ _ 50 (Register 7 policy)); [apply policy_ok|done|apply Nat.ltb_lt; by vm_compute|].
  apply (run_call _ _ _ 50 (RequestStart 7)); [done|done|apply Nat.ltb_lt; by vm_compute|]. unfold started, registered. apply run_nil.
Qed.

Lemma recorded_run : run per_request (recorder_held (C := FakeLifecycleControl)) (λ _, True) (boot (MkRecorder wire [])) (started (MkRecorder wire [])).
Proof.
  apply (run_call _ _ _ 50 (Register 7 policy)); [apply policy_ok|done|apply Nat.ltb_lt; by vm_compute|].
  apply (run_call _ _ _ 50 (RequestStart 7)); [done|done|apply Nat.ltb_lt; by vm_compute|]. unfold started, registered. apply run_nil.
Qed.

Lemma started_good : good (started wire).
Proof.
  apply (finite_run_good (λ _, True) 2 1 wire [] (MkLiveness 10)). by apply started_run.
Qed.
End Hung.

(** The instance times out. *)
Lemma supervision_terminates_witness : no_halt (call 50 (Advance 10) (Hung.started Hung.wire)).2.
Proof.
  apply (supervision_terminates 2 1 Hung.wire [] (MkLiveness 10)); [by apply (Hung.started_run (λ _, True))|done|].
  apply Nat.ltb_lt. by vm_compute.
Defined.

(** The first instance exits: one restart is asked for, out of three. *)
Lemma restarts_within_budget_witness :
  let s' := (call 50 (Deliver (Hung.exited 1 200)) (Hung.started (MkRecorder Hung.wire []))).1 in
  restarts_requested 7 (transport s') = 1%nat ∧ Z.of_nat (restarts_requested 7 (transport s')) ≤ 0 + (3 - 0).
Proof.
  intros s'. split; [by vm_compute|].
  destruct (restarts_within_budget 2 1 Hung.wire [] (MkLiveness 10) (Hung.started (MkRecorder Hung.wire [])) s' 7
    (Recover.spawned (Recover.register 7 Hung.policy))) as (_ & Hb & _).
  - apply Hung.recorded_run.
  - vm_compute. reflexivity.
  - apply (run_call _ _ _ 50 (Deliver (Hung.exited 1 200))); [done|intros []|apply Nat.ltb_lt; by vm_compute|]. apply run_nil.
  - exact Hb.
Defined.

Lemma hung_start_not_restarted_witness :
  ∃ s', Converged.try_execute_restart (Converged.handle_lifecycle_event 50) 7 1 (Hung.started Hung.wire)
    = (s', Err (Raise (SupervisorFailed (RegistryFailed (Transition (InvalidTransition Starting (Control Restart))))))).
Proof.
  destruct (hung_start_not_restarted (Converged.handle_lifecycle_event 50) 7 1 (Hung.started Hung.wire)
    (MkRecord 7 Starting 1 (Some (MkInstance 7 1 200 1))) (Recover.spawned (Recover.register 7 Hung.policy))
    (issue_control (MkControl 7 Restart) (transport (Hung.started Hung.wire))).1) as (s' & x' & E & _).
  - done.
  - apply Hung.started_good.
  - vm_compute. split; congruence.
  - vm_compute. split; congruence.
  - vm_compute. reflexivity.
  - done.
  - vm_compute. reflexivity.
  - vm_compute. reflexivity.
  - vm_compute. reflexivity.
  - exists s'. exact E.
Defined.
